(* ===== verification/_CoqProject ===== *)
-Q . S2P
Prelude.v
Bytes.v
Decimal.v
Message.v
ParseFacts.v
Serialize.v
Codec.v
CApi.v
ContentType.v
MessageTheorems.v
SessionTypes.v
OffsetTracker.v
Crypto.v
AuthRefresh.v
StreamRegistry.v
SessionCodec.v
Session.v
SessionFacts.v
SessionSpec.v
SessionRefines.v
SessionSafety.v
SessionCalls.v
SessionDemo.v
SessionComponents.v
SessionOutcomes.v
SessionTheorems.v
H2Frame.v
H2Session.v
H2Facts.v
H2Safety.v
H2Theorems.v
TransportWs.v
SessionUws.v
SafeQueue.v
PyMessage.v
PySession.v
PyLocks.v
PyModule.v
PyServer.v
H2Run.v
H2Pool.v
H2Open.v
H2View.v
H2Wire.v
H2Turns.v
H2System.v
H2Client.v
H2Tagged.v
H2Duplex.v
H2Socket.v
H2Endpoints.v
PyLoop.v
H2Media.v
