(* ===== verification/Prelude.v ===== *)
(** * Verification of the CulpeoStream C++ libraries

    CulpeoStream carries media streams and control events over a message
    transport.  The C++ implementation (src/implementations/cpp) has four
    libraries and Python bindings, and this development models their code
    definition by definition and proves what each layer promises to the one above
    it.  File and function names
    below are relative to that directory.

    ** Parts of the program and files of the development

    - The language.  [Prelude]: [std::expected], [while] loops as a step function
      with a decreasing measure, unsigned arithmetic modulo a width, and the width
      of [size_t] as a class ([lp64] and [wasm32] are its instances).  [Bytes]:
      characters, byte strings, substring search and [string_view] with the offset
      of its first byte in the underlying buffer.  [Decimal]: printing and reading
      integers.
    - libculpeo-message, the frame codec.  [Message] is the header parser of
      src/message.cpp with its line loop, and a reference definition by structural
      recursion on the list of lines; [ParseFacts] relates the two.  [Serialize]
      is the serializer on a fixed buffer, where a write that does not fit is an
      outcome of its own; [Codec] joins parser and serializer.  [ContentType] is
      parse_content_type.  [CApi] is src/c_api.cpp, the C functions exported to
      WebAssembly, over arrays and lengths.  [MessageTheorems] has the results.
    - libculpeo-session, the protocol engine.  [SessionTypes], [OffsetTracker]
      (src/offset_tracker.cpp), [Crypto] (src/crypto.hpp and the hexadecimal
      codecs), [AuthRefresh] (src/auth_refresh.cpp), [StreamRegistry]
      (src/stream_registry.cpp), [SessionCodec] (the file-local helpers of
      src/session.cpp) and [Session] (Session and Session::Impl).  A public method
      is a process, a tree of critical sections under the session's mutex ([Locked],
      an atomic update of the record [Impl]) and of calls to the transport and the
      application made without it ([Do]); [Crash] is undefined behaviour or an
      exception that leaves a noexcept function.  [SessionFacts] runs processes
      sequentially.  [SessionSpec] is the abstract session, a transition system
      without frames or I/O; [SessionRefines] shows that every critical section of
      every method is one of its transitions; [SessionSafety] interleaves any
      number of threads and lifts invariants of the abstract rules to all
      executions; [SessionCalls] says which calls each method makes and where their
      data comes from.  [SessionDemo] has concrete frames; [SessionOutcomes] says what
      init, auth-response and close lead to on every branch; [SessionComponents]
      and [SessionTheorems] have the other results.
    - libculpeo-transport-h2.  [H2Frame] is the envelope and the reassembly
      buffer, [H2Session] the callbacks and frame operations of H2Session and
      H2Transport (src/h2_session.hpp, src/h2_client.cpp,
      src/h2_transport.cpp), [H2Facts] the queues of one stream, [H2Safety]
      the session as a transition system with the invariant of the stream
      table, [H2Theorems] the results on frames.  [H2Run] is the loop of a
      connection (init_nghttp2, drain_to_wire and run of src/h2_client.cpp) as
      an interaction tree: a section on the strand is one event, a suspension
      in the socket another.  [H2Pool] has the other operations as coroutines,
      IAsyncTransport (include/culpeo/async_transport.hpp) with H2Transport,
      the coroutine of a stream, and any number of coroutines on one strand; a
      program logic on their sections carries an invariant to all executions.
      [H2View] is what every callback and operation does to a server's stream
      table, [H2System] the connection under load, [H2Open] the coroutines
      that leave a session open and the protocol of the loop, [H2Client] is
      CulpeoH2Client (src/h2_client.cpp): connect with the loop it spawns, and
      the operations of a client as coroutines beside the others of their
      session, [H2Socket] what close of the socket wrappers of
      src/h2_session.hpp does.  [H2Duplex] joins a client and a server with
      all their coroutines by two such sockets: [H2Wire] relates what one
      nghttp2 puts out to what the other calls back, and the queues of a
      stream to both; [H2Turns] follows the bytes through the coroutines;
      [H2Tagged] is a small wire format for both ends on which the theorems
      are evaluated.  [H2Endpoints] is CulpeoH2Server (src/h2_server.cpp): the
      accept loop and the coroutine of a stream as interaction trees, the TLS
      handshake with its timer.  [H2Media] is a session's media path over
      HTTP/2.
    - libculpeo-transport-ws.  [TransportWs] is WsTransport (src/transport_ws.cpp)
      and the uWebSockets adapter (include/culpeo/uws_adapter.hpp).  [SessionUws]
      is a session, this transport and the event loop as one system.
    - culpeostream-py (src/bindings.cpp).  [SafeQueue] is the blocking queue
      with its threads, mutex and condition variable; [PyMessage] is
      PyCulpeoMessage, with UTF-8 decoding; [PySession] is PyWsTransport and
      PySession, with the interpreter lock; [PyLocks] is the three locks that
      threads take when they call a session and are called back; [PyServer] is
      PyServerTransport and the queue of PyH2Server; the handler of PyH2Server
      is in [H2Endpoints], PyH2Client in [H2Client]; [PyLoop] is the event
      loop of both with its thread and work guard, from the constructor to the
      destructor; [PyModule] is what PYBIND11_MODULE exposes.

    The session calls the message layer (parse and serialize), the registry, the
    nonce manager and the offset tracker directly, as in the code; the transports
    are reached through the calls [send_text], [send_binary] and [transport_close]
    of a process.  The coroutines of an HTTP/2 connection share one H2Session and
    meet on its strand; handlers reach it through IAsyncTransport only, and theorems
    about connections hold for every handler that does.  The Python bindings call
    the session, the transports, the client and the server.

    ** What the theorems show

    - Codec: the parser computes the reference definition, accepts exactly the
      frames it describes, returns views of the caller's buffer, and lets no
      header value contain a line break; the serializer is exact and stays inside
      its buffer; parsing inverts serializing.  The C functions do the same over
      raw arrays on a 64-bit host, and what goes wrong with a 32-bit [size_t] is
      shown.
    - Session: an init establishes the session, and an answer to a challenge is
      accepted, exactly under the stated conditions, and every other one closes
      it.  Refinement of the abstract session; in every interleaving the
      invariant holds, every call comes from a call made to the session and carries
      its data, nothing is established without accepted credentials, and
      an established session keeps its identity, its streams and the direction of
      its offsets.  Media frames are delivered exactly when acceptable and sender
      and receiver stay in step; an exported session resumes as it was; challenges
      are single-use, expire and are spaced; ping answers are bounded.
    - HTTP/2: frames arrive in order through any cutting of the bytes; the decoder
      is exact on arbitrary bytes; the stream limit and the admission rules hold
      for every order of callbacks; a closed session is silent.  The loop of a
      connection returns whatever the socket does and leaves nothing open, as long
      as no write throws; each stream has been told, unless its channel is full.  In every interleaving of the coroutines of a server's
      connection the number of admitted open streams is bounded and no open stream
      is lost, whatever the handlers do.  A frame received from a stream, at either
      end of a connection, was queued on that stream at the other, and frames keep
      their order, in every interleaving of the coroutines of both ends, if writes
      reach the socket in the order they were started; none is missing while at most
      as many were queued as the channel of a stream holds.  close_session ends the
      loop of a connection over TCP.  After connect the session is open as long as its
      loop runs, and a frame is refused only once it has ended; the accept loop serves the connections up to the first
      failure; no connection stays in the TLS handshake beyond the timeout.
    - Across layers: media sent with send_media through an HTTP/2 stream is
      received, parsed and accepted in order, and both ends agree on the offset.
      Over uWebSockets, the calls on the socket are a prefix of what the session
      asked for, and media reaches the socket only after the application accepted
      the client's credentials.
    - WebSocket: close reasons are bounded and clean, and the adapter makes no call
      on a socket after its shutdown.
    - Python: the queue is first-in first-out and loses no wake-up for any number
      of threads; threads that share a session do not deadlock on its locks unless a
      callable of the transport calls the session; a message has exactly the headers of the frame; a session is only
      established after the Python validator accepted the token of an init frame
      that Python gave it, by a simulation of the C++ session; a server stream delivers its frames in order and ends with
      StopIteration, and the coroutine that serves it goes through exactly the
      events of that model; the destructor of a client or server returns once the
      peers have closed, with nothing left running.
    - Theorems that state an unwelcome behaviour as it is: a closed session can be
      established by a late authorization, [receive_frame] on a closed HTTP/2
      stream waits for ever, a frame without headers cannot be parsed back, a
      repeated content-type parameter weakens the comparison, a ping is sent with
      nonce zero when there is no entropy; two coroutines write to one socket at
      the same time and what they write can reach the peer mixed; a callable of a
      Python transport that sends through the session locks a mutex of its own
      thread again; a failing write leaves the loop without closing anything;
      connect can return although its session has ended; a full channel loses the
      end-of-file; a stream the server refuses is reported as open; errors of Python callbacks
      are reported without the interpreter lock, a cut close reason is lost, and a
      transport can be used after it was destroyed; streams that are reset while a
      handler has a frame to read use up a connection for good; closing over TLS
      leaves a read in progress, and the destructors of Python wait for it; a
      session made in Python never refreshes credentials and is never resumed.

    ** Totality

    Every loop is [loop measure step] with an instance of [Decreasing]: it runs
    one iteration more than its measure, which [loop_fuel_enough] shows to be
    enough, so the definitions are total and no theorem is conditional on fuel.
    Coroutines that run until the network ends are interaction trees; a theorem
    that one returns interprets it against an arbitrary finite list of answers,
    after which the connection or the acceptor is closed, and shows the result
    weakly bisimilar to a returned value.  The measure of the connection's loop is
    the number of answers left, that of drain_to_wire is nghttp2's pending output.

    ** What is not part of the model

    - Third-party code: nlohmann/json is the class [JsonLib] (its operations and
      the ranges of its integers), asio's channel is the class [ChannelLib], whose
      laws describe a bounded first-in first-out buffer, its operator || is the
      class [AwaitableOr], nghttp2 as the loop uses it is the class [Nghttp2] (it
      calls the registered callbacks, and its pending output runs out), its order
      of callbacks at a server the class [Http2Order], its agreement with a peer on
      the bytes of each stream the class [Http2Wire], the sockets of asio and
      OpenSSL are the class [AsioSockets] where closing matters, and pybind11's
      string conversion is the class [PyStr].  Each has an instance on which the
      theorems are evaluated.  Elsewhere OpenSSL and the sockets appear as the
      calls made to them and the results they return.
    - The operating system's random source and the clocks are arguments of the
      operations that read them.  Memory exhaustion and execution time (the
      constant-time comparison is modelled by its result) are left out, and so are
      destructors, except those of PyH2Client and PyH2Server.
    - One thread runs the io_context of a client, so that the loop which connect
      spawns takes its first turn before connect goes on after its post.
    - A coroutine that waits for a frame when its channel is destroyed may get
      anything in [H2Pool]: the theorems hold for every such result.
    - What TLS does to the bytes between two socket wrappers: a wire carries what
      was written.  The conversions bytes_to_vec and bytes_sv of the bindings, the
      span overload of parse_headers and is_closed of H2Session, which change a type
      or read a flag, and the forward declarations of the headers.
    - The documentation strings of the module and pybind11's reference counting,
      which are the part of the module definition that is left out; the fuzz target;
      the TypeScript and C# implementations. *)

From stdpp Require Export base gmap list fin_maps numbers option.
From Stdlib Require Export ZArith Lia.

(** ** Results of fallible code

    [std::expected<A, E>]: a value or an error. *)
Inductive expected (E A : Type) : Type :=
| Ok (a : A)
| Err (e : E).
Arguments Ok {E A} a.
Arguments Err {E A} e.

#[export] Instance expected_ret {E} : MRet (expected E) := λ A a, Ok a.
#[export] Instance expected_bind {E} : MBind (expected E) :=
  λ A B f m, match m with Ok a => f a | Err e => Err e end.
#[export] Instance expected_fmap {E} : FMap (expected E) :=
  λ A B f m, match m with Ok a => Ok (f a) | Err e => Err e end.
#[export] Instance expected_eq_dec {E A} `{!EqDecision E, !EqDecision A} :
  EqDecision (expected E A).
Proof. solve_decision. Defined.

Definition is_ok {E A} (m : expected E A) : bool :=
  match m with Ok _ => true | Err _ => false end.

Lemma expected_bind_Ok {E A B} (f : A → expected E B) (m : expected E A) b :
  (m ≫= f) = Ok b ↔ ∃ a, m = Ok a ∧ f a = Ok b.
Proof. destruct m; unfold mbind; simpl; naive_solver. Qed.

Lemma expected_bind_Err {E A B} (f : A → expected E B) (m : expected E A) e :
  (m ≫= f) = Err e ↔ m = Err e ∨ ∃ a, m = Ok a ∧ f a = Err e.
Proof. destruct m; unfold mbind; simpl; naive_solver. Qed.

(** ** While loops

    A C++ [while] loop is its body as a function [step] from the loop's mutable
    locals [S]: [inl s'] is the next iteration, [inr r] is the value the
    enclosing function computes once the loop has exited (by its condition, a
    [break] or a [return]).  The loop is total because a measure of the locals
    decreases; [loop] runs [S (measure s)] iterations, which [loop_fuel_enough]
    shows to suffice. *)
Class Decreasing {S R : Type} (measure : S → nat) (step : S → S + R) : Prop :=
  decreasing : ∀ s s', step s = inl s' → measure s' < measure s.

Section loop.
Context {S R : Type} (measure : S → nat) (step : S → S + R).

Fixpoint loop_fuel (n : nat) (s : S) : option R :=
  match n with
  | O => None
  | Datatypes.S n =>
      match step s with
      | inl s' => loop_fuel n s'
      | inr r => Some r
      end
  end.

Lemma loop_fuel_mono n m s r :
  loop_fuel n s = Some r → n ≤ m → loop_fuel m s = Some r.
Proof.
  revert m s. induction n as [|n IH]; intros [|m] s Hr Hle; simpl in *;
    [done|done|lia|].
  destruct (step s); [|done]. apply IH; [done|lia].
Qed.

Context `{!Decreasing measure step}.

Lemma loop_fuel_enough n s : measure s < n → is_Some (loop_fuel n s).
Proof.
  revert s. induction n as [|n IH]; intros s Hn; [lia|simpl].
  destruct (step s) as [s'|r] eqn:Hs; [|eauto].
  apply IH. pose proof (decreasing _ _ Hs). lia.
Qed.

Definition loop (s : S) : R :=
  is_Some_proj (loop_fuel_enough (Datatypes.S (measure s)) s (le_n _)).

Lemma loop_fuel_loop s : loop_fuel (Datatypes.S (measure s)) s = Some (loop s).
Proof.
  unfold loop. generalize (loop_fuel_enough (Datatypes.S (measure s)) s (le_n _)).
  destruct (loop_fuel _ _); [done|]. intros [? [=]].
Qed.

Lemma loop_unfold s :
  loop s = match step s with inl s' => loop s' | inr r => r end.
Proof.
  pose proof (loop_fuel_loop s) as H. simpl in H.
  destruct (step s) as [s'|r] eqn:Hs; [|by simplify_eq].
  pose proof (decreasing _ _ Hs) as Hlt.
  pose proof (loop_fuel_mono _ (measure s) _ _ (loop_fuel_loop s') ltac:(lia)).
  by simplify_eq.
Qed.

(** Induction over the iterations of a loop. *)
Lemma loop_ind (P : S → R → Prop) :
  (∀ s r, step s = inr r → P s r) →
  (∀ s s', step s = inl s' → P s' (loop s') → P s (loop s')) →
  ∀ s, P s (loop s).
Proof.
  intros Hexit Hnext s.
  induction s as [s IH] using (induction_ltof1 _ measure).
  rewrite loop_unfold. destruct (step s) as [s'|r] eqn:Hs; [|by apply Hexit].
  apply Hnext; [done|]. apply IH. by apply decreasing.
Qed.

(** Hoare rule: an invariant of the locals that entails the exit condition. *)
Lemma loop_inv (I : S → Prop) (Q : R → Prop) s :
  I s →
  (∀ s s', I s → step s = inl s' → I s') →
  (∀ s r, I s → step s = inr r → Q r) →
  Q (loop s).
Proof.
  intros HI Hpres Hexit. revert HI.
  apply (loop_ind (λ s r, I s → Q r)); eauto.
Qed.
End loop.
Arguments loop {S R} measure step {_} s : simpl never.

(** ** Machine integers

    Unsigned arithmetic modulo [2 ^ w]. *)
Definition wrap (w z : Z) : Z := z mod 2 ^ w.

Definition uint16_max : Z := 2 ^ 16 - 1.
Definition uint32_max : Z := 2 ^ 32 - 1.
Definition uint64_max : Z := 2 ^ 64 - 1.

Lemma wrap_small w z : (0 ≤ z < 2 ^ w → wrap w z = z)%Z.
Proof. apply Z.mod_small. Qed.

Lemma wrap_range w z : (0 ≤ w → 0 ≤ wrap w z < 2 ^ w)%Z.
Proof. intros. apply Z.mod_pos_bound. lia. Qed.

(** [std::size_t]: 64 bits on the servers the library targets, 32 bits when it
    is compiled to WebAssembly. *)
Class SizeT := { size_bits : Z; size_bits_ge : (32 ≤ size_bits)%Z }.

Definition lp64 : SizeT := {| size_bits := 64; size_bits_ge := ltac:(done) |}.
Definition wasm32 : SizeT := {| size_bits := 32; size_bits_ge := ltac:(done) |}.

Definition wrap_size `{!SizeT} (z : Z) : Z := wrap size_bits z.

Lemma size_bits_pow `{!SizeT} : (2 ^ 32 ≤ 2 ^ size_bits)%Z.
Proof. apply Z.pow_le_mono_r; [lia|]. apply size_bits_ge. Qed.

Lemma wrap_size_small `{!SizeT} z : (0 ≤ z < 2 ^ size_bits → wrap_size z = z)%Z.
Proof. apply wrap_small. Qed.

Lemma wrap_size_range `{!SizeT} z : (0 ≤ wrap_size z < 2 ^ size_bits)%Z.
Proof. apply wrap_range. pose proof size_bits_ge. lia. Qed.

(** ** Automation *)

(** Proves a closed decidable proposition by evaluation. *)
Ltac by_decide := apply (bool_decide_unpack _); vm_compute; exact I.
