(* ===== verification/Bytes.v ===== *)
(** * Characters, byte strings and [std::string_view]

    The part of the C++ language and standard library the sources use on text:
    [char] values, byte strings, substring search, and views into a buffer.  A
    view keeps the offset of its first byte in the buffer it was cut from, so
    that the zero-copy claims of the parser (and the offsets of the C API) can
    be stated. *)

From S2P Require Import Prelude.
From stdpp Require Export strings.
From Stdlib Require Export Init.Byte.
From Stdlib Require Strings.Byte.

Abbreviation bytes := (list byte).

#[export] Instance byte_eq_dec : EqDecision byte := Byte.byte_eq_dec.

(** The unsigned value of a character.  All the sources' range tests compare
    against ASCII bounds, so they agree on signed and unsigned [char]. *)
Definition code (b : byte) : Z := Z.of_N (Byte.to_N b).

(** [static_cast<char>(z)] / [static_cast<uint8_t>(z)]. *)
Definition of_code (z : Z) : byte :=
  default x00 (Byte.of_N (Z.to_N (z mod 256))).

Lemma code_range b : (0 ≤ code b < 256)%Z.
Proof. unfold code. pose proof (Byte.to_N_bounded b). lia. Qed.

Lemma code_inj b c : code b = code c → b = c.
Proof.
  unfold code. intros H%N2Z.inj.
  pose proof (Byte.of_to_N b) as Hb. pose proof (Byte.of_to_N c) as Hc.
  rewrite H in Hb. congruence.
Qed.

Lemma of_code_code b : of_code (code b) = b.
Proof.
  unfold of_code. rewrite Z.mod_small by apply code_range.
  unfold code. by rewrite N2Z.id, Byte.of_to_N.
Qed.

Lemma code_of_code z : code (of_code z) = (z mod 256)%Z.
Proof.
  unfold of_code, code. pose proof (Z.mod_pos_bound z 256 eq_refl) as Hr.
  destruct (Byte.of_N (Z.to_N (z mod 256))) as [b|] eqn:Hb; simpl.
  - apply Byte.to_of_N in Hb. lia.
  - apply Byte.of_N_None_iff in Hb. lia.
Qed.

#[export] Instance byte_countable : Countable byte.
Proof.
  refine (inj_countable' Byte.to_N (λ n, default x00 (Byte.of_N n)) _).
  intros b. by rewrite Byte.of_to_N.
Defined.

(** Checking a statement for every character by evaluation. *)
Definition all_bytes : bytes := (λ n, of_code (Z.of_nat n)) <$> seq 0 256.

Lemma elem_of_all_bytes b : b ∈ all_bytes.
Proof.
  unfold all_bytes. apply list_elem_of_fmap. exists (Z.to_nat (code b)).
  pose proof (code_range b). split.
  - rewrite Z2Nat.id by lia. by rewrite of_code_code.
  - apply elem_of_seq. lia.
Qed.

Lemma forall_byte (f : byte → bool) : forallb f all_bytes = true → ∀ b, f b = true.
Proof.
  rewrite forallb_forall. intros H b. apply H. apply list_elem_of_In.
  apply elem_of_all_bytes.
Qed.

(** String literals. *)
Definition str (s : string) : bytes := String.list_byte_of_string s.
Arguments str : simpl never.

Definition CR : byte := x0d.
Definition LF : byte := x0a.
Definition NUL : byte := x00.
Definition CRLF : bytes := [CR; LF].
Definition CRLF2 : bytes := [CR; LF; CR; LF].

(** ** Substring search: [std::string_view::find] *)
Fixpoint is_prefix (needle s : bytes) : bool :=
  match needle, s with
  | [], _ => true
  | _, [] => false
  | c :: needle, d :: s => if decide (c = d) then is_prefix needle s else false
  end.

Fixpoint find (needle s : bytes) : option nat :=
  if is_prefix needle s then Some 0
  else match s with
       | [] => None
       | _ :: s => Datatypes.S <$> find needle s
       end.

(** [s.find(needle, pos)]. *)
Definition find_at (needle s : bytes) (pos : nat) : option nat :=
  if decide (pos ≤ length s) then Nat.add pos <$> find needle (drop pos s) else None.

Lemma is_prefix_spec needle s : is_prefix needle s = true ↔ needle `prefix_of` s.
Proof.
  revert s. induction needle as [|c n IH]; intros [|d s]; simpl.
  - split; [intros _; by exists []|done].
  - split; [intros _; apply prefix_nil|done].
  - split; [done|]. by intros [? [=]].
  - case_decide as Hd; [subst|].
    + rewrite IH. split; [apply prefix_cons|apply prefix_cons_inv_2].
    + split; [done|]. intros ?%prefix_cons_inv_1. done.
Qed.

Lemma find_cons needle c s :
  find needle (c :: s) =
    if is_prefix needle (c :: s) then Some 0 else Datatypes.S <$> find needle s.
Proof. done. Qed.

(** [occurs needle s i]: the needle is found at position [i] of [s]. *)
Definition occurs (needle s : bytes) (i : nat) : Prop := needle `prefix_of` drop i s.

Lemma find_Some needle s i :
  find needle s = Some i ↔ i ≤ length s ∧ occurs needle s i ∧ ∀ j, j < i → ¬ occurs needle s j.
Proof.
  unfold occurs. revert i. induction s as [|c s IH]; intros i; simpl.
  - destruct (is_prefix needle []) eqn:Hp.
    + apply is_prefix_spec in Hp. split.
      * intros [= <-]. split_and!; [lia|done|lia].
      * intros (?&_&_). f_equal. lia.
    + split; [done|]. intros (Hi&Hocc&_). replace i with 0 in Hocc by lia.
      apply is_prefix_spec in Hocc. simpl in *. congruence.
  - destruct (is_prefix needle (c :: s)) eqn:Hp.
    + apply is_prefix_spec in Hp. split.
      * intros [= <-]. split_and!; [lia|done|lia].
      * intros (_&_&Hmin). destruct i as [|i]; [done|].
        destruct (Hmin 0); [lia|done].
    + assert (¬ needle `prefix_of` (c :: s)) as Hn.
      { rewrite <-is_prefix_spec. congruence. }
      split.
      * intros (j&Hj&->)%fmap_Some. apply IH in Hj as (?&?&Hmin).
        split_and!; [lia|done|]. intros [|k] Hk; simpl; [done|]. apply Hmin. lia.
      * intros (Hi&Hocc&Hmin). destruct i as [|i]; simpl in *; [done|].
        rewrite (proj2 (IH i)); [done|]. split_and!; [lia|done|].
        intros j Hj. apply (Hmin (S j)). lia.
Qed.

Lemma find_None needle s : find needle s = None ↔ ∀ i, i ≤ length s → ¬ occurs needle s i.
Proof.
  unfold occurs. induction s as [|c s IH]; simpl.
  - destruct (is_prefix needle []) eqn:Hp.
    + apply is_prefix_spec in Hp. split; [done|]. intros H. destruct (H 0); [lia|done].
    + split; [|done]. intros _ [|i] ? Hocc; [|lia].
      apply is_prefix_spec in Hocc. simpl in *; congruence.
  - destruct (is_prefix needle (c :: s)) eqn:Hp.
    + apply is_prefix_spec in Hp. split; [done|]. intros H. destruct (H 0); [lia|done].
    + rewrite fmap_None, IH. split.
      * intros H [|i] Hi; simpl.
        { rewrite <-is_prefix_spec. congruence. }
        apply H. lia.
      * intros H i Hi. apply (H (S i)). lia.
Qed.

Lemma find_bound needle s i :
  find needle s = Some i → i + length needle ≤ length s.
Proof.
  intros (Hi&Hocc&_)%find_Some. apply prefix_length in Hocc.
  rewrite length_drop in Hocc. lia.
Qed.

Lemma find_split needle s i :
  find needle s = Some i → s = take i s ++ needle ++ drop (i + length needle) s.
Proof.
  intros (Hi&[r Hr]&_)%find_Some.
  rewrite <-(take_drop i s) at 1. f_equal. rewrite Hr. f_equal.
  rewrite <-drop_drop, Hr. by rewrite drop_app_length.
Qed.

Lemma find_at_Some needle s pos i :
  find_at needle s pos = Some i ↔
  pos ≤ i ∧ pos ≤ length s ∧ find needle (drop pos s) = Some (i - pos).
Proof.
  unfold find_at. case_decide; [|split; [done|lia]].
  rewrite fmap_Some. split.
  - intros (j&Hj&->). split_and!; [lia..|]. by replace (pos + j - pos) with j by lia.
  - intros (?&?&Hf). exists (i - pos). split; [done|lia].
Qed.

Lemma find_at_bound needle s pos i :
  find_at needle s pos = Some i → pos ≤ i ∧ i + length needle ≤ length s.
Proof.
  intros (?&?&Hf)%find_at_Some. apply find_bound in Hf.
  rewrite length_drop in Hf. lia.
Qed.

(** Searching a prefix of the haystack. *)
Lemma occurs_take needle s n i :
  needle ≠ [] → occurs needle (take n s) i ↔ occurs needle s i ∧ i + length needle ≤ n.
Proof.
  intros Hne. unfold occurs. split.
  - intros Hp. split.
    + etrans; [exact Hp|]. destruct (decide (i ≤ n)).
      * rewrite <-(take_drop n s) at 2. rewrite drop_app.
        eexists. done.
      * rewrite drop_ge by (rewrite length_take; lia). apply prefix_nil.
    + apply prefix_length in Hp. rewrite length_drop, length_take in Hp.
      destruct needle; [done|]. simpl in *. lia.
  - intros [[k Hk] Hle]. exists (take (n - i - length needle) k).
    replace (take n s) with (take (i + (n - i)) s) by (f_equal; lia).
    rewrite <-take_drop_commute, Hk, take_app_ge by lia. done.
Qed.

Lemma find_take needle s n i :
  needle ≠ [] →
  find needle (take n s) = Some i ↔ find needle s = Some i ∧ i + length needle ≤ n.
Proof.
  intros Hne. rewrite !find_Some. split.
  - intros (Hi&Hocc&Hmin). apply occurs_take in Hocc as [Hocc Hle]; [|done].
    rewrite length_take in Hi. split_and!; [lia|done| |done].
    intros j Hj Hocc'. apply (Hmin j Hj). apply occurs_take; [done|]. split; [done|lia].
  - intros ((Hi&Hocc&Hmin)&Hle).
    rewrite length_take, occurs_take by done. split_and!; [lia|done|lia|].
    intros j Hj [Hocc' _]%occurs_take; [|done]. by eapply Hmin.
Qed.

Lemma occurs_app_r needle s1 s2 : needle `prefix_of` s2 → occurs needle (s1 ++ s2) (length s1).
Proof. unfold occurs. by rewrite drop_app_length. Qed.

Lemma find_skip c needle l s :
  c ∉ l → find (c :: needle) (l ++ s) = Nat.add (length l) <$> find (c :: needle) s.
Proof.
  intros Hl. induction l as [|d l IH]; simpl app.
  - by destruct (find (c :: needle) s).
  - apply not_elem_of_cons in Hl as [Hd Hl]. rewrite find_cons.
    simpl is_prefix. rewrite decide_False by done. rewrite IH by done.
    by destruct (find (c :: needle) s).
Qed.

Lemma find_head needle s : find needle (needle ++ s) = Some 0.
Proof.
  destruct (needle ++ s) eqn:Heq; simpl; rewrite (proj2 (is_prefix_spec needle _)); try done.
  - destruct needle; [done|]. simplify_eq.
  - rewrite <-Heq. by exists s.
Qed.

Lemma find_after l needle s c :
  c ∉ l → find (c :: needle) (l ++ (c :: needle) ++ s) = Some (length l).
Proof. intros. rewrite find_skip, find_head by done. simpl. by rewrite Nat.add_0_r. Qed.

(** ** Segments: what a cursor loop over [find(c, cursor)] visits

    The pieces between occurrences of [c]; a trailing separator does not open
    an empty last piece. *)
Fixpoint segments (c : byte) (s : bytes) : list bytes :=
  match s with
  | [] => []
  | d :: s =>
      if decide (d = c) then [] :: segments c s
      else match segments c s with
           | [] => [[d]]
           | seg :: rest => (d :: seg) :: rest
           end
  end.

Lemma segments_find c s i :
  find [c] s = Some i → segments c s = take i s :: segments c (drop (i + 1) s).
Proof.
  revert i. induction s as [|d s IH]; intros i; [done|]. rewrite find_cons. simpl.
  destruct (decide (c = d)) as [->|].
  - intros [= <-]. by rewrite decide_True.
  - rewrite decide_False by done. intros (j&Hj&->)%fmap_Some. by rewrite (IH j).
Qed.

Lemma segments_none c s : find [c] s = None → s ≠ [] → segments c s = [s].
Proof.
  induction s as [|d s IH]; [done|]. rewrite find_cons. simpl.
  destruct (decide (c = d)) as [->|]; [done|]. rewrite decide_False by done.
  intros Hn%fmap_None _. destruct s as [|e s]; [done|]. by rewrite IH.
Qed.

Lemma segments_app c l s : c ∉ l → segments c (l ++ c :: s) = l :: segments c s.
Proof.
  intros Hl. assert (find [c] (l ++ [c] ++ s) = Some (length l)) as Hf by by apply find_after.
  change (l ++ c :: s) with (l ++ [c] ++ s).
  rewrite (segments_find _ _ _ Hf), take_app_length. f_equal. f_equal.
  rewrite app_assoc, drop_app_length'; [done|]. by rewrite length_app.
Qed.

Lemma segments_single c l : c ∉ l → l ≠ [] → segments c l = [l].
Proof.
  intros Hl Hne. apply segments_none; [|done]. rewrite <-(app_nil_r l).
  by rewrite find_skip.
Qed.

(** One step of such a loop. *)
Lemma segments_cursor c s cursor next :
  cursor < length s → next = default (length s) (find_at [c] s cursor) →
  segments c (drop cursor s) =
    take (next - cursor) (drop cursor s) :: segments c (drop (next + 1) s).
Proof.
  intros Hlt ->. unfold find_at. rewrite decide_True by lia.
  destruct (find [c] (drop cursor s)) as [j|] eqn:Hj; simpl.
  - rewrite (segments_find _ _ _ Hj), drop_drop. f_equal; [|do 2 f_equal; lia].
    f_equal. lia.
  - rewrite (drop_ge s (length s + 1)), take_ge by (rewrite ?length_drop; lia).
    apply segments_none; [done|]. intros Hd%(f_equal length).
    rewrite length_drop in Hd. simpl in Hd. lia.
Qed.

(** ** [std::string_view]: a window of a buffer

    [sv_off] is the distance of the view's [data()] from the start of the buffer
    the view was first taken from. *)
Record string_view := SV { sv_off : nat; sv_chars : bytes }.
Add Printing Constructor string_view.

#[export] Instance string_view_eq_dec : EqDecision string_view.
Proof. solve_decision. Defined.

Definition sv_size (v : string_view) : nat := length (sv_chars v).
Definition sv_of (s : bytes) : string_view := SV 0 s.
(** [v.substr(pos, n)] and [v.substr(pos)]; the sources only call them with
    [pos <= v.size()], where they do not throw. *)
Definition sv_substr (v : string_view) (pos n : nat) : string_view :=
  SV (sv_off v + pos) (take n (drop pos (sv_chars v))).
Definition sv_drop (v : string_view) (pos : nat) : string_view :=
  SV (sv_off v + pos) (drop pos (sv_chars v)).
Definition sv_find (needle : bytes) (v : string_view) : option nat :=
  find needle (sv_chars v).
Definition sv_remove_prefix (v : string_view) : string_view :=
  SV (S (sv_off v)) (tail (sv_chars v)).
Definition sv_remove_suffix (v : string_view) : string_view :=
  SV (sv_off v) (take (sv_size v - 1) (sv_chars v)).

(** The view [v] denotes bytes of [buf], at the place its offset says. *)
Definition in_buffer (buf : bytes) (v : string_view) : Prop :=
  sv_off v + sv_size v ≤ length buf ∧
  sv_chars v = take (sv_size v) (drop (sv_off v) buf).

Lemma in_buffer_of s : in_buffer s (sv_of s).
Proof.
  split; unfold sv_size; simpl; [lia|]. by rewrite drop_0, firstn_all.
Qed.

Lemma in_buffer_split buf v :
  in_buffer buf v ↔ ∃ pre post, buf = pre ++ sv_chars v ++ post ∧ length pre = sv_off v.
Proof.
  unfold in_buffer, sv_size. split.
  - intros [Hb Hc]. exists (take (sv_off v) buf), (drop (sv_off v + length (sv_chars v)) buf).
    rewrite length_take. split; [|lia].
    rewrite <-drop_drop. rewrite Hc at 1. rewrite !take_drop. done.
  - intros (pre&post&->&<-). rewrite !length_app. split; [lia|].
    by rewrite drop_app_length, take_app_length.
Qed.

Lemma in_buffer_sub buf v pre w post :
  in_buffer buf v → sv_chars v = pre ++ w ++ post →
  in_buffer buf (SV (sv_off v + length pre) w).
Proof.
  rewrite !in_buffer_split. intros (bpre&bpost&->&Hlen) ->. simpl.
  exists (bpre ++ pre), (post ++ bpost). rewrite length_app.
  split; [by rewrite <-!app_assoc|lia].
Qed.

Lemma in_buffer_substr buf v pos n :
  in_buffer buf v → pos ≤ sv_size v → in_buffer buf (sv_substr v pos n).
Proof.
  intros Hv Hpos. unfold sv_size in Hpos. unfold sv_substr.
  replace pos with (length (take pos (sv_chars v))) at 1 by (rewrite length_take; lia).
  eapply (in_buffer_sub _ _ _ _ (drop n (drop pos (sv_chars v)))); [done|].
  by rewrite !take_drop.
Qed.

Lemma in_buffer_drop buf v pos :
  in_buffer buf v → pos ≤ sv_size v → in_buffer buf (sv_drop v pos).
Proof.
  intros Hv Hpos. unfold sv_size in Hpos. unfold sv_drop.
  replace pos with (length (take pos (sv_chars v))) at 1 by (rewrite length_take; lia).
  eapply (in_buffer_sub _ _ _ _ []); [done|]. by rewrite app_nil_r, take_drop.
Qed.

(** ** Trimming of optional white space (SP and HTAB) *)
Definition is_ws (c : byte) : bool := bool_decide (c = x20) || bool_decide (c = x09).

(** [while (!v.empty() && (v.front() == ' ' || v.front() == '\t'))
       v.remove_prefix(1);] *)
Definition ltrim_step (v : string_view) : string_view + string_view :=
  match sv_chars v with
  | c :: _ => if is_ws c then inl (sv_remove_prefix v) else inr v
  | [] => inr v
  end.

(** [while (!v.empty() && (v.back() == ' ' || v.back() == '\t'))
       v.remove_suffix(1);] *)
Definition rtrim_step (v : string_view) : string_view + string_view :=
  match last (sv_chars v) with
  | Some c => if is_ws c then inl (sv_remove_suffix v) else inr v
  | None => inr v
  end.

#[export] Instance ltrim_decreasing : Decreasing sv_size ltrim_step.
Proof.
  intros [o [|c s]] v'; unfold ltrim_step; simpl; [done|].
  destruct (is_ws c); intros; simplify_eq. unfold sv_size; simpl. lia.
Qed.

#[export] Instance rtrim_decreasing : Decreasing sv_size rtrim_step.
Proof.
  intros [o s] v'; unfold rtrim_step; simpl.
  destruct s as [|c s _] using rev_ind; [done|]. rewrite last_snoc.
  destruct (is_ws c); intros; simplify_eq. unfold sv_remove_suffix, sv_size; simpl.
  rewrite length_take, length_app. simpl. lia.
Qed.

Definition sv_ltrim (v : string_view) : string_view := loop sv_size ltrim_step v.
Definition sv_rtrim (v : string_view) : string_view := loop sv_size rtrim_step v.
Definition sv_trim (v : string_view) : string_view := sv_rtrim (sv_ltrim v).

(** Neither end of the string is white space. *)
Definition trimmed (s : bytes) : Prop :=
  (∀ c, head s = Some c → is_ws c = false) ∧ (∀ c, last s = Some c → is_ws c = false).

Abbreviation all_ws := (Forall (λ c, is_ws c = true)).

Lemma ltrim_cons o c s :
  sv_ltrim (SV o (c :: s)) = if is_ws c then sv_ltrim (SV (S o) s) else SV o (c :: s).
Proof.
  unfold sv_ltrim. rewrite loop_unfold. unfold ltrim_step at 1. simpl.
  by destruct (is_ws c).
Qed.

Lemma ltrim_nil o : sv_ltrim (SV o []) = SV o [].
Proof. unfold sv_ltrim. by rewrite loop_unfold. Qed.

Lemma rtrim_nil o : sv_rtrim (SV o []) = SV o [].
Proof. unfold sv_rtrim. by rewrite loop_unfold. Qed.

Lemma rtrim_snoc o c s :
  sv_rtrim (SV o (s ++ [c])) = if is_ws c then sv_rtrim (SV o s) else SV o (s ++ [c]).
Proof.
  unfold sv_rtrim. rewrite loop_unfold. unfold rtrim_step at 1. simpl.
  rewrite last_snoc. destruct (is_ws c); [|done].
  unfold sv_remove_suffix, sv_size. simpl.
  replace (length (s ++ [c]) - 1) with (length s) by (rewrite length_app; simpl; lia).
  by rewrite take_app_length.
Qed.

Lemma ltrim_app o pre s :
  all_ws pre → sv_ltrim (SV o (pre ++ s)) = sv_ltrim (SV (o + length pre) s).
Proof.
  intros Hpre. revert o. induction Hpre as [|c pre Hc _ IH]; intros o; simpl.
  - by rewrite Nat.add_0_r.
  - rewrite ltrim_cons, Hc, IH. f_equal. f_equal. lia.
Qed.

Lemma rtrim_app o s post :
  all_ws post → sv_rtrim (SV o (s ++ post)) = sv_rtrim (SV o s).
Proof.
  revert s. induction post as [|c post IH] using rev_ind; intros s.
  - by rewrite app_nil_r.
  - rewrite Forall_app, Forall_singleton. intros [Hpost Hc].
    rewrite app_assoc, rtrim_snoc, Hc. by apply IH.
Qed.

Lemma ltrim_id o s : (∀ c, head s = Some c → is_ws c = false) → sv_ltrim (SV o s) = SV o s.
Proof.
  destruct s as [|c s]; [by rewrite ltrim_nil|]. intros H.
  by rewrite ltrim_cons, (H c).
Qed.

Lemma rtrim_id o s : (∀ c, last s = Some c → is_ws c = false) → sv_rtrim (SV o s) = SV o s.
Proof.
  destruct s as [|c s _] using rev_ind; [by rewrite rtrim_nil|]. intros H.
  by rewrite rtrim_snoc, (H c) by apply last_snoc.
Qed.

(** Trimming finds the unique trimmed core of a string. *)
Lemma sv_trim_core o pre t post :
  all_ws pre → all_ws post → trimmed t → t ≠ [] →
  sv_trim (SV o (pre ++ t ++ post)) = SV (o + length pre) t.
Proof.
  intros Hpre Hpost [Hh Hl] Hne. unfold sv_trim. rewrite ltrim_app by done.
  rewrite ltrim_id.
  - rewrite rtrim_app by done. by apply rtrim_id.
  - destruct t; [done|]. apply Hh.
Qed.

Lemma sv_trim_id o t : trimmed t → sv_trim (SV o t) = SV o t.
Proof. intros [Hh Hl]. unfold sv_trim. by rewrite ltrim_id, rtrim_id. Qed.

Lemma sv_trim_ws o s : all_ws s → sv_chars (sv_trim (SV o s)) = [].
Proof.
  intros Hs. unfold sv_trim. rewrite <-(app_nil_r s).
  by rewrite ltrim_app, ltrim_nil, rtrim_nil.
Qed.

Lemma ltrim_spec o s :
  ∃ pre, s = pre ++ sv_chars (sv_ltrim (SV o s)) ∧ all_ws pre ∧
    sv_off (sv_ltrim (SV o s)) = o + length pre ∧
    ∀ c, head (sv_chars (sv_ltrim (SV o s))) = Some c → is_ws c = false.
Proof.
  revert o. induction s as [|c s IH]; intros o.
  - exists []. rewrite ltrim_nil. simpl. split_and!; [done|done|lia|done].
  - rewrite ltrim_cons. destruct (is_ws c) eqn:Hc.
    + destruct (IH (S o)) as (pre&Hs&Hpre&Hoff&Hh). exists (c :: pre). simpl.
      split_and!; [by f_equal|by constructor|rewrite Hoff; simpl; lia|done].
    + exists []. simpl. split_and!; [done|done|lia|]. by intros ? [= <-].
Qed.

Lemma rtrim_spec o s :
  ∃ post, s = sv_chars (sv_rtrim (SV o s)) ++ post ∧ all_ws post ∧
    sv_off (sv_rtrim (SV o s)) = o ∧
    ∀ c, last (sv_chars (sv_rtrim (SV o s))) = Some c → is_ws c = false.
Proof.
  induction s as [|c s IH] using rev_ind.
  - exists []. by rewrite rtrim_nil.
  - rewrite rtrim_snoc. destruct (is_ws c) eqn:Hc.
    + destruct IH as (post&Hs&Hpost&Hoff&Hl). exists (post ++ [c]).
      split_and!; [|by apply Forall_app; auto|done|done].
      rewrite Hs at 1. by rewrite app_assoc.
    + exists []. rewrite app_nil_r. split_and!; [done|done|done|].
      simpl. rewrite last_snoc. by intros ? [= <-].
Qed.

Lemma sv_trim_spec v :
  ∃ pre post, sv_chars v = pre ++ sv_chars (sv_trim v) ++ post ∧
    all_ws pre ∧ all_ws post ∧ sv_off (sv_trim v) = sv_off v + length pre ∧
    trimmed (sv_chars (sv_trim v)).
Proof.
  destruct v as [o s]. destruct (ltrim_spec o s) as (pre&Hs&Hpre&Hoff&Hh).
  destruct (sv_ltrim (SV o s)) as [o' s'] eqn:Hl. simpl in *.
  destruct (rtrim_spec o' s') as (post&Hs'&Hpost&Hoff'&Hlast).
  exists pre, post. unfold sv_trim. rewrite Hl.
  split_and!; [by rewrite <-Hs'|done|done|by rewrite Hoff', Hoff|].
  split; [|done]. intros c Hc. apply Hh. rewrite Hs'.
  by destruct (sv_chars _).
Qed.

Lemma in_buffer_trim buf v : in_buffer buf v → in_buffer buf (sv_trim v).
Proof.
  intros Hv. destruct (sv_trim_spec v) as (pre&post&Hs&_&_&Hoff&_).
  pose proof (in_buffer_sub _ _ _ _ _ Hv Hs) as H. rewrite <-Hoff in H.
  by destruct (sv_trim v).
Qed.

Lemma sv_trim_size v : sv_size (sv_trim v) ≤ sv_size v.
Proof.
  destruct (sv_trim_spec v) as (pre&post&Hs&_). unfold sv_size.
  rewrite Hs, !length_app. lia.
Qed.

(** Trimming is invariant under the offset of the view. *)
Lemma sv_trim_chars o o' s : sv_chars (sv_trim (SV o s)) = sv_chars (sv_trim (SV o' s)).
Proof.
  destruct (decide (all_ws s)) as [Hws|Hws].
  - by rewrite !sv_trim_ws.
  - destruct (sv_trim_spec (SV o s)) as (pre&post&Hs&Hpre&Hpost&_&Ht). simpl in Hs.
    set (t := sv_chars (sv_trim (SV o s))) in *. rewrite Hs, sv_trim_core; try done.
    intros Hnil. apply Hws. rewrite Hs, Hnil. by apply Forall_app.
Qed.
