(* ===== verification/Decimal.v ===== *)
(** * Decimal numerals

    [std::to_string] on integers and [std::from_chars] on unsigned ones, with
    the facts both the content-type parser and the session layer use: printing
    yields the canonical numeral, and reading a canonical numeral yields its
    value. *)

From S2P Require Import Prelude Bytes.
Local Open Scope Z_scope.

Definition is_digit (c : byte) : bool := bool_decide (48 ≤ code c ≤ 57).
Definition digit (n : Z) : byte := of_code (48 + n).
Definition digit_val (c : byte) : Z := code c - 48.

(** The value of a numeral. *)
Definition dec_value (s : bytes) : Z := foldl (λ acc c, acc * 10 + digit_val c) 0 s.

Abbreviation digits := (Forall (λ c, is_digit c = true)).

(** A non-empty digit string without superfluous leading zeros. *)
Definition canonical (s : bytes) : Prop :=
  s ≠ [] ∧ digits s ∧ ((1 < length s)%nat → head s ≠ Some (digit 0)).

(** ** [std::to_string] *)
Definition to_string_step (s : Z * bytes) : (Z * bytes) + bytes :=
  let '(n, acc) := s in
  let acc := digit (n mod 10) :: acc in
  if decide (n < 10) then inr acc else inl (n / 10, acc).

Definition to_string_measure (s : Z * bytes) : nat := Z.to_nat (Z.log2 s.1).

#[export] Instance to_string_decreasing : Decreasing to_string_measure to_string_step.
Proof.
  intros [n acc] s'. unfold to_string_step, to_string_measure.
  case_decide as Hn; intros; simplify_eq; simpl.
  assert (0 < n / 10 ∧ n / 10 * 2 ≤ n) as [Hp Hle].
  { split; [apply Z.div_str_pos; lia|]. pose proof (Z.mul_div_le n 10). lia. }
  assert (Z.log2 (n / 10) < Z.log2 n).
  { apply Z.log2_lt_pow2; [done|].
    pose proof (Z.log2_spec n ltac:(lia)) as [_ Hu].
    rewrite Z.pow_succ_r in Hu by apply Z.log2_nonneg. lia. }
  pose proof (Z.log2_nonneg (n / 10)). lia.
Qed.

(** For non-negative arguments. *)
Definition to_string_u (n : Z) : bytes := loop to_string_measure to_string_step (n, []).
(** Any integer. *)
Definition to_string (n : Z) : bytes :=
  if decide (n < 0) then x2d :: to_string_u (- n) else to_string_u n.

Lemma code_digit n : 0 ≤ n < 10 → code (digit n) = 48 + n.
Proof. intros. unfold digit. rewrite code_of_code, Z.mod_small; lia. Qed.

Lemma digit_val_digit n : 0 ≤ n < 10 → digit_val (digit n) = n.
Proof. intros. unfold digit_val. rewrite code_digit; lia. Qed.

Lemma is_digit_digit n : 0 ≤ n < 10 → is_digit (digit n) = true.
Proof.
  intros. unfold is_digit. apply bool_decide_eq_true. rewrite code_digit; lia.
Qed.

Lemma is_digit_range c : is_digit c = true ↔ 0 ≤ digit_val c < 10.
Proof. unfold is_digit, digit_val. rewrite bool_decide_eq_true. lia. Qed.

Lemma digit_digit_val c : is_digit c = true → digit (digit_val c) = c.
Proof.
  intros _. unfold digit, digit_val.
  replace (48 + (code c - 48)) with (code c) by lia. apply of_code_code.
Qed.

Lemma dec_value_snoc s c : dec_value (s ++ [c]) = dec_value s * 10 + digit_val c.
Proof. unfold dec_value. by rewrite foldl_app. Qed.

Lemma dec_value_nonneg s : digits s → 0 ≤ dec_value s.
Proof.
  induction s as [|c s IH] using rev_ind; [done|].
  rewrite Forall_app, Forall_singleton. intros [Hs Hc].
  apply is_digit_range in Hc. rewrite dec_value_snoc. specialize (IH Hs). lia.
Qed.

(** The loop prints the digits in front of what it has already printed. *)
Lemma to_string_loop n acc :
  loop to_string_measure to_string_step (n, acc) = to_string_u n ++ acc.
Proof.
  unfold to_string_u.
  change acc with ((n, @nil byte).2 ++ acc) at 1. change n with ((n, @nil byte).1) at 1.
  revert acc. apply (loop_ind _ _ (λ s r, ∀ acc,
    loop to_string_measure to_string_step (s.1, s.2 ++ acc) = r ++ acc)).
  - intros [m a] r Hstep acc. rewrite loop_unfold. simpl in *.
    case_decide; by simplify_eq.
  - intros [m a] s' Hstep IH acc. rewrite loop_unfold. simpl in *.
    case_decide; simplify_eq. apply IH.
Qed.

Lemma to_string_u_small n : n < 10 → to_string_u n = [digit (n mod 10)].
Proof.
  intros. unfold to_string_u. rewrite loop_unfold. simpl. by case_decide.
Qed.

Lemma to_string_u_snoc n :
  10 ≤ n → to_string_u n = to_string_u (n / 10) ++ [digit (n mod 10)].
Proof.
  intros. unfold to_string_u at 1. rewrite loop_unfold. simpl.
  case_decide; [lia|]. apply to_string_loop.
Qed.

(** Induction over the digits of a number. *)
Lemma dec_ind (P : Z → Prop) :
  (∀ n, 0 ≤ n < 10 → P n) → (∀ n, 10 ≤ n → P (n / 10) → P n) → ∀ n, 0 ≤ n → P n.
Proof.
  intros H0 HS. apply (Zlt_0_ind P). intros n IH Hn.
  destruct (decide (n < 10)); [by apply H0|]. apply HS; [lia|]. apply IH.
  split; [apply Z.div_pos; lia|apply Z.div_lt; lia].
Qed.

Lemma to_string_u_digits n : 0 ≤ n → digits (to_string_u n).
Proof.
  revert n. apply dec_ind.
  - intros n Hn. rewrite to_string_u_small by lia. apply Forall_singleton.
    apply is_digit_digit. apply Z.mod_pos_bound. lia.
  - intros n Hn IH. rewrite to_string_u_snoc by done. apply Forall_app. split; [done|].
    apply Forall_singleton, is_digit_digit, Z.mod_pos_bound. lia.
Qed.

Lemma dec_value_to_string_u n : 0 ≤ n → dec_value (to_string_u n) = n.
Proof.
  revert n. apply dec_ind.
  - intros n Hn. rewrite to_string_u_small, Z.mod_small by lia. unfold dec_value.
    simpl. by rewrite digit_val_digit.
  - intros n Hn IH. rewrite to_string_u_snoc, dec_value_snoc, IH by done.
    rewrite digit_val_digit by (apply Z.mod_pos_bound; lia).
    pose proof (Z.div_mod n 10). lia.
Qed.

Lemma to_string_u_head n : 0 < n → ∃ c s, to_string_u n = c :: s ∧ c ≠ digit 0.
Proof.
  intros Hn. assert (0 ≤ n) as Hn' by lia. revert n Hn' Hn. apply (dec_ind (λ n, 0 < n → _)).
  - intros n Hn Hp. rewrite to_string_u_small, Z.mod_small by lia.
    eexists _, _. split; [done|]. intros Heq%(f_equal digit_val).
    rewrite !digit_val_digit in Heq by lia. lia.
  - intros n Hn IH Hp. rewrite to_string_u_snoc by done.
    destruct IH as (c&s&->&Hc); [apply Z.div_str_pos; lia|]. by eexists _, _.
Qed.

Lemma to_string_u_canonical n : 0 ≤ n → canonical (to_string_u n).
Proof.
  intros Hn. split_and!.
  - destruct (decide (n = 0)) as [->|].
    + by rewrite to_string_u_small.
    + destruct (to_string_u_head n) as (c&s&->&_); [lia|done].
  - by apply to_string_u_digits.
  - intros Hlen. destruct (decide (n = 0)) as [->|].
    + rewrite to_string_u_small in Hlen by lia. simpl in Hlen. lia.
    + destruct (to_string_u_head n) as (c&s&->&Hc); [lia|]. simpl. congruence.
Qed.

Lemma digits_head_value s :
  digits s → head s ≠ Some (digit 0) → s ≠ [] → 0 < dec_value s.
Proof.
  induction s as [|c s IH] using rev_ind; [done|].
  rewrite Forall_app, Forall_singleton. intros [Hs Hc] Hh _.
  rewrite dec_value_snoc. pose proof Hc as Hc'. apply is_digit_range in Hc.
  destruct s as [|d s].
  - unfold dec_value. simpl in *. enough (digit_val c ≠ 0) by lia.
    intros H0. apply Hh. f_equal. by rewrite <-H0, digit_digit_val.
  - enough (0 < dec_value (d :: s)) by lia. by apply IH.
Qed.

(** A canonical numeral is the printed form of its value. *)
Lemma to_string_u_dec_value s : canonical s → to_string_u (dec_value s) = s.
Proof.
  intros (Hne&Hd&Hz). induction s as [|c s IH] using rev_ind; [done|]. clear Hne.
  rewrite Forall_app, Forall_singleton in Hd. destruct Hd as [Hs Hc].
  rewrite dec_value_snoc. pose proof Hc as Hr. apply is_digit_range in Hr.
  destruct s as [|d s].
  - change (dec_value []) with 0. rewrite Z.mul_0_l, Z.add_0_l.
    rewrite to_string_u_small, Z.mod_small by lia. by rewrite digit_digit_val.
  - assert (0 < dec_value (d :: s)) as Hpos.
    { apply digits_head_value; [done| |done]. apply Hz. rewrite length_app. simpl. lia. }
    rewrite to_string_u_snoc by lia.
    rewrite Z.div_add_l, Z.div_small, Z.add_0_r by lia.
    rewrite Z.add_comm, Z_mod_plus_full, Z.mod_small by lia.
    rewrite digit_digit_val by done. rewrite IH; [done..|].
    intros Hl. apply Hz. rewrite length_app. simpl in *. lia.
Qed.

(** ** [std::from_chars] for an unsigned type of [w] bits

    Returns the value ([None] when [ec] is set) and the number of characters
    consumed: the longest prefix of digits. *)
Fixpoint digit_prefix (s : bytes) : bytes :=
  match s with
  | c :: s => if is_digit c then c :: digit_prefix s else []
  | [] => []
  end.

Definition from_chars_u (w : Z) (s : bytes) : option Z * nat :=
  let ds := digit_prefix s in
  if decide (ds = []) then (None, 0%nat)
  else if decide (dec_value ds < 2 ^ w) then (Some (dec_value ds), length ds)
  else (None, length ds).

Lemma digit_prefix_length s : (length (digit_prefix s) ≤ length s)%nat.
Proof. induction s as [|c s IH]; simpl; [lia|]. destruct (is_digit c); simpl; lia. Qed.

Lemma digit_prefix_all s : length (digit_prefix s) = length s ↔ digits s.
Proof.
  induction s as [|c s IH]; simpl; [done|]. rewrite Forall_cons, <-IH.
  destruct (is_digit c); simpl; naive_solver lia.
Qed.

Lemma digit_prefix_id s : digits s → digit_prefix s = s.
Proof. induction 1 as [|c s Hc _ IH]; simpl; [done|]. by rewrite Hc, IH. Qed.

(** The number of digits. *)
Lemma to_string_u_length k n :
  0 ≤ n < 10 ^ Z.of_nat (S k) → (length (to_string_u n) ≤ S k)%nat.
Proof.
  revert n. induction k as [|k IH]; intros n Hn.
  - rewrite to_string_u_small; [simpl; lia|]. simpl in Hn. lia.
  - destruct (decide (n < 10)); [rewrite to_string_u_small by lia; simpl; lia|].
    rewrite to_string_u_snoc, length_app by lia. simpl.
    assert (length (to_string_u (n / 10)) ≤ S k)%nat; [|lia]. apply IH.
    rewrite (Nat2Z.inj_succ (S k)), Z.pow_succ_r in Hn by lia.
    split; [apply Z.div_pos; lia|apply Z.div_lt_upper_bound; lia].
Qed.
