(* ===== verification/Message.v ===== *)
(** * libculpeo-message: the header parser

    [include/culpeo/message.hpp] and the parsing half of [src/message.cpp]:
    error codes, limits, the character classes, [set_if_reserved] and
    [parse_headers].  Content types are in [ContentType], serialization in
    [Serialize]. *)

From S2P Require Import Prelude Bytes.

Inductive FrameType :=
| control
| media
| unnamed_frame_type (value : Z)   (* any other value of the enum's underlying type *).

Inductive Error :=
| missing_header_terminator
| header_block_too_large
| invalid_header_line
| invalid_header_name
| invalid_header_value
| duplicate_header
| invalid_content_type
| invalid_numeric_parameter
| missing_content_type_parameter
| buffer_too_small
| invalid_frame_type.

#[export] Instance FrameType_eq_dec : EqDecision FrameType.
Proof. solve_decision. Defined.
#[export] Instance Error_eq_dec : EqDecision Error.
Proof. solve_decision. Defined.

Definition error_message (error : Error) : bytes :=
  match error with
  | missing_header_terminator => str "missing header terminator"
  | header_block_too_large => str "header block exceeds configured limit"
  | invalid_header_line => str "invalid header line"
  | invalid_header_name => str "invalid header name"
  | invalid_header_value => str "invalid header value"
  | duplicate_header => str "duplicate reserved header"
  | invalid_content_type => str "invalid content type"
  | invalid_numeric_parameter => str "invalid numeric parameter"
  | missing_content_type_parameter => str "missing required content type parameter"
  | buffer_too_small => str "output buffer too small"
  | invalid_frame_type => str "invalid frame type"
  end.

Record ParseLimits := {
  max_header_block_bytes : Z;
  max_header_value_bytes : Z;
  max_header_count : Z;
}.

Definition default_limits : ParseLimits :=
  {| max_header_block_bytes := 8192;
     max_header_value_bytes := 4096;
     max_header_count := 64 |}.

(** ** Character classes *)
Definition to_lower_ascii (value : byte) : byte :=
  if decide (65 ≤ code value ≤ 90)%Z then of_code (code value - 65 + 97) else value.

Fixpoint iequals_ascii (lhs rhs : bytes) : bool :=
  match lhs, rhs with
  | [], [] => true
  | a :: lhs, b :: rhs =>
      bool_decide (to_lower_ascii a = to_lower_ascii b) && iequals_ascii lhs rhs
  | _, _ => false
  end.

Definition is_token_char (value : byte) : bool :=
  bool_decide (48 ≤ code value ≤ 57)%Z
  || bool_decide (65 ≤ code value ≤ 90)%Z
  || bool_decide (97 ≤ code value ≤ 122)%Z
  || bool_decide (value ∈ str "!#$%&'*+-.^_`|~").

Definition trim_ascii (value : string_view) : string_view := sv_rtrim (sv_ltrim value).

Definition valid_header_name (value : bytes) : bool :=
  if decide (value = []) then false
  else forallb (λ ch, negb (bool_decide (ch = NUL) || negb (is_token_char ch))) value.

Definition valid_header_value (value : bytes) : bool :=
  forallb (λ ch, negb (bool_decide (ch = CR) || bool_decide (ch = LF) || bool_decide (ch = NUL))) value.

(** ** Reserved headers *)
Inductive reserved :=
| h_event | h_content_type | h_authorization | h_session_id | h_stream_id
| h_offset | h_timestamp | h_buffer_window | h_reason | h_code.

#[export] Instance reserved_eq_dec : EqDecision reserved.
Proof. solve_decision. Defined.

Definition all_reserved : list reserved :=
  [h_event; h_content_type; h_authorization; h_session_id; h_stream_id;
   h_offset; h_timestamp; h_buffer_window; h_reason; h_code].

(** [kReservedHeaderNames]. *)
Definition reserved_name (r : reserved) : bytes :=
  match r with
  | h_event => str "Event"
  | h_content_type => str "Content-Type"
  | h_authorization => str "Authorization"
  | h_session_id => str "Session-Id"
  | h_stream_id => str "Stream-Id"
  | h_offset => str "Offset"
  | h_timestamp => str "Timestamp"
  | h_buffer_window => str "Buffer-Window"
  | h_reason => str "Reason"
  | h_code => str "Code"
  end.

Record ParsedHeadersView := mkParsed {
  frame_type : FrameType;
  frame : string_view;
  header_block : string_view;
  body : string_view;
  event : option string_view;
  content_type : option string_view;
  authorization : option string_view;
  session_id : option string_view;
  stream_id : option string_view;
  offset : option string_view;
  timestamp : option string_view;
  buffer_window : option string_view;
  reason : option string_view;
  code_ : option string_view;
}.

Definition get_slot (r : reserved) (p : ParsedHeadersView) : option string_view :=
  match r with
  | h_event => event p
  | h_content_type => content_type p
  | h_authorization => authorization p
  | h_session_id => session_id p
  | h_stream_id => stream_id p
  | h_offset => offset p
  | h_timestamp => timestamp p
  | h_buffer_window => buffer_window p
  | h_reason => reason p
  | h_code => code_ p
  end.

Definition set_slot (r : reserved) (v : option string_view) (p : ParsedHeadersView)
    : ParsedHeadersView :=
  let '(mkParsed ft fr hb bd ev ct au si st of_ ts bw re co) := p in
  match r with
  | h_event => mkParsed ft fr hb bd v ct au si st of_ ts bw re co
  | h_content_type => mkParsed ft fr hb bd ev v au si st of_ ts bw re co
  | h_authorization => mkParsed ft fr hb bd ev ct v si st of_ ts bw re co
  | h_session_id => mkParsed ft fr hb bd ev ct au v st of_ ts bw re co
  | h_stream_id => mkParsed ft fr hb bd ev ct au si v of_ ts bw re co
  | h_offset => mkParsed ft fr hb bd ev ct au si st v ts bw re co
  | h_timestamp => mkParsed ft fr hb bd ev ct au si st of_ v bw re co
  | h_buffer_window => mkParsed ft fr hb bd ev ct au si st of_ ts v re co
  | h_reason => mkParsed ft fr hb bd ev ct au si st of_ ts bw v co
  | h_code => mkParsed ft fr hb bd ev ct au si st of_ ts bw re v
  end.

(** The first reserved name that equals [name] up to ASCII case. *)
Definition reserved_of_name (name : bytes) : option reserved :=
  snd <$> list_find (λ r, iequals_ascii name (reserved_name r)) all_reserved.

Definition set_if_reserved (name : bytes) (value : string_view) (parsed : ParsedHeadersView)
    : expected Error ParsedHeadersView :=
  match reserved_of_name name with
  | Some r =>
      match get_slot r parsed with
      | Some _ => Err duplicate_header
      | None => Ok (set_slot r (Some value) parsed)
      end
  | None => Ok parsed
  end.

(** ** [parse_headers] *)
Section parse.
Context {ST : SizeT} (limits : ParseLimits).

(** The locals of the line loop. *)
Record line_state := {
  line_start : nat;
  header_count : Z;
  parsed : ParsedHeadersView;
}.

(** One iteration of the line loop, up to the exit of the function. *)
Definition parse_line_step (s : line_state)
    : line_state + expected Error ParsedHeadersView :=
  let hb := header_block (parsed s) in
  if decide (line_start s < sv_size hb) then
    if decide (max_header_count limits ≤ header_count s)%Z then inr (Err header_block_too_large)
    else
      let line_end := default (sv_size hb) (find_at CRLF (sv_chars hb) (line_start s)) in
      let line := sv_substr hb (line_start s) (line_end - line_start s) in
      if decide (sv_chars line = []) then inr (Err invalid_header_line)
      else match sv_find [x3a] line with
           | None => inr (Err invalid_header_line)
           | Some separator =>
               let name := sv_substr line 0 separator in
               let value := trim_ascii (sv_drop line (separator + 1)) in
               if negb (valid_header_name (sv_chars name)) then inr (Err invalid_header_name)
               else if bool_decide (max_header_value_bytes limits < Z.of_nat (sv_size value))%Z
                       || negb (valid_header_value (sv_chars value))
               then inr (Err invalid_header_value)
               else match set_if_reserved (sv_chars name) value (parsed s) with
                    | Err e => inr (Err e)
                    | Ok parsed' =>
                        inl {| line_start := line_end + 2;
                               header_count := header_count s + 1;
                               parsed := parsed' |}
                    end
           end
  else inr (Ok (parsed s)).

Definition line_measure (s : line_state) : nat :=
  sv_size (header_block (parsed s)) - line_start s.

Lemma set_slot_frame r v p :
  frame_type (set_slot r v p) = frame_type p ∧ frame (set_slot r v p) = frame p ∧
  header_block (set_slot r v p) = header_block p ∧ body (set_slot r v p) = body p.
Proof. by destruct p, r. Qed.

Lemma set_if_reserved_frame name value p p' :
  set_if_reserved name value p = Ok p' →
  frame_type p' = frame_type p ∧ frame p' = frame p ∧
  header_block p' = header_block p ∧ body p' = body p.
Proof.
  unfold set_if_reserved. intros. repeat case_match; simplify_eq; [|done].
  apply set_slot_frame.
Qed.

Lemma parse_line_next s s' :
  parse_line_step s = inl s' →
  line_start s < line_start s' ∧ header_block (parsed s') = header_block (parsed s).
Proof.
  unfold parse_line_step. intros H. repeat case_match; simplify_eq/=.
  split; [|by eapply set_if_reserved_frame].
  destruct (find_at CRLF _ _) as [e|] eqn:He; simpl; [|lia].
  apply find_at_bound in He. lia.
Qed.

#[export] Instance parse_line_decreasing : Decreasing line_measure parse_line_step.
Proof.
  intros s s' Hs. unfold line_measure. pose proof Hs as Hn.
  apply parse_line_next in Hn as [? ->]. unfold parse_line_step in Hs.
  case_decide; simplify_eq. lia.
Qed.

(** The number of bytes searched for the header terminator. *)
Definition search_length (fr : bytes) : nat :=
  let cap := wrap_size (max_header_block_bytes limits + 4) in
  if decide (Z.of_nat (length fr) < cap)%Z then length fr else Z.to_nat cap.

(** The view handed to the line loop: block and body split at the terminator. *)
Definition initial_view (ft : FrameType) (fr : bytes) (terminator : nat) : ParsedHeadersView :=
  mkParsed ft (sv_of fr) (sv_substr (sv_of fr) 0 terminator) (sv_drop (sv_of fr) (terminator + 4))
    None None None None None None None None None None.

Definition parse_headers (ft : FrameType) (fr : bytes) : expected Error ParsedHeadersView :=
  match ft with
  | unnamed_frame_type _ => Err invalid_frame_type
  | control | media =>
      match find CRLF2 (take (search_length fr) fr) with
      | None =>
          if decide (max_header_block_bytes limits < Z.of_nat (length fr))%Z
          then Err header_block_too_large
          else Err missing_header_terminator
      | Some terminator =>
          if decide (max_header_block_bytes limits < Z.of_nat terminator)%Z
          then Err header_block_too_large
          else
            loop line_measure parse_line_step
              {| line_start := 0; header_count := 0; parsed := initial_view ft fr terminator |}
      end
  end.
End parse.

(** ** Reference definition: a header block is a list of lines

    The same language, read off the list of CRLF-separated lines by structural
    recursion, with no positions and no mutable view. *)
Fixpoint split_lines (s : bytes) : list bytes :=
  match s with
  | [] => [[]]
  | c :: s' =>
      match c, s' with
      | x0d, x0a :: s'' => [] :: split_lines s''
      | _, _ =>
          match split_lines s' with
          | l :: ls => (c :: l) :: ls
          | [] => [[c]]
          end
      end
  end.

Definition block_lines (hb : bytes) : list bytes :=
  match hb with [] => [] | _ => split_lines hb end.

Section reference.
Context (limits : ParseLimits).

(** One line: a token name, a colon, a value without CR, LF or NUL. *)
Definition spec_field (line : bytes) : expected Error (bytes * bytes) :=
  if decide (line = []) then Err invalid_header_line
  else match find [x3a] line with
       | None => Err invalid_header_line
       | Some i =>
           let name := take i line in
           let value := sv_chars (sv_trim (sv_of (drop (i + 1) line))) in
           if negb (valid_header_name name) then Err invalid_header_name
           else if decide (max_header_value_bytes limits < Z.of_nat (length value))%Z
           then Err invalid_header_value
           else if negb (valid_header_value value) then Err invalid_header_value
           else Ok (name, value)
       end.

Fixpoint spec_fields (n : Z) (seen : list reserved) (ls : list bytes)
    : expected Error (list (bytes * bytes)) :=
  match ls with
  | [] => Ok []
  | l :: ls =>
      if decide (max_header_count limits ≤ n)%Z then Err header_block_too_large
      else
        match spec_field l with
        | Err e => Err e
        | Ok f =>
            match reserved_of_name f.1 with
            | Some r =>
                if decide (r ∈ seen) then Err duplicate_header
                else cons f <$> spec_fields (n + 1) (r :: seen) ls
            | None => cons f <$> spec_fields (n + 1) seen ls
            end
        end
  end.

(** The whole frame: the first blank line ends the header block. *)
Definition spec_parse (fr : bytes) : expected Error (list (bytes * bytes) * bytes) :=
  match find CRLF2 fr with
  | None =>
      if decide (max_header_block_bytes limits < Z.of_nat (length fr))%Z
      then Err header_block_too_large else Err missing_header_terminator
  | Some t =>
      if decide (max_header_block_bytes limits < Z.of_nat t)%Z then Err header_block_too_large
      else (λ fs, (fs, drop (t + 4) fr)) <$> spec_fields 0 [] (block_lines (take t fr))
  end.
End reference.

(** The value of the first field that carries reserved name [r]. *)
Definition field_value (r : reserved) (fs : list (bytes * bytes)) : option bytes :=
  snd ∘ snd <$> list_find (λ f, reserved_of_name f.1 = Some r) fs.
