(* ===== verification/ParseFacts.v ===== *)
(** * Correctness of the header parser

    [parse_headers] refines the line-list reference of [Message], cuts its views
    out of the caller's buffer, honours its limits and rejects injection. *)

From S2P Require Import Prelude Bytes Message.

(** ** Slots *)
Lemma get_set_slot_eq r v p : get_slot r (set_slot r v p) = v.
Proof. by destruct p, r. Qed.

Lemma get_set_slot_ne r r' v p : r ≠ r' → get_slot r' (set_slot r v p) = get_slot r' p.
Proof. by destruct p, r, r'. Qed.

Lemma get_set_slot r r' v p :
  get_slot r' (set_slot r v p) = if decide (r = r') then v else get_slot r' p.
Proof. case_decide; subst; [apply get_set_slot_eq|by apply get_set_slot_ne]. Qed.

(** ** Lines *)
Lemma split_lines_nonempty s : split_lines s ≠ [].
Proof. destruct s as [|c s]; [done|]. simpl. by repeat case_match. Qed.

Lemma CRLF_prefix c s : CRLF `prefix_of` c :: s ↔ ∃ s', c = CR ∧ s = LF :: s'.
Proof.
  unfold CRLF. split.
  - intros [k [= -> ->]]. eauto.
  - intros (s'&->&->). by exists s'.
Qed.

Lemma split_lines_cons c s :
  ¬ CRLF `prefix_of` c :: s →
  split_lines (c :: s) =
    match split_lines s with l :: ls => (c :: l) :: ls | [] => [[c]] end.
Proof.
  rewrite CRLF_prefix. intros H.
  destruct c; try done. destruct s as [|d s]; [done|].
  destruct d; try done. destruct H. by exists s.
Qed.

(** The first line ends at the first CRLF. *)
Lemma split_lines_find s i :
  find CRLF s = Some i → split_lines s = take i s :: split_lines (drop (i + 2) s).
Proof.
  revert i. induction s as [|c s IH]; intros i; [done|]. rewrite find_cons.
  destruct (is_prefix CRLF (c :: s)) eqn:Hp.
  - intros [= <-]. apply is_prefix_spec, CRLF_prefix in Hp as (s'&->&->). done.
  - intros (j&Hj&->)%fmap_Some. rewrite split_lines_cons.
    + by rewrite (IH j Hj).
    + rewrite <-is_prefix_spec. congruence.
Qed.

Lemma split_lines_none s : find CRLF s = None → split_lines s = [s].
Proof.
  induction s as [|c s IH]; [done|]. rewrite find_cons.
  destruct (is_prefix CRLF (c :: s)) eqn:Hp; [done|].
  rewrite fmap_None. intros Hn. rewrite split_lines_cons.
  - by rewrite IH.
  - rewrite <-is_prefix_spec. congruence.
Qed.

(** ** One line *)
Section facts.
Context {ST : SizeT} (limits : ParseLimits).

Lemma trim_chars_of (v : string_view) :
  sv_chars (sv_trim v) = sv_chars (sv_trim (sv_of (sv_chars v))).
Proof. destruct v as [o s]. apply sv_trim_chars. Qed.

(** The view of the value that the loop body extracts from [line]. *)
Definition value_view (line : string_view) (separator : nat) : string_view :=
  trim_ascii (sv_drop line (separator + 1)).

(** An iteration of the loop, in terms of the line's field. *)
Lemma parse_line_step_field s line_end :
  let hb := header_block (parsed s) in
  line_start s < sv_size hb →
  line_end = default (sv_size hb) (find_at CRLF (sv_chars hb) (line_start s)) →
  let line := sv_substr hb (line_start s) (line_end - line_start s) in
  parse_line_step limits s =
    if decide (max_header_count limits ≤ header_count s)%Z then inr (Err header_block_too_large)
    else match spec_field limits (sv_chars line) with
         | Err e => inr (Err e)
         | Ok f =>
             match set_if_reserved f.1
                     (value_view line (default 0 (find [x3a] (sv_chars line)))) (parsed s) with
             | Err e => inr (Err e)
             | Ok p => inl {| line_start := line_end + 2;
                              header_count := header_count s + 1; parsed := p |}
             end
         end.
Proof.
  intros hb Hlt -> line. unfold parse_line_step. fold hb.
  rewrite decide_True by done. case_decide; [done|].
  unfold spec_field, sv_find. fold line.
  case_decide; [done|]. destruct (find [x3a] (sv_chars line)) as [i|] eqn:Hi; [|done].
  change (sv_chars (sv_substr line 0 i)) with (take i (drop 0 (sv_chars line))).
  rewrite drop_0. destruct (valid_header_name _); [|done]. simpl negb. cbv iota.
  change (trim_ascii ?v) with (sv_trim v).
  unfold value_view. change (trim_ascii ?v) with (sv_trim v). simpl default.
  rewrite !(trim_chars_of (sv_drop line _)). simpl sv_chars at 3.
  unfold sv_size. rewrite (trim_chars_of (sv_drop line _)).
  change (sv_chars (sv_drop line (i + 1))) with (drop (i + 1) (sv_chars line)).
  case_bool_decide; [by rewrite decide_True|rewrite decide_False by done]. simpl orb.
  by destruct (valid_header_value _).
Qed.
(** ** The loop refines the reference *)

(** The view [p] extends [p0] by the fields [fs]. *)
Definition extends (p0 p : ParsedHeadersView) (fs : list (bytes * bytes)) : Prop :=
  frame_type p = frame_type p0 ∧ frame p = frame p0 ∧
  header_block p = header_block p0 ∧ body p = body p0 ∧
  ∀ r, sv_chars <$> get_slot r p =
    match get_slot r p0 with Some v => Some (sv_chars v) | None => field_value r fs end.

Definition refines (p0 : ParsedHeadersView) (spec : expected Error (list (bytes * bytes)))
    (r : expected Error ParsedHeadersView) : Prop :=
  match spec with
  | Err e => r = Err e
  | Ok fs => ∃ p, r = Ok p ∧ extends p0 p fs
  end.

Lemma field_value_cons r f fs :
  field_value r (f :: fs) =
    if decide (reserved_of_name f.1 = Some r) then Some f.2 else field_value r fs.
Proof.
  unfold field_value. simpl. case_decide; [done|].
  by destruct (list_find _ fs) as [[??]|].
Qed.

Lemma extends_set p0 p r v fs name :
  reserved_of_name name = Some r → get_slot r p0 = None →
  extends (set_slot r (Some v) p0) p fs → extends p0 p ((name, sv_chars v) :: fs).
Proof.
  intros Hr Hnone (?&?&?&?&Hslots). destruct (set_slot_frame r (Some v) p0) as (?&?&?&?).
  split_and!; [congruence..|]. intros r'. rewrite Hslots, get_set_slot, field_value_cons.
  simpl. rewrite Hr. case_decide as Heq.
  - subst. rewrite Hnone. by rewrite decide_True.
  - rewrite (decide_False (P := Some r = Some r')) by congruence. done.
Qed.

Lemma extends_skip p0 p fs name value :
  reserved_of_name name = None → extends p0 p fs → extends p0 p ((name, value) :: fs).
Proof.
  intros Hr (?&?&?&?&Hslots). split_and!; [done..|]. intros r'.
  rewrite Hslots, field_value_cons. simpl. rewrite Hr. by rewrite decide_False.
Qed.

(** The lines that remain after a line has been consumed. *)
Lemma block_lines_next hb ls line_end :
  ls < length hb → ¬ CRLF `suffix_of` drop ls hb →
  line_end = default (length hb) (find_at CRLF hb ls) →
  block_lines (drop ls hb) =
    take (line_end - ls) (drop ls hb) :: block_lines (drop (line_end + 2) hb) ∧
  ¬ CRLF `suffix_of` drop (line_end + 2) hb.
Proof.
  intros Hlt Hsuf ->. unfold find_at. rewrite decide_True by lia.
  assert (block_lines (drop ls hb) = split_lines (drop ls hb)) as ->.
  { destruct (drop ls hb) eqn:Hd; [|done]. apply (f_equal length) in Hd.
    rewrite length_drop in Hd. simpl in Hd. lia. }
  destruct (find CRLF (drop ls hb)) as [j|] eqn:Hj; simpl.
  - replace (ls + j - ls) with j by lia. replace (ls + j + 2) with (ls + (j + 2)) by lia.
    rewrite <-drop_drop. set (rs := drop ls hb) in *. pose proof (find_split _ _ _ Hj) as Hrs.
    simpl length in Hrs. split.
    + rewrite (split_lines_find _ _ Hj). f_equal.
      destruct (drop (j + 2) rs) eqn:Hrest; [|done]. destruct Hsuf.
      rewrite Hrs, app_nil_r. by exists (take j rs).
    + intros Hs. apply Hsuf. etrans; [exact Hs|].
      exists (take (j + 2) rs). by rewrite take_drop.
  - rewrite (split_lines_none _ Hj). rewrite (drop_ge hb (length hb + 2)) by lia.
    rewrite take_ge by (rewrite length_drop; lia). split; [done|].
    intros [k Hk]. by destruct k.
Qed.

Lemma spec_field_value line f :
  spec_field limits line = Ok f →
  ∃ i, find [x3a] line = Some i ∧ f = (take i line, sv_chars (sv_trim (sv_of (drop (i + 1) line)))).
Proof.
  unfold spec_field. case_decide; [done|]. destruct (find _ _) as [i|]; [|done].
  intros. exists i. split; [done|]. repeat case_match; by simplify_eq.
Qed.

(** Recording a field, against the reference's list of names already seen. *)
Lemma set_if_reserved_refines p seen name v n ls :
  (∀ r, r ∈ seen ↔ is_Some (get_slot r p)) →
  match set_if_reserved name v p with
  | Err e =>
      ∀ f, f.1 = name → spec_field limits (ls.1) = Ok f → (n < max_header_count limits)%Z →
      spec_fields limits n seen (ls.1 :: ls.2) = Err e
  | Ok p' =>
      header_block p' = header_block p ∧
      ∃ seen', (∀ r, r ∈ seen' ↔ is_Some (get_slot r p')) ∧
      ∀ f, f = (name, sv_chars v) → spec_field limits (ls.1) = Ok f →
        (n < max_header_count limits)%Z → ∀ res,
        refines p' (spec_fields limits (n + 1) seen' ls.2) res →
        refines p (spec_fields limits n seen (ls.1 :: ls.2)) res
  end.
Proof.
  intros Hseen. destruct ls as [l ls]. simpl. unfold set_if_reserved.
  destruct (reserved_of_name name) as [r|] eqn:Hr; [destruct (get_slot r p) as [w|] eqn:Hw|].
  - intros f <- Hf Hn. rewrite decide_False, Hf, Hr by lia.
    by rewrite decide_True by (rewrite Hseen, Hw; eauto).
  - split; [apply set_slot_frame|]. exists (r :: seen). split.
    + intros r'. rewrite elem_of_cons, Hseen, get_set_slot. case_decide; naive_solver.
    + intros f -> Hf Hn res Href. rewrite decide_False, Hf by lia. simpl. rewrite Hr.
      rewrite decide_False by (rewrite Hseen, Hw; by intros [? [=]]).
      destruct (spec_fields _ _ (r :: seen) _); simpl in *; [|done].
      destruct Href as (q&->&Hq). exists q. split; [done|]. by eapply extends_set.
  - split; [done|]. exists seen. split; [done|].
    intros f -> Hf Hn res Href. rewrite decide_False, Hf by lia. simpl. rewrite Hr.
    destruct (spec_fields _ _ seen _); simpl in *; [|done].
    destruct Href as (q&->&Hq). exists q. split; [done|]. by eapply extends_skip.
Qed.

Lemma value_view_chars line i :
  sv_chars (value_view line i) = sv_chars (sv_trim (sv_of (drop (i + 1) (sv_chars line)))).
Proof. unfold value_view. change (trim_ascii ?w) with (sv_trim w). apply trim_chars_of. Qed.

Lemma parse_loop_refines s : ∀ seen,
  let rest := drop (line_start s) (sv_chars (header_block (parsed s))) in
  ¬ CRLF `suffix_of` rest →
  (∀ r, r ∈ seen ↔ is_Some (get_slot r (parsed s))) →
  refines (parsed s) (spec_fields limits (header_count s) seen (block_lines rest))
    (loop line_measure (parse_line_step limits) s).
Proof.
  induction s as [s IH] using (induction_ltof1 _ line_measure). intros seen rest Hsuf Hseen.
  rewrite loop_unfold. set (hb := header_block (parsed s)) in *.
  destruct (decide (line_start s < sv_size hb)) as [Hlt|Hge].
  2:{ unfold parse_line_step. fold hb. rewrite decide_False by done.
      unfold rest. rewrite drop_ge by (unfold sv_size in Hge; lia). simpl.
      exists (parsed s). split; [done|]. split_and!; [done..|].
      intros r. by destruct (get_slot r (parsed s)). }
  remember (default (sv_size hb) (find_at CRLF (sv_chars hb) (line_start s))) as line_end eqn:Hle.
  destruct (block_lines_next _ _ line_end Hlt Hsuf Hle) as [Hlines Hsuf'].
  assert (line_start s < line_end + 2) as Hadv.
  { subst. destruct (find_at _ _ _) eqn:Hf; simpl; [|lia]. apply find_at_bound in Hf. lia. }
  rewrite (parse_line_step_field s line_end Hlt Hle). unfold rest. rewrite Hlines.
  case_decide as Hcount; [simpl; by rewrite decide_True|]. fold hb.
  set (lv := sv_substr hb _ _). set (line := take _ _).
  change (sv_chars lv) with line.
  destruct (spec_field limits line) as [f|e] eqn:Hf;
    [|simpl; rewrite decide_False by done; by rewrite Hf].
  destruct (spec_field_value _ _ Hf) as (i&Hi&->). rewrite Hi. simpl default. simpl fst.
  pose proof (set_if_reserved_refines (parsed s) seen (take i line) (value_view lv i)
    (header_count s) (line, block_lines (drop (line_end + 2) (sv_chars hb))) Hseen) as Hset.
  destruct (set_if_reserved _ _ _) as [p'|e]; simpl fst in Hset; simpl snd in Hset.
  - destruct Hset as (Hhb&seen'&Hseen'&Hnext).
    eapply Hnext; [by rewrite value_view_chars|done|lia|].
    assert (header_block p' = hb) as Hhb' by done.
    specialize (IH (Build_line_state (line_end + 2) (header_count s + 1) p')).
    simpl in IH. rewrite Hhb' in IH. apply IH; [|done|done].
    unfold ltof, line_measure. simpl. rewrite Hhb'. fold hb. lia.
  - rewrite (Hset (_, _) eq_refl Hf) by lia. done.
Qed.

(** ** The terminator *)
Lemma block_not_CRLF fr t : find CRLF2 fr = Some t → ¬ CRLF `suffix_of` take t fr.
Proof.
  intros Hf [k Hk]. pose proof (find_split _ _ _ Hf) as Hfr. rewrite Hk in Hfr.
  pose proof (find_bound _ _ _ Hf) as Hb.
  apply find_Some in Hf as (_&_&Hmin). apply (Hmin (length k)).
  - apply (f_equal length) in Hk. rewrite length_take, length_app in Hk. simpl in *. lia.
  - rewrite Hfr, <-app_assoc. apply occurs_app_r. by exists (CRLF ++ drop (t + 4) fr).
Qed.

(** The limits a configuration can have without the search window wrapping. *)
Definition limits_ok : Prop :=
  (0 ≤ max_header_block_bytes limits ∧ max_header_block_bytes limits + 4 < 2 ^ size_bits)%Z.

Lemma search_length_ok fr :
  limits_ok →
  Z.of_nat (search_length limits fr) =
    Z.min (Z.of_nat (length fr)) (max_header_block_bytes limits + 4).
Proof.
  intros [??]. unfold search_length. rewrite wrap_size_small by lia. case_decide; lia.
Qed.

(** The search window loses no admissible terminator. *)
Lemma find_terminator fr :
  limits_ok →
  match find CRLF2 (take (search_length limits fr) fr) with
  | Some t => find CRLF2 fr = Some t ∧ (Z.of_nat t ≤ max_header_block_bytes limits)%Z
  | None => ∀ t, find CRLF2 fr = Some t → (max_header_block_bytes limits < Z.of_nat t)%Z
  end.
Proof.
  intros Hok. pose proof (search_length_ok fr Hok) as Hlen.
  destruct (find CRLF2 (take _ fr)) as [t|] eqn:Hf.
  - apply find_take in Hf as [Hf Hle]; [|done]. split; [done|]. simpl in Hle. lia.
  - intros t Ht. destruct (decide (max_header_block_bytes limits < Z.of_nat t)%Z); [done|].
    exfalso. pose proof (find_bound _ _ _ Ht) as Hb. simpl in Hb.
    assert (find CRLF2 (take (search_length limits fr) fr) = Some t); [|congruence].
    apply find_take; [done|]. split; [done|]. simpl. lia.
Qed.

Lemma initial_view_block ft fr t : sv_chars (header_block (initial_view ft fr t)) = take t fr.
Proof. simpl. by rewrite drop_0. Qed.

(** What a successful parse yields, in terms of the reference. *)
Definition parse_result (ft : FrameType) (fr : bytes) (p : ParsedHeadersView)
    (fs : list (bytes * bytes)) (b : bytes) : Prop :=
  frame_type p = ft ∧ frame p = sv_of fr ∧ sv_chars (body p) = b ∧
  fr = sv_chars (header_block p) ++ CRLF2 ++ b ∧
  ∀ r, sv_chars <$> get_slot r p = field_value r fs.

Lemma parse_headers_refines_spec ft fr :
  limits_ok → (∀ v, ft ≠ unnamed_frame_type v) →
  match spec_parse limits fr with
  | Err e => parse_headers limits ft fr = Err e
  | Ok (fs, b) => ∃ p, parse_headers limits ft fr = Ok p ∧ parse_result ft fr p fs b
  end.
Proof.
  intros Hok Hft. pose proof (find_terminator fr Hok) as Hterm.
  assert (parse_headers limits ft fr = match find CRLF2 (take (search_length limits fr) fr) with
      | None => if decide (max_header_block_bytes limits < Z.of_nat (length fr))%Z
                then Err header_block_too_large else Err missing_header_terminator
      | Some t => if decide (max_header_block_bytes limits < Z.of_nat t)%Z
                  then Err header_block_too_large
                  else loop line_measure (parse_line_step limits)
                         (Build_line_state 0 0 (initial_view ft fr t))
      end) as -> by (destruct ft; naive_solver).
  unfold spec_parse. destruct (find CRLF2 (take _ fr)) as [t|].
  - destruct Hterm as [Hf Hle]. rewrite Hf, !decide_False by lia.
    pose proof (parse_loop_refines (Build_line_state 0 0 (initial_view ft fr t)) []) as Href.
    cbn zeta in Href. cbn [parsed line_start header_count] in Href.
    rewrite initial_view_block, drop_0 in Href. specialize (Href (block_not_CRLF _ _ Hf)).
    simpl in Href. specialize (Href ltac:(intros []; (split; [by intros ?%elem_of_nil|by intros [? [=]]]))).
    destruct (spec_fields _ _ _ _) as [fs|e]; simpl in *; [|done].
    destruct Href as (p&->&Hp1&Hp2&Hp3&Hp4&Hslots). exists p. split; [done|].
    split_and!; [done|done|by rewrite Hp4| |].
    + rewrite Hp3. simpl. rewrite drop_0. apply (find_split _ _ _ Hf).
    + intros r. rewrite Hslots. by destruct r.
  - destruct (find CRLF2 fr) as [t|] eqn:Hf; [|by case_decide].
    rewrite (decide_True (P := (_ < Z.of_nat t)%Z)) by auto.
    pose proof (find_bound _ _ _ Hf). specialize (Hterm _ eq_refl).
    by rewrite decide_True by lia.
Qed.

(** ** The accepted language *)
Definition reserved_fields (fs : list (bytes * bytes)) : list reserved :=
  omap (λ f, reserved_of_name f.1) fs.

(** The lines [ls] are the fields [fs], within the limits and without a
    repeated reserved name. *)
Definition well_formed_fields (ls : list bytes) (fs : list (bytes * bytes)) : Prop :=
  Forall2 (λ l f, spec_field limits l = Ok f) ls fs ∧
  (ls = [] ∨ (Z.of_nat (length ls) ≤ max_header_count limits)%Z) ∧
  NoDup (reserved_fields fs).

Lemma reserved_fields_cons f fs :
  reserved_fields (f :: fs) =
    option_list (reserved_of_name f.1) ++ reserved_fields fs.
Proof. unfold reserved_fields. simpl. by destruct (reserved_of_name f.1). Qed.

Lemma spec_fields_Ok_iff n seen ls fs :
  spec_fields limits n seen ls = Ok fs ↔
  Forall2 (λ l f, spec_field limits l = Ok f) ls fs ∧
  (ls = [] ∨ (n + Z.of_nat (length ls) ≤ max_header_count limits)%Z) ∧
  NoDup (reserved_fields fs) ∧ (∀ r, r ∈ reserved_fields fs → r ∉ seen).
Proof.
  revert n seen fs. induction ls as [|l ls IH]; intros n seen fs; simpl.
  - split.
    + intros [= <-]. split_and!; [constructor|by left|constructor|by intros ? ?%elem_of_nil].
    + intros (Hf&_). by inversion Hf.
  - case_decide as Hn.
    { split; [done|]. intros (_&[|]&_); [done|]. lia. }
    destruct (spec_field limits l) as [f|e] eqn:Hf.
    2:{ split; [done|]. intros (H2&_). inversion H2; congruence. }
    assert (∀ seen', (cons f <$> spec_fields limits (n + 1) seen' ls) = Ok fs ↔
      ∃ fs', fs = f :: fs' ∧ spec_fields limits (n + 1) seen' ls = Ok fs') as Hcons.
    { intros seen'. destruct (spec_fields _ _ seen' ls); simpl; naive_solver. }
    assert (∀ fs', Forall2 (λ l f, spec_field limits l = Ok f) ls fs' →
      (ls = [] ∨ (n + 1 + Z.of_nat (length ls) ≤ max_header_count limits)%Z) ↔
      (l :: ls = [] ∨ (n + Z.of_nat (S (length ls)) ≤ max_header_count limits)%Z)) as Hcnt.
    { intros fs' _. destruct ls; simpl; [|split; intros [|]; try done; right; lia].
      split; [|by left]. intros _. right. lia. }
    destruct (reserved_of_name f.1) as [r|] eqn:Hr; [case_decide as Hin|].
    + split; [done|]. intros (H2&_&_&Hdis). inversion H2; simplify_eq.
      exfalso. apply (Hdis r); [|done]. rewrite reserved_fields_cons.
      replace (reserved_of_name y.1) with (Some r) by congruence. by left.
    + rewrite Hcons. setoid_rewrite IH. split.
      * intros (fs'&->&H2&Hc&Hnd&Hdis). rewrite reserved_fields_cons, Hr. simpl.
        split_and!; [by constructor|by eapply Hcnt| |].
        -- constructor; [|done]. intros ?%Hdis. set_solver.
        -- set_solver.
      * intros (H2&Hc&Hnd&Hdis). inversion H2 as [|? f' ? fs' Hf' H2']; simplify_eq.
        assert (f' = f) as -> by congruence.
        exists fs'. rewrite reserved_fields_cons, Hr in Hnd, Hdis. simpl in *.
        inversion Hnd; simplify_eq.
        split_and!; [done|done|by eapply Hcnt|done|]. set_solver.
    + rewrite Hcons. setoid_rewrite IH. split.
      * intros (fs'&->&H2&Hc&Hnd&Hdis). rewrite reserved_fields_cons, Hr. simpl.
        split_and!; [by constructor|by eapply Hcnt|done|done].
      * intros (H2&Hc&Hnd&Hdis). inversion H2 as [|? f' ? fs' Hf' H2']; simplify_eq.
        assert (f' = f) as -> by congruence.
        exists fs'. rewrite reserved_fields_cons, Hr in Hnd, Hdis. simpl in *.
        split_and!; [done|done|by eapply Hcnt|done|done].
Qed.

Lemma spec_parse_Ok_iff fr fs b :
  spec_parse limits fr = Ok (fs, b) ↔
  ∃ hb, fr = hb ++ CRLF2 ++ b ∧ find CRLF2 fr = Some (length hb) ∧
    (Z.of_nat (length hb) ≤ max_header_block_bytes limits)%Z ∧
    well_formed_fields (block_lines hb) fs.
Proof.
  unfold spec_parse, well_formed_fields. split.
  - destruct (find CRLF2 fr) as [t|] eqn:Hf; [|by case_decide]. case_decide; [done|].
    destruct (spec_fields _ _ _ _) as [fs'|] eqn:Hs; [|done]. simpl. intros [= -> <-].
    apply spec_fields_Ok_iff in Hs as (?&?&?&_).
    pose proof (find_split _ _ _ Hf) as Hfr. pose proof (find_bound _ _ _ Hf) as Hb.
    simpl length in *. assert (length (take t fr) = t) as Ht by (rewrite length_take; lia).
    exists (take t fr). rewrite Ht. split_and!; [done|done|lia|done|done|done].
  - intros (hb&Hfr&->&Hle&H2&Hc&Hnd). rewrite decide_False by lia.
    assert (take (length hb) fr = hb) as -> by (subst; by rewrite take_app_length).
    rewrite (proj2 (spec_fields_Ok_iff _ _ _ fs)) by (split_and!; [done..|set_solver]).
    simpl. do 2 f_equal. rewrite Hfr, app_assoc, drop_app_length'; [done|].
    rewrite length_app. done.
Qed.

(** What the reference requires of a single field. *)
Definition field_ok (f : bytes * bytes) : Prop :=
  valid_header_name f.1 = true ∧ valid_header_value f.2 = true ∧ trimmed f.2 ∧
  (Z.of_nat (length f.2) ≤ max_header_value_bytes limits)%Z.

Lemma spec_field_ok line f : spec_field limits line = Ok f → field_ok f.
Proof.
  intros Hf. destruct (spec_field_value _ _ Hf) as (i&Hi&->). unfold spec_field in Hf.
  rewrite Hi in Hf. unfold field_ok. simpl in *.
  repeat (case_match; simplify_eq; []). repeat case_decide; simplify_eq.
  destruct (valid_header_name (take i line)), (valid_header_value _); simplify_eq/=.
  split_and!; [done|done| |lia].
  destruct (sv_trim_spec (sv_of (drop (i + 1) line))) as (?&?&?&?&?&?&?). done.
Qed.

Lemma field_value_Some r fs v :
  field_value r fs = Some v → ∃ name, (name, v) ∈ fs ∧ reserved_of_name name = Some r.
Proof.
  induction fs as [|f fs IH]; [done|]. rewrite field_value_cons. case_decide.
  - intros [= <-]. exists f.1. destruct f. split; [by left|done].
  - intros (name&?&?)%IH. exists name. split; [by right|done].
Qed.

Lemma well_formed_field_ok ls fs f : well_formed_fields ls fs → f ∈ fs → field_ok f.
Proof.
  intros (H2&_) Hin. apply list_elem_of_lookup in Hin as [i Hi].
  destruct (Forall2_lookup_r _ _ _ _ _ H2 Hi) as (l&_&Hl). by eapply spec_field_ok.
Qed.

(** ** Views *)
Lemma parse_line_step_value s s' :
  parse_line_step limits s = inl s' →
  ∃ name v, in_buffer (sv_chars (header_block (parsed s))) (SV 0 (sv_chars (header_block (parsed s)))) ∧
    (in_buffer (sv_chars (header_block (parsed s))) (header_block (parsed s)) →
     in_buffer (sv_chars (header_block (parsed s))) v) ∧
    set_if_reserved name v (parsed s) = Ok (parsed s').
Proof.
  intros Hs. unfold parse_line_step in Hs.
  case_decide as Hlt; [|done]. case_decide; [done|]. case_decide; [done|].
  destruct (sv_find _ _) as [i|] eqn:Hi; [|done].
  destruct (negb _); [done|]. destruct (_ || _); [done|].
  destruct (set_if_reserved _ _ _) as [p'|] eqn:Hset; simplify_eq/=.
  eexists _, _. split; [apply in_buffer_of|]. split; [|done].
  intros Hb. apply in_buffer_trim. apply find_bound in Hi. simpl in Hi.
  apply in_buffer_drop; [apply in_buffer_substr; [done|lia]|].
  unfold sv_size in *. simpl in *. lia.
Qed.

Lemma set_if_reserved_slot name v p p' r w :
  set_if_reserved name v p = Ok p' → get_slot r p' = Some w → get_slot r p = Some w ∨ w = v.
Proof.
  unfold set_if_reserved. intros. repeat case_match; simplify_eq; [|by left].
  rewrite get_set_slot in *. case_decide; naive_solver.
Qed.

(** The block and body are the two sides of the terminator at [t], and the
    header values are cut from the block. *)
Definition views_ok (fr : bytes) (t : nat) (q : ParsedHeadersView) : Prop :=
  header_block q = SV 0 (take t fr) ∧ body q = SV (t + 4) (drop (t + 4) fr) ∧
  ∀ r v, get_slot r q = Some v → in_buffer (take t fr) v.

Lemma initial_views_ok ft fr t : views_ok fr t (initial_view ft fr t).
Proof.
  unfold views_ok, initial_view, sv_substr, sv_drop. simpl. rewrite drop_0.
  split_and!; [done|done|]. by intros [].
Qed.

Lemma parse_line_views fr t s s' :
  views_ok fr t (parsed s) → parse_line_step limits s = inl s' → views_ok fr t (parsed s').
Proof.
  intros (Hhb&Hb&Hslots) Hstep.
  destruct (parse_line_step_value _ _ Hstep) as (name&v&Hof&Hv&Hset).
  rewrite Hhb in Hof, Hv. simpl in Hof, Hv.
  destruct (set_if_reserved_frame _ _ _ _ Hset) as (_&_&Hhb'&Hb').
  split_and!; [by rewrite Hhb'|by rewrite Hb'|]. intros r w Hw.
  destruct (set_if_reserved_slot _ _ _ _ _ _ Hset Hw) as [| ->]; eauto.
Qed.

Lemma parse_line_exit s p : parse_line_step limits s = inr (Ok p) → p = parsed s.
Proof. unfold parse_line_step. intros. repeat case_match; by simplify_eq. Qed.

Lemma parse_loop_views fr t s p :
  views_ok fr t (parsed s) → loop line_measure (parse_line_step limits) s = Ok p →
  views_ok fr t p.
Proof.
  intros H0. apply (loop_inv _ _ (λ s, views_ok fr t (parsed s))
    (λ res, res = Ok p → views_ok fr t p)); [done| |].
  - intros s1 s2 H1 H2. by apply (parse_line_views fr t s1).
  - intros s' r HI Hr ->. by apply parse_line_exit in Hr as ->.
Qed.

Lemma parse_headers_views ft fr p :
  parse_headers limits ft fr = Ok p → ∃ t, t + 4 ≤ length fr ∧ views_ok fr t p.
Proof.
  unfold parse_headers. intros Hp.
  assert (∃ t, find CRLF2 (take (search_length limits fr) fr) = Some t ∧
    loop line_measure (parse_line_step limits) (Build_line_state 0 0 (initial_view ft fr t)) = Ok p)
    as (t&Hf&Hloop).
  { destruct ft; [| |done]; (destruct (find _ _) as [t|]; [|by case_decide]);
      case_decide; [done| |done|]; by exists t. }
  apply find_bound in Hf. rewrite length_take in Hf. simpl in Hf.
  exists t. split; [lia|]. refine (parse_loop_views _ _ _ _ _ Hloop). apply initial_views_ok.
Qed.
End facts.

Lemma default_limits_ok {ST : SizeT} : limits_ok default_limits.
Proof. pose proof size_bits_pow. unfold limits_ok. simpl. lia. Qed.
