(* ===== verification/Serialize.v ===== *)
(** * libculpeo-message: the frame serializer

    [serialized_frame_size], [serialize_frame_to_buffer] and [serialize_frame]
    of [src/message.cpp].  The output buffer is a byte list of fixed length; a
    [memcpy] that does not fit it has undefined behaviour, which is the outcome
    [None] of the definitions here.  Sizes are [size_t] sums that wrap around. *)

From S2P Require Import Prelude Bytes Message.

Record HeaderFieldView := { name : bytes; value : bytes }.

#[export] Instance HeaderFieldView_eq_dec : EqDecision HeaderFieldView.
Proof. solve_decision. Defined.

Section serialize.
Context {ST : SizeT}.

Definition header_size (h : HeaderFieldView) : Z :=
  Z.of_nat (length (name h)) + 2 + Z.of_nat (length (value h)) + 2.

Definition serialized_frame_size (headers : list HeaderFieldView) (body_size : Z) : Z :=
  foldl (λ size h, wrap_size (size + header_size h)) (wrap_size (2 + body_size)) headers.

(** [std::memcpy(output.data() + cursor, data, size)]. *)
Definition write_bytes (output : bytes) (cursor : nat) (data : bytes) : option (bytes * nat) :=
  if decide (cursor + length data ≤ length output) then
    Some (take cursor output ++ data ++ drop (cursor + length data) output, cursor + length data)
  else None.

Definition colon_sp : bytes := [x3a; x20].

(** The loop over the headers: its result, and the buffer as it leaves it. *)
Fixpoint write_headers (headers : list HeaderFieldView) (output : bytes) (cursor : nat)
    : option (expected Error nat * bytes) :=
  match headers with
  | [] => Some (Ok cursor, output)
  | header :: headers =>
      if negb (valid_header_name (name header)) then Some (Err invalid_header_name, output)
      else if negb (valid_header_value (value header)) then Some (Err invalid_header_value, output)
      else
        '(output, cursor) ← write_bytes output cursor (name header);
        '(output, cursor) ← write_bytes output cursor colon_sp;
        '(output, cursor) ← write_bytes output cursor (value header);
        '(output, cursor) ← write_bytes output cursor CRLF;
        write_headers headers output cursor
  end.

Definition serialize_frame_to_buffer (ft : FrameType) (headers : list HeaderFieldView)
    (body output : bytes) : option (expected Error nat * bytes) :=
  match ft with
  | unnamed_frame_type _ => Some (Err invalid_frame_type, output)
  | control | media =>
      let required := serialized_frame_size headers (Z.of_nat (length body)) in
      if decide (Z.of_nat (length output) < required)%Z then Some (Err buffer_too_small, output)
      else
        '(r, output) ← write_headers headers output 0;
        match r with
        | Err e => Some (Err e, output)
        | Ok cursor =>
            '(output, cursor) ← write_bytes output cursor CRLF;
            if decide (body = []) then Some (Ok cursor, output)
            else
              '(output, cursor) ← write_bytes output cursor body;
              Some (Ok cursor, output)
        end
  end.

(** The zero-filled vector, the write into it, and [output.resize( *written)]. *)
Definition serialize_frame (ft : FrameType) (headers : list HeaderFieldView) (body : bytes)
    : option (expected Error bytes) :=
  let output := replicate (Z.to_nat (serialized_frame_size headers (Z.of_nat (length body)))) x00 in
  '(written, output) ← serialize_frame_to_buffer ft headers body output;
  match written with
  | Err e => Some (Err e)
  | Ok n => Some (Ok (take n output))
  end.
End serialize.

(** ** Reference definition *)
Definition encode_header (h : HeaderFieldView) : bytes :=
  name h ++ colon_sp ++ value h ++ CRLF.

Definition encode_headers (headers : list HeaderFieldView) : bytes := headers ≫= encode_header.

Definition encode_frame (headers : list HeaderFieldView) (body : bytes) : bytes :=
  encode_headers headers ++ CRLF ++ body.

(** The first header that must not be sent, as the error it causes. *)
Fixpoint headers_error (headers : list HeaderFieldView) : option Error :=
  match headers with
  | [] => None
  | h :: headers =>
      if negb (valid_header_name (name h)) then Some invalid_header_name
      else if negb (valid_header_value (value h)) then Some invalid_header_value
      else headers_error headers
  end.

(** The size of the frame as a number, without wrap-around. *)
Definition frame_size (headers : list HeaderFieldView) (body_size : Z) : Z :=
  foldl (λ size h, size + header_size h)%Z (2 + body_size)%Z headers.

(** ** Facts *)
Section facts.
Context {ST : SizeT}.

Lemma frame_size_cons h hs n : frame_size (h :: hs) n = (frame_size hs n + header_size h)%Z.
Proof.
  unfold frame_size. simpl. generalize (2 + n)%Z. clear n.
  induction hs as [|h' hs IH]; intros n; simpl; [done|]. rewrite <-IH. f_equal. lia.
Qed.

Lemma length_encode_header h : Z.of_nat (length (encode_header h)) = header_size h.
Proof. unfold encode_header, header_size. rewrite !length_app. simpl. lia. Qed.

(** The announced size is the size of the encoding. *)
Lemma frame_size_encode hs body :
  frame_size hs (Z.of_nat (length body)) = Z.of_nat (length (encode_frame hs body)).
Proof.
  unfold encode_frame. rewrite length_app. induction hs as [|h hs IH].
  - unfold frame_size. simpl. lia.
  - rewrite frame_size_cons, IH. simpl. rewrite length_app, <-length_encode_header. lia.
Qed.

Lemma serialized_frame_size_wrap hs n : serialized_frame_size hs n = wrap_size (frame_size hs n).
Proof.
  unfold serialized_frame_size, frame_size. generalize (2 + n)%Z. clear n.
  induction hs as [|h hs IH]; intros n; simpl; [done|]. rewrite <-IH. f_equal.
  unfold wrap_size, wrap. apply Zplus_mod_idemp_l.
Qed.

Lemma write_bytes_app done rest data :
  length data ≤ length rest →
  write_bytes (done ++ rest) (length done) data =
    Some (done ++ data ++ drop (length data) rest, length (done ++ data)).
Proof.
  intros Hle. unfold write_bytes. rewrite decide_True by (rewrite length_app; lia).
  rewrite take_app_length, drop_app_add, length_app. done.
Qed.

(** Consecutive writes are one write. *)
Lemma write_bytes_seq {A} output cursor d1 d2 (k : bytes → nat → option A) :
  ('(output, cursor) ← write_bytes output cursor d1;
   '(output, cursor) ← write_bytes output cursor d2; k output cursor) =
  ('(output, cursor) ← write_bytes output cursor (d1 ++ d2); k output cursor).
Proof.
  destruct (decide (cursor + length d1 ≤ length output)) as [Hle|Hgt].
  2:{ unfold write_bytes. rewrite !decide_False; [done|rewrite length_app; lia|done]. }
  assert (∃ pre rest, output = pre ++ rest ∧ cursor = length pre) as (pre&rest&->&->).
  { exists (take cursor output), (drop cursor output). rewrite take_drop, length_take.
    split; [done|lia]. }
  rewrite length_app in Hle. assert (length d1 ≤ length rest) by lia.
  rewrite write_bytes_app by done. simpl mbind at 1.
  destruct (decide (length d1 + length d2 ≤ length rest)).
  - rewrite app_assoc, !write_bytes_app by (rewrite ?length_drop, ?length_app; lia). simpl.
    by rewrite drop_drop, <-length_app, !app_assoc.
  - unfold write_bytes. by rewrite !decide_False by (rewrite !length_app, ?length_drop; lia).
Qed.

(** Writing the headers in front of the space that is left. *)
Lemma write_headers_cons h hs output cursor :
  headers_error [h] = None →
  write_headers (h :: hs) output cursor =
    ('(output, cursor) ← write_bytes output cursor (encode_header h); write_headers hs output cursor).
Proof.
  cbn [write_headers headers_error].
  destruct (valid_header_name (name h)); [|done].
  destruct (valid_header_value (value h)); [|done]. intros _. cbn [negb].
  rewrite !write_bytes_seq. unfold encode_header. by rewrite <-!app_assoc.
Qed.

Lemma write_headers_spec hs : ∀ done rest,
  length (encode_headers hs) ≤ length rest →
  ∃ output', length output' = length (done ++ rest) ∧
    match headers_error hs with
    | Some e => write_headers hs (done ++ rest) (length done) = Some (Err e, output')
    | None =>
        write_headers hs (done ++ rest) (length done) =
          Some (Ok (length (done ++ encode_headers hs)), output') ∧
        output' = (done ++ encode_headers hs) ++ drop (length (encode_headers hs)) rest
    end.
Proof.
  induction hs as [|h hs IH]; intros done rest Hlen.
  - exists (done ++ rest). simpl. by rewrite app_nil_r, drop_0.
  - change (encode_headers (h :: hs)) with (encode_header h ++ encode_headers hs) in *.
    rewrite length_app in Hlen. destruct (headers_error [h]) as [e|] eqn:He.
    { exists (done ++ rest). split; [done|]. simpl in *.
      destruct (valid_header_name (name h)); simpl in *; [|done].
      destruct (valid_header_value (value h)); by simpl in *. }
    rewrite write_headers_cons, write_bytes_app by (done || lia). simpl mbind.
    destruct (IH (done ++ encode_header h) (drop (length (encode_header h)) rest))
      as (out&Hout&IH'); [rewrite length_drop; lia|].
    rewrite <-app_assoc in IH', Hout. exists out. rewrite Hout. split.
    { rewrite !length_app, length_drop. lia. }
    replace (headers_error (h :: hs)) with (headers_error hs).
    2:{ simpl in *. destruct (valid_header_name (name h)); [|done]. simpl in *.
        by destruct (valid_header_value (value h)). }
    destruct (headers_error hs); [done|]. destruct IH' as [-> ->].
    by rewrite <-!app_assoc, drop_drop, <-length_app.
Qed.

(** The blank line and the body, after the headers. *)
Lemma write_tail_spec done rest body :
  length (CRLF ++ body) ≤ length rest →
  ('(output, cursor) ← write_bytes (done ++ rest) (length done) CRLF;
   if decide (body = []) then Some (Ok cursor : expected Error nat, output)
   else '(output, cursor) ← write_bytes output cursor body; Some (Ok cursor, output)) =
  Some (Ok (length (done ++ CRLF ++ body)),
        (done ++ CRLF ++ body) ++ drop (length (CRLF ++ body)) rest).
Proof.
  intros Hle. case_decide; [subst|].
  - rewrite app_nil_r in *. rewrite write_bytes_app by done. simpl. by rewrite <-app_assoc.
  - rewrite write_bytes_seq, write_bytes_app by done. cbn [mbind option_bind].
    by rewrite <-!app_assoc.
Qed.

Lemma serialized_frame_size_ok hs body :
  (frame_size hs (Z.of_nat (length body)) < 2 ^ size_bits)%Z →
  serialized_frame_size hs (Z.of_nat (length body)) = Z.of_nat (length (encode_frame hs body)).
Proof.
  rewrite serialized_frame_size_wrap, frame_size_encode. intros. apply wrap_size_small. lia.
Qed.

Lemma serialize_to_buffer_spec ft hs body output :
  (∀ v, ft ≠ unnamed_frame_type v) →
  (frame_size hs (Z.of_nat (length body)) < 2 ^ size_bits)%Z →
  let enc := encode_frame hs body in
  if decide (length output < length enc) then
    serialize_frame_to_buffer ft hs body output = Some (Err buffer_too_small, output)
  else ∃ output', length output' = length output ∧
    match headers_error hs with
    | Some e => serialize_frame_to_buffer ft hs body output = Some (Err e, output')
    | None => serialize_frame_to_buffer ft hs body output = Some (Ok (length enc), output') ∧
              output' = enc ++ drop (length enc) output
    end.
Proof.
  intros Hft Hsize enc.
  assert (serialize_frame_to_buffer ft hs body output =
    serialize_frame_to_buffer control hs body output) as ->
    by (destruct ft; [done|done|naive_solver]).
  unfold serialize_frame_to_buffer. rewrite serialized_frame_size_ok by done. fold enc.
  case_decide as Hcmp; [by rewrite decide_True by lia|].
  rewrite decide_False by lia. unfold enc, encode_frame in Hcmp. rewrite length_app in Hcmp.
  destruct (write_headers_spec hs [] output) as (out&Hout&Hw); [lia|]. simpl in Hout, Hw.
  destruct (headers_error hs) as [e|]; [exists out; by rewrite Hw|].
  destruct Hw as [-> Hw]. cbn [mbind option_bind]. exists (enc ++ drop (length enc) output).
  split; [rewrite length_app, length_drop; unfold enc, encode_frame; rewrite length_app; lia|].
  split; [|done]. rewrite Hw, write_tail_spec by (rewrite length_drop; lia).
  unfold enc, encode_frame. by rewrite drop_drop, <-length_app.
Qed.

Lemma serialize_frame_spec ft hs body :
  (∀ v, ft ≠ unnamed_frame_type v) →
  (frame_size hs (Z.of_nat (length body)) < 2 ^ size_bits)%Z →
  serialize_frame ft hs body =
    Some (match headers_error hs with Some e => Err e | None => Ok (encode_frame hs body) end).
Proof.
  intros Hft Hsize. unfold serialize_frame.
  set (out := replicate _ _).
  assert (length out = length (encode_frame hs body)) as Hout.
  { unfold out. rewrite length_replicate, serialized_frame_size_wrap, frame_size_encode in *.
    rewrite wrap_size_small by lia. lia. }
  pose proof (serialize_to_buffer_spec ft hs body out Hft Hsize) as Hs. simpl in Hs.
  rewrite decide_False in Hs by lia. destruct Hs as (out'&Hout'&Hs).
  destruct (headers_error hs) as [e|]; [by rewrite Hs|].
  destruct Hs as [-> ->]. simpl. by rewrite take_app_length.
Qed.
End facts.
