(* ===== verification/Codec.v ===== *)
(** * Round trip of the message layer: parsing what was serialized

    Connects [Serialize] and [Message]: a frame written by [serialize_frame] is
    read back by [parse_headers] as the same headers and body, which is also why
    header values cannot smuggle in further header lines. *)

From S2P Require Import Prelude Bytes Message ParseFacts Serialize.

(** ** Lines without CR *)
Definition no_CR (s : bytes) : Prop := CR ∉ s.

(** A CRLF followed by a line is not a blank line. *)
Lemma find_CRLF2_next s :
  head s ≠ Some CR → find CRLF2 (CRLF ++ s) = Nat.add 2 <$> find CRLF2 s.
Proof.
  intros Hs. unfold CRLF2. destruct s as [|d s]; [by vm_compute|].
  change (CRLF ++ d :: s) with (CR :: LF :: d :: s). rewrite (find_cons _ CR), (find_cons _ LF).
  assert (∀ x, ¬ [CR; LF; CR; LF] `prefix_of` x → is_prefix [CR; LF; CR; LF] x = false) as Hp.
  { intros x. rewrite <-is_prefix_spec. by destruct (is_prefix _ x). }
  rewrite !Hp.
  - by destruct (find _ (d :: s)).
  - intros [k [=]].
  - intros [k [=]]. naive_solver.
Qed.

(** ** The header block of a serialized frame *)
Definition header_line (h : HeaderFieldView) : bytes := name h ++ colon_sp ++ value h.

Fixpoint header_block_of (h : HeaderFieldView) (hs : list HeaderFieldView) : bytes :=
  match hs with
  | [] => header_line h
  | h' :: hs => header_line h ++ CRLF ++ header_block_of h' hs
  end.

Lemma encode_headers_block h hs : encode_headers (h :: hs) = header_block_of h hs ++ CRLF.
Proof.
  revert h. induction hs as [|h' hs IH]; intros h.
  - simpl. unfold encode_header, header_line. by rewrite app_nil_r, <-!app_assoc.
  - change (encode_headers (h :: h' :: hs)) with (encode_header h ++ encode_headers (h' :: hs)).
    rewrite IH. simpl. unfold encode_header, header_line. by rewrite <-!app_assoc.
Qed.

Definition sendable (h : HeaderFieldView) : Prop :=
  valid_header_name (name h) = true ∧ valid_header_value (value h) = true.

Lemma headers_error_None hs : headers_error hs = None ↔ Forall sendable hs.
Proof.
  unfold sendable. induction hs as [|h hs IH]; simpl; [done|].
  rewrite Forall_cons, <-IH.
  destruct (valid_header_name _), (valid_header_value _); naive_solver.
Qed.

Lemma valid_name_chars s c : valid_header_name s = true → c ∈ s → is_token_char c = true.
Proof.
  unfold valid_header_name. case_decide; [done|]. rewrite forallb_forall.
  intros Hall Hc%list_elem_of_In. specialize (Hall _ Hc).
  by destruct (bool_decide _), (is_token_char c).
Qed.

Lemma valid_value_chars s c : valid_header_value s = true → c ∈ s → c ≠ CR ∧ c ≠ LF ∧ c ≠ NUL.
Proof.
  unfold valid_header_value. rewrite forallb_forall.
  intros Hall Hc%list_elem_of_In. specialize (Hall _ Hc). repeat case_bool_decide; done.
Qed.

Lemma token_not_special c : is_token_char c = true → c ≠ CR ∧ c ≠ x3a.
Proof. intros Hc. split; intros ->; by vm_compute in Hc. Qed.

Lemma sendable_no_CR h : sendable h → no_CR (header_line h).
Proof.
  intros [Hn Hv] Hin. unfold header_line in Hin. rewrite !elem_of_app in Hin.
  destruct Hin as [Hin|[Hin|Hin]].
  - by destruct (token_not_special _ (valid_name_chars _ _ Hn Hin)).
  - revert Hin. vm_compute. set_solver.
  - by destruct (valid_value_chars _ _ Hv Hin).
Qed.

Lemma sendable_head h s : sendable h → head (header_line h ++ s) ≠ Some CR.
Proof.
  intros Hs. pose proof (sendable_no_CR h Hs) as Hn. destruct Hs as [Hname _].
  unfold header_line in *. destruct (name h) as [|c n]; [done|]. simpl in *.
  intros [= ->]. apply Hn. by left.
Qed.

Lemma header_block_head h hs s : sendable h → head (header_block_of h hs ++ s) ≠ Some CR.
Proof.
  intros Hs. destruct hs; simpl; [by apply sendable_head|].
  rewrite <-app_assoc. by apply sendable_head.
Qed.

(** The first blank line of the frame is the one after the last header. *)
Lemma find_terminator_encode h hs body :
  Forall sendable (h :: hs) →
  find CRLF2 (encode_frame (h :: hs) body) = Some (length (header_block_of h hs)).
Proof.
  intros Hall. unfold encode_frame. rewrite encode_headers_block, <-app_assoc.
  revert h Hall. induction hs as [|h' hs IH]; intros h [Hh Hhs]%Forall_cons;
    cbn [header_block_of].
  - apply (find_after _ [LF; CR; LF]). by apply sendable_no_CR.
  - rewrite <-!app_assoc. unfold CRLF2 at 1.
    rewrite (find_skip CR) by by apply sendable_no_CR.
    change [CR; LF; CR; LF] with CRLF2. inversion Hhs; subst.
    rewrite find_CRLF2_next by by apply header_block_head.
    rewrite IH by done. simpl. f_equal. rewrite !length_app. simpl. lia.
Qed.

Lemma block_lines_encode h hs :
  Forall sendable (h :: hs) → block_lines (header_block_of h hs) = header_line <$> (h :: hs).
Proof.
  intros Hall.
  assert (split_lines (header_block_of h hs) = header_line <$> (h :: hs)) as <-.
  - revert h Hall. induction hs as [|h' hs IH]; intros h [Hh Hhs]%Forall_cons;
      cbn [header_block_of].
    + apply split_lines_none. unfold CRLF.
      rewrite <-(app_nil_r (header_line h)), find_skip by by apply sendable_no_CR. done.
    + assert (find CRLF (header_line h ++ CRLF ++ header_block_of h' hs) = Some (length (header_line h)))
        as Hf by (apply find_after; by apply sendable_no_CR).
      rewrite (split_lines_find _ _ Hf), take_app_length, app_assoc.
      rewrite drop_app_length' by (by rewrite length_app). by rewrite IH.
  - destruct (header_block_of h hs) eqn:Heq; [|done].
    apply (f_equal length) in Heq. exfalso. revert Heq.
    destruct hs; simpl; unfold header_line; rewrite !length_app; simpl; lia.
Qed.

(** ** One header *)
Section roundtrip.
Context {ST : SizeT} (limits : ParseLimits).

Definition trim_value (v : bytes) : bytes := sv_chars (sv_trim (sv_of v)).

Lemma trim_value_sp v : sv_chars (sv_trim (sv_of (x20 :: v))) = trim_value v.
Proof.
  unfold sv_of, sv_trim. rewrite (ltrim_cons 0 x20 v). simpl is_ws. cbv iota.
  change (sv_chars (sv_trim (SV 1 v)) = trim_value v). apply sv_trim_chars.
Qed.

Lemma trim_value_valid v : valid_header_value v = true → valid_header_value (trim_value v) = true.
Proof.
  unfold trim_value. destruct (sv_trim_spec (sv_of v)) as (pre&post&Hv&_). simpl in Hv.
  unfold valid_header_value. rewrite Hv at 1. rewrite !forallb_app.
  intros [_ [? _]%andb_true_iff]%andb_true_iff. done.
Qed.

Lemma spec_field_header h :
  sendable h → (Z.of_nat (length (trim_value (value h))) ≤ max_header_value_bytes limits)%Z →
  spec_field limits (header_line h) = Ok (name h, trim_value (value h)).
Proof.
  intros [Hn Hv] Hlen. unfold spec_field. cbn zeta.
  assert (header_line h = name h ++ [x3a] ++ x20 :: value h) as Hline by done.
  assert (find [x3a] (header_line h) = Some (length (name h))) as Hf.
  { rewrite Hline. apply (find_after _ []). intros Hin.
    by destruct (token_not_special _ (valid_name_chars _ _ Hn Hin)). }
  rewrite decide_False.
  2:{ rewrite Hline. by intros [_ [=]]%app_nil. }
  assert (sv_chars (sv_trim (sv_of (drop (length (name h) + 1) (header_line h)))) =
    trim_value (value h)) as Hval.
  { rewrite Hline, app_assoc, drop_app_length' by (by rewrite length_app). apply trim_value_sp. }
  rewrite Hf, Hval. rewrite Hline, take_app_length, Hn, decide_False by lia.
  by rewrite trim_value_valid.
Qed.

(** Headers that fit the receiver's limits. *)
Definition fits (h : HeaderFieldView) (hs : list HeaderFieldView) : Prop :=
  (Z.of_nat (length (header_block_of h hs)) ≤ max_header_block_bytes limits)%Z ∧
  (Z.of_nat (length (h :: hs)) ≤ max_header_count limits)%Z ∧
  Forall (λ h, Z.of_nat (length (trim_value (value h))) ≤ max_header_value_bytes limits)%Z (h :: hs) ∧
  NoDup (omap (λ h, reserved_of_name (name h)) (h :: hs)).

Definition received (h : HeaderFieldView) : bytes * bytes := (name h, trim_value (value h)).

Lemma spec_parse_encode h hs body :
  Forall sendable (h :: hs) → fits h hs →
  spec_parse limits (encode_frame (h :: hs) body) = Ok (received <$> h :: hs, body).
Proof.
  intros Hall (Hblock&Hcount&Hvals&Hnd). apply spec_parse_Ok_iff.
  exists (header_block_of h hs). split_and!.
  - unfold encode_frame. by rewrite encode_headers_block, <-app_assoc.
  - by apply find_terminator_encode.
  - done.
  - rewrite block_lines_encode by done. split_and!.
    + clear Hblock Hcount Hnd. induction (h :: hs) as [|h' hs' IH]; [constructor|].
      apply Forall_cons in Hall as [??], Hvals as [??]. constructor; [|by apply IH].
      by apply spec_field_header.
    + right. by rewrite length_fmap.
    + replace (reserved_fields (received <$> h :: hs)) with
        (omap (λ h, reserved_of_name (name h)) (h :: hs)); [done|].
      unfold reserved_fields. clear. induction (h :: hs) as [|h' hs' IH]; [done|].
      simpl. destruct (reserved_of_name (name h')); [f_equal|]; exact IH.
Qed.

Lemma field_value_received r hs :
  field_value r (received <$> hs) =
    (λ p, trim_value (value p.2)) <$> list_find (λ h, reserved_of_name (name h) = Some r) hs.
Proof.
  induction hs as [|h hs IH]; [done|]. rewrite fmap_cons, field_value_cons, IH. simpl.
  case_decide; [done|]. by destruct (list_find _ hs) as [[??]|].
Qed.
End roundtrip.
