(* ===== verification/CApi.v ===== *)
(** * libculpeo-message: the C interface

    [culpeo_parse_headers] and [culpeo_serialize_frame] of [src/c_api.cpp], the
    functions the WebAssembly build exports.  A pointer argument is an option
    ([None] is [nullptr]) of the array it points to; the lengths are separate
    arguments, as in C.  Reading or writing outside an array has undefined
    behaviour, which is the outcome [None]. *)

From S2P Require Import Prelude Bytes Message ParseFacts Serialize Codec.

Record culpeo_header := mkHeader {
  key_ptr : Z;
  key_len : Z;
  val_ptr : Z;
  val_len : Z;
}.

Definition INT_MAX : Z := 2 ^ 31 - 1.

(** [span(ptr + off, len)]. *)
Definition read_span (ptr : option bytes) (off len : Z) : option bytes :=
  if decide (len = 0)%Z then Some []
  else
    s ← ptr;
    if decide (0 ≤ off ∧ 0 ≤ len ∧ off + len ≤ Z.of_nat (length s))%Z
    then Some (take (Z.to_nat len) (drop (Z.to_nat off) s)) else None.

(** [array[i] = x]. *)
Definition store {A} (array : list A) (i : Z) (x : A) : option (list A) :=
  if decide (0 ≤ i < Z.of_nat (length array))%Z then Some (<[Z.to_nat i := x]> array) else None.

Definition wrap_u32 (z : Z) : Z := wrap 32 z.

(** ** [culpeo_parse_headers] *)
Record walk_state := {
  count : Z;
  walk_start : nat;
  headers_out : list culpeo_header;
}.

Definition header_of_views (key val : string_view) : culpeo_header :=
  {| key_ptr := wrap_u32 (Z.of_nat (sv_off key));
     key_len := wrap_u32 (Z.of_nat (sv_size key));
     val_ptr := wrap_u32 (Z.of_nat (sv_off val));
     val_len := wrap_u32 (Z.of_nat (sv_size val)) |}.

(** One iteration over the lines of the validated header block; the exit carries
    the return value and the caller's array. *)
Definition walk_step (hblock : string_view) (max_headers : Z) (s : walk_state)
    : walk_state + option (Z * list culpeo_header) :=
  if decide (walk_start s < sv_size hblock) then
    if decide (max_headers ≤ count s)%Z then inr (Some (-3, headers_out s)%Z)
    else
      let line_end := default (sv_size hblock) (find_at CRLF (sv_chars hblock) (walk_start s)) in
      let line := sv_substr hblock (walk_start s) (line_end - walk_start s) in
      let next := if decide (line_end < sv_size hblock) then line_end + 2 else line_end in
      if decide (sv_chars line = []) then
        inl {| count := count s; walk_start := next; headers_out := headers_out s |}
      else
        match sv_find [x3a] line with
        | None => inr (Some (-2, headers_out s)%Z)
        | Some colon =>
            let key := sv_rtrim (sv_substr line 0 colon) in
            let val := sv_rtrim (sv_ltrim (sv_drop line (colon + 1))) in
            match store (headers_out s) (count s) (header_of_views key val) with
            | None => inr None
            | Some out => inl {| count := count s + 1; walk_start := next; headers_out := out |}
            end
        end
  else inr (Some (count s, headers_out s)).

Definition walk_measure (hblock : string_view) (s : walk_state) : nat :=
  sv_size hblock - walk_start s.

Lemma find_at_default_ge n s pos :
  pos < length s → pos ≤ default (length s) (find_at n s pos) ∧
  (default (length s) (find_at n s pos) = pos → find_at n s pos = Some pos).
Proof.
  intros Hpos. destruct (find_at n s pos) as [e|] eqn:He; simpl; [|lia].
  apply find_at_bound in He. split; [lia|]. by intros ->.
Qed.

#[export] Instance walk_decreasing hblock max_headers :
  Decreasing (walk_measure hblock) (walk_step hblock max_headers).
Proof.
  intros s s' Hs. unfold walk_step in Hs. unfold walk_measure.
  destruct (decide (walk_start s < sv_size hblock)) as [Hlt|]; [|done].
  destruct (find_at_default_ge CRLF (sv_chars hblock) (walk_start s) Hlt) as [Hge _].
  unfold sv_size in *. set (e := default _ _) in *.
  assert (walk_start s < (if decide (e < length (sv_chars hblock)) then e + 2 else e)).
  { clear -Hlt Hge. case_decide; lia. }
  repeat case_match; simplify_eq/=; lia.
Qed.

Section api.
Context {ST : SizeT}.

Definition culpeo_parse_headers (buf : option bytes) (len : Z)
    (out : option (list culpeo_header)) (max_headers : Z) (body_offset_out : option Z)
    : option (Z * option (list culpeo_header) * option Z) :=
  match buf, out, body_offset_out with
  | Some _, Some hs, Some _ =>
      if decide (max_headers ≤ 0)%Z then Some ((-2)%Z, out, body_offset_out)
      else
        frame ← read_span buf 0 len;
        match parse_headers default_limits control frame with
        | Err missing_header_terminator => Some ((-1)%Z, out, body_offset_out)
        | Err header_block_too_large => Some ((-3)%Z, out, body_offset_out)
        | Err _ => Some ((-2)%Z, out, body_offset_out)
        | Ok parsed =>
            let hblock := header_block parsed in
            '(r, hs) ← loop (walk_measure hblock) (walk_step hblock max_headers)
                         {| count := 0; walk_start := 0; headers_out := hs |};
            Some (r, Some hs, Some (Z.of_nat (sv_off (body parsed))))
        end
  | _, _, _ => Some ((-2)%Z, out, body_offset_out)
  end.

(** ** [culpeo_serialize_frame] *)

(** The loop that turns the descriptors into views: [inr] is its early return. *)
Fixpoint build_views (headers : list culpeo_header) (strings_buf : option bytes)
    (strings_buf_len : Z) (n : nat) : option (list HeaderFieldView + Z) :=
  match n with
  | O => Some (inl [])
  | S n =>
      match headers with
      | [] => None
      | h :: headers =>
          let key_end := wrap 64 (key_ptr h + key_len h) in
          let val_end := wrap 64 (val_ptr h + val_len h) in
          if decide (strings_buf_len < key_end ∨ strings_buf_len < val_end)%Z
          then Some (inr (-2)%Z)
          else
            key ← read_span strings_buf (key_ptr h) (key_len h);
            val ← read_span strings_buf (val_ptr h) (val_len h);
            r ← build_views headers strings_buf strings_buf_len n;
            Some (match r with
                  | inl views => inl ({| name := key; value := val |} :: views)
                  | inr e => inr e
                  end)
      end
  end.

Definition kMaxHeaders : Z := 128.

Definition culpeo_serialize_frame (headers : option (list culpeo_header)) (header_count : Z)
    (strings_buf : option bytes) (strings_buf_len : Z) (body : option bytes) (body_len : Z)
    (out_buf : option bytes) (out_cap : Z) : option (Z * option bytes) :=
  if decide (0 < body_len ∧ body = None)%Z then Some ((-1)%Z, out_buf)
  else match out_buf with
  | None => Some ((-1)%Z, out_buf)
  | Some out =>
      if decide (out_cap = 0)%Z then Some ((-1)%Z, out_buf)
      else if decide (header_count < 0)%Z then Some ((-1)%Z, out_buf)
      else if decide (0 < header_count ∧ (headers = None ∨ strings_buf = None))%Z
      then Some ((-1)%Z, out_buf)
      else if decide (kMaxHeaders < header_count)%Z then Some ((-1)%Z, out_buf)
      else
        views ← build_views (default [] headers) strings_buf strings_buf_len
                  (Z.to_nat header_count);
        match views with
        | inr e => Some (e, out_buf)
        | inl hspan =>
            bspan ← read_span body 0 body_len;
            ospan ← read_span out_buf 0 out_cap;
            '(written, ospan) ← serialize_frame_to_buffer control hspan bspan ospan;
            let out := Some (ospan ++ drop (Z.to_nat out_cap) out) in
            match written with
            | Err _ => Some ((-1)%Z, out)
            | Ok n =>
                if decide (INT_MAX < Z.of_nat n)%Z then Some ((-4)%Z, out)
                else Some (Z.of_nat n, out)
            end
        end
  end.
End api.

(** ** The descriptors of a parsed frame *)
Definition denotes (buf : bytes) (h : culpeo_header) (f : bytes * bytes) : Prop :=
  read_span (Some buf) (key_ptr h) (key_len h) = Some f.1 ∧
  read_span (Some buf) (val_ptr h) (val_len h) = Some f.2.

Lemma read_span_view buf v :
  in_buffer buf v → (Z.of_nat (length buf) < 2 ^ 32)%Z →
  read_span (Some buf) (wrap_u32 (Z.of_nat (sv_off v))) (wrap_u32 (Z.of_nat (sv_size v))) =
    Some (sv_chars v).
Proof.
  intros [Hle Hv] Hlen. unfold wrap_u32. rewrite !wrap_small by lia.
  unfold read_span. case_decide as Hz.
  - destruct (sv_chars v) eqn:E; [done|]. unfold sv_size in Hz. rewrite E in Hz. simpl in Hz. lia.
  - simpl. rewrite decide_True by lia. by rewrite !Nat2Z.id, <-Hv.
Qed.

Lemma read_span_app buf more off len s :
  read_span (Some buf) off len = Some s → read_span (Some (buf ++ more)) off len = Some s.
Proof.
  unfold read_span. case_decide; [done|]. simpl. case_decide; [|done]. intros [= <-].
  rewrite length_app, decide_True by lia.
  rewrite drop_app_le, take_app_le; [done|rewrite length_drop; lia|lia].
Qed.

Lemma denotes_app buf more h f : denotes buf h f → denotes (buf ++ more) h f.
Proof. intros []. split; by apply read_span_app. Qed.

Lemma token_not_ws c : is_token_char c = true → is_ws c = false.
Proof.
  intros Hc. pose proof (forall_byte (λ c, negb (is_token_char c && is_ws c)) eq_refl c) as H.
  simpl in H. rewrite Hc in H. by destruct (is_ws c).
Qed.

(** Trimming a valid header name does nothing. *)
Lemma rtrim_name o s : valid_header_name s = true → sv_rtrim (SV o s) = SV o s.
Proof.
  intros Hs. apply rtrim_id. intros c Hc. apply token_not_ws.
  apply (valid_name_chars s); [done|]. by apply last_Some_elem_of.
Qed.

Section walk.
Context (hb : bytes) (max_headers : Z) (limits : ParseLimits).
Context (Hlen : (Z.of_nat (length hb) < 2 ^ 32)%Z).

(** The iteration on a line that holds the field [f]. *)
Lemma walk_step_field s f :
  walk_start s < length hb → (0 ≤ count s < max_headers)%Z →
  (max_headers ≤ Z.of_nat (length (headers_out s)))%Z →
  let line_end := default (length hb) (find_at CRLF hb (walk_start s)) in
  spec_field limits (take (line_end - walk_start s) (drop (walk_start s) hb)) = Ok f →
  ∃ d n, denotes hb d f ∧ drop n hb = drop (line_end + 2) hb ∧
    walk_step (sv_of hb) max_headers s =
      inl {| count := count s + 1; walk_start := n;
             headers_out := <[Z.to_nat (count s) := d]> (headers_out s) |}.
Proof.
  intros Hlt Hcount Hmax line_end Hf. unfold walk_step.
  change (sv_size (sv_of hb)) with (length hb). change (sv_chars (sv_of hb)) with hb.
  rewrite decide_True, decide_False by (done || lia). fold line_end.
  set (line := sv_substr (sv_of hb) (walk_start s) (line_end - walk_start s)).
  change (take _ _) with (sv_chars line) in Hf.
  assert (in_buffer hb line) as Hline.
  { apply in_buffer_substr; [apply in_buffer_of|]. unfold sv_size. simpl. lia. }
  destruct (spec_field_ok _ _ _ Hf) as (Hname&_).
  destruct (spec_field_value _ _ _ Hf) as (i&Hi&->). simpl in Hname.
  pose proof (find_bound _ _ _ Hi) as Hb. change (length [x3a]) with 1 in Hb.
  assert (sv_chars line ≠ []) by (intros E; rewrite E in Hb; simpl in Hb; lia).
  rewrite decide_False by done. cbv zeta. unfold sv_find. rewrite Hi.
  unfold store. rewrite decide_True by lia.
  eexists _, _. split; [|split; [|done]].
  - split; cbn [fst snd header_of_views key_ptr key_len val_ptr val_len].
    + change (sv_substr line 0 i) with (SV (sv_off line + 0) (take i (drop 0 (sv_chars line)))).
      rewrite drop_0. rewrite rtrim_name by done. rewrite Nat.add_0_r.
      apply (read_span_view hb (SV (sv_off line) (take i (sv_chars line)))); [|done].
      pose proof (in_buffer_substr hb line 0 i Hline ltac:(lia)) as Hv.
      unfold sv_substr in Hv. by rewrite drop_0, Nat.add_0_r in Hv.
    + change (drop (i + 1) (sv_chars line)) with (sv_chars (sv_drop line (i + 1))).
      rewrite <-trim_chars_of. apply read_span_view; [|done].
      apply in_buffer_trim, in_buffer_drop; [done|]. unfold sv_size. lia.
  - case_decide; [done|]. rewrite !drop_ge by lia. done.
Qed.

Lemma walk_spec fs : ∀ s,
  Forall2 (λ l f, spec_field limits l = Ok f) (block_lines (drop (walk_start s) hb)) fs →
  ¬ CRLF `suffix_of` drop (walk_start s) hb → (0 ≤ count s ≤ max_headers)%Z →
  (max_headers ≤ Z.of_nat (length (headers_out s)))%Z →
  let r := loop (walk_measure (sv_of hb)) (walk_step (sv_of hb) max_headers) s in
  let c := Z.to_nat (count s) in
  if decide (count s + Z.of_nat (length fs) ≤ max_headers)%Z then
    ∃ ds, Forall2 (denotes hb) ds fs ∧
      r = Some (count s + Z.of_nat (length fs),
                take c (headers_out s) ++ ds ++ drop (c + length fs) (headers_out s))%Z
  else ∃ out, length out = length (headers_out s) ∧ r = Some (-3, out)%Z.
Proof.
  induction fs as [|f fs IH]; intros s Hfs Hsuf Hc Hmax; cbv zeta; rewrite loop_unfold.
  - apply Forall2_nil_inv_r in Hfs.
    assert (length hb ≤ walk_start s) as Hge.
    { destruct (decide (walk_start s < length hb)) as [Hlt|]; [|lia].
      destruct (block_lines_next hb _ _ Hlt Hsuf eq_refl) as [Hn _]. congruence. }
    rewrite decide_True by (simpl; lia). exists []. split; [constructor|].
    unfold walk_step. rewrite decide_False by (unfold sv_size; simpl; lia).
    simpl. rewrite Z.add_0_r, Nat.add_0_r, take_drop. done.
  - apply Forall2_cons_inv_r in Hfs as (l&ls&Hf&Hfs&Hls).
    assert (walk_start s < length hb) as Hlt.
    { destruct (decide (walk_start s < length hb)); [done|].
      rewrite drop_ge in Hls by lia. done. }
    destruct (block_lines_next hb _ _ Hlt Hsuf eq_refl) as [Hn Hsuf'].
    rewrite Hn in Hls. injection Hls as <- <-.
    destruct (decide (count s = max_headers)) as [Heq|Hne].
    { rewrite decide_False by (simpl; lia). exists (headers_out s). split; [done|].
      unfold walk_step. change (sv_size (sv_of hb)) with (length hb).
      by rewrite decide_True, decide_True by (done || lia). }
    destruct (walk_step_field s f Hlt ltac:(lia) Hmax Hf) as (d&n&Hd&Hdrop&->).
    specialize (IH {| count := count s + 1; walk_start := n;
      headers_out := <[Z.to_nat (count s) := d]> (headers_out s) |}).
    cbn [count walk_start headers_out] in IH. rewrite Hdrop, length_insert in IH.
    specialize (IH Hfs Hsuf' ltac:(lia) Hmax). cbv zeta in IH.
    replace (count s + Z.of_nat (length (f :: fs)))%Z with (count s + 1 + Z.of_nat (length fs))%Z
      by (simpl; lia).
    case_decide; [|done]. destruct IH as (ds&Hds&->). exists (d :: ds).
    split; [by constructor|]. do 2 f_equal.
    replace (Z.to_nat (count s + 1)) with (S (Z.to_nat (count s))) by lia.
    rewrite (take_S_r _ _ d), take_insert_ge, drop_insert_lt by
      (apply list_lookup_insert_eq || idtac; lia).
    rewrite <-app_assoc. simpl. do 3 f_equal. f_equal. lia.
Qed.
End walk.

(** The return value that stands for a parse error. *)
Definition parse_error_code (e : Error) : Z :=
  match e with
  | missing_header_terminator => -1
  | header_block_too_large => -3
  | _ => -2
  end.

Lemma read_span_all s : read_span (Some s) 0 (Z.of_nat (length s)) = Some s.
Proof.
  unfold read_span. case_decide.
  - destruct s; [done|]. simpl in *. lia.
  - simpl. rewrite decide_True by lia. by rewrite drop_0, Nat2Z.id, firstn_all.
Qed.

Section theorems.
Context {ST : SizeT}.

(** C34. [culpeo_parse_headers] is the C view of the parser: error codes map the
    parser's errors, and on success there is one descriptor per field, in order,
    whose offsets denote the field's name and trimmed value in the input buffer;
    the array is never written beyond the number of headers returned, and a
    caller's array that is too short is reported as -3. *)
Theorem culpeo_parse_headers_correct buf out max_headers body_offset :
  (0 < max_headers ≤ Z.of_nat (length out))%Z →
  let r := culpeo_parse_headers (Some buf) (Z.of_nat (length buf)) (Some out) max_headers
             (Some body_offset) in
  match spec_parse default_limits buf with
  | Err e => r = Some (parse_error_code e, Some out, Some body_offset)
  | Ok (fs, b) =>
      let body_offset := Some (Z.of_nat (length buf - length b)) in
      if decide (Z.of_nat (length fs) ≤ max_headers)%Z then
        ∃ ds, Forall2 (denotes buf) ds fs ∧
          r = Some (Z.of_nat (length fs), Some (ds ++ drop (length fs) out), body_offset)
      else ∃ out', length out' = length out ∧ r = Some ((-3)%Z, Some out', body_offset)
  end.
Proof.
  intros Hmax. unfold culpeo_parse_headers. rewrite decide_False by lia.
  rewrite read_span_all. cbn [mbind option_bind].
  pose proof (parse_headers_refines_spec default_limits control buf default_limits_ok
    ltac:(done)) as Href.
  destruct (spec_parse default_limits buf) as [[fs b]|e] eqn:Hs; [|by rewrite Href; destruct e].
  destruct Href as (p&Hp&_&_&Hb&Hbuf&_). pose proof Hp as Hv. rewrite Hp.
  apply parse_headers_views in Hv as (t&Ht&Hhb&Hbody&_). rewrite Hhb, Hbody in *.
  simpl in Hb, Hbuf. apply spec_parse_Ok_iff in Hs as (hb&Hbuf'&Hf&Hlen&Hwf&_).
  assert (take t buf = hb) as ->.
  { rewrite Hbuf' in Hbuf at 1. by apply (inj (.++ CRLF2 ++ b)) in Hbuf. }
  assert (length hb = t) as Hhbt.
  { apply (f_equal length) in Hbuf'. rewrite !length_app in Hbuf'.
    rewrite <-Hb in Hbuf'. rewrite length_drop in Hbuf'. simpl in Hbuf'. lia. }
  pose proof (walk_spec hb max_headers default_limits ltac:(simpl in *; lia) fs
    {| count := 0; walk_start := 0; headers_out := out |}) as Hw.
  cbn [count walk_start headers_out] in Hw. rewrite drop_0 in Hw.
  assert (¬ CRLF `suffix_of` hb) as Hsuf.
  { rewrite <-(take_app_length hb (CRLF2 ++ b)), <-Hbuf'. by apply block_not_CRLF. }
  specialize (Hw Hwf Hsuf ltac:(lia) ltac:(lia)). cbv zeta in Hw. rewrite Z.add_0_l in Hw.
  assert (t + 4 = length buf - length b) as -> by (rewrite <-Hb, length_drop; lia).
  change (SV 0 hb) with (sv_of hb). case_decide.
  - destruct Hw as (ds&Hds&->). exists ds. split; [|done].
    rewrite Hbuf'. eapply Forall2_impl; [done|]. intros. by apply denotes_app.
  - destruct Hw as (out'&?&->). by exists out'.
Qed.

(** ** The views a caller's descriptors denote *)
Definition view_of (s : bytes) (h : culpeo_header) : option HeaderFieldView :=
  if decide (key_ptr h + key_len h ≤ Z.of_nat (length s) ∧
             val_ptr h + val_len h ≤ Z.of_nat (length s))%Z
  then Some {| name := take (Z.to_nat (key_len h)) (drop (Z.to_nat (key_ptr h)) s);
               value := take (Z.to_nat (val_len h)) (drop (Z.to_nat (val_ptr h)) s) |}
  else None.

Definition header_in_range (h : culpeo_header) : Prop :=
  (0 ≤ key_ptr h < 2 ^ 32 ∧ 0 ≤ key_len h < 2 ^ 32 ∧
   0 ≤ val_ptr h < 2 ^ 32 ∧ 0 ≤ val_len h < 2 ^ 32)%Z.

Lemma read_span_ok s off len :
  (0 ≤ off)%Z → (0 ≤ len)%Z → (off + len ≤ Z.of_nat (length s))%Z →
  read_span (Some s) off len = Some (take (Z.to_nat len) (drop (Z.to_nat off) s)).
Proof.
  intros. unfold read_span. case_decide; [by subst|]. simpl. by rewrite decide_True.
Qed.

Lemma build_views_spec hs s :
  Forall header_in_range hs →
  build_views hs (Some s) (Z.of_nat (length s)) (length hs) =
    Some (match mapM (view_of s) hs with Some vs => inl vs | None => inr (-2)%Z end).
Proof.
  induction 1 as [|h hs (Hk&Hkl&Hv&Hvl) _ IH]; [done|]. cbn [build_views length mapM].
  rewrite !wrap_small by lia. destruct (view_of s h) as [v|] eqn:Hview;
    unfold view_of in Hview; case_decide; simplify_eq.
  - rewrite decide_False by lia. rewrite !read_span_ok by lia. simpl. rewrite IH.
    by destruct (mapM _ _).
  - by rewrite decide_True by lia.
Qed.
End theorems.

Lemma frame_size_bound hs n B :
  Forall (λ h, header_size h ≤ B)%Z hs →
  (frame_size hs n ≤ 2 + n + Z.of_nat (length hs) * B)%Z.
Proof.
  induction 1 as [|h hs Hh _ IH]; [unfold frame_size; simpl; lia|].
  rewrite frame_size_cons. simpl length. lia.
Qed.

Lemma view_size s h v :
  header_in_range h → view_of s h = Some v → (header_size v ≤ 2 ^ 33 + 4)%Z.
Proof.
  unfold view_of, header_in_range. intros Hr Hv. case_decide; simplify_eq.
  unfold header_size. cbn [name value]. rewrite !length_take. lia.
Qed.

Lemma views_size s hs vs :
  Forall header_in_range hs → mapM (view_of s) hs = Some vs →
  length vs = length hs ∧ Forall (λ v, header_size v ≤ 2 ^ 33 + 4)%Z vs.
Proof.
  intros Hr Hvs. apply mapM_Some in Hvs. split; [by symmetry; apply (Forall2_length _ _ _ Hvs)|].
  revert Hr. induction Hvs; intros Hr; inversion_clear Hr; constructor; eauto using view_size.
Qed.

(** The size limits under which a frame is written: 128 headers, the caller's
    capacity, and a length that an [int] can hold. *)
Definition frame_fits (hs : list HeaderFieldView) (b out : bytes) : Prop :=
  length hs ≤ 128 ∧ length (encode_frame hs b) ≤ length out ∧
  (Z.of_nat (length (encode_frame hs b)) ≤ INT_MAX)%Z.

(** The call on arrays of the stated lengths, with the guards resolved. *)
Lemma culpeo_serialize_frame_call {ST : SizeT} hs s b out :
  Forall header_in_range hs →
  culpeo_serialize_frame (Some hs) (Z.of_nat (length hs)) (Some s) (Z.of_nat (length s))
      (Some b) (Z.of_nat (length b)) (Some out) (Z.of_nat (length out)) =
    if decide (out = [] ∨ 128 < length hs) then Some ((-1)%Z, Some out)
    else match mapM (view_of s) hs with
         | None => Some ((-2)%Z, Some out)
         | Some vs =>
             '(written, out) ← serialize_frame_to_buffer control vs b out;
             Some (match written with
                   | Err _ => -1
                   | Ok n => if decide (INT_MAX < Z.of_nat n)%Z then -4 else Z.of_nat n
                   end, Some out)%Z
         end.
Proof.
  intros Hr. unfold culpeo_serialize_frame, kMaxHeaders. rewrite decide_False by naive_solver.
  destruct out as [|c out']; [done|]. set (out := c :: out') in *.
  rewrite decide_False by (simpl; lia). rewrite decide_False by lia.
  rewrite decide_False by naive_solver. destruct (decide (128 < length hs)) as [Hn|Hn].
  { by rewrite !decide_True by (lia || by right). }
  rewrite !decide_False by (lia || by intros [?|?]). rewrite !Nat2Z.id.
  change (default [] (Some hs)) with hs. rewrite build_views_spec by done.
  cbn [mbind option_bind]. destruct (mapM (view_of s) hs) as [vs|]; [|done].
  rewrite !read_span_all. cbn [mbind option_bind]. rewrite drop_ge by lia.
  destruct (serialize_frame_to_buffer _ _ _ _) as [[[n|e] o]|];
    cbn [mbind option_bind]; rewrite ?app_nil_r; [by case_decide|done..].
Qed.

(** C35. On a 64-bit host [culpeo_serialize_frame] never reads or writes outside
    the caller's arrays, whatever offsets the descriptors hold, and it returns a
    non-negative length exactly when the descriptors are in bounds, the headers
    are sendable and the frame fits; it then has written the encoded frame. *)
Theorem culpeo_serialize_frame_correct hs s b out :
  Forall header_in_range hs → (Z.of_nat (length b) < 2 ^ 63)%Z →
  ∃ r out', culpeo_serialize_frame (ST := lp64) (Some hs) (Z.of_nat (length hs))
      (Some s) (Z.of_nat (length s)) (Some b) (Z.of_nat (length b))
      (Some out) (Z.of_nat (length out)) = Some (r, Some out') ∧
    length out' = length out ∧
    ((0 ≤ r)%Z ↔ ∃ vs, mapM (view_of s) hs = Some vs ∧ headers_error vs = None ∧ frame_fits vs b out) ∧
    ∀ vs, (0 ≤ r)%Z → mapM (view_of s) hs = Some vs →
      r = Z.of_nat (length (encode_frame vs b)) ∧
      out' = encode_frame vs b ++ drop (length (encode_frame vs b)) out.
Proof.
  intros Hr Hb. rewrite culpeo_serialize_frame_call by done. unfold frame_fits.
  assert (∀ vs, 2 ≤ length (encode_frame vs b)) as Hlen2.
  { intros vs. unfold encode_frame. rewrite !length_app. simpl. lia. }
  case_decide as Hg.
  { eexists _, _. split_and!; [done|done| |lia]. split; [lia|].
    intros (vs&Hvs&_&?&Hout&_). destruct (views_size _ _ _ Hr Hvs) as [? _].
    specialize (Hlen2 vs). destruct Hg as [->|?]; simpl in *; lia. }
  destruct (mapM (view_of s) hs) as [vs|] eqn:Hvs.
  2:{ eexists _, _. split_and!; [done|done| |lia]. split; [lia|]. by intros (?&?&_). }
  destruct (views_size _ _ _ Hr Hvs) as [Hl Hsz].
  pose proof (frame_size_bound vs (Z.of_nat (length b)) _ Hsz) as Hfs.
  pose proof (serialize_to_buffer_spec (ST := lp64) control vs b out ltac:(done)
    ltac:(change (@size_bits lp64) with 64%Z; lia)) as Hser. cbv zeta in Hser.
  case_decide as Hfit.
  { rewrite Hser. cbn. eexists _, _. split_and!; [done|done| |lia].
    split; [lia|]. intros (?&[= <-]&_&_&?&_). lia. }
  destruct Hser as (out'&Hout'&Hser). destruct (headers_error vs) as [e|] eqn:He.
  { rewrite Hser. cbn. eexists _, _. split_and!; [done|done| |lia].
    split; [lia|]. intros (?&[= <-]&?&_). congruence. }
  destruct Hser as [-> Hw]. cbn. eexists _, _. split_and!; [done|done| |].
  - case_decide; split; try lia; [intros (?&[= <-]&_&_&_&?); lia|].
    intros _. exists vs. split_and!; [done|done|lia..].
  - intros ? Hpos [= <-]. case_decide; [lia|]. done.
Qed.

(** ** The 32-bit build *)

(** Two headers "a: v" whose value is the whole of a two-gigabyte buffer. *)
Definition huge_header : culpeo_header :=
  {| key_ptr := 0; key_len := 1; val_ptr := 0; val_len := 2 ^ 31 |}.

Lemma huge_view s :
  Z.of_nat (length s) = (2 ^ 31)%Z →
  view_of s huge_header = Some {| name := take 1 s; value := s |}.
Proof.
  intros Hs. unfold view_of. cbn [key_ptr key_len val_ptr val_len huge_header].
  rewrite decide_True by lia. rewrite !drop_0. by rewrite (take_ge s (Z.to_nat (2 ^ 31))) by lia.
Qed.

(** C37. On a 32-bit host (the WebAssembly build) the sum of the header sizes wraps
    around: descriptors that pass the bounds check make the function accept a
    12-byte output buffer and write past its end. *)
Theorem culpeo_serialize_frame_wasm32_overflow s out :
  Z.of_nat (length s) = (2 ^ 31)%Z → Forall (λ c, c = x61) s → length out = 12 →
  serialized_frame_size (ST := wasm32) (replicate 2 {| name := take 1 s; value := s |}) 0 = 12%Z ∧
  culpeo_serialize_frame (ST := wasm32) (Some [huge_header; huge_header]) 2
    (Some s) (2 ^ 31) (Some []) 0 (Some out) 12 = None.
Proof.
  intros Hs Ha Hout. set (v := {| name := take 1 s; value := s |}).
  assert (length (take 1 s) = 1) as H1 by (rewrite length_take; lia).
  assert (take 1 s = [x61]) as Hname.
  { destruct Ha as [|c s' ->]; [simpl in *; lia|]. done. }
  assert (serialized_frame_size (ST := wasm32) [v; v] 0 = 12%Z) as Hsize.
  { rewrite serialized_frame_size_wrap, !frame_size_cons. unfold frame_size, header_size. simpl.
    rewrite Hs. rewrite Hname. by vm_compute. }
  split; [exact Hsize|].
  pose proof (culpeo_serialize_frame_call (ST := wasm32) [huge_header; huge_header] s [] out) as Hc.
  rewrite Hs, Hout in Hc. change (Z.of_nat (length [huge_header; huge_header])) with 2%Z in Hc.
  change (Z.of_nat 12) with 12%Z in Hc. change (Z.of_nat (length [])) with 0%Z in Hc.
  rewrite Hc by (repeat constructor; done).
  rewrite decide_False by (intros [->|?]; simpl in *; lia). cbn [mapM].
  rewrite huge_view by done. cbn [mbind option_bind mret option_ret]. fold v.
  unfold serialize_frame_to_buffer. cbv zeta. change (Z.of_nat (length [])) with 0%Z.
  rewrite Hsize, Hout, decide_False by lia.
  rewrite write_headers_cons.
  - assert (write_bytes out 0 (encode_header v) = None) as ->; [|done].
    unfold write_bytes. rewrite decide_False; [done|]. unfold encode_header.
    rewrite !length_app. cbn [value v]. lia.
  - cbn [headers_error name value v]. rewrite Hname. cbn.
    assert (valid_header_value s = true) as ->; [|done].
    unfold valid_header_value. apply forallb_forall. intros c Hc'%list_elem_of_In.
    rewrite Forall_forall in Ha. by rewrite (Ha c Hc').
Qed.

(** ** Instances *)
Definition c_frame : bytes := str "Event: culpeo.ping" ++ CRLF ++ str "X: y " ++ CRLF2 ++ str "{}".

Lemma culpeo_parse_headers_correct_witness :
  ∃ ds, culpeo_parse_headers (ST := lp64) (Some c_frame) 31 (Some (replicate 2 (mkHeader 0 0 0 0))) 2
          (Some 0%Z) = Some (2%Z, Some ds, Some 29%Z) ∧
    Forall2 (denotes c_frame) ds [(str "Event", str "culpeo.ping"); (str "X", str "y")].
Proof.
  pose proof (culpeo_parse_headers_correct (ST := lp64) c_frame (replicate 2 (mkHeader 0 0 0 0)) 2 0
    ltac:(done)) as H. cbv zeta in H.
  destruct (spec_parse default_limits c_frame) as [[fs b]|e] eqn:Hs; vm_compute in Hs; [|done].
  injection Hs as <- <-. rewrite decide_True in H by by_decide. destruct H as (ds&Hds&Hr).
  exists ds. split; [|exact Hds]. etransitivity; [exact Hr|].
  do 3 f_equal. change (drop _ _) with (@nil culpeo_header). by rewrite app_nil_r.
Defined.

Lemma culpeo_serialize_frame_correct_witness :
  ∃ out', culpeo_serialize_frame (ST := lp64) (Some [mkHeader 0 1 1 2]) 1 (Some (str "Xyz")) 3
    (Some (str "hi")) 2 (Some (replicate 20 x00)) 20 = Some (11%Z, Some out').
Proof.
  destruct (culpeo_serialize_frame_correct [mkHeader 0 1 1 2] (str "Xyz") (str "hi")
    (replicate 20 x00)) as (r&out'&Hr&_&_&Hw); [repeat constructor; done|done|].
  exists out'. rewrite (proj1 (Hw _ ltac:(vm_compute in Hr; injection Hr as <- _; done) eq_refl)) in Hr.
  exact Hr.
Defined.

Lemma culpeo_serialize_frame_wasm32_overflow_witness :
  ∃ s, culpeo_serialize_frame (ST := wasm32) (Some [huge_header; huge_header]) 2
    (Some s) (2 ^ 31) (Some []) 0 (Some (replicate 12 x00)) 12 = None.
Proof.
  exists (replicate (Z.to_nat (2 ^ 31)) x61).
  apply (culpeo_serialize_frame_wasm32_overflow _ (replicate 12 x00)); [| |done].
  - rewrite length_replicate. apply Z2Nat.id. lia.
  - apply Forall_forall. intros c Hc. by apply elem_of_replicate_inv in Hc.
Defined.
