(* ===== verification/ContentType.v ===== *)
(** * libculpeo-message: content types

    [parse_u32], [parse_u16] and [parse_content_type] of [src/message.cpp]. *)

From S2P Require Import Prelude Bytes Decimal Message.

(** ** Numbers *)

(** The digit loop of [parse_u32], with the value accumulated so far. *)
Fixpoint parse_u32_digits (parsed : Z) (value : bytes) : expected Error Z :=
  match value with
  | [] => Ok parsed
  | ch :: value =>
      if bool_decide (code ch < 48)%Z || bool_decide (57 < code ch)%Z
      then Err invalid_numeric_parameter
      else
        let d := (code ch - 48)%Z in
        if decide ((uint32_max - d) / 10 < parsed)%Z then Err invalid_numeric_parameter
        else parse_u32_digits (wrap 32 (parsed * 10 + d)) value
  end.

Definition parse_u32 (value : bytes) : expected Error Z :=
  if decide (value = []) then Err invalid_numeric_parameter
  else if bool_decide (1 < length value) && bool_decide (head value = Some x30)
  then Err invalid_content_type
  else parse_u32_digits 0 value.

Definition parse_u16 (value : bytes) : expected Error Z :=
  match parse_u32 value with
  | Err e => Err e
  | Ok n => if decide (uint16_max < n)%Z then Err invalid_numeric_parameter else Ok n
  end.

(** ** Content types *)
Inductive ParsedContentType :=
| ApplicationJsonContentType
| AudioPcmContentType (rate channels bits : Z)
| AudioOpusContentType
| AudioAacContentType
| UnknownContentType (type subtype : string_view).

(** The locals of the parameter loop. *)
Record ct_state := {
  cursor : nat;
  rate : option Z;
  channels : option Z;
  bits : option Z;
}.

Definition pcm_params : Type := option Z * option Z * option Z.

(** The parameter that [segment] assigns, or the error it causes. *)
Definition parse_parameter (segment : string_view) (ps : pcm_params) : expected Error pcm_params :=
  let '(rate, channels, bits) := ps in
  let parameter := trim_ascii segment in
  if decide (sv_chars parameter = []) then Err invalid_content_type
  else match sv_find [x3d] parameter with
       | None => Err invalid_content_type
       | Some equals =>
           let key := sv_chars (trim_ascii (sv_substr parameter 0 equals)) in
           let numeric_value := sv_chars (trim_ascii (sv_drop parameter (equals + 1))) in
           if negb (valid_header_name key) then Err invalid_content_type
           else if iequals_ascii key (str "rate") then
             match rate with
             | Some _ => Err invalid_content_type
             | None => (λ n, (Some n, channels, bits)) <$> parse_u32 numeric_value
             end
           else if iequals_ascii key (str "channels") then
             match channels with
             | Some _ => Err invalid_content_type
             | None => (λ n, (rate, Some n, bits)) <$> parse_u16 numeric_value
             end
           else if iequals_ascii key (str "bits") then
             match bits with
             | Some _ => Err invalid_content_type
             | None => (λ n, (rate, channels, Some n)) <$> parse_u16 numeric_value
             end
           else Ok ps
       end.

(** One iteration of the parameter loop over [value]. *)
Definition parameter_step (value : string_view) (s : ct_state)
    : ct_state + expected Error pcm_params :=
  let ps := (rate s, channels s, bits s) in
  if decide (cursor s < sv_size value) then
    let next := default (sv_size value) (find_at [x3b] (sv_chars value) (cursor s)) in
    match parse_parameter (sv_substr value (cursor s) (next - cursor s)) ps with
    | Err e => inr (Err e)
    | Ok (r, c, b) => inl {| cursor := next + 1; rate := r; channels := c; bits := b |}
    end
  else inr (Ok ps).

Definition ct_measure (value : string_view) (s : ct_state) : nat := sv_size value - cursor s.

#[export] Instance parameter_decreasing value :
  Decreasing (ct_measure value) (parameter_step value).
Proof.
  intros s s'. unfold parameter_step, ct_measure. case_decide; [|done].
  destruct (parse_parameter _ _) as [[[r c] b]|]; [|done]. intros; simplify_eq/=.
  destruct (find_at _ _ _) as [i|] eqn:Hi; simpl; [|lia]. apply find_at_bound in Hi. lia.
Qed.

(** The checks after the loop. *)
Definition finish_pcm (ps : pcm_params) : expected Error ParsedContentType :=
  match ps with
  | (Some rate, Some channels, Some bits) =>
      if decide (channels = 0)%Z then Err invalid_content_type
      else if bool_decide (bits = 0)%Z || bool_decide (bits mod 8 ≠ 0)%Z then Err invalid_content_type
      else Ok (AudioPcmContentType rate channels bits)
  | _ => Err missing_content_type_parameter
  end.

Definition parse_content_type (value : string_view) : expected Error ParsedContentType :=
  let value := trim_ascii value in
  if decide (sv_chars value = []) then Err invalid_content_type
  else
    let first_separator := sv_find [x3b] value in
    let media_type := trim_ascii (sv_substr value 0 (default (sv_size value) first_separator)) in
    match sv_find [x2f] media_type with
    | None => Err invalid_content_type
    | Some slash =>
        let type := trim_ascii (sv_substr media_type 0 slash) in
        let subtype := trim_ascii (sv_drop media_type (slash + 1)) in
        let same t s := iequals_ascii (sv_chars type) (str t) && iequals_ascii (sv_chars subtype) (str s) in
        if negb (valid_header_name (sv_chars type)) || negb (valid_header_name (sv_chars subtype))
        then Err invalid_content_type
        else if same "application" "json" then Ok ApplicationJsonContentType
        else if same "audio" "opus" then Ok AudioOpusContentType
        else if same "audio" "aac" then Ok AudioAacContentType
        else if negb (iequals_ascii (sv_chars type) (str "audio"))
                || negb (iequals_ascii (sv_chars subtype) (str "pcm"))
        then Ok (UnknownContentType type subtype)
        else
          let start := match first_separator with None => sv_size value | Some i => i + 1 end in
          match loop (ct_measure value) (parameter_step value)
                  {| cursor := start; rate := None; channels := None; bits := None |} with
          | Err e => Err e
          | Ok ps => finish_pcm ps
          end
    end.

(** ** Facts about the number parsers *)
Local Open Scope Z_scope.

Lemma not_digit_char c :
  bool_decide (code c < 48) || bool_decide (57 < code c) = negb (is_digit c).
Proof.
  unfold is_digit. repeat case_bool_decide; simpl; try done; lia.
Qed.

Definition value_from (acc : Z) (s : bytes) : Z := foldl (λ acc c, acc * 10 + digit_val c) acc s.

Lemma value_from_ge acc s : 0 ≤ acc → digits s → acc ≤ value_from acc s.
Proof.
  intros Hacc Hs. revert acc Hacc. induction Hs as [|c s Hc Hs IH]; intros acc Hacc; simpl; [lia|].
  apply is_digit_range in Hc. etrans; [|apply IH]; lia.
Qed.

Lemma parse_u32_digits_spec acc s :
  0 ≤ acc ≤ uint32_max →
  parse_u32_digits acc s =
    if decide (digits s ∧ value_from acc s ≤ uint32_max) then Ok (value_from acc s)
    else Err invalid_numeric_parameter.
Proof.
  revert acc. induction s as [|c s IH]; intros acc Hacc.
  - simpl. rewrite decide_True; [done|]. split; [constructor|]. simpl. lia.
  - cbn [parse_u32_digits]. rewrite not_digit_char. destruct (is_digit c) eqn:Hc; simpl negb; cbv iota.
    2:{ rewrite decide_False; [done|]. intros [Hd _]. inversion Hd; congruence. }
    pose proof Hc as Hr. apply is_digit_range in Hr. fold (digit_val c).
    change (value_from acc (c :: s)) with (value_from (acc * 10 + digit_val c) s).
    pose proof (Z.mul_div_le (uint32_max - digit_val c) 10 ltac:(lia)) as Hd1.
    pose proof (Z.mul_succ_div_gt (uint32_max - digit_val c) 10 ltac:(lia)) as Hd2.
    case_decide as Hov.
    + rewrite decide_False; [done|]. intros [Hd Hle]. apply Forall_cons in Hd as [_ Hs].
      pose proof (value_from_ge (acc * 10 + digit_val c) s ltac:(lia) Hs). lia.
    + unfold uint32_max in *. rewrite wrap_small by lia. rewrite IH by lia.
      apply decide_ext. rewrite Forall_cons. tauto.
Qed.

(** [parse_u32] accepts exactly the canonical numerals of 32-bit numbers. *)
Lemma parse_u32_Ok s n :
  parse_u32 s = Ok n ↔ canonical s ∧ dec_value s = n ∧ n ≤ uint32_max.
Proof.
  unfold parse_u32, canonical. change (digit 0) with x30.
  case_decide as Hnil; [naive_solver|].
  rewrite parse_u32_digits_spec by done. change (value_from 0 s) with (dec_value s).
  case_bool_decide as Hlen; simpl; [case_bool_decide as Hz; [naive_solver|]|].
  all: case_decide; naive_solver lia.
Qed.

Lemma parse_u32_range s n : parse_u32 s = Ok n → 0 ≤ n ≤ uint32_max.
Proof.
  intros ((_&Hd&_)&<-&?)%parse_u32_Ok. split; [|done]. by apply dec_value_nonneg.
Qed.

Lemma parse_u32_to_string n : 0 ≤ n ≤ uint32_max → parse_u32 (to_string_u n) = Ok n.
Proof.
  intros. apply parse_u32_Ok. split_and!; [apply to_string_u_canonical; lia| |lia].
  apply dec_value_to_string_u. lia.
Qed.

Lemma parse_u16_Ok s n : parse_u16 s = Ok n ↔ parse_u32 s = Ok n ∧ n ≤ uint16_max.
Proof.
  unfold parse_u16. destruct (parse_u32 s) as [m|e]; [|naive_solver].
  case_decide; naive_solver lia.
Qed.

Lemma parse_u16_to_string n : 0 ≤ n ≤ uint16_max → parse_u16 (to_string_u n) = Ok n.
Proof.
  intros. apply parse_u16_Ok. split; [|lia]. apply parse_u32_to_string.
  unfold uint16_max, uint32_max in *. lia.
Qed.

(** ** The parameter loop as a fold over the segments *)
Fixpoint fold_params (segs : list bytes) (ps : pcm_params) : expected Error pcm_params :=
  match segs with
  | [] => Ok ps
  | seg :: segs =>
      match parse_parameter (sv_of seg) ps with
      | Err e => Err e
      | Ok ps => fold_params segs ps
      end
  end.

Lemma trim_ascii_chars v w : sv_chars v = sv_chars w → sv_chars (trim_ascii v) = sv_chars (trim_ascii w).
Proof. destruct v, w. simpl. intros ->. apply sv_trim_chars. Qed.

(** A parameter is read from the characters of its segment. *)
Lemma parse_parameter_chars v w ps :
  sv_chars v = sv_chars w → parse_parameter v ps = parse_parameter w ps.
Proof.
  intros Heq%trim_ascii_chars. destruct ps as [[r c] b]. unfold parse_parameter, sv_find.
  rewrite Heq. case_decide; [done|]. destruct (find _ _) as [i|]; [|done].
  rewrite (trim_ascii_chars (sv_substr (trim_ascii v) 0 i) (sv_substr (trim_ascii w) 0 i))
    by (simpl; by rewrite Heq).
  by rewrite (trim_ascii_chars (sv_drop (trim_ascii v) (i + 1)) (sv_drop (trim_ascii w) (i + 1)))
    by (simpl; by rewrite Heq).
Qed.

Lemma parameter_loop value s :
  loop (ct_measure value) (parameter_step value) s =
    fold_params (segments x3b (drop (cursor s) (sv_chars value))) (rate s, channels s, bits s).
Proof.
  apply (loop_ind _ _ (λ s r, r =
    fold_params (segments x3b (drop (cursor s) (sv_chars value))) (rate s, channels s, bits s))).
  all: clear s; intros s.
  all: unfold parameter_step; case_decide as Hlt.
  - intros r. rewrite (segments_cursor _ _ _ _ Hlt eq_refl). cbn [fold_params].
    set (next := default _ _).
    rewrite (parse_parameter_chars _ (sv_of (take (next - cursor s) (drop (cursor s) (sv_chars value)))))
      by done.
    destruct (parse_parameter _ _) as [[[? ?] ?]|]; naive_solver.
  - intros r. rewrite drop_ge by (unfold sv_size in *; lia). naive_solver.
  - intros s'. rewrite (segments_cursor _ _ _ _ Hlt eq_refl). cbn [fold_params].
    set (next := default _ _).
    rewrite (parse_parameter_chars _ (sv_of (take (next - cursor s) (drop (cursor s) (sv_chars value)))))
      by done.
    destruct (parse_parameter _ _) as [[[? ?] ?]|]; [|done]. intros [= <-]. done.
  - done.
Qed.

(** ** Accepted PCM formats *)
Definition pcm_ok (rate channels bits : Z) : Prop :=
  0 ≤ rate ≤ uint32_max ∧ 1 ≤ channels ≤ uint16_max ∧
  8 ≤ bits ≤ uint16_max ∧ bits mod 8 = 0.

Definition params_in_range (ps : pcm_params) : Prop :=
  let '(rate, channels, bits) := ps in
  (∀ n, rate = Some n → 0 ≤ n ≤ uint32_max) ∧
  (∀ n, channels = Some n → 0 ≤ n ≤ uint16_max) ∧
  (∀ n, bits = Some n → 0 ≤ n ≤ uint16_max).

Lemma parse_u16_range s n : parse_u16 s = Ok n → 0 ≤ n ≤ uint16_max.
Proof. intros [H ?]%parse_u16_Ok. apply parse_u32_range in H. lia. Qed.

Lemma expected_fmap_Ok {E A B} (f : A → B) (m : expected E A) b :
  f <$> m = Ok b ↔ ∃ a, m = Ok a ∧ b = f a.
Proof. destruct m; unfold fmap; simpl; naive_solver. Qed.

Lemma parse_parameter_range v ps ps' :
  params_in_range ps → parse_parameter v ps = Ok ps' → params_in_range ps'.
Proof.
  destruct ps as [[r c] b]. intros (Hr&Hc&Hb). unfold parse_parameter.
  case_decide; [done|]. destruct (sv_find _ _) as [i|]; [|done].
  set (num := sv_chars _) at 2. destruct (negb _); [done|].
  destruct (iequals_ascii _ (str "rate")).
  { destruct r; [done|]. intros (n&Hn&->)%expected_fmap_Ok. split_and!; [|done..].
    intros ? [= <-]. by eapply parse_u32_range. }
  destruct (iequals_ascii _ (str "channels")).
  { destruct c; [done|]. intros (n&Hn&->)%expected_fmap_Ok. split_and!; [done| |done].
    intros ? [= <-]. by eapply parse_u16_range. }
  destruct (iequals_ascii _ (str "bits")).
  { destruct b; [done|]. intros (n&Hn&->)%expected_fmap_Ok. split_and!; [done|done|].
    intros ? [= <-]. by eapply parse_u16_range. }
  by intros [= <-].
Qed.

Lemma fold_params_range segs ps ps' :
  params_in_range ps → fold_params segs ps = Ok ps' → params_in_range ps'.
Proof.
  revert ps. induction segs as [|seg segs IH]; intros ps Hps; simpl; [by intros [= <-]|].
  destruct (parse_parameter _ _) eqn:Hp; [|done]. eauto using parse_parameter_range.
Qed.

Lemma finish_pcm_ok ps r c b :
  params_in_range ps → finish_pcm ps = Ok (AudioPcmContentType r c b) →
  ps = (Some r, Some c, Some b) ∧ pcm_ok r c b.
Proof.
  destruct ps as [[[r'|] [c'|]] [b'|]]; simpl; try done.
  intros (Hr&Hc&Hb). specialize (Hr _ eq_refl). specialize (Hc _ eq_refl). specialize (Hb _ eq_refl).
  case_decide; [done|]. repeat case_bool_decide; simpl; try done. intros [= -> -> ->].
  split; [done|]. assert (b mod 8 = 0) by (destruct (decide (b mod 8 = 0)); naive_solver).
  pose proof (Z.div_mod b 8). unfold pcm_ok. lia.
Qed.

Lemma parse_content_type_pcm v r c b :
  parse_content_type v = Ok (AudioPcmContentType r c b) → pcm_ok r c b.
Proof.
  unfold parse_content_type. case_decide; [done|].
  destruct (sv_find [x2f] _) as [slash|]; [|done].
  set (type := sv_chars (trim_ascii (sv_substr _ 0 slash))).
  set (subtype := sv_chars (trim_ascii (sv_drop _ _))).
  repeat (match goal with |- context [if ?b then _ else _] =>
    lazymatch b with decide _ => fail | _ => destruct b end end; try done).
  rewrite parameter_loop. destruct (fold_params _ _) as [ps|] eqn:Hf; [|done].
  intros Hfin. eapply finish_pcm_ok; [|done]. eapply fold_params_range; [|done]. done.
Qed.

(** ** Printing a PCM content type *)
Definition print_pcm (rate channels bits : Z) : bytes :=
  str "audio/pcm;rate=" ++ to_string_u rate ++ str ";channels=" ++ to_string_u channels ++
  str ";bits=" ++ to_string_u bits.

Lemma digits_no c s : digits s → is_digit c = false → c ∉ s.
Proof. intros Hs Hc Hin. rewrite Forall_forall in Hs. specialize (Hs _ Hin). congruence. Qed.

Lemma digit_not_ws c : is_digit c = true → is_ws c = false.
Proof.
  intros Hc. pose proof (forall_byte (λ c, negb (is_digit c && is_ws c)) eq_refl c) as H.
  simpl in H. rewrite Hc in H. by destruct (is_ws c).
Qed.

Lemma digits_trimmed s : digits s → trimmed s.
Proof.
  intros Hs. rewrite Forall_forall in Hs. split; intros c Hc; apply digit_not_ws, Hs.
  - destruct s; [done|]. simplify_eq/=. by left.
  - by apply last_Some_elem_of.
Qed.

(** A segment [key=number] as the printer writes it. *)
Lemma parse_parameter_number key num ps :
  x3d ∉ key → valid_header_name key = true → trimmed key → digits num → num ≠ [] →
  parse_parameter (sv_of (key ++ x3d :: num)) ps =
    let '(rate, channels, bits) := ps in
    if iequals_ascii key (str "rate") then
      match rate with Some _ => Err invalid_content_type
      | None => (λ n, (Some n, channels, bits)) <$> parse_u32 num end
    else if iequals_ascii key (str "channels") then
      match channels with Some _ => Err invalid_content_type
      | None => (λ n, (rate, Some n, bits)) <$> parse_u16 num end
    else if iequals_ascii key (str "bits") then
      match bits with Some _ => Err invalid_content_type
      | None => (λ n, (rate, channels, Some n)) <$> parse_u16 num end
    else Ok ps.
Proof.
  intros Hkey Hname Htk Hnum Hne. destruct ps as [[r c] b]. unfold parse_parameter.
  assert (trim_ascii (sv_of (key ++ x3d :: num)) = sv_of (key ++ x3d :: num)) as ->.
  { apply sv_trim_id. split; intros d Hd.
    - destruct key as [|k key]; [done|]. by apply (proj1 Htk).
    - apply (digits_trimmed num Hnum). destruct num; [done|].
      rewrite last_app_cons in Hd. done. }
  unfold sv_find, sv_of, sv_substr, sv_drop. cbn [sv_chars sv_off].
  rewrite decide_False by (by destruct key).
  assert (find [x3d] (key ++ x3d :: num) = Some (length key)) as -> by by apply (find_after key [] num).
  rewrite drop_0, take_app_length.
  replace (drop (length key + 1) (key ++ x3d :: num)) with num.
  2:{ change (key ++ x3d :: num) with (key ++ [x3d] ++ num).
      rewrite app_assoc, drop_app_length'; [done|]. by rewrite length_app. }
  change (trim_ascii ?v) with (sv_trim v).
  rewrite !sv_trim_id by (done || by apply digits_trimmed). cbn [sv_chars]. by rewrite Hname.
Qed.

Lemma media_type_pcm rest :
  trimmed (str "audio/pcm;" ++ rest) →
  parse_content_type (sv_of (str "audio/pcm;" ++ rest)) =
    match fold_params (segments x3b rest) (None, None, None) with
    | Err e => Err e
    | Ok ps => finish_pcm ps
    end.
Proof.
  intros Ht. unfold parse_content_type. change (trim_ascii (sv_of ?s)) with (sv_trim (SV 0 s)).
  rewrite sv_trim_id by done. cbn [sv_chars]. rewrite decide_False by done.
  assert (sv_find [x3b] (SV 0 (str "audio/pcm;" ++ rest)) = Some 9%nat) as ->
    by (apply (find_after (str "audio/pcm") [] rest); by_decide).
  cbn [default]. unfold sv_substr at 1. cbn [sv_chars sv_off].
  replace (take 9 (drop 0 (str "audio/pcm;" ++ rest))) with (str "audio/pcm") by done.
  set (m := trim_ascii _). vm_compute in m. subst m.
  cbv zeta.
  repeat match goal with |- context [if ?b then _ else _] =>
    lazymatch b with decide _ => fail | _ =>
      let v := eval vm_compute in b in change b with v; cbv iota end end.
  rewrite parameter_loop. done.
Qed.

(** Evaluates comparisons of literal names. *)
Ltac eval_iequals :=
  repeat match goal with |- context [iequals_ascii (str ?a) (str ?b)] =>
    let v := eval vm_compute in (iequals_ascii (str a) (str b)) in
    change (iequals_ascii (str a) (str b)) with v end; cbv iota.

(** The names of the PCM parameters are usable as parameter names. *)
Lemma pcm_key_ok k :
  k = str "rate" ∨ k = str "channels" ∨ k = str "bits" →
  (x3d ∉ k) ∧ valid_header_name k = true ∧ trimmed k.
Proof.
  intros [->|[->| ->]]; (split_and!; [by_decide|by_decide|]); split; intros c [= <-]; by_decide.
Qed.

Lemma parse_print_pcm rate channels bits :
  pcm_ok rate channels bits →
  parse_content_type (sv_of (print_pcm rate channels bits)) =
    Ok (AudioPcmContentType rate channels bits).
Proof.
  intros (Hr&Hc&Hb&Hmod). unfold print_pcm.
  pose proof (to_string_u_digits rate ltac:(lia)) as Hdr.
  pose proof (to_string_u_digits channels ltac:(lia)) as Hdc.
  pose proof (to_string_u_canonical bits ltac:(lia)) as (Hne&Hdb&_).
  pose proof (to_string_u_canonical rate ltac:(lia)) as (Hner&_&_).
  pose proof (to_string_u_canonical channels ltac:(lia)) as (Hnec&_&_).
  set (rest := str "rate=" ++ to_string_u rate ++ str ";channels=" ++ to_string_u channels ++
    str ";bits=" ++ to_string_u bits).
  change (str "audio/pcm;rate=" ++ _) with (str "audio/pcm;" ++ rest).
  rewrite media_type_pcm.
  2:{ split; [by intros c [= <-]|]. intros c Hl. apply (digits_trimmed _ Hdb).
      unfold rest in Hl. rewrite !app_assoc, last_app in Hl.
      destruct (last (to_string_u bits)) eqn:He; [done|]. by apply last_None in He. }
  assert (segments x3b rest = [str "rate" ++ x3d :: to_string_u rate;
    str "channels" ++ x3d :: to_string_u channels; str "bits" ++ x3d :: to_string_u bits]) as ->.
  { unfold rest.
    change (str "rate=" ++ to_string_u rate ++ str ";channels=" ++ ?r) with
      ((str "rate=" ++ to_string_u rate) ++ x3b :: (str "channels=" ++ r)).
    assert (∀ k n, x3b ∉ k → 0 ≤ n → x3b ∉ k ++ to_string_u n) as Hno.
    { intros k n Hk Hn. rewrite not_elem_of_app. split; [done|].
      apply digits_no; [by apply to_string_u_digits|done]. }
    rewrite segments_app by (apply Hno; [by_decide|lia]).
    change (str "channels=" ++ to_string_u channels ++ str ";bits=" ++ ?r) with
      ((str "channels=" ++ to_string_u channels) ++ x3b :: (str "bits=" ++ r)).
    rewrite segments_app by (apply Hno; [by_decide|lia]).
    rewrite segments_single; [done| |done]. apply Hno; [by_decide|lia]. }
  cbn [fold_params].
  rewrite (parse_parameter_number (str "rate")) by first [apply pcm_key_ok; tauto | assumption].
  eval_iequals. rewrite parse_u32_to_string by lia. cbn [fmap expected_fmap].
  rewrite (parse_parameter_number (str "channels")) by first [apply pcm_key_ok; tauto | assumption].
  eval_iequals. rewrite parse_u16_to_string by lia. cbn [fmap expected_fmap].
  rewrite (parse_parameter_number (str "bits")) by first [apply pcm_key_ok; tauto | assumption].
  eval_iequals. rewrite parse_u16_to_string by lia. cbn [fmap expected_fmap].
  unfold finish_pcm. rewrite decide_False by lia.
  by rewrite !bool_decide_eq_false_2 by lia.
Qed.
