(* ===== verification/MessageTheorems.v ===== *)
(** * What libculpeo-message guarantees

    The properties of the parser, the serializer and the content-type parser,
    each with a concrete instance. *)

From S2P Require Import Prelude Bytes Decimal Message ParseFacts Serialize Codec ContentType.

(** ** Concrete frames *)
Definition demo_frame : bytes :=
  str "Event: culpeo.ping" ++ CRLF ++ str "X-Trace:  a:b " ++ CRLF ++
  str "content-type:application/json" ++ CRLF2 ++ str "{}".

Definition demo_header : HeaderFieldView := {| name := str "Event"; value := str "culpeo.pong" |}.
Definition demo_headers : list HeaderFieldView :=
  [{| name := str "Content-Type"; value := str " application/json" |}].

Definition named (ft : FrameType) : bool :=
  match ft with unnamed_frame_type _ => false | _ => true end.

Lemma named_not ft : named ft = true → ∀ v, ft ≠ unnamed_frame_type v.
Proof. by intros H v ->. Qed.

Section parser.
Context {ST : SizeT} (limits : ParseLimits).

(** C9. [parse_headers] computes the line-list reference: it fails with the
    reference's error, and otherwise yields the frame type, the body after the
    first blank line, and for each reserved header the value of its field. *)
Theorem parse_headers_correct ft fr :
  limits_ok limits → named ft = true →
  match spec_parse limits fr with
  | Err e => parse_headers limits ft fr = Err e
  | Ok (fs, b) => ∃ p, parse_headers limits ft fr = Ok p ∧ parse_result ft fr p fs b
  end.
Proof. intros Hok Hft. apply parse_headers_refines_spec; [done|by apply named_not]. Qed.

(** The accepted frames are exactly those with a first blank line within the
    block limit, at most [max_header_count] lines, each a well-formed field, and
    no reserved header twice. *)
Theorem parse_headers_accepts ft fr :
  limits_ok limits → named ft = true →
  (∃ p, parse_headers limits ft fr = Ok p) ↔
  ∃ hb b fs, fr = hb ++ CRLF2 ++ b ∧ find CRLF2 fr = Some (length hb) ∧
    (Z.of_nat (length hb) ≤ max_header_block_bytes limits)%Z ∧
    well_formed_fields limits (block_lines hb) fs.
Proof.
  intros Hok Hft. pose proof (parse_headers_refines_spec limits ft fr Hok (named_not _ Hft)) as Href.
  split.
  - intros [p Hp]. destruct (spec_parse limits fr) as [[fs b]|e] eqn:Hs; [|congruence].
    apply spec_parse_Ok_iff in Hs as (hb&?). by exists hb, b, fs.
  - intros (hb&b&fs&H). assert (spec_parse limits fr = Ok (fs, b)) as Hs
      by (apply spec_parse_Ok_iff; by exists hb).
    rewrite Hs in Href. destruct Href as (p&?&_). by exists p.
Qed.

(** C32. Parsing is zero-copy: the block, the body and every header value are
    windows of the caller's buffer at the offsets the views carry, and header
    values lie inside the header block. *)
Theorem parse_headers_zero_copy ft fr p :
  parse_headers limits ft fr = Ok p →
  in_buffer fr (header_block p) ∧ in_buffer fr (body p) ∧
  ∀ r v, get_slot r p = Some v →
    in_buffer fr v ∧ sv_off v + sv_size v ≤ sv_size (header_block p).
Proof.
  intros (t&Ht&Hhb&Hb&Hslots)%parse_headers_views.
  assert (∀ v, in_buffer (take t fr) v → in_buffer fr v) as Htake.
  { intros v. rewrite !in_buffer_split. intros (pre&post&Heq&Hlen).
    exists pre, (post ++ drop t fr). split; [|done].
    rewrite <-(take_drop t fr) at 1. rewrite Heq. by rewrite <-!app_assoc. }
  rewrite Hhb, Hb. split_and!.
  - apply Htake. apply in_buffer_of.
  - apply in_buffer_split. exists (take (t + 4) fr), [].
    simpl. rewrite app_nil_r, take_drop, length_take. split; [done|lia].
  - intros r v Hv%Hslots. split; [by apply Htake|]. by destruct Hv.
Qed.

(** A header value that reaches the session contains no CR, LF or NUL, has
    no surrounding white space and respects the value limit: no header line can
    be smuggled through a value. *)
Theorem parse_headers_safe_values ft fr p r v :
  limits_ok limits → parse_headers limits ft fr = Ok p → get_slot r p = Some v →
  (∀ c, c ∈ sv_chars v → c ≠ CR ∧ c ≠ LF ∧ c ≠ NUL) ∧ trimmed (sv_chars v) ∧
  (Z.of_nat (sv_size v) ≤ max_header_value_bytes limits)%Z.
Proof.
  intros Hok Hp Hv.
  assert (∀ v, ft ≠ unnamed_frame_type v) as Hft by (by intros ? ->).
  pose proof (parse_headers_refines_spec limits ft fr Hok Hft) as Href.
  destruct (spec_parse limits fr) as [[fs b]|e] eqn:Hs; [|congruence].
  destruct Href as (p'&Hp'&_&_&_&_&Hslots). assert (p' = p) as -> by congruence.
  specialize (Hslots r). rewrite Hv in Hslots. symmetry in Hslots.
  apply field_value_Some in Hslots as (name&Hin&_).
  apply spec_parse_Ok_iff in Hs as (hb&_&_&_&Hwf).
  destruct (well_formed_field_ok _ _ _ _ Hwf Hin) as (_&Hval&Htrim&Hlen).
  split_and!; [|done|done]. intros c Hc. by apply (valid_value_chars _ _ Hval).
Qed.

(** With a block limit of SIZE_MAX the size of the search window wraps
    around to three bytes, so that every frame is reported as incomplete. *)
Theorem parse_headers_unlimited_rejects ft fr :
  max_header_block_bytes limits = (2 ^ size_bits - 1)%Z →
  (Z.of_nat (length fr) < 2 ^ size_bits)%Z → named ft = true →
  parse_headers limits ft fr = Err missing_header_terminator.
Proof.
  intros Hmax Hlen Hft. pose proof size_bits_pow as Hbits.
  assert (search_length limits fr ≤ 3) as Hs.
  { unfold search_length, wrap_size, wrap. rewrite Hmax.
    replace (2 ^ size_bits - 1 + 4)%Z with (3 + 1 * 2 ^ size_bits)%Z by lia.
    rewrite Z_mod_plus_full, Z.mod_small by lia. case_decide; lia. }
  assert (find CRLF2 (take (search_length limits fr) fr) = None) as Hnone.
  { destruct (find _ _) eqn:Hf; [|done]. apply find_bound in Hf.
    rewrite length_take in Hf. simpl in Hf. lia. }
  unfold parse_headers. rewrite Hnone, decide_False by lia. by destruct ft.
Qed.

(** C10. A serialized frame with at least one header is parsed back: same type and
    body, and each reserved header carries the (trimmed) value that was sent. *)
Theorem frame_roundtrip ft h hs b :
  limits_ok limits → named ft = true →
  (frame_size (h :: hs) (Z.of_nat (length b)) < 2 ^ size_bits)%Z →
  headers_error (h :: hs) = None → fits limits h hs →
  ∃ fr p, serialize_frame ft (h :: hs) b = Some (Ok fr) ∧
    parse_headers limits ft fr = Ok p ∧ frame_type p = ft ∧ sv_chars (body p) = b ∧
    ∀ r, sv_chars <$> get_slot r p =
      (λ q, trim_value (value q.2)) <$>
        list_find (λ h, reserved_of_name (name h) = Some r) (h :: hs).
Proof.
  intros Hok Hft Hsize Herr Hfits. pose proof (named_not _ Hft) as Hft'.
  pose proof (serialize_frame_spec ft (h :: hs) b Hft' Hsize) as Hser. rewrite Herr in Hser.
  apply headers_error_None in Herr.
  pose proof (parse_headers_refines_spec limits ft (encode_frame (h :: hs) b) Hok Hft') as Href.
  rewrite spec_parse_encode in Href by done. destruct Href as (p&Hp&Ht&_&Hb&_&Hslots).
  exists (encode_frame (h :: hs) b), p. split_and!; [done..|].
  intros r. by rewrite Hslots, field_value_received.
Qed.
End parser.

Section serializer.
Context {ST : SizeT}.

(** C33. [serialize_frame] either fails with the first header that is not
    sendable, or returns exactly the encoding of the headers and the body; it
    never writes outside its buffer as long as the frame's size fits size_t. *)
Theorem serialize_frame_exact ft hs b :
  named ft = true → (frame_size hs (Z.of_nat (length b)) < 2 ^ size_bits)%Z →
  serialize_frame ft hs b =
    Some (match headers_error hs with Some e => Err e | None => Ok (encode_frame hs b) end).
Proof. intros Hft. by apply serialize_frame_spec, named_not. Qed.

(** Serialization into a caller's buffer needs [serialized_frame_size] bytes,
    reports how many it wrote, and leaves the bytes after them as they were. *)
Theorem serialize_to_buffer_exact ft hs b out :
  named ft = true → (frame_size hs (Z.of_nat (length b)) < 2 ^ size_bits)%Z →
  headers_error hs = None →
  serialize_frame_to_buffer ft hs b out =
    if decide (Z.of_nat (length out) < serialized_frame_size hs (Z.of_nat (length b)))%Z
    then Some (Err buffer_too_small, out)
    else Some (Ok (length (encode_frame hs b)),
               encode_frame hs b ++ drop (length (encode_frame hs b)) out).
Proof.
  intros Hft Hsize Herr.
  pose proof (serialize_to_buffer_spec ft hs b out (named_not _ Hft) Hsize) as Hs. simpl in Hs.
  rewrite serialized_frame_size_ok by done. rewrite Herr in Hs.
  case_decide; case_decide; try lia; [done|]. destruct Hs as (?&_&->&->). done.
Qed.
End serializer.

(** A frame serialized without headers, which the serializer accepts, is not
    a frame for the parser: the blank line at its start is not found. *)
Theorem empty_header_frame_unparsable {ST : SizeT} :
  serialize_frame control [] (str "{}") = Some (Ok (CRLF ++ str "{}")) ∧
  parse_headers default_limits control (CRLF ++ str "{}") = Err missing_header_terminator.
Proof.
  pose proof size_bits_pow. split.
  - apply (serialize_frame_spec control []); [done|]. unfold frame_size. simpl. lia.
  - apply (parse_headers_refines_spec default_limits control (CRLF ++ str "{}")); [|done].
    unfold limits_ok. simpl. lia.
Qed.

(** ** Content types *)

(** [parse_u32] accepts exactly the canonical decimal numerals below 2^32
    (digits only, no leading zero) and returns their value. *)
Theorem parse_u32_exact s n :
  parse_u32 s = Ok n ↔ canonical s ∧ dec_value s = n ∧ (n ≤ uint32_max)%Z.
Proof. apply parse_u32_Ok. Qed.

(** A PCM format that is accepted has at least one channel and a positive
    sample size in whole bytes, all within their integer types. *)
Theorem content_type_pcm_ok v rate channels bits :
  parse_content_type v = Ok (AudioPcmContentType rate channels bits) → pcm_ok rate channels bits.
Proof. apply parse_content_type_pcm. Qed.

(** Printing a PCM format and parsing it is the identity on all formats the
    protocol allows. *)
Theorem content_type_pcm_roundtrip rate channels bits :
  pcm_ok rate channels bits →
  parse_content_type (sv_of (print_pcm rate channels bits)) =
    Ok (AudioPcmContentType rate channels bits).
Proof. apply parse_print_pcm. Qed.

(** ** Instances *)
Lemma parse_headers_correct_witness :
  ∃ p, parse_headers (ST := lp64) default_limits control demo_frame = Ok p ∧
    sv_chars (body p) = str "{}" ∧ sv_chars <$> event p = Some (str "culpeo.ping").
Proof.
  pose proof (parse_headers_correct (ST := lp64) default_limits control demo_frame
    ltac:(split; done) eq_refl) as H.
  set (r := spec_parse _ _) in H. vm_compute in r. subst r. cbv beta iota in H.
  destruct H as (p&Hp&_&_&Hb&_&Hslots). exists p. split; [exact Hp|].
  split; [exact Hb|]. exact (Hslots h_event).
Defined.

Lemma parse_headers_accepts_witness :
  ∃ p, parse_headers (ST := lp64) default_limits media demo_frame = Ok p.
Proof.
  apply (parse_headers_accepts (ST := lp64) default_limits media demo_frame); [split; done|done|].
  exists (take 65 demo_frame), (str "{}"),
    [(str "Event", str "culpeo.ping"); (str "X-Trace", str "a:b");
     (str "content-type", str "application/json")].
  split_and!; [by vm_compute|by vm_compute|by vm_compute|]. unfold well_formed_fields.
  set (ls := block_lines _). vm_compute in ls. subst ls. split_and!.
  - repeat (apply Forall2_cons; split; [by vm_compute|]). by constructor.
  - right. by_decide.
  - by_decide.
Defined.

Lemma demo_parsed : is_ok (parse_headers (ST := lp64) default_limits control demo_frame) = true.
Proof. by vm_compute. Defined.

Definition demo_view : ParsedHeadersView :=
  match parse_headers (ST := lp64) default_limits control demo_frame with
  | Ok p => p
  | Err _ => initial_view control demo_frame 0
  end.

Lemma parse_headers_zero_copy_witness :
  in_buffer demo_frame (header_block demo_view) ∧ in_buffer demo_frame (body demo_view).
Proof.
  destruct (parse_headers_zero_copy (ST := lp64) default_limits control demo_frame demo_view
    ltac:(by vm_compute)) as (H1&H2&_).
  exact (conj H1 H2).
Defined.

Lemma parse_headers_safe_values_witness :
  ∃ v, event demo_view = Some v ∧ trimmed (sv_chars v).
Proof.
  exists (SV 7 (str "culpeo.ping")). split; [by vm_compute|].
  exact (proj1 (proj2 (parse_headers_safe_values (ST := lp64) default_limits control demo_frame
    demo_view h_event _ ltac:(split; done) ltac:(by vm_compute) ltac:(by vm_compute)))).
Defined.

Definition unlimited : ParseLimits :=
  {| max_header_block_bytes := 2 ^ 64 - 1; max_header_count := 128; max_header_value_bytes := 4096 |}.

Lemma parse_headers_unlimited_rejects_witness :
  parse_headers (ST := lp64) unlimited control demo_frame = Err missing_header_terminator.
Proof. apply (parse_headers_unlimited_rejects (ST := lp64)); by vm_compute. Defined.

Lemma frame_roundtrip_witness :
  ∃ fr p, serialize_frame (ST := lp64) control (demo_header :: demo_headers) (str "{}") = Some (Ok fr) ∧
    parse_headers (ST := lp64) default_limits control fr = Ok p ∧ sv_chars (body p) = str "{}".
Proof.
  destruct (frame_roundtrip (ST := lp64) default_limits control demo_header demo_headers (str "{}"))
    as (fr&p&H1&H2&_&H3&_); [split; done|done|by vm_compute|by vm_compute|by_decide|].
  exists fr, p. done.
Defined.

Lemma serialize_frame_exact_witness :
  serialize_frame (ST := lp64) media demo_headers (str "pcm") =
    Some (Ok (encode_frame demo_headers (str "pcm"))).
Proof. apply (serialize_frame_exact (ST := lp64) media demo_headers (str "pcm")); by vm_compute. Defined.

Lemma serialize_to_buffer_exact_witness :
  serialize_frame_to_buffer (ST := lp64) media demo_headers (str "pcm") (str "0123456789") =
    Some (Err buffer_too_small, str "0123456789").
Proof. apply (serialize_to_buffer_exact (ST := lp64) media demo_headers); by vm_compute. Defined.

Lemma content_type_pcm_ok_witness : pcm_ok 16000 1 16.
Proof.
  apply (content_type_pcm_ok (sv_of (str "audio/pcm; rate=16000; channels=1; bits=16"))).
  by vm_compute.
Defined.

Lemma content_type_pcm_roundtrip_witness :
  parse_content_type (sv_of (print_pcm 48000 2 24)) = Ok (AudioPcmContentType 48000 2 24).
Proof. apply content_type_pcm_roundtrip. by_decide. Defined.
