(* ===== verification/SessionTypes.v ===== *)
(** * libculpeo-session: data types

    The public types of [include/culpeo/session.hpp].  Strings are byte lists;
    a [steady_clock::time_point] is its count of nanoseconds since the clock's
    epoch. *)

From S2P Require Import Prelude Bytes.

Inductive SessionState :=
| uninitialized
| initializing
| established
| closed.

Inductive StreamDirection := input | output | duplex.

Inductive StreamCodec := codec_pcm | codec_opus | codec_aac | codec_other.

Inductive OffsetType := offset_time | offset_byte | offset_message.

Record PcmParams := mkPcm { pcm_rate : Z; pcm_channels : Z; pcm_bits : Z }.

Record StreamDeclaration := mkDecl {
  sd_content_type : bytes;
  sd_direction : StreamDirection;
  sd_purpose : bytes;
  sd_hint_id : bytes;
  sd_resume_offset : Z;
  sd_has_resume_offset : bool;
  sd_offset_type : option OffsetType;
}.

Record StreamInfo := mkStream {
  si_id : bytes;
  si_content_type : bytes;
  si_direction : StreamDirection;
  si_purpose : bytes;
  si_offset : Z;
  si_codec : StreamCodec;
  si_pcm_params : option PcmParams;
  si_offset_type : OffsetType;
}.

Record PersistedSessionState := mkPersisted {
  ps_session_id : bytes;
  ps_streams : list StreamInfo;
  ps_buffer_window_ms : Z;
  ps_disconnected_at : Z;
}.

Inductive Error :=
| wrong_state
| protocol_error
| stream_not_found
| invalid_direction
| version_unsupported
| invalid_streams
| offset_mismatch
| offset_overflow
| auth_failed
| nonce_mismatch
| nonce_already_pending
| ping_rate_exceeded
| json_error
| transport_error
| content_type_mismatch
| session_expired
| max_streams_exceeded
| nonce_expired
| invalid_event_name.

Record SessionConfig := mkConfig {
  max_buffer_window_ms : Z;
  default_buffer_window_ms : Z;
  max_streams : Z;
  max_ping_rate_per_second : Z;
  auth_refresh_timeout_s : Z;
  min_auth_refresh_interval_s : Z;
  supported_versions : list bytes;
}.

Definition default_config : SessionConfig :=
  {| max_buffer_window_ms := 30000;
     default_buffer_window_ms := 5000;
     max_streams := 16;
     max_ping_rate_per_second := 5;
     auth_refresh_timeout_s := 30;
     min_auth_refresh_interval_s := 30;
     supported_versions := [str "0.3"] |}.

(** Which of the [std::function] callbacks are set. *)
Record SessionCallbacks := mkCallbacks {
  has_auth_validate : bool;
  has_media_received : bool;
  has_rtt : bool;
  has_close : bool;
  has_auth_response : bool;
}.

#[export] Instance SessionState_eq_dec : EqDecision SessionState.
Proof. solve_decision. Defined.
#[export] Instance StreamDirection_eq_dec : EqDecision StreamDirection.
Proof. solve_decision. Defined.
#[export] Instance StreamCodec_eq_dec : EqDecision StreamCodec.
Proof. solve_decision. Defined.
#[export] Instance OffsetType_eq_dec : EqDecision OffsetType.
Proof. solve_decision. Defined.
#[export] Instance PcmParams_eq_dec : EqDecision PcmParams.
Proof. solve_decision. Defined.
#[export] Instance StreamInfo_eq_dec : EqDecision StreamInfo.
Proof. solve_decision. Defined.
#[export] Instance StreamDeclaration_eq_dec : EqDecision StreamDeclaration.
Proof. solve_decision. Defined.
#[export] Instance Error_eq_dec : EqDecision Error.
Proof. solve_decision. Defined.

Definition error_message (error : Error) : bytes :=
  match error with
  | wrong_state => str "frame received in wrong session state"
  | protocol_error => str "protocol violation"
  | stream_not_found => str "unknown Stream-Id"
  | invalid_direction => str "media sent in direction inconsistent with stream type"
  | version_unsupported => str "protocol version not supported"
  | invalid_streams => str "stream declarations violate spec §5.5"
  | offset_mismatch => str "offset does not match expected next value"
  | offset_overflow => str "integer overflow in offset computation"
  | auth_failed => str "bearer token validation failed"
  | nonce_mismatch => str "echoed nonce does not match issued nonce"
  | nonce_already_pending => str "auth-refresh already outstanding"
  | ping_rate_exceeded => str "ping rate limit exceeded (dropped)"
  | json_error => str "JSON body could not be parsed"
  | transport_error => str "transport send failed"
  | content_type_mismatch => str "media frame content-type does not match stream"
  | session_expired => str "session-id not found or expired"
  | max_streams_exceeded => str "stream count exceeds server maximum"
  | nonce_expired => str "auth-refresh nonce timed out"
  | invalid_event_name => str "event name violates §9.5 syntax rules"
  end.

(** [std::chrono::duration_cast] truncates towards zero. *)
Definition ns_to_s (d : Z) : Z := Z.quot d 1000000000.
Definition ns_to_ms (d : Z) : Z := Z.quot d 1000000.

(** [static_cast<long>] of an unsigned 32-bit value; a [long] is as wide as a
    pointer on the supported ABIs. *)
Definition to_long {ST : SizeT} (n : Z) : Z :=
  let m := wrap_size n in
  if decide (m < 2 ^ (size_bits - 1))%Z then m else (m - 2 ^ size_bits)%Z.

(** On a 64-bit host the conversion keeps the value. *)
Lemma to_long_lp64 n : (0 ≤ n ≤ uint32_max)%Z → to_long (ST := lp64) n = n.
Proof.
  unfold uint32_max. intros. unfold to_long. rewrite wrap_size_small by (simpl; lia).
  by rewrite decide_True by (simpl; lia).
Qed.
