(* ===== verification/OffsetTracker.v ===== *)
(** * libculpeo-session: offset tracking

    [src/offset_tracker.cpp]: how far a media frame advances a stream's offset,
    with the checks against 64-bit overflow. *)

From S2P Require Import Prelude SessionTypes.

Local Open Scope Z_scope.

Definition compute_pcm_increment (frame_bytes : Z) (params : PcmParams) : expected Error Z :=
  if decide (pcm_channels params = 0 ∨ pcm_bits params = 0) then Err offset_overflow
  else if decide (pcm_bits params mod 8 ≠ 0) then Err offset_overflow
  else
    let bytes_per_sample_chan := pcm_bits params / 8 in
    let bytes_per_frame_sample := wrap 64 (pcm_channels params * bytes_per_sample_chan) in
    if decide (bytes_per_frame_sample = 0) then Err offset_overflow
    else Ok (frame_bytes / bytes_per_frame_sample).

Definition set_offset (stream : StreamInfo) (offset : Z) : StreamInfo :=
  {| si_id := si_id stream;
     si_content_type := si_content_type stream;
     si_direction := si_direction stream;
     si_purpose := si_purpose stream;
     si_offset := offset;
     si_codec := si_codec stream;
     si_pcm_params := si_pcm_params stream;
     si_offset_type := si_offset_type stream |}.

(** The increment by the stream's offset type. *)
Definition offset_increment (stream : StreamInfo) (frame_bytes : Z) : expected Error Z :=
  match si_offset_type stream with
  | offset_time =>
      match si_pcm_params stream with
      | None => Err offset_overflow
      | Some params => compute_pcm_increment frame_bytes params
      end
  | offset_byte => Ok frame_bytes
  | offset_message => Ok 1
  end.

(** The updated stream, which the C++ function writes through its reference. *)
Definition advance_offset (stream : StreamInfo) (frame_bytes : Z) : expected Error StreamInfo :=
  match offset_increment stream frame_bytes with
  | Err e => Err e
  | Ok increment =>
      if decide (wrap 64 (uint64_max - si_offset stream) < increment) then Err offset_overflow
      else Ok (set_offset stream (wrap 64 (si_offset stream + increment)))
  end.

Definition check_offset (stream : StreamInfo) (frame_offset : Z) : expected Error unit :=
  if decide (frame_offset = si_offset stream) then Ok tt else Err offset_mismatch.

(** ** Facts *)

(** Field widths: the offset is 64 bits, the PCM parameters 32 and 16 bits. *)
Definition pcm_in_range (p : PcmParams) : Prop :=
  0 ≤ pcm_rate p ≤ uint32_max ∧ 0 ≤ pcm_channels p ≤ uint16_max ∧ 0 ≤ pcm_bits p ≤ uint16_max.

Definition stream_in_range (s : StreamInfo) : Prop :=
  0 ≤ si_offset s ≤ uint64_max ∧ ∀ p, si_pcm_params s = Some p → pcm_in_range p.

Lemma compute_pcm_increment_spec frame_bytes p :
  pcm_in_range p → 0 < pcm_channels p → 0 < pcm_bits p → pcm_bits p mod 8 = 0 →
  compute_pcm_increment frame_bytes p = Ok (frame_bytes / (pcm_channels p * (pcm_bits p / 8))).
Proof.
  unfold pcm_in_range, uint16_max. intros (_&Hc&Hb) Hc0 Hb0 Hmod. unfold compute_pcm_increment.
  rewrite decide_False by lia. rewrite decide_False by lia. cbv zeta.
  assert (1 ≤ pcm_bits p / 8 ≤ 8192) by (split; [apply Z.div_le_lower_bound|
    apply Z.div_le_upper_bound]; try lia; apply Z.mod_divide in Hmod as [k ?]; lia).
  rewrite wrap_small by nia. rewrite decide_False by nia. done.
Qed.

Lemma offset_increment_nonneg s n k :
  0 ≤ n → stream_in_range s → offset_increment s n = Ok k → 0 ≤ k.
Proof.
  intros Hn [_ Hp]. unfold offset_increment.
  destruct (si_offset_type s); [|intros [= <-]; done|intros [= <-]; lia].
  destruct (si_pcm_params s) as [p|]; [|done]. unfold compute_pcm_increment.
  cbv zeta. repeat (case_decide; [done|]). intros [= <-].
  apply Z.div_pos; [done|]. pose proof (wrap_range 64 (pcm_channels p * (pcm_bits p / 8))). lia.
Qed.

(** The offset after an accepted frame is the exact sum, which fits 64 bits. *)
Lemma advance_offset_Ok s n s' :
  0 ≤ n → stream_in_range s → advance_offset s n = Ok s' →
  ∃ k, offset_increment s n = Ok k ∧ 0 ≤ k ∧ s' = set_offset s (si_offset s + k) ∧
    si_offset s + k ≤ uint64_max.
Proof.
  intros Hn Hs. pose proof (offset_increment_nonneg s n) as Hk. unfold advance_offset.
  destruct (offset_increment s n) as [k|e]; [|done]. specialize (Hk k Hn Hs eq_refl).
  destruct Hs as [Ho _]. unfold uint64_max in *. rewrite wrap_small by lia.
  case_decide; [done|]. intros [= <-]. exists k. rewrite wrap_small by lia. split_and!; [done..|lia].
Qed.

Lemma advance_offset_iff s n k :
  0 ≤ n → stream_in_range s → offset_increment s n = Ok k →
  advance_offset s n =
    if decide (si_offset s + k ≤ uint64_max) then Ok (set_offset s (si_offset s + k))
    else Err offset_overflow.
Proof.
  intros Hn Hs Hk. pose proof (offset_increment_nonneg s n k Hn Hs Hk) as Hk0.
  unfold advance_offset. rewrite Hk. destruct Hs as [Ho _]. unfold uint64_max in *.
  rewrite (wrap_small 64 (_ - _)) by lia.
  case_decide; case_decide; try lia; [done|]. by rewrite wrap_small by lia.
Qed.

Lemma advance_offset_in_range s n s' :
  0 ≤ n → stream_in_range s → advance_offset s n = Ok s' → stream_in_range s'.
Proof.
  intros Hn Hs Ha. destruct (advance_offset_Ok _ _ _ Hn Hs Ha) as (k&_&Hk&->&Hle).
  destruct Hs as [Ho Hp]. split; [simpl; lia|]. done.
Qed.
