(* ===== verification/Crypto.v ===== *)
(** * libculpeo-session: cryptographic primitives

    [src/crypto.hpp] and the hexadecimal codecs of [src/auth_refresh.cpp] and
    [src/stream_registry.cpp].  The operating system's random source
    ([std::random_device]) is an [entropy]: the results of its successive calls,
    [None] where a call throws. *)

From S2P Require Import Prelude Bytes.

Definition entropy : Type := nat → option Z.
Definition next_entropy (rd : entropy) : entropy := λ n, rd (S n).

(** The bytes of a little-endian word in memory. *)
Fixpoint le_bytes (n : nat) (v : Z) : bytes :=
  match n with
  | O => []
  | S n => of_code (v mod 256) :: le_bytes n (v / 256)
  end.

(** Fills [buf] four bytes at a time; [false] means that the random device threw,
    in which case the words written so far stay in the buffer. *)
Fixpoint secure_random (rd : entropy) (buf : bytes) : bool * bytes * entropy :=
  match buf with
  | [] => (true, [], rd)
  | _ :: _ :: _ :: _ :: rest =>
      match rd 0 with
      | None => (false, buf, next_entropy rd)
      | Some val =>
          let '(ok, rest, rd) := secure_random (next_entropy rd) rest in
          (ok, le_bytes 4 val ++ rest, rd)
      end
  | _ =>
      match rd 0 with
      | None => (false, buf, next_entropy rd)
      | Some val => (true, take (length buf) (le_bytes 4 val), next_entropy rd)
      end
  end.

Definition secure_zero (buf : bytes) : bytes := replicate (length buf) x00.

(** The accumulator of the comparison loop. *)
Fixpoint xor_diff (diff : Z) (a b : bytes) : Z :=
  match a, b with
  | x :: a, y :: b => xor_diff (Z.lor diff (wrap 8 (Z.lxor (code x) (code y)))) a b
  | _, _ => diff
  end.

Definition constant_time_equal (a b : bytes) : bool :=
  if decide (length a ≠ length b) then false
  else bool_decide (xor_diff 0 a b = 0%Z).

Definition hex_digit (n : Z) : byte :=
  nth (Z.to_nat (Z.land n 15)) (str "0123456789abcdef") x00.

Definition bytes_to_hex (b : bytes) : bytes :=
  b ≫= λ c, [hex_digit (Z.shiftr (code c) 4); hex_digit (code c)].

Definition from_hex (c : byte) : Z :=
  if decide (48 ≤ code c ≤ 57)%Z then code c - 48
  else if decide (97 ≤ code c ≤ 102)%Z then code c - 97 + 10
  else if decide (65 ≤ code c ≤ 70)%Z then code c - 65 + 10
  else -1.

(** The decoding loop: pairs of digits, each made into a byte. *)
Fixpoint hex_pairs (hex : bytes) : option bytes :=
  match hex with
  | h :: l :: hex =>
      let hv := from_hex h in
      let lv := from_hex l in
      if decide (hv < 0 ∨ lv < 0)%Z then None
      else cons (of_code (Z.lor (Z.shiftl hv 4) lv)) <$> hex_pairs hex
  | _ => Some []
  end.

Definition kNonceBytes : nat := 32.

Definition hex_to_bytes (hex : bytes) : option bytes :=
  if decide (length hex ≠ kNonceBytes * 2) then None else hex_pairs hex.

(** ** Facts *)
Lemma secure_random_length rd buf :
  length (secure_random rd buf).1.2 = length buf.
Proof.
  revert rd. induction buf as [buf IH] using (induction_ltof1 _ length). intros rd.
  destruct buf as [|b0 [|b1 [|b2 [|b3 rest]]]]; try done; try (simpl; by destruct (rd 0)).
  cbn [secure_random]. destruct (rd 0); [|done].
  pose proof (IH rest ltac:(unfold ltof; simpl; lia) (next_entropy rd)) as Hr.
  destruct (secure_random _ rest) as [[ok r] rd']. simpl in *. lia.
Qed.

Lemma xor_zero x y : Z.lxor (code x) (code y) = 0%Z → x = y.
Proof. intros H%Z.lxor_eq. by apply code_inj. Qed.

Lemma xor_diff_zero a : ∀ b diff,
  length a = length b → (xor_diff diff a b = 0%Z ↔ diff = 0%Z ∧ a = b).
Proof.
  induction a as [|x a IH]; intros [|y b] diff Hlen; simpl in *; try lia; [naive_solver|].
  rewrite IH by lia. rewrite Z.lor_eq_0_iff.
  rewrite wrap_small.
  - split; [intros [[-> H] ->]; by apply xor_zero in H as ->|].
    intros [-> [= -> ->]]. by rewrite Z.lxor_nilpotent.
  - split; [apply Z.lxor_nonneg; pose proof (code_range x); pose proof (code_range y); lia|].
    destruct (decide (Z.lxor (code x) (code y) = 0%Z)) as [->|Hne]; [done|].
    pose proof (code_range x). pose proof (code_range y).
    assert (0 ≤ Z.lxor (code x) (code y))%Z by (apply Z.lxor_nonneg; lia).
    apply Z.log2_lt_pow2; [lia|].
    pose proof (Z.log2_lxor (code x) (code y) ltac:(lia) ltac:(lia)).
    assert (∀ z, 0 ≤ code z → Z.log2 (code z) < 8)%Z as Hlog.
    { intros z Hz. destruct (decide (code z = 0%Z)) as [->|]; [done|].
      apply Z.log2_lt_pow2; pose proof (code_range z); lia. }
    pose proof (Hlog x ltac:(lia)). pose proof (Hlog y ltac:(lia)). lia.
Qed.

Lemma constant_time_equal_spec a b : constant_time_equal a b = true ↔ a = b.
Proof.
  unfold constant_time_equal. case_decide as Hlen.
  - split; [done|]. by intros ->.
  - rewrite bool_decide_eq_true, xor_diff_zero by lia. naive_solver.
Qed.

Lemma from_hex_digits c :
  from_hex (hex_digit (Z.shiftr (code c) 4)) = Z.shiftr (code c) 4 ∧
  from_hex (hex_digit (code c)) = Z.land (code c) 15 ∧
  of_code (Z.lor (Z.shiftl (Z.shiftr (code c) 4) 4) (Z.land (code c) 15)) = c.
Proof.
  pose proof (forall_byte (λ c,
    bool_decide (from_hex (hex_digit (Z.shiftr (code c) 4)) = Z.shiftr (code c) 4) &&
    bool_decide (from_hex (hex_digit (code c)) = Z.land (code c) 15) &&
    bool_decide (of_code (Z.lor (Z.shiftl (Z.shiftr (code c) 4) 4) (Z.land (code c) 15)) = c))
    ltac:(by vm_compute) c) as H.
  rewrite !andb_true_iff, !bool_decide_eq_true in H. naive_solver.
Qed.

Lemma bytes_to_hex_cons c b :
  bytes_to_hex (c :: b) = hex_digit (Z.shiftr (code c) 4) :: hex_digit (code c) :: bytes_to_hex b.
Proof. done. Qed.

Lemma hex_pairs_encode b : hex_pairs (bytes_to_hex b) = Some b.
Proof.
  induction b as [|c b IH]; [done|]. rewrite bytes_to_hex_cons. cbn [hex_pairs].
  destruct (from_hex_digits c) as (->&->&Hc).
  assert (0 ≤ Z.shiftr (code c) 4 ∧ 0 ≤ Z.land (code c) 15)%Z as [??].
  { pose proof (code_range c). rewrite Z.shiftr_nonneg, Z.land_nonneg. lia. }
  rewrite decide_False by lia. rewrite IH. cbn [fmap option_fmap option_map]. by rewrite Hc.
Qed.

Lemma length_bytes_to_hex b : length (bytes_to_hex b) = length b * 2.
Proof. induction b as [|c b IH]; [done|]. rewrite bytes_to_hex_cons. simpl. by rewrite IH. Qed.

Lemma hex_roundtrip b : length b = kNonceBytes → hex_to_bytes (bytes_to_hex b) = Some b.
Proof.
  intros Hb. unfold hex_to_bytes. rewrite length_bytes_to_hex, Hb.
  rewrite decide_False by lia. apply hex_pairs_encode.
Qed.

Lemma hex_pairs_length hex b : hex_pairs hex = Some b → length b = length hex / 2.
Proof.
  revert b. induction hex as [hex IH] using (induction_ltof1 _ length). intros b.
  destruct hex as [|h [|l hex]]; [by intros [= <-]..|]. cbn [hex_pairs]. cbv zeta.
  case_decide; [done|]. intros (b'&Hb&->)%fmap_Some.
  simpl length. rewrite (IH hex ltac:(unfold ltof; simpl; lia) b' Hb).
  replace (S (S (length hex))) with (length hex + 1 * 2) by lia. rewrite Nat.div_add; lia.
Qed.
