(* ===== verification/AuthRefresh.v ===== *)
(** * libculpeo-session: the auth-refresh nonce

    [AuthRefreshManager] of [src/auth_refresh.cpp]: one outstanding challenge, a
    minimum interval between challenges, and single-use validation.  The clock
    and the random source are arguments of the operations that read them. *)

From S2P Require Import Prelude Bytes Crypto SessionTypes.

Record AuthRefreshManager := mkAuth {
  nonce : bytes;
  pending : bool;
  issued_at : Z;
  last_issued : Z;
}.

Definition initial_auth : AuthRefreshManager :=
  {| nonce := replicate kNonceBytes x00; pending := false; issued_at := 0; last_issued := 0 |}.

Section manager.
Context {ST : SizeT}.

(** [AuthRefreshManager::clear]; it keeps [last_issued] for the rate limiter. *)
Definition clear (m : AuthRefreshManager) : AuthRefreshManager :=
  {| nonce := secure_zero (nonce m); pending := false;
     issued_at := issued_at m; last_issued := last_issued m |}.

Definition is_expired (now timeout_s : Z) (m : AuthRefreshManager) : bool :=
  if negb (pending m) then false
  else bool_decide (to_long timeout_s ≤ ns_to_s (now - issued_at m))%Z.

(** The previous challenge is too recent for another one. *)
Definition too_soon (now min_interval_s : Z) (m : AuthRefreshManager) : bool :=
  bool_decide (last_issued m ≠ 0%Z) &&
  bool_decide (ns_to_s (now - last_issued m) < to_long min_interval_s)%Z.

Definition generate (rd : entropy) (now min_interval_s : Z) (m : AuthRefreshManager)
    : expected Error bytes * AuthRefreshManager * entropy :=
  if pending m then (Err nonce_already_pending, m, rd)
  else if too_soon now min_interval_s m then (Err nonce_already_pending, m, rd)
  else
    let '(ok, buf, rd) := secure_random rd (nonce m) in
    if ok then
      (Ok (bytes_to_hex buf),
       {| nonce := buf; pending := true; issued_at := now; last_issued := now |}, rd)
    else
      (Err transport_error,
       {| nonce := buf; pending := false; issued_at := issued_at m; last_issued := last_issued m |},
       rd).

Definition validate_and_consume (echoed_hex : bytes) (now timeout_s : Z) (m : AuthRefreshManager)
    : expected Error unit * AuthRefreshManager :=
  if negb (pending m) then (Err nonce_mismatch, m)
  else if is_expired now timeout_s m then (Err nonce_expired, clear m)
  else
    match hex_to_bytes echoed_hex with
    | None => (Err nonce_mismatch, clear m)
    | Some echoed_bytes =>
        let eq := constant_time_equal echoed_bytes (nonce m) in
        (if eq then Ok tt else Err nonce_mismatch, clear m)
    end.

(** ** Facts *)

(** The representation invariant of the manager. *)
Definition auth_ok (m : AuthRefreshManager) : Prop := length (nonce m) = kNonceBytes.

(** No key material is left in the manager. *)
Definition scrubbed (m : AuthRefreshManager) : Prop :=
  pending m = false ∧ nonce m = replicate kNonceBytes x00.

Lemma clear_scrubbed m : auth_ok m → scrubbed (clear m).
Proof. unfold auth_ok, scrubbed, clear, secure_zero. simpl. by intros ->. Qed.

Lemma clear_ok m : auth_ok m → auth_ok (clear m).
Proof. unfold auth_ok, clear, secure_zero. simpl. by rewrite length_replicate. Qed.

Lemma generate_ok rd now min m : auth_ok m → auth_ok (generate rd now min m).1.2.
Proof.
  intros Hm. unfold generate. destruct (pending m); [done|]. destruct (too_soon _ _ _); [done|].
  pose proof (secure_random_length rd (nonce m)) as Hl.
  destruct (secure_random rd (nonce m)) as [[[] buf] rd']; unfold auth_ok in *; simpl in *; congruence.
Qed.

Lemma validate_ok hex now timeout m : auth_ok m → auth_ok (validate_and_consume hex now timeout m).2.
Proof.
  intros Hm. unfold validate_and_consume. repeat case_match; try done; by apply clear_ok.
Qed.

(** Every attempt on an outstanding challenge uses it up. *)
Lemma validate_scrubs hex now timeout m :
  auth_ok m → pending m = true → scrubbed (validate_and_consume hex now timeout m).2.
Proof.
  intros Hm Hp. unfold validate_and_consume. rewrite Hp. simpl.
  repeat case_match; by apply clear_scrubbed.
Qed.

Lemma validate_Ok_iff hex now timeout m :
  (validate_and_consume hex now timeout m).1 = Ok tt ↔
  pending m = true ∧ is_expired now timeout m = false ∧ hex_to_bytes hex = Some (nonce m).
Proof.
  unfold validate_and_consume. destruct (pending m); simpl; [|naive_solver].
  destruct (is_expired now timeout m); simpl; [naive_solver|].
  destruct (hex_to_bytes hex) as [b|]; simpl; [|naive_solver].
  destruct (constant_time_equal b (nonce m)) eqn:Heq.
  - apply constant_time_equal_spec in Heq. naive_solver.
  - assert (b ≠ nonce m) by (rewrite <-constant_time_equal_spec; congruence). naive_solver.
Qed.

Lemma generate_Ok rd now min m hex m' rd' :
  generate rd now min m = (Ok hex, m', rd') →
  pending m = false ∧ too_soon now min m = false ∧ pending m' = true ∧ hex = bytes_to_hex (nonce m') ∧
  issued_at m' = now ∧ last_issued m' = now.
Proof.
  unfold generate. destruct (pending m); [done|]. destruct (too_soon _ _ _); [done|].
  destruct (secure_random rd (nonce m)) as [[[] buf] ?]; [|done]. intros [= <- <- <-]. done.
Qed.

Lemma last_issued_validate hex now timeout m :
  last_issued (validate_and_consume hex now timeout m).2 = last_issued m.
Proof. unfold validate_and_consume. by repeat case_match. Qed.
End manager.

(** ** Histories of one manager *)
Inductive auth_op :=
| op_generate (rd : entropy) (now : Z)
| op_validate (hex : bytes) (now : Z)
| op_clear.

Section history.
Context {ST : SizeT} (min_interval timeout : Z).

(** The manager after an operation, and the time of the challenge it issued. *)
Definition auth_step (m : AuthRefreshManager) (o : auth_op) : AuthRefreshManager * option Z :=
  match o with
  | op_generate rd now =>
      let '(r, m, _) := generate rd now min_interval m in
      (m, match r with Ok _ => Some now | Err _ => None end)
  | op_validate hex now => ((validate_and_consume hex now timeout m).2, None)
  | op_clear => (clear m, None)
  end.

Fixpoint auth_run (m : AuthRefreshManager) (os : list auth_op) : list Z :=
  match os with
  | [] => []
  | o :: os =>
      let '(m, t) := auth_step m o in
      option_list t ++ auth_run m os
  end.

Lemma auth_step_last m o m' t :
  auth_step m o = (m', t) →
  match t with
  | Some now => too_soon now min_interval m = false ∧ last_issued m' = now
  | None => last_issued m' = last_issued m
  end.
Proof.
  destruct o as [rd now|hex now|]; simpl.
  - unfold generate. destruct (pending m); [by intros [= <- <-]|].
    destruct (too_soon now min_interval m) eqn:Hs; [by intros [= <- <-]|].
    destruct (secure_random rd (nonce m)) as [[[] buf] ?]; by intros [= <- <-].
  - intros [= <- <-]. apply last_issued_validate.
  - by intros [= <- <-].
Qed.

(** The gap between a challenge and the previous one. *)
Definition spaced (t0 t : Z) : Prop := t0 = 0%Z ∨ (to_long min_interval ≤ ns_to_s (t - t0))%Z.

Lemma too_soon_spaced now m : too_soon now min_interval m = false → spaced (last_issued m) now.
Proof.
  unfold too_soon, spaced. rewrite andb_false_iff, !bool_decide_eq_false. intros [H|H].
  - left. destruct (decide (last_issued m = 0%Z)); [done|]. by destruct H.
  - right. lia.
Qed.

(** Consecutive elements of a list of times are related. *)
Fixpoint chain (R : Z → Z → Prop) (t0 : Z) (ts : list Z) : Prop :=
  match ts with [] => True | t :: ts => R t0 t ∧ chain R t ts end.

Lemma auth_run_spaced os m : chain spaced (last_issued m) (auth_run m os).
Proof.
  revert m. induction os as [|o os IH]; intros m; [done|]. simpl.
  destruct (auth_step m o) as [m' t] eqn:Hs. apply auth_step_last in Hs.
  destruct t as [now|]; simpl.
  - destruct Hs as [Hs <-]. split; [by apply too_soon_spaced|]. apply IH.
  - rewrite <-Hs. apply IH.
Qed.
End history.
