(* ===== verification/StreamRegistry.v ===== *)
(** * libculpeo-session: the stream registry

    [src/stream_registry.cpp]: validation of stream declarations, opaque
    identifiers, and the map of a session's streams. *)

From S2P Require Import Prelude Bytes Message ContentType Crypto SessionTypes OffsetTracker.

(** ** Names *)
Definition parse_stream_direction (s : bytes) : option StreamDirection :=
  if decide (s = str "input") then Some input
  else if decide (s = str "output") then Some output
  else if decide (s = str "duplex") then Some duplex
  else None.

Definition stream_direction_to_string (dir : StreamDirection) : bytes :=
  match dir with
  | input => str "input"
  | output => str "output"
  | duplex => str "duplex"
  end.

Definition parse_offset_type (s : bytes) : option OffsetType :=
  if decide (s = str "time") then Some offset_time
  else if decide (s = str "byte") then Some offset_byte
  else if decide (s = str "message") then Some offset_message
  else None.

Definition offset_type_to_string (ot : OffsetType) : bytes :=
  match ot with
  | offset_time => str "time"
  | offset_byte => str "byte"
  | offset_message => str "message"
  end.

Definition codec_from_content_type (ct : bytes) : StreamCodec :=
  match parse_content_type (sv_of ct) with
  | Ok (AudioPcmContentType _ _ _) => codec_pcm
  | Ok AudioOpusContentType => codec_opus
  | Ok AudioAacContentType => codec_aac
  | _ => codec_other
  end.

(** ** Identifiers *)
Definition generate_csprng_id (rd : entropy) (len_bytes : nat) : expected Error bytes * entropy :=
  let len_bytes := if decide (32 < len_bytes) then 32 else len_bytes in
  let '(ok, buf, rd) := secure_random rd (replicate len_bytes x00) in
  if ok then (Ok (bytes_to_hex buf), rd) else (Err transport_error, rd).

(** ** Validation of declarations *)

(** The loop over the declarations: required fields. *)
Fixpoint check_required (decls : list StreamDeclaration) : expected Error unit :=
  match decls with
  | [] => Ok tt
  | decl :: decls =>
      if decide (sd_content_type decl = []) then Err invalid_streams
      else if decide (sd_offset_type decl = None) then Err invalid_streams
      else check_required decls
  end.

(** Two equal elements, by the pair of nested loops over indices. *)
Fixpoint has_duplicate (purposes : list bytes) : bool :=
  match purposes with
  | [] => false
  | p :: purposes => bool_decide (p ∈ purposes) || has_duplicate purposes
  end.

(** The body of the loop over the directions. *)
Definition check_direction (decls : list StreamDeclaration) (dir : StreamDirection)
    : expected Error unit :=
  let purposes := sd_purpose <$> filter (λ d, sd_direction d = dir) decls in
  if decide (length purposes ≤ 1) then Ok tt
  else if existsb (λ p, bool_decide (p = [])) purposes then Err invalid_streams
  else if has_duplicate purposes then Err invalid_streams
  else Ok tt.

Definition validate_declarations (decls : list StreamDeclaration) (max_streams : Z)
    : expected Error unit :=
  if decide (decls = []) then Err invalid_streams
  else if decide (max_streams < Z.of_nat (length decls))%Z then Err max_streams_exceeded
  else
    _ ← check_required decls;
    _ ← check_direction decls input;
    _ ← check_direction decls output;
    check_direction decls duplex.

(** ** The registry *)
Record StreamRegistry := mkRegistry {
  max_streams_ : Z;
  streams_ : gmap bytes StreamInfo;
}.

Definition new_registry (max_streams : Z) : StreamRegistry :=
  {| max_streams_ := max_streams; streams_ := ∅ |}.

(** [unordered_map::emplace] keeps an existing entry. *)
Definition emplace (id : bytes) (info : StreamInfo) (m : gmap bytes StreamInfo)
    : gmap bytes StreamInfo :=
  match m !! id with Some _ => m | None => <[id := info]> m end.

Definition pcm_params_of (ct : bytes) : option PcmParams :=
  match parse_content_type (sv_of ct) with
  | Ok (AudioPcmContentType rate channels bits) =>
      Some {| pcm_rate := rate; pcm_channels := channels; pcm_bits := bits |}
  | _ => None
  end.

Definition stream_of_declaration (id : bytes) (decl : StreamDeclaration) : StreamInfo :=
  {| si_id := id;
     si_content_type := sd_content_type decl;
     si_direction := sd_direction decl;
     si_purpose := sd_purpose decl;
     si_offset := 0;
     si_codec := codec_from_content_type (sd_content_type decl);
     si_pcm_params := pcm_params_of (sd_content_type decl);
     si_offset_type := default offset_message (sd_offset_type decl) |}.

(** The loop: an early return leaves the streams registered so far. *)
Fixpoint register_loop (rd : entropy) (decls : list StreamDeclaration)
    (m : gmap bytes StreamInfo) : expected Error unit * gmap bytes StreamInfo * entropy :=
  match decls with
  | [] => (Ok tt, m, rd)
  | decl :: decls =>
      match generate_csprng_id rd 8 with
      | (Err e, rd) => (Err e, m, rd)
      | (Ok id, rd) => register_loop rd decls (emplace id (stream_of_declaration id decl) m)
      end
  end.

Definition register_from_declarations (rd : entropy) (decls : list StreamDeclaration)
    (r : StreamRegistry) : expected Error unit * StreamRegistry * entropy :=
  let '(res, m, rd) := register_loop rd decls ∅ in
  (res, {| max_streams_ := max_streams_ r; streams_ := m |}, rd).

Definition register_from_persisted (persisted : list StreamInfo) (r : StreamRegistry)
    : StreamRegistry :=
  {| max_streams_ := max_streams_ r;
     streams_ := foldl (λ m s, emplace (si_id s) s m) ∅ persisted |}.

(** [find] and [find_mutable]; the latter's pointer is read here and written with
    [set_stream]. *)
Definition find_stream (id : bytes) (r : StreamRegistry) : option StreamInfo := streams_ r !! id.

Definition set_stream (id : bytes) (s : StreamInfo) (r : StreamRegistry) : StreamRegistry :=
  {| max_streams_ := max_streams_ r; streams_ := <[id := s]> (streams_ r) |}.

Definition validate_server_send (stream_id : bytes) (r : StreamRegistry) : expected Error unit :=
  match find_stream stream_id r with
  | None => Err stream_not_found
  | Some s => if decide (si_direction s = input) then Err invalid_direction else Ok tt
  end.

Definition validate_client_send (stream_id : bytes) (r : StreamRegistry) : expected Error unit :=
  match find_stream stream_id r with
  | None => Err stream_not_found
  | Some s => if decide (si_direction s = output) then Err invalid_direction else Ok tt
  end.

(** The streams in the map's iteration order, which is unspecified: every use
    below is up to permutation. *)
Definition snapshot (r : StreamRegistry) : list StreamInfo := (map_to_list (streams_ r)).*2.

Definition registry_clear (r : StreamRegistry) : StreamRegistry :=
  {| max_streams_ := max_streams_ r; streams_ := ∅ |}.

(** ** Facts: declarations *)

(** The rules of the protocol, stated on pairs of declarations: two streams of one
    direction both have a purpose, and not the same one. *)
Definition declarations_ok (decls : list StreamDeclaration) (max_streams : Z) : Prop :=
  decls ≠ [] ∧ (Z.of_nat (length decls) ≤ max_streams)%Z ∧
  (∀ d, d ∈ decls → sd_content_type d ≠ [] ∧ is_Some (sd_offset_type d)) ∧
  (∀ i j d1 d2, decls !! i = Some d1 → decls !! j = Some d2 → i ≠ j →
     sd_direction d1 = sd_direction d2 →
     sd_purpose d1 ≠ [] ∧ sd_purpose d1 ≠ sd_purpose d2).

Lemma check_required_Ok decls :
  check_required decls = Ok tt ↔
  ∀ d, d ∈ decls → sd_content_type d ≠ [] ∧ is_Some (sd_offset_type d).
Proof.
  induction decls as [|d decls IH]; simpl; [set_solver|].
  setoid_rewrite elem_of_cons. case_decide; [naive_solver|]. case_decide.
  - split; [done|]. intros Hall. destruct (Hall d) as [_ [? ?]]; [by left|congruence].
  - rewrite IH. split; [|naive_solver]. intros Hall d' [->|]; [|by apply Hall].
    split; [done|]. by apply not_eq_None_Some.
Qed.

Lemma check_required_Err decls e : check_required decls = Err e → e = invalid_streams.
Proof. induction decls as [|d decls IH]; simpl; [done|]. repeat case_decide; naive_solver. Qed.

Lemma has_duplicate_false l : has_duplicate l = false ↔ NoDup l.
Proof.
  induction l as [|p l IH]; simpl; [split; [constructor|done]|].
  rewrite orb_false_iff, bool_decide_eq_false, IH, NoDup_cons. done.
Qed.

Lemma no_empty_purpose l : existsb (λ p : bytes, bool_decide (p = [])) l = false ↔ [] ∉ l.
Proof.
  rewrite <-not_true_iff_false, existsb_exists. setoid_rewrite bool_decide_eq_true.
  setoid_rewrite <-list_elem_of_In. naive_solver.
Qed.

(** The declarations of one direction have pairwise distinct, non-empty
    purposes. *)
Definition direction_ok (decls : list StreamDeclaration) (dir : StreamDirection) : Prop :=
  ∀ i j d1 d2, decls !! i = Some d1 → decls !! j = Some d2 → i ≠ j →
    sd_direction d1 = dir → sd_direction d2 = dir →
    sd_purpose d1 ≠ [] ∧ sd_purpose d1 ≠ sd_purpose d2.

Definition purposes_of (decls : list StreamDeclaration) (dir : StreamDirection) : list bytes :=
  sd_purpose <$> filter (λ d, sd_direction d = dir) decls.

Lemma elem_of_purposes decls dir p :
  p ∈ purposes_of decls dir ↔
  ∃ i d, decls !! i = Some d ∧ sd_direction d = dir ∧ sd_purpose d = p.
Proof.
  unfold purposes_of. rewrite list_elem_of_fmap. setoid_rewrite list_elem_of_filter.
  setoid_rewrite list_elem_of_lookup. naive_solver.
Qed.

Lemma purposes_of_cons d decls dir :
  purposes_of (d :: decls) dir =
    if decide (sd_direction d = dir) then sd_purpose d :: purposes_of decls dir
    else purposes_of decls dir.
Proof. unfold purposes_of. rewrite filter_cons. by case_decide. Qed.

Lemma direction_ok_cons d decls dir :
  direction_ok (d :: decls) dir ↔
  direction_ok decls dir ∧
  (sd_direction d = dir → ∀ p, p ∈ purposes_of decls dir →
     sd_purpose d ≠ [] ∧ p ≠ [] ∧ p ≠ sd_purpose d).
Proof.
  split.
  - intros H. split.
    + intros i j d1 d2 H1 H2 Hij. by apply (H (S i) (S j)); [| |lia].
    + intros Hd p (i&d'&Hi&Hdir&<-)%elem_of_purposes.
      destruct (H 0 (S i) d d' eq_refl Hi ltac:(lia) Hd Hdir) as [? ?].
      destruct (H (S i) 0 d' d Hi eq_refl ltac:(lia) Hdir Hd). naive_solver.
  - intros [H Hd] [|i] [|j] d1 d2; simpl; intros; simplify_eq.
    + destruct (Hd eq_refl (sd_purpose d2)); [apply elem_of_purposes; by eauto|naive_solver].
    + destruct (Hd ltac:(done) (sd_purpose d1)); [apply elem_of_purposes; by eauto|naive_solver].
    + eapply (H i j); eauto.
Qed.

Lemma check_direction_purposes decls dir :
  check_direction decls dir =
    if decide (length (purposes_of decls dir) ≤ 1 ∨
               ([] ∉ purposes_of decls dir) ∧ NoDup (purposes_of decls dir))
    then Ok tt else Err invalid_streams.
Proof.
  unfold check_direction, purposes_of. cbv zeta. set (ps := sd_purpose <$> _).
  case_decide as Hlen; [by rewrite decide_True by (by left)|].
  destruct (existsb _ ps) eqn:He.
  - rewrite decide_False; [done|]. intros [?|[Hn _]]; [done|].
    apply no_empty_purpose in Hn. congruence.
  - apply no_empty_purpose in He. destruct (has_duplicate ps) eqn:Hd.
    + rewrite decide_False; [done|]. intros [?|[_ Hn]]; [done|].
      apply has_duplicate_false in Hn. congruence.
    + apply has_duplicate_false in Hd. rewrite decide_True; [done|]. by right.
Qed.

Lemma direction_ok_purposes decls dir :
  direction_ok decls dir ↔
  length (purposes_of decls dir) ≤ 1 ∨
  ([] ∉ purposes_of decls dir) ∧ NoDup (purposes_of decls dir).
Proof.
  induction decls as [|d decls IH].
  - split; [|done]. intros _. left. simpl. lia.
  - rewrite direction_ok_cons, IH. clear IH. rewrite purposes_of_cons. case_decide as Hd.
    + set (ps := purposes_of decls dir).
      rewrite NoDup_cons, not_elem_of_cons. simpl length. split.
      * intros [Hps Hall]. specialize (Hall Hd). destruct ps as [|p ps']; [left; simpl; lia|].
        right. destruct (Hall p) as (?&?&?); [by left|].
        assert ([] ∉ p :: ps') by (intros Hin; by destruct (Hall _ Hin) as (_&?&_)).
        split_and!; [done|done|intros Hin; by destruct (Hall _ Hin) as (_&_&?)|].
        destruct Hps as [Hlen|[_ ?]]; [|done]. destruct ps'; [apply NoDup_singleton|simpl in Hlen; lia].
      * intros [Hlen|[[Hne Hn] [Hnin Hnd]]].
        -- destruct ps; [|simpl in Hlen; lia]. split; [by left; simpl; lia|]. set_solver.
        -- split; [by right|]. intros _ p Hp. split_and!; [done| |]; by intros ->.
    + naive_solver.
Qed.

Lemma check_direction_Ok decls dir :
  check_direction decls dir = Ok tt ↔ direction_ok decls dir.
Proof. rewrite check_direction_purposes, direction_ok_purposes. by case_decide. Qed.

Lemma validate_declarations_Ok decls n :
  validate_declarations decls n = Ok tt ↔ declarations_ok decls n.
Proof.
  unfold validate_declarations, declarations_ok.
  case_decide; [naive_solver|]. case_decide; [naive_solver lia|].
  rewrite expected_bind_Ok. setoid_rewrite expected_bind_Ok. setoid_rewrite expected_bind_Ok.
  split.
  - intros ([]&Hreq&[]&Hi%check_direction_Ok&[]&Ho%check_direction_Ok&Hd%check_direction_Ok).
    split_and!; [done|lia|by apply check_required_Ok|].
    intros i j d1 d2 H1 H2 Hij Heq. destruct (sd_direction d1) eqn:E;
      [eapply Hi|eapply Ho|eapply Hd]; eauto.
  - intros (_&_&Hreq&Hpair).
    assert (∀ dir, check_direction decls dir = Ok tt) as Hall.
    { intros dir. apply check_direction_Ok. intros i j d1 d2 ???? ?. eapply Hpair; eauto; congruence. }
    exists tt. split; [by apply check_required_Ok|]. eauto.
Qed.

Lemma validate_declarations_Err decls n e :
  validate_declarations decls n = Err e →
  e = if decide (decls ≠ [] ∧ n < Z.of_nat (length decls))%Z then max_streams_exceeded
      else invalid_streams.
Proof.
  unfold validate_declarations. case_decide; [rewrite decide_False by naive_solver; naive_solver|].
  case_decide; [rewrite decide_True by naive_solver; naive_solver|].
  rewrite decide_False by naive_solver. rewrite !check_direction_purposes.
  destruct (check_required decls) as [[]|] eqn:Hr;
    [|apply check_required_Err in Hr; simpl; congruence]. simpl.
  repeat (case_decide; simpl; try congruence).
Qed.

(** ** Facts: the registry *)

(** Streams are stored under their own identifier, with fields of their width. *)
Definition map_ok (m : gmap bytes StreamInfo) : Prop :=
  ∀ id s, m !! id = Some s → si_id s = id ∧ stream_in_range s.

Definition registry_ok (r : StreamRegistry) : Prop := map_ok (streams_ r).

Lemma pcm_params_in_range ct p : pcm_params_of ct = Some p → pcm_in_range p.
Proof.
  unfold pcm_params_of. intros H. repeat case_match; simplify_eq.
  apply parse_content_type_pcm in H0 as (?&?&?&_). unfold pcm_in_range. simpl. lia.
Qed.

Lemma stream_of_declaration_in_range id d : stream_in_range (stream_of_declaration id d).
Proof.
  split; [simpl; unfold uint64_max; lia|]. intros p. simpl. apply pcm_params_in_range.
Qed.

Lemma emplace_ok m s : map_ok m → stream_in_range s → map_ok (emplace (si_id s) s m).
Proof.
  intros Hm Hs id s'. unfold emplace. destruct (m !! si_id s); [apply Hm|].
  rewrite lookup_insert_Some. intros [[<- <-]|[_ ?]]; [done|by apply Hm].
Qed.

Lemma register_loop_ok rd decls : ∀ m, map_ok m → map_ok (register_loop rd decls m).1.2.
Proof.
  revert rd. induction decls as [|d decls IH]; intros rd m Hm; [done|]. simpl.
  destruct (generate_csprng_id rd 8) as [[id|e] rd']; [|done]. apply IH.
  apply (emplace_ok _ (stream_of_declaration id d)); [done|apply stream_of_declaration_in_range].
Qed.

Lemma register_from_declarations_ok rd decls r :
  registry_ok (register_from_declarations rd decls r).1.2.
Proof.
  unfold register_from_declarations. pose proof (register_loop_ok rd decls ∅) as H.
  destruct (register_loop rd decls ∅) as [[res m] rd']. apply H. intros id s Hs.
  by rewrite lookup_empty in Hs.
Qed.

Lemma register_from_persisted_ok ps r :
  Forall stream_in_range ps → registry_ok (register_from_persisted ps r).
Proof.
  unfold register_from_persisted, registry_ok. simpl. intros Hps.
  assert (map_ok ∅) as H0 by (intros id s Hs; by rewrite lookup_empty in Hs).
  revert H0. generalize (∅ : gmap bytes StreamInfo). induction Hps as [|s ps Hs _ IH]; [done|].
  intros m Hm. simpl. apply IH. by apply emplace_ok.
Qed.

Lemma set_stream_ok id s r :
  registry_ok r → si_id s = id → stream_in_range s → registry_ok (set_stream id s r).
Proof.
  intros Hr Hid Hs id' s'. simpl. rewrite lookup_insert_Some.
  intros [[<- <-]|[_ ?]]; [done|by apply Hr].
Qed.

Lemma elem_of_snapshot r s :
  registry_ok r → s ∈ snapshot r ↔ streams_ r !! si_id s = Some s.
Proof.
  intros Hr. unfold snapshot. rewrite list_elem_of_fmap. split.
  - intros ([id s']&->&Hin%elem_of_map_to_list). simpl. by destruct (Hr _ _ Hin) as [-> _].
  - intros Hs. exists (si_id s, s). split; [done|]. by apply elem_of_map_to_list.
Qed.

(** The identifiers drawn by a successful registration. *)
Lemma register_loop_ids rd decls m m' rd' :
  register_loop rd decls m = (Ok tt, m', rd') →
  ∃ ids, length ids = length decls ∧
    m' = foldl (λ m p, emplace p.1 (stream_of_declaration p.1 p.2) m) m (zip ids decls).
Proof.
  revert rd m. induction decls as [|d decls IH]; intros rd m; simpl.
  - intros [= <- _]. by exists [].
  - destruct (generate_csprng_id rd 8) as [[id|e] rd1]; [|done].
    intros (ids&Hlen&->)%IH. exists (id :: ids). simpl. by rewrite Hlen.
Qed.

Lemma emplace_all_map ids decls : ∀ m,
  length ids = length decls → NoDup ids → (∀ id, id ∈ ids → m !! id = None) →
  (map_to_list (foldl (λ m p, emplace p.1 (stream_of_declaration p.1 p.2) m) m (zip ids decls))).*2 ≡ₚ
  zip_with stream_of_declaration ids decls ++ (map_to_list m).*2.
Proof.
  revert decls. induction ids as [|id ids IH]; intros [|d decls] m; simpl; try lia; [done|].
  intros [= Hlen] [Hnin Hnd]%NoDup_cons Hfresh.
  assert (m !! id = None) as Hid by (apply Hfresh; by left).
  unfold emplace at 2. rewrite Hid. rewrite IH.
  - rewrite map_to_list_insert by done. simpl. by rewrite Permutation_middle.
  - done.
  - done.
  - intros id' Hin. rewrite lookup_insert_ne; [apply Hfresh; by right|]. by intros ->.
Qed.
