(* ===== verification/SessionCodec.v ===== *)
(** * libculpeo-session: bodies, header values and names

    The file-local helpers of [src/session.cpp]: the JSON bodies of control
    frames, the parsers of header values, event-name syntax and the comparison of
    content types.  The JSON library (nlohmann/json) is not part of the sources:
    it is the class [JsonLib], whose operations are those the session calls. *)

From S2P Require Import Prelude Bytes Decimal Message Serialize Crypto SessionTypes StreamRegistry.

(** ** The JSON library

    A call that can throw returns an option, [None] when it throws. *)
Class JsonLib := {
  json : Type;
  json_parse : bytes → option json;               (* json::parse *)
  json_at : json → bytes → option json;           (* v.at(key), and v[key] for a present key *)
  json_contains : json → bytes → bool;            (* v.contains(key) *)
  json_items : json → list json;                  (* for (const auto& x : v) *)
  json_get_string : json → option bytes;          (* v.get<std::string>() *)
  json_get_uint64 : json → option Z;              (* v.get<uint64_t>() *)
  json_get_int64 : json → option Z;               (* v.get<int64_t>() *)
  json_string : bytes → json;                     (* conversion from a string *)
  json_uint : Z → json;                           (* conversion from a uint64_t *)
  json_array : list json → json;
  json_object : list (bytes * json) → json;       (* v[key] = x, for each pair *)
  json_dump : json → option bytes;                (* v.dump() *)
  (** the results fit their types *)
  json_uint64_range v n : json_get_uint64 v = Some n → (0 ≤ n ≤ uint64_max)%Z;
  json_int64_range v n : json_get_int64 v = Some n → (- 2 ^ 63 ≤ n < 2 ^ 63)%Z;
}.

(** ** Bodies *)
Section bodies.
Context {JL : JsonLib}.

Definition init_ack_entry (is_resumption : bool) (s : StreamInfo) : json :=
  json_object
    ([(str "id", json_string (si_id s));
      (str "content_type", json_string (si_content_type s));
      (str "type", json_string (stream_direction_to_string (si_direction s)));
      (str "offset_type", json_string (offset_type_to_string (si_offset_type s)))] ++
     (if decide (si_purpose s = []) then [] else [(str "purpose", json_string (si_purpose s))]) ++
     (if is_resumption then [(str "resume_offset", json_uint (si_offset s))] else [])).

Definition build_init_ack_body (version : bytes) (streams : list StreamInfo)
    (is_resumption : bool) : option bytes :=
  json_dump (json_object
    [(str "version", json_string version);
     (str "streams", json_array (init_ack_entry is_resumption <$> streams))]).

Definition build_init_error_body (versions : list bytes) : option bytes :=
  json_dump (json_object [(str "supported_versions", json_array (json_string <$> versions))]).

Definition build_auth_refresh_body (nonce_hex : bytes) : option bytes :=
  json_dump (json_object [(str "nonce", json_string nonce_hex)]).
End bodies.

(** A double quote, for the bodies that are built by hand. *)
Definition quoted (s : bytes) : bytes := x22 :: s ++ [x22].

Definition build_pong_body (original_ts server_ts : Z) : bytes :=
  str "{" ++ quoted (str "ts") ++ str ":" ++ to_string original_ts ++
  str "," ++ quoted (str "server_ts") ++ str ":" ++ to_string server_ts ++ str "}".

Definition build_ping_body (nonce send_ts : Z) : bytes :=
  str "{" ++ quoted (str "nonce") ++ str ":" ++ to_string nonce ++
  str "," ++ quoted (str "server_ts") ++ str ":" ++ to_string send_ts ++ str "}".

Definition build_close_body : bytes := str "{}".

(** ** Header values *)
Definition parse_uint64 (sv : bytes) : expected Error Z :=
  if decide (sv = []) then Err protocol_error
  else if bool_decide (1 < length sv) && bool_decide (head sv = Some x30) then Err protocol_error
  else
    match from_chars_u 64 sv with
    | (Some result, n) => if decide (n = length sv) then Ok result else Err protocol_error
    | (None, _) => Err protocol_error
    end.

(** ** Event names *)
Fixpoint consecutive_dots (name : bytes) : bool :=
  match name with
  | x2e :: ((x2e :: _) as name') => true
  | _ :: name' => consecutive_dots name'
  | [] => false
  end.

Definition is_ws_opt (c : option byte) : bool :=
  match c with Some c => is_ws c | None => false end.

Definition is_valid_event_name (name : bytes) : bool :=
  if decide (name = []) then false
  else if is_ws_opt (head name) || is_ws_opt (last name) then false
  else if decide (find [x2e] name = None) then false
  else if consecutive_dots name then false
  else if decide (head name = Some x2e ∨ last name = Some x2e) then false
  else true.

(** ** Content types *)
Definition to_lower_ascii_ct (c : byte) : byte :=
  if decide (65 ≤ code c ≤ 90)%Z then of_code (code c - 65 + 97) else c.

Fixpoint iequals_sv (a b : bytes) : bool :=
  match a, b with
  | [], [] => true
  | x :: a, y :: b =>
      if decide (to_lower_ascii_ct x = to_lower_ascii_ct y) then iequals_sv a b else false
  | _, _ => false
  end.

Definition trim_sv (s : bytes) : bytes := sv_chars (sv_trim (sv_of s)).

(** The locals of the parameter loop: cursor and the parameters so far. *)
Record ct_match_state := { ct_cursor : nat; ct_params : list (bytes * bytes) }.

Definition ct_match_step (ct : bytes) (s : ct_match_state)
    : ct_match_state + option (list (bytes * bytes)) :=
  if decide (ct_cursor s < length ct) then
    let next := find_at [x3b] ct (ct_cursor s) in
    let seg := trim_sv (take (default (length ct) next - ct_cursor s) (drop (ct_cursor s) ct)) in
    let cursor := match next with None => length ct | Some n => n + 1 end in
    if decide (seg = []) then inr None
    else match find [x3d] seg with
         | None => inr None
         | Some eq =>
             if decide (16 ≤ length (ct_params s)) then inr None
             else inl {| ct_cursor := cursor;
                         ct_params := ct_params s ++
                           [(trim_sv (take eq seg), trim_sv (drop (eq + 1) seg))] |}
         end
  else inr (Some (ct_params s)).

Definition ct_match_measure (ct : bytes) (s : ct_match_state) : nat := length ct - ct_cursor s.

#[export] Instance ct_match_decreasing ct : Decreasing (ct_match_measure ct) (ct_match_step ct).
Proof.
  intros s s' Hs. unfold ct_match_step in Hs. unfold ct_match_measure.
  destruct (decide (ct_cursor s < length ct)) as [Hlt|]; [|done]. cbv zeta in Hs.
  destruct (find_at [x3b] ct (ct_cursor s)) as [n|] eqn:Hn.
  - apply find_at_bound in Hn. repeat case_match; simplify_eq/=; lia.
  - repeat case_match; simplify_eq/=; lia.
Qed.

(** The lambda [parse]: type and parameters, [None] when it returns false. *)
Definition ct_parse (ct : bytes) : option (bytes * list (bytes * bytes)) :=
  match find [x3b] ct with
  | None => Some (trim_sv ct, [])
  | Some semi =>
      params ← loop (ct_match_measure ct) (ct_match_step ct)
                 {| ct_cursor := semi + 1; ct_params := [] |};
      Some (trim_sv (take semi ct), params)
  end.

Definition same_param (p q : bytes * bytes) : bool :=
  iequals_sv p.1 q.1 && bool_decide (p.2 = q.2).

Definition content_type_matches (declared received : bytes) : bool :=
  match ct_parse declared, ct_parse received with
  | Some (d_ts, d_params), Some (r_ts, r_params) =>
      if negb (iequals_sv d_ts r_ts) then false
      else if decide (length d_params ≠ length r_params) then false
      else forallb (λ p, existsb (same_param p) r_params) d_params
  | _, _ => false
  end.

(** ** The ping nonce *)
Fixpoint le_value (b : bytes) : Z :=
  match b with [] => 0 | c :: b => (code c + 256 * le_value b)%Z end.

Definition generate_u64_nonce (rd : entropy) : Z * entropy :=
  let '(ok, buf, rd) := secure_random rd (replicate 8 x00) in
  if ok then
    let nonce := le_value buf in
    (if decide (nonce = 0%Z) then 1%Z else nonce, rd)
  else (0%Z, rd).

(** ** Close codes *)
Definition to_ws_close_code (culpeo_code : bytes) : Z :=
  if decide (culpeo_code = str "normal") then 1000
  else if decide (culpeo_code = str "unauthorized" ∨ culpeo_code = str "auth-expired" ∨
                  culpeo_code = str "auth-failed") then 1008
  else if decide (culpeo_code = str "server-shutdown" ∨ culpeo_code = str "idle-timeout") then 1001
  else 1002.

(** ** Facts: numbers *)
Lemma parse_uint64_Ok s n :
  parse_uint64 s = Ok n ↔ canonical s ∧ dec_value s = n ∧ (n ≤ uint64_max)%Z.
Proof.
  unfold parse_uint64, canonical, uint64_max. change (digit 0) with x30.
  case_decide as Hnil; [naive_solver|].
  destruct (bool_decide (1 < length s) && bool_decide (head s = Some x30)) eqn:Hz.
  { apply andb_true_iff in Hz as [?%bool_decide_eq_true ?%bool_decide_eq_true]. naive_solver. }
  assert (1 < length s → head s ≠ Some x30) as Hlead.
  { rewrite andb_false_iff, !bool_decide_eq_false in Hz. naive_solver. }
  clear Hz.
  unfold from_chars_u. destruct (decide (digits s)) as [Hd|Hd].
  - rewrite digit_prefix_id by done. rewrite decide_False by done.
    case_decide; [case_decide|]; naive_solver lia.
  - assert (length (digit_prefix s) ≠ length s) by (by rewrite digit_prefix_all).
    split; [|naive_solver]. repeat case_decide; done.
Qed.

Lemma parse_uint64_to_string n : (0 ≤ n ≤ uint64_max)%Z → parse_uint64 (to_string_u n) = Ok n.
Proof.
  intros. apply parse_uint64_Ok. split_and!; [apply to_string_u_canonical; lia| |lia].
  apply dec_value_to_string_u. lia.
Qed.

Lemma parse_uint64_range s n : parse_uint64 s = Ok n → (0 ≤ n ≤ uint64_max)%Z.
Proof. intros ((_&Hd&_)&<-&?)%parse_uint64_Ok. split; [|done]. by apply dec_value_nonneg. Qed.

(** ** Facts: event names *)

(** The dot-separated segments of a name, empty ones included. *)
Fixpoint dot_split (name : bytes) : list bytes :=
  match name with
  | [] => [[]]
  | c :: name =>
      if decide (c = x2e) then [] :: dot_split name
      else match dot_split name with
           | seg :: segs => (c :: seg) :: segs
           | [] => [[c]]
           end
  end.

Lemma dot_split_nonempty name : dot_split name ≠ [].
Proof. destruct name as [|c name]; simpl; [done|]. by repeat case_match. Qed.

Lemma dot_split_count name : 2 ≤ length (dot_split name) ↔ x2e ∈ name.
Proof.
  induction name as [|c name IH]; simpl; [set_solver by lia|].
  rewrite elem_of_cons. case_decide as Hc.
  - pose proof (dot_split_nonempty name). destruct (dot_split name); [done|]. simpl.
    split; [by left|lia].
  - rewrite <-IH. destruct (dot_split name); simpl; naive_solver lia.
Qed.

Lemma dot_split_head name : head (dot_split name) = Some [] ↔ name = [] ∨ head name = Some x2e.
Proof.
  destruct name as [|c name]; simpl; [naive_solver|]. case_decide; [naive_solver|].
  pose proof (dot_split_nonempty name). destruct (dot_split name); naive_solver.
Qed.

Lemma consecutive_dots_cons c name :
  consecutive_dots (c :: name) =
    bool_decide (c = x2e ∧ head name = Some x2e) || consecutive_dots name.
Proof.
  destruct (decide (c = x2e)) as [->|Hc].
  - destruct name as [|d name]; [done|]. destruct (decide (d = x2e)) as [->|Hd]; [done|].
    rewrite bool_decide_eq_false_2 by naive_solver. by destruct d.
  - rewrite bool_decide_eq_false_2 by naive_solver. by destruct c.
Qed.

Lemma last_cons_Some (c d : byte) name :
  last (c :: name) = Some d ↔ (name = [] ∧ c = d) ∨ last name = Some d.
Proof. destruct name; [naive_solver|]. rewrite last_cons_cons. naive_solver. Qed.

Lemma dot_split_tail name :
  [] ∉ tail (dot_split name) ↔ consecutive_dots name = false ∧ last name ≠ Some x2e.
Proof.
  induction name as [|c name IH]; [simpl; set_solver|].
  rewrite consecutive_dots_cons, orb_false_iff, bool_decide_eq_false, last_cons_Some.
  pose proof (dot_split_nonempty name) as Hne. pose proof (dot_split_head name) as Hh.
  simpl dot_split. case_decide as Hc.
  - cbn [tail]. destruct (dot_split name) as [|seg segs]; [done|].
    rewrite not_elem_of_cons. cbn [tail head] in *. rewrite IH.
    destruct name as [|d name]; [naive_solver|]. naive_solver.
  - destruct (dot_split name) as [|seg segs]; [done|]. cbn [tail] in *. rewrite IH. naive_solver.
Qed.

(** A valid name has at least two segments, none of them empty, and no white
    space at its ends. *)
Lemma is_valid_event_name_spec name :
  is_valid_event_name name = true ↔
  2 ≤ length (dot_split name) ∧ ([] ∉ dot_split name) ∧ trimmed name.
Proof.
  rewrite dot_split_count. unfold is_valid_event_name, trimmed.
  pose proof (dot_split_head name) as Hh. pose proof (dot_split_tail name) as Ht.
  pose proof (dot_split_nonempty name) as Hne.
  destruct (dot_split name) as [|seg segs]; [done|]. rewrite not_elem_of_cons.
  cbn [head tail] in *. case_decide as Hnil; [subst; set_solver|].
  assert (∀ o, is_ws_opt o = false ↔ ∀ c, o = Some c → is_ws c = false) as Hws.
  { intros [c|]; simpl; naive_solver. }
  rewrite <-!Hws. assert (find [x2e] name = None ↔ x2e ∉ name) as Hfind.
  { clear. induction name as [|c name IH]; [simpl; set_solver|].
    rewrite find_cons, not_elem_of_cons, <-IH. cbn [is_prefix].
    destruct (decide (x2e = c)) as [<-|Hne]; simpl; [naive_solver|]. rewrite fmap_None. naive_solver. }
  destruct (is_ws_opt (head name)), (is_ws_opt (last name)); simpl; [naive_solver..|].
  case_decide as Hf; [rewrite Hfind in Hf; naive_solver|].
  assert (x2e ∈ name) by (destruct (decide (x2e ∈ name)); [done|by destruct Hf; apply Hfind]).
  destruct (consecutive_dots name).
  { split; [done|]. intros (_&(_&Hs%Ht)&_). naive_solver. }
  case_decide as Hd; (split; [try done|]).
  - intros (_&(Hs&Hsegs)&_). destruct Hs. destruct Hd as [Hd|Hd].
    + assert (Some seg = Some []) as [= ->] by (apply Hh; by right). done.
    + apply Ht in Hsegs as [_ []]. done.
  - intros _. split_and!; [done| | |done..].
    + intros <-. destruct (proj1 Hh eq_refl); naive_solver.
    + apply Ht. naive_solver.
  - done.
Qed.

(** ** Facts: content types *)

(** One parameter "name=value". *)
Definition ct_param (seg : bytes) : option (bytes * bytes) :=
  let seg := trim_sv seg in
  if decide (seg = []) then None
  else eq ← find [x3d] seg; Some (trim_sv (take eq seg), trim_sv (drop (eq + 1) seg)).

(** An iteration, in terms of the segment at the cursor. *)
Lemma ct_match_step_param ct s :
  ct_cursor s < length ct →
  let next := default (length ct) (find_at [x3b] ct (ct_cursor s)) in
  ∃ cursor, drop cursor ct = drop (next + 1) ct ∧
    ct_match_step ct s =
      match ct_param (take (next - ct_cursor s) (drop (ct_cursor s) ct)) with
      | None => inr None
      | Some p =>
          if decide (16 ≤ length (ct_params s)) then inr None
          else inl {| ct_cursor := cursor; ct_params := ct_params s ++ [p] |}
      end.
Proof.
  intros Hlt next. unfold ct_match_step, ct_param. rewrite decide_True by done. cbv zeta. fold next.
  eexists. split.
  2:{ case_decide; [done|]. destruct (find _ _); [|done]. reflexivity. }
  unfold next. destruct (find_at _ _ _); simpl; [done|by rewrite !drop_ge by lia].
Qed.

Lemma ct_match_loop ct s :
  length (ct_params s) ≤ 16 →
  loop (ct_match_measure ct) (ct_match_step ct) s =
    ps ← mapM ct_param (segments x3b (drop (ct_cursor s) ct));
    if decide (length (ct_params s ++ ps) ≤ 16) then Some (ct_params s ++ ps) else None.
Proof.
  induction s as [s IH] using (induction_ltof1 _ (ct_match_measure ct)). intros Hlen.
  rewrite loop_unfold. destruct (decide (ct_cursor s < length ct)) as [Hlt|Hge].
  - destruct (ct_match_step_param ct s Hlt) as (cursor&Hcur&Hs).
    rewrite (segments_cursor _ _ _ _ Hlt eq_refl). cbn [mapM].
    pose proof (ct_match_decreasing ct s) as Hdec. rewrite Hs in *.
    destruct (ct_param _) as [p|]; [|done]. cbn [mbind option_bind].
    case_decide as H16.
    + destruct (mapM _ _) as [ps|]; cbn; [|done].
      rewrite decide_False; [done|]. rewrite length_app. simpl. lia.
    + specialize (Hdec _ eq_refl).
      rewrite IH; [|done|simpl; rewrite length_app; simpl; lia].
      cbn [ct_cursor ct_params]. rewrite Hcur.
      destruct (mapM ct_param _) as [ps|]; [|done]. cbn. by rewrite <-app_assoc.
  - rewrite drop_ge by lia. unfold ct_match_step. rewrite decide_False by done. cbn.
    by rewrite app_nil_r, decide_True.
Qed.

Definition lower (s : bytes) : bytes := to_lower_ascii_ct <$> s.
Definition norm (p : bytes * bytes) : bytes * bytes := (lower p.1, p.2).

Lemma iequals_sv_spec a b : iequals_sv a b = true ↔ lower a = lower b.
Proof.
  revert b. induction a as [|x a IH]; intros [|y b]; simpl; try done.
  unfold lower in *. simpl. case_decide as Heq.
  - rewrite IH, Heq. split; [by intros ->|congruence].
  - split; [done|congruence].
Qed.

Lemma same_param_spec p q : same_param p q = true ↔ norm p = norm q.
Proof.
  unfold same_param, norm. rewrite andb_true_iff, iequals_sv_spec, bool_decide_eq_true.
  destruct p, q; simpl. split; [by intros [-> ->]|]. intros Heq. by injection Heq.
Qed.

Lemma content_type_matches_spec d r :
  content_type_matches d r = true ↔
  ∃ dts dps rts rps, ct_parse d = Some (dts, dps) ∧ ct_parse r = Some (rts, rps) ∧
    lower dts = lower rts ∧ length dps = length rps ∧ (norm <$> dps) ⊆ (norm <$> rps).
Proof.
  unfold content_type_matches.
  destruct (ct_parse d) as [[dts dps]|]; [|naive_solver].
  destruct (ct_parse r) as [[rts rps]|]; [|naive_solver].
  pose proof (iequals_sv_spec dts rts) as Hts.
  assert (forallb (λ p, existsb (same_param p) rps) dps = true ↔ (norm <$> dps) ⊆ (norm <$> rps))
    as Hsub.
  { rewrite forallb_forall. setoid_rewrite existsb_exists. setoid_rewrite same_param_spec.
    setoid_rewrite <-list_elem_of_In. split.
    - intros H x (p&->&Hp)%list_elem_of_fmap. destruct (H p Hp) as (q&Hq&Heq).
      apply list_elem_of_fmap. by exists q.
    - intros H p Hp. assert (norm p ∈ norm <$> rps) as (q&?&?)%list_elem_of_fmap
        by (apply H, list_elem_of_fmap; by exists p). by exists q. }
  destruct (iequals_sv dts rts); simpl.
  - case_decide; naive_solver.
  - split; [done|]. intros (?&?&?&?&[= -> ->]&[= -> ->]&Hl&_). apply Hts in Hl. done.
Qed.

(** ** Facts: the ping nonce *)
Lemma le_value_range b : (0 ≤ le_value b < 256 ^ Z.of_nat (length b))%Z.
Proof.
  induction b as [|c b IH]; [done|]. pose proof (code_range c).
  cbn [le_value length]. rewrite Nat2Z.inj_succ, Z.pow_succ_r by lia. lia.
Qed.

Lemma generate_u64_nonce_spec rd n rd' :
  generate_u64_nonce rd = (n, rd') →
  if (secure_random rd (replicate 8 x00)).1.1 then (0 < n ≤ uint64_max)%Z else n = 0%Z.
Proof.
  unfold generate_u64_nonce. pose proof (secure_random_length rd (replicate 8 x00)) as Hl.
  destruct (secure_random rd (replicate 8 x00)) as [[[] buf] rd1]; [|by intros [= <- _]].
  cbn [fst snd] in *. intros [= <- _]. pose proof (le_value_range buf) as Hr.
  rewrite Hl, length_replicate in Hr. unfold uint64_max. case_decide; lia.
Qed.
