(* ===== verification/Session.v ===== *)
(** * libculpeo-session: the session state machine

    [Session] and [Session::Impl] of [src/session.cpp].  A public method is a
    process: it alternates critical sections, in which it holds the session's
    mutex and updates [Impl] atomically, with calls to the transport and to the
    application's callbacks, made without the mutex.  Between two steps of one
    process other threads may run their own. *)

From S2P Require Import Prelude Bytes Decimal Message Serialize Crypto SessionTypes OffsetTracker.
From S2P Require Import AuthRefresh StreamRegistry SessionCodec.

(** ** State *)
Record Impl := mkImpl {
  callbacks : SessionCallbacks;
  config : SessionConfig;
  prior_state : option PersistedSessionState;
  state : SessionState;
  session_id_str : bytes;
  negotiated_version : bytes;
  negotiated_buffer_window_ms : Z;
  is_resumed_session : bool;
  registry : StreamRegistry;
  auth_mgr : AuthRefreshManager;
  ping_window_start : Z;
  pings_in_window : Z;
  pending_ping_nonce : option Z;
  pending_ping_send_ts : option Z;
}.

(** [Session::Session]. *)
Definition new_session (cb : SessionCallbacks) (cfg : SessionConfig)
    (ps : option PersistedSessionState) : Impl :=
  {| callbacks := cb; config := cfg; prior_state := ps;
     state := uninitialized; session_id_str := []; negotiated_version := [];
     negotiated_buffer_window_ms := 0; is_resumed_session := false;
     registry := new_registry (max_streams cfg); auth_mgr := initial_auth;
     ping_window_start := 0; pings_in_window := 0;
     pending_ping_nonce := None; pending_ping_send_ts := None |}.

Definition with_state (st : SessionState) (s : Impl) : Impl :=
  mkImpl (callbacks s) (config s) (prior_state s) st (session_id_str s) (negotiated_version s)
    (negotiated_buffer_window_ms s) (is_resumed_session s) (registry s) (auth_mgr s)
    (ping_window_start s) (pings_in_window s) (pending_ping_nonce s) (pending_ping_send_ts s).

Definition with_auth (m : AuthRefreshManager) (s : Impl) : Impl :=
  mkImpl (callbacks s) (config s) (prior_state s) (state s) (session_id_str s)
    (negotiated_version s) (negotiated_buffer_window_ms s) (is_resumed_session s) (registry s) m
    (ping_window_start s) (pings_in_window s) (pending_ping_nonce s) (pending_ping_send_ts s).

Definition with_registry (r : StreamRegistry) (s : Impl) : Impl :=
  mkImpl (callbacks s) (config s) (prior_state s) (state s) (session_id_str s)
    (negotiated_version s) (negotiated_buffer_window_ms s) (is_resumed_session s) r (auth_mgr s)
    (ping_window_start s) (pings_in_window s) (pending_ping_nonce s) (pending_ping_send_ts s).

Definition with_ping_window (start count : Z) (s : Impl) : Impl :=
  mkImpl (callbacks s) (config s) (prior_state s) (state s) (session_id_str s)
    (negotiated_version s) (negotiated_buffer_window_ms s) (is_resumed_session s) (registry s)
    (auth_mgr s) start count (pending_ping_nonce s) (pending_ping_send_ts s).

Definition with_pending_ping (nonce ts : option Z) (s : Impl) : Impl :=
  mkImpl (callbacks s) (config s) (prior_state s) (state s) (session_id_str s)
    (negotiated_version s) (negotiated_buffer_window_ms s) (is_resumed_session s) (registry s)
    (auth_mgr s) (ping_window_start s) (pings_in_window s) nonce ts.

Definition with_established (sid version : bytes) (bw : Z) (resumption : bool) (s : Impl) : Impl :=
  mkImpl (callbacks s) (config s) (prior_state s) established sid version bw resumption
    (registry s) (auth_mgr s) (ping_window_start s) (pings_in_window s) (pending_ping_nonce s)
    (pending_ping_send_ts s).

Definition transition_to_closed_locked (s : Impl) : Impl :=
  with_auth (clear (auth_mgr s)) (with_state closed s).

(** ** Processes *)

(** What a critical section reads from its surroundings: the two clocks and the
    random source. *)
Record Env := mkEnv { steady_now : Z; system_now_us : Z; random : entropy }.

(** Calls made without the mutex. *)
Inductive op :=
| send_text (frame : bytes)
| send_binary (frame : bytes)
| transport_close (code : Z) (reason : bytes)
| on_auth_validate (bearer_token : bytes)
| on_auth_response (bearer_token : bytes)
| on_media_received (stream : StreamInfo) (timestamp_us : Z) (body : bytes)
| on_rtt (rtt : Z)
| on_close (code reason : bytes).

(** A call returns (a value that only the two authorization callbacks use) or
    throws. *)
Inductive answer := returned (b : bool) | threw.

(** [Crash] is [std::terminate], reached by an exception in a [noexcept]
    function. *)
#[warnings="-register-all"]
Inductive proc (A : Type) :=
| Ret (a : A)
| Crash
| Do (o : op) (k : answer → proc A)
| Locked (section : Env → Impl → Impl * proc A).
Arguments Ret {A} a.
Arguments Crash {A}.
Arguments Do {A} o k.
Arguments Locked {A} section.

Abbreviation result := (expected Error unit).

(** Calls a callback through a [noexcept] function. *)
Definition callback {A} (o : op) (k : bool → proc A) : proc A :=
  Do o (λ a, match a with returned b => k b | threw => Crash end).

(** [if (cb) cb(...)]. *)
Definition notify {A} (set : bool) (o : op) (k : proc A) : proc A :=
  if set then callback o (λ _, k) else k.

Section session.
Context {ST : SizeT} {JL : JsonLib}.

Definition header (n v : bytes) : HeaderFieldView := {| name := n; value := v |}.

Definition send_text_frame_noexcept {A} (headers : list HeaderFieldView) (body : bytes)
    (k : proc A) : proc A :=
  match serialize_frame control headers body with
  | None => Crash
  | Some (Err _) => k
  | Some (Ok frame) => if decide (frame = []) then k else Do (send_text frame) (λ _, k)
  end.

Definition close_transport {A} (culpeo_code reason : bytes) (k : proc A) : proc A :=
  Do (transport_close (to_ws_close_code culpeo_code) reason) (λ _, k).

Definition json_content_type : HeaderFieldView :=
  header (str "Content-Type") (str "application/json").

Definition send_init_error_and_close {A} (code reason body : bytes) (k : proc A) : proc A :=
  send_text_frame_noexcept
    [header (str "Event") (str "culpeo.init-error"); header (str "Code") code;
     header (str "Reason") reason; json_content_type] body
    (close_transport code reason k).

Definition send_close_frame {A} (code reason : bytes) (k : proc A) : proc A :=
  send_text_frame_noexcept
    [header (str "Event") (str "culpeo.close"); header (str "Code") code;
     header (str "Reason") reason; json_content_type] build_close_body k.

(** The two ways the code rejects a frame: an init-error before the session is
    established (the state becomes closed after the transport calls), and a close
    frame in an established session. *)
Definition fail_init (code reason body : bytes) (e : Error) : proc result :=
  send_init_error_and_close code reason body
    (Locked (λ _ s, (transition_to_closed_locked s, Ret (Err e)))).

Definition fail_established (code reason : bytes) (e : Error) : proc result :=
  send_close_frame code reason (close_transport code reason (Ret (Err e))).

(** Like [fail_established], but the state becomes closed last. *)
Definition fail_then_close (code reason : bytes) (e : Error) : proc result :=
  send_close_frame code reason (close_transport code reason
    (Locked (λ _ s, (transition_to_closed_locked s, Ret (Err e))))).

(** ** [handle_init] *)

(** [finalize_established_locked]. *)
Definition finalize_established_locked (sid version : bytes) (buffer_window_ms : Z)
    (resumption : bool) (s : Impl) : Impl * proc result :=
  let s := with_established sid version buffer_window_ms resumption s in
  let bw_str := to_string buffer_window_ms in
  match build_init_ack_body version (snapshot (registry s)) resumption with
  | None => (s, Crash)
  | Some body =>
      (s, send_text_frame_noexcept
            [header (str "Event") (str "culpeo.init-ack"); header (str "Session-Id") sid;
             header (str "Buffer-Window") bw_str; json_content_type] body (Ret (Ok tt)))
  end.

Definition chars (v : option string_view) : option bytes := sv_chars <$> v.

(** The negotiated buffer window, in both paths of [handle_init]. *)
Definition negotiate_buffer_window (cfg : SessionConfig) (buffer_window : option bytes) : Z :=
  match buffer_window with
  | None => default_buffer_window_ms cfg
  | Some v =>
      match parse_uint64 v with
      | Ok bw => wrap 32 (Z.min bw (max_buffer_window_ms cfg))
      | Err _ => default_buffer_window_ms cfg
      end
  end.

(** The Bearer token of an Authorization header, empty when there is none. *)
Definition bearer_token (authorization : option bytes) : bytes :=
  match authorization with
  | Some v => if is_prefix (str "Bearer ") v then drop 7 v else []
  | None => []
  end.

(** A failed init: its code, its reason and the error returned. *)
Definition init_failure : Type := bytes * bytes * Error.

Definition bad_streams_json : init_failure :=
  (str "protocol-error", str "Invalid streams JSON", json_error).

(** A call that throws inside the try block around the declarations. *)
Definition try_json {A} (x : option A) : expected init_failure A :=
  match x with Some a => Ok a | None => Err bad_streams_json end.

(** [if (s.contains(key)) x = s[key].get<T>();]. *)
Definition optional_field {A} (s : json) (key : bytes) (get : json → option A)
    : expected init_failure (option A) :=
  if json_contains s key then Some <$> try_json (json_at s key ≫= get) else Ok None.

Definition parse_declaration (s : json) : expected init_failure StreamDeclaration :=
  content_type ← try_json (json_at s (str "content_type") ≫= json_get_string);
  type_str ← try_json (json_at s (str "type") ≫= json_get_string);
  match parse_stream_direction type_str with
  | None => Err (str "invalid-streams", str "Invalid stream type", invalid_streams)
  | Some dir =>
      purpose ← optional_field s (str "purpose") json_get_string;
      hint_id ← optional_field s (str "id") json_get_string;
      resume_offset ← optional_field s (str "resume_offset") json_get_uint64;
      if negb (json_contains s (str "offset_type")) then
        Err (str "invalid-streams", str "Stream missing required offset_type field", invalid_streams)
      else
        ot_str ← try_json (json_at s (str "offset_type") ≫= json_get_string);
        match parse_offset_type ot_str with
        | None => Err (str "invalid-streams", str "Unrecognised offset_type value", invalid_streams)
        | Some ot =>
            Ok {| sd_content_type := content_type; sd_direction := dir;
                  sd_purpose := default [] purpose; sd_hint_id := default [] hint_id;
                  sd_resume_offset := default 0%Z resume_offset;
                  sd_has_resume_offset := bool_decide (is_Some resume_offset);
                  sd_offset_type := Some ot |}
        end
  end.

Fixpoint parse_declarations (items : list json) : expected init_failure (list StreamDeclaration) :=
  match items with
  | [] => Ok []
  | s :: items =>
      d ← parse_declaration s;
      ds ← parse_declarations items;
      Ok (d :: ds)
  end.

Definition parse_streams (body : json) : expected init_failure (list StreamDeclaration) :=
  streams_arr ← try_json (json_at body (str "streams"));
  parse_declarations (json_items streams_arr).

(** *** Resumption *)
Definition matches_stream (st : StreamInfo) (d : StreamDeclaration) : bool :=
  bool_decide (sd_direction d = si_direction st) &&
  bool_decide (sd_content_type d = si_content_type st) &&
  bool_decide (sd_purpose d = si_purpose st).

(** The loop over the persisted streams; the failure is its reason. *)
Fixpoint restore_streams (decls : list StreamDeclaration) (streams : list StreamInfo)
    : expected bytes (list StreamInfo) :=
  match streams with
  | [] => Ok []
  | st :: streams =>
      match List.find (matches_stream st) decls with
      | None => Err (str "Cannot match all streams in resumption")
      | Some d =>
          if sd_has_resume_offset d then
            if decide (si_offset st < sd_resume_offset d)%Z
            then Err (str "resume_offset exceeds server offset")
            else cons (set_offset st (sd_resume_offset d)) <$> restore_streams decls streams
          else cons st <$> restore_streams decls streams
      end
  end.

Definition session_expired_at (ps : PersistedSessionState) (now : Z) : bool :=
  bool_decide (0 < ps_buffer_window_ms ps)%Z &&
  bool_decide (ps_buffer_window_ms ps < ns_to_ms (now - ps_disconnected_at ps))%Z.

Definition handle_resumption_locked (session_id : bytes) (buffer_window : option bytes)
    (decls : list StreamDeclaration) (version : bytes) (e : Env) (s : Impl) : Impl * proc result :=
  match prior_state s with
  | None => (s, fail_init (str "invalid-session") (str "Session not found") (str "{}") session_expired)
  | Some ps =>
      if decide (session_id ≠ ps_session_id ps) then
        (s, fail_init (str "invalid-session") (str "Session ID mismatch") (str "{}") session_expired)
      else if session_expired_at ps (steady_now e) then
        (s, fail_init (str "invalid-session") (str "Session expired") (str "{}") session_expired)
      else if decide (length decls ≠ length (ps_streams ps)) then
        (s, fail_init (str "invalid-streams") (str "Stream set does not match original session")
              (str "{}") invalid_streams)
      else
        match restore_streams decls (ps_streams ps) with
        | Err reason => (s, fail_init (str "invalid-streams") reason (str "{}") invalid_streams)
        | Ok restored =>
            let s := with_registry (register_from_persisted restored (registry s)) s in
            finalize_established_locked (ps_session_id ps) version
              (negotiate_buffer_window (config s) buffer_window) true s
        end
  end.

(** *** The fresh path *)
Definition init_fresh (buffer_window : option bytes) (decls : list StreamDeclaration)
    (version : bytes) (e : Env) (s : Impl) : Impl * proc result :=
  match validate_declarations decls (max_streams (config s)) with
  | Err err =>
      (s, fail_init (str "invalid-streams")
            (if decide (err = max_streams_exceeded) then str "Too many streams"
             else str "Stream declarations invalid") (str "{}") err)
  | Ok _ =>
      let '(res, reg, rd) := register_from_declarations (random e) decls (registry s) in
      let s := with_registry reg s in
      match res with
      | Err err => (s, fail_init (str "server-error") (str "Failed to allocate streams") (str "{}") err)
      | Ok _ =>
          match (generate_csprng_id rd 16).1 with
          | Err err =>
              (s, fail_init (str "server-error") (str "Failed to generate session ID") (str "{}") err)
          | Ok sid =>
              finalize_established_locked sid version
                (negotiate_buffer_window (config s) buffer_window) false s
          end
      end
  end.

(** From the authorization decision on, with the mutex held. *)
Definition init_after_auth (f : ParsedHeadersView) (body : json) (version : bytes) (auth_ok : bool)
    (e : Env) (s : Impl) : Impl * proc result :=
  if negb auth_ok then
    (s, fail_init (str "unauthorized") (str "Credentials invalid") (str "{}") auth_failed)
  else
    match parse_streams body with
    | Err (code, reason, err) => (s, fail_init code reason (str "{}") err)
    | Ok decls =>
        match chars (session_id f) with
        | Some sid => handle_resumption_locked sid (chars (buffer_window f)) decls version e s
        | None => init_fresh (chars (buffer_window f)) decls version e s
        end
    end.

Definition handle_init (f : ParsedHeadersView) (e : Env) (s : Impl) : Impl * proc result :=
  if decide (state s ≠ uninitialized) then
    (with_state initializing s,
     fail_init (str "protocol-error") (str "culpeo.init received after session established")
       (str "{}") protocol_error)
  else
    let s := with_state initializing s in
    match json_parse (sv_chars (body f)) with
    | None => (s, fail_init (str "protocol-error") (str "Invalid JSON body") (str "{}") json_error)
    | Some body_json =>
        match json_at body_json (str "version") ≫= json_get_string with
        | None =>
            (s, fail_init (str "protocol-error") (str "Missing version field") (str "{}") json_error)
        | Some client_version =>
            if negb (bool_decide (client_version ∈ supported_versions (config s))) then
              match build_init_error_body (supported_versions (config s)) with
              | None => (s, Crash)
              | Some b =>
                  (s, fail_init (str "unsupported-version") (str "Protocol version not supported") b
                        version_unsupported)
              end
            else if has_auth_validate (callbacks s) then
              (s, callback (on_auth_validate (bearer_token (chars (authorization f)))) (λ auth_ok,
                    Locked (λ e s,
                      if decide (state s = closed) then (s, Ret (Err auth_failed))
                      else init_after_auth f body_json client_version auth_ok e s)))
            else init_after_auth f body_json client_version true e s
        end
    end.

(** ** Ping and pong *)

(** The rate limiter: the new window, and whether the ping is answered. *)
Definition ping_window (rate now start count : Z) : Z * Z * bool :=
  if decide (1000 ≤ ns_to_ms (now - start))%Z then (now, 1%Z, true)
  else
    let count := wrap 32 (count + 1) in
    (start, count, negb (bool_decide (rate < count)%Z)).

Definition handle_ping (f : ParsedHeadersView) (e : Env) (s : Impl) : Impl * proc result :=
  if decide (state s ≠ established) then (s, Ret (Err wrong_state))
  else
    let '(start, count, ok) :=
      ping_window (max_ping_rate_per_second (config s)) (steady_now e)
        (ping_window_start s) (pings_in_window s) in
    let s := with_ping_window start count s in
    if negb ok then (s, Ret (Err ping_rate_exceeded))
    else
      let ts := default 0%Z
        (j ← json_parse (sv_chars (body f)); v ← json_at j (str "ts"); json_get_int64 v) in
      (s, send_text_frame_noexcept [header (str "Event") (str "culpeo.pong"); json_content_type]
            (build_pong_body ts (system_now_us e)) (Ret (Ok tt))).

Definition handle_pong (f : ParsedHeadersView) (e : Env) (s : Impl) : Impl * proc result :=
  if decide (state s ≠ established) then (s, Ret (Err wrong_state))
  else
    match pending_ping_nonce s with
    | None => (s, Ret (Ok tt))
    | Some expected_nonce =>
        let now := system_now_us e in
        let rtt := (now - default now (pending_ping_send_ts s))%Z in
        let s' := with_pending_ping None None s in
        match (j ← json_parse (sv_chars (body f)); v ← json_at j (str "nonce"); json_get_uint64 v) with
        | None => (s', Ret (Ok tt))
        | Some echoed_nonce =>
            if decide (echoed_nonce = expected_nonce)
            then (s', notify (has_rtt (callbacks s)) (on_rtt rtt) (Ret (Ok tt)))
            else (s', Ret (Ok tt))
        end
    end.

(** ** Auth refresh *)

(** After the new token was judged. *)
Definition auth_response_verdict (token_ok : bool) : proc result :=
  if token_ok then Ret (Ok tt)
  else
    Locked (λ _ s,
      if decide (state s = closed) then (s, Ret (Err auth_failed))
      else (transition_to_closed_locked s,
            fail_established (str "auth-expired") (str "New credentials rejected") auth_failed)).

Definition handle_auth_response (f : ParsedHeadersView) (e : Env) (s : Impl) : Impl * proc result :=
  if decide (state s ≠ established) then (s, Ret (Err wrong_state))
  else if negb (pending (auth_mgr s)) then
    (s, fail_then_close (str "protocol-error") (str "Unexpected culpeo.auth-response") protocol_error)
  else
    match (j ← json_parse (sv_chars (body f)); v ← json_at j (str "nonce"); json_get_string v) with
    | None =>
        (with_auth (clear (auth_mgr s)) s,
         fail_then_close (str "unauthorized") (str "Invalid auth-response body") json_error)
    | Some echoed_nonce =>
        let '(nonce_result, m) :=
          validate_and_consume echoed_nonce (steady_now e) (auth_refresh_timeout_s (config s))
            (auth_mgr s) in
        let s := with_auth m s in
        match nonce_result with
        | Err err =>
            let reason := if decide (err = nonce_expired) then str "Auth-refresh nonce expired"
                          else str "Nonce mismatch" in
            (s, fail_then_close (str "auth-expired") reason err)
        | Ok _ =>
            if has_auth_response (callbacks s) then
              (s, callback (on_auth_response (bearer_token (chars (authorization f))))
                    auth_response_verdict)
            else (s, auth_response_verdict true)
        end
    end.

(** ** Close *)

(** The common tail of [handle_close] and [Session::close]. *)
Definition close_locked (code reason : bytes) (s : Impl) : Impl * proc result :=
  if decide (state s = closed) then (s, Ret (Ok tt))
  else
    let s' := transition_to_closed_locked (with_auth (clear (auth_mgr s)) s) in
    (s', send_close_frame code reason (close_transport code reason
           (notify (has_close (callbacks s)) (on_close code reason) (Ret (Ok tt))))).

Definition handle_close (f : ParsedHeadersView) (s : Impl) : Impl * proc result :=
  close_locked (default (str "normal") (chars (code_ f)))
    (default (str "Connection closed") (chars (reason f))) s.

(** ** Public methods *)
Definition process_control_frame (f : ParsedHeadersView) : proc result :=
  if decide (frame_type f ≠ control) then Ret (Err protocol_error)
  else
    match chars (event f) with
    | None =>
        Locked (λ _ s,
          let reason := str "Control frame missing Event header" in
          match state s with
          | established =>
              (transition_to_closed_locked s,
               fail_established (str "protocol-error") reason protocol_error)
          | uninitialized | initializing =>
              (with_state initializing s,
               fail_init (str "protocol-error") reason (str "{}") protocol_error)
          | closed => (s, Ret (Err protocol_error))
          end)
    | Some event =>
        if negb (is_valid_event_name event) then
          Locked (λ _ s,
            let reason := str "Invalid event name syntax" in
            (transition_to_closed_locked s,
             if decide (state s = established)
             then fail_established (str "protocol-error") reason invalid_event_name
             else send_init_error_and_close (str "protocol-error") reason (str "{}")
                    (Ret (Err invalid_event_name))))
        else
          Locked (λ e s,
            if decide (state s = uninitialized ∧ event ≠ str "culpeo.init") then
              (with_state initializing s,
               fail_init (str "protocol-error") (str "Expected culpeo.init as first frame")
                 (str "{}") protocol_error)
            else if decide (event = str "culpeo.init") then handle_init f e s
            else if decide (event = str "culpeo.ping") then handle_ping f e s
            else if decide (event = str "culpeo.pong") then handle_pong f e s
            else if decide (event = str "culpeo.auth-response") then handle_auth_response f e s
            else if decide (event = str "culpeo.close") then handle_close f s
            else (s, Ret (Ok tt)))
    end.

(** A media frame that is refused, and the reason sent to the peer. *)
Definition media_failure : Type := bytes * Error.

(** The checks on a media frame for the stream it names: the stream, advanced
    past the frame, and the timestamp. *)
Definition check_media (f : ParsedHeadersView) (stream : StreamInfo)
    : expected media_failure (StreamInfo * Z) :=
  match chars (offset f) with
  | None => Err (str "Media frame missing Offset", protocol_error)
  | Some offset =>
      match parse_uint64 offset with
      | Err _ => Err (str "Invalid Offset header", protocol_error)
      | Ok frame_offset =>
          if negb (is_ok (check_offset stream frame_offset))
          then Err (str "Offset mismatch", offset_mismatch)
          else
            match chars (content_type f) with
            | None => Err (str "Media frame missing Content-Type", protocol_error)
            | Some ct =>
                if negb (content_type_matches (si_content_type stream) ct)
                then Err (str "Content-Type mismatch", content_type_mismatch)
                else
                  match from_option parse_uint64 (Ok 0%Z) (chars (timestamp f)) with
                  | Err _ => Err (str "Invalid Timestamp header", protocol_error)
                  | Ok timestamp_us =>
                      match advance_offset stream (Z.of_nat (sv_size (body f))) with
                      | Err err => Err (str "Offset overflow", err)
                      | Ok stream => Ok (stream, timestamp_us)
                      end
                  end
            end
      end
  end.

(** A media frame received in an established session.  The pointer that
    [find_mutable] returns is dereferenced without a test: a null pointer is the
    outcome [Crash]. *)
Definition handle_media (f : ParsedHeadersView) (s : Impl) : Impl * proc result :=
  let fail := λ reason err,
    (transition_to_closed_locked s, fail_established (str "protocol-error") reason err) in
  match chars (stream_id f) with
  | None => fail (str "Media frame missing Stream-Id") protocol_error
  | Some stream_id =>
      match validate_client_send stream_id (registry s), find_stream stream_id (registry s) with
      | Err err, _ => fail (str "Invalid stream direction") err
      | Ok _, None => (s, Crash)
      | Ok _, Some stream =>
          match check_media f stream with
          | Err (reason, err) => fail reason err
          | Ok (stream, timestamp_us) =>
              (with_registry (set_stream stream_id stream (registry s)) s,
               notify (has_media_received (callbacks s))
                 (on_media_received stream timestamp_us (sv_chars (body f))) (Ret (Ok tt)))
          end
      end
  end.

Definition process_media_frame (f : ParsedHeadersView) : proc result :=
  if decide (frame_type f ≠ media) then Ret (Err protocol_error)
  else
    Locked (λ _ s,
      if decide (state s ≠ established) then
        if decide (state s = uninitialized) then
          (with_state initializing s,
           fail_init (str "protocol-error") (str "Media frame before culpeo.init") (str "{}")
             wrong_state)
        else (s, Ret (Err wrong_state))
      else handle_media f s).

Definition media_headers (stream_id : bytes) (offset : Z) (ct : bytes) (timestamp_us : Z)
    : list HeaderFieldView :=
  [header (str "Stream-Id") stream_id; header (str "Offset") (to_string offset);
   header (str "Content-Type") ct; header (str "Timestamp") (to_string timestamp_us)].

Definition send_media (stream_id payload : bytes) (timestamp_us : Z) : proc result :=
  Locked (λ _ s,
    if decide (state s ≠ established) then (s, Ret (Err wrong_state))
    else
      match validate_server_send stream_id (registry s), find_stream stream_id (registry s) with
      | Err err, _ => (s, Ret (Err err))
      | Ok _, None => (s, Crash)
      | Ok _, Some stream =>
          match advance_offset stream (Z.of_nat (length payload)) with
          | Err err => (s, Ret (Err err))
          | Ok stream' =>
              (with_registry (set_stream stream_id stream' (registry s)) s,
               match serialize_frame media
                       (media_headers stream_id (si_offset stream) (si_content_type stream)
                          timestamp_us) payload with
               | None => Crash
               | Some (Err _) => Ret (Err transport_error)
               | Some (Ok frame) =>
                   Do (send_binary frame) (λ a,
                     match a with returned _ => Ret (Ok tt) | threw => Ret (Err transport_error) end)
               end)
          end
      end).

Definition send_auth_refresh : proc result :=
  Locked (λ e s,
    if decide (state s ≠ established) then (s, Ret (Err wrong_state))
    else
      let '(nonce_result, m, _) :=
        generate (random e) (steady_now e) (min_auth_refresh_interval_s (config s)) (auth_mgr s) in
      let s := with_auth m s in
      match nonce_result with
      | Err err => (s, Ret (Err err))
      | Ok hex =>
          match build_auth_refresh_body hex with
          | None => (s, Crash)
          | Some body =>
              (s, send_text_frame_noexcept
                    [header (str "Event") (str "culpeo.auth-refresh"); json_content_type] body
                    (Ret (Ok tt)))
          end
      end).

Definition send_ping : proc result :=
  Locked (λ e s,
    if decide (state s ≠ established) then (s, Ret (Err wrong_state))
    else
      let nonce := (generate_u64_nonce (random e)).1 in
      let send_ts := system_now_us e in
      (with_pending_ping (Some nonce) (Some send_ts) s,
       send_text_frame_noexcept [header (str "Event") (str "culpeo.ping"); json_content_type]
         (build_ping_body nonce send_ts) (Ret (Ok tt)))).

Definition close (code reason : bytes) : proc result :=
  Locked (λ _ s, close_locked code reason s).

(** *** Inspection: reads under the mutex *)
Definition get_state (s : Impl) : SessionState := state s.

Definition get_session_id (s : Impl) : option bytes :=
  if decide (session_id_str s = []) then None else Some (session_id_str s).

Definition get_streams (s : Impl) : list StreamInfo := snapshot (registry s).

Definition export_state (e : Env) (s : Impl) : option PersistedSessionState :=
  if decide (session_id_str s = []) then None
  else Some {| ps_session_id := session_id_str s; ps_streams := snapshot (registry s);
               ps_buffer_window_ms := negotiated_buffer_window_ms s;
               ps_disconnected_at := steady_now e |}.
End session.

(** Everything a client of the session can call. *)
Inductive api_call :=
| call_control (f : ParsedHeadersView)
| call_media (f : ParsedHeadersView)
| call_send_media (stream_id payload : bytes) (timestamp_us : Z)
| call_send_auth_refresh
| call_send_ping
| call_close (code reason : bytes).

Definition api {ST : SizeT} {JL : JsonLib} (c : api_call) : proc result :=
  match c with
  | call_control f => process_control_frame f
  | call_media f => process_media_frame f
  | call_send_media stream_id payload ts => send_media stream_id payload ts
  | call_send_auth_refresh => send_auth_refresh
  | call_send_ping => send_ping
  | call_close code reason => close code reason
  end.
