(* ===== verification/SessionFacts.v ===== *)
(** * libculpeo-session: what the methods do

    Facts about single calls: an executable sequential semantics of processes, the
    frames they send, the checks on media frames, resumption and the ping
    limiter. *)

From S2P Require Import Prelude Bytes Decimal Message ParseFacts Serialize Codec Crypto.
From S2P Require Import SessionTypes OffsetTracker AuthRefresh StreamRegistry SessionCodec Session.
From S2P Require Import ContentType.

(** ** Sequential execution

    [env] is what each critical section reads, [reply] how each call answers.  The
    outcome is the result ([None] after a crash), the final state and the calls
    made. *)
Fixpoint run (env : Env) (reply : op → answer) (p : proc result) (s : Impl)
    : option result * Impl * list op :=
  match p with
  | Ret r => (Some r, s, [])
  | Crash => (None, s, [])
  | Do o k => let '(r, s, os) := run env reply (k (reply o)) s in (r, s, o :: os)
  | Locked section =>
      match section env s with (s, p) => run env reply p s end
  end.

Section facts.
Context {ST : SizeT} {JL : JsonLib}.

(** ** Sending *)
Lemma send_text_frame_small {A} hs b (k : proc A) :
  (frame_size hs (Z.of_nat (length b)) < 2 ^ 32)%Z →
  send_text_frame_noexcept hs b k =
    match headers_error hs with
    | Some _ => k
    | None => Do (send_text (encode_frame hs b)) (λ _, k)
    end.
Proof.
  intros Hs. pose proof size_bits_pow. unfold send_text_frame_noexcept.
  rewrite serialize_frame_spec by (done || lia). destruct (headers_error hs); [done|].
  rewrite decide_False; [done|]. unfold encode_frame. intros Hn%(f_equal length).
  rewrite !length_app in Hn. simpl in Hn. lia.
Qed.

Definition close_headers (code reason : bytes) : list HeaderFieldView :=
  [header (str "Event") (str "culpeo.close"); header (str "Code") code;
   header (str "Reason") reason; json_content_type].

Lemma send_close_frame_small {A} code reason (k : proc A) :
  (Z.of_nat (length code + length reason) ≤ 65536)%Z →
  valid_header_value code = true → valid_header_value reason = true →
  send_close_frame code reason k =
    Do (send_text (encode_frame (close_headers code reason) (str "{}"))) (λ _, k).
Proof.
  intros Hlen Hc Hr. unfold send_close_frame. rewrite send_text_frame_small.
  - cbn [headers_error header name value json_content_type]. by rewrite Hc, Hr.
  - rewrite !frame_size_cons. unfold frame_size, header_size.
    cbn [name value header json_content_type foldl]. unfold build_close_body.
    change (2 ^ 32)%Z with 4294967296%Z. simpl length. lia.
Qed.

Lemma run_fail_established env reply reason e s :
  length reason ≤ 1024 → valid_header_value reason = true →
  run env reply (fail_established (str "protocol-error") reason e) s =
    (Some (Err e), s,
     [send_text (encode_frame (close_headers (str "protocol-error") reason) (str "{}"));
      transport_close 1002 reason]).
Proof.
  intros Hlen Hr. unfold fail_established. rewrite send_close_frame_small; [|simpl; lia|done|done].
  by unfold close_transport.
Qed.

(** ** Media frames *)

(** The conditions under which a media frame is accepted for stream [st]: it
    continues the stream at its offset, and [st'] is the stream after it. *)
Record accepts (f : ParsedHeadersView) (r : StreamRegistry) (id : bytes) (st st' : StreamInfo)
    (ts : Z) : Prop := {
  acc_id : chars (stream_id f) = Some id;
  acc_stream : streams_ r !! id = Some st;
  acc_direction : si_direction st ≠ output;
  acc_offset : ∃ o, chars (offset f) = Some o ∧ parse_uint64 o = Ok (si_offset st);
  acc_type : ∃ ct, chars (content_type f) = Some ct ∧
    content_type_matches (si_content_type st) ct = true;
  acc_time : match chars (timestamp f) with Some t => parse_uint64 t = Ok ts | None => ts = 0%Z end;
  acc_advance : advance_offset st (Z.of_nat (sv_size (body f))) = Ok st';
}.

Lemma check_media_iff f st st' ts :
  check_media f st = Ok (st', ts) ↔
  (∃ o, chars (offset f) = Some o ∧ parse_uint64 o = Ok (si_offset st)) ∧
  (∃ ct, chars (content_type f) = Some ct ∧ content_type_matches (si_content_type st) ct = true) ∧
  match chars (timestamp f) with Some t => parse_uint64 t = Ok ts | None => ts = 0%Z end ∧
  advance_offset st (Z.of_nat (sv_size (body f))) = Ok st'.
Proof.
  unfold check_media. split.
  - intros H. repeat case_match; simplify_eq/=.
    all: unfold check_offset in *; case_decide; simplify_eq/=.
    all: match goal with H : negb ?b = false |- _ => apply negb_false_iff in H | _ => idtac end.
    all: split_and!; try (eexists; done); done.
  - intros ((o&->&->)&(ct&->&Hct)&Hts&Ha). unfold check_offset. rewrite decide_True by done. simpl.
    rewrite Hct. simpl. destruct (chars (timestamp f)); simpl; [rewrite Hts|subst ts]; by rewrite Ha.
Qed.

(** The reasons given to the peer are short header values. *)
Lemma check_media_reason f st reason e :
  check_media f st = Err (reason, e) → length reason ≤ 1024 ∧ valid_header_value reason = true.
Proof.
  unfold check_media. intros. repeat case_match; simplify_eq; (split; [simpl; lia|by vm_compute]).
Qed.

Lemma validate_client_send_Ok id r :
  validate_client_send id r = Ok tt ↔ ∃ st, streams_ r !! id = Some st ∧ si_direction st ≠ output.
Proof.
  unfold validate_client_send, find_stream. destruct (streams_ r !! id); [|naive_solver].
  case_decide; naive_solver.
Qed.

(** A media frame in an established session is delivered or closes the session. *)
Lemma handle_media_cases f s :
  (∃ id st st' ts, accepts f (registry s) id st st' ts ∧
     handle_media f s =
       (with_registry (set_stream id st' (registry s)) s,
        notify (has_media_received (callbacks s)) (on_media_received st' ts (sv_chars (body f)))
          (Ret (Ok tt)))) ∨
  ((∀ id st st' ts, ¬ accepts f (registry s) id st st' ts) ∧
   ∃ reason e, length reason ≤ 1024 ∧ valid_header_value reason = true ∧
     handle_media f s =
       (transition_to_closed_locked s, fail_established (str "protocol-error") reason e)).
Proof.
  unfold handle_media. cbv zeta.
  destruct (chars (stream_id f)) as [id|] eqn:Hid.
  2:{ right. split; [by intros ???? []; congruence|]. eexists _, _. split_and!; [..|done]; [simpl; lia|done]. }
  destruct (validate_client_send id (registry s)) as [[]|e] eqn:Hval.
  2:{ right. split.
      - intros ???? [Hid' Hst Hdir]. assert (validate_client_send id (registry s) = Ok tt); [|congruence].
        apply validate_client_send_Ok. naive_solver.
      - eexists _, _. split_and!; [..|done]; [simpl; lia|done]. }
  apply validate_client_send_Ok in Hval as (st&Hst&Hdir). unfold find_stream. rewrite Hst.
  destruct (check_media f st) as [[st' ts]|[reason e]] eqn:Hc.
  - left. exists id, st, st', ts. split; [|done]. apply check_media_iff in Hc as (?&?&?&?). by split.
  - right. split; [|destruct (check_media_reason _ _ _ _ Hc); by eauto 6].
    intros id' st0 st' ts [Hid' Hst' _ Ho Hct Hts Ha].
    assert (st0 = st) as -> by congruence.
    assert (check_media f st = Ok (st', ts)); [by apply check_media_iff|congruence].
Qed.

(** A media frame as [send_media] writes it is accepted for the same stream by the
    receiver's checks. *)
Definition sendable_stream (id : bytes) (st : StreamInfo) : Prop :=
  valid_header_value id = true ∧ trimmed id ∧
  valid_header_value (si_content_type st) = true ∧ trimmed (si_content_type st) ∧
  is_Some (ct_parse (si_content_type st)) ∧
  length id ≤ 1024 ∧ length (si_content_type st) ≤ 1024.

Lemma trim_value_id v : trimmed v → trim_value v = v.
Proof. intros. unfold trim_value, sv_of. by rewrite sv_trim_id. Qed.

Lemma content_type_matches_refl ct : is_Some (ct_parse ct) → content_type_matches ct ct = true.
Proof.
  intros [[ts ps] Hct]. apply content_type_matches_spec. exists ts, ps, ts, ps. done.
Qed.

Lemma to_string_header n :
  (0 ≤ n ≤ uint64_max)%Z →
  to_string n = to_string_u n ∧ valid_header_value (to_string n) = true ∧
  trimmed (to_string n) ∧ length (to_string n) ≤ 20.
Proof.
  intros Hn. unfold uint64_max in Hn. assert (to_string n = to_string_u n) as ->.
  { unfold to_string. by rewrite decide_False by lia. }
  pose proof (to_string_u_digits n ltac:(lia)) as Hd. split_and!; [done| |by apply digits_trimmed|].
  - unfold valid_header_value. apply forallb_forall. intros c Hc%list_elem_of_In.
    rewrite Forall_forall in Hd. specialize (Hd c Hc).
    pose proof (forall_byte (λ c, negb (is_digit c) || negb (bool_decide (c = CR) ||
      bool_decide (c = LF) || bool_decide (c = NUL))) eq_refl c) as H. simpl in H.
    by rewrite Hd in H.
  - apply to_string_u_length. simpl. lia.
Qed.

Lemma media_headers_fit id st ts :
  sendable_stream id st → (0 ≤ si_offset st ≤ uint64_max)%Z → (0 ≤ ts ≤ uint64_max)%Z →
  let hs := media_headers id (si_offset st) (si_content_type st) ts in
  headers_error hs = None ∧ (frame_size hs 0 ≤ 4096)%Z ∧
  ∃ h hs', hs = h :: hs' ∧ fits default_limits h hs'.
Proof.
  intros (Hid&Htid&Hct&Htct&_&Hlid&Hlct) Ho Hts hs.
  destruct (to_string_header _ Ho) as (_&Hvo&Hto&Hlo).
  destruct (to_string_header _ Hts) as (_&Hvt&Htt&Hlt).
  unfold hs, media_headers. split_and!.
  - cbn [headers_error header name value]. by rewrite Hid, Hvo, Hct, Hvt.
  - rewrite !frame_size_cons. unfold frame_size, header_size. cbn [header name value foldl].
    simpl length. lia.
  - eexists _, _. split; [done|]. unfold fits. split_and!.
    + cbn [header_block_of]. unfold header_line. cbn [header name value].
      rewrite !length_app. simpl. lia.
    + simpl. lia.
    + repeat constructor; cbn [header value]; rewrite trim_value_id by done; simpl; lia.
    + by_decide.
Qed.

Lemma frame_size_add hs n : (frame_size hs n = frame_size hs 0 + n)%Z.
Proof.
  induction hs as [|h hs IH]; [unfold frame_size; simpl; lia|]. rewrite !frame_size_cons. lia.
Qed.

Lemma send_media_received id st ts payload st' :
  sendable_stream id st → stream_in_range st → (0 ≤ ts ≤ uint64_max)%Z →
  (Z.of_nat (length payload) < 2 ^ 31)%Z →
  advance_offset st (Z.of_nat (length payload)) = Ok st' →
  ∃ fr p,
    serialize_frame media (media_headers id (si_offset st) (si_content_type st) ts) payload =
      Some (Ok fr) ∧
    parse_headers default_limits media fr = Ok p ∧ frame_type p = media ∧
    chars (stream_id p) = Some id ∧ sv_chars (body p) = payload ∧
    check_media p st = Ok (st', ts).
Proof.
  intros Hsend [Ho _] Hts Hlen Hadv.
  destruct (media_headers_fit id st ts Hsend Ho Hts) as (Herr&Hsize&h&hs&Heq&Hfits).
  destruct Hsend as (_&Htid&_&Htct&Hct&_). pose proof size_bits_pow.
  destruct (to_string_header _ Ho) as (Hso&_&Hto&_). destruct (to_string_header _ Hts) as (Hst&_&Htt&_).
  exists (encode_frame (media_headers id (si_offset st) (si_content_type st) ts) payload).
  assert (frame_size (media_headers id (si_offset st) (si_content_type st) ts)
    (Z.of_nat (length payload)) < 2 ^ size_bits)%Z as Hfs.
  { rewrite frame_size_add. lia. }
  rewrite serialize_frame_spec, Herr by done.
  pose proof (parse_headers_refines_spec default_limits media
    (encode_frame (media_headers id (si_offset st) (si_content_type st) ts) payload)
    default_limits_ok ltac:(done)) as Href.
  rewrite Heq, spec_parse_encode in Href by (rewrite <-?headers_error_None, <-?Heq; done).
  destruct Href as (p&Hp&Hft&_&Hb&_&Hslots). exists p. rewrite Heq. split_and!; [done..| | |].
  all: assert (∀ r, sv_chars <$> get_slot r p = (λ q, trim_value (value q.2)) <$>
    list_find (λ h, reserved_of_name (name h) = Some r)
      (media_headers id (si_offset st) (si_content_type st) ts)) as Hv
    by (intros r; rewrite Hslots, Heq; apply field_value_received).
  - etransitivity; [exact (Hv h_stream_id)|]. simpl. by rewrite trim_value_id.
  - done.
  - apply check_media_iff. split_and!.
    + exists (to_string (si_offset st)). split.
      * etransitivity; [exact (Hv h_offset)|]. simpl. by rewrite trim_value_id.
      * rewrite Hso. by apply parse_uint64_to_string.
    + exists (si_content_type st). split; [|by apply content_type_matches_refl].
      etransitivity; [exact (Hv h_content_type)|]. simpl. by rewrite trim_value_id.
    + assert (chars (timestamp p) = Some (to_string ts)) as ->.
      { etransitivity; [exact (Hv h_timestamp)|]. simpl. by rewrite trim_value_id. }
      rewrite Hst. by apply parse_uint64_to_string.
    + unfold sv_size. by rewrite Hb.
Qed.

(** [send_media] in an established session, and a receiver that has the stream at
    the same offset. *)
Lemma send_media_accepted s env reply id st st' payload ts :
  state s = established → find_stream id (registry s) = Some st → stream_in_range st →
  si_direction st ≠ input → sendable_stream id st → (0 ≤ ts ≤ uint64_max)%Z →
  (Z.of_nat (length payload) < 2 ^ 31)%Z →
  advance_offset st (Z.of_nat (length payload)) = Ok st' →
  (∀ o, reply o = returned true) →
  ∃ fr p, run env reply (send_media id payload ts) s =
      (Some (Ok tt), with_registry (set_stream id st' (registry s)) s, [send_binary fr]) ∧
    parse_headers default_limits media fr = Ok p ∧ frame_type p = media ∧
    sv_chars (body p) = payload ∧
    ∀ r st0, streams_ r !! id = Some st0 → si_direction st0 ≠ output →
      si_content_type st0 = si_content_type st → si_offset st0 = si_offset st →
      si_offset_type st0 = si_offset_type st → si_pcm_params st0 = si_pcm_params st →
      accepts p r id st0 (set_offset st0 (si_offset st')) ts.
Proof.
  intros He Hfind Hrange Hdir Hsend Hts Hlen Hadv Hreply.
  destruct (send_media_received id st ts payload st' Hsend Hrange Hts Hlen Hadv)
    as (fr&p&Hser&Hp&Hft&Hid&Hb&Hc).
  exists fr, p. split_and!; [|done..|].
  - unfold send_media. cbn [run]. rewrite decide_False by tauto.
    unfold validate_server_send. rewrite Hfind, decide_False, Hadv, Hser by done. cbn [run].
    by rewrite Hreply.
  - intros r st0 Hr Hd Hct Ho Hot Hpcm.
    apply check_media_iff in Hc as (Hoff&Hmatch&Htime&_).
    split; try done; [by rewrite Ho|by rewrite Hct|]. unfold sv_size. rewrite Hb.
    unfold advance_offset, offset_increment in *. rewrite Hot, Hpcm, Ho.
    destruct (match si_offset_type st with offset_time => _ | _ => _ end); [|done].
    case_decide; [done|]. injection Hadv as <-. done.
Qed.
End facts.

(** ** Resumption *)
Definition stream_key (st : StreamInfo) : StreamDirection * bytes * bytes :=
  (si_direction st, si_content_type st, si_purpose st).
Definition decl_key (d : StreamDeclaration) : StreamDirection * bytes * bytes :=
  (sd_direction d, sd_content_type d, sd_purpose d).

Lemma matches_stream_key st d : matches_stream st d = true ↔ decl_key d = stream_key st.
Proof.
  unfold matches_stream, decl_key, stream_key. rewrite !andb_true_iff, !bool_decide_eq_true.
  destruct d, st; simpl. split; [by intros [[-> ->] ->]|]. intros Heq. by injection Heq.
Qed.

(** A restored stream: the persisted one, at its own offset or at the earlier
    offset that a declaration with the same key asks for. *)
Definition restored (decls : list StreamDeclaration) (st st' : StreamInfo) : Prop :=
  ∃ d, d ∈ decls ∧ decl_key d = stream_key st ∧
    if sd_has_resume_offset d
    then (sd_resume_offset d ≤ si_offset st)%Z ∧ st' = set_offset st (sd_resume_offset d)
    else st' = st.

Lemma restore_streams_Ok decls ps rs :
  restore_streams decls ps = Ok rs → Forall2 (restored decls) ps rs.
Proof.
  revert rs. induction ps as [|st ps IH]; intros rs; simpl; [by intros [= <-]|].
  destruct (List.find (matches_stream st) decls) as [d|] eqn:Hf; [|done].
  apply find_some in Hf as [Hin%list_elem_of_In Hm%matches_stream_key].
  destruct (restore_streams decls ps) as [rs'|e]; [|by repeat case_match].
  specialize (IH rs' eq_refl). destruct (sd_has_resume_offset d) eqn:Hr.
  - case_decide; [done|]. intros [= <-]. constructor; [|done]. exists d. rewrite Hr. split_and!; (done || lia).
  - intros [= <-]. constructor; [|done]. exists d. by rewrite Hr.
Qed.

(** When the persisted streams have distinct keys, a resumption declares exactly
    the persisted streams. *)
Lemma restore_keys decls ps rs :
  restore_streams decls ps = Ok rs → length decls = length ps → NoDup (stream_key <$> ps) →
  decl_key <$> decls ≡ₚ stream_key <$> ps.
Proof.
  intros Hr%restore_streams_Ok Hlen Hnd. symmetry.
  apply submseteq_length_Permutation; [|by rewrite !length_fmap, Hlen].
  apply NoDup_submseteq; [done|]. intros k (st&->&Hst)%list_elem_of_fmap.
  apply list_elem_of_lookup in Hst as [i Hi].
  destruct (Forall2_lookup_l _ _ _ _ _ Hr Hi) as (st'&_&d&Hd&Hk&_).
  apply list_elem_of_fmap. by exists d.
Qed.

Lemma emplace_lookup l : ∀ (m : gmap bytes StreamInfo) id,
  foldl (λ m s, emplace (si_id s) s m) m l !! id =
    match m !! id with
    | Some s => Some s
    | None => snd <$> list_find (λ s, si_id s = id) l
    end.
Proof.
  induction l as [|s l IH]; intros m id; simpl; [by destruct (m !! id)|].
  rewrite IH. unfold emplace. destruct (m !! si_id s) as [s0|] eqn:Hs.
  - destruct (m !! id) eqn:Hid; [done|]. rewrite decide_False by congruence.
    by destruct (list_find _ l) as [[]|].
  - destruct (decide (si_id s = id)) as [<-|Hne].
    + by rewrite lookup_insert_eq, Hs.
    + rewrite lookup_insert_ne by done. destruct (m !! id); [done|].
      by destruct (list_find _ l) as [[]|].
Qed.

(** Registering the snapshot of a registry restores it. *)
Lemma register_snapshot r r0 :
  registry_ok r → streams_ (register_from_persisted (snapshot r) r0) = streams_ r.
Proof.
  intros Hr. apply map_eq. intros id. simpl. rewrite emplace_lookup, lookup_empty.
  destruct (list_find (λ s, si_id s = id) (snapshot r)) as [[i s]|] eqn:Hf; simpl.
  - apply list_find_Some in Hf as (Hi&<-&_). symmetry. apply elem_of_snapshot; [done|].
    by eapply list_elem_of_lookup_2.
  - apply list_find_None in Hf. symmetry. apply eq_None_not_Some. intros [s Hs].
    destruct (Hr _ _ Hs) as [<- _]. rewrite Forall_forall in Hf. apply (Hf s); [|done].
    by apply elem_of_snapshot.
Qed.

(** Declarations without resume offsets restore the streams as they were. *)
Lemma restore_streams_same decls ps :
  (∀ d, d ∈ decls → sd_has_resume_offset d = false) →
  (∀ st, st ∈ ps → stream_key st ∈ decl_key <$> decls) → restore_streams decls ps = Ok ps.
Proof.
  intros Hd. induction ps as [|st ps IH]; intros Hps; [done|]. simpl.
  destruct (List.find (matches_stream st) decls) as [d|] eqn:Hf.
  - apply find_some in Hf as [Hin%list_elem_of_In _]. rewrite (Hd d Hin), IH; [done|].
    intros st' ?. apply Hps. by right.
  - assert (stream_key st ∈ decl_key <$> decls) as (d&Hk&Hin)%list_elem_of_fmap
      by (apply Hps; by left).
    eapply find_none in Hf; [|by apply list_elem_of_In].
    assert (matches_stream st d = true) by (by apply matches_stream_key). congruence.
Qed.

(** ** The ping limiter *)

(** The answers to pings at the given times. *)
Fixpoint ping_run (rate start count : Z) (times : list Z) : list bool :=
  match times with
  | [] => []
  | now :: times =>
      let '(start, count, ok) := ping_window rate now start count in
      ok :: ping_run rate start count times
  end.

Definition answered (oks : list bool) : Z := Z.of_nat (length (filter (λ b, b = true) oks)).

Lemma answered_cons b oks : answered (b :: oks) = ((if b then 1 else 0) + answered oks)%Z.
Proof. unfold answered. rewrite filter_cons. destruct b; case_decide; simpl; (done || lia). Qed.

Lemma ping_run_window rate start times : ∀ count,
  (0 ≤ count)%Z → (count + Z.of_nat (length times) < 2 ^ 32)%Z →
  Forall (λ t, ns_to_ms (t - start) < 1000)%Z times →
  answered (ping_run rate start count times) =
    Z.min (Z.of_nat (length times)) (Z.max 0 (rate - count)).
Proof.
  induction times as [|t times IH]; intros count Hc Hlen Hts; [simpl; unfold answered; simpl; lia|].
  apply Forall_cons in Hts as [Ht Hts]. cbn [ping_run length] in *. unfold ping_window.
  rewrite decide_False by lia. rewrite wrap_small by lia.
  rewrite answered_cons, IH by (done || lia).
  case_bool_decide; cbn [negb]; lia.
Qed.
