(* ===== verification/SessionSpec.v ===== *)
(** * libculpeo-session: the abstract session

    The session as a transition system on [Impl]: the rules below are all the
    state changes the protocol allows, without frames, JSON or I/O.  At most one
    thread holds a token, the right to finish the initialization it started: the
    token is taken by the first [culpeo.init], becomes [authorized] when the
    application accepts the credentials, and is consumed when the session is
    established.

    [implements cfg tok p] says that every critical section of the process [p] is
    a rule of the system for a session configured by [cfg], whatever other threads
    did before it; it is proved for all
    public methods in [SessionRefines]. *)

From S2P Require Import Prelude Bytes Message Crypto SessionTypes OffsetTracker AuthRefresh.
From S2P Require Import StreamRegistry SessionCodec Session.

(** The registry of a newly established session. *)
Definition fresh_registry (s : Impl) (reg : StreamRegistry) : Prop :=
  ∃ rd decls, declarations_ok decls (max_streams (config s)) ∧
    (register_from_declarations rd decls (registry s)).1 = (Ok tt, reg).

Definition resumed_registry (s : Impl) (sid : bytes) (now : Z) (reg : StreamRegistry) : Prop :=
  ∃ ps decls restored, prior_state s = Some ps ∧ sid = ps_session_id ps ∧
    session_expired_at ps now = false ∧
    (∀ d, d ∈ decls → 0 ≤ sd_resume_offset d ≤ uint64_max)%Z ∧
    length decls = length (ps_streams ps) ∧ restore_streams decls (ps_streams ps) = Ok restored ∧
    reg = register_from_persisted restored (registry s).

Inductive token := no_token | awaiting | authorized.

#[export] Instance token_eq_dec : EqDecision token.
Proof. solve_decision. Defined.

(** The effect of a call's answer on the caller's token. *)
Definition next_token (tok : token) (o : op) (a : answer) : token :=
  match tok, o, a with
  | awaiting, on_auth_validate _, returned true => authorized
  | _, _, _ => tok
  end.

(** The thread may establish the session: after authorization, or in its first
    critical section when the application does not check credentials. *)
Definition in_init (tok : token) (s : Impl) : Prop :=
  match tok with
  | no_token => state s = uninitialized ∧ has_auth_validate (callbacks s) = false
  | awaiting => False
  | authorized => state s = initializing
  end.

Section update.
Context {ST : SizeT}.

Inductive update : token → token → Impl → Impl → Prop :=
(** nothing, or giving up the token *)
| u_skip tok s : update tok no_token s s
(** a frame that must not come now was received *)
| u_reject s : update no_token no_token s (with_state initializing s)
(** the first [culpeo.init] *)
| u_begin s :
    state s = uninitialized → has_auth_validate (callbacks s) = true →
    update no_token awaiting s (with_state initializing s)
| u_close tok s : update tok no_token s (transition_to_closed_locked s)
(** streams were registered but no session identifier could be made *)
| u_register_failed tok s rd decls :
    in_init tok s →
    update tok no_token s
      (with_registry (register_from_declarations rd decls (registry s)).1.2 (with_state initializing s))
| u_establish tok s sid version bw requested :
    in_init tok s → version ∈ supported_versions (config s) →
    bw = negotiate_buffer_window (config s) requested →
    ∀ reg rd, fresh_registry s reg → (generate_csprng_id rd 16).1 = Ok sid →
    update tok no_token s (with_established sid version bw false (with_registry reg s))
| u_resume tok s sid version bw requested :
    in_init tok s → version ∈ supported_versions (config s) →
    bw = negotiate_buffer_window (config s) requested →
    ∀ reg now, resumed_registry s sid now reg →
    update tok no_token s (with_established sid version bw true (with_registry reg s))
| u_ping s now start count ok :
    state s = established →
    ping_window (max_ping_rate_per_second (config s)) now (ping_window_start s)
      (pings_in_window s) = (start, count, ok) →
    update no_token no_token s (with_ping_window start count s)
| u_pending_ping s n t :
    state s = established → (∀ x, n = Some x → 0 ≤ x ≤ uint64_max)%Z →
    update no_token no_token s (with_pending_ping n t s)
| u_challenge s rd now :
    state s = established →
    update no_token no_token s
      (with_auth (generate rd now (min_auth_refresh_interval_s (config s)) (auth_mgr s)).1.2 s)
| u_auth_clear s : state s = established → update no_token no_token s (with_auth (clear (auth_mgr s)) s)
| u_validate s hex now :
    state s = established → pending (auth_mgr s) = true →
    update no_token no_token s
      (with_auth (validate_and_consume hex now (auth_refresh_timeout_s (config s)) (auth_mgr s)).2 s)
(** a media frame of [n] bytes, in either direction *)
| u_media s id st n st' :
    state s = established → find_stream id (registry s) = Some st → (0 ≤ n)%Z →
    advance_offset st n = Ok st' →
    update no_token no_token s (with_registry (set_stream id st' (registry s)) s).

(** ** Invariants of the abstract session *)

Definition prior_ok (s : Impl) : Prop :=
  ∀ ps, prior_state s = Some ps →
    Forall stream_in_range (ps_streams ps) ∧ ps_session_id ps ≠ [].

Definition config_ok (cfg : SessionConfig) : Prop :=
  (0 ≤ max_buffer_window_ms cfg ≤ uint32_max ∧ 0 ≤ default_buffer_window_ms cfg ≤ uint32_max)%Z.

(** The invariant: streams are well formed; the nonce buffer has its size, and a
    closed session holds no key material; an established session has an
    identifier and a negotiated version and window within the configured ones. *)
Record session_inv (s : Impl) : Prop := {
  inv_registry : registry_ok (registry s);
  inv_auth : auth_ok (auth_mgr s);
  inv_closed : state s = closed → scrubbed (auth_mgr s);
  inv_established : state s = established →
    session_id_str s ≠ [] ∧ negotiated_version s ∈ supported_versions (config s);
  inv_window : (0 ≤ negotiated_buffer_window_ms s ≤
    Z.max (max_buffer_window_ms (config s)) (default_buffer_window_ms (config s)))%Z;
  inv_pings : (0 ≤ pings_in_window s ≤ uint32_max)%Z;
  inv_nonce n : pending_ping_nonce s = Some n → (0 ≤ n ≤ uint64_max)%Z;
}.

(** What no critical section changes. *)
Definition same_setup (s s' : Impl) : Prop :=
  callbacks s' = callbacks s ∧ config s' = config s ∧ prior_state s' = prior_state s.

#[export] Instance same_setup_preorder : PreOrder same_setup.
Proof.
  split; [by intros s|]. intros s1 s2 s3 (?&?&?) (?&?&?). split_and!; congruence.
Qed.

Lemma update_setup t t' s s' : update t t' s s' → same_setup s s'.
Proof. by destruct 1. Qed.

Lemma negotiate_range cfg requested :
  config_ok cfg →
  (0 ≤ negotiate_buffer_window cfg requested ≤
     Z.max (max_buffer_window_ms cfg) (default_buffer_window_ms cfg))%Z.
Proof.
  unfold config_ok, uint32_max. intros [Hm Hd]. unfold negotiate_buffer_window.
  destruct requested as [v|]; [|lia]. destruct (parse_uint64 v) as [n|] eqn:Hn; [|lia].
  apply parse_uint64_range in Hn. rewrite wrap_small; lia.
Qed.

Lemma generate_csprng_id_nonempty rd n id :
  0 < n → (generate_csprng_id rd n).1 = Ok id → id ≠ [].
Proof.
  intros Hn. unfold generate_csprng_id. set (m := if decide (32 < n) then 32 else n).
  pose proof (secure_random_length rd (replicate m x00)) as Hl.
  destruct (secure_random rd (replicate m x00)) as [[[] buf] rd']; [|done].
  intros [= <-] Hnil%(f_equal length). rewrite length_bytes_to_hex in Hnil.
  simpl in Hl, Hnil. rewrite length_replicate in Hl. unfold m in Hl. case_decide; lia.
Qed.

Lemma restore_streams_in_range decls ps rs :
  Forall stream_in_range ps → (∀ d, d ∈ decls → 0 ≤ sd_resume_offset d ≤ uint64_max)%Z →
  restore_streams decls ps = Ok rs → Forall stream_in_range rs.
Proof.
  intros Hps Hd. revert rs. induction Hps as [|st ps Hst _ IH]; intros rs; simpl.
  { by intros [= <-]. }
  destruct (List.find (matches_stream st) decls) as [d|] eqn:Hf; [|done].
  apply find_some in Hf as [Hin%list_elem_of_In _]. specialize (Hd d Hin).
  destruct (restore_streams decls ps) as [rs'|e]; [|by repeat case_match].
  specialize (IH rs' eq_refl). destruct (sd_has_resume_offset d).
  - case_decide; [done|]. intros [= <-]. constructor; [|done].
    destruct Hst as [_ Hp]. split; [simpl; lia|done].
  - intros [= <-]. by constructor.
Qed.

Lemma ping_window_range rate now start count start' count' ok :
  ping_window rate now start count = (start', count', ok) → (0 ≤ count' ≤ uint32_max)%Z.
Proof.
  unfold ping_window. case_decide; intros [= _ <- _]; [done|].
  unfold wrap, uint32_max. pose proof (Z.mod_pos_bound (count + 1) (2 ^ 32)). lia.
Qed.

Lemma update_inv t t' s s' :
  config_ok (config s) → prior_ok s → session_inv s → update t t' s s' → session_inv s'.
Proof.
  intros Hcfg Hprior [Hreg Hauth Hclosed Hest Hwin Hping Hnonce] Hu.
  destruct Hu as [tok s|s|s Hun Hav|tok s|tok s rd decls Hin|tok s sid ver bw req Hin Hver Hbw reg rd Hfr Hid
    |tok s sid ver bw req Hin Hver Hbw reg now Hrs|s now st cnt ok He Hpw|s n ts He Hn|s rd now He|s He
    |s hex now He Hp|s id st n st' He Hfind Hn Hadv].
  all: split; simpl in *; try done; try (intros; congruence).
  - by apply clear_ok.
  - intros _. by apply clear_scrubbed.
  - apply register_from_declarations_ok.
  - destruct Hfr as (rd'&decls&_&Heq). pose proof (register_from_declarations_ok rd' decls (registry s)) as Hok.
    by rewrite Heq in Hok.
  - intros _. split; [|done]. by eapply (generate_csprng_id_nonempty _ 16); [lia|done].
  - subst bw. by apply negotiate_range.
  - destruct Hrs as (ps&decls&restored&Hps&_&_&Hd&_&Hrest&->). apply register_from_persisted_ok.
    eapply restore_streams_in_range; [by apply Hprior|done|done].
  - destruct Hrs as (ps&_&_&Hps&->&_). intros _. by destruct (Hprior ps Hps).
  - subst bw. by apply negotiate_range.
  - by eapply ping_window_range.
  - by apply generate_ok.
  - by apply clear_ok.
  - by apply validate_ok.
  - destruct (Hreg _ _ Hfind) as [Hid Hst]. apply set_stream_ok; [done| |].
    + destruct (advance_offset_Ok _ _ _ Hn Hst Hadv) as (k&_&_&->&_). done.
    + by eapply advance_offset_in_range.
Qed.

(** Streams of an established session only move forward. *)
Definition streams_advance (r r' : StreamRegistry) : Prop :=
  ∀ id, match streams_ r !! id, streams_ r' !! id with
        | Some st, Some st' => st' = set_offset st (si_offset st') ∧ (si_offset st ≤ si_offset st')%Z
        | None, None => True
        | _, _ => False
        end.

#[export] Instance streams_advance_preorder : PreOrder streams_advance.
Proof.
  split.
  - intros r id. destruct (streams_ r !! id) as [st|]; [|done]. split; [by destruct st|lia].
  - intros r1 r2 r3 H12 H23 id. specialize (H12 id). specialize (H23 id).
    destruct (streams_ r1 !! id), (streams_ r2 !! id), (streams_ r3 !! id); try done.
    destruct H12 as [H12 ?], H23 as [H23 ?]. split; [|lia]. rewrite H23 at 1. by rewrite H12.
Qed.

Lemma set_stream_advance id st n st' r :
  registry_ok r → find_stream id r = Some st → (0 ≤ n)%Z → advance_offset st n = Ok st' →
  streams_advance r (set_stream id st' r).
Proof.
  intros Hr Hf Hn Ha id'. simpl. destruct (decide (id = id')) as [<-|Hne].
  - rewrite lookup_insert_eq. unfold find_stream in Hf. rewrite Hf.
    destruct (advance_offset_Ok _ _ _ Hn (proj2 (Hr _ _ Hf)) Ha) as (k&_&?&->&_). split; [done|simpl; lia].
  - rewrite lookup_insert_ne by done. apply (reflexivity (R := streams_advance) r).
Qed.

(** What stays true once initialization is over: the session's identity is fixed,
    its streams only advance, and it is not established again. *)
Record frozen (s s' : Impl) : Prop := {
  fr_id : session_id_str s' = session_id_str s;
  fr_version : negotiated_version s' = negotiated_version s;
  fr_window : negotiated_buffer_window_ms s' = negotiated_buffer_window_ms s;
  fr_streams : streams_advance (registry s) (registry s');
  fr_established : state s' = established → state s = established;
}.

#[export] Instance frozen_preorder : PreOrder frozen.
Proof.
  split.
  - intros s. by split.
  - intros s1 s2 s3 [] []. split; try congruence; [by etrans|auto].
Qed.

Lemma update_settled t' s s' :
  session_inv s → state s ≠ uninitialized → update no_token t' s s' →
  t' = no_token ∧ state s' ≠ uninitialized ∧ frozen s s'.
Proof.
  intros Hinv Hs Hu. remember no_token as t eqn:Ht.
  destruct Hu as [tok s|s|s Hun Hav|tok s|tok s rd decls Hin|tok s sid ver bw req Hin
    |tok s sid ver bw req Hin|s now st cnt ok He' Hpw|s n ts He'|s rd now He'|s He'|s hex now He' Hp
    |s id st n st' He' Hfind Hn Hadv]; subst; try (destruct Hin; congruence); try congruence.
  all: (split; [done|]); (split; [simpl; congruence|]); split; try done.
  simpl. by eapply set_stream_advance; [apply Hinv|..].
Qed.

(** ** The token *)

(** Who may establish the session: the token implies that it is not established
    and past its first frame; taking the token leaves the uninitialized state. *)
Definition token_ok (tok : token) (s : Impl) : Prop :=
  tok ≠ no_token → state s = initializing ∨ state s = closed.

Lemma update_token t t' s s' :
  token_ok t s → update t t' s s' →
  (t' ≠ no_token → t' = awaiting ∧ t = no_token ∧ state s = uninitialized ∧ state s' = initializing) ∧
  (state s' = uninitialized → t' = no_token ∧ state s = uninitialized) ∧
  (state s' = established → t' = no_token ∧ (state s = established ∨ in_init t s)).
Proof.
  intros Ht Hu. destruct Hu; simpl; split_and!; try done; intros; try congruence; try naive_solver.
Qed.
End update.

(** ** Processes that implement the system *)
Section implements.
Context {ST : SizeT} (cfg : SessionConfig).

Fixpoint implements (tok : token) (p : proc result) : Prop :=
  match p with
  | Ret _ | Crash => True
  | Do o k => ∀ a, implements (next_token tok o a) (k a)
  | Locked section =>
      ∀ e s, config s = cfg → token_ok tok s →
      match section e s with
      | (s', p') => ∃ tok', update tok tok' s s' ∧ implements tok' p'
      end
  end.
End implements.
