(* ===== verification/SessionRefines.v ===== *)
(** * libculpeo-session: the methods implement the abstract session

    Every public method of [Session] implements the transition system of
    [SessionSpec]. *)

From S2P Require Import Prelude Bytes Decimal Message Serialize Crypto SessionTypes OffsetTracker.
From S2P Require Import AuthRefresh StreamRegistry SessionCodec Session SessionSpec.

Create HintDb session discriminated.
#[export] Hint Constants Opaque : session.

Section refines.
Context {ST : SizeT} {JL : JsonLib} (cfg : SessionConfig).

Abbreviation implements := (SessionSpec.implements cfg).

(** The outcome of a critical section entered in state [s]. *)
Definition implements_from (tok : token) (s : Impl) (r : Impl * proc result) : Prop :=
  ∃ tok', update tok tok' s r.1 ∧ implements tok' r.2.

Lemma implements_locked tok section :
  (∀ e s, config s = cfg → token_ok tok s → implements_from tok s (section e s)) →
  implements tok (Locked section).
Proof. intros H e s Hc Hs. specialize (H e s Hc Hs). by destruct (section e s). Qed.

Lemma implements_send_text hs b k :
  implements no_token k → implements no_token (send_text_frame_noexcept hs b k).
Proof.
  intros Hk. unfold send_text_frame_noexcept.
  destruct (serialize_frame control hs b) as [[fr|e]|]; [|done..].
  case_decide; [done|]. by intros a.
Qed.

Lemma implements_close_transport c r k :
  implements no_token k → implements no_token (close_transport c r k).
Proof. by intros Hk a. Qed.

Lemma implements_callback tok o k :
  (∀ b, implements (next_token tok o (returned b)) (k b)) → implements tok (callback o k).
Proof. intros Hk [b|]; simpl; [apply Hk|done]. Qed.

Lemma implements_notify b o k : implements no_token k → implements no_token (notify b o k).
Proof. destruct b; [|done]. intros. by apply implements_callback. Qed.

Lemma implements_send_init_error c r b k :
  implements no_token k → implements no_token (send_init_error_and_close c r b k).
Proof. intros. by apply implements_send_text, implements_close_transport. Qed.

Lemma implements_send_close c r k :
  implements no_token k → implements no_token (send_close_frame c r k).
Proof. intros. by apply implements_send_text. Qed.

Lemma implements_close_section e :
  implements no_token (Locked (λ _ s, (transition_to_closed_locked s, Ret (Err e)))).
Proof. apply implements_locked. intros _ s _ _. exists no_token. split; [constructor|done]. Qed.

Lemma implements_fail_init c r b e : implements no_token (fail_init c r b e).
Proof. apply implements_send_init_error, implements_close_section. Qed.

Lemma implements_fail_established c r e : implements no_token (fail_established c r e).
Proof. by apply implements_send_close, implements_close_transport. Qed.

Lemma implements_fail_then_close c r e : implements no_token (fail_then_close c r e).
Proof. apply implements_send_close, implements_close_transport, implements_close_section. Qed.

Hint Resolve implements_send_text implements_close_transport implements_notify
  implements_send_init_error implements_send_close implements_fail_init
  implements_fail_established implements_fail_then_close : session.
Hint Constructors update : session.
Hint Extern 1 (implements _ (Ret _)) => exact I : session.
Hint Extern 1 (implements _ Crash) => exact I : session.

(** Sections that do not use the token. *)
Lemma implements_from_intro s s' p :
  update no_token no_token s s' → implements no_token p → implements_from no_token s (s', p).
Proof. intros. by exists no_token. Qed.
Hint Resolve implements_from_intro : session.

(** ** Initialization *)
Lemma with_state_same st s : state s = st → with_state st s = s.
Proof. destruct s. simpl. by intros ->. Qed.

(** The thread has begun the initialization, in this section or before. *)
Definition started (tok : token) (s : Impl) : Prop := tok ≠ no_token → state s = initializing.

Lemma in_init_started tok s : in_init tok s → started tok s.
Proof. destruct tok; [by intros _ []|done|by intros ? _]. Qed.
Hint Resolve in_init_started : session.

Lemma update_init_fail tok s : started tok s → update tok no_token s (with_state initializing s).
Proof.
  destruct tok; [constructor|..]; intros Hs; (rewrite with_state_same by (by apply Hs)); constructor.
Qed.

Lemma init_fail_from tok s c r b e :
  started tok s → implements_from tok s (with_state initializing s, fail_init c r b e).
Proof. intros. exists no_token. split; [by apply update_init_fail|apply implements_fail_init]. Qed.

Lemma finalize_from tok s0 s sid version bw r :
  update tok no_token s0 (with_established sid version bw r s) →
  implements_from tok s0 (finalize_established_locked sid version bw r s).
Proof.
  intros Hu. unfold finalize_established_locked. cbv zeta.
  destruct (build_init_ack_body _ _ _) as [b|]; exists no_token; (split; [exact Hu|]); [|done].
  by apply implements_send_text.
Qed.

Lemma parse_declaration_range j d :
  parse_declaration j = Ok d → (0 ≤ sd_resume_offset d ≤ uint64_max)%Z.
Proof.
  unfold parse_declaration. intros (ct&_&(ty&_&Hd)%expected_bind_Ok)%expected_bind_Ok.
  destruct (parse_stream_direction ty); [|done].
  apply expected_bind_Ok in Hd as (pu&_&(hi&_&(ro&Hro&Hd)%expected_bind_Ok)%expected_bind_Ok).
  destruct (negb _); [done|]. apply expected_bind_Ok in Hd as (ot&_&Hd).
  destruct (parse_offset_type ot); [|done]. injection Hd as <-. simpl.
  unfold optional_field, try_json in Hro. destruct (json_contains _ _); simplify_eq/=; [|by unfold uint64_max].
  destruct (json_at j _ ≫= _) as [n|] eqn:Hn; simplify_eq/=.
  apply bind_Some in Hn as (v&_&Hv). by apply json_uint64_range in Hv.
Qed.

Lemma parse_streams_range j ds :
  parse_streams j = Ok ds → ∀ d, d ∈ ds → (0 ≤ sd_resume_offset d ≤ uint64_max)%Z.
Proof.
  unfold parse_streams. intros (arr&_&Hds)%expected_bind_Ok. revert ds Hds.
  induction (json_items arr) as [|j' js IH]; intros ds; simpl; [intros [= <-]; set_solver|].
  intros (d&Hd%parse_declaration_range&(ds'&Hds'&[= <-])%expected_bind_Ok)%expected_bind_Ok.
  intros d' [->|Hin]%elem_of_cons; [done|]. by eapply IH.
Qed.

Lemma handle_resumption_from tok s0 sid bw ds version e :
  in_init tok s0 → version ∈ supported_versions (config s0) →
  (∀ d, d ∈ ds → 0 ≤ sd_resume_offset d ≤ uint64_max)%Z →
  implements_from tok s0
    (handle_resumption_locked sid bw ds version e (with_state initializing s0)).
Proof.
  intros Hin Hv Hds. unfold handle_resumption_locked. simpl.
  destruct (prior_state s0) as [ps|] eqn:Hps; [|by eauto using init_fail_from with session].
  case_decide as Hsid; [by eauto using init_fail_from with session|].
  destruct (session_expired_at ps (steady_now e)) eqn:Hexp; [by eauto using init_fail_from with session|].
  case_decide as Hlen; [by eauto using init_fail_from with session|].
  destruct (restore_streams ds (ps_streams ps)) as [rs|reason] eqn:Hrs; [|by eauto using init_fail_from with session].
  apply finalize_from. eapply (u_resume tok s0); [done..|].
  exists ps, ds, rs. split_and!; (done || lia).
Qed.

Lemma init_fresh_from tok s0 bw ds version e :
  in_init tok s0 → version ∈ supported_versions (config s0) →
  implements_from tok s0 (init_fresh bw ds version e (with_state initializing s0)).
Proof.
  intros Hin Hv. unfold init_fresh. simpl.
  destruct (validate_declarations ds (max_streams (config s0))) as [[]|err] eqn:Hval;
    [|by eauto using init_fail_from with session].
  apply validate_declarations_Ok in Hval.
  destruct (register_from_declarations (random e) ds (registry s0)) as [[res reg] rd] eqn:Hreg.
  assert (update tok no_token s0 (with_registry reg (with_state initializing s0))) as Hfail.
  { pose proof (u_register_failed tok s0 (random e) ds Hin) as Hu. by rewrite Hreg in Hu. }
  destruct res as [[]|err]; [|by exists no_token; split; [|apply implements_fail_init]].
  destruct (generate_csprng_id rd 16) as [[sid|err] rd'] eqn:Hid; simpl;
    [|by exists no_token; split; [|apply implements_fail_init]].
  apply finalize_from. eapply (u_establish tok s0); [done..| |by rewrite Hid].
  exists (random e), ds. by rewrite Hreg.
Qed.

Lemma init_after_auth_from tok s0 f j version ok e :
  started tok s0 → (ok = true → in_init tok s0) → version ∈ supported_versions (config s0) →
  implements_from tok s0 (init_after_auth f j version ok e (with_state initializing s0)).
Proof.
  intros Hst Hin Hv. unfold init_after_auth. destruct ok; simpl; [|by eauto using init_fail_from with session].
  specialize (Hin eq_refl).
  destruct (parse_streams j) as [ds|[[c r] err]] eqn:Hds; [|by eauto using init_fail_from with session].
  destruct (chars (session_id f)) as [sid|].
  - apply handle_resumption_from; [done..|]. by eapply parse_streams_range.
  - by apply init_fresh_from.
Qed.

Lemma handle_init_from f e s :
  config s = cfg → implements_from no_token s (handle_init f e s).
Proof.
  intros Hcfg. unfold handle_init. destruct (decide (state s ≠ uninitialized)) as [Hne|Heq].
  { apply implements_from_intro; [constructor|apply implements_fail_init]. }
  assert (state s = uninitialized) as Hun by (by apply dec_stable in Heq).
  assert (started no_token s) as Hst by (by intros []).
  cbv zeta. destruct (json_parse (sv_chars (body f))) as [j|]; [|by apply init_fail_from].
  destruct (json_at j (str "version") ≫= json_get_string) as [version|]; [|by apply init_fail_from].
  simpl. destruct (bool_decide (version ∈ supported_versions (config s))) eqn:Hv; simpl.
  2:{ destruct (build_init_error_body _); [by apply init_fail_from|].
      exists no_token. split; [by apply update_init_fail|done]. }
  apply bool_decide_eq_true in Hv. destruct (has_auth_validate (callbacks s)) eqn:Hav.
  2:{ by apply init_after_auth_from. }
  exists awaiting. split; [by constructor|]. apply implements_callback. intros ok.
  apply implements_locked. intros e' s' Hcfg' Htok. case_decide as Hc.
  { exists no_token. split; [constructor|done]. }
  assert (state s' = initializing) as Hs' by (destruct Htok; [by destruct ok|done..]).
  rewrite <-(with_state_same _ _ Hs') at 2.
  apply init_after_auth_from; [by intros _|by intros ->|congruence].
Qed.

(** ** The other handlers *)
Lemma handle_ping_from f e s : implements_from no_token s (handle_ping f e s).
Proof.
  unfold handle_ping. destruct (decide (state s ≠ established)) as [|He]; [by eauto with session|].
  apply dec_stable in He.
  destruct (ping_window _ _ _ _) as [[start cnt] ok] eqn:Hw. cbv zeta.
  destruct ok; simpl; eauto with session.
Qed.

Lemma handle_pong_from f e s : implements_from no_token s (handle_pong f e s).
Proof.
  unfold handle_pong. destruct (decide (state s ≠ established)) as [|He]; [by eauto with session|].
  apply dec_stable in He. destruct (pending_ping_nonce s); [|by eauto with session]. cbv zeta.
  assert (∀ x : Z, None = Some x → 0 ≤ x ≤ uint64_max)%Z by done.
  destruct (json_parse _ ≫= _); [case_decide|]; eauto 6 with session.
Qed.

Lemma auth_response_verdict_implements ok : implements no_token (auth_response_verdict ok).
Proof.
  destruct ok; [done|]. apply implements_locked. intros e s _ _. case_decide; eauto with session.
Qed.

Lemma handle_auth_response_from f e s : implements_from no_token s (handle_auth_response f e s).
Proof.
  unfold handle_auth_response.
  destruct (decide (state s ≠ established)) as [|He]; [by eauto with session|].
  apply dec_stable in He. destruct (pending (auth_mgr s)) eqn:Hp; simpl; [|by eauto with session].
  destruct (json_parse _ ≫= _) as [hex|]; [|by eauto with session].
  pose proof (u_validate s hex (steady_now e) He Hp) as Hu.
  destruct (validate_and_consume _ _ _ _) as [[[]|err] m]; simpl in Hu; cbv zeta;
    [|by eauto with session].
  destruct (has_auth_response _); apply implements_from_intro; try done.
  apply implements_callback, auth_response_verdict_implements.
Qed.

Lemma clear_clear m : clear (clear m) = clear m.
Proof. destruct m. unfold clear, secure_zero. simpl. by rewrite length_replicate. Qed.

Lemma close_locked_from c r s : implements_from no_token s (close_locked c r s).
Proof.
  unfold close_locked. case_decide; [by eauto with session|]. cbv zeta.
  apply implements_from_intro; [|by eauto with session].
  assert (transition_to_closed_locked (with_auth (clear (auth_mgr s)) s) =
    transition_to_closed_locked s) as ->; [|constructor].
  unfold transition_to_closed_locked. simpl. by rewrite clear_clear.
Qed.

Lemma check_media_Ok f st st' ts :
  check_media f st = Ok (st', ts) → advance_offset st (Z.of_nat (sv_size (body f))) = Ok st'.
Proof. unfold check_media. intros. repeat case_match; by simplify_eq. Qed.

Lemma handle_media_from f s : state s = established → implements_from no_token s (handle_media f s).
Proof.
  intros He. unfold handle_media. cbv zeta. destruct (chars (stream_id f)) as [id|]; [|by eauto with session].
  destruct (validate_client_send id (registry s)); [|by eauto with session].
  destruct (find_stream id (registry s)) as [st|] eqn:Hf; [|by eauto with session].
  destruct (check_media f st) as [[st' ts]|[r err]] eqn:Hc; [|by eauto with session].
  apply check_media_Ok in Hc. apply implements_from_intro; [|by eauto with session].
  eapply u_media; [done..| |done]. lia.
Qed.

(** ** All public methods *)
Lemma process_control_implements f : implements no_token (process_control_frame f).
Proof.
  unfold process_control_frame. case_decide; [done|]. destruct (chars (event f)) as [ev|].
  2:{ apply implements_locked. intros e s _ _. destruct (state s); eauto with session. }
  destruct (is_valid_event_name ev); simpl negb; cbn iota; apply implements_locked; intros e s Hc _.
  2:{ apply implements_from_intro; [constructor|]. case_decide; eauto with session. }
  case_decide; [by eauto with session|].
  case_decide; [by apply handle_init_from|].
  case_decide; [apply handle_ping_from|].
  case_decide; [apply handle_pong_from|].
  case_decide; [apply handle_auth_response_from|].
  case_decide; [apply close_locked_from|]. eauto with session.
Qed.

Lemma process_media_implements f : implements no_token (process_media_frame f).
Proof.
  unfold process_media_frame. case_decide; [done|]. apply implements_locked. intros e s _ _.
  destruct (decide (state s ≠ established)) as [|He]; [case_decide; eauto with session|].
  apply handle_media_from. by apply dec_stable in He.
Qed.

Lemma send_media_implements id payload ts : implements no_token (send_media id payload ts).
Proof.
  apply implements_locked. intros e s _ _.
  destruct (decide (state s ≠ established)) as [|He]; [by eauto with session|].
  apply dec_stable in He. destruct (validate_server_send id (registry s)); [|by eauto with session].
  destruct (find_stream id (registry s)) as [st|] eqn:Hf; [|by eauto with session].
  destruct (advance_offset st _) as [st'|] eqn:Ha; [|by eauto with session].
  apply implements_from_intro; [eapply u_media; [done..| |done]; lia|].
  destruct (serialize_frame _ _ _) as [[fr|]|]; [|done..]. by intros [].
Qed.

Lemma send_auth_refresh_implements : implements no_token send_auth_refresh.
Proof.
  apply implements_locked. intros e s _ _.
  destruct (decide (state s ≠ established)) as [|He]; [by eauto with session|].
  apply dec_stable in He. pose proof (u_challenge s (random e) (steady_now e) He) as Hu.
  destruct (generate _ _ _ _) as [[[hex|err] m] rd]; simpl in Hu; cbv zeta; [|by eauto with session].
  destruct (build_auth_refresh_body hex); eauto with session.
Qed.

Lemma send_ping_implements : implements no_token send_ping.
Proof.
  apply implements_locked. intros e s _ _.
  destruct (decide (state s ≠ established)) as [|He]; [by eauto with session|].
  apply dec_stable in He. destruct (generate_u64_nonce _) as [nonce rd] eqn:Hn. cbv zeta.
  assert (∀ x : Z, Some nonce = Some x → 0 ≤ x ≤ uint64_max)%Z.
  { intros x [= <-]. apply generate_u64_nonce_spec in Hn. destruct (secure_random _ _).1.1; [lia|by subst]. }
  eauto 6 with session.
Qed.

Lemma api_implements c : implements no_token (api c).
Proof.
  destruct c as [f|f|id payload ts| | |c r]; simpl api.
  - apply process_control_implements.
  - apply process_media_implements.
  - apply send_media_implements.
  - apply send_auth_refresh_implements.
  - apply send_ping_implements.
  - apply implements_locked. intros. apply close_locked_from.
Qed.
End refines.
