(* ===== verification/SessionSafety.v ===== *)
(** * libculpeo-session: concurrent executions

    Threads call the public methods of one session at any time; a step is one
    critical section or one call made without the mutex.  By [api_implements] the
    critical sections are rules of the abstract session, so that properties of all
    executions follow from properties of the rules. *)

From S2P Require Import Prelude Bytes Message SessionTypes OffsetTracker AuthRefresh.
From S2P Require Import StreamRegistry SessionCodec Session SessionSpec SessionRefines.

(** ** Executions *)
Record world := mkWorld {
  w_impl : Impl;
  w_threads : list (proc result);
  w_history : list (op * answer);     (* latest first *)
}.

Section executions.
Context {ST : SizeT} {JL : JsonLib}.

Inductive step : world → world → Prop :=
| step_call c w :
    step w (mkWorld (w_impl w) (w_threads w ++ [api c]) (w_history w))
| step_locked i e section s' p' w :
    w_threads w !! i = Some (Locked section) →
    section e (w_impl w) = (s', p') →
    step w (mkWorld s' (<[i := p']> (w_threads w)) (w_history w))
| step_do i o k a w :
    w_threads w !! i = Some (Do o k) →
    step w (mkWorld (w_impl w) (<[i := k a]> (w_threads w)) ((o, a) :: w_history w)).

Definition reachable (s0 : Impl) (w : world) : Prop := rtc step (mkWorld s0 [] []) w.

(** The application has accepted a client's credentials. *)
Definition credentials_accepted (h : list (op * answer)) : Prop :=
  ∃ bearer, (on_auth_validate bearer, returned true) ∈ h.

(** ** The invariant of executions

    [toks] gives each thread's token. *)
Record world_inv (toks : list token) (w : world) : Prop := {
  wi_config : config_ok (config (w_impl w));
  wi_prior : prior_ok (w_impl w);
  wi_session : session_inv (w_impl w);
  wi_threads : Forall2 (implements (config (w_impl w))) toks (w_threads w);
  wi_unique i j t u : toks !! i = Some t → toks !! j = Some u →
    t ≠ no_token → u ≠ no_token → i = j;
  wi_token t : t ∈ toks → token_ok t (w_impl w);
  wi_started : state (w_impl w) = uninitialized → ∀ t, t ∈ toks → t = no_token;
  wi_history : authorized ∈ toks ∨ (state (w_impl w) = established ∧
      has_auth_validate (callbacks (w_impl w)) = true) →
    credentials_accepted (w_history w);
}.

(** ** One step *)
Lemma world_inv_call toks w c :
  world_inv toks w →
  world_inv (toks ++ [no_token]) (mkWorld (w_impl w) (w_threads w ++ [api c]) (w_history w)).
Proof.
  intros [Hc Hp Hs Hts Hu Htok Hst Hh]. split; simpl; try done.
  - apply Forall2_app; [done|]. constructor; [apply api_implements|done].
  - intros i j t u Hi Hj Ht Hu'.
    rewrite lookup_app_Some in Hi. rewrite lookup_app_Some in Hj.
    destruct Hi as [Hi|[_ [_ ?]%list_lookup_singleton_Some]]; [|congruence].
    destruct Hj as [Hj|[_ [_ ?]%list_lookup_singleton_Some]]; [|congruence].
    by eapply Hu.
  - intros t. rewrite elem_of_app, list_elem_of_singleton. intros [?| ->]; [by apply Htok|by intros []].
  - intros He t. rewrite elem_of_app, list_elem_of_singleton. naive_solver.
  - rewrite elem_of_app, list_elem_of_singleton. naive_solver.
Qed.

Lemma elem_of_insert_token (toks : list token) i t u :
  u ∈ <[i := t]> toks → u = t ∨ ∃ j, j ≠ i ∧ toks !! j = Some u.
Proof.
  intros [j Hj]%list_elem_of_lookup. destruct (decide (i = j)) as [<-|Hne].
  - left. destruct (decide (i < length toks)) as [Hlt|Hge].
    + rewrite list_lookup_insert_eq in Hj by done. by simplify_eq.
    + rewrite list_insert_ge in Hj by lia. apply lookup_lt_Some in Hj. lia.
  - right. exists j. rewrite list_lookup_insert_ne in Hj by done. done.
Qed.

Lemma world_inv_update toks w i t t' p' s' :
  world_inv toks w → toks !! i = Some t → update t t' (w_impl w) s' →
  implements (config (w_impl w)) t' p' →
  world_inv (<[i := t']> toks) (mkWorld s' (<[i := p']> (w_threads w)) (w_history w)).
Proof.
  intros [Hc Hp Hs Hts Hu Htok Hst Hh] Hi Hup Hp'.
  assert (token_ok t (w_impl w)) as Ht by (apply Htok; by eapply list_elem_of_lookup_2).
  destruct (update_setup _ _ _ _ Hup) as (Hcb&Hcfg&Hpr).
  destruct (update_token _ _ _ _ Ht Hup) as (Htake&Hun&Hest).
  assert (∀ j u, j ≠ i → toks !! j = Some u → u ≠ no_token → t = no_token ∧ t' = no_token ∧
    state s' ≠ uninitialized ∧ state s' ≠ established) as Hother.
  { intros j u Hji Hj Hne. assert (t = no_token) as ->.
    { destruct (decide (t = no_token)); [done|]. by destruct Hji; eapply Hu. }
    assert (state (w_impl w) ≠ uninitialized ∧ state (w_impl w) ≠ established) as [??].
    { destruct (Htok u); [by eapply list_elem_of_lookup_2|done|split; congruence..]. }
    split_and!; [done| |naive_solver|]; [|intros He; destruct (Hest He) as (_&[?|[??]]); done].
    destruct (decide (t' = no_token)) as [|Hn]; [done|]. destruct (Htake Hn) as (_&_&?&_). done. }
  split; simpl.
  - by rewrite Hcfg.
  - intros ps. rewrite Hpr. apply Hp.
  - by eapply update_inv.
  - rewrite Hcfg. by apply Forall2_insert.
  - intros j1 j2 u1 u2 H1 H2 Hn1 Hn2. apply list_lookup_insert_Some in H1, H2.
    destruct H1 as [(<-&<-&_)|[Hj1 H1]], H2 as [(<-&<-&_)|[Hj2 H2]]; try done.
    + by destruct (Hother j2 u2) as (_&?&_).
    + by destruct (Hother j1 u1) as (_&?&_).
    + by eapply Hu.
  - intros u [->|(j&Hj&Hu')]%elem_of_insert_token.
    + intros Hn. left. by destruct (Htake Hn) as (_&_&_&?).
    + intros Hn. destruct (Hother j u) as (_&_&?&?); try done. destruct (state s'); naive_solver.
  - intros He u [->|(j&Hj&Hu')]%elem_of_insert_token; [by apply Hun|].
    destruct (decide (u = no_token)); [done|]. by destruct (Hother j u) as (_&_&?&_).
  - intros [[Ha|(j&Hj&Ha)]%elem_of_insert_token|[He Hv]].
    + symmetry in Ha. destruct (Htake ltac:(congruence)). congruence.
    + apply Hh. left. by eapply list_elem_of_lookup_2.
    + apply Hh. destruct (Hest He) as (_&[?|Hin]); [right; by rewrite <-Hcb|].
      destruct t; [destruct Hin; congruence|done|left; by eapply list_elem_of_lookup_2].
Qed.

Lemma world_inv_do toks w i o k a :
  world_inv toks w → w_threads w !! i = Some (Do o k) →
  ∃ t, toks !! i = Some t ∧ world_inv (<[i := next_token t o a]> toks)
    (mkWorld (w_impl w) (<[i := k a]> (w_threads w)) ((o, a) :: w_history w)).
Proof.
  intros [Hc Hp Hs Hts Hu Htok Hst Hh] Hi.
  destruct (Forall2_lookup_r _ _ _ _ _ Hts Hi) as (t&Ht&Himp). specialize (Himp a).
  assert (next_token t o a ≠ no_token → t ≠ no_token) as Hnext by (by destruct t).
  exists t. split; [done|]. split; simpl; try done.
  - by apply Forall2_insert.
  - intros j1 j2 u1 u2 H1 H2 Hn1 Hn2. apply list_lookup_insert_Some in H1, H2.
    destruct H1 as [(<-&<-&_)|[Hj1 H1]], H2 as [(<-&<-&_)|[Hj2 H2]]; try done; eapply Hu; eauto.
  - intros u [->|(j&Hj&Hu')]%elem_of_insert_token Hn;
      (eapply Htok; [by eapply list_elem_of_lookup_2|auto]).
  - intros He u [->|(j&Hj&Hu')]%elem_of_insert_token.
    + rewrite (Hst He t) by (by eapply list_elem_of_lookup_2). done.
    + apply Hst; [done|]. by eapply list_elem_of_lookup_2.
  - intros Hor. assert (credentials_accepted (w_history w) ∨
      (o, a) = (o, returned true) ∧ ∃ b, o = on_auth_validate b) as [[b Hb]|[[= ->] [b ->]]].
    + destruct Hor as [[Ha|(j&Hj&Ha)]%elem_of_insert_token|Hest]; [|left; apply Hh..].
      * destruct t, o, a as [[]|]; try done; eauto; left; apply Hh; left; by eapply list_elem_of_lookup_2.
      * left. by eapply list_elem_of_lookup_2.
      * by right.
    + exists b. by right.
    + exists b. by left.
Qed.

(** Initialization is over: no thread can establish the session any more. *)
Definition settled (toks : list token) (w : world) : Prop :=
  state (w_impl w) ≠ uninitialized ∧ ∀ t, t ∈ toks → t = no_token.

Lemma established_settled toks w :
  world_inv toks w → state (w_impl w) = established → settled toks w.
Proof.
  intros Hw He. split; [congruence|]. intros t Ht. destruct (decide (t = no_token)) as [|Hn]; [done|].
  destruct (wi_token _ _ Hw t Ht Hn); congruence.
Qed.

Lemma world_inv_step toks w w' :
  world_inv toks w → step w w' →
  ∃ toks', world_inv toks' w' ∧ same_setup (w_impl w) (w_impl w') ∧
    (settled toks w → settled toks' w' ∧ frozen (w_impl w) (w_impl w')).
Proof.
  intros Hw Hstep. destruct Hstep as [c w|i e section s' p' w Hi Hs|i o k a w Hi].
  - eexists. split; [by apply world_inv_call|]. split; [done|]. intros [Hst Hno]. split; [|done]. split; [done|].
    intros t. rewrite elem_of_app, list_elem_of_singleton. naive_solver.
  - destruct (Forall2_lookup_r _ _ _ _ _ (wi_threads _ _ Hw) Hi) as (t&Ht&Himp).
    assert (t ∈ toks) as Hin by (by eapply list_elem_of_lookup_2).
    specialize (Himp e _ eq_refl (wi_token _ _ Hw t Hin)). rewrite Hs in Himp.
    destruct Himp as (t'&Hup&Hp'). eexists. split; [by eapply world_inv_update|].
    split; [by eapply update_setup|]. intros [Hst Hno]. rewrite (Hno t Hin) in Hup.
    destruct (update_settled _ _ _ (wi_session _ _ Hw) Hst Hup) as (->&Hst'&Hfr).
    split; [|done]. split; [done|].
    intros u [->|(j&_&Hj)]%elem_of_insert_token; [done|]. apply Hno. by eapply list_elem_of_lookup_2.
  - destruct (world_inv_do toks w i o k a Hw Hi) as (t&Hi'&Hw'). eexists. split; [exact Hw'|].
    split; [done|]. intros [Hst Hno]. split; [|done]. split; [done|].
    intros u [->|(j&_&Hj)]%elem_of_insert_token.
    + by rewrite (Hno t) by (by eapply list_elem_of_lookup_2).
    + apply Hno. by eapply list_elem_of_lookup_2.
Qed.

Lemma world_inv_steps toks w w' :
  world_inv toks w → rtc step w w' →
  ∃ toks', world_inv toks' w' ∧ same_setup (w_impl w) (w_impl w') ∧
    (settled toks w → settled toks' w' ∧ frozen (w_impl w) (w_impl w')).
Proof.
  intros Hw Hr. revert toks Hw. induction Hr as [w|w1 w2 w3 Hs _ IH]; intros toks Hw.
  { exists toks. by split. }
  destruct (world_inv_step _ _ _ Hw Hs) as (toks2&Hw2&Hsame2&Hset2).
  destruct (IH _ Hw2) as (toks3&Hw3&Hsame3&Hset3). exists toks3. split; [done|].
  split; [by etrans|].
  intros [Hs2 Hf2]%Hset2. destruct (Hset3 Hs2) as [Hs3 Hf3]. split; [done|]. by etrans.
Qed.

Lemma world_inv_init cb cfg ps :
  config_ok cfg → prior_ok (new_session cb cfg ps) →
  world_inv [] (mkWorld (new_session cb cfg ps) [] []).
Proof.
  intros Hc Hp. split; simpl; try done.
  - destruct Hc. split; simpl; try done; try lia.
  - by intros t ?%not_elem_of_nil.
  - by intros _ t ?%not_elem_of_nil.
  - by intros [?%not_elem_of_nil|[? _]].
Qed.
End executions.
