(* ===== verification/SessionCalls.v ===== *)
(** * libculpeo-session: where the calls of a session come from

    What a public method of [Session] may call on the transport and the application,
    and with which data, whatever other threads do between its critical sections;
    and the executions of [SessionSafety] with the methods that were called. *)

From S2P Require Import Prelude Bytes Message Serialize SessionTypes OffsetTracker AuthRefresh.
From S2P Require Import StreamRegistry SessionCodec Session SessionSafety.

(** ** Processes that keep a property and avoid calls

    [stays I O p]: every critical section of [p] keeps [I], and every call that [p]
    makes satisfies [O]. *)
Fixpoint stays {A} (I : Impl → Prop) (O : op → Prop) (p : proc A) : Prop :=
  match p with
  | Ret _ | Crash => True
  | Do o k => O o ∧ ∀ a, stays I O (k a)
  | Locked section => ∀ e s, I s → match section e s with (s', p') => I s' ∧ stays I O p' end
  end.

Lemma stays_mono {A} I (O O' : op → Prop) (p : proc A) : (∀ o, O o → O' o) → stays I O p → stays I O' p.
Proof.
  intros HO. revert p. fix IH 1. intros [a| |o k|section]; cbn [stays]; [done..| |].
  - intros [Ho Hk]. split; [by apply HO|]. intros a. apply IH, Hk.
  - intros Hs e s Hi. specialize (Hs e s Hi). specialize (IH (section e s).2).
    destruct (section e s) as [s' p']. destruct Hs as [? Hp]. split; [done|]. by apply IH.
Qed.

Section calls.
Context {ST : SizeT} {JL : JsonLib}.

(** ** Provenance *)

(** The events a session sends. *)
Definition sent_events : list bytes :=
  [str "culpeo.init-ack"; str "culpeo.init-error"; str "culpeo.ping"; str "culpeo.pong";
   str "culpeo.auth-refresh"; str "culpeo.close"].

(** A control frame with this event. *)
Definition control_text (frame : bytes) : Prop :=
  ∃ ev hs b, ev ∈ sent_events ∧ serialize_frame control (header (str "Event") ev :: hs) b = Some (Ok frame).

(** The frame that a call of [process_control_frame] was given, by its event. *)
Definition on_event (c : api_call) (ev : bytes) (P : ParsedHeadersView → Prop) : Prop :=
  ∃ f, c = call_control f ∧ chars (event f) = Some ev ∧ P f.

(** The calls that [c] can make. *)
Definition made_by (c : api_call) (o : op) : Prop :=
  match o with
  | send_text frame => control_text frame
  | send_binary frame =>
      ∃ id payload ts offset ct, c = call_send_media id payload ts ∧
        serialize_frame media (media_headers id offset ct ts) payload = Some (Ok frame)
  | transport_close code _ => code ∈ [1000; 1001; 1002; 1008]%Z
  | on_auth_validate token =>
      on_event c (str "culpeo.init") (λ f, token = bearer_token (chars (authorization f)))
  | on_auth_response token =>
      on_event c (str "culpeo.auth-response") (λ f, token = bearer_token (chars (authorization f)))
  | on_media_received stream ts data =>
      ∃ f, c = call_media f ∧ data = sv_chars (body f) ∧
        from_option parse_uint64 (Ok 0%Z) (chars (timestamp f)) = Ok ts ∧
        ∃ before, check_media f before = Ok (stream, ts)
  | on_rtt _ => on_event c (str "culpeo.pong") (λ _, True)
  | on_close code reason =>
      c = call_close code reason ∨
      on_event c (str "culpeo.close") (λ f,
        code = default (str "normal") (chars (code_ f)) ∧
        reason = default (str "Connection closed") (chars (Message.reason f)))
  end.

Abbreviation makes c := (stays (λ _, True) (made_by c)).

(** A section's outcome. *)
Definition makes_from (c : api_call) (r : Impl * proc result) : Prop := makes c r.2.

Lemma makes_locked c (section : Env → Impl → Impl * proc result) :
  (∀ e s, makes_from c (section e s)) → makes c (Locked section).
Proof. intros H e s _. specialize (H e s). by destruct (section e s). Qed.

Lemma makes_send_text c ev hs b (k : proc result) :
  ev ∈ sent_events → makes c k → makes c (send_text_frame_noexcept (header (str "Event") ev :: hs) b k).
Proof.
  intros Hev Hk. unfold send_text_frame_noexcept.
  destruct (serialize_frame control _ b) as [[fr|]|] eqn:Hf; [|done..].
  case_decide; [done|]. split; [by eexists _, _, _|done].
Qed.

Lemma makes_close_transport c code r (k : proc result) : makes c k → makes c (close_transport code r k).
Proof.
  intros Hk. split; [|done]. cbn [made_by]. unfold to_ws_close_code. repeat case_decide; set_solver.
Qed.

Lemma makes_notify c b o (k : proc result) : made_by c o → makes c k → makes c (notify b o k).
Proof. intros Ho Hk. destruct b; [|done]. split; [done|]. by intros []. Qed.

Lemma makes_fail_init c code r b e : makes c (fail_init code r b e).
Proof.
  apply makes_send_text; [unfold sent_events; set_solver|]. apply makes_close_transport. by intros ???.
Qed.

Lemma makes_fail_established c code r e : makes c (fail_established code r e).
Proof. apply makes_send_text; [unfold sent_events; set_solver|]. by apply makes_close_transport. Qed.

Lemma makes_fail_then_close c code r e : makes c (fail_then_close code r e).
Proof.
  apply makes_send_text; [unfold sent_events; set_solver|]. apply makes_close_transport. by intros ???.
Qed.

#[local] Hint Resolve makes_fail_init makes_fail_established makes_fail_then_close : session.
#[local] Hint Extern 1 (makes _ (Ret _)) => exact I : session.
#[local] Hint Extern 1 (makes _ Crash) => exact I : session.
#[local] Hint Extern 2 (makes_from _ (_, _)) => unfold makes_from; cbn [snd] : session.
#[local] Hint Extern 2 (_ ∈ sent_events) => unfold sent_events; set_solver : session.

Lemma makes_finalize c sid v bw r s : makes_from c (finalize_established_locked sid v bw r s).
Proof.
  unfold finalize_established_locked. cbv zeta. destruct (build_init_ack_body _ _ _); [|done].
  apply makes_send_text; auto with session.
Qed.

Lemma makes_after_auth c f j v ok e s : makes_from c (init_after_auth f j v ok e s).
Proof.
  unfold init_after_auth. destruct ok; cbn [negb]; [|auto with session].
  destruct (parse_streams j) as [decls|[[code r] err]]; [|auto with session].
  destruct (chars (session_id f)) as [sid|].
  - unfold handle_resumption_locked. destruct (prior_state s); [|auto with session].
    repeat (case_decide || case_match); auto with session. apply makes_finalize.
  - unfold init_fresh. destruct (validate_declarations _ _); [|auto with session].
    destruct (register_from_declarations _ _ _) as [[[[]|err] reg] rd]; cbv zeta; [|auto with session].
    destruct (generate_csprng_id rd 16).1; [apply makes_finalize|auto with session].
Qed.

Section control.
Context (f : ParsedHeadersView).
Abbreviation c := (call_control f).

Lemma makes_handle_init e s : chars (event f) = Some (str "culpeo.init") → makes_from c (handle_init f e s).
Proof.
  intros Hev. unfold handle_init. case_decide; [auto with session|]. cbv zeta.
  destruct (json_parse _) as [j|]; [|auto with session].
  destruct (json_at _ _ ≫= _) as [v|]; [|auto with session]. destruct (negb _).
  { destruct (build_init_error_body _); auto with session. }
  destruct (has_auth_validate _); [|apply makes_after_auth].
  split; [by exists f|]. intros [ok|]; [|done]. apply makes_locked.
  intros e1 s1. case_decide; [auto with session|apply makes_after_auth].
Qed.

Lemma makes_handle_ping e s : makes_from c (handle_ping f e s).
Proof.
  unfold handle_ping. case_decide; [auto with session|]. destruct (ping_window _ _ _ _) as [[start cnt] ok].
  cbv zeta. destruct ok; cbn [negb]; [|auto with session]. apply makes_send_text; auto with session.
Qed.

Lemma makes_handle_pong e s : chars (event f) = Some (str "culpeo.pong") → makes_from c (handle_pong f e s).
Proof.
  intros Hev. unfold handle_pong. case_decide; [auto with session|].
  destruct (pending_ping_nonce s); [|auto with session]. cbv zeta.
  destruct (json_parse _ ≫= _); [case_decide|]; [|auto with session..]. apply makes_notify; [by exists f|done].
Qed.

Lemma makes_verdict ok : makes c (auth_response_verdict ok).
Proof.
  destruct ok; [done|]. apply makes_locked. intros _ s. case_decide; [done|]. apply makes_fail_established.
Qed.

Lemma makes_handle_auth_response e s :
  chars (event f) = Some (str "culpeo.auth-response") → makes_from c (handle_auth_response f e s).
Proof.
  intros Hev. unfold handle_auth_response. case_decide; [auto with session|].
  destruct (negb _); [auto with session|]. destruct (json_parse _ ≫= _) as [n|]; [|auto with session].
  destruct (validate_and_consume _ _ _ _) as [[[]|err] m]; cbv zeta; [|auto with session].
  cbn [with_auth callbacks]. destruct (has_auth_response _); [|done].
  split; [by exists f|]. intros [ok|]; [apply makes_verdict|done].
Qed.
End control.

Lemma makes_close_locked c code r s : made_by c (on_close code r) → makes_from c (close_locked code r s).
Proof.
  intros Ho. unfold close_locked. case_decide; [auto with session|]. cbv zeta.
  apply makes_send_text; [auto with session|]. apply makes_close_transport. by apply makes_notify.
Qed.

Lemma makes_process_control f : makes (call_control f) (process_control_frame f).
Proof.
  unfold process_control_frame. case_decide; [done|]. destruct (chars (event f)) as [ev|] eqn:Hev.
  2:{ apply makes_locked. intros e s. destruct (state s); auto with session. }
  destruct (is_valid_event_name ev); cbn [negb]; apply makes_locked; intros e s.
  2:{ unfold makes_from. cbn [snd]. case_decide; [auto with session|].
      apply makes_send_text; [auto with session|]. by apply makes_close_transport. }
  case_decide; [auto with session|].
  case_decide; [subst; by apply makes_handle_init|].
  case_decide; [apply makes_handle_ping|].
  case_decide; [subst; by apply makes_handle_pong|].
  case_decide; [subst; by apply makes_handle_auth_response|].
  case_decide; [subst; apply makes_close_locked; right; by exists f|]. done.
Qed.

Lemma makes_process_media f : makes (call_media f) (process_media_frame f).
Proof.
  unfold process_media_frame. case_decide; [done|]. apply makes_locked. intros _ s.
  case_decide; [case_decide; auto with session|]. unfold handle_media. cbv zeta.
  destruct (chars (stream_id f)) as [id|]; [|auto with session].
  destruct (validate_client_send id _); [|auto with session].
  destruct (find_stream id _) as [st|]; [|auto with session].
  destruct (check_media f st) as [[st' ts]|[r err]] eqn:Hc; [|auto with session].
  apply makes_notify; [|done]. exists f. split_and!; [done..| |by exists st].
  unfold check_media in Hc. repeat (case_match; try done). by simplify_eq.
Qed.

Lemma makes_send_media id payload ts : makes (call_send_media id payload ts) (send_media id payload ts).
Proof.
  apply makes_locked. intros _ s. case_decide; [auto with session|].
  destruct (validate_server_send id _); [|auto with session].
  destruct (find_stream id _) as [st|]; [|auto with session].
  destruct (advance_offset st _) as [st'|]; [|auto with session]. unfold makes_from. cbn [snd].
  destruct (serialize_frame media _ _) as [[fr|]|] eqn:Hf; [|done..].
  split; [by eexists _, _, _, _, _|]. by intros [].
Qed.

(** Every public method makes only the calls that come from it. *)
Lemma makes_api c : makes c (api c).
Proof.
  destruct c as [f|f|id payload ts| | |code r]; cbn [api].
  - apply makes_process_control.
  - apply makes_process_media.
  - apply makes_send_media.
  - apply makes_locked. intros e s. case_decide; [done|].
    destruct (generate _ _ _ _) as [[[hex|] m] rd]; cbv zeta; [|done].
    destruct (build_auth_refresh_body _); [|done]. apply makes_send_text; auto with session.
  - apply makes_locked. intros e s. case_decide; [done|]. apply makes_send_text; auto with session.
  - apply makes_locked. intros e s. apply makes_close_locked. by left.
Qed.

(** ** Executions with the calls of the API

    [called s0 cs w]: the session [s0] came to [w] when the calls [cs] were made. *)
Inductive called (s0 : Impl) : list api_call → world → Prop :=
| called_none : called s0 [] (mkWorld s0 [] [])
| called_api cs w c :
    called s0 cs w → called s0 (cs ++ [c]) (mkWorld (w_impl w) (w_threads w ++ [api c]) (w_history w))
| called_step cs w w' :
    called s0 cs w → step w w' → length (w_threads w') = length (w_threads w) → called s0 cs w'.

Lemma reachable_called s0 w : reachable s0 w → ∃ cs, called s0 cs w.
Proof.
  revert w. apply rtc_ind_r; [exists []; constructor|]. intros w1 w2 _ Hs [cs Hc].
  destruct Hs as [c w|i e section s' p' w Hi Hsec|i o k a w Hi].
  - exists (cs ++ [c]). by constructor.
  - exists cs. eapply called_step; [exact Hc|by eapply step_locked|]. cbn. by rewrite length_insert.
  - exists cs. eapply called_step; [exact Hc|by apply step_do|]. cbn. by rewrite length_insert.
Qed.

(** Each thread runs a call of the API, and each call it made comes from one. *)
Lemma called_inv s0 cs w :
  called s0 cs w →
  Forall2 (λ c p, makes c p) cs (w_threads w) ∧ ∀ o a, (o, a) ∈ w_history w → ∃ c, c ∈ cs ∧ made_by c o.
Proof.
  induction 1 as [|cs w c _ [Ht Hh]|cs w w' _ [Ht Hh] Hs Hl]; cbn.
  - split; [constructor|]. by intros o a ?%not_elem_of_nil.
  - split; [apply Forall2_app; [done|]; constructor; [apply makes_api|constructor]|].
    intros o a Hin. destruct (Hh o a Hin) as (c'&?&?). exists c'. set_solver.
  - destruct Hs as [c w|i e section s' p' w Hi Hsec|i o k a w Hi]; cbn in *.
    + rewrite length_app in Hl. cbn in Hl. lia.
    + destruct (Forall2_lookup_r _ _ _ _ _ Ht Hi) as (c&Hc&Hm). specialize (Hm e (w_impl w) I).
      rewrite Hsec in Hm. destruct Hm as [_ Hm]. split; [|done]. rewrite <-(list_insert_id cs i c) by done. by apply Forall2_insert.
    + destruct (Forall2_lookup_r _ _ _ _ _ Ht Hi) as (c&Hc&Ho&Hk).
      split; [rewrite <-(list_insert_id cs i c) by done; by apply Forall2_insert|].
      intros o' a' [[= -> ->]|Hin]%elem_of_cons; [|by eapply Hh]. exists c. split; [|done].
      by eapply list_elem_of_lookup_2.
Qed.
End calls.
