(* ===== verification/SessionDemo.v ===== *)
(** * A concrete JSON library and session

    An instance of [JsonLib] whose values are a small inductive type and whose
    parser knows the bodies of the sample frames; the sample frames and states on
    which the session's theorems are instantiated. *)

From S2P Require Import Prelude Bytes Message Crypto SessionTypes OffsetTracker AuthRefresh.
From S2P Require Import StreamRegistry SessionCodec Session SessionFacts.

#[warnings="-register-all"]
Inductive jvalue :=
| JStr (s : bytes)
| JNum (n : Z)
| JArr (l : list jvalue)
| JObj (fields : list (bytes * jvalue)).

Definition j_at (v : jvalue) (key : bytes) : option jvalue :=
  match v with
  | JObj fields => snd ∘ snd <$> list_find (λ p, p.1 = key) fields
  | _ => None
  end.

Definition j_items (v : jvalue) : list jvalue :=
  match v with JArr l => l | JObj fields => fields.*2 | _ => [v] end.

Definition j_get_num (lo hi : Z) (v : jvalue) : option Z :=
  match v with JNum n => if decide (lo ≤ n ≤ hi)%Z then Some n else None | _ => None end.

Definition j_stream : jvalue :=
  JObj [(str "content_type", JStr (str "audio/opus")); (str "type", JStr (str "duplex"));
        (str "offset_type", JStr (str "message"))].

(** The nonce of the challenge that [demo_env] makes. *)
Definition demo_nonce : bytes :=
  str "0100000002000000030000000400000005000000060000000700000008000000".

(** The parser's table: the bodies of an init, of a pong, of an answer. *)
Definition j_parse (b : bytes) : option jvalue :=
  if decide (b = str "init") then
    Some (JObj [(str "version", JStr (str "0.3")); (str "streams", JArr [j_stream])])
  else if decide (b = str "pong0") then Some (JObj [(str "nonce", JNum 0)])
  else if decide (b = str "answer") then Some (JObj [(str "nonce", JStr demo_nonce)])
  else None.

Lemma j_get_num_range lo hi v n : j_get_num lo hi v = Some n → (lo ≤ n ≤ hi)%Z.
Proof. unfold j_get_num. intros. repeat case_match; by simplify_eq. Qed.

Definition demo_json : JsonLib.
Proof.
  refine {| json := jvalue; json_parse := j_parse; json_at := j_at;
    json_contains v k := bool_decide (is_Some (j_at v k)); json_items := j_items;
    json_get_string v := match v with JStr s => Some s | _ => None end;
    json_get_uint64 := j_get_num 0 uint64_max; json_get_int64 := j_get_num (- 2 ^ 63) (2 ^ 63 - 1);
    json_string := JStr; json_uint := JNum; json_array := JArr; json_object := JObj;
    json_dump v := Some (str "{}") |}.
  - intros v n. apply j_get_num_range.
  - intros v n Hn%j_get_num_range. lia.
Defined.

(** A frame with the given event and body. *)
Definition control_frame (ev bd : bytes) : ParsedHeadersView :=
  set_slot h_event (Some (sv_of ev)) (mkParsed control (sv_of []) (sv_of []) (sv_of bd)
    None None None None None None None None None None).

Definition init_frame : ParsedHeadersView := control_frame (str "culpeo.init") (str "init").

Definition media_frame (id off ct : bytes) (payload : bytes) : ParsedHeadersView :=
  set_slot h_stream_id (Some (sv_of id)) (set_slot h_offset (Some (sv_of off))
    (set_slot h_content_type (Some (sv_of ct)) (mkParsed media (sv_of []) (sv_of []) (sv_of payload)
      None None None None None None None None None None))).

Definition demo_env : Env :=
  {| steady_now := 10000000000; system_now_us := 5;
     random := λ n, Some (Z.of_nat (n + 1)) |}.

Definition failing_env : Env :=
  {| steady_now := 10000000000; system_now_us := 5; random := λ _, None |}.

Definition all_callbacks : SessionCallbacks :=
  {| has_auth_validate := true; has_media_received := true; has_rtt := true; has_close := true;
     has_auth_response := true |}.

Definition start : Impl := new_session all_callbacks default_config None.

Definition yes : op → answer := λ _, returned true.

(** The session after a successful init. *)
Definition established_session : Impl :=
  (run demo_env yes (process_control_frame (ST := lp64) (JL := demo_json) init_frame) start).1.2.

Definition demo_id : bytes := str "0100000002000000".
