(* ===== verification/SessionComponents.v ===== *)
(** * What the parts of libculpeo-session guarantee

    Properties of the offset tracker, the nonce manager, the stream registry and
    the header codecs, each with a concrete instance. *)

From S2P Require Import Prelude Bytes Decimal Crypto SessionTypes OffsetTracker AuthRefresh.
From S2P Require Import StreamRegistry SessionCodec.

(** ** Offsets *)

(** [advance_offset] adds the increment of the stream's offset type (samples
    per channel, bytes, or one) exactly: it fails when the sum does not fit 64
    bits or the increment is undefined, and never wraps around. *)
Theorem advance_offset_exact s n :
  stream_in_range s → (0 ≤ n ≤ uint64_max)%Z →
  advance_offset s n =
    match offset_increment s n with
    | Err e => Err e
    | Ok k => if decide (si_offset s + k ≤ uint64_max)%Z
              then Ok (set_offset s (si_offset s + k)) else Err offset_overflow
    end.
Proof.
  intros Hs [Hn _]. destruct (offset_increment s n) as [k|e] eqn:Hk.
  - by apply advance_offset_iff.
  - unfold advance_offset. by rewrite Hk.
Qed.

(** For a PCM stream the increment is the whole number of samples per channel
    in the payload. *)
Theorem pcm_increment_exact n p :
  pcm_in_range p → (0 < pcm_channels p)%Z → (0 < pcm_bits p)%Z → (pcm_bits p mod 8 = 0)%Z →
  compute_pcm_increment n p = Ok (n / (pcm_channels p * (pcm_bits p / 8)))%Z.
Proof. apply compute_pcm_increment_spec. Qed.

(** ** The auth-refresh nonce *)
Section auth.
Context {ST : SizeT}.

(** A challenge that was issued is answered by echoing its nonce before the
    timeout; the answer is accepted once and leaves no key material behind. *)
Theorem nonce_roundtrip rd now min_s m hex m' rd' now' timeout_s :
  auth_ok m → generate rd now min_s m = (Ok hex, m', rd') →
  (ns_to_s (now' - now) < to_long timeout_s)%Z →
  let '(r, m'') := validate_and_consume hex now' timeout_s m' in
  r = Ok tt ∧ scrubbed m'' ∧
  ∀ hex' now'', (validate_and_consume hex' now'' timeout_s m'').1 = Err nonce_mismatch.
Proof.
  intros Hm Hg Htime. pose proof (generate_ok rd now min_s m Hm) as Hm'. rewrite Hg in Hm'.
  apply generate_Ok in Hg as (_&_&Hp&->&Hi&_). simpl in Hm'.
  assert ((validate_and_consume (bytes_to_hex (nonce m')) now' timeout_s m').1 = Ok tt) as Hok.
  { apply validate_Ok_iff. split_and!; [done| |by apply hex_roundtrip].
    unfold is_expired. rewrite Hp, Hi. simpl. apply bool_decide_eq_false. lia. }
  pose proof (validate_scrubs (bytes_to_hex (nonce m')) now' timeout_s m' Hm' Hp) as Hsc.
  destruct (validate_and_consume _ _ _ _) as [r m'']. simpl in *. split_and!; [done|done|].
  intros hex' now''. unfold validate_and_consume. by destruct Hsc as [-> _].
Qed.

(** A response is accepted exactly when a challenge is outstanding, has not
    timed out, and the response is the hexadecimal form of the nonce; accepted or
    not, the challenge is used up and its bytes are zeroed. *)
Theorem nonce_single_use hex now timeout_s m :
  auth_ok m → pending m = true →
  ((validate_and_consume hex now timeout_s m).1 = Ok tt ↔
     is_expired now timeout_s m = false ∧ hex_to_bytes hex = Some (nonce m)) ∧
  scrubbed (validate_and_consume hex now timeout_s m).2.
Proof.
  intros Hm Hp. split; [|by apply validate_scrubs]. rewrite validate_Ok_iff. naive_solver.
Qed.

(** In every history of challenges, responses and clears, successive
    challenges are at least the minimum interval apart. *)
Theorem challenges_spaced min_interval timeout os :
  chain (spaced min_interval) 0 (auth_run min_interval timeout initial_auth os).
Proof. apply (auth_run_spaced min_interval timeout os initial_auth). Qed.
End auth.

(** ** The registry *)

(** [validate_declarations] accepts exactly the declarations the protocol
    allows: at least one and at most [max_streams], each with a content type and
    an offset type, and any two of the same direction with distinct, non-empty
    purposes. *)
Theorem validate_declarations_exact decls n :
  validate_declarations decls n = Ok tt ↔ declarations_ok decls n.
Proof. apply validate_declarations_Ok. Qed.

(** A successful registration assigns one identifier per declaration; when
    they are distinct, the registry holds exactly the declared streams, each found
    under its identifier, with offset zero. *)
Theorem registration_complete rd decls r r' rd' :
  register_from_declarations rd decls r = (Ok tt, r', rd') →
  ∃ ids, length ids = length decls ∧
    (NoDup ids → snapshot r' ≡ₚ zip_with stream_of_declaration ids decls ∧
       ∀ i id d, ids !! i = Some id → decls !! i = Some d →
         find_stream id r' = Some (stream_of_declaration id d)).
Proof.
  intros Hreg. pose proof (register_from_declarations_ok rd decls r) as Hok. rewrite Hreg in Hok.
  unfold register_from_declarations in Hreg.
  destruct (register_loop rd decls ∅) as [[res m] rd1] eqn:Hl. injection Hreg as -> <- ->.
  apply register_loop_ids in Hl as (ids&Hlen&->). exists ids. split; [done|]. intros Hnd.
  assert (snapshot (mkRegistry (max_streams_ r) (foldl (λ m p, emplace p.1
      (stream_of_declaration p.1 p.2) m) ∅ (zip ids decls))) ≡ₚ
    zip_with stream_of_declaration ids decls) as Hperm.
  { unfold snapshot. simpl. rewrite emplace_all_map by (done || intros; apply lookup_empty).
    by rewrite map_to_list_empty, app_nil_r. }
  split; [done|]. intros i id d Hi Hd.
  assert (stream_of_declaration id d ∈ snapshot (mkRegistry (max_streams_ r)
    (foldl (λ m p, emplace p.1 (stream_of_declaration p.1 p.2) m) ∅ (zip ids decls)))) as Hin.
  { rewrite Hperm. apply list_elem_of_lookup. exists i. rewrite lookup_zip_with, Hi. simpl. by rewrite Hd. }
  by apply elem_of_snapshot in Hin.
Qed.

(** ** Header values and names *)

(** [parse_uint64] accepts exactly the canonical decimal numerals of 64-bit
    values, and returns their value. *)
Theorem parse_uint64_exact s n :
  parse_uint64 s = Ok n ↔ canonical s ∧ dec_value s = n ∧ (n ≤ uint64_max)%Z.
Proof. apply parse_uint64_Ok. Qed.

(** An event name is valid exactly when it has at least two dot-separated
    segments, none of them empty, and no white space at either end. *)
Theorem event_name_exact name :
  is_valid_event_name name = true ↔
  2 ≤ length (dot_split name) ∧ ([] ∉ dot_split name) ∧ trimmed name.
Proof. apply is_valid_event_name_spec. Qed.

(** Content types match when types agree up to case and the parameters are
    the same up to order and the case of names, provided that the declared
    parameters are distinct. *)
Theorem content_type_matches_perm d r dts dps rts rps :
  ct_parse d = Some (dts, dps) → ct_parse r = Some (rts, rps) → NoDup (norm <$> dps) →
  content_type_matches d r = true ↔ lower dts = lower rts ∧ (norm <$> dps) ≡ₚ (norm <$> rps).
Proof.
  intros Hd Hr Hnd. rewrite content_type_matches_spec, Hd, Hr. split.
  - intros (?&?&?&?&[= <- <-]&[= <- <-]&Hts&Hlen&Hsub). split; [done|].
    apply submseteq_length_Permutation; [by apply NoDup_submseteq|].
    by rewrite !length_fmap, Hlen.
  - intros [Hts Hp]. exists dts, dps, rts, rps. split_and!; [done..| |].
    + by rewrite <-(length_fmap norm dps), Hp, length_fmap.
    + intros p Hin. by rewrite <-Hp.
Qed.

(** With a repeated parameter in the declaration the comparison accepts a
    frame whose parameters differ, and it is not symmetric. *)
Theorem content_type_matches_duplicates :
  content_type_matches (str "audio/x;a=1;a=1") (str "audio/x;a=1;b=2") = true ∧
  content_type_matches (str "audio/x;a=1;b=2") (str "audio/x;a=1;a=1") = false.
Proof. split; by vm_compute. Qed.

(** ** Instances *)
Definition demo_decl : StreamDeclaration :=
  {| sd_content_type := str "audio/pcm;rate=16000;channels=1;bits=16"; sd_direction := input;
     sd_purpose := str "mic"; sd_hint_id := []; sd_resume_offset := 0;
     sd_has_resume_offset := false; sd_offset_type := Some offset_time |}.

Definition demo_stream : StreamInfo := stream_of_declaration (str "s1") demo_decl.

(** A random source that counts. *)
Definition counting : entropy := λ n, Some (Z.of_nat (n + 1)).

Lemma advance_offset_exact_witness : advance_offset demo_stream 640 = Ok (set_offset demo_stream 320).
Proof.
  rewrite (advance_offset_exact demo_stream 640); [by vm_compute| |done].
  apply stream_of_declaration_in_range.
Defined.

Lemma pcm_increment_exact_witness : compute_pcm_increment 1920 (mkPcm 48000 2 24) = Ok 320%Z.
Proof. apply (pcm_increment_exact 1920 (mkPcm 48000 2 24)); [split_and!|..]; done. Defined.

Lemma nonce_roundtrip_witness :
  (validate_and_consume (ST := lp64) (default [] (match (generate (ST := lp64) counting 1000 30 initial_auth).1.1
     with Ok hex => Some hex | Err _ => None end)) 2000000000 30
     (generate (ST := lp64) counting 1000 30 initial_auth).1.2).1 = Ok tt.
Proof.
  destruct (generate (ST := lp64) counting 1000 30 initial_auth) as [[[hex|err] m'] rd'] eqn:Hg;
    [|by vm_compute in Hg].
  pose proof (nonce_roundtrip (ST := lp64) counting 1000 30 initial_auth hex m' rd' 2000000000 30
    eq_refl Hg eq_refl) as H. simpl.
  destruct (validate_and_consume hex 2000000000 30 m') as [r m'']. exact (proj1 H).
Defined.

Lemma nonce_single_use_witness :
  scrubbed (validate_and_consume (ST := lp64) (str "00") 5 30
    (mkAuth (replicate 32 x41) true 1 1)).2.
Proof. apply (nonce_single_use (ST := lp64) (str "00") 5 30 (mkAuth (replicate 32 x41) true 1 1)); done. Defined.

Lemma registration_complete_witness :
  ∃ ids, length ids = 2 ∧ (NoDup ids →
    snapshot (register_from_declarations counting [demo_decl; demo_decl] (new_registry 16)).1.2 ≡ₚ
      zip_with stream_of_declaration ids [demo_decl; demo_decl]).
Proof.
  destruct (register_from_declarations counting [demo_decl; demo_decl] (new_registry 16))
    as [[res r'] rd'] eqn:Hr.
  assert (res = Ok tt) as ->.
  { apply (f_equal (λ x, x.1.1)) in Hr. vm_compute in Hr. by symmetry. }
  destruct (registration_complete _ _ _ _ _ Hr) as (ids&Hlen&H). exists ids.
  split; [exact Hlen|]. intros Hnd. exact (proj1 (H Hnd)).
Defined.

Lemma content_type_matches_perm_witness :
  content_type_matches (str "Audio/PCM; rate=8000;bits=16") (str "audio/pcm;BITS=16;Rate=8000") = true.
Proof.
  apply (content_type_matches_perm _ _ (str "Audio/PCM") [(str "rate", str "8000"); (str "bits", str "16")]
    (str "audio/pcm") [(str "BITS", str "16"); (str "Rate", str "8000")]).
  - by vm_compute.
  - by vm_compute.
  - by_decide.
  - split; [by vm_compute|]. apply Permutation_swap.
Defined.
