(* ===== verification/SessionOutcomes.v ===== *)
(** * libculpeo-session: the outcome of a call

    What [culpeo.init], [culpeo.auth-response] and [close] lead to when the call
    runs by itself: on every branch, the result, the state, and the calls to the
    transport and the application. *)

From S2P Require Import Prelude Bytes Message ParseFacts Serialize Codec Crypto SessionTypes OffsetTracker.
From S2P Require Import AuthRefresh StreamRegistry SessionCodec Session SessionFacts SessionDemo.

Section outcomes.
Context {ST : SizeT} {JL : JsonLib}.

Abbreviation outcome := (option result * Impl * list op)%type.

(** At most one control frame. *)
Definition one_frame (calls : list op) : Prop := calls = [] ∨ ∃ fr, calls = [send_text fr].

(** The peer is told and the connection closed; the process may crash when the
    frame cannot be built, which leaves the session as it is. *)
Definition refused (s : Impl) (x : outcome) : Prop :=
  match x with
  | (Some (Ok _), _, _) => False
  | (Some (Err _), s', calls) =>
      s' = transition_to_closed_locked s ∧
      ∃ frames code reason, one_frame frames ∧
        calls = frames ++ [transport_close (to_ws_close_code code) reason]
  | (None, s', calls) => s' = s ∧ calls = []
  end.

Definition accepted (x : outcome) : bool := match x with (Some (Ok _), _, _) => true | _ => false end.

Lemma refused_rejected s x : refused s x → accepted x = false.
Proof. by destruct x as [[[[]|] ?] ?]. Qed.

Lemma run_send_text env reply hs b k s :
  run env reply (send_text_frame_noexcept hs b k) s = (None, s, []) ∨
  ∃ frames, one_frame frames ∧
    run env reply (send_text_frame_noexcept hs b k) s =
      (let '(r, s', calls) := run env reply k s in (r, s', frames ++ calls)).
Proof.
  unfold send_text_frame_noexcept. destruct (serialize_frame control hs b) as [[fr|e]|]; [|right|by left].
  - right. case_decide.
    + exists []. split; [by left|]. by destruct (run env reply k s) as [[r s'] calls].
    + exists [send_text fr]. split; [by right; exists fr|]. cbn [run].
      by destruct (run env reply k s) as [[r s'] calls].
  - exists []. split; [by left|]. by destruct (run env reply k s) as [[r s'] calls].
Qed.

Lemma run_refusal env reply hs b code reason e s :
  refused s (run env reply (send_text_frame_noexcept hs b (close_transport code reason
    (Locked (λ _ s, (transition_to_closed_locked s, Ret (Err e)))))) s).
Proof.
  destruct (run_send_text env reply hs b (close_transport code reason
    (Locked (λ _ s, (transition_to_closed_locked s, Ret (Err e))))) s) as [->|(frames&Hf&->)]; [done|].
  cbn. split; [done|]. by exists frames, code, reason.
Qed.

Lemma run_fail_init env reply code reason b e s : refused s (run env reply (fail_init code reason b e) s).
Proof. apply run_refusal. Qed.

Lemma run_fail_then_close env reply code reason e s :
  refused s (run env reply (fail_then_close code reason e) s).
Proof. apply run_refusal. Qed.

(** ** [culpeo.init] *)

(** The conditions under which an init frame establishes the session. *)
Definition registrable (decls : list StreamDeclaration) (env : Env) (s : Impl) : Prop :=
  validate_declarations decls (max_streams (config s)) = Ok tt ∧
  ∃ reg rd sid, register_from_declarations (random env) decls (registry s) = (Ok tt, reg, rd) ∧
    (generate_csprng_id rd 16).1 = Ok sid.

Definition resumable (sid : bytes) (decls : list StreamDeclaration) (env : Env) (s : Impl) : Prop :=
  ∃ ps restored, prior_state s = Some ps ∧ sid = ps_session_id ps ∧
    session_expired_at ps (steady_now env) = false ∧ length decls = length (ps_streams ps) ∧
    restore_streams decls (ps_streams ps) = Ok restored.

Definition auth_calls (f : ParsedHeadersView) (s : Impl) : list op :=
  if has_auth_validate (callbacks s) then [on_auth_validate (bearer_token (chars (authorization f)))] else [].

Definition streams_ok (f : ParsedHeadersView) (j : json) (env : Env) (s : Impl) : Prop :=
  ∃ decls, parse_streams j = Ok decls ∧
    match chars (session_id f) with
    | Some sid => resumable sid decls env s
    | None => registrable decls env s
    end.

Definition init_ok (f : ParsedHeadersView) (env : Env) (reply : op → answer) (s : Impl) : Prop :=
  ∃ j version, json_parse (sv_chars (body f)) = Some j ∧
    json_at j (str "version") ≫= json_get_string = Some version ∧
    version ∈ supported_versions (config s) ∧
    Forall (λ o, reply o = returned true) (auth_calls f s) ∧
    streams_ok f j env s.

(** Established, and the acknowledgement sent unless it cannot be built. *)
Definition acknowledged (x : outcome) : Prop :=
  match x with
  | (Some (Ok _), s', calls) => state s' = established ∧ one_frame calls
  | (Some (Err _), _, _) => False
  | (None, s', calls) => state s' = established ∧ calls = []
  end.

Lemma run_finalize env reply sid version bw r s :
  acknowledged (let '(s, p) := finalize_established_locked sid version bw r s in run env reply p s).
Proof.
  unfold finalize_established_locked. cbv zeta. destruct (build_init_ack_body _ _ _) as [b|]; [|done].
  set (s1 := with_established sid version bw r s).
  match goal with |- context [send_text_frame_noexcept ?hs _ _] =>
    destruct (run_send_text env reply hs b (Ret (Ok tt)) s1) as [->|(frames&Hf&->)] end; [done|].
  cbn. rewrite app_nil_r. by split.
Qed.

(** From the authorization decision on. *)
Lemma run_after_auth env reply f j version s :
  let x := let '(s, p) := init_after_auth f j version true env s in run env reply p s in
  (streams_ok f j env s ∧ acknowledged x) ∨
  (¬ streams_ok f j env s ∧ ∃ s1, state s1 = state s ∧ refused s1 x).
Proof.
  cbv zeta. unfold init_after_auth, streams_ok. cbn [negb].
  destruct (parse_streams j) as [decls|[[code reason] e]].
  2:{ right. split; [by intros (?&?&_)|]. exists s. split; [done|apply run_fail_init]. }
  destruct (chars (session_id f)) as [sid|].
  - unfold handle_resumption_locked. destruct (prior_state s) as [ps|] eqn:Hps.
    2:{ right. split; [|exists s; split; [done|apply run_fail_init]]. intros (d&[= <-]&ps&?&?&_). congruence. }
    case_decide as Hsid.
    { right. split; [|exists s; split; [done|apply run_fail_init]]. intros (d&[= <-]&ps'&?&?&?&_). congruence. }
    destruct (session_expired_at ps (steady_now env)) eqn:Hexp.
    { right. split; [|exists s; split; [done|apply run_fail_init]]. intros (d&[= <-]&ps'&?&?&?&?&_). congruence. }
    case_decide as Hlen.
    { right. split; [|exists s; split; [done|apply run_fail_init]]. intros (d&[= <-]&ps'&?&?&?&?&?&_). congruence. }
    destruct (restore_streams decls (ps_streams ps)) as [restored|reason] eqn:Hres.
    + left. split; [|apply run_finalize]. exists decls. split; [done|]. exists ps, restored.
      by split_and!.
    + right. split; [|exists s; split; [done|apply run_fail_init]].
      intros (d&[= <-]&ps'&rs&?&?&?&?&?). congruence.
  - unfold init_fresh. destruct (validate_declarations decls _) as [[]|err] eqn:Hv.
    2:{ right. split; [|exists s; split; [done|apply run_fail_init]]. intros (d&[= <-]&?&_). congruence. }
    destruct (register_from_declarations (random env) decls (registry s)) as [[[[]|err] reg] rd] eqn:Hreg; cbv zeta.
    2:{ right. split; [|eexists; split; [|apply run_fail_init]; done].
        intros (d&[= <-]&_&reg'&rd'&sid&?&_). congruence. }
    destruct (generate_csprng_id rd 16).1 as [sid|err] eqn:Hid.
    + left. split; [|apply run_finalize]. exists decls. split; [done|]. split; [done|]. by exists reg, rd, sid.
    + right. split; [|eexists; split; [|apply run_fail_init]; done].
      intros (d&[= <-]&_&reg'&rd'&sid&?&?). congruence.
Qed.

(** What the first init frame leads to. *)
Definition init_result (f : ParsedHeadersView) (ok : Prop) (s : Impl) (x : outcome) : Prop :=
  let '(r, s', calls) := x in
  (state s' = established ↔ ok) ∧
  match r with
  | Some (Ok _) => ok ∧ ∃ frames, one_frame frames ∧ calls = auth_calls f s ++ frames
  | Some (Err _) =>
      state s' = closed ∧
      ∃ asked frames code reason, (asked = [] ∨ asked = auth_calls f s) ∧ one_frame frames ∧
        calls = asked ++ frames ++ [transport_close (to_ws_close_code code) reason]
  | None => state s' = established ∨ state s' = initializing
  end.

Lemma init_result_iff f ok ok' s x : (ok ↔ ok') → init_result f ok s x → init_result f ok' s x.
Proof.
  intros Hiff. destruct x as [[[[]|] s'] calls]; unfold init_result; by rewrite <-Hiff.
Qed.

(** The calls before the refusal are none or the authorization. *)
Lemma refused_result f ok s asked s1 x :
  (asked = [] ∨ asked = auth_calls f s) → state s1 = initializing → refused s1 x → ¬ ok →
  init_result f ok s (x.1.1, x.1.2, asked ++ x.2).
Proof.
  intros Hasked Hs1 Hx Hok. destruct x as [[[[]|] s'] calls]; cbn in Hx |- *; [done| |].
  - destruct Hx as (->&frames&code&reason&Hf&->). cbn. split; [by split|]. split; [done|].
    by exists asked, frames, code, reason.
  - destruct Hx as [-> ->]. split; [split; [congruence|done]|by right].
Qed.

(** From the decision on. *)
Lemma after_auth_result env reply f j version s s1 asked :
  asked = auth_calls f s → state s1 = initializing →
  init_result f (streams_ok f j env s1) s
    (let '(r, s', calls) :=
       (let '(s, p) := init_after_auth f j version true env s1 in run env reply p s) in
     (r, s', asked ++ calls)).
Proof.
  intros -> Hs1. destruct (run_after_auth env reply f j version s1) as [[Hok Hx]|[Hno (s2&Hs2&Hx)]];
    destruct (init_after_auth _ _ _ _ _ _) as [s3 p].
  - destruct (run env reply p s3) as [[[[u|e]|] s'] calls]; cbn in Hx |- *; [|done|].
    + destruct Hx as [He Hf]. split; [by split|]. split; [done|]. by exists calls.
    + destruct Hx as [He ->]. split; [by split|by left].
  - pose proof (refused_result f _ s (auth_calls f s) s2 _ ltac:(by right) ltac:(congruence) Hx Hno) as Hr.
    by destruct (run env reply p s3) as [[r s'] calls].
Qed.


(** ** [culpeo.auth-response] *)
Definition refresh_calls (f : ParsedHeadersView) (s : Impl) : list op :=
  if has_auth_response (callbacks s) then [on_auth_response (bearer_token (chars (authorization f)))] else [].

(** The nonce that an answer echoes. *)
Definition echoed_nonce (f : ParsedHeadersView) : option bytes :=
  j ← json_parse (sv_chars (body f)); v ← json_at j (str "nonce"); json_get_string v.

(** The answer is to the open challenge, in time, and with accepted credentials. *)
Definition answer_ok (f : ParsedHeadersView) (env : Env) (reply : op → answer) (s : Impl) : Prop :=
  pending (auth_mgr s) = true ∧
  is_expired (steady_now env) (auth_refresh_timeout_s (config s)) (auth_mgr s) = false ∧
  echoed_nonce f ≫= hex_to_bytes = Some (nonce (auth_mgr s)) ∧
  Forall (λ o, reply o = returned true) (refresh_calls f s).

Definition answer_result (f : ParsedHeadersView) (ok : Prop) (s : Impl) (x : outcome) : Prop :=
  let '(r, s', calls) := x in
  (r = Some (Ok tt) ↔ ok) ∧
  match r with
  | Some (Ok _) => s' = with_auth (clear (auth_mgr s)) s ∧ calls = refresh_calls f s
  | Some (Err _) =>
      state s' = closed ∧
      ∃ asked frames code reason, (asked = [] ∨ asked = refresh_calls f s) ∧ one_frame frames ∧
        calls = asked ++ frames ++ [transport_close (to_ws_close_code code) reason]
  | None => pending (auth_mgr s') = false
  end.

Lemma refused_answer f ok s s1 x :
  pending (auth_mgr s1) = false → refused s1 x → ¬ ok → answer_result f ok s x.
Proof.
  intros Hp Hx Hok. destruct x as [[[[]|] s'] calls]; cbn in Hx |- *; [done| |].
  - destruct Hx as (->&frames&code&reason&Hf&->). split; [by split|]. split; [done|].
    exists [], frames, code, reason. split_and!; [by left|done|done].
  - destruct Hx as [-> ->]. by split.
Qed.

(** The new credentials were refused: the session is closed first. *)
Lemma run_verdict_false env reply s :
  state s ≠ closed →
  let '(r, s', calls) := run env reply (auth_response_verdict false) s in
  s' = transition_to_closed_locked s ∧
  (r = None ∨ r = Some (Err auth_failed) ∧
     ∃ frames code reason, one_frame frames ∧ calls = frames ++ [transport_close (to_ws_close_code code) reason]).
Proof.
  intros Hs. cbn [auth_response_verdict run]. rewrite decide_False by done.
  unfold fail_established, send_close_frame.
  match goal with |- context [send_text_frame_noexcept ?hs ?b ?k] =>
    destruct (run_send_text env reply hs b k (transition_to_closed_locked s)) as [->|(frames&Hf&->)] end;
    [by split; [|left]|].
  cbn. split; [done|]. right. split; [done|]. by exists frames, (str "auth-expired"), (str "New credentials rejected").
Qed.

(** From the accepted nonce on. *)
Definition verdict (f : ParsedHeadersView) (s : Impl) : proc result :=
  if has_auth_response (callbacks s)
  then callback (on_auth_response (bearer_token (chars (authorization f)))) auth_response_verdict
  else auth_response_verdict true.

Lemma run_verdict env reply f s :
  state s = established → Forall (λ o, reply o ≠ threw) (refresh_calls f s) →
  let x := run env reply (verdict f s) (with_auth (clear (auth_mgr s)) s) in
  answer_result f (Forall (λ o, reply o = returned true) (refresh_calls f s)) s x ∧
  pending (auth_mgr x.1.2) = false.
Proof.
  intros Hs Hthrew. unfold verdict, refresh_calls in *. destruct (has_auth_response (callbacks s)) eqn:Hhas.
  2:{ cbn. unfold refresh_calls. rewrite Hhas. by repeat split; constructor. }
  apply Forall_inv in Hthrew. cbn [callback run].
  destruct (reply (on_auth_response _)) as [ok|] eqn:Hrep; [|done]. destruct ok.
  - cbn. unfold refresh_calls. rewrite Hhas. split; [|done]. split; [|done]. split; [|done].
    intros _. by apply Forall_singleton.
  - pose proof (run_verdict_false env reply (with_auth (clear (auth_mgr s)) s)) as Hv.
    destruct (run env reply (auth_response_verdict false) _) as [[r s'] calls].
    destruct Hv as [-> Hv]; [cbn; congruence|]. cbn. unfold refresh_calls. rewrite Hhas. split; [|done].
    destruct Hv as [->|(->&frames&code&reason&Hfr&->)].
    + split; [|done]. split; [done|]. intros Hall%Forall_inv. congruence.
    + split; [split; [done|intros Hall%Forall_inv; congruence]|]. split; [done|].
      eexists _, frames, code, reason. split_and!; [by right|done|done].
Qed.

Lemma refused_then_close env reply f s code reason e s1 (ok : Prop) :
  pending (auth_mgr s1) = false → ¬ ok →
  let x := run env reply (fail_then_close code reason e) s1 in
  answer_result f ok s x ∧ pending (auth_mgr x.1.2) = false.
Proof.
  intros Hp Hok. pose proof (run_fail_then_close env reply code reason e s1) as Hr.
  split; [by eapply refused_answer|].
  destruct (run env reply (fail_then_close code reason e) s1) as [[[[]|] s'] calls]; cbn in Hr |- *; [done|..].
  - by destruct Hr as [-> _].
  - by destruct Hr as [-> _].
Qed.

(** C6. An answer to a challenge is accepted exactly when the challenge is open and
    not expired, the answer echoes its nonce, and the application accepts the new
    credentials; then nothing but the challenge changes.  Every other answer,
    also one to no challenge, closes the session and the connection, with one frame
    at most and without calling [on_close], and in every case no challenge is left
    open. *)
Theorem auth_response_outcome f s env reply :
  frame_type f = control → chars (event f) = Some (str "culpeo.auth-response") → state s = established →
  Forall (λ o, reply o ≠ threw) (refresh_calls f s) →
  answer_result f (answer_ok f env reply s) s (run env reply (process_control_frame f) s) ∧
  pending (auth_mgr (run env reply (process_control_frame f) s).1.2) = false.
Proof.
  intros Hf Hev Hs Hthrew. unfold process_control_frame. rewrite decide_False by tauto. rewrite Hev.
  replace (negb (is_valid_event_name (str "culpeo.auth-response"))) with false by (by vm_compute). cbn [run].
  rewrite decide_False by (intros [? _]; congruence). do 3 rewrite decide_False by done.
  rewrite decide_True by done. unfold handle_auth_response. rewrite decide_False by tauto.
  unfold answer_ok, echoed_nonce.
  pose proof (refused_then_close env reply f s) as Hno.
  destruct (pending (auth_mgr s)) eqn:Hp; cbn [negb]; [|apply Hno; [done|by intros [? _]]].
  destruct (json_parse (sv_chars (body f)) ≫= _) as [hex|]; [|apply Hno; [done|by intros (_&_&?&_)]].
  cbn [mbind option_bind].
  set (now := steady_now env). set (tmo := auth_refresh_timeout_s (config s)).
  pose proof (validate_Ok_iff hex now tmo (auth_mgr s)) as Hiff. rewrite Hp in Hiff.
  assert ((validate_and_consume hex now tmo (auth_mgr s)).2 = clear (auth_mgr s)) as Hm.
  { unfold validate_and_consume. rewrite Hp. cbn. by repeat case_match. }
  destruct (validate_and_consume hex now tmo (auth_mgr s)) as [res m]. cbn in Hiff, Hm. subst m. cbv zeta.
  destruct res as [[]|err].
  2:{ apply Hno; [done|]. intros (_&?&?&_). by assert (Err err = Ok tt) by (by apply Hiff). }
  destruct (proj1 Hiff eq_refl) as (_&Hexp&Hhex).
  pose proof (run_verdict env reply f s Hs Hthrew) as Hr. unfold verdict in Hr.
  cbn [callbacks with_auth]. destruct (has_auth_response (callbacks s)); destruct Hr as [Hr Hpend];
    (split; [|exact Hpend]); destruct (run env reply _ _) as [[r s'] calls];
    (destruct Hr as [Hok Hr]; split; [|exact Hr]); rewrite Hok; tauto.
Qed.

(** ** Closing *)

(** Closing a session that is not closed, from either side, leaves it closed
    without key material, closes the connection with the code's number and tells
    the application once; closing it again does nothing. *)
Theorem close_outcome code reason s env reply :
  auth_ok (auth_mgr s) → state s ≠ closed → reply (on_close code reason) ≠ threw →
  let '(r, s', calls) := run env reply (close code reason) s in
  state s' = closed ∧ scrubbed (auth_mgr s') ∧
  (r = None → calls = []) ∧
  (r ≠ None → r = Some (Ok tt) ∧ ∃ frames, one_frame frames ∧
     calls = frames ++ [transport_close (to_ws_close_code code) reason] ++
             (if has_close (callbacks s) then [on_close code reason] else [])) ∧
  ∀ code' reason', run env reply (close code' reason') s' = (Some (Ok tt), s', []).
Proof.
  intros Hauth Hs Hthrew. unfold close. cbn [run]. unfold close_locked at 1. rewrite decide_False by done. cbv zeta.
  set (s1 := transition_to_closed_locked (with_auth (clear (auth_mgr s)) s)).
  assert (∀ code' reason', run env reply (close code' reason') s1 = (Some (Ok tt), s1, [])) as Hagain.
  { intros. unfold close. cbn [run]. unfold close_locked. by rewrite decide_True by done. }
  assert (scrubbed (auth_mgr s1)) as Hscrub by (by apply clear_scrubbed, clear_ok).
  unfold send_close_frame.
  match goal with |- context [send_text_frame_noexcept ?hs ?b ?k] =>
    destruct (run_send_text env reply hs b k s1) as [->|(frames&Hf&->)] end; [by split_and!|].
  unfold close_transport, notify. destruct (has_close (callbacks s)); cbn [run callback].
  - destruct (reply (on_close code reason)) as [b|]; [|done]. cbn [run].
    split_and!; try done. intros _. split; [done|]. by exists frames.
  - split_and!; try done. intros _. split; [done|]. by exists frames.
Qed.
End outcomes.

(** ** Instances *)


(** The session after a challenge. *)
Definition challenged_session : Impl :=
  (run demo_env yes (send_auth_refresh (ST := lp64) (JL := demo_json)) established_session).1.2.

Definition answer_frame : ParsedHeadersView := control_frame (str "culpeo.auth-response") (str "answer").

Lemma auth_response_outcome_witness :
  (run demo_env yes (process_control_frame (ST := lp64) (JL := demo_json) answer_frame) challenged_session).1.1
    = Some (Ok tt) ∧
  answer_ok (ST := lp64) (JL := demo_json) answer_frame demo_env yes challenged_session.
Proof.
  assert ((run demo_env yes (process_control_frame (ST := lp64) (JL := demo_json) answer_frame) challenged_session).1.1
    = Some (Ok tt)) as Hr by (by vm_compute).
  split; [exact Hr|].
  destruct (auth_response_outcome (ST := lp64) (JL := demo_json) answer_frame challenged_session demo_env yes
    eq_refl eq_refl ltac:(by vm_compute)) as [Ho _].
  { repeat constructor; done. }
  destruct (run demo_env yes _ challenged_session) as [[r s'] calls]. cbn in Hr. subst r. by apply Ho.
Defined.

Lemma close_outcome_witness :
  state (run demo_env yes (close (ST := lp64) (str "normal") (str "Closing")) established_session).1.2 = closed ∧
  (run demo_env yes (close (ST := lp64) (str "normal") (str "Closing")) established_session).1.1 = Some (Ok tt).
Proof.
  assert (auth_ok (auth_mgr established_session)) as Ha by (vm_compute; reflexivity).
  assert (state established_session = established) as Hs by (vm_compute; reflexivity).
  assert ((run demo_env yes (close (ST := lp64) (str "normal") (str "Closing")) established_session).1.1
    = Some (Ok tt)) as Hr by (vm_compute; reflexivity).
  pose proof (close_outcome (ST := lp64) (str "normal") (str "Closing") established_session demo_env yes Ha) as Ho.
  clear Ha. rewrite Hs in Ho. specialize (Ho ltac:(discriminate) ltac:(discriminate)).
  destruct (run demo_env yes _ established_session) as [[r s'] calls]. destruct Ho as (Hc&_&_&_&_).
  split; [exact Hc|exact Hr].
Defined.
