(* ===== verification/SessionTheorems.v ===== *)
(** * What the session guarantees

    Properties of all concurrent executions of a session, of the media path, of
    resumption and of the ping exchange, each with a concrete instance. *)

From S2P Require Import Prelude Bytes Decimal Message ParseFacts Serialize Codec Crypto.
From S2P Require Import SessionTypes OffsetTracker AuthRefresh StreamRegistry SessionCodec Session.
From S2P Require Import SessionFacts SessionSpec SessionRefines SessionSafety SessionCalls SessionDemo SessionOutcomes.

Section executions.
Context {ST : SizeT} {JL : JsonLib}.

(** C3. Every public method implements the abstract session: each of its critical
    sections is one transition of [SessionSpec], whatever other threads do between
    them. *)
Theorem session_implements_spec cfg c : implements cfg no_token (api c).
Proof. apply api_implements. Qed.

(** C1. In every reachable state the registry is well formed, a closed session
    holds no key material, and an established session has an identifier, a
    supported version and a buffer window within the configured limits. *)
Theorem session_invariant cb cfg ps w :
  config_ok cfg → prior_ok (new_session cb cfg ps) → reachable (new_session cb cfg ps) w →
  session_inv (w_impl w).
Proof.
  intros Hc Hp Hr. destruct (world_inv_steps _ _ _ (world_inv_init cb cfg ps Hc Hp) Hr) as (toks&Hw&_).
  by destruct Hw.
Qed.


(** C2. With an authorization callback, no interleaving of calls establishes a
    session before the callback has accepted a client's credentials. *)
Theorem session_authenticated cb cfg ps w :
  config_ok cfg → prior_ok (new_session cb cfg ps) → has_auth_validate cb = true →
  reachable (new_session cb cfg ps) w → state (w_impl w) = established →
  credentials_accepted (w_history w).
Proof.
  intros Hc Hp Hcb Hr He.
  destruct (world_inv_steps _ _ _ (world_inv_init cb cfg ps Hc Hp) Hr) as (toks&Hw&(Hcbs&_)&_).
  apply (wi_history _ _ Hw). right. split; [done|]. by rewrite Hcbs.
Qed.

(** C4. Once a session is established its identity, version and buffer window
    never change, its streams keep their declarations and their offsets never
    decrease, and when it leaves the established state it does not come back. *)
Theorem session_established_once cb cfg ps w1 w2 w3 :
  config_ok cfg → prior_ok (new_session cb cfg ps) →
  reachable (new_session cb cfg ps) w1 → state (w_impl w1) = established →
  rtc step w1 w2 → rtc step w2 w3 →
  frozen (w_impl w1) (w_impl w2) ∧
  (state (w_impl w2) ≠ established → state (w_impl w3) ≠ established).
Proof.
  intros Hc Hp Hr He H12 H23.
  destruct (world_inv_steps _ _ _ (world_inv_init cb cfg ps Hc Hp) Hr) as (toks1&Hw1&_).
  destruct (world_inv_steps _ _ _ Hw1 H12) as (toks2&Hw2&_&Hset).
  destruct (Hset (established_settled _ _ Hw1 He)) as [Hset2 Hfr]. split; [done|].
  destruct (world_inv_steps _ _ _ Hw2 H23) as (toks3&_&_&Hset3).
  destruct (Hset3 Hset2) as [_ Hfr3]. intros Hne He3. apply Hne. by apply (fr_established _ _ Hfr3).
Qed.
End executions.

Section calls.
Context {ST : SizeT} {JL : JsonLib}.

(** C11. A media frame in an established session is delivered, with its stream
    advanced, exactly when it names a registered stream the client may send on,
    continues it at its offset and repeats its content type; any other frame
    closes the session and the connection with code 1002, and no stream moves. *)
Theorem media_frame_outcome f s env reply :
  frame_type f = media → state s = established → (∀ o, reply o = returned true) →
  let '(r, s', calls) := run env reply (process_media_frame f) s in
  match r with
  | Some (Ok _) =>
      ∃ id st st' ts, accepts f (registry s) id st st' ts ∧
        s' = with_registry (set_stream id st' (registry s)) s ∧
        calls = if has_media_received (callbacks s)
                then [on_media_received st' ts (sv_chars (body f))] else []
  | Some (Err _) =>
      (∀ id st st' ts, ¬ accepts f (registry s) id st st' ts) ∧
      s' = transition_to_closed_locked s ∧
      ∃ fr reason, calls = [send_text fr; transport_close 1002 reason]
  | None => False
  end.
Proof.
  intros Hf He Hreply. unfold process_media_frame. rewrite decide_False by tauto.
  cbn [run]. rewrite decide_False by tauto.
  destruct (handle_media_cases f s) as [(id&st&st'&ts&Hacc&->)|(Hno&reason&e&Hl&Hv&->)].
  - unfold notify. destruct (has_media_received (callbacks s)) eqn:Hm.
    + cbn [callback run]. rewrite Hreply. cbn [run]. exists id, st, st', ts. done.
    + cbn [run]. exists id, st, st', ts. done.
  - rewrite run_fail_established by done. split_and!; [done|done|]. eauto.
Qed.

(** A frame written by [send_media] is parsed and accepted by a receiver that
    has the same stream at the same offset, and it advances both sides to the same
    offset. *)
Theorem media_send_receive s env reply id st st' payload ts :
  state s = established → registry_ok (registry s) → find_stream id (registry s) = Some st →
  si_direction st ≠ input → sendable_stream id st → (0 ≤ ts ≤ uint64_max)%Z →
  (Z.of_nat (length payload) < 2 ^ 31)%Z →
  advance_offset st (Z.of_nat (length payload)) = Ok st' →
  (∀ o, reply o = returned true) →
  ∃ fr p, run env reply (send_media id payload ts) s =
      (Some (Ok tt), with_registry (set_stream id st' (registry s)) s, [send_binary fr]) ∧
    parse_headers default_limits media fr = Ok p ∧ frame_type p = media ∧
    sv_chars (body p) = payload ∧
    ∀ r st0, streams_ r !! id = Some st0 → si_direction st0 ≠ output →
      si_content_type st0 = si_content_type st → si_offset st0 = si_offset st →
      si_offset_type st0 = si_offset_type st → si_pcm_params st0 = si_pcm_params st →
      accepts p r id st0 (set_offset st0 (si_offset st')) ts.
Proof.
  intros He Hreg Hfind Hdir Hsend Hts Hlen Hadv Hreply.
  apply (send_media_accepted s env reply id st); try done. by destruct (Hreg _ _ Hfind).
Qed.

(** C14. A session that was exported and is resumed in time, with its streams
    declared again, is established under the same identifier with the same
    streams at the same offsets. *)
Theorem resume_roundtrip s0 ps e0 s e decls version bw body :
  session_inv s0 → export_state e0 s0 = Some ps → prior_state s = Some ps →
  session_expired_at ps (steady_now e) = false →
  decl_key <$> decls ≡ₚ stream_key <$> ps_streams ps →
  (∀ d, d ∈ decls → sd_has_resume_offset d = false) →
  build_init_ack_body version (snapshot (register_from_persisted (ps_streams ps) (registry s))) true =
    Some body →
  let s' := (handle_resumption_locked (session_id_str s0) bw decls version e s).1 in
  state s' = established ∧ session_id_str s' = session_id_str s0 ∧
  is_resumed_session s' = true ∧ streams_ (registry s') = streams_ (registry s0).
Proof.
  intros Hinv Hexp Hprior Htime Hperm Hno Hbody.
  unfold export_state in Hexp. case_decide; [done|]. injection Hexp as <-. cbn [ps_streams] in *.
  unfold handle_resumption_locked. rewrite Hprior. cbn [ps_session_id ps_streams].
  rewrite decide_False by tauto. rewrite Htime. rewrite decide_False.
  2:{ apply Permutation_length in Hperm. rewrite !length_fmap in Hperm. tauto. }
  rewrite restore_streams_same; [|done|].
  2:{ intros st Hst. rewrite Hperm. apply list_elem_of_fmap. by exists st. }
  unfold finalize_established_locked. cbn [registry with_established with_registry]. rewrite Hbody.
  split_and!; [done..|]. exact (register_snapshot (registry s0) (registry s) (inv_registry _ Hinv)).
Qed.

(** A resumption that is accepted declares exactly the persisted streams (when
    their direction, content type and purpose identify them), and restores each
    at its own offset or at an earlier one that was asked for. *)
Theorem resume_exact s e sid bw decls version ps :
  prior_state s = Some ps → NoDup (stream_key <$> ps_streams ps) → state s ≠ established →
  state (handle_resumption_locked sid bw decls version e s).1 = established →
  sid = ps_session_id ps ∧ session_expired_at ps (steady_now e) = false ∧
  decl_key <$> decls ≡ₚ stream_key <$> ps_streams ps ∧
  ∃ rs, Forall2 (restored decls) (ps_streams ps) rs ∧
    registry (handle_resumption_locked sid bw decls version e s).1 =
      register_from_persisted rs (registry s).
Proof.
  intros Hps Hnd Hne. unfold handle_resumption_locked. rewrite Hps.
  destruct (decide (sid ≠ ps_session_id ps)) as [|Hsid]; [done|].
  destruct (session_expired_at ps (steady_now e)); [done|].
  destruct (decide (length decls ≠ length (ps_streams ps))) as [|Hlen]; [done|].
  destruct (restore_streams decls (ps_streams ps)) as [rs|] eqn:Hr; [|done].
  intros _. split_and!; [by apply dec_stable|done|by eapply restore_keys; eauto; lia|].
  exists rs. split; [by apply restore_streams_Ok|].
  unfold finalize_established_locked. cbv zeta. by destruct (build_init_ack_body _ _ _).
Qed.

(** Of the pings that arrive within a second of the one that opens a rate
    window, exactly as many are answered as the configured rate allows, and at
    least that first one. *)
Theorem ping_rate_bounded rate start count t0 times :
  (1000 ≤ ns_to_ms (t0 - start))%Z → (Z.of_nat (length times) + 1 < 2 ^ 32)%Z →
  Forall (λ t, ns_to_ms (t - t0) < 1000)%Z times →
  answered (ping_run rate start count (t0 :: times)) =
    Z.max 1 (Z.min (Z.of_nat (length times) + 1) rate).
Proof.
  intros Ht0 Hlen Hts. cbn [ping_run]. unfold ping_window. rewrite decide_True by done.
  rewrite answered_cons, ping_run_window by (done || lia). lia.
Qed.
End calls.

(** ** Schedules: executable executions *)
Inductive action :=
| call (c : api_call)
| enter (i : nat) (e : Env)          (* thread [i] runs its critical section *)
| reply (i : nat) (a : answer).      (* the call of thread [i] returns *)

Section schedules.
Context {ST : SizeT} {JL : JsonLib}.

Definition act (w : world) (a : action) : option world :=
  match a with
  | call c => Some (mkWorld (w_impl w) (w_threads w ++ [api c]) (w_history w))
  | enter i e =>
      match w_threads w !! i with
      | Some (Locked section) =>
          match section e (w_impl w) with
          | (s', p') => Some (mkWorld s' (<[i := p']> (w_threads w)) (w_history w))
          end
      | _ => None
      end
  | reply i a =>
      match w_threads w !! i with
      | Some (Do o k) =>
          Some (mkWorld (w_impl w) (<[i := k a]> (w_threads w)) ((o, a) :: w_history w))
      | _ => None
      end
  end.

Fixpoint schedule (w : world) (acts : list action) : option world :=
  match acts with
  | [] => Some w
  | a :: acts => w ← act w a; schedule w acts
  end.

Lemma act_step w a w' : act w a = Some w' → step w w'.
Proof.
  destruct a as [c|i e|i a]; simpl.
  - intros [= <-]. constructor.
  - destruct (w_threads w !! i) as [[| | |section]|] eqn:Hi; try done.
    destruct (section e (w_impl w)) as [s' p'] eqn:Hs. intros [= <-]. by econstructor.
  - destruct (w_threads w !! i) as [[| |o k|]|] eqn:Hi; try done. intros [= <-]. by apply step_do.
Qed.

Lemma schedule_steps w acts w' : schedule w acts = Some w' → rtc step w w'.
Proof.
  revert w. induction acts as [|a acts IH]; intros w; simpl; [by intros [= <-]|].
  intros (w1&Ha%act_step&Hr%IH)%bind_Some. by econstructor.
Qed.

(** The world after a schedule that runs to its end. *)
Lemma schedule_reaches s0 acts (P : world → bool) :
  from_option P false (schedule (mkWorld s0 [] []) acts) = true →
  ∃ w, schedule (mkWorld s0 [] []) acts = Some w ∧ reachable s0 w ∧ P w = true.
Proof.
  destruct (schedule _ _) as [w|] eqn:Hw; simpl; [|done]. intros HP. exists w.
  split_and!; [done|by eapply schedule_steps|done].
Qed.
End schedules.

(** ** A late authorization *)
Section late.
Context {ST : SizeT} {JL : JsonLib}.

Definition is_init (f : ParsedHeadersView) : Prop :=
  frame_type f = control ∧ chars (event f) = Some (str "culpeo.init").

(** The thread of an init frame [f] with body [j] that waits for the application to
    judge its credentials. *)
Definition awaits_authorization (f : ParsedHeadersView) (j : json) (version : bytes) : proc result :=
  callback (on_auth_validate (bearer_token (chars (authorization f)))) (λ auth_ok,
    Locked (λ e s,
      if decide (state s = closed) then (s, Ret (Err auth_failed))
      else init_after_auth f j version auth_ok e s)).

Lemma init_section f :
  is_init f →
  ∃ section, process_control_frame f = Locked section ∧ ∀ e s,
    section e s = handle_init f e s.
Proof.
  intros [Hf Hev]. unfold process_control_frame. rewrite decide_False by tauto. rewrite Hev.
  replace (negb (is_valid_event_name (str "culpeo.init"))) with false by (by vm_compute).
  eexists. split; [reflexivity|]. intros e s. cbv beta.
  rewrite decide_False by (intros [_ ?]; done). by rewrite decide_True.
Qed.

(** An init frame in order on a new session leaves its thread there. *)
Lemma init_awaits f j version e s :
  state s = uninitialized → has_auth_validate (callbacks s) = true →
  json_parse (sv_chars (body f)) = Some j → json_at j (str "version") ≫= json_get_string = Some version →
  version ∈ supported_versions (config s) →
  handle_init f e s = (with_state initializing s, awaits_authorization f j version).
Proof.
  intros Hs Hv Hj Hver Hsup. unfold handle_init. rewrite decide_False by tauto. cbv zeta. rewrite Hj, Hver.
  rewrite bool_decide_eq_true_2 by done. cbn [negb with_state callbacks]. by rewrite Hv.
Qed.

Lemma after_auth_established f j version e s :
  streams_ok f j e s → state (init_after_auth f j version true e s).1 = established.
Proof.
  intros (decls&Hd&Hst). unfold init_after_auth. cbn [negb]. rewrite Hd.
  assert (∀ sid v bw r s0, state (finalize_established_locked sid v bw r s0).1 = established) as Hfin.
  { intros. unfold finalize_established_locked. cbv zeta. by destruct (build_init_ack_body _ _ _). }
  destruct (chars (session_id f)) as [sid|].
  - destruct Hst as (ps&restored&Hps&->&Hexp&Hlen&Hres). unfold handle_resumption_locked.
    rewrite Hps, decide_False, Hexp, decide_False, Hres by tauto. apply Hfin.
  - destruct Hst as (Hval&reg&rd&sid&Hreg&Hsid). unfold init_fresh. rewrite Hval, Hreg. cbv zeta.
    rewrite Hsid. apply Hfin.
Qed.

(** C36. A closed session can become established: whenever an init frame [f] waits
    for the application while the session has been closed, any further init frame
    [f2], which is answered by an error, takes the session back to initializing; the
    application then accepts the credentials of [f], and the closed session is
    established for [f].  Without [f2] the same answer leaves it closed. *)
Theorem closed_session_reestablished w i f f2 j version e :
  w_threads w !! i = Some (awaits_authorization f j version) → state (w_impl w) = closed →
  is_init f2 → streams_ok f j e (with_state initializing (w_impl w)) →
  (∃ w1 w2, step w w1 ∧ step w1 w2 ∧ w_threads w1 !! length (w_threads w) = Some (process_control_frame f2) ∧
     state (w_impl w2) = initializing ∧
     ∃ w3, rtc step w2 w3 ∧ state (w_impl w3) = established ∧
       w_history w3 = (on_auth_validate (bearer_token (chars (authorization f))), returned true) :: w_history w) ∧
  (∃ w1 w2, step w w1 ∧ step w1 w2 ∧ w_threads w2 !! i = Some (Ret (Err auth_failed)) ∧
     state (w_impl w2) = closed ∧
     w_history w2 = (on_auth_validate (bearer_token (chars (authorization f))), returned true) :: w_history w).
Proof.
  intros Hi Hcl Hf2 Hst. destruct w as [s ths h]. cbn [w_threads w_impl w_history] in *.
  assert (i < length ths) as Hlt by (by eapply lookup_lt_Some). split.
  - destruct (init_section f2 Hf2) as (section&Hsec&Hinit).
    set (s1 := with_state initializing s).
    assert (∃ p, section e s = (s1, p)) as [p Hp].
    { rewrite Hinit. unfold handle_init. rewrite decide_True by congruence. by eexists. }
    eexists _, (mkWorld s1 (<[length ths := p]> (ths ++ [api (call_control f2)])) h). split_and!.
    + apply (step_call (call_control f2)).
    + eapply (step_locked (length ths) e section s1 p (mkWorld s (ths ++ [api (call_control f2)]) h)); [|exact Hp].
      cbn. rewrite lookup_app_r, Nat.sub_diag by lia. cbn. by rewrite Hsec.
    + cbn. by rewrite lookup_app_r, Nat.sub_diag by lia.
    + done.
    + destruct (init_after_auth f j version true e s1) as [s2 q] eqn:Hq.
      assert (state s2 = established) as He by (pose proof (after_auth_established f j version e s1 Hst) as He; by rewrite Hq in He).
      rewrite insert_app_r_alt, Nat.sub_diag by lia. cbn [list_insert insert].
      eexists (mkWorld s2 _ _). split; [|split; [exact He|reflexivity]].
      eapply rtc_l; [eapply (step_do i _ _ (returned true)); cbn; by rewrite lookup_app_l|].
      apply rtc_once. eapply (step_locked i e _ s2 q); cbn; [by rewrite list_lookup_insert_eq by (rewrite length_app; lia)|].
      cbn. by rewrite decide_False.
  - eexists _, _. split; [by eapply (step_do i _ _ (returned true))|]. split; [|split_and!].
    + eapply (step_locked i e); cbn; [by rewrite list_lookup_insert_eq|]. cbv beta.
      rewrite decide_True by done. reflexivity.
    + cbn. by rewrite list_insert_insert_eq, list_lookup_insert_eq.
    + done.
    + done.
Qed.
End late.

(** When the random source fails, [send_ping] still sends a ping, with nonce 0,
    and a pong that echoes 0 is taken as its answer. *)
Theorem ping_without_entropy :
  let s := (run failing_env yes (send_ping (ST := lp64)) established_session).1.2 in
  pending_ping_nonce s = Some 0%Z ∧
  (run failing_env yes (process_control_frame (ST := lp64) (JL := demo_json)
     (control_frame (str "culpeo.pong") (str "pong0"))) s).2 = [on_rtt 0].
Proof. split; by vm_compute. Qed.

(** ** Instances *)
Definition establish : list action :=
  [call (call_control init_frame); enter 0 demo_env; reply 0 (returned true); enter 0 demo_env].

Lemma default_config_ok : config_ok default_config.
Proof. by_decide. Qed.

Lemma start_prior_ok : prior_ok start.
Proof. by intros ps [=]. Qed.

(** An init frame waits, the application closes the session, and the frame comes
    again. *)
Lemma closed_session_reestablished_witness :
  ∃ w w3, reachable (ST := lp64) (JL := demo_json) start w ∧ state (w_impl w) = closed ∧
    rtc (step (ST := lp64) (JL := demo_json)) w w3 ∧ state (w_impl w3) = established.
Proof.
  set (j := default (JNum 0) (json_parse (JsonLib := demo_json) (sv_chars (body init_frame)))).
  assert (json_parse (JsonLib := demo_json) (sv_chars (body init_frame)) = Some j) as Hj by (vm_compute; reflexivity).
  set (p := awaits_authorization (ST := lp64) (JL := demo_json) init_frame j (str "0.3")).
  set (s1 := with_state initializing start).
  destruct (init_section (ST := lp64) (JL := demo_json) init_frame) as (section&Hsec&Hinit); [done|].
  set (s2 := transition_to_closed_locked (with_auth (clear (auth_mgr s1)) s1)).
  assert (∃ q, close_locked (ST := lp64) (str "normal") (str "bye") s1 = (s2, q)) as [q Hq]
    by (unfold close_locked; rewrite decide_False by done; by eexists).
  assert (state s2 = closed) as Hc by done.
  set (w := mkWorld s2 [p; q] []).
  assert (reachable (ST := lp64) (JL := demo_json) start w) as Hr.
  { eapply rtc_l; [apply (step_call (call_control init_frame))|].
    eapply rtc_l; [eapply (step_locked 0 demo_env section s1 p)|].
    { exact (f_equal Some Hsec). }
    { rewrite Hinit. apply init_awaits; [done|done|exact Hj|vm_compute; reflexivity|by_decide]. }
    eapply rtc_l; [apply (step_call (call_close (str "normal") (str "bye")))|].
    eapply rtc_l; [eapply (step_locked 1 demo_env _ s2 q); [reflexivity|exact Hq]|]. apply rtc_refl. }
  assert (streams_ok (JL := demo_json) init_frame j demo_env (with_state initializing s2)) as Hst.
  { destruct (run_after_auth (ST := lp64) (JL := demo_json) demo_env yes init_frame j (str "0.3")
      (with_state initializing s2)) as [[Hok _]|[_ (s3&_&Href)]]; [exact Hok|].
    apply refused_rejected in Href. by vm_compute in Href. }
  assert (is_init init_frame) as Hf by (split; reflexivity).
  assert (w_threads w !! 0 = Some p) as Hp by exact eq_refl.
  destruct (proj1 (closed_session_reestablished (ST := lp64) (JL := demo_json) w 0 init_frame init_frame j (str "0.3")
    demo_env Hp Hc Hf Hst)) as (w1&w2&H1&H2&_&_&w3&H3&He&_).
  exists w, w3. split; [exact Hr|]. split; [exact Hc|]. split; [|exact He].
  eapply rtc_l; [exact H1|]. eapply rtc_l; [exact H2|exact H3].
Defined.

Lemma session_implements_spec_witness :
  implements (ST := lp64) default_config no_token (api (ST := lp64) (JL := demo_json) call_send_ping).
Proof. exact (session_implements_spec (ST := lp64) (JL := demo_json) default_config call_send_ping). Defined.

Lemma session_invariant_witness :
  ∃ w, reachable (ST := lp64) (JL := demo_json) start w ∧ state (w_impl w) = established ∧
    session_inv (w_impl w).
Proof.
  destruct (schedule_reaches (ST := lp64) (JL := demo_json) start establish
    (λ w, bool_decide (state (w_impl w) = established))) as (w&_&Hr&He); [by vm_compute|].
  apply bool_decide_eq_true in He. exists w. split_and!; [done|done|].
  exact (session_invariant all_callbacks default_config None w default_config_ok start_prior_ok Hr).
Defined.


Lemma session_authenticated_witness :
  ∃ w, state (w_impl w) = established ∧ credentials_accepted (w_history w).
Proof.
  destruct (schedule_reaches (ST := lp64) (JL := demo_json) start establish
    (λ w, bool_decide (state (w_impl w) = established))) as (w&_&Hr&He); [by vm_compute|].
  apply bool_decide_eq_true in He. exists w. split; [done|].
  exact (session_authenticated all_callbacks default_config None w default_config_ok
    start_prior_ok eq_refl Hr He).
Defined.

Lemma session_established_once_witness :
  ∃ w, state (w_impl w) = established ∧ frozen (w_impl w) (w_impl w).
Proof.
  destruct (schedule_reaches (ST := lp64) (JL := demo_json) start establish
    (λ w, bool_decide (state (w_impl w) = established))) as (w&_&Hr&He); [by vm_compute|].
  apply bool_decide_eq_true in He. exists w. split; [done|].
  exact (proj1 (session_established_once all_callbacks default_config None w w w default_config_ok
    start_prior_ok Hr He (rtc_refl _ w) (rtc_refl _ w))).
Defined.

Definition sample_media : ParsedHeadersView :=
  media_frame demo_id (str "0") (str "Audio/Opus") (str "xyz").

Lemma media_frame_outcome_witness :
  (run demo_env yes (process_media_frame (ST := lp64) sample_media) established_session).1.1 =
    Some (Ok tt) ∧
  ∃ id st st' ts, accepts sample_media (registry established_session) id st st' ts.
Proof.
  pose proof (media_frame_outcome (ST := lp64) sample_media established_session demo_env yes
    eq_refl ltac:(by vm_compute) (λ o, eq_refl)) as H.
  assert ((run demo_env yes (process_media_frame (ST := lp64) sample_media) established_session).1.1 =
    Some (Ok tt)) as Hr by (by vm_compute).
  split; [exact Hr|].
  destruct (run demo_env yes (process_media_frame (ST := lp64) sample_media) established_session)
    as [[r s'] calls]. simpl in Hr. rewrite Hr in H.
  destruct H as (id&st&st'&ts&Hacc&_). exists id, st, st', ts. exact Hacc.
Defined.

Definition sample_stream : StreamInfo :=
  {| si_id := demo_id; si_content_type := str "audio/opus"; si_direction := duplex; si_purpose := [];
     si_offset := 0; si_codec := codec_opus; si_pcm_params := None; si_offset_type := offset_message |}.

Definition sample_session : Impl :=
  with_established (str "sid") (str "0.3") 5000 false
    (with_registry (set_stream demo_id sample_stream (new_registry 16)) start).

Lemma sample_registry_ok : registry_ok (registry sample_session).
Proof.
  apply (set_stream_ok demo_id sample_stream); [|done|split; [done|done]].
  intros id s. simpl. by rewrite lookup_empty.
Qed.

Lemma sample_session_inv : session_inv sample_session.
Proof. split; [apply sample_registry_ok|done|done|by split; [|by_decide]|simpl; lia|done|done]. Qed.

Lemma sample_sendable : sendable_stream demo_id sample_stream.
Proof.
  unfold sendable_stream. split_and!.
  - done.
  - split; intros c Hc; vm_compute in Hc; by injection Hc as <-.
  - done.
  - split; intros c Hc; vm_compute in Hc; by injection Hc as <-.
  - by exists (str "audio/opus", []).
  - simpl. lia.
  - simpl. lia.
Qed.

Lemma media_send_receive_witness :
  ∃ fr, run demo_env yes (send_media (ST := lp64) demo_id (str "abc") 7) sample_session =
    (Some (Ok tt), with_registry (set_stream demo_id (set_offset sample_stream 1)
       (registry sample_session)) sample_session, [send_binary fr]).
Proof.
  destruct (media_send_receive (ST := lp64) sample_session demo_env yes demo_id sample_stream
    (set_offset sample_stream 1) (str "abc") 7) as (fr&p&Hr&_).
  - done.
  - apply sample_registry_ok.
  - by vm_compute.
  - done.
  - apply sample_sendable.
  - by_decide.
  - by_decide.
  - by vm_compute.
  - done.
  - exists fr. exact Hr.
Defined.

Definition sample_decl : StreamDeclaration :=
  {| sd_content_type := str "audio/opus"; sd_direction := duplex; sd_purpose := []; sd_hint_id := [];
     sd_resume_offset := 0; sd_has_resume_offset := false; sd_offset_type := Some offset_message |}.

Definition sample_export : PersistedSessionState :=
  {| ps_session_id := str "sid"; ps_streams := snapshot (registry sample_session);
     ps_buffer_window_ms := 5000; ps_disconnected_at := 10000000000 |}.

Definition resuming : Impl :=
  with_state initializing (new_session all_callbacks default_config (Some sample_export)).

Lemma resume_roundtrip_witness :
  let s' := (handle_resumption_locked (ST := lp64) (JL := demo_json) (str "sid") None [sample_decl]
               (str "0.3") demo_env resuming).1 in
  state s' = established ∧ streams_ (registry s') = streams_ (registry sample_session).
Proof.
  destruct (resume_roundtrip (ST := lp64) (JL := demo_json) sample_session sample_export demo_env
    resuming demo_env [sample_decl] (str "0.3") None (str "{}")) as (H1&_&_&H2).
  - apply sample_session_inv.
  - by vm_compute.
  - done.
  - by vm_compute.
  - change (stream_key <$> ps_streams sample_export) with [decl_key sample_decl]. done.
  - by intros d ->%list_elem_of_singleton.
  - done.
  - exact (conj H1 H2).
Defined.

Lemma resume_exact_witness :
  decl_key <$> [sample_decl] ≡ₚ stream_key <$> ps_streams sample_export.
Proof.
  apply (resume_exact (ST := lp64) (JL := demo_json) resuming demo_env (str "sid") None [sample_decl]
    (str "0.3") sample_export); [done|by_decide|done|by vm_compute].
Defined.

Lemma ping_rate_bounded_witness :
  answered (ping_run 5 0 0 (2000000000%Z :: replicate 9 2100000000%Z)) = 5%Z.
Proof. apply (ping_rate_bounded 5 0 0 2000000000 (replicate 9 2100000000%Z)); [done|done|by_decide]. Defined.
