(* ===== verification/H2Frame.v ===== *)
(** * libculpeo-transport-h2: framing

    [encode_h2_envelope] of [src/h2_session.hpp] and [RecvState::drain_frames] of
    [src/h2_client.cpp]: CulpeoStream frames travel in HTTP/2 DATA as a 4-byte
    big-endian length, a type byte and the payload. *)

From S2P Require Import Prelude Bytes.

Local Open Scope Z_scope.

Definition kTypeControl : byte := x01.
Definition kTypeMedia : byte := x02.
Definition kH2MaxFrameSize : Z := Z.shiftl 1 20.

(** The envelope; [None] when the function throws [std::invalid_argument]. *)
Definition encode_h2_envelope (type_byte : byte) (payload : bytes) : option bytes :=
  if decide (kH2MaxFrameSize ≤ Z.of_nat (length payload)) then None
  else
    let len := wrap 32 (1 + wrap 32 (Z.of_nat (length payload))) in
    Some ([of_code (Z.land (Z.shiftr len 24) 255); of_code (Z.land (Z.shiftr len 16) 255);
           of_code (Z.land (Z.shiftr len 8) 255); of_code (Z.land len 255); type_byte] ++ payload).

(** The length field of a buffer of at least four bytes. *)
Definition be32 (buf : bytes) : Z :=
  let b i := code (nth i buf x00) in
  Z.lor (Z.lor (Z.lor (Z.shiftl (b 0%nat) 24) (Z.shiftl (b 1%nat) 16)) (Z.shiftl (b 2%nat) 8)) (b 3%nat).

Definition h2_frame : Type := byte * bytes.

Definition encodes (f : h2_frame) (env : bytes) : Prop := encode_h2_envelope f.1 f.2 = Some env.

(** The locals of the loop: the buffer and the frames found. *)
Definition drain_step (s : bytes * list h2_frame)
    : bytes * list h2_frame + (list h2_frame * bytes) :=
  let '(buf, result) := s in
  if decide (length buf < 5)%nat then inr (result, buf)
  else
    let len := be32 buf in
    if decide (len = 0 ∨ kH2MaxFrameSize < len) then inr (result, [])
    else if decide (Z.of_nat (length buf) < wrap 32 (4 + len)) then inr (result, buf)
    else
      let payload := take (Z.to_nat (len - 1)) (drop 5 buf) in
      inl (drop (Z.to_nat (4 + len)) buf, result ++ [(nth 4 buf x00, payload)]).

Definition drain_measure (s : bytes * list h2_frame) : nat := length s.1.

Lemma be32_nonneg buf : 0 ≤ be32 buf.
Proof.
  unfold be32. rewrite !Z.lor_nonneg, !Z.shiftl_nonneg.
  repeat match goal with |- context [code ?b] => pose proof (code_range b); generalize dependent (code b) end.
  intros. lia.
Qed.

#[export] Instance drain_decreasing : Decreasing drain_measure drain_step.
Proof.
  intros [buf result] s'. unfold drain_step, drain_measure. cbn [fst].
  pose proof (be32_nonneg buf). repeat (case_decide; [done|]). intros [= <-]. cbn [fst].
  rewrite length_drop. lia.
Qed.

(** The frames, in order, and what stays in the buffer. *)
Definition drain_frames (buf : bytes) : list h2_frame * bytes :=
  loop drain_measure drain_step (buf, []).

(** ** Facts *)
Lemma lor_shiftl_add a b k : 0 ≤ k → 0 ≤ b < 2 ^ k → Z.lor (Z.shiftl a k) b = a * 2 ^ k + b.
Proof.
  intros Hk Hb. rewrite <-Z.shiftl_mul_pow2 by done.
  assert (Z.land (Z.shiftl a k) b = 0) as Hl.
  { apply Z.bits_inj'. intros n Hn. rewrite Z.land_spec, Z.bits_0.
    destruct (decide (n < k)); [by rewrite Z.shiftl_spec_low|].
    destruct (decide (b = 0)) as [->|]; [by rewrite Z.bits_0, andb_false_r|].
    rewrite (Z.bits_above_log2 b), andb_false_r; [done|lia|].
    apply Z.log2_lt_pow2; [lia|]. apply (Z.lt_le_trans _ (2 ^ k)); [lia|].
    apply Z.pow_le_mono_r; lia. }
  pose proof (Z.add_lor_land (Z.shiftl a k) b). lia.
Qed.

Lemma be32_value b0 b1 b2 b3 rest :
  be32 (b0 :: b1 :: b2 :: b3 :: rest) =
    code b0 * 2 ^ 24 + code b1 * 2 ^ 16 + code b2 * 2 ^ 8 + code b3.
Proof.
  unfold be32. cbn [nth]. rewrite <-!Z.lor_assoc.
  pose proof (code_range b0). pose proof (code_range b1).
  pose proof (code_range b2). pose proof (code_range b3).
  rewrite (lor_shiftl_add (code b2)), (lor_shiftl_add (code b1)), (lor_shiftl_add (code b0)); lia.
Qed.

Lemma be32_encode len rest :
  0 ≤ len < 2 ^ 32 →
  be32 ([of_code (Z.land (Z.shiftr len 24) 255); of_code (Z.land (Z.shiftr len 16) 255);
         of_code (Z.land (Z.shiftr len 8) 255); of_code (Z.land len 255)] ++ rest) = len.
Proof.
  intros Hlen. cbn [app]. rewrite be32_value, !code_of_code.
  change 255 with (Z.ones 8). rewrite !Z.land_ones, !Z.shiftr_div_pow2 by lia.
  change (2 ^ 24) with 16777216. change (2 ^ 16) with 65536. change (2 ^ 8) with 256 in *.
  rewrite !Z.mod_mod by lia. Z.to_euclidean_division_equations. lia.
Qed.

(** The bytes of a length field are those the encoder writes for its value. *)
Lemma be32_bytes b0 b1 b2 b3 rest :
  let len := be32 (b0 :: b1 :: b2 :: b3 :: rest) in
  [of_code (Z.land (Z.shiftr len 24) 255); of_code (Z.land (Z.shiftr len 16) 255);
   of_code (Z.land (Z.shiftr len 8) 255); of_code (Z.land len 255)] = [b0; b1; b2; b3].
Proof.
  cbv zeta. rewrite be32_value. pose proof (code_range b0). pose proof (code_range b1).
  pose proof (code_range b2). pose proof (code_range b3).
  change 255 with (Z.ones 8). rewrite !Z.land_ones, !Z.shiftr_div_pow2 by lia.
  change (2 ^ 24) with 16777216. change (2 ^ 16) with 65536. change (2 ^ 8) with 256 in *.
  assert (∀ z b, z = code b → of_code z = b) as Hof by (intros z b ->; apply of_code_code).
  rewrite (Hof _ b0), (Hof _ b1), (Hof _ b2), (Hof _ b3);
    [done|Z.to_euclidean_division_equations; lia..].
Qed.

Lemma drain_loop buf result :
  loop drain_measure drain_step (buf, result) =
    (result ++ (drain_frames buf).1, (drain_frames buf).2).
Proof.
  unfold drain_frames. revert result.
  induction buf as [buf IH] using (induction_ltof1 _ (@length byte)). intros result.
  rewrite !(loop_unfold _ _ (buf, _)).
  pose proof (λ r s', drain_decreasing (buf, r) s') as Hdec. unfold drain_step in *.
  repeat (case_decide; [cbn [fst snd]; by rewrite app_nil_r|]). cbv zeta.
  specialize (Hdec result _ eq_refl). unfold drain_measure in Hdec. cbn [fst] in Hdec.
  rewrite (IH _ Hdec (result ++ _)), (IH _ Hdec ([] ++ _)). cbn [fst snd]. by rewrite <-!app_assoc.
Qed.

Lemma drain_envelope t p env rest :
  encode_h2_envelope t p = Some env →
  drain_frames (env ++ rest) = ((t, p) :: (drain_frames rest).1, (drain_frames rest).2).
Proof.
  unfold encode_h2_envelope. change kH2MaxFrameSize with 1048576. case_decide; [done|]. cbv zeta.
  rewrite (wrap_small 32 (Z.of_nat (length p))) by lia. rewrite wrap_small by lia. intros [= <-].
  set (len := 1 + Z.of_nat (length p)). unfold drain_frames at 1. rewrite loop_unfold.
  unfold drain_step at 1. rewrite decide_False by (cbn [app length]; lia).
  pose proof (be32_encode len (t :: p ++ rest) ltac:(lia)) as Hbe. cbn [app] in Hbe |- *. rewrite Hbe.
  change kH2MaxFrameSize with 1048576. rewrite decide_False by lia.
  rewrite wrap_small by lia. rewrite decide_False by (cbn [length]; rewrite length_app; lia).
  cbv zeta. rewrite drain_loop.
  replace (Z.to_nat (4 + len)) with (5 + length p)%nat by lia.
  replace (Z.to_nat (len - 1)) with (length p) by lia.
  cbn [drop Nat.add nth app]. by rewrite drop_0, drop_app_length, take_app_length.
Qed.

(** An incomplete envelope stays in the buffer. *)
Lemma drain_partial t p env pre :
  encode_h2_envelope t p = Some env → (∃ s, s ≠ [] ∧ env = pre ++ s) → drain_frames pre = ([], pre).
Proof.
  unfold encode_h2_envelope. change kH2MaxFrameSize with 1048576. case_decide; [done|]. cbv zeta.
  rewrite (wrap_small 32 (Z.of_nat (length p))) by lia. rewrite wrap_small by lia. intros [= <-].
  set (len := 1 + Z.of_nat (length p)). intros (s&Hs&Henv).
  unfold drain_frames. rewrite loop_unfold. unfold drain_step. case_decide as Hlen; [done|].
  assert (be32 pre = len) as ->.
  { pose proof (be32_encode len (t :: p) ltac:(lia)) as Hbe. cbn [app] in Hbe, Henv. rewrite Henv in Hbe.
    destruct pre as [|b0 [|b1 [|b2 [|b3 pre]]]]; simpl in Hlen; try lia. done. }
  change kH2MaxFrameSize with 1048576. rewrite decide_False by lia.
  rewrite wrap_small by lia. rewrite decide_True; [done|].
  apply (f_equal length) in Henv. rewrite !length_app in Henv. simpl length in Henv.
  destruct s; [done|]. simpl in Henv. lia.
Qed.

(** The decoder gives up on a buffer that starts with such a length field. *)
Definition malformed (buf : bytes) : Prop :=
  (5 ≤ length buf)%nat ∧ (be32 buf = 0 ∨ kH2MaxFrameSize < be32 buf).

(** A step that finds a frame removes exactly its envelope. *)
Lemma drain_step_sound buf result buf' result' :
  drain_step (buf, result) = inl (buf', result') →
  ∃ f env, result' = result ++ [f] ∧ encodes f env ∧ buf = env ++ buf'.
Proof.
  unfold drain_step. case_decide as Hl; [done|]. cbv zeta. case_decide as Hm; [done|].
  case_decide as Hw; [done|]. intros [= <- <-].
  destruct buf as [|b0 [|b1 [|b2 [|b3 [|t rest]]]]]; simpl in Hl; try lia.
  pose proof (be32_nonneg (b0 :: b1 :: b2 :: b3 :: t :: rest)) as Hpos.
  pose proof (be32_bytes b0 b1 b2 b3 (t :: rest)) as Hb. cbv zeta in Hb.
  set (len := be32 _) in *. change kH2MaxFrameSize with 1048576 in Hm.
  rewrite wrap_small in Hw by lia. cbn [length] in Hw. cbn [drop nth].
  replace (Z.to_nat (4 + len)) with (5 + Z.to_nat (len - 1))%nat by lia. cbn [drop Nat.add].
  rewrite drop_0. set (n := Z.to_nat (len - 1)).
  exists (t, take n rest), (b0 :: b1 :: b2 :: b3 :: t :: take n rest). split_and!; [done| |].
  - unfold encodes, encode_h2_envelope. cbn [fst snd]. change kH2MaxFrameSize with 1048576.
    rewrite length_take_le by lia. rewrite decide_False by lia.
    rewrite (wrap_small 32 (Z.of_nat n)), wrap_small by lia.
    replace (1 + Z.of_nat n) with len by lia. injection Hb as -> -> -> ->. done.
  - cbn [app]. do 5 f_equal. symmetry. apply take_drop.
Qed.

(** The frames found are encoded at the front of the buffer; what follows them is
    kept, unless it is malformed. *)
Lemma drain_frames_sound buf :
  let '(frames, rest) := drain_frames buf in
  ∃ envs tail, Forall2 encodes frames envs ∧ buf = concat envs ++ tail ∧
    (rest = tail ∨ rest = [] ∧ malformed tail).
Proof.
  enough (∀ s, let '(frames, rest) := loop drain_measure drain_step s in
    ∃ fs envs tail, frames = s.2 ++ fs ∧ Forall2 encodes fs envs ∧ s.1 = concat envs ++ tail ∧
      (rest = tail ∨ rest = [] ∧ malformed tail)) as H.
  { specialize (H (buf, [])). unfold drain_frames. destruct (loop _ _ _) as [frames rest].
    destruct H as (fs&envs&tail&->&?&?&?). by exists envs, tail. }
  apply (loop_ind _ _ (λ s r, let '(frames, rest) := r in
    ∃ fs envs tail, frames = s.2 ++ fs ∧ Forall2 encodes fs envs ∧ s.1 = concat envs ++ tail ∧
      (rest = tail ∨ rest = [] ∧ malformed tail))).
  - intros [b res] [frames rest] Hs. exists [], [], b. cbn [fst snd concat app].
    rewrite app_nil_r. unfold drain_step in Hs. case_decide as Hl; [by simplify_eq; eauto|].
    cbv zeta in Hs. case_decide; [simplify_eq; split_and!; [done|done|done|]; right; split; [done|]|].
    { split; [lia|done]. }
    case_decide; by simplify_eq; eauto.
  - intros [b res] [b' res'] Hs. destruct (loop _ _ _) as [frames rest].
    intros (fs&envs&tail&->&Hf&Hb&Hr). cbn [fst snd] in *.
    destruct (drain_step_sound _ _ _ _ Hs) as (f&env&->&He&->).
    exists (f :: fs), (env :: envs), tail. rewrite <-app_assoc. split_and!; [done|by constructor| |done].
    cbn [concat]. by rewrite Hb, app_assoc.
Qed.

(** ** Reassembly of a chunked stream *)

(** The receive path: append each DATA chunk, then take the complete frames. *)
Fixpoint feed (buf : bytes) (chunks : list bytes) : list h2_frame * bytes :=
  match chunks with
  | [] => ([], buf)
  | c :: chunks =>
      let '(frames, buf) := drain_frames (buf ++ c) in
      let '(frames', buf) := feed buf chunks in
      (frames ++ frames', buf)
  end.

Lemma drain_prefix frames envs : Forall2 encodes frames envs → ∀ s tail,
  s ++ tail = concat envs →
  ∃ fs1 fs2 envs2 buf, frames = fs1 ++ fs2 ∧ Forall2 encodes fs2 envs2 ∧
    drain_frames s = (fs1, buf) ∧ buf ++ tail = concat envs2.
Proof.
  induction 1 as [|[t p] env frames envs Henv Hrest IH]; intros s tail Hs; cbn [concat] in Hs.
  - apply app_eq_nil in Hs as [-> ->]. by exists [], [], [], [].
  - destruct (decide (length env ≤ length s)%nat) as [Hle|Hgt].
    + assert (∃ s', s = env ++ s') as [s' ->].
      { exists (drop (length env) s). rewrite <-(take_drop (length env) s) at 1. f_equal.
        rewrite <-(take_app_le s tail), Hs by done. apply take_app_length. }
      rewrite <-app_assoc in Hs. apply app_inv_head in Hs.
      destruct (IH s' tail Hs) as (fs1&fs2&envs2&buf&->&Hfs2&Hd&Hbuf).
      exists ((t, p) :: fs1), fs2, envs2, buf. split_and!; [done|done| |done].
      by rewrite (drain_envelope t p), Hd.
    + exists [], ((t, p) :: frames), (env :: envs), s.
      split_and!; [done|by constructor| |done]. eapply drain_partial; [exact Henv|].
      exists (drop (length s) env). split.
      * intros Hn%(f_equal length). rewrite length_drop in Hn. simpl in Hn. lia.
      * rewrite <-(take_drop (length s) env) at 1. f_equal.
        rewrite <-(take_app_le env (concat envs)), <-Hs by lia. apply take_app_length.
Qed.

(** What stays in the buffer holds no complete frame. *)
Lemma drain_idem buf : drain_frames (drain_frames buf).2 = ([], (drain_frames buf).2).
Proof.
  unfold drain_frames at 2 3.
  apply (loop_inv _ _ (λ _, True) (λ r, drain_frames r.2 = ([], r.2))); [done..|].
  intros [b res] r _ Hr. unfold drain_frames. rewrite loop_unfold. unfold drain_step in *.
  destruct (decide (length b < 5)%nat) as [Hl|Hl].
  { injection Hr as <-. cbn [snd]. by rewrite decide_True by done. }
  destruct (decide (be32 b = 0 ∨ kH2MaxFrameSize < be32 b)) as [|Hb]; [by injection Hr as <-|].
  destruct (decide (Z.of_nat (length b) < wrap 32 (4 + be32 b))) as [Hw|]; [|done].
  injection Hr as <-. cbn [snd]. by rewrite decide_False, decide_False, decide_True by done.
Qed.

Lemma feed_chunks chunks : ∀ frames envs buf,
  Forall2 encodes frames envs → buf ++ concat chunks = concat envs →
  drain_frames buf = ([], buf) → feed buf chunks = (frames, []).
Proof.
  induction chunks as [|c chunks IH]; intros frames envs buf Hfs Hcat Hbuf; cbn [concat feed] in *.
  - destruct (drain_prefix _ _ Hfs _ _ Hcat) as (fs1&fs2&envs2&buf'&->&Hfs2&Hd&Hb).
    rewrite Hbuf in Hd. injection Hd as <- <-.
    rewrite app_nil_r in Hb. destruct Hfs2 as [|[t p] env fs2 envs2 He Hfs2]; [by rewrite Hb|].
    cbn [concat] in Hb. rewrite Hb, (drain_envelope t p) in Hbuf by exact He. done.
  - rewrite app_assoc in Hcat.
    destruct (drain_prefix _ _ Hfs _ _ Hcat) as (fs1&fs2&envs2&buf'&->&Hfs2&Hd&Hb).
    rewrite Hd. rewrite (IH fs2 envs2 buf'); [done..|].
    pose proof (drain_idem (buf ++ c)) as Hi. by rewrite Hd in Hi.
Qed.
