(* ===== verification/H2Session.v ===== *)
(** * libculpeo-transport-h2: the HTTP/2 session

    [H2Session] of [src/h2_session.hpp] and [src/h2_client.cpp]: the map of
    streams, the nghttp2 callbacks that feed it, and the frame operations, all of
    which run on one strand.  nghttp2, the socket and asio are not part of the
    sources: calls to them are the effects an operation emits, their results are
    arguments, and asio's channel is the class [ChannelLib]. *)

From S2P Require Import Prelude Bytes H2Frame.

(** A message of the per-stream channel: a frame or end-of-file. *)
Inductive channel_item := item_frame (type : byte) (payload : bytes) | item_eof.

(** [asio::experimental::channel]: construction, [try_send], which never waits
    and reports whether the message was accepted, and the completion of
    [async_receive], [None] while it has to wait.  The laws are its documented
    behaviour: a bounded first-in first-out buffer. *)
Class ChannelLib := {
  channel : Type;
  new_channel : nat → channel;
  try_send : channel_item → channel → bool * channel;
  async_receive : channel → option (channel_item * channel);
  buffered : channel → list channel_item;
  capacity : channel → nat;
  new_channel_spec n : buffered (new_channel n) = [] ∧ capacity (new_channel n) = n;
  try_send_spec i c :
    let '(accepted, c') := try_send i c in
    capacity c' = capacity c ∧
    accepted = bool_decide (length (buffered c) < capacity c) ∧
    buffered c' = if accepted then buffered c ++ [i] else buffered c;
  async_receive_spec c :
    match async_receive c with
    | None => buffered c = []
    | Some (i, c') => buffered c = i :: buffered c' ∧ capacity c' = capacity c
    end;
}.

Inductive Mode := Client | Server.

#[export] Instance Mode_eq_dec : EqDecision Mode.
Proof. solve_decision. Defined.

(** Error codes of HTTP/2 that the code sends. *)
Inductive h2_error := NGHTTP2_NO_ERROR | NGHTTP2_INTERNAL_ERROR | NGHTTP2_REFUSED_STREAM
| other_h2_error (code : Z).

(** Calls to nghttp2 and the socket, and, with no call, the note that a coroutine put
    a frame into the queue of a stream. *)
Inductive effect :=
| submit_request_call (host path : bytes)
| submit_rst_stream (sid : Z) (e : h2_error)
| submit_response (sid : Z)
| resume_data (sid : Z)
| submit_goaway
| spawn_handler (sid : Z)
| drain_to_wire
| socket_close
| frame_queued (sid : Z) (type : byte) (payload : bytes).

(** Exceptions thrown to the caller. *)
Inductive h2_exception := broken_pipe | invalid_argument.

Section session.
Context {CL : ChannelLib}.

Record SendBuf := mkSendBuf { sb_data : bytes; sb_offset : nat }.

Record StreamState := mkStreamState {
  recv_buf : bytes;
  send_pending : list SendBuf;
  send_closed : bool;
  chan : channel;
  response_sent : bool;
  st_authorization : bytes;
  st_content_type : bytes;
  st_proto_version : bytes;
}.

Record H2Session := mkH2 {
  mode : Mode;
  h2_closed : bool;
  max_concurrent_streams : Z;
  streams : gmap Z StreamState;
  refused_streams : gset Z;
  has_new_stream_cb : bool;
}.

Definition kChannelCapacity : nat := 256.
Definition kDefaultMaxConcurrentStreams : Z := 100.

Definition new_h2_session (m : Mode) (max_streams : Z) : H2Session :=
  {| mode := m; h2_closed := false; max_concurrent_streams := max_streams; streams := ∅;
     refused_streams := ∅; has_new_stream_cb := false |}.

Definition set_streams (m : gmap Z StreamState) (h : H2Session) : H2Session :=
  mkH2 (mode h) (h2_closed h) (max_concurrent_streams h) m (refused_streams h) (has_new_stream_cb h).
Definition set_refused (r : gset Z) (h : H2Session) : H2Session :=
  mkH2 (mode h) (h2_closed h) (max_concurrent_streams h) (streams h) r (has_new_stream_cb h).
Definition set_closed (h : H2Session) : H2Session :=
  mkH2 (mode h) true (max_concurrent_streams h) (streams h) (refused_streams h) (has_new_stream_cb h).

Definition set_new_stream_handler (h : H2Session) : H2Session :=
  mkH2 (mode h) (h2_closed h) (max_concurrent_streams h) (streams h) (refused_streams h) true.

Definition new_stream : StreamState :=
  {| recv_buf := []; send_pending := []; send_closed := false; chan := new_channel kChannelCapacity;
     response_sent := false; st_authorization := []; st_content_type := []; st_proto_version := [] |}.

(** The stream's state, created when it is missing. *)
Definition get_or_create_stream (sid : Z) (h : H2Session) : StreamState * H2Session :=
  match streams h !! sid with
  | Some st => (st, h)
  | None => (new_stream, set_streams (<[sid := new_stream]> (streams h)) h)
  end.

Definition put_stream (sid : Z) (st : StreamState) (h : H2Session) : H2Session :=
  set_streams (<[sid := st]> (streams h)) h.

(** ** nghttp2 callbacks *)

(** What [data_read_callback] returns: bytes (and whether EOF is flagged), or
    [NGHTTP2_ERR_DEFERRED]. *)
Inductive read_result := read_bytes (data : bytes) (eof : bool) | read_deferred.

Definition data_read_callback (sid : Z) (length : nat) (h : H2Session) : read_result * H2Session :=
  match streams h !! sid with
  | None => (read_bytes [] true, h)
  | Some st =>
      match send_pending st with
      | [] => if send_closed st then (read_bytes [] true, h) else (read_deferred, h)
      | front :: rest =>
          let avail := Datatypes.length (sb_data front) - sb_offset front in
          let n := Nat.min avail length in
          let front' := mkSendBuf (sb_data front) (sb_offset front + n) in
          let pending :=
            if decide (Datatypes.length (sb_data front) ≤ sb_offset front') then rest
            else front' :: rest in
          (read_bytes (take n (drop (sb_offset front) (sb_data front))) false,
           put_stream sid (mkStreamState (recv_buf st) pending (send_closed st) (chan st)
             (response_sent st) (st_authorization st) (st_content_type st) (st_proto_version st)) h)
      end
  end.

(** The fields of a received nghttp2 frame that the callbacks read. *)
Record ng_frame := mkNgFrame { hd_headers : bool; cat_request : bool; hd_stream_id : Z }.

(** A complete request HEADERS frame at a server. *)
Definition is_request (f : ng_frame) (h : H2Session) : bool :=
  match mode h with Server => hd_headers f && cat_request f | Client => false end.

Definition on_begin_headers_callback (f : ng_frame) (h : H2Session) : H2Session * list effect :=
  if is_request f h then
    let sid := hd_stream_id f in
    if decide (max_concurrent_streams h ≤ Z.of_nat (size (streams h)))%Z then
      (set_refused ({[ sid ]} ∪ refused_streams h) h, [submit_rst_stream sid NGHTTP2_REFUSED_STREAM])
    else ((get_or_create_stream sid h).2, [])
  else (h, []).

Definition on_header_callback (f : ng_frame) (k v : bytes) (h : H2Session) : H2Session :=
  if negb (is_request f h) then h
  else if decide (hd_stream_id f ∈ refused_streams h) then h
  else
    match streams h !! hd_stream_id f with
    | None => h
    | Some st =>
        let upd a c p := put_stream (hd_stream_id f) (mkStreamState (recv_buf st) (send_pending st)
          (send_closed st) (chan st) (response_sent st) a c p) h in
        if decide (k = str "authorization") then upd v (st_content_type st) (st_proto_version st)
        else if decide (k = str "content-type") then upd (st_authorization st) v (st_proto_version st)
        else if decide (k = str "culpeostream-version")
        then upd (st_authorization st) (st_content_type st) v
        else h
    end.

Definition submit_server_response (sid : Z) (h : H2Session) : H2Session * list effect :=
  let '(st, h) := get_or_create_stream sid h in
  if response_sent st then (h, [])
  else (put_stream sid (mkStreamState (recv_buf st) (send_pending st) (send_closed st) (chan st)
          true (st_authorization st) (st_content_type st) (st_proto_version st)) h,
        [submit_response sid]).

(** Content types a request may have. *)
Definition acceptable (ct : bytes) : bool :=
  bool_decide (ct = []) || bool_decide (ct = str "application/culpeostream") ||
  bool_decide (ct = str "application/octet-stream").

Definition on_frame_recv_callback (f : ng_frame) (h : H2Session) : H2Session * list effect :=
  if negb (is_request f h) then (h, [])
  else
    let sid := hd_stream_id f in
    if decide (sid ∈ refused_streams h) then (h, [])
    else if from_option (λ st, negb (acceptable (st_content_type st))) false (streams h !! sid) then
      (set_refused ({[ sid ]} ∪ refused_streams h) h, [submit_rst_stream sid NGHTTP2_INTERNAL_ERROR])
    else
      let '(h, es) := submit_server_response sid h in
      (h, es ++ (if has_new_stream_cb h then [spawn_handler sid] else [])).

(** Hands the complete frames to the channel; a refused message is lost. *)
Fixpoint send_all (frames : list h2_frame) (c : channel) : channel :=
  match frames with
  | [] => c
  | (t, p) :: frames => send_all frames (try_send (item_frame t p) c).2
  end.

Definition dispatch_recv_frames (sid : Z) (h : H2Session) : H2Session :=
  match streams h !! sid with
  | None => h
  | Some st =>
      let '(frames, buf) := drain_frames (recv_buf st) in
      put_stream sid (mkStreamState buf (send_pending st) (send_closed st) (send_all frames (chan st))
        (response_sent st) (st_authorization st) (st_content_type st) (st_proto_version st)) h
  end.

Definition on_data_chunk_recv_callback (sid : Z) (data : bytes) (h : H2Session) : H2Session :=
  if decide (sid ∈ refused_streams h) then h
  else
    let '(st, h) := get_or_create_stream sid h in
    dispatch_recv_frames sid (put_stream sid (mkStreamState (recv_buf st ++ data) (send_pending st)
      (send_closed st) (chan st) (response_sent st) (st_authorization st) (st_content_type st)
      (st_proto_version st)) h).

(** The stream is forgotten; its channel, with the end-of-file just sent, is
    returned to be destroyed. *)
Definition on_stream_close_callback (sid : Z) (h : H2Session) : H2Session * option channel :=
  let h := set_refused (refused_streams h ∖ {[ sid ]}) h in
  match streams h !! sid with
  | None => (h, None)
  | Some st => (set_streams (delete sid (streams h)) h, Some (try_send item_eof (chan st)).2)
  end.

(** ** Frame operations *)
Definition get_stream_header (sid : Z) (name : bytes) (h : H2Session) : bytes :=
  match streams h !! sid with
  | None => []
  | Some st =>
      if decide (name = str "authorization") then st_authorization st
      else if decide (name = str "content-type") then st_content_type st
      else if decide (name = str "culpeostream-version") then st_proto_version st
      else []
  end.

Definition enqueue_send (sid : Z) (envelope : bytes) (h : H2Session) : H2Session * list effect :=
  let '(st, h) := get_or_create_stream sid h in
  (put_stream sid (mkStreamState (recv_buf st) (send_pending st ++ [mkSendBuf envelope 0])
     (send_closed st) (chan st) (response_sent st) (st_authorization st) (st_content_type st)
     (st_proto_version st)) h,
   match send_pending st with [] => [resume_data sid] | _ => [] end).

Definition send_frame (sid : Z) (type_byte : byte) (payload : bytes) (h : H2Session)
    : expected h2_exception unit * H2Session * list effect :=
  if h2_closed h then (Err broken_pipe, h, [])
  else if decide (kH2MaxFrameSize ≤ Z.of_nat (length payload))%Z then (Err invalid_argument, h, [])
  else
    match encode_h2_envelope type_byte payload with
    | None => (Err invalid_argument, h, [])
    | Some envelope =>
        let '(h, es) := enqueue_send sid envelope h in
        (Ok tt, h, es ++ [drain_to_wire])
    end.

(** [receive_frame] up to its wait: the channel it waits on. *)
Definition receive_frame (sid : Z) (h : H2Session) : channel * H2Session :=
  let '(st, h) := get_or_create_stream sid h in (chan st, h).

(** The end of its wait: the next message of the stream's channel, [Err] for
    end-of-file. *)
Definition receive_frame_end (sid : Z) (h : H2Session)
    : option (expected unit h2_frame) * H2Session :=
  match streams h !! sid with
  | None => (None, h)
  | Some st =>
      match async_receive (chan st) with
      | None => (None, h)
      | Some (i, c) =>
          (Some match i with item_frame t p => Ok (t, p) | item_eof => Err tt end,
           put_stream sid (mkStreamState (recv_buf st) (send_pending st) (send_closed st) c
             (response_sent st) (st_authorization st) (st_content_type st) (st_proto_version st)) h)
      end
  end.

(** [resumed] is whether [nghttp2_session_resume_data] returned 0. *)
Definition close_stream (sid error_code : Z) (resumed : bool) (h : H2Session)
    : H2Session * list effect :=
  if h2_closed h then (h, [])
  else
    let ng_err := if decide (error_code = 0%Z) then NGHTTP2_NO_ERROR else other_h2_error error_code in
    match streams h !! sid with
    | Some st =>
        (put_stream sid (mkStreamState (recv_buf st) (send_pending st) true (chan st)
           (response_sent st) (st_authorization st) (st_content_type st) (st_proto_version st)) h,
         resume_data sid ::
         (if resumed then [] else [submit_rst_stream sid ng_err]) ++ [drain_to_wire])
    | None => (h, [submit_rst_stream sid ng_err; drain_to_wire])
    end.

(** [close_session] up to its wait for the write, and after it. *)
Definition close_session_begin (h : H2Session) : H2Session * list effect :=
  if h2_closed h then (h, []) else (h, [submit_goaway; drain_to_wire]).
Definition close_session_end (h : H2Session) : H2Session * list effect :=
  (set_closed h, [socket_close]).

(** [nghttp2_submit_request] returned [sid]. *)
Definition submit_request (host path : bytes) (sid : Z) (h : H2Session)
    : Z * H2Session * list effect :=
  if decide (sid < 0)%Z then ((-1)%Z, h, [submit_request_call host path])
  else (sid, (get_or_create_stream sid h).2, [submit_request_call host path; drain_to_wire]).

(** The end of [run]: every stream is told, and the session is closed. *)
Definition run_exit (h : H2Session) : H2Session * list effect :=
  (set_closed (set_streams ((λ st, mkStreamState (recv_buf st) (send_pending st) (send_closed st)
     (try_send item_eof (chan st)).2 (response_sent st) (st_authorization st) (st_content_type st)
     (st_proto_version st)) <$> streams h) h),
   [socket_close]).

(** ** [H2Transport]: one stream of a session *)
Definition h2_send_text (sid : Z) (frame : bytes) (h : H2Session) := send_frame sid kTypeControl frame h.
Definition h2_send_binary (sid : Z) (frame : bytes) (h : H2Session) := send_frame sid kTypeMedia frame h.
Definition h2_close (sid code : Z) (reason : bytes) (resumed : bool) (h : H2Session) :=
  close_stream sid 0 resumed h.
Definition request_header (sid : Z) (name : bytes) (h : H2Session) := get_stream_header sid name h.
End session.
