(* ===== verification/H2Facts.v ===== *)
(** * libculpeo-transport-h2: facts about the session

    What one stream's queues do under the frame operations and the nghttp2
    callbacks: the send queue is a byte stream that [data_read_callback] hands out
    in order, and the receive side delivers the reassembled frames to the
    stream's channel while it has room. *)

From S2P Require Import Prelude Bytes H2Frame H2Session.

Section facts.
Context {CL : ChannelLib}.

(** The stream's state, or the one it would be created with. *)
Definition stream_of (sid : Z) (h : H2Session) : StreamState :=
  default new_stream (streams h !! sid).

(** The bytes a send queue still has to hand out. *)
Definition pending_bytes (q : list SendBuf) : bytes :=
  concat ((λ b, drop (sb_offset b) (sb_data b)) <$> q).
Definition queued (sid : Z) (h : H2Session) : bytes := pending_bytes (send_pending (stream_of sid h)).

(** Every buffer of the queue has bytes left. *)
Definition queue_ok (sid : Z) (h : H2Session) : Prop :=
  Forall (λ b, sb_offset b < length (sb_data b)) (send_pending (stream_of sid h)).

Definition to_item (f : h2_frame) : channel_item := item_frame f.1 f.2.

Lemma stream_of_put sid st h : stream_of sid (put_stream sid st h) = st.
Proof. unfold stream_of, put_stream, set_streams. cbn [streams]. by rewrite lookup_insert_eq. Qed.

Lemma get_or_create_stream_spec sid h st h' :
  get_or_create_stream sid h = (st, h') →
  st = stream_of sid h ∧ streams h' !! sid = Some st ∧ h2_closed h' = h2_closed h ∧
  refused_streams h' = refused_streams h ∧ streams h' = <[sid := st]> (streams h).
Proof.
  unfold get_or_create_stream, stream_of. destruct (streams h !! sid) as [st0|] eqn:Hs; intros [= <- <-].
  - split_and!; try done. by rewrite insert_id.
  - cbn [set_streams streams h2_closed refused_streams]. by rewrite lookup_insert_eq.
Qed.

(** ** Sending *)
Lemma send_frame_ok sid t p h :
  h2_closed h = false → (Z.of_nat (length p) < kH2MaxFrameSize)%Z → queue_ok sid h →
  ∃ env h' es, encodes (t, p) env ∧ send_frame sid t p h = (Ok tt, h', es) ∧
    queued sid h' = queued sid h ++ env ∧ queue_ok sid h' ∧ h2_closed h' = false.
Proof.
  intros Hc Hp Hq. unfold send_frame, encodes. rewrite Hc, decide_False by lia.
  destruct (encode_h2_envelope t p) as [env|] eqn:He;
    [|unfold encode_h2_envelope in He; by rewrite decide_False in He by lia].
  unfold enqueue_send. destruct (get_or_create_stream sid h) as [st h1] eqn:Hg.
  apply get_or_create_stream_spec in Hg as (->&_&Hc'&_&_).
  eexists env, _, _. split_and!; [done|done| | |by rewrite <-Hc, <-Hc'].
  - unfold queued, pending_bytes. rewrite stream_of_put. cbn [send_pending].
    rewrite fmap_app, concat_app. cbn. by rewrite app_nil_r.
  - unfold queue_ok. rewrite stream_of_put. cbn [send_pending]. apply Forall_app_2; [done|].
    apply Forall_singleton. cbn [sb_offset sb_data].
    unfold encode_h2_envelope in He. case_decide; [done|]. injection He as <-. cbn [app length]. lia.
Qed.

(** What a read of the send queue gives. *)
Lemma data_read_spec sid len h :
  let '(r, h') := data_read_callback sid len h in
  match r with
  | read_bytes d eof =>
      queued sid h = d ++ queued sid h' ∧ length d ≤ len ∧
      (eof = true ↔ send_pending (stream_of sid h) = [] ∧
        (streams h !! sid = None ∨ send_closed (stream_of sid h) = true)) ∧
      (eof = true → d = []) ∧
      (eof = false → queue_ok sid h → 1 ≤ len → d ≠ [])
  | read_deferred => h' = h ∧ queued sid h = [] ∧ is_Some (streams h !! sid) ∧
      send_closed (stream_of sid h) = false
  end ∧ (queue_ok sid h → queue_ok sid h').
Proof.
  unfold data_read_callback, queued, queue_ok.
  destruct (streams h !! sid) as [st|] eqn:Hs;
    [|unfold stream_of; rewrite Hs; cbn; split; [|done]; split_and!; try done; [lia|tauto]].
  assert (stream_of sid h = st) as Hst by (unfold stream_of; by rewrite Hs).
  destruct (send_pending st) as [|b q] eqn:Hq.
  - destruct (send_closed st) eqn:Hc; rewrite ?Hst, ?Hq, ?Hc; (split; [|done]); cbn;
      split_and!; try done; [lia|tauto].
  - set (n := Nat.min _ len). set (q' := if decide _ then _ else _). rewrite stream_of_put, Hst, Hq.
    cbn [send_pending]. unfold pending_bytes. cbn [fmap list_fmap concat].
    assert (length (take n (drop (sb_offset b) (sb_data b))) = n) as Hlen.
    { rewrite length_take, length_drop. lia. }
    split; [split_and!|].
    + rewrite <-(take_drop n (drop (sb_offset b) (sb_data b))) at 1. rewrite <-app_assoc. f_equal.
      rewrite drop_drop. unfold q'. case_decide as Hd; cbn [sb_offset] in Hd |- *; [|done].
      by rewrite drop_ge by lia.
    + lia.
    + naive_solver.
    + done.
    + intros _ Hok Hl Hn. rewrite Hn in Hlen. simpl in Hlen. apply Forall_cons_1 in Hok as [Hok _].
      unfold n in Hlen. lia.
    + intros [Hb Hok]%Forall_cons_1. unfold q'. case_decide as Hd; [done|]. constructor; [|done].
      cbn [sb_offset sb_data] in *. lia.
Qed.

(** Successive reads, and the chunks they hand to nghttp2. *)
Fixpoint pull (sid : Z) (lens : list nat) (h : H2Session) : list bytes * H2Session :=
  match lens with
  | [] => ([], h)
  | len :: lens =>
      let '(r, h) := data_read_callback sid len h in
      let '(ds, h) := pull sid lens h in
      (match r with read_bytes d _ => d :: ds | read_deferred => ds end, h)
  end.

Lemma pull_fifo sid lens : ∀ h,
  queued sid h = concat (pull sid lens h).1 ++ queued sid (pull sid lens h).2.
Proof.
  induction lens as [|len lens IH]; intros h; cbn [pull]; [done|].
  pose proof (data_read_spec sid len h) as Hr. destruct (data_read_callback sid len h) as [r h'].
  specialize (IH h'). destruct (pull sid lens h') as [ds h'']. cbn [fst snd] in *.
  destruct r as [d eof|]; destruct Hr as [Hr _].
  - destruct Hr as (->&_). cbn [concat]. by rewrite <-app_assoc, IH.
  - by destruct Hr as (->&_).
Qed.

Lemma pull_queue_ok sid lens : ∀ h, queue_ok sid h → queue_ok sid (pull sid lens h).2.
Proof.
  induction lens as [|len lens IH]; intros h Hok; cbn [pull]; [done|].
  pose proof (data_read_spec sid len h) as Hr. destruct (data_read_callback sid len h) as [r h'].
  destruct Hr as [_ Hr]. specialize (IH h' (Hr Hok)). by destruct (pull sid lens h').
Qed.

(** Enough reads empty the queue. *)
Lemma pull_drains sid lens : ∀ h,
  queue_ok sid h → Forall (λ l, 1 ≤ l) lens → length (queued sid h) ≤ length lens →
  queued sid (pull sid lens h).2 = [].
Proof.
  induction lens as [|len lens IH]; intros h Hok Hl Hn; cbn [pull length] in *.
  { destruct (queued sid h) eqn:?; [done|simpl in Hn; lia]. }
  apply Forall_cons_1 in Hl as [Hlen Hl].
  pose proof (data_read_spec sid len h) as Hr. destruct (data_read_callback sid len h) as [r h'].
  specialize (IH h'). destruct (pull sid lens h') as [ds h'']. cbn [fst snd] in *.
  destruct Hr as [Hr Hok']. specialize (Hok' Hok). apply IH; [done..|].
  destruct r as [d [|]|].
  - destruct Hr as (Hq&_&Heof&Hd&_). rewrite (Hd eq_refl) in Hq. cbn in Hq. rewrite <-Hq.
    unfold queued. destruct Heof as [Heof _]. destruct (Heof eq_refl) as [-> _]. cbn. lia.
  - destruct Hr as (Hq&_&_&_&Hd). specialize (Hd eq_refl Hok Hlen). rewrite Hq, length_app in Hn.
    destruct d; [done|]. simpl in Hn. lia.
  - destruct Hr as (->&->&_). cbn. lia.
Qed.

(** ** Receiving *)
Lemma send_all_spec frames : ∀ c,
  capacity (send_all frames c) = capacity c ∧
  buffered (send_all frames c) =
    buffered c ++ (to_item <$> take (capacity c - length (buffered c)) frames).
Proof.
  induction frames as [|[t p] frames IH]; intros c; cbn [send_all].
  { by rewrite take_nil, app_nil_r. }
  pose proof (try_send_spec (item_frame t p) c) as Hc. destruct (try_send _ c) as [a c']. cbn [snd].
  destruct Hc as (Hcap&->&Hbuf). destruct (IH c') as [Hcap' Hbuf']. rewrite Hbuf', Hcap', Hbuf, Hcap.
  split; [done|]. case_bool_decide as Hroom.
  - replace (capacity c - length (buffered c)) with
      (S (capacity c - length (buffered c ++ [item_frame t p]))) by (rewrite length_app; simpl; lia).
    by rewrite <-app_assoc.
  - by replace (capacity c - length (buffered c)) with 0 by lia.
Qed.

Lemma on_data_chunk_spec sid data h :
  sid ∉ refused_streams h →
  let '(frames, buf) := drain_frames (recv_buf (stream_of sid h) ++ data) in
  let h' := on_data_chunk_recv_callback sid data h in
  refused_streams h' = refused_streams h ∧ recv_buf (stream_of sid h') = buf ∧
  chan (stream_of sid h') = send_all frames (chan (stream_of sid h)).
Proof.
  intros Hr. unfold on_data_chunk_recv_callback. rewrite decide_False by done.
  destruct (get_or_create_stream sid h) as [st h1] eqn:Hg.
  apply get_or_create_stream_spec in Hg as (->&_&_&Href&_).
  unfold dispatch_recv_frames. cbn [put_stream set_streams streams]. rewrite lookup_insert_eq.
  cbn [recv_buf]. destruct (drain_frames _) as [frames buf]. rewrite !stream_of_put.
  cbn [recv_buf chan]. by rewrite <-Href.
Qed.

Definition deliver (sid : Z) (chunks : list bytes) (h : H2Session) : H2Session :=
  foldl (λ h c, on_data_chunk_recv_callback sid c h) h chunks.

Lemma on_data_chunk_some sid data h :
  is_Some (streams h !! sid) → is_Some (streams (on_data_chunk_recv_callback sid data h) !! sid).
Proof.
  intros [st Hs]. unfold on_data_chunk_recv_callback. case_decide; [by eauto|].
  unfold get_or_create_stream. rewrite Hs. unfold dispatch_recv_frames.
  cbn [put_stream set_streams streams]. rewrite lookup_insert_eq. destruct (drain_frames _).
  cbn [put_stream set_streams streams]. rewrite lookup_insert_eq. eauto.
Qed.

Lemma deliver_some sid chunks : ∀ h,
  is_Some (streams h !! sid) → is_Some (streams (deliver sid chunks h) !! sid).
Proof.
  induction chunks as [|c chunks IH]; intros h Hs; [done|]. apply (IH (on_data_chunk_recv_callback sid c h)).
  by apply on_data_chunk_some.
Qed.

Lemma send_all_app fs1 : ∀ fs2 c, send_all (fs1 ++ fs2) c = send_all fs2 (send_all fs1 c).
Proof. induction fs1 as [|[t p] fs1 IH]; intros fs2 c; cbn [app send_all]; [done|]. apply IH. Qed.

(** DATA in any chunks is what [feed] finds in them. *)
Lemma deliver_feed sid chunks : ∀ h,
  sid ∉ refused_streams h →
  recv_buf (stream_of sid (deliver sid chunks h)) = (feed (recv_buf (stream_of sid h)) chunks).2 ∧
  chan (stream_of sid (deliver sid chunks h)) =
    send_all (feed (recv_buf (stream_of sid h)) chunks).1 (chan (stream_of sid h)).
Proof.
  induction chunks as [|c chunks IH]; intros h Hr; cbn [deliver foldl feed]; [done|].
  pose proof (on_data_chunk_spec sid c h Hr) as Hc.
  destruct (drain_frames _) as [frames buf]. destruct Hc as (Href&Hbuf&Hch).
  destruct (IH (on_data_chunk_recv_callback sid c h)) as [H1 H2]; [by rewrite Href|].
  unfold deliver in H1, H2. rewrite H1, H2, Hbuf, Hch.
  destruct (feed buf chunks) as [frames' buf']. cbn [fst snd]. by rewrite send_all_app.
Qed.

(** [n] completed calls of [receive_frame]. *)
Fixpoint receive_n (sid : Z) (n : nat) (h : H2Session) : list (expected unit h2_frame) * H2Session :=
  match n with
  | O => ([], h)
  | S n =>
      match receive_frame_end sid h with
      | (Some r, h) => let '(rs, h) := receive_n sid n h in (r :: rs, h)
      | (None, h) => ([], h)
      end
  end.

Lemma receive_n_spec sid frames : ∀ h,
  is_Some (streams h !! sid) → buffered (chan (stream_of sid h)) = to_item <$> frames →
  (receive_n sid (length frames) h).1 = Ok <$> frames.
Proof.
  induction frames as [|[t p] frames IH]; intros h [st Hs] Hb; cbn [length receive_n]; [done|].
  unfold receive_frame_end. unfold stream_of in Hb. rewrite Hs in Hb |- *. cbn [default from_option id] in Hb.
  pose proof (async_receive_spec (chan st)) as Ha.
  destruct (async_receive (chan st)) as [[i c]|]; [|by rewrite Hb in Ha].
  destruct Ha as [Ha _]. rewrite Hb in Ha. injection Ha as <- Ha. cbn [to_item fst snd].
  set (h' := put_stream _ _ _). specialize (IH h').
  destruct (receive_n sid (length frames) h') as [rs h'']. cbn [fst] in *. rewrite IH; [done| |].
  - unfold h', put_stream, set_streams. cbn [streams]. by rewrite lookup_insert_eq.
  - unfold h'. by rewrite stream_of_put.
Qed.

(** Frames sent one after the other; [None] when a call throws. *)
Fixpoint send_frames (sid : Z) (frames : list h2_frame) (h : H2Session) : option H2Session :=
  match frames with
  | [] => Some h
  | (t, p) :: frames =>
      match send_frame sid t p h with
      | (Ok tt, h, _) => send_frames sid frames h
      | (Err _, _, _) => None
      end
  end.

Lemma send_frames_ok sid frames : ∀ h,
  h2_closed h = false → queue_ok sid h →
  Forall (λ f, Z.of_nat (length f.2) < kH2MaxFrameSize)%Z frames →
  ∃ h' envs, send_frames sid frames h = Some h' ∧ Forall2 encodes frames envs ∧
    queued sid h' = queued sid h ++ concat envs ∧ queue_ok sid h'.
Proof.
  induction frames as [|[t p] frames IH]; intros h Hc Hq Hf.
  { exists h, []. by rewrite app_nil_r. }
  apply Forall_cons_1 in Hf as [Hp Hf]. cbn [send_frames snd] in *.
  destruct (send_frame_ok sid t p h Hc Hp Hq) as (env&h1&es&Henv&->&Hq1&Hok1&Hc1).
  destruct (IH h1 Hc1 Hok1 Hf) as (h'&envs&->&He&Hq'&Hok').
  exists h', (env :: envs). split_and!; [done|by constructor| |done].
  cbn [concat]. by rewrite Hq', Hq1, app_assoc.
Qed.

(** From [send_frame] to [receive_frame] of the peer. *)
Lemma frames_delivered sid frames lens h g :
  h2_closed h = false → streams h !! sid = None →
  Forall (λ f, Z.of_nat (length f.2) < kH2MaxFrameSize)%Z frames →
  sid ∉ refused_streams g → streams g !! sid = Some new_stream → length frames ≤ kChannelCapacity →
  ∃ h', send_frames sid frames h = Some h' ∧
    (Forall (λ l, 1 ≤ l) lens → length (queued sid h') ≤ length lens →
     ∀ chunks, concat chunks = concat (pull sid lens h').1 →
       let g' := deliver sid chunks (receive_frame sid g).2 in
       (receive_n sid (length frames) g').1 = Ok <$> frames ∧ recv_buf (stream_of sid g') = []).
Proof.
  intros Hc Hs Hf Hr Hg Hcap.
  assert (stream_of sid h = new_stream) as Hst by (unfold stream_of; by rewrite Hs).
  assert (stream_of sid g = new_stream) as Hgt by (unfold stream_of; by rewrite Hg).
  destruct (send_frames_ok sid frames h Hc) as (h'&envs&Hsend&He&Hq&Hok);
    [unfold queue_ok; by rewrite Hst|done|].
  unfold queued in Hq at 2. rewrite Hst in Hq. cbn [new_stream send_pending pending_bytes] in Hq. cbn in Hq.
  exists h'. split; [done|]. intros Hl Hn chunks Hch. cbv zeta.
  replace (receive_frame sid g).2 with g by (unfold receive_frame, get_or_create_stream; by rewrite Hg).
  pose proof (pull_fifo sid lens h') as Hp. rewrite (pull_drains sid lens h'), app_nil_r in Hp by done.
  destruct (deliver_feed sid chunks g Hr) as [Hbuf Hchan]. rewrite Hgt in Hbuf, Hchan.
  cbn [new_stream recv_buf chan] in Hbuf, Hchan.
  assert (feed [] chunks = (frames, [])) as Hfeed.
  { apply (feed_chunks _ _ envs); [done| |done]. cbn [app]. by rewrite Hch, <-Hp. }
  rewrite Hfeed in Hbuf, Hchan. cbn [fst snd] in Hbuf, Hchan. split; [|done].
  apply receive_n_spec.
  - apply deliver_some. by rewrite Hg.
  - rewrite Hchan. destruct (send_all_spec frames (new_channel kChannelCapacity)) as [_ ->].
    destruct (new_channel_spec kChannelCapacity) as [-> ->].
    cbn [length]. rewrite Nat.sub_0_r, take_ge by done. done.
Qed.
End facts.
