(* ===== verification/H2Safety.v ===== *)
(** * libculpeo-transport-h2: the session as a transition system

    The callbacks and operations of [H2Session] as events, the order in which
    nghttp2 calls the callbacks (a stream exists from its HEADERS to its close),
    and the invariant of a server's stream table. *)

From S2P Require Import Prelude Bytes H2Frame H2Session H2Facts.

(** Operations that leave the set of tracked streams as it is. *)
Create HintDb h2.

Section safety.
Context {CL : ChannelLib}.

(** One turn of the strand. *)
Inductive h2_event :=
| ev_begin_headers (f : ng_frame)
| ev_header (f : ng_frame) (k v : bytes)
| ev_frame_recv (f : ng_frame)
| ev_data (sid : Z) (data : bytes)
| ev_stream_close (sid : Z)
| ev_read (sid : Z) (len : nat)
| ev_send (sid : Z) (t : byte) (p : bytes)
| ev_receive (sid : Z)
| ev_receive_end (sid : Z)
| ev_close_stream (sid code : Z) (resumed : bool)
| ev_close_begin
| ev_close_end
| ev_run_exit
| ev_set_handler.

Definition h2_apply (ev : h2_event) (h : H2Session) : H2Session * list effect :=
  match ev with
  | ev_begin_headers f => on_begin_headers_callback f h
  | ev_header f k v => (on_header_callback f k v h, [])
  | ev_frame_recv f => on_frame_recv_callback f h
  | ev_data sid data => (on_data_chunk_recv_callback sid data h, [])
  | ev_stream_close sid => ((on_stream_close_callback sid h).1, [])
  | ev_read sid len => ((data_read_callback sid len h).2, [])
  | ev_send sid t p => let '(_, h, es) := send_frame sid t p h in (h, es)
  | ev_receive sid => ((receive_frame sid h).2, [])
  | ev_receive_end sid => ((receive_frame_end sid h).2, [])
  | ev_close_stream sid code resumed => close_stream sid code resumed h
  | ev_close_begin => close_session_begin h
  | ev_close_end => close_session_end h
  | ev_run_exit => run_exit h
  | ev_set_handler => (set_new_stream_handler h, [])
  end.

(** The streams nghttp2 has open, before and after an event. *)
Definition track (ev : h2_event) (h : H2Session) (open : gset Z) : gset Z :=
  match ev with
  | ev_begin_headers f => if is_request f h then {[ hd_stream_id f ]} ∪ open else open
  | ev_stream_close sid => open ∖ {[ sid ]}
  | _ => open
  end.

(** nghttp2 reports HEADERS, DATA and the close of a stream only while it is
    open; the application uses the streams of the table. *)
Definition allowed (ev : h2_event) (h : H2Session) (open : gset Z) : Prop :=
  match ev with
  | ev_begin_headers f => is_request f h = true → hd_stream_id f ∉ open
  | ev_header f _ _ | ev_frame_recv f => is_request f h = true → hd_stream_id f ∈ open
  | ev_data sid _ | ev_stream_close sid => sid ∈ open
  | ev_send sid _ _ | ev_receive sid => sid ∈ dom (streams h)
  | _ => True
  end.

Inductive h2_step : gset Z * H2Session → list effect → gset Z * H2Session → Prop :=
| h2_step_event open h ev h' es :
    allowed ev h open → h2_apply ev h = (h', es) →
    h2_step (open, h) es (track ev h open, h').

Inductive h2_reachable (h0 : H2Session) : gset Z * H2Session → Prop :=
| h2_reachable_init : h2_reachable h0 (∅, h0)
| h2_reachable_step s es s' : h2_reachable h0 s → h2_step s es s' → h2_reachable h0 s'.

(** ** The stream table *)
Definition table_inv (max : Z) (s : gset Z * H2Session) : Prop :=
  let '(open, h) := s in
  max_concurrent_streams h = max ∧ (Z.of_nat (size (streams h)) ≤ max)%Z ∧
  dom (streams h) ⊆ open ∧ refused_streams h ⊆ open ∧
  (mode h = Server → open ⊆ dom (streams h) ∪ refused_streams h).

(** What an operation on existing streams keeps. *)
Definition same_table (h h' : H2Session) : Prop :=
  mode h' = mode h ∧ max_concurrent_streams h' = max_concurrent_streams h ∧
  refused_streams h' = refused_streams h ∧ dom (streams h') = dom (streams h).

Lemma same_table_inv max open h h' :
  same_table h h' → table_inv max (open, h) → table_inv max (open, h').
Proof.
  intros (Hm&Hx&Hr&Hd) (?&Hs&?&?&?). unfold table_inv.
  rewrite <-size_dom, Hd, size_dom, Hm, Hx, Hr. done.
Qed.

Lemma same_table_refl h : same_table h h.
Proof. done. Qed.

Lemma same_table_trans h1 h2 h3 : same_table h1 h2 → same_table h2 h3 → same_table h1 h3.
Proof. unfold same_table. intros (?&?&?&?) (?&?&?&?). split_and!; congruence. Qed.

Lemma same_table_put sid st h : sid ∈ dom (streams h) → same_table h (put_stream sid st h).
Proof.
  intros Hd. split_and!; [done..|]. cbn [put_stream set_streams streams].
  rewrite dom_insert_L. set_solver.
Qed.

Lemma same_table_get sid h : sid ∈ dom (streams h) → (get_or_create_stream sid h).2 = h.
Proof.
  intros [st Hst]%elem_of_dom. unfold get_or_create_stream. by rewrite Hst.
Qed.

#[local] Hint Resolve same_table_refl same_table_put : h2.

Lemma same_table_header f k v h : same_table h (on_header_callback f k v h).
Proof.
  unfold on_header_callback. destruct (negb _); [done|]. case_decide; [done|].
  destruct (streams h !! _) as [st|] eqn:Hs; [|done]. apply elem_of_dom_2 in Hs.
  repeat (case_decide; auto with h2).
Qed.

Lemma same_table_read sid len h : same_table h (data_read_callback sid len h).2.
Proof.
  unfold data_read_callback. destruct (streams h !! sid) as [st|] eqn:Hs; [|done].
  apply elem_of_dom_2 in Hs. destruct (send_pending st); [by destruct (send_closed st)|]. cbn [snd]. auto with h2.
Qed.

Lemma same_table_dispatch sid h : same_table h (dispatch_recv_frames sid h).
Proof.
  unfold dispatch_recv_frames. destruct (streams h !! sid) as [st|] eqn:Hs; [|done].
  apply elem_of_dom_2 in Hs. destruct (drain_frames _). auto with h2.
Qed.

Lemma same_table_data sid data h :
  sid ∈ dom (streams h) ∪ refused_streams h → same_table h (on_data_chunk_recv_callback sid data h).
Proof.
  intros Hin. unfold on_data_chunk_recv_callback. case_decide; [done|].
  assert (sid ∈ dom (streams h)) as Hd by set_solver.
  pose proof (same_table_get sid h Hd) as Hg. destruct (get_or_create_stream sid h) as [st h1].
  cbn [snd] in Hg. subst h1. eapply same_table_trans; [|apply same_table_dispatch]. auto with h2.
Qed.

Lemma same_table_respond sid h :
  sid ∈ dom (streams h) → same_table h (submit_server_response sid h).1.
Proof.
  intros Hd. unfold submit_server_response.
  pose proof (same_table_get sid h Hd) as Hg. destruct (get_or_create_stream sid h) as [st h1].
  cbn [snd] in Hg. subst h1. destruct (response_sent st); cbn [fst]; auto with h2.
Qed.

Lemma same_table_send sid t p h :
  sid ∈ dom (streams h) → same_table h (send_frame sid t p h).1.2.
Proof.
  intros Hd. unfold send_frame. destruct (h2_closed h); [done|]. case_decide; [done|].
  destruct (encode_h2_envelope t p); [|done]. unfold enqueue_send.
  pose proof (same_table_get sid h Hd) as Hg. destruct (get_or_create_stream sid h) as [st h1].
  cbn [snd] in Hg. subst h1. cbn [fst snd]. auto with h2.
Qed.

Lemma same_table_receive_end sid h : same_table h (receive_frame_end sid h).2.
Proof.
  unfold receive_frame_end. destruct (streams h !! sid) as [st|] eqn:Hs; [|done].
  apply elem_of_dom_2 in Hs. destruct (async_receive _) as [[]|]; cbn [snd]; auto with h2.
Qed.

Lemma same_table_close_stream sid code resumed h :
  same_table h (close_stream sid code resumed h).1.
Proof.
  unfold close_stream. destruct (h2_closed h); [done|].
  destruct (streams h !! sid) as [st|] eqn:Hs; [|done]. apply elem_of_dom_2 in Hs. cbn [fst]. auto with h2.
Qed.

Lemma same_table_run_exit h : same_table h (run_exit h).1.
Proof. split_and!; [done..|]. unfold run_exit. cbn [fst set_closed set_streams streams]. apply dom_fmap_L. Qed.

#[local] Hint Resolve same_table_header same_table_read same_table_receive_end : h2.

(** A request's end of HEADERS: refused, or answered. *)
Lemma table_inv_frame_recv max open f h :
  (is_request f h = true → hd_stream_id f ∈ open) →
  table_inv max (open, h) → table_inv max (open, (on_frame_recv_callback f h).1).
Proof.
  intros Hopen Hinv. unfold on_frame_recv_callback. destruct (is_request f h) eqn:Hq; cbn [negb]; [|done].
  specialize (Hopen eq_refl). pose proof Hinv as (_&_&_&_&Hcov).
  assert (mode h = Server) as Hm by (unfold is_request in Hq; by destruct (mode h)).
  case_decide as Hr; [done|]. assert (hd_stream_id f ∈ dom (streams h)) as Hd by set_solver.
  destruct (from_option _ _ _).
  - cbn [fst]. destruct Hinv as (?&?&?&?&?). unfold table_inv.
    cbn [set_refused streams refused_streams mode max_concurrent_streams].
    split_and!; [done|done|done|set_solver|set_solver].
  - pose proof (same_table_respond (hd_stream_id f) h Hd) as Hs.
    destruct (submit_server_response (hd_stream_id f) h) as [h' es]. cbn [fst] in *.
    by eapply same_table_inv.
Qed.

Lemma table_inv_begin max open f h :
  table_inv max (open, h) →
  table_inv max (if is_request f h then {[ hd_stream_id f ]} ∪ open else open,
                 (on_begin_headers_callback f h).1).
Proof.
  intros Hinv. unfold on_begin_headers_callback. destruct (is_request f h); [|done].
  destruct Hinv as (Hmax&Hsz&Hd&Hr&Hcov). case_decide as Hfull; cbn [fst].
  - unfold table_inv. cbn [set_refused streams refused_streams mode max_concurrent_streams].
    split_and!; [done|done|set_solver|set_solver|set_solver].
  - unfold get_or_create_stream. destruct (streams h !! hd_stream_id f) as [st|] eqn:Hs; cbn [snd].
    + apply elem_of_dom_2 in Hs. unfold table_inv. split_and!; [done|done|set_solver..].
    + unfold table_inv. cbn [set_streams streams refused_streams mode max_concurrent_streams].
      rewrite map_size_insert_None, dom_insert_L by done. split_and!; [done|lia|set_solver..].
Qed.

Lemma table_inv_close max open sid h :
  table_inv max (open, h) → table_inv max (open ∖ {[ sid ]}, (on_stream_close_callback sid h).1).
Proof.
  intros (Hmax&Hsz&Hd&Hr&Hcov). unfold on_stream_close_callback. cbn [set_refused streams].
  destruct (streams h !! sid) as [st|] eqn:Hs; cbn [fst]; unfold table_inv;
    cbn [set_streams set_refused streams refused_streams mode max_concurrent_streams].
  - rewrite map_size_delete, Hs, dom_delete_L. simpl. split_and!; [done|lia|set_solver..].
  - apply not_elem_of_dom in Hs. split_and!; [done|done|set_solver..].
Qed.

Lemma data_allowed max open sid h :
  table_inv max (open, h) → sid ∈ open → mode h = Server → sid ∈ dom (streams h) ∪ refused_streams h.
Proof. intros (_&_&_&_&Hcov) Hin Hm. by apply (Hcov Hm). Qed.

Lemma h2_step_mode s es s' : h2_step s es s' → mode s'.2 = mode s.2.
Proof.
  destruct 1 as [open h ev h' es _ Ha]. cbn [snd].
  assert (∀ sid, mode (get_or_create_stream sid h).2 = mode h) as Hg.
  { intros sid. unfold get_or_create_stream. by destruct (streams h !! sid). }
  destruct ev; cbn [h2_apply] in Ha.
  - unfold on_begin_headers_callback in Ha. destruct (is_request f h); [|by simplify_eq].
    case_decide; simplify_eq; [done|]. apply Hg.
  - simplify_eq. apply same_table_header.
  - unfold on_frame_recv_callback, submit_server_response in Ha.
    destruct (negb _); [by simplify_eq|]. case_decide; [by simplify_eq|].
    destruct (from_option _ _ _); [by simplify_eq|]. specialize (Hg (hd_stream_id f)).
    destruct (get_or_create_stream _ h) as [st h1]. cbn [snd] in Hg.
    destruct (response_sent st); by simplify_eq.
  - simplify_eq. unfold on_data_chunk_recv_callback. case_decide; [done|]. specialize (Hg sid).
    destruct (get_or_create_stream sid h) as [st h1]. cbn [snd] in Hg. rewrite <-Hg.
    edestruct same_table_dispatch as [-> _]. done.
  - simplify_eq. unfold on_stream_close_callback. by destruct (streams _ !! sid).
  - simplify_eq. apply same_table_read.
  - unfold send_frame, enqueue_send in Ha. destruct (h2_closed h); [by simplify_eq|].
    case_decide; [by simplify_eq|]. destruct (encode_h2_envelope t p); [|by simplify_eq].
    specialize (Hg sid). destruct (get_or_create_stream sid h) as [st h1]. by simplify_eq.
  - simplify_eq. specialize (Hg sid). unfold receive_frame. by destruct (get_or_create_stream sid h).
  - simplify_eq. apply same_table_receive_end.
  - pose proof (same_table_close_stream sid code resumed h) as Hs. rewrite Ha in Hs. apply Hs.
  - unfold close_session_begin in Ha. destruct (h2_closed h); by simplify_eq.
  - unfold close_session_end in Ha. by simplify_eq.
  - unfold run_exit in Ha. by simplify_eq.
  - by simplify_eq.
Qed.

Lemma table_inv_step max s es s' :
  mode s.2 = Server → table_inv max s → h2_step s es s' → table_inv max s'.
Proof.
  intros Hm Hinv Hstep. destruct Hstep as [open h ev h' es Hal Ha]. cbn [snd] in Hm.
  destruct ev; cbn [h2_apply track allowed] in *; simplify_eq;
    try (eapply same_table_inv; [solve [auto with h2]|exact Hinv]).
  - pose proof (table_inv_begin max open f h Hinv) as Hi. by rewrite Ha in Hi.
  - pose proof (table_inv_frame_recv max open f h Hal Hinv) as Hi. by rewrite Ha in Hi.
  - eapply same_table_inv; [eapply same_table_data, data_allowed; eauto|done].
  - by apply table_inv_close.
  - pose proof (same_table_send sid t p h Hal) as Hi. destruct (send_frame sid t p h) as [[r h1] es1].
    simplify_eq. by eapply same_table_inv.
  - unfold receive_frame. pose proof (same_table_get sid h Hal) as Hg.
    destruct (get_or_create_stream sid h). cbn [snd] in *. by subst.
  - pose proof (same_table_close_stream sid code resumed h) as Hs. rewrite Ha in Hs.
    by eapply same_table_inv.
  - unfold close_session_begin in Ha. destruct (h2_closed h); by simplify_eq.
  - unfold close_session_end in Ha. by simplify_eq.
  - pose proof (same_table_run_exit h) as Hs. rewrite Ha in Hs. by eapply same_table_inv.
Qed.

Lemma table_inv_reachable max s :
  (0 ≤ max)%Z → h2_reachable (new_h2_session Server max) s → table_inv max s ∧ mode s.2 = Server.
Proof.
  intros Hmax. induction 1 as [|s es s' _ [IH Hm] Hstep].
  - split; [|done]. unfold table_inv. cbn. rewrite dom_empty_L. split_and!; [done|done|set_solver..].
  - split; [by eapply table_inv_step|]. by rewrite (h2_step_mode _ _ _ Hstep).
Qed.

(** ** Admission *)
Lemma respond_spec sid h st :
  streams h !! sid = Some st →
  let '(h', es) := submit_server_response sid h in
  refused_streams h' = refused_streams h ∧ has_new_stream_cb h' = has_new_stream_cb h ∧
  es = (if response_sent st then [] else [submit_response sid]) ∧
  ∃ st', streams h' !! sid = Some st' ∧ response_sent st' = true ∧
    st_content_type st' = st_content_type st.
Proof.
  intros Hs. unfold submit_server_response, get_or_create_stream. rewrite Hs.
  destruct (response_sent st) eqn:Hrs; [by eauto 10|].
  cbn [put_stream set_streams streams refused_streams has_new_stream_cb]. rewrite lookup_insert_eq.
  eauto 10.
Qed.

Lemma apply_other_effects ev h sid :
  ¬ (∃ f, ev = ev_frame_recv f) →
  (spawn_handler sid ∉ (h2_apply ev h).2) ∧ (submit_response sid ∉ (h2_apply ev h).2).
Proof.
  intros Hev. destruct ev; try (by destruct Hev; eexists); clear Hev; cbn [h2_apply snd];
    try (split; set_solver).
  - unfold on_begin_headers_callback. destruct (is_request f h); [case_decide|]; cbn [snd]; split; set_solver.
  - unfold send_frame, enqueue_send. destruct (h2_closed h); [split; set_solver|].
    case_decide; [split; set_solver|]. destruct (encode_h2_envelope t p); [|split; set_solver].
    destruct (get_or_create_stream sid0 h) as [st h1]. cbn [snd].
    destruct (send_pending st); split; set_solver.
  - unfold close_stream. destruct (h2_closed h); [split; set_solver|].
    destruct (streams h !! sid0), resumed; cbn [snd]; split; set_solver.
  - unfold close_session_begin. destruct (h2_closed h); cbn [snd]; split; set_solver.
Qed.

Lemma admission_step open h es open' h' sid max :
  table_inv max (open, h) → mode h = Server → h2_step (open, h) es (open', h') →
  (spawn_handler sid ∈ es ∨ submit_response sid ∈ es) →
  ∃ st, streams h' !! sid = Some st ∧ (sid ∉ refused_streams h') ∧ response_sent st = true ∧
    acceptable (st_content_type st) = true ∧
    (submit_response sid ∈ es → response_sent (stream_of sid h) = false).
Proof.
  intros Hinv Hm Hstep Hin. inversion Hstep as [? ? ev ? ? Hal Ha]; subst.
  assert ((∃ f, ev = ev_frame_recv f) ∨ ¬ (∃ f, ev = ev_frame_recv f)) as [[f ->]|Hev]
    by (destruct ev; first [by left; eexists|right; by intros []]); swap 1 2.
  { destruct (apply_other_effects ev h sid) as [H1 H2]; [done|]. rewrite Ha in H1, H2.
    cbn [snd] in *. tauto. }
  cbn [h2_apply allowed track] in *. unfold on_frame_recv_callback in Ha.
  destruct (is_request f h) eqn:Hq; cbn [negb] in Ha; [|by simplify_eq; set_solver].
  specialize (Hal eq_refl). destruct Hinv as (_&_&_&_&Hcov). specialize (Hcov Hm).
  case_decide as Hr; [by simplify_eq; set_solver|].
  assert (hd_stream_id f ∈ dom (streams h)) as [st Hs]%elem_of_dom by set_solver.
  rewrite Hs in Ha. cbn [from_option] in Ha.
  destruct (acceptable (st_content_type st)) eqn:Hct; cbn [negb] in Ha; [|by simplify_eq; set_solver].
  pose proof (respond_spec _ h st Hs) as Hsp.
  destruct (submit_server_response _ h) as [h1 es1]. destruct Hsp as (Href&Hcb&->&st'&Hs'&Hrs&Hct').
  injection Ha as <- <-.
  assert (sid = hd_stream_id f) as ->.
  { destruct (response_sent st), (has_new_stream_cb h1); set_solver. }
  exists st'. rewrite Href, Hct'. split_and!; [done..|]. unfold stream_of. rewrite Hs. cbn [default from_option id].
  destruct (response_sent st), (has_new_stream_cb h1); set_solver.
Qed.

(** ** Closing *)
Lemma get_or_create_closed sid h : h2_closed (get_or_create_stream sid h).2 = h2_closed h.
Proof. unfold get_or_create_stream. by destruct (streams h !! sid). Qed.

Lemma h2_closed_apply ev h : h2_closed h = true → h2_closed (h2_apply ev h).1 = true.
Proof.
  intros Hc. pose proof (λ sid, get_or_create_closed sid h) as Hg. rewrite Hc in Hg.
  destruct ev; cbn [h2_apply fst]; try done.
  - unfold on_begin_headers_callback. destruct (is_request f h); [case_decide|]; cbn [fst]; auto.
  - unfold on_header_callback. destruct (negb _); [done|]. case_decide; [done|].
    destruct (streams h !! _); [|done]. repeat (case_decide; [done|]). done.
  - unfold on_frame_recv_callback, submit_server_response. destruct (negb _); [done|].
    case_decide; [done|]. destruct (from_option _ _ _); [done|]. specialize (Hg (hd_stream_id f)).
    destruct (get_or_create_stream _ h) as [st h1]. by destruct (response_sent st).
  - unfold on_data_chunk_recv_callback. case_decide; [done|]. specialize (Hg sid).
    destruct (get_or_create_stream sid h) as [st h1]. unfold dispatch_recv_frames.
    cbn [put_stream set_streams streams]. rewrite lookup_insert_eq. by destruct (drain_frames _).
  - unfold on_stream_close_callback. by destruct (streams _ !! sid).
  - unfold data_read_callback. destruct (streams h !! sid) as [st|]; [|done].
    destruct (send_pending st); [by destruct (send_closed st)|done].
  - unfold send_frame. by rewrite Hc.
  - specialize (Hg sid). unfold receive_frame. by destruct (get_or_create_stream sid h).
  - unfold receive_frame_end. destruct (streams h !! sid) as [st|]; [|done].
    by destruct (async_receive _) as [[]|].
  - unfold close_stream. by rewrite Hc.
  - unfold close_session_begin. by rewrite Hc.
Qed.
End safety.
