(* ===== verification/H2Theorems.v ===== *)
(** * libculpeo-transport-h2: theorems

    End-to-end delivery, the decoder on arbitrary input, reads of the send queue,
    the stream limit, admission of requests, silence after closing, and what a
    receive after the close of its stream does. *)

From S2P Require Import Prelude Bytes H2Frame H2Session H2Facts H2Safety.

(** A channel with a list, to run the model on. *)
Definition list_channel : Type := nat * list channel_item.

Definition list_try_send (i : channel_item) (c : list_channel) : bool * list_channel :=
  if decide (length c.2 < c.1) then (true, (c.1, c.2 ++ [i])) else (false, c).

Definition list_receive (c : list_channel) : option (channel_item * list_channel) :=
  match c.2 with [] => None | i :: q => Some (i, (c.1, q)) end.

#[local] Instance list_channel_lib : ChannelLib.
Proof.
  refine {| channel := list_channel; new_channel := λ n, (n, []); try_send := list_try_send;
    async_receive := list_receive; buffered := snd; capacity := fst |}.
  - done.
  - intros i [n q]. unfold list_try_send. cbn [fst snd].
    case_decide; cbn [fst snd]; [rewrite bool_decide_eq_true_2|rewrite bool_decide_eq_false_2]; done.
  - by intros [n [|i q]].
Defined.

Section theorems.
Context {CL : ChannelLib}.

(** Frames sent with [send_frame] on one stream are the frames
    [receive_frame] returns at the peer, in order: the calls succeed for
    payloads below the size limit, enough reads of nghttp2 of at least one byte
    hand out the whole queue, and however the bytes are cut into DATA chunks, the
    peer, which has seen nothing of the stream and has room for the frames,
    returns exactly them and keeps no byte. *)
Theorem h2_end_to_end sid frames lens h g :
  h2_closed h = false → streams h !! sid = None →
  Forall (λ f, Z.of_nat (length f.2) < kH2MaxFrameSize)%Z frames →
  sid ∉ refused_streams g → streams g !! sid = Some new_stream → length frames ≤ kChannelCapacity →
  ∃ h', send_frames sid frames h = Some h' ∧
    (Forall (λ l, 1 ≤ l) lens → length (queued sid h') ≤ length lens →
     ∀ chunks, concat chunks = concat (pull sid lens h').1 →
       let g' := deliver sid chunks (receive_frame sid g).2 in
       (receive_n sid (length frames) g').1 = Ok <$> frames ∧ recv_buf (stream_of sid g') = []).
Proof. apply frames_delivered. Qed.

(** [drain_frames] on any bytes: the frames it returns are encoded one after
    the other at the front of the buffer, each with the envelope
    [encode_h2_envelope] gives it; the rest is kept, unless it starts with a
    length of zero or above the limit, when it is discarded.  What is kept holds
    no further frame. *)
Theorem drain_frames_exact buf :
  (∃ envs tail, Forall2 encodes (drain_frames buf).1 envs ∧ buf = concat envs ++ tail ∧
     ((drain_frames buf).2 = tail ∨ (drain_frames buf).2 = [] ∧ malformed tail)) ∧
  drain_frames (drain_frames buf).2 = ([], (drain_frames buf).2).
Proof.
  split; [|apply drain_idem]. pose proof (drain_frames_sound buf) as H.
  by destruct (drain_frames buf).
Qed.

(** A DATA chunk of a stream that is not refused appends to the stream's
    channel the frames it completes, as many as the channel has room for, in
    order; the frames beyond that are lost. *)
Theorem data_chunk_delivery sid data h :
  sid ∉ refused_streams h →
  let st := stream_of sid h in
  let st' := stream_of sid (on_data_chunk_recv_callback sid data h) in
  let frames := (drain_frames (recv_buf st ++ data)).1 in
  recv_buf st' = (drain_frames (recv_buf st ++ data)).2 ∧
  buffered (chan st') =
    buffered (chan st) ++ (to_item <$> take (capacity (chan st) - length (buffered (chan st))) frames).
Proof.
  intros Hr. cbv zeta. pose proof (on_data_chunk_spec sid data h Hr) as H.
  destruct (drain_frames _) as [frames buf]. destruct H as (_&Hbuf&->). split; [done|].
  apply send_all_spec.
Qed.

(** Reads of the send queue: the bytes handed to nghttp2 by any sequence of
    reads are the front of the queue, and what they leave is still queued; a
    read returns at most the requested bytes, waits exactly when an open stream
    has nothing queued, and reports end-of-stream exactly when nothing is queued
    and the stream is closed for sending or gone. *)
Theorem data_read_exact sid lens len h :
  queue_ok sid h → 1 ≤ len →
  let h1 := (pull sid lens h).2 in
  queued sid h = concat (pull sid lens h).1 ++ queued sid h1 ∧
  (data_read_callback sid len h1).1 =
    match queued sid h1, streams h1 !! sid with
    | [], None => read_bytes [] true
    | [], Some st => if send_closed st then read_bytes [] true else read_deferred
    | _, None => read_bytes [] true
    | _, Some st => read_bytes (take len (from_option (λ b, drop (sb_offset b) (sb_data b)) []
                                  (head (send_pending st)))) false
    end.
Proof.
  intros Hok Hlen. cbv zeta. split; [apply pull_fifo|].
  assert (queue_ok sid (pull sid lens h).2) as Hok1 by by apply pull_queue_ok.
  generalize dependent (pull sid lens h).2. intros h1 Hok1. unfold data_read_callback.
  unfold queued, queue_ok, stream_of in *. destruct (streams h1 !! sid) as [st|]; cbn [default from_option id] in *;
    [|by cbn].
  destruct (send_pending st) as [|b q]; [by destruct (send_closed st)|].
  apply Forall_cons_1 in Hok1 as [Hb _]. unfold pending_bytes. cbn [fmap list_fmap concat head from_option fst].
  destruct (drop (sb_offset b) (sb_data b)) as [|x d] eqn:Hd.
  { apply (f_equal length) in Hd. rewrite length_drop in Hd. simpl in Hd. lia. }
  cbn [app]. f_equal. rewrite <-Hd. destruct (decide (length (sb_data b) - sb_offset b ≤ len)).
  - rewrite Nat.min_l by lia. rewrite !take_ge; [done|rewrite length_drop; lia..].
  - by rewrite Nat.min_r by lia.
Qed.

(** A server never tracks more streams than its limit, in every order of
    callbacks nghttp2 makes and with every use of live streams: each stream
    nghttp2 has open is tracked or refused, and nothing else is. *)
Theorem h2_stream_limit max open h :
  (0 ≤ max)%Z → h2_reachable (new_h2_session Server max) (open, h) →
  (Z.of_nat (size (streams h)) ≤ max)%Z ∧ open = dom (streams h) ∪ refused_streams h.
Proof.
  intros Hmax Hr. destruct (table_inv_reachable _ _ Hmax Hr) as [(_&Hs&Hd&Href&Hcov) Hm].
  cbn [snd] in Hm. split; [done|]. specialize (Hcov Hm). set_solver.
Qed.

(** C31. A handler is started only for an admitted request: its stream is tracked
    within the limit, is not refused, has an acceptable content type, and the
    200 response has been submitted for it.  A response is submitted only with
    such a stream, and never for one that already has its response. *)
Theorem h2_admission max open h es s' sid :
  (0 ≤ max)%Z → h2_reachable (new_h2_session Server max) (open, h) → h2_step (open, h) es s' →
  spawn_handler sid ∈ es ∨ submit_response sid ∈ es →
  ∃ st, streams s'.2 !! sid = Some st ∧ (sid ∉ refused_streams s'.2) ∧ response_sent st = true ∧
    acceptable (st_content_type st) = true ∧ (Z.of_nat (size (streams s'.2)) ≤ max)%Z ∧
    (submit_response sid ∈ es → response_sent (stream_of sid h) = false).
Proof.
  intros Hmax Hr Hstep Hin.
  destruct (table_inv_reachable _ _ Hmax (h2_reachable_step _ _ _ _ Hr Hstep)) as [Hinv' _].
  destruct (table_inv_reachable _ _ Hmax Hr) as [Hinv Hm].
  destruct s' as [open' h']. destruct Hinv' as (_&Hsz&_).
  destruct (admission_step open h es open' h' sid max Hinv Hm Hstep Hin) as (st&?&?&?&?&?). by exists st.
Qed.

(** Once the session is closed it stays closed whatever happens, every
    further [send_frame] throws broken-pipe and changes nothing, and closing a
    stream or the session has no effect and writes nothing. *)
Theorem h2_closed_silent evs h :
  h2_closed h = true →
  let h' := foldl (λ h ev, (h2_apply ev h).1) h evs in
  h2_closed h' = true ∧
  (∀ sid t p, send_frame sid t p h' = (Err broken_pipe, h', [])) ∧
  (∀ sid code resumed, close_stream sid code resumed h' = (h', [])) ∧
  close_session_begin h' = (h', []).
Proof.
  intros Hc. cbv zeta. assert (h2_closed (foldl (λ h ev, (h2_apply ev h).1) h evs) = true) as Hc'.
  { revert h Hc. induction evs as [|ev evs IH]; intros h Hc; [done|]. apply IH. by apply h2_closed_apply. }
  generalize dependent (foldl (λ h ev, (h2_apply ev h).1) h evs). intros h' Hc'.
  unfold send_frame, close_stream, close_session_begin. by rewrite Hc'.
Qed.

(** [receive_frame] on a stream that has been closed does not report
    end-of-file: it creates the stream again, with an empty channel on which the
    call waits, and an entry that counts against the stream limit. *)
Theorem h2_receive_after_close sid h :
  let h1 := (on_stream_close_callback sid h).1 in
  let '(c, h2) := receive_frame sid h1 in
  async_receive c = None ∧ streams h1 !! sid = None ∧
  size (streams h2) = S (size (streams h1)).
Proof.
  cbv zeta. assert (streams (on_stream_close_callback sid h).1 !! sid = None) as Hn.
  { unfold on_stream_close_callback. destruct (streams (set_refused _ h) !! sid) eqn:Hs; cbn [fst]; [|done].
    cbn [set_streams streams]. apply lookup_delete_eq. }
  unfold receive_frame, get_or_create_stream. rewrite Hn. cbn [new_stream chan].
  split_and!; [|done|].
  - pose proof (async_receive_spec (new_channel kChannelCapacity)) as Ha.
    destruct (new_channel_spec kChannelCapacity) as [Hb _].
    destruct (async_receive _) as [[i c]|]; [|done]. destruct Ha as [Ha _]. by rewrite Hb in Ha.
  - cbn [set_streams streams]. by rewrite map_size_insert_None.
Qed.
End theorems.

(** ** The theorems on concrete sessions *)
Definition sample_frames : list h2_frame := [(kTypeControl, str "init"); (kTypeMedia, [])].

(** A server with the request of stream 1. *)
Definition request1 : ng_frame := mkNgFrame true true 1.
Definition server0 : H2Session := new_h2_session Server 2.
Definition server1 : H2Session := (h2_apply (ev_begin_headers request1) server0).1.
Definition server2 : H2Session := (h2_apply ev_set_handler server1).1.

Lemma h2_end_to_end_witness :
  let h := new_h2_session Client 100 in
  ∃ h', send_frames 1 sample_frames h = Some h' ∧
    (receive_n 1 2 (deliver 1 [concat (pull 1 (repeat 4 14) h').1] server1)).1 = Ok <$> sample_frames.
Proof.
  cbv zeta. destruct (h2_end_to_end 1 sample_frames (repeat 4 14) (new_h2_session Client 100) server1)
    as (h'&Hs&Hd).
  - reflexivity.
  - reflexivity.
  - repeat constructor.
  - by_decide.
  - reflexivity.
  - by_decide.
  - exists h'. split; [exact Hs|]. destruct (Hd ltac:(repeat constructor)) with
      (chunks := [concat (pull 1 (repeat 4 14) h').1]) as [H _].
    + vm_compute in Hs. injection Hs as <-. vm_compute. repeat constructor.
    + apply app_nil_r.
    + exact H.
Defined.

Lemma data_chunk_delivery_witness :
  buffered (chan (stream_of 1 (on_data_chunk_recv_callback 1 [x00; x00; x00; x02; x01; x41; x00] server1))) =
    [item_frame x01 [x41]].
Proof.
  destruct (data_chunk_delivery 1 [x00; x00; x00; x02; x01; x41; x00] server1) as [_ H]; [by_decide|].
  exact H.
Defined.

Lemma data_read_exact_witness :
  let h := (enqueue_send 1 [x41; x42; x43] server1).1 in
  queue_ok 1 h ∧ (data_read_callback 1 5 (pull 1 [2] h).2).1 = read_bytes [x43] false.
Proof.
  cbv zeta. assert (queue_ok 1 (enqueue_send 1 [x41; x42; x43] server1).1) as Hq.
  { repeat constructor. }
  split; [exact Hq|].
  destruct (data_read_exact 1 [2] 5 (enqueue_send 1 [x41; x42; x43] server1).1 Hq) as [_ H].
  - by_decide.
  - exact H.
Defined.

Lemma server1_reachable : h2_reachable server0 ({[ 1%Z ]} ∪ ∅, server1).
Proof.
  eapply (h2_reachable_step _ (∅, server0) []); [constructor|].
  by apply (h2_step_event ∅ server0 (ev_begin_headers request1) server1 []).
Defined.

Lemma server2_reachable : h2_reachable server0 ({[ 1%Z ]} ∪ ∅, server2).
Proof.
  eapply (h2_reachable_step _ _ []); [apply server1_reachable|].
  by apply (h2_step_event _ server1 ev_set_handler server2 []).
Defined.

Lemma h2_stream_limit_witness : (Z.of_nat (size (streams server1)) ≤ 2)%Z.
Proof. eapply h2_stream_limit; [|apply server1_reachable]. done. Defined.

Lemma h2_admission_witness :
  spawn_handler 1 ∈ (h2_apply (ev_frame_recv request1) server2).2 ∧
  1%Z ∉ refused_streams (h2_apply (ev_frame_recv request1) server2).1.
Proof.
  assert (spawn_handler 1 ∈ (h2_apply (ev_frame_recv request1) server2).2) as Hin.
  { right. left. }
  split; [exact Hin|].
  destruct (h2_admission 2 ({[ 1%Z ]} ∪ ∅) server2 (h2_apply (ev_frame_recv request1) server2).2
    ({[ 1%Z ]} ∪ ∅, (h2_apply (ev_frame_recv request1) server2).1) 1) as (st&_&H&_).
  - done.
  - apply server2_reachable.
  - apply (h2_step_event _ server2 (ev_frame_recv request1)); [|by destruct (h2_apply _ _)].
    intros _. by_decide.
  - by left.
  - exact H.
Defined.

Lemma h2_closed_silent_witness :
  let h := (close_session_end server1).1 in
  send_frame 1 kTypeMedia [] (h2_apply (ev_receive 3) h).1 =
    (Err broken_pipe, (h2_apply (ev_receive 3) h).1, []).
Proof.
  cbv zeta. destruct (h2_closed_silent [ev_receive 3] (close_session_end server1).1) as (_&H&_); [done|].
  apply (H 1%Z kTypeMedia []).
Defined.
