(* ===== verification/TransportWs.v ===== *)
(** * libculpeo-transport-ws

    [WsTransport] of [src/transport_ws.cpp], an adapter over three injected
    callables, and [make_uws_transport] of [include/culpeo/uws_adapter.hpp], which
    supplies callables that post to the event loop of uWebSockets.  uWebSockets is
    not part of the sources: its calls are entries of a log and [Loop::defer] is a
    first-in first-out queue of callbacks. *)

From S2P Require Import Prelude Bytes.

(** ** [WsTransport] *)
Section transport.
Context {W : Type}.

(** A non-null callable: its effect on the world, and whether it throws. *)
Definition callable (A : Type) : Type := A → W → W * bool.

Record WsTransport := mkWsTransport {
  send_text_fn : callable bytes;
  send_binary_fn : callable bytes;
  close_fn : callable (Z * bytes);
}.

(** The constructor; [Err] carries the text of the [std::invalid_argument]. *)
Definition make_ws (text binary : option (callable bytes)) (close : option (callable (Z * bytes)))
    : expected bytes WsTransport :=
  match text with
  | None => Err (str "WsTransport: send_text_fn must not be null")
  | Some text =>
      match binary with
      | None => Err (str "WsTransport: send_binary_fn must not be null")
      | Some binary =>
          match close with
          | None => Err (str "WsTransport: close_fn must not be null")
          | Some close => Ok (mkWsTransport text binary close)
          end
      end
  end.

(** Exceptions of the callables are swallowed. *)
Definition ws_send_text (t : WsTransport) (frame : bytes) (w : W) : W := (send_text_fn t frame w).1.
Definition ws_send_binary (t : WsTransport) (frame : bytes) (w : W) : W := (send_binary_fn t frame w).1.

Definition sanitize (c : byte) : byte :=
  if decide (code c < 32 ∧ c ≠ x09)%Z then x3f else c.

Definition safe_reason (reason : bytes) : bytes :=
  let reason := if decide (123 < length reason) then take 123 reason else reason in
  sanitize <$> reason.

Definition ws_close (t : WsTransport) (code : Z) (reason : bytes) (w : W) : W :=
  (close_fn t (code, safe_reason reason) w).1.
End transport.
Arguments WsTransport : clear implicits.
Arguments callable : clear implicits.

(** ** The uWebSockets adapter *)
Inductive OpCode := TEXT | BINARY.

(** Calls on the [uWS::WebSocket]. *)
Inductive socket_call := ws_send (data : bytes) (op : OpCode) | ws_end (code : Z) (reason : bytes).

(** The shared flag, the callbacks posted to the loop and the calls made. *)
Record Uws := mkUws { alive : bool; deferred : list socket_call; calls : list socket_call }.

Definition uws_init : Uws := {| alive := true; deferred := []; calls := [] |}.

(** The guard before posting, and the post. *)
Definition post (c : socket_call) (u : Uws) : Uws * bool :=
  if alive u then (mkUws (alive u) (deferred u ++ [c]) (calls u), false) else (u, false).

Definition uws_send_text : callable Uws bytes := λ frame, post (ws_send frame TEXT).
Definition uws_send_binary : callable Uws bytes := λ frame, post (ws_send frame BINARY).
Definition uws_close_fn : callable Uws (Z * bytes) := λ '(code, reason), post (ws_end code reason).

Definition make_uws_transport : expected bytes (WsTransport Uws) :=
  make_ws (Some uws_send_text) (Some uws_send_binary) (Some uws_close_fn).

(** One posted callback runs: it checks the flag again. *)
Definition loop_tick (u : Uws) : Uws :=
  match deferred u with
  | [] => u
  | c :: q => mkUws (alive u) q (if alive u then calls u ++ [c] else calls u)
  end.

(** The first statement of the [.close] handler. *)
Definition uws_shutdown (u : Uws) : Uws := mkUws false (deferred u) (calls u).

(** ** Facts *)
Lemma safe_reason_length reason : length (safe_reason reason) = Nat.min 123 (length reason).
Proof.
  unfold safe_reason. rewrite length_fmap. case_decide; [|lia]. rewrite length_take. lia.
Qed.

Lemma sanitize_spec c : sanitize c = x09 ∨ (32 ≤ code (sanitize c))%Z.
Proof.
  unfold sanitize. case_decide as H; [right; by_decide|].
  destruct (decide (c = x09)) as [->|]; [by left|right].
  destruct (decide (code c < 32)%Z); [by destruct H|lia].
Qed.

Lemma sanitize_ok c : c = x09 ∨ (32 ≤ code c)%Z → sanitize c = c.
Proof. intros H. unfold sanitize. rewrite decide_False; [done|]. intros [? ?]. destruct H; [done|lia]. Qed.

(** Uses of the transport from any thread, in the order its mutex gives them,
    and what the event loop does. *)
Inductive uws_event :=
| use_text (frame : bytes)
| use_binary (frame : bytes)
| use_close (code : Z) (reason : bytes)
| tick
| shutdown.

Definition uws_apply (t : WsTransport Uws) (u : Uws) (ev : uws_event) : Uws :=
  match ev with
  | use_text f => ws_send_text t f u
  | use_binary f => ws_send_binary t f u
  | use_close code reason => ws_close t code reason u
  | tick => loop_tick u
  | shutdown => uws_shutdown u
  end.

(** The calls a sequence of events asks for before the shutdown. *)
Fixpoint requested (evs : list uws_event) : list socket_call :=
  match evs with
  | [] => []
  | use_text f :: evs => ws_send f TEXT :: requested evs
  | use_binary f :: evs => ws_send f BINARY :: requested evs
  | use_close code reason :: evs => ws_end code (safe_reason reason) :: requested evs
  | tick :: evs => requested evs
  | shutdown :: _ => []
  end.

(** What an event of the adapter's transport asks of the loop. *)
Definition request (ev : uws_event) : option socket_call :=
  match ev with
  | use_text f => Some (ws_send f TEXT)
  | use_binary f => Some (ws_send f BINARY)
  | use_close code reason => Some (ws_end code (safe_reason reason))
  | tick | shutdown => None
  end.

Lemma uws_apply_use t u ev c :
  make_uws_transport = Ok t → request ev = Some c → uws_apply t u ev = (post c u).1.
Proof. intros [= <-]. by destruct ev; intros [= <-]. Qed.

Lemma uws_dead t evs : make_uws_transport = Ok t → ∀ u,
  alive u = false →
  calls (foldl (uws_apply t) u evs) = calls u ∧ alive (foldl (uws_apply t) u evs) = false.
Proof.
  intros Ht. induction evs as [|ev evs IH]; intros u Hu; cbn [foldl]; [done|].
  assert (calls (uws_apply t u ev) = calls u ∧ alive (uws_apply t u ev) = false) as [Hc Ha].
  { destruct (request ev) as [c|] eqn:Hq.
    - rewrite (uws_apply_use t u ev c Ht Hq). unfold post. by rewrite Hu.
    - destruct ev; try done. cbn [uws_apply]. unfold loop_tick. rewrite Hu. by destruct (deferred u). }
  destruct (IH _ Ha) as [-> ->]. by rewrite Hc.
Qed.

Lemma uws_trace t evs : make_uws_transport = Ok t → ∀ u,
  alive u = true →
  ∃ rest, calls u ++ deferred u ++ requested evs = calls (foldl (uws_apply t) u evs) ++ rest ∧
    (alive (foldl (uws_apply t) u evs) = true → rest = deferred (foldl (uws_apply t) u evs)).
Proof.
  intros Ht. induction evs as [|ev evs IH]; intros u Hu.
  { exists (deferred u). by rewrite app_nil_r. }
  cbn [foldl]. destruct (request ev) as [c|] eqn:Hq.
  - rewrite (uws_apply_use t u ev c Ht Hq). unfold post. rewrite Hu.
    destruct (IH (mkUws true (deferred u ++ [c]) (calls u)) eq_refl) as (rest&Hr&Ha).
    exists rest. cbn [calls deferred fst] in *. rewrite <-app_assoc in Hr.
    split; [|done]. rewrite <-Hr. by destruct ev; inversion Hq.
  - destruct ev; try done; cbn [uws_apply requested].
    + unfold loop_tick. destruct (deferred u) as [|c q] eqn:Hd.
      * destruct (IH u Hu) as (rest&Hr&Ha). rewrite Hd in Hr. by exists rest.
      * rewrite Hu. destruct (IH (mkUws true q (calls u ++ [c])) eq_refl) as (rest&Hr&Ha).
        exists rest. cbn [calls deferred] in Hr. by rewrite <-app_assoc in Hr.
    + destruct (uws_dead t evs Ht (uws_shutdown u) eq_refl) as [-> ->].
      exists (deferred u). cbn [uws_shutdown calls]. by rewrite app_nil_r.
Qed.

(** The close callback receives the code unchanged and a reason of at most
    123 bytes without control characters (except tab): the first 123 bytes of the
    reason with every control character replaced by a question mark, so a reason
    that is already clean and short arrives as it is. *)
Theorem ws_close_reason {W} (t : WsTransport W) code0 reason w :
  ∃ r, ws_close t code0 reason w = (close_fn t (code0, r) w).1 ∧
    length r = Nat.min 123 (length reason) ∧
    Forall (λ c, c = x09 ∨ 32 ≤ code c)%Z r ∧
    Forall2 (λ c c', c' = c ∨ (code c < 32)%Z ∧ c' = x3f) (take 123 reason) r ∧
    (length reason ≤ 123 → Forall (λ c, c = x09 ∨ 32 ≤ code c)%Z reason → r = reason).
Proof.
  exists (safe_reason reason). split_and!; [done|apply safe_reason_length|..].
  - unfold safe_reason. apply Forall_fmap, Forall_true. intros c. apply sanitize_spec.
  - unfold safe_reason. replace (if decide _ then _ else _) with (take 123 reason)
      by (case_decide; [done|apply take_ge; lia]).
    apply Forall2_fmap_r, Forall_Forall2_diag, Forall_true. intros c.
    unfold compose, sanitize. case_decide as H; [right; tauto|by left].
  - intros Hl Hf. unfold safe_reason. rewrite decide_False by lia.
    induction Hf as [|c r Hc Hf IH]; [done|]. cbn [fmap list_fmap] in *.
    rewrite sanitize_ok by done. f_equal. apply IH. simpl in Hl. lia.
Qed.

(** The uWebSockets adapter under any interleaving of uses, loop iterations
    and the shutdown: the calls made on the socket are, in order, the ones
    requested before the shutdown, with those still waiting missing at the end
    (exactly the posted ones while the socket is alive); and after the shutdown
    no event makes another call. *)
Theorem uws_no_call_after_shutdown t evs evs' :
  make_uws_transport = Ok t →
  let u := foldl (uws_apply t) uws_init evs in
  (∃ rest, requested evs = calls u ++ rest ∧ (alive u = true → rest = deferred u)) ∧
  calls (foldl (uws_apply t) uws_init (evs ++ shutdown :: evs')) = calls u.
Proof.
  intros Ht. cbv zeta. split; [by apply (uws_trace t evs Ht uws_init)|].
  rewrite foldl_app. cbn [foldl uws_apply].
  by destruct (uws_dead t evs' Ht (uws_shutdown (foldl (uws_apply t) uws_init evs)) eq_refl) as [-> _].
Qed.

Lemma uws_no_call_after_shutdown_witness :
  ∃ t, make_uws_transport = Ok t ∧
    calls (foldl (uws_apply t) uws_init
      ([use_text [x41]; use_binary [x42]; tick] ++ shutdown :: [tick; use_close 1000 []; tick])) =
      [ws_send [x41] TEXT].
Proof.
  eexists. split; [reflexivity|].
  destruct (uws_no_call_after_shutdown (mkWsTransport uws_send_text uws_send_binary uws_close_fn)
    [use_text [x41]; use_binary [x42]; tick] [tick; use_close 1000 []; tick] eq_refl) as [_ H].
  exact H.
Defined.
