(* ===== verification/SessionUws.v ===== *)
(** * The session over uWebSockets

    Threads that call a [Session], its [WsTransport] from [make_uws_transport] and
    the event loop of uWebSockets as one system: what the session asks of its
    transport is posted to the loop, which makes the calls on the socket. *)

From S2P Require Import Prelude Bytes Message Serialize SessionTypes OffsetTracker AuthRefresh StreamRegistry.
From S2P Require Import SessionCodec Session SessionSpec SessionRefines SessionSafety SessionDemo SessionTheorems TransportWs.

Create HintDb guard.

Section guarded.
Context {ST : SizeT} {JL : JsonLib}.

(** Media, in either direction, and the result of a ping. *)
Definition privileged (o : op) : bool :=
  match o with send_binary _ | on_media_received _ _ _ | on_rtt _ => true | _ => false end.

(** The process makes privileged calls only after a critical section that found
    the session established; [est] is whether it had one. *)
Fixpoint guarded (est : bool) (p : proc result) : Prop :=
  match p with
  | Ret _ | Crash => True
  | Do o k => (privileged o = true → est = true) ∧ ∀ a, guarded est (k a)
  | Locked section => ∀ e s,
      let '(s', p') := section e s in guarded (est || bool_decide (state s = established)) p'
  end.

Lemma guarded_true : ∀ p, guarded true p.
Proof.
  fix IH 1. intros [r| |o k|section]; cbn [guarded]; [done|done| |].
  - split; [done|]. intros a. apply IH.
  - intros e s. destruct (section e s). apply IH.
Qed.

(** Only sections that do not find the session established matter. *)
Lemma guarded_locked section :
  (∀ e s, state s ≠ established → guarded false (section e s).2) → guarded false (Locked section).
Proof.
  intros Hs e s. cbn [orb]. case_bool_decide as He.
  - destruct (section e s). apply guarded_true.
  - specialize (Hs e s He). by destruct (section e s).
Qed.

Lemma guarded_send_text hs b k : guarded false k → guarded false (send_text_frame_noexcept hs b k).
Proof.
  intros Hk. unfold send_text_frame_noexcept. destruct (serialize_frame control hs b) as [[fr|]|]; [|done..].
  case_decide; [done|]. by split.
Qed.

Lemma guarded_close_transport c r k : guarded false k → guarded false (close_transport c r k).
Proof. by split. Qed.

Lemma guarded_close_section e :
  guarded false (Locked (λ _ s, (transition_to_closed_locked s, Ret (Err e)))).
Proof. by apply guarded_locked. Qed.

Lemma guarded_fail_init c r b e : guarded false (fail_init c r b e).
Proof. apply guarded_send_text, guarded_close_transport, guarded_close_section. Qed.

Lemma guarded_fail_established c r e : guarded false (fail_established c r e).
Proof. by apply guarded_send_text, guarded_close_transport. Qed.

Lemma guarded_notify b o k : privileged o = false → guarded false k → guarded false (notify b o k).
Proof.
  intros Ho Hk. destruct b; [|done]. split; [congruence|]. by intros [].
Qed.

Hint Resolve guarded_send_text guarded_close_transport guarded_close_section guarded_fail_init
  guarded_fail_established guarded_notify : guard.
Hint Extern 1 (guarded _ (Ret _)) => exact I : guard.
Hint Extern 1 (guarded _ Crash) => exact I : guard.

Lemma guarded_finalize sid version bw r s :
  guarded false (finalize_established_locked sid version bw r s).2.
Proof.
  unfold finalize_established_locked. cbv zeta. destruct (build_init_ack_body _ _ _); cbn [snd]; auto with guard.
Qed.
Hint Resolve guarded_finalize : guard.

Lemma guarded_init_after_auth f j version ok e s :
  guarded false (init_after_auth f j version ok e s).2.
Proof.
  unfold init_after_auth. destruct ok; cbn [negb snd]; [|auto with guard].
  destruct (parse_streams j) as [ds|[[c r] err]]; [|cbn [snd]; auto with guard].
  destruct (chars (session_id f)).
  - unfold handle_resumption_locked. repeat (case_match || case_decide); cbn [snd]; auto with guard.
  - unfold init_fresh. destruct (validate_declarations _ _); [|cbn [snd]; auto with guard].
    destruct (register_from_declarations _ _ _) as [[res reg] rd]. destruct res; [|cbn [snd]; auto with guard].
    destruct (generate_csprng_id rd 16).1; cbn [snd]; auto with guard.
Qed.

Lemma guarded_handle_init f e s : guarded false (handle_init f e s).2.
Proof.
  unfold handle_init. case_decide; [cbn [snd]; auto with guard|]. cbv zeta.
  destruct (json_parse _) as [j|]; [|cbn [snd]; auto with guard].
  destruct (json_at j _ ≫= _) as [version|]; [|cbn [snd]; auto with guard].
  destruct (negb _); [destruct (build_init_error_body _); cbn [snd]; auto with guard|].
  destruct (has_auth_validate _); [|apply guarded_init_after_auth].
  cbn [snd]. split; [done|]. intros [ok|]; [|done]. apply guarded_locked. intros e' s' _.
  case_decide; [done|apply guarded_init_after_auth].
Qed.

Lemma guarded_close c r s : guarded false (close_locked c r s).2.
Proof.
  unfold close_locked. case_decide; [done|]. cbn [snd]. unfold send_close_frame. auto 10 with guard.
Qed.

(** Every public method. *)
Lemma api_guarded c : guarded false (api c).
Proof.
  destruct c as [f|f|id payload ts| | |c r]; simpl api.
  - unfold process_control_frame. case_decide; [done|]. destruct (chars (event f)) as [ev|].
    2:{ apply guarded_locked. intros e s Hs. destruct (state s); cbn [snd]; auto with guard. }
    destruct (negb (is_valid_event_name ev)); apply guarded_locked; intros e s Hs.
    { cbn [snd]. rewrite decide_False by done. unfold send_init_error_and_close. auto with guard. }
    case_decide; [cbn [snd]; auto with guard|].
    case_decide; [apply guarded_handle_init|].
    case_decide; [unfold handle_ping; by rewrite decide_True by done|].
    case_decide; [unfold handle_pong; by rewrite decide_True by done|].
    case_decide; [unfold handle_auth_response; by rewrite decide_True by done|].
    case_decide; [apply guarded_close|done].
  - unfold process_media_frame. case_decide; [done|]. apply guarded_locked. intros e s Hs.
    rewrite decide_True by done. case_decide; cbn [snd]; auto with guard.
  - apply guarded_locked. intros e s Hs. by rewrite decide_True by done.
  - apply guarded_locked. intros e s Hs. by rewrite decide_True by done.
  - apply guarded_locked. intros e s Hs. by rewrite decide_True by done.
  - apply guarded_locked. intros e s _. apply guarded_close.
Qed.

(** ** Executions *)

(** Every privileged call comes after the application accepted credentials. *)
Fixpoint privileged_after_auth (h : list (op * answer)) : Prop :=
  match h with
  | [] => True
  | (o, _) :: h => (privileged o = true → credentials_accepted h) ∧ privileged_after_auth h
  end.

Definition world_guarded (ests : list bool) (w : world) : Prop :=
  Forall2 guarded ests (w_threads w) ∧ (true ∈ ests → credentials_accepted (w_history w)) ∧
  privileged_after_auth (w_history w).

Lemma credentials_kept x h : credentials_accepted h → credentials_accepted (x :: h).
Proof. intros [b Hb]. exists b. by right. Qed.

Lemma world_guarded_step ests w w' :
  (state (w_impl w) = established → credentials_accepted (w_history w)) →
  world_guarded ests w → step w w' → ∃ ests', world_guarded ests' w'.
Proof.
  intros Hcred (Hg&Ht&Hp) Hstep. destruct Hstep as [c w|i e section s' p' w Hi Hs|i o k a w Hi].
  - exists (ests ++ [false]). split_and!; [|cbn|done].
    + apply Forall2_app; [done|]. constructor; [apply api_guarded|done].
    + intros [?|?%list_elem_of_singleton]%elem_of_app; [by apply Ht|done].
  - destruct (Forall2_lookup_r _ _ _ _ _ Hg Hi) as (est&He&Hgi). cbn [guarded] in Hgi.
    specialize (Hgi e (w_impl w)). rewrite Hs in Hgi.
    exists (<[i := est || bool_decide (state (w_impl w) = established)]> ests).
    split_and!; [by apply Forall2_insert| |done]. cbn [w_history].
    intros (j&Hj)%list_elem_of_lookup. apply list_lookup_insert_Some in Hj as [(_&Hb&_)|[_ Hj]].
    + apply orb_true_iff in Hb as [->|Hb]; [by apply Ht; eapply list_elem_of_lookup_2|].
      apply Hcred. by apply bool_decide_eq_true in Hb.
    + apply Ht. by eapply list_elem_of_lookup_2.
  - destruct (Forall2_lookup_r _ _ _ _ _ Hg Hi) as (est&He&Hgi). destruct Hgi as [Hpriv Hk].
    exists (<[i := est]> ests). split_and!; [by apply Forall2_insert| |split; [|done]]; cbn [w_history].
    + rewrite list_insert_id by done. intros Hin. by apply credentials_kept, Ht.
    + intros Ho. apply Ht. specialize (Hpriv Ho). subst est. by eapply list_elem_of_lookup_2.
Qed.

Lemma privileged_reachable cb cfg ps w :
  config_ok cfg → prior_ok (new_session cb cfg ps) → has_auth_validate cb = true →
  reachable (new_session cb cfg ps) w → privileged_after_auth (w_history w).
Proof.
  intros Hc Hp Hcb Hr.
  enough (∃ ests, world_guarded ests w) as (ests&_&_&?) by done.
  revert w Hr. apply rtc_ind_r.
  - exists []. split_and!; [constructor|by intros ?%not_elem_of_nil|done].
  - intros w w' Hr Hstep [ests Hw]. eapply world_guarded_step; [|done|done].
    destruct (world_inv_steps _ _ _ (world_inv_init cb cfg ps Hc Hp) Hr) as (toks&Hi&(Hcbs&_)&_).
    intros He. apply (wi_history _ _ Hi). right. split; [done|]. by rewrite Hcbs.
Qed.

(** ** The session and its transport *)

(** What a call of the session does to the transport. *)
Definition use_of (o : op) : option uws_event :=
  match o with
  | send_text fr => Some (use_text fr)
  | send_binary fr => Some (use_binary fr)
  | transport_close code reason => Some (use_close code reason)
  | _ => None
  end.

(** The session's world, and what has happened to the adapter so far. *)
Definition system : Type := world * list uws_event.

Inductive system_step : system → system → Prop :=
| sys_session w w' evs :
    step w w' → w_history w' = w_history w → system_step (w, evs) (w', evs)
| sys_call w w' evs o a :
    step w w' → w_history w' = (o, a) :: w_history w →
    (is_Some (use_of o) → a = returned true) →      (* WsTransport does not throw *)
    system_step (w, evs) (w', evs ++ option_list (use_of o))
| sys_tick w evs : system_step (w, evs) (w, evs ++ [tick])
| sys_shutdown w evs : system_step (w, evs) (w, evs ++ [shutdown]).

Definition system_reachable (s0 : Impl) : system → Prop :=
  rtc system_step (mkWorld s0 [] [], []).

(** The calls on the socket. *)
Definition socket (t : WsTransport Uws) (evs : list uws_event) : Uws := foldl (uws_apply t) uws_init evs.

(** What the session asked of its transport, in order. *)
Definition session_requests (w : world) : list socket_call :=
  omap (λ x, use_of x.1 ≫= request) (rev (w_history w)).

Lemma system_session s0 y :
  system_reachable s0 y → reachable s0 y.1 ∧ omap request y.2 = session_requests y.1.
Proof.
  revert y. apply rtc_ind_r; [by split; [apply rtc_refl|]|].
  intros y z _ Hstep [Hr Hreq]. destruct Hstep as [w w' evs Hs Hh|w w' evs o a Hs Hh _|w evs|w evs];
    cbn [fst snd] in *.
  - split; [by eapply rtc_r|]. unfold session_requests. by rewrite Hh.
  - split; [by eapply rtc_r|]. unfold session_requests in *. rewrite Hh. cbn [rev].
    rewrite !omap_app, Hreq. f_equal. cbn. by destruct (use_of o) as [ev|]; cbn; [destruct (request ev)|].
  - split; [done|]. by rewrite omap_app, app_nil_r.
  - split; [done|]. by rewrite omap_app, app_nil_r.
Qed.

Lemma requested_prefix evs : requested evs `prefix_of` omap request evs.
Proof.
  induction evs as [|[f|f|c r| |] evs IH]; cbn; try done; try (by apply prefix_cons); try apply prefix_nil.
Qed.

Lemma privileged_binary h fr a :
  privileged_after_auth h → (send_binary fr, a) ∈ h → credentials_accepted h.
Proof.
  induction h as [|[o a'] h IH]; [by intros _ ?%not_elem_of_nil|]. intros [Ho Hh] Hin.
  apply credentials_kept. apply elem_of_cons in Hin as [[= <- _]|Hin]; [by apply Ho|by apply IH].
Qed.

(** C7. The session, its transport and the event loop together, in every
    interleaving of threads, loop iterations and the shutdown of the socket: the
    calls made on the socket are a prefix of what the session asked for, in order;
    a binary message, that is media, is sent only after the application accepted
    the client's credentials; a close has a reason of at most 123 bytes without
    control characters; and nothing is called after the shutdown. *)
Theorem session_over_uws cb cfg ps w evs t :
  config_ok cfg → prior_ok (new_session cb cfg ps) → has_auth_validate cb = true →
  make_uws_transport = Ok t → system_reachable (new_session cb cfg ps) (w, evs) →
  calls (socket t evs) `prefix_of` session_requests w ∧
  (∀ data, ws_send data BINARY ∈ calls (socket t evs) → credentials_accepted (w_history w)) ∧
  (∀ n r, ws_end n r ∈ calls (socket t evs) →
     length r ≤ 123 ∧ Forall (λ c, c = x09 ∨ 32 ≤ code c)%Z r) ∧
  (∀ evs', calls (socket t (evs ++ shutdown :: evs')) = calls (socket t evs)).
Proof.
  intros Hc Hp Hcb Ht Hr. destruct (system_session _ _ Hr) as [Hw Hreq]. cbn [fst snd] in Hw, Hreq.
  destruct (uws_trace t evs Ht uws_init eq_refl) as (rest&Htr&_). cbn [uws_init calls deferred app] in Htr.
  assert (calls (socket t evs) `prefix_of` session_requests w) as Hpre.
  { rewrite <-Hreq. etrans; [|apply requested_prefix]. rewrite Htr. by apply prefix_app_r. }
  assert (∀ c, c ∈ calls (socket t evs) →
    ∃ o a ev, (o, a) ∈ w_history w ∧ use_of o = Some ev ∧ request ev = Some c) as Hfrom.
  { intros c Hin. assert (c ∈ session_requests w) as Hreqs.
    { destruct Hpre as [k ->]. apply elem_of_app. by left. }
    apply list_elem_of_omap in Hreqs as ([o a]&Hoa&(ev&Hev&Hq)%bind_Some).
    exists o, a, ev. split; [|done]. apply list_elem_of_In. apply in_rev. by apply list_elem_of_In. }
  split_and!; [done| | |].
  - intros data Hin. destruct (Hfrom _ Hin) as (o&a&ev&Hoa&Hev&Hq).
    destruct o; try done; injection Hev as <-; try done.
    eapply privileged_binary; [by eapply privileged_reachable|done].
  - intros n r Hin. destruct (Hfrom _ Hin) as (o&a&ev&_&Hev&Hq).
    destruct o; try done; injection Hev as <-; try done. injection Hq as <- <-. split.
    + rewrite safe_reason_length. lia.
    + unfold safe_reason. apply Forall_fmap, Forall_true. intros c. apply sanitize_spec.
  - intros evs'. unfold socket. rewrite foldl_app. cbn [foldl uws_apply].
    by destruct (uws_dead t evs' Ht (uws_shutdown (foldl (uws_apply t) uws_init evs)) eq_refl) as [-> _].
Qed.

(** ** Schedules, to run the system *)
Inductive sys_action := of_session (a : action) | of_loop | of_socket_close.

Definition sys_act (y : system) (a : sys_action) : option system :=
  let '(w, evs) := y in
  match a with
  | of_session (reply i ans) =>
      match w_threads w !! i with
      | Some (Do o _) =>
          match use_of o, ans with
          | Some _, threw | Some _, returned false => None
          | u, _ => w' ← act w (reply i ans); Some (w', evs ++ option_list u)
          end
      | _ => None
      end
  | of_session a => w' ← act w a; Some (w', evs)
  | of_loop => Some (w, evs ++ [tick])
  | of_socket_close => Some (w, evs ++ [shutdown])
  end.

Fixpoint sys_schedule (y : system) (acts : list sys_action) : option system :=
  match acts with
  | [] => Some y
  | a :: acts => y ← sys_act y a; sys_schedule y acts
  end.

Lemma sys_act_step y a z : sys_act y a = Some z → system_step y z.
Proof.
  destruct y as [w evs], a as [[c|i e|i ans]| |]; cbn [sys_act].
  - intros (w'&Ha&[= <-])%bind_Some. apply sys_session; [by eapply act_step|]. by injection Ha as <-.
  - intros (w'&Ha&[= <-])%bind_Some. apply sys_session; [by eapply act_step|].
    cbn in Ha. repeat case_match; by simplify_eq.
  - destruct (w_threads w !! i) as [[| |o k|]|] eqn:Hi; try done. intros Hz.
    assert (∃ w', act w (reply i ans) = Some w' ∧ z = (w', evs ++ option_list (use_of o)) ∧
      (is_Some (use_of o) → ans = returned true)) as (w'&Ha&->&Hans).
    { destruct (use_of o) as [u|]; [destruct ans as [[|]|]; try done|];
        apply bind_Some in Hz as (w'&Ha&[= <-]); exists w'; split_and!; try done; by intros []. }
    apply sys_call with (a := ans); [by eapply act_step| |done].
    cbn in Ha. rewrite Hi in Ha. by injection Ha as <-.
  - intros [= <-]. constructor.
  - intros [= <-]. constructor.
Qed.

Lemma sys_schedule_reaches s0 acts y :
  sys_schedule (mkWorld s0 [] [], []) acts = Some y → system_reachable s0 y.
Proof.
  unfold system_reachable. generalize (mkWorld s0 [] [], [] : list uws_event).
  induction acts as [|a acts IH]; intros x; cbn; [by intros [= <-]|].
  intros (x1&Ha%sys_act_step&Hr%IH)%bind_Some. by econstructor.
Qed.
End guarded.

(** A session is established and sends its acknowledgement and a media frame; the
    loop sends both before the socket is closed. *)
Definition send_and_shut : list sys_action :=
  (of_session <$> establish) ++
  [of_session (reply 0 (returned true));
   of_session (call (call_send_media demo_id (str "abc") 7)); of_session (enter 1 demo_env);
   of_session (reply 1 (returned true)); of_loop; of_loop; of_socket_close; of_loop].

Definition demo_system : option (world * list uws_event) :=
  sys_schedule (ST := lp64) (JL := demo_json) (mkWorld start [] [], []) send_and_shut.

Definition demo_uws : WsTransport Uws := mkWsTransport uws_send_text uws_send_binary uws_close_fn.

Lemma session_over_uws_witness :
  ∃ w evs data, demo_system = Some (w, evs) ∧ ws_send data BINARY ∈ calls (socket demo_uws evs) ∧
    credentials_accepted (w_history w).
Proof.
  destruct demo_system as [[w evs]|] eqn:Hd.
  2:{ exfalso. assert (from_option (λ _, true) false demo_system = true) as Ht by (vm_compute; reflexivity).
      by rewrite Hd in Ht. }
  assert (∃ data, ws_send data BINARY ∈ calls (socket demo_uws evs)) as [data Hin].
  { assert (from_option (λ y, existsb (λ c, match c with ws_send _ BINARY => true | _ => false end)
      (calls (socket demo_uws y.2))) false demo_system = true) as Ht by (vm_compute; reflexivity).
    rewrite Hd in Ht. clear Hd. cbn [from_option snd] in Ht.
    apply existsb_exists in Ht as ([data []|]&Hc&Ht); [discriminate| |discriminate].
    exists data. by apply list_elem_of_In. }
  exists w, evs, data. split; [reflexivity|]. split; [exact Hin|].
  destruct (session_over_uws (ST := lp64) (JL := demo_json) all_callbacks default_config None w evs demo_uws)
    as (_&Hcred&_); [apply default_config_ok|apply start_prior_ok|reflexivity|reflexivity|..].
  { exact (sys_schedule_reaches (ST := lp64) (JL := demo_json) start send_and_shut (w, evs) Hd). }
  exact (Hcred data Hin).
Defined.
