(* ===== verification/SafeQueue.v ===== *)
(** * culpeostream-py: the thread-safe queue

    [SafeQueue] of [culpeostream-py/src/bindings.cpp]: a queue guarded by a mutex
    with a condition variable.  A critical section is one atomic step; waiting
    releases the mutex and puts the thread to sleep until it is notified, and
    [notify_one] and [notify_all] run after the mutex has been released.  Threads
    are entries of a table, each at its point in [push], [pop] or [close]; the
    condition variable may wake threads without a notification. *)

From S2P Require Import Prelude.

(** ** Sums over a table *)
Section sums.
Context {A : Type} (w : A → nat).

Abbreviation total := (sum_list_with w).

Lemma total_insert ts i p p' :
  ts !! i = Some p → total (<[i := p']> ts) + w p = total ts + w p'.
Proof.
  revert i. induction ts as [|a ts IH]; intros [|i] Hi; try done; simpl in *.
  - injection Hi as ->. lia.
  - specialize (IH i Hi). lia.
Qed.

Lemma total_lookup ts i p : ts !! i = Some p → w p ≤ total ts.
Proof.
  revert i. induction ts as [|a ts IH]; intros [|i] Hi; try done; simpl in *.
  - injection Hi as ->. lia.
  - specialize (IH i Hi). lia.
Qed.

Lemma total_zero ts : total ts = 0 ↔ Forall (λ p, w p = 0) ts.
Proof.
  induction ts as [|a ts IH]; simpl; [by split|]. split.
  - intros H. constructor; [lia|]. apply IH. lia.
  - intros [Ha Hts]%Forall_cons_1. apply IH in Hts. lia.
Qed.

Lemma total_snoc ts p : total (ts ++ [p]) = total ts + w p.
Proof. induction ts as [|a ts IH]; simpl; lia. Qed.

Lemma total_fmap_le (g : A → A) n ts :
  (∀ p, w (g p) ≤ w p + n) → total (g <$> ts) ≤ total ts + n * length ts.
Proof. intros Hg. induction ts as [|a ts IH]; csimpl; [lia|]. specialize (Hg a). rewrite Nat.mul_succ_r. lia. Qed.
End sums.

(** ** The queue *)
Section queue.
Context {T : Type}.

Record SafeQueue := mkQueue { q_ : list T; closed_ : bool }.

Definition new_queue : SafeQueue := {| q_ := []; closed_ := false |}.

(** The critical sections of [push] and [close]. *)
Definition queue_push (v : T) (q : SafeQueue) : SafeQueue := mkQueue (q_ q ++ [v]) (closed_ q).
Definition queue_close (q : SafeQueue) : SafeQueue := mkQueue (q_ q) true.

(** The predicate [pop] waits for, and its section once the predicate holds. *)
Definition pop_ready (q : SafeQueue) : bool :=
  match q_ q with [] => closed_ q | _ :: _ => true end.
Definition queue_take (q : SafeQueue) : option T * SafeQueue :=
  match q_ q with
  | [] => (None, q)
  | v :: rest => (Some v, mkQueue rest (closed_ q))
  end.

(** Where a thread is in its call. *)
Inductive pc :=
| push_lock (v : T)
| push_notify
| pop_lock
| pop_wait
| close_lock
| close_notify
| popped_value (r : option T)
| returned_void.

(** A call about to begin. *)
Definition starts (p : pc) : bool :=
  match p with push_lock _ | pop_lock | close_lock => true | _ => false end.

Definition finished (p : pc) : bool :=
  match p with popped_value _ | returned_void => true | _ => false end.

(** The queue and its threads; the items pushed and popped so far, in the order
    of the critical sections. *)
Record system := mkSystem {
  queue : SafeQueue;
  threads : list pc;
  pushed : list T;
  popped : list T;
}.

Definition new_system : system :=
  {| queue := new_queue; threads := []; pushed := []; popped := [] |}.

Definition with_threads (ts : list pc) (s : system) : system :=
  mkSystem (queue s) ts (pushed s) (popped s).

(** [notify_all]. *)
Definition wake (p : pc) : pc := match p with pop_wait => pop_lock | p => p end.

(** One step of thread [i]. *)
Inductive step : system → system → Prop :=
| step_push s i v :
    threads s !! i = Some (push_lock v) →
    step s (mkSystem (queue_push v (queue s)) (<[i := push_notify]> (threads s))
              (pushed s ++ [v]) (popped s))
| step_notify_one s i j :
    threads s !! i = Some push_notify → threads s !! j = Some pop_wait →
    step s (with_threads (<[j := pop_lock]> (<[i := returned_void]> (threads s))) s)
| step_notify_nobody s i :
    threads s !! i = Some push_notify → pop_wait ∉ threads s →
    step s (with_threads (<[i := returned_void]> (threads s)) s)
| step_sleep s i :
    threads s !! i = Some pop_lock → pop_ready (queue s) = false →
    step s (with_threads (<[i := pop_wait]> (threads s)) s)
| step_pop s i r q :
    threads s !! i = Some pop_lock → pop_ready (queue s) = true → queue_take (queue s) = (r, q) →
    step s (mkSystem q (<[i := popped_value r]> (threads s)) (pushed s) (popped s ++ option_list r))
| step_close s i :
    threads s !! i = Some close_lock →
    step s (mkSystem (queue_close (queue s)) (<[i := close_notify]> (threads s)) (pushed s) (popped s))
| step_notify_all s i :
    threads s !! i = Some close_notify →
    step s (with_threads (<[i := returned_void]> (wake <$> threads s)) s).

(** Besides, threads make new calls and waits end spuriously. *)
Inductive env_step : system → system → Prop :=
| env_run s s' : step s s' → env_step s s'
| env_call s p : starts p = true → env_step s (with_threads (threads s ++ [p]) s)
| env_spurious s i :
    threads s !! i = Some pop_wait → env_step s (with_threads (<[i := pop_lock]> (threads s)) s).

Definition reachable (s : system) : Prop := rtc env_step new_system s.

(** ** Counting threads *)
Definition is_waiting (p : pc) : nat := match p with pop_wait => 1 | _ => 0 end.
Definition is_responsible (p : pc) : nat := match p with push_notify | pop_lock => 1 | _ => 0 end.
Definition is_closing (p : pc) : nat := match p with close_notify => 1 | _ => 0 end.

Definition result_of (p : pc) : option T := match p with popped_value r => r | _ => None end.

(** Items are neither lost nor reordered nor duplicated; while threads sleep,
    every item has a thread that will deal with it, and a closed queue has one
    that will wake them. *)
Record queue_inv (s : system) : Prop := {
  inv_fifo : pushed s = popped s ++ q_ (queue s);
  inv_results : omap result_of (threads s) ≡ₚ popped s;
  inv_none : popped_value None ∈ threads s → closed_ (queue s) = true;
  inv_awake : sum_list_with is_waiting (threads s) = 0 ∨
    length (q_ (queue s)) ≤ sum_list_with is_responsible (threads s);
  inv_close : closed_ (queue s) = true →
    sum_list_with is_waiting (threads s) = 0 ∨ 0 < sum_list_with is_closing (threads s);
}.

(** ** Preservation *)
Lemma omap_result_insert ts i p p' :
  ts !! i = Some p → result_of p = None →
  omap result_of (<[i := p']> ts) ≡ₚ option_list (result_of p') ++ omap result_of ts.
Proof.
  intros Hi Hp. apply lookup_lt_Some in Hi as Hlt.
  assert (ts = take i ts ++ p :: drop (S i) ts) as Hts by (by rewrite take_drop_middle).
  rewrite insert_take_drop by done. rewrite Hts at 3. rewrite !omap_app.
  assert (∀ x l, omap result_of (x :: l) = option_list (result_of x) ++ omap result_of l) as Hcons
    by (intros x l; csimpl; by destruct (result_of x)).
  rewrite !Hcons, Hp, !(Permutation_app_comm (omap result_of (take i ts))). by rewrite <-app_assoc.
Qed.

Lemma elem_of_insert_pc (ts : list pc) i p x : x ∈ <[i := p]> ts → x = p ∨ x ∈ ts.
Proof.
  intros Hx. apply list_elem_of_lookup in Hx as [j Hj]. apply list_lookup_insert_Some in Hj.
  destruct Hj as [(?&?&?)|[_ Hj]]; [by left|right]. by eapply list_elem_of_lookup_2.
Qed.

(** Changes of the table that touch no result. *)
Definition same_results (ts ts' : list pc) : Prop :=
  omap result_of ts' ≡ₚ omap result_of ts ∧
  (popped_value None ∈ ts' → popped_value None ∈ ts).

Lemma same_results_insert ts i p p' :
  ts !! i = Some p → finished p = false → result_of p' = None → p' ≠ popped_value None →
  same_results ts (<[i := p']> ts).
Proof.
  intros Hi Hp Hp' Hne. split.
  - rewrite (omap_result_insert _ _ _ _ Hi), Hp'; [done|by destruct p].
  - intros [|Hin]%elem_of_insert_pc; [by destruct Hne|done].
Qed.

Lemma same_results_trans ts1 ts2 ts3 :
  same_results ts1 ts2 → same_results ts2 ts3 → same_results ts1 ts3.
Proof. intros [H1 H2] [H3 H4]. split; [by rewrite H3|auto]. Qed.

Lemma same_results_wake ts : same_results ts (wake <$> ts).
Proof.
  split.
  - replace (omap result_of (wake <$> ts)) with (omap result_of ts); [done|].
    induction ts as [|p ts IH]; [done|]. destruct p; csimpl; by rewrite <-IH.
  - intros Hin%list_elem_of_fmap. destruct Hin as ([]&[=]&Hin); by simplify_eq.
Qed.

Lemma inv_update s q ts ps :
  queue_inv s → same_results (threads s) ts →
  ps = popped s ++ q_ q → (closed_ (queue s) = true → closed_ q = true) →
  (sum_list_with is_waiting ts = 0 ∨ length (q_ q) ≤ sum_list_with is_responsible ts) →
  (closed_ q = true → sum_list_with is_waiting ts = 0 ∨ 0 < sum_list_with is_closing ts) →
  queue_inv (mkSystem q ts ps (popped s)).
Proof.
  intros [] [Hres Hnone] Hps Hcl Hw Hc. split; cbn [queue threads pushed popped]; auto.
  by rewrite Hres.
Qed.

Lemma wake_waiting (ts : list pc) : sum_list_with is_waiting (wake <$> ts) = 0.
Proof. apply total_zero, Forall_fmap, Forall_true. by intros []. Qed.

Lemma nobody_waits (ts : list pc) : pop_wait ∉ ts → sum_list_with is_waiting ts = 0.
Proof.
  intros Hn. apply total_zero, Forall_forall. intros p Hp. destruct p; try done; by apply list_elem_of_In in Hp.
Qed.

(** The three counts after thread [i] has moved to [p']. *)
Lemma count_insert ts i p p' :
  ts !! i = Some p →
  sum_list_with is_waiting (<[i := p']> ts) + is_waiting p = sum_list_with is_waiting ts + is_waiting p' ∧
  sum_list_with is_responsible (<[i := p']> ts) + is_responsible p =
    sum_list_with is_responsible ts + is_responsible p' ∧
  sum_list_with is_closing (<[i := p']> ts) + is_closing p = sum_list_with is_closing ts + is_closing p'.
Proof. intros Hi. split_and!; by apply total_insert. Qed.

Ltac count Hi p' :=
  let H := fresh in pose proof (count_insert _ _ _ p' Hi) as H;
  cbn [is_waiting is_responsible is_closing] in H.

Lemma inv_step s s' : step s s' → queue_inv s → queue_inv s'.
Proof.
  intros Hstep Hinv. pose proof Hinv as [Hf Hr Hn Ha Hc].
  destruct Hstep as [s i v Hi|s i j Hi Hj|s i Hi Hnw|s i Hi Hrd|s i r q Hi Hrd Ht|s i Hi|s i Hi].
  - count Hi push_notify. apply inv_update; try done; cbn [queue_push q_ closed_].
    + by eapply same_results_insert.
    + by rewrite Hf, app_assoc.
    + rewrite length_app. simpl. lia.
    + intros Hcl. specialize (Hc Hcl). lia.
  - assert (i ≠ j) as Hij by (intros ->; congruence).
    count Hi returned_void.
    assert (<[i := returned_void]> (threads s) !! j = Some pop_wait) as Hj'
      by (by rewrite list_lookup_insert_ne).
    count Hj' pop_lock. apply inv_update; try done.
    + eapply same_results_trans; by eapply same_results_insert.
    + lia.
    + intros Hcl. specialize (Hc Hcl). lia.
  - count Hi returned_void. apply nobody_waits in Hnw. apply inv_update; try done.
    + by eapply same_results_insert.
    + lia.
    + lia.
  - count Hi pop_wait. unfold pop_ready in Hrd.
    destruct (q_ (queue s)) as [|v l] eqn:Hq; [|done]. apply inv_update; try done.
    + by eapply same_results_insert.
    + by rewrite Hq.
    + rewrite Hq. simpl. lia.
    + by rewrite Hrd.
  - count Hi (popped_value r). unfold pop_ready, queue_take in *.
    split; cbn [queue threads pushed popped].
    + rewrite Hf. destruct (q_ (queue s)) as [|v l] eqn:Hq; injection Ht as <- <-; cbn [q_ option_list].
      * by rewrite Hq, !app_nil_r.
      * by rewrite <-app_assoc.
    + rewrite (omap_result_insert _ _ _ _ Hi) by done. cbn [result_of]. rewrite Hr. apply Permutation_app_comm.
    + destruct (q_ (queue s)) as [|v l] eqn:Hq; injection Ht as <- <-; [done|].
      intros [|Hin]%elem_of_insert_pc; [done|auto].
    + destruct (q_ (queue s)) as [|v l] eqn:Hq; injection Ht as <- <-; cbn [q_]; [rewrite Hq|];
        simpl in *; lia.
    + destruct (q_ (queue s)) as [|v l] eqn:Hq; injection Ht as <- <-; cbn [closed_];
        intros Hcl; specialize (Hc Hcl); lia.
  - count Hi close_notify. apply inv_update; try done; cbn [queue_close q_ closed_].
    + by eapply same_results_insert.
    + lia.
    + intros _. lia.
  - assert ((wake <$> threads s) !! i = Some close_notify) as Hi' by (by rewrite list_lookup_fmap, Hi).
    count Hi' returned_void. pose proof (wake_waiting (threads s)). apply inv_update; try done.
    + eapply same_results_trans; [apply same_results_wake|by eapply same_results_insert].
    + lia.
    + lia.
Qed.

Lemma inv_env_step s s' : env_step s s' → queue_inv s → queue_inv s'.
Proof.
  intros Hstep Hinv. pose proof Hinv as [Hf Hr Hn Ha Hc]. destruct Hstep as [s s' H|s p Hp|s i Hi].
  - by eapply inv_step.
  - apply inv_update; try done.
    + split; [rewrite omap_app; by destruct p; cbn; rewrite ?app_nil_r|].
      intros [|Hin%list_elem_of_singleton]%elem_of_app; [done|by subst].
    + rewrite !total_snoc. destruct p; cbn; try done; lia.
    + intros Hcl. specialize (Hc Hcl). rewrite !total_snoc. destruct p; cbn; try done; lia.
  - count Hi pop_lock. apply inv_update; try done.
    + by eapply same_results_insert.
    + lia.
    + intros Hcl. specialize (Hc Hcl). lia.
Qed.

Lemma inv_reachable s : reachable s → queue_inv s.
Proof.
  assert (queue_inv new_system) as Hinit.
  { split; try done; cbn; auto. by intros ?%not_elem_of_nil. }
  unfold reachable. generalize dependent new_system. intros s0 Hinit Hr.
  induction Hr as [|s1 s2 s3 Hs _ IH]; [done|]. apply IH. by eapply inv_env_step.
Qed.

(** ** Termination *)

(** What a thread can still do, and cause others to do. *)
Definition weight (n : nat) (p : pc) : nat :=
  match p with
  | push_lock _ => 3
  | push_notify => 2
  | pop_lock => 1
  | pop_wait | popped_value _ | returned_void => 0
  | close_lock => n + 2
  | close_notify => n + 1
  end.

Definition measure (s : system) : nat :=
  sum_list_with (weight (length (threads s))) (threads s).

Lemma measure_insert s i p p' q ps pps :
  threads s !! i = Some p →
  measure (mkSystem q (<[i := p']> (threads s)) ps pps) + weight (length (threads s)) p =
    measure s + weight (length (threads s)) p'.
Proof. intros Hi. unfold measure. cbn [threads]. rewrite length_insert. by apply total_insert. Qed.

Lemma step_measure s s' : step s s' → measure s' < measure s.
Proof.
  destruct 1 as [s i v Hi|s i j Hi Hj|s i Hi Hnw|s i Hi Hrd|s i r q Hi Hrd Ht|s i Hi|s i Hi];
    unfold with_threads.
  1,3-6: match goal with |- measure (mkSystem ?q (<[_ := ?p]> _) ?a ?b) < _ =>
    pose proof (measure_insert s i _ p q a b Hi) as Hm end; cbn [weight] in Hm; lia.
  - assert (i ≠ j) as Hij by (intros ->; congruence).
    pose proof (measure_insert s i _ returned_void (queue s) (pushed s) (popped s) Hi) as H1.
    pose proof (measure_insert (mkSystem (queue s) (<[i := returned_void]> (threads s)) (pushed s) (popped s))
      j _ pop_lock (queue s) (pushed s) (popped s)
      ltac:(cbn [threads]; by rewrite list_lookup_insert_ne)) as H2.
    cbn [threads weight] in *. lia.
  - pose proof (measure_insert (with_threads (wake <$> threads s) s) i _ returned_void (queue s) (pushed s)
      (popped s) ltac:(cbn [with_threads threads]; by rewrite list_lookup_fmap, Hi)) as H1.
    cbn [with_threads threads wake weight] in H1. rewrite length_fmap in H1.
    assert (measure (with_threads (wake <$> threads s) s) ≤ measure s + 1 * length (threads s)).
    { unfold measure. cbn [with_threads threads]. rewrite length_fmap. apply total_fmap_le. intros []; cbn; lia. }
    unfold with_threads in *. lia.
Qed.

Lemma steps_measure n s s' : nsteps step n s s' → n + measure s' ≤ measure s.
Proof. induction 1 as [|n s s1 s' Hs _ IH]; [lia|]. apply step_measure in Hs. lia. Qed.

Lemma waiting_dec (ts : list pc) : (∃ j, ts !! j = Some pop_wait) ∨ pop_wait ∉ ts.
Proof.
  induction ts as [|p ts [[j Hj]|IH]]; [right; apply not_elem_of_nil|left; by exists (S j)|].
  destruct p; try (right; intros [|]%elem_of_cons; done). left. by exists 0.
Qed.

(** A thread that can move. *)
Lemma step_possible s i p :
  threads s !! i = Some p → finished p = false → p ≠ pop_wait → ∃ s', step s s'.
Proof.
  intros Hi Hf Hw. destruct p; try done; try (eexists; by econstructor).
  - destruct (waiting_dec (threads s)) as [[j Hj]|Hn].
    + eexists. by eapply step_notify_one.
    + eexists. by eapply step_notify_nobody.
  - destruct (pop_ready (queue s)) eqn:Hrd; [|eexists; by eapply step_sleep].
    destruct (queue_take (queue s)) as [r q] eqn:Ht. eexists. by eapply step_pop.
Qed.

(** What a call of [pop] returns as it ends. *)
Lemma step_pops s s' i r :
  step s s' → threads s !! i ≠ Some (popped_value r) → threads s' !! i = Some (popped_value r) →
  match r with
  | Some v => q_ (queue s) = v :: q_ (queue s')
  | None => q_ (queue s) = [] ∧ closed_ (queue s) = true ∧ queue s' = queue s
  end.
Proof.
  assert (∀ (ts : list pc) j p, ts !! i ≠ Some (popped_value r) → p ≠ popped_value r →
    <[j := p]> ts !! i ≠ Some (popped_value r)) as Hins.
  { intros ts j p Hi Hp [(_&->&_)|[_ Hj]]%list_lookup_insert_Some; done. }
  destruct 1 as [s j v Hj|s j k Hj Hk|s j Hj Hw|s j Hj Hr|s j r' q Hj Hr Ht|s j Hj|s j Hj];
    cbn [threads with_threads queue]; intros Hi Hi'; try (exfalso; eapply Hins; [exact Hi| |exact Hi']; done).
  - exfalso. eapply Hins; [apply Hins; [exact Hi|]| |exact Hi']; done.
  - apply list_lookup_insert_Some in Hi' as [(_&[= ->]&_)|[_ ?]]; [|done].
    unfold queue_take, pop_ready in *. destruct (q_ (queue s)) as [|v l]; by injection Ht as <- <-.
  - apply list_lookup_insert_Some in Hi' as [(_&?&_)|[_ Hw]]; [done|]. rewrite list_lookup_fmap in Hw.
    destruct (threads s !! i) as [[]|]; try done; cbn in Hw; congruence.
Qed.

(** C23. In every execution, with any number of threads and any order of their
    calls, an item pushed is popped once, by one call, and items are popped in the
    order in which they were pushed.  A call of [pop] that ends with an item takes
    the first of the queue; one that ends with nothing finds the queue both closed
    and empty, so that every item pushed before has been popped. *)
Theorem safe_queue_fifo s :
  reachable s →
  pushed s = popped s ++ q_ (queue s) ∧ omap result_of (threads s) ≡ₚ popped s ∧
  (popped_value None ∈ threads s → closed_ (queue s) = true) ∧
  ∀ s' i r, step s s' → threads s !! i ≠ Some (popped_value r) → threads s' !! i = Some (popped_value r) →
    match r with
    | Some v => q_ (queue s) = v :: q_ (queue s')
    | None => closed_ (queue s) = true ∧ q_ (queue s) = [] ∧ popped s' = pushed s'
    end.
Proof.
  intros Hr. destruct (inv_reachable s Hr) as [Hf Hres Hn _ _]. split_and!; [done..|].
  intros s' i r Hs Hi Hi'. pose proof (step_pops s s' i r Hs Hi Hi') as Hp. destruct r as [v|]; [done|].
  destruct Hp as (Hq&Hc&Hqs). split_and!; [done..|].
  destruct (inv_step s s' Hs (inv_reachable s Hr)) as [Hf' _ _ _ _]. by rewrite Hf', Hqs, Hq, app_nil_r.
Qed.

(** C24. No wake-up is lost and no call runs for ever: without new calls and
    spurious wake-ups every execution ends after a bounded number of steps, and
    when it has ended every call has returned, except calls of [pop] that wait on
    a queue that is empty and has not been closed. *)
Theorem safe_queue_progress s :
  reachable s →
  (∀ n s', nsteps step n s s' → n ≤ measure s) ∧
  ((∀ s', ¬ step s s') →
   Forall (λ p, finished p = true ∨
     p = pop_wait ∧ q_ (queue s) = [] ∧ closed_ (queue s) = false) (threads s)).
Proof.
  intros Hr. split; [intros n s' Hn; apply steps_measure in Hn; lia|]. intros Hstuck.
  destruct (inv_reachable s Hr) as [_ _ _ Ha Hc].
  assert (∀ i p, threads s !! i = Some p → finished p = true ∨ p = pop_wait) as Hall.
  { intros i p Hi. destruct (finished p) eqn:Hf; [by left|right]. destruct p; try done;
      by destruct (step_possible s i _ Hi Hf) as [s' ?%Hstuck]. }
  assert (sum_list_with is_responsible (threads s) = 0 ∧ sum_list_with is_closing (threads s) = 0) as [? ?].
  { split; apply total_zero, Forall_lookup; intros i p Hi;
      (destruct (Hall i p Hi) as [Hf| ->]; [by destruct p|done]). }
  apply Forall_lookup. intros i p Hi. destruct (Hall i p Hi) as [Hf| ->]; [by left|right].
  pose proof (total_lookup is_waiting _ _ _ Hi) as Hw. cbn [is_waiting] in Hw.
  destruct (q_ (queue s)) as [|v l] eqn:Hq; [|exfalso; simpl in Ha; lia].
  destruct (closed_ (queue s)) eqn:Hcl; [|done]. specialize (Hc eq_refl). lia.
Qed.
End queue.
Arguments SafeQueue : clear implicits.
Arguments pc : clear implicits.
Arguments system : clear implicits.

(** ** A queue of numbers *)

(** A consumer sleeps, then an item is pushed. *)
Definition sample_system : system nat :=
  mkSystem (mkQueue [7] false) [pop_wait; push_notify] [7] [].

Lemma sample_reachable : reachable sample_system.
Proof.
  eapply rtc_l; [by eapply (env_call new_system pop_lock)|].
  eapply rtc_l; [eapply env_run, (step_sleep _ 0); reflexivity|].
  eapply rtc_l; [by eapply (env_call _ (push_lock 7))|].
  eapply rtc_l; [eapply env_run, (step_push _ 1 7); reflexivity|]. apply rtc_refl.
Defined.

(** The queue is closed and a consumer returns with nothing. *)
Lemma safe_queue_fifo_witness :
  ∃ s s' : system nat, reachable s ∧ step s s' ∧ threads s' = [returned_void; popped_value None] ∧
    q_ (queue s) = [] ∧ popped s' = pushed s'.
Proof.
  set (s := mkSystem (mkQueue [] true) [returned_void; pop_lock] [] [] : system nat).
  assert (reachable s) as Hr.
  { eapply rtc_l; [by eapply (env_call new_system close_lock)|].
    eapply rtc_l; [eapply env_run, (step_close _ 0); reflexivity|].
    eapply rtc_l; [eapply env_run, (step_notify_all _ 0); reflexivity|].
    eapply rtc_l; [by eapply (env_call _ pop_lock)|]. apply rtc_refl. }
  eexists s, _. split; [exact Hr|].
  assert (step s (mkSystem (mkQueue [] true) [returned_void; popped_value None] [] [])) as Hs
    by (by apply (step_pop s 1 None (mkQueue [] true))).
  split; [exact Hs|]. split; [done|].
  exact (proj2 (proj2 (proj2 (proj2 (safe_queue_fifo s Hr))) _ 1 None Hs ltac:(done) eq_refl)).
Defined.

Lemma safe_queue_progress_witness :
  ∃ s', nsteps step 2 sample_system s' ∧ threads s' = [popped_value (Some 7); returned_void] ∧
        2 ≤ measure sample_system.
Proof.
  assert (∃ s', nsteps step 2 sample_system s' ∧ threads s' = [popped_value (Some 7); returned_void])
    as (s'&Hn&Ht).
  { eexists. split; [|shelve]. eapply nsteps_l; [by apply (step_notify_one _ 1 0)|].
    eapply nsteps_l; [by apply (step_pop _ 0 (Some 7) (mkQueue [] false))|]. apply nsteps_O.
    Unshelve. reflexivity. }
  exists s'. split; [exact Hn|]. split; [exact Ht|].
  exact (proj1 (safe_queue_progress sample_system sample_reachable) 2 s' Hn).
Defined.
