(* ===== verification/PyMessage.v ===== *)
(** * culpeostream-py: strings and messages

    [PyCulpeoMessage] of [culpeostream-py/src/bindings.cpp], the owning copy of a
    parsed frame, and the strings of Python.  CPython is not part of the sources:
    decoding a byte string is the operation of the class [PyStr], which succeeds
    exactly on well-formed UTF-8 (RFC 3629). *)

From S2P Require Import Prelude Bytes Message ParseFacts Serialize Codec.

(** ** UTF-8 *)
Definition in_range (lo hi : Z) (b : byte) : bool :=
  bool_decide (lo ≤ code b ≤ hi)%Z.

(** A continuation byte. *)
Definition cont : byte → bool := in_range 128 191.

(** The second byte of a sequence of three, by its first byte (no overlong forms,
    no surrogates), and of a sequence of four (nothing above U+10FFFF). *)
Definition second3 (b0 b1 : byte) : bool :=
  if decide (code b0 = 224)%Z then in_range 160 191 b1
  else if decide (code b0 = 237)%Z then in_range 128 159 b1
  else cont b1.
Definition second4 (b0 b1 : byte) : bool :=
  if decide (code b0 = 240)%Z then in_range 144 191 b1
  else if decide (code b0 = 244)%Z then in_range 128 143 b1
  else cont b1.

Fixpoint utf8_valid (s : bytes) : bool :=
  match s with
  | [] => true
  | b0 :: s =>
      if in_range 0 127 b0 then utf8_valid s
      else match s with
           | [] => false
           | b1 :: s =>
               if in_range 194 223 b0 then cont b1 && utf8_valid s
               else match s with
                    | [] => false
                    | b2 :: s =>
                        if in_range 224 239 b0 then second3 b0 b1 && cont b2 && utf8_valid s
                        else match s with
                             | [] => false
                             | b3 :: s => in_range 240 244 b0 && second4 b0 b1 && cont b2 && cont b3 &&
                                          utf8_valid s
                             end
                    end
           end
  end.

(** Python's [str] and [PyUnicode_DecodeUTF8] in strict mode. *)
Class PyStr := {
  pystr : Type;
  decode : bytes → option pystr;
  decode_valid s : is_Some (decode s) ↔ utf8_valid s = true;
}.

(** ** [PyCulpeoMessage] *)
Record PyCulpeoMessage := mkMessage {
  frame_type_ : FrameType;
  headers_ : gmap bytes bytes;
  body_ : bytes;
}.

(** The lambda [put]: [emplace] keeps an entry that exists. *)
Definition put (name : bytes) (val : option string_view) (headers : gmap bytes bytes)
    : gmap bytes bytes :=
  match val with
  | None => headers
  | Some v => match headers !! name with Some _ => headers | None => <[name := sv_chars v]> headers end
  end.

(** The order in which the constructor copies the headers. *)
Definition copied : list reserved :=
  [h_event; h_content_type; h_authorization; h_session_id; h_stream_id; h_offset; h_timestamp;
   h_buffer_window; h_reason; h_code].

(** The constructor; [Err] is the text of the [ValueError] it raises. *)
Definition make_message {ST : SizeT} (data : bytes) (frame_type : FrameType) (limits : ParseLimits)
    : expected bytes PyCulpeoMessage :=
  match parse_headers limits frame_type data with
  | Err e => Err (error_message e)
  | Ok v =>
      Ok {| frame_type_ := frame_type;
            headers_ := foldl (λ hs r, put (reserved_name r) (get_slot r v) hs) ∅ copied;
            body_ := sv_chars (body v) |}
  end.

Definition message_type (m : PyCulpeoMessage) : FrameType := frame_type_ m.
Definition message_body (m : PyCulpeoMessage) : bytes := body_ m.

(** [headers()]: the dict, or [None] when a value is not UTF-8 and Python raises. *)
Definition message_headers {PS : PyStr} (m : PyCulpeoMessage) : option (gmap bytes pystr) :=
  if decide (map_Forall (λ _ v, utf8_valid v = true) (headers_ m)) then Some (omap decode (headers_ m))
  else None.

(** ** Facts *)
Lemma lookup_put name v hs n :
  put name v hs !! n =
    if decide (n = name) then (match hs !! n with Some x => Some x | None => sv_chars <$> v end) else hs !! n.
Proof.
  unfold put. destruct v as [v|].
  - destruct (hs !! name) eqn:Hn; case_decide as Hd; try done; [by subst; rewrite Hn|subst..].
    + by rewrite lookup_insert_eq, Hn.
    + by rewrite lookup_insert_ne.
  - case_decide; [|done]. by destruct (hs !! n).
Qed.

Lemma reserved_name_inj r r' : reserved_name r = reserved_name r' → r = r'.
Proof. by destruct r, r'. Qed.

Lemma lookup_copied (f : reserved → option string_view) rs n :
  foldl (λ hs r, put (reserved_name r) (f r) hs) ∅ rs !! n =
    match list_find (λ r, reserved_name r = n) rs with
    | Some (_, r) => sv_chars <$> f r
    | None => None
    end.
Proof.
  assert (∀ hs, foldl (λ hs r, put (reserved_name r) (f r) hs) hs rs !! n =
    match hs !! n with Some x => Some x | None =>
      match list_find (λ r, reserved_name r = n) rs with Some (_, r) => sv_chars <$> f r | None => None end
    end) as H; [|by rewrite H, lookup_empty].
  induction rs as [|r rs IH]; intros hs; cbn [foldl]; [by destruct (hs !! n)|].
  rewrite IH, lookup_put. cbn [list_find]. destruct (decide (reserved_name r = n)) as [<-|Hne].
  - rewrite decide_True by done. destruct (hs !! reserved_name r); [done|].
    destruct (f r) eqn:Hf; [done|]. cbn. destruct (list_find _ rs) as [[i r']|] eqn:Hl; [|done].
    apply list_find_Some in Hl as (_& ->%reserved_name_inj&_). by rewrite Hf.
  - rewrite decide_False by congruence. destruct (hs !! n); [done|].
    by destruct (list_find _ rs) as [[]|].
Qed.

Lemma lookup_copied_name (f : reserved → option string_view) r :
  foldl (λ hs r, put (reserved_name r) (f r) hs) ∅ copied !! reserved_name r = sv_chars <$> f r.
Proof. rewrite lookup_copied. by destruct r. Qed.

Lemma lookup_copied_other (f : reserved → option string_view) n :
  (∀ r, n ≠ reserved_name r) → foldl (λ hs r, put (reserved_name r) (f r) hs) ∅ copied !! n = None.
Proof.
  intros Hn. rewrite lookup_copied. destruct (list_find _ copied) as [[i r]|] eqn:Hl; [|done].
  apply list_find_Some in Hl as (_&Hr&_). by destruct (Hn r).
Qed.

Section message.
Context {ST : SizeT} {PS : PyStr} (limits : ParseLimits).

(** C30. A Python message is the reference reading of the frame: construction fails
    with the parser's message on exactly the malformed frames; otherwise the body
    and the ten well-known headers are those of the frame, under their canonical
    names, and nothing else.  The dict is returned exactly when every value is
    UTF-8; Python raises on the others. *)
Theorem py_message_exact ft data :
  limits_ok limits → (∀ v, ft ≠ unnamed_frame_type v) →
  match spec_parse limits data with
  | Err e => make_message data ft limits = Err (error_message e)
  | Ok (fs, b) =>
      ∃ m, make_message data ft limits = Ok m ∧ message_type m = ft ∧ message_body m = b ∧
        (∀ r, headers_ m !! reserved_name r = field_value r fs) ∧
        (∀ n, (∀ r, n ≠ reserved_name r) → headers_ m !! n = None) ∧
        match message_headers m with
        | None => ∃ r v, field_value r fs = Some v ∧ utf8_valid v = false
        | Some d => ∀ r, d !! reserved_name r = field_value r fs ≫= decode
        end
  end.
Proof.
  intros Hok Hft. pose proof (parse_headers_refines_spec limits ft data Hok Hft) as Href.
  unfold make_message. destruct (spec_parse limits data) as [[fs b]|e]; [|by rewrite Href].
  destruct Href as (p&->&Ht&_&Hb&_&Hslots). eexists. split; [done|].
  assert (∀ r, foldl (λ hs r, put (reserved_name r) (get_slot r p) hs) ∅ copied !! reserved_name r =
    field_value r fs) as Hr by (intros r; by rewrite lookup_copied_name, Hslots).
  split_and!; [done|done|exact Hr|apply lookup_copied_other|].
  unfold message_headers. cbn [headers_]. case_decide as Hall.
  - intros r. by rewrite lookup_omap, Hr.
  - apply map_not_Forall in Hall as (n&v&Hn&Hv).
    assert (∃ r, n = reserved_name r) as [r ->].
    { rewrite lookup_copied in Hn. destruct (list_find _ copied) as [[i r]|] eqn:Hl; [|done].
      apply list_find_Some in Hl as (_&<-&_). by exists r. }
    exists r, v. rewrite <-Hr. split; [done|]. by destruct (utf8_valid v).
    intros; apply _.
Qed.
End message.

(** Strings as byte strings that are UTF-8. *)
#[local] Instance utf8_strings : PyStr.
Proof.
  refine {| pystr := bytes; decode := λ s, if utf8_valid s then Some s else None |}.
  intros s. destruct (utf8_valid s); split; (done || by intros []).
Defined.

(** A frame with a header that is not UTF-8. *)
Definition latin1_frame : bytes :=
  str "Event: culpeo.close" ++ CRLF ++ str "Reason: " ++ [xe9] ++ CRLF2.

Lemma py_message_exact_witness :
  ∃ m, make_message (ST := lp64) latin1_frame control default_limits = Ok m ∧ message_headers m = None.
Proof.
  pose proof (py_message_exact (ST := lp64) default_limits control latin1_frame default_limits_ok
    ltac:(done)) as H.
  set (r := spec_parse _ _) in H. vm_compute in r. subst r. cbv beta iota in H.
  destruct H as (m&Hm&_). exists m. split; [exact Hm|].
  change (match Ok m : expected bytes PyCulpeoMessage with Ok m => message_headers m = None | Err _ => True end).
  rewrite <-Hm. by vm_compute.
Defined.
