(* ===== verification/PySession.v ===== *)
(** * culpeostream-py: callbacks, transport and session

    [PyWsTransport] and [PySession] of [culpeostream-py/src/bindings.cpp].  A piece
    of C++ that talks to Python is run in a thread that holds the interpreter lock
    (the GIL) or not; [gil_scoped_acquire] and [gil_scoped_release] change that for
    their scope, and leaving the scope, also by an exception, restores it.  Uses of
    the Python API are recorded with the lock's state: the API may only be used by
    a thread that holds it. *)

From S2P Require Import Prelude Bytes Message ParseFacts SessionTypes OffsetTracker AuthRefresh.
From S2P Require Import StreamRegistry SessionCodec Session SessionSpec SessionRefines SessionSafety SessionCalls.
From S2P Require Import Serialize SessionDemo TransportWs PyMessage.

Section python.
Context {PS : PyStr}.

(** ** The interpreter lock *)

(** Uses of the Python API. *)
Inductive py_api :=
| convert
| py_call_auth (token : pystr)
| py_call_media (id : pystr) (timestamp_us : Z) (body : bytes)
| py_call_on_close (code reason : pystr)
| py_call_rtt (microseconds : Z)
| py_call_send_text (frame : bytes)
| py_call_send_binary (frame : bytes)
| py_call_close (code : Z) (reason : pystr)
| cast_bool
| err_restore
| err_print
| write_stderr.

(** C++ exceptions that occur: a Python exception, or one of pybind11's own. *)
Inductive py_exn := error_already_set | std_exception.

Inductive outcome (A : Type) := normal (a : A) | thrown (e : py_exn).
Arguments normal {A} a.
Arguments thrown {A} e.

(** Code run with or without the lock: its outcome, and its uses of the API. *)
Definition pyM (A : Type) : Type := bool → outcome A * list (py_api * bool).

Definition pure {A} (a : A) : pyM A := λ _, (normal a, []).
Definition throw {A} (e : py_exn) : pyM A := λ _, (thrown e, []).
Definition use (x : py_api) : pyM unit := λ g, (normal tt, [(x, g)]).
Definition andThen {A B} (m : pyM A) (k : A → pyM B) : pyM B := λ g,
  match m g with
  | (normal a, l) => let '(r, l') := k a g in (r, l ++ l')
  | (thrown e, l) => (thrown e, l)
  end.

(** [py::gil_scoped_acquire] and [py::gil_scoped_release] in a block. *)
Definition gil_scoped_acquire {A} (m : pyM A) : pyM A := λ _, m true.
Definition gil_scoped_release {A} (m : pyM A) : pyM A := λ _, m false.

(** [try { m } catch (e) { handler(e) }]: the scopes of [m] are left first. *)
Definition try_catch {A} (m : pyM A) (handler : py_exn → pyM A) : pyM A := λ g,
  match m g with
  | (normal a, l) => (normal a, l)
  | (thrown e, l) => let '(r, l') := handler e g in (r, l ++ l')
  end.

(** [std::string] to [str]. *)
Definition to_str (s : bytes) : pyM pystr :=
  andThen (use convert) (λ _, match decode s with Some x => pure x | None => throw error_already_set end).

(** A Python callable returns an object ([None] when it is no [bool]) or raises. *)
Inductive called := raised | result_bool (b : option bool).

Definition call (x : py_api) (c : called) : pyM (option bool) :=
  andThen (use x) (λ _, match c with raised => throw error_already_set | result_bool b => pure b end).

(** [.cast<bool>()]. *)
Definition cast (b : option bool) : pyM bool :=
  andThen (use cast_bool) (λ _, match b with Some b => pure b | None => throw std_exception end).

(** The catch clauses of the callbacks. *)
Definition report {A} (a : A) (e : py_exn) : pyM A :=
  match e with
  | error_already_set => andThen (use err_restore) (λ _, andThen (use err_print) (λ _, pure a))
  | std_exception => andThen (use write_stderr) (λ _, pure a)
  end.

(** ** The session's callbacks

    [f] is how the callable behaves. *)
Definition auth_callback (f : pystr → called) (token : bytes) : pyM bool :=
  try_catch
    (gil_scoped_acquire (andThen (to_str token) (λ s, andThen (call (py_call_auth s) (f s)) cast)))
    (report false).

Definition void_callback (m : pyM unit) : pyM unit := try_catch (gil_scoped_acquire m) (report tt).

Definition media_callback (f : called) (id : bytes) (ts_us : Z) (body : bytes) : pyM unit :=
  void_callback (andThen (to_str id) (λ id, andThen (use convert) (λ _,
    andThen (call (py_call_media id ts_us body) f) (λ _, pure tt)))).

Definition close_callback (f : called) (code reason : bytes) : pyM unit :=
  void_callback (andThen (to_str code) (λ c, andThen (to_str reason) (λ r,
    andThen (call (py_call_on_close c r) f) (λ _, pure tt)))).

Definition rtt_callback (f : called) (rtt : Z) : pyM unit :=
  void_callback (andThen (call (py_call_rtt rtt) f) (λ _, pure tt)).

(** ** [PyWsTransport] *)

(** The world of the transport's callables: the uses of the API so far. *)
Definition py_log : Type := list (py_api * bool).

Definition py_lambda {A} (m : A → pyM unit) : callable py_log A := λ a w,
  match gil_scoped_acquire (m a) false with
  | (normal _, l) => (w ++ l, false)
  | (thrown _, l) => (w ++ l, true)
  end.

(** The three lambdas, for callables that behave as [text], [binary] and [close]. *)
Definition make_py_ws (text binary close : called) : expected bytes (WsTransport py_log) :=
  make_ws
    (Some (py_lambda (λ frame, andThen (use convert) (λ _,
       andThen (call (py_call_send_text frame) text) (λ _, pure tt)))))
    (Some (py_lambda (λ frame, andThen (use convert) (λ _,
       andThen (call (py_call_send_binary frame) binary) (λ _, pure tt)))))
    (Some (py_lambda (λ '(code, reason), andThen (use convert) (λ _, andThen (to_str reason) (λ r,
       andThen (call (py_call_close code r) close) (λ _, pure tt)))))).

(** ** [PySession] *)

(** Which of the callables are not [None]. *)
Record py_callables := mkCallables {
  given_auth_validate : bool;
  given_media_received : bool;
  given_close : bool;
  given_rtt : bool;
  given_auth_response : bool;
}.

Inductive py_error := ValueError (message : bytes) | RuntimeError (message : bytes).

Definition make_py_session (c : py_callables) (config : SessionConfig) : expected py_error Impl :=
  if negb (given_auth_validate c)
  then Err (ValueError (str "on_auth_validate is required; pass a callable to validate auth tokens. To explicitly allow all connections (testing only), pass: lambda token: True"))
  else Ok (new_session
    (mkCallbacks true (given_media_received c) (given_rtt c) (given_close c) (given_auth_response c))
    config None).

Fixpoint proc_map {A B} (f : A → B) (p : proc A) : proc B :=
  match p with
  | Ret a => Ret (f a)
  | Crash => Crash
  | Do o k => Do o (λ a, proc_map f (k a))
  | Locked section => Locked (λ e s, let '(s, p) := section e s in (s, proc_map f p))
  end.

Abbreviation py_result := (expected py_error unit).

(** [if (!result) throw_session_error(result.error());]. *)
Definition session_result (r : result) : py_result :=
  match r with Ok _ => Ok tt | Err e => Err (RuntimeError (SessionTypes.error_message e)) end.

(** ** Facts about processes and callbacks *)
Lemma stays_map {A B} (f : A → B) I O (p : proc A) : stays I O p → stays I O (proc_map f p).
Proof.
  revert p. fix IH 1. intros [a| |o k|section]; cbn [stays proc_map]; [done..| |].
  - intros [Ho Hk]. split; [done|]. intros a. apply IH, Hk.
  - intros Hs e s Hi. specialize (Hs e s Hi). specialize (IH (section e s).2).
    destruct (section e s) as [s' p']. destruct Hs as [? Hp]. split; [done|]. by apply IH.
Qed.

Lemma auth_callback_true f token g :
  (auth_callback f token g).1 = normal true ↔
  ∃ s, decode token = Some s ∧ f s = result_bool (Some true).
Proof.
  unfold auth_callback, try_catch, gil_scoped_acquire, to_str, call, cast, andThen, use, pure, throw.
  destruct (decode token) as [s|]; cbn; [|split; [done|by intros (?&?&_)]].
  destruct (f s) as [|[[]|]] eqn:Hf; cbn; split; try done; try (intros (?&[= <-]&?); congruence).
  intros _. by exists s.
Qed.

(** An authorization callback never throws into the session and denies on
    every error.  It uses the Python API under the interpreter lock as long as the
    callable returns a [bool]; when the token is not UTF-8, the callable raises or
    its result is no [bool], the error is reported after the lock has been given
    back, so that a thread that did not hold it before, as every thread in which
    the session runs, uses the API without it. *)
Theorem py_callback_gil f token g :
  let '(r, l) := auth_callback f token g in
  (∃ b, r = normal b) ∧
  (r = normal true ↔ ∃ s, decode token = Some s ∧ f s = result_bool (Some true)) ∧
  (Forall (λ u, u.2 = true) l ↔
     g = true ∨ ∃ s b, decode token = Some s ∧ f s = result_bool (Some b)).
Proof.
  pose proof (auth_callback_true f token g) as Ht. destruct (auth_callback f token g) as [r l] eqn:Hcb.
  split_and!; [|exact Ht|]; clear Ht; revert Hcb;
    unfold auth_callback, try_catch, gil_scoped_acquire, to_str, call, cast, andThen, use, pure, throw;
    (destruct (decode token) as [s|]; [destruct (f s) as [|[b|]] eqn:Hf|]); cbn; intros [= <- <-]; eauto.
  - split; [|intros [->|(?&?&[= <-]&?)]; [repeat constructor|congruence]].
    intros Hl. left. do 2 apply Forall_inv_tail in Hl. by apply Forall_inv in Hl.
  - split; [eauto|repeat constructor].
  - split; [|intros [->|(?&?&[= <-]&?)]; [repeat constructor|congruence]].
    intros Hl. left. do 3 apply Forall_inv_tail in Hl. by apply Forall_inv in Hl.
  - split; [|intros [->|(?&?&?&_)]; [repeat constructor|done]].
    intros Hl. left. apply Forall_inv_tail in Hl. by apply Forall_inv in Hl.
Qed.

(** Sixty-two letters of two bytes each. *)
Definition long_reason : bytes := mjoin (replicate 62 [xc3; xa9]).

(** The close callable of a Python transport is called exactly when the cut
    and cleaned reason is UTF-8.  The cut at 123 bytes can split a character: there
    is a reason that is UTF-8 for which the callable is never called and no error
    is reported. *)
Theorem py_close_reason_lost text binary close :
  ∃ t, make_py_ws text binary close = Ok t ∧
    (∀ code reason w, ws_close t code reason w = w ++ [(convert, true); (convert, true)] ++
       match decode (safe_reason reason) with Some s => [(py_call_close code s, true)] | None => [] end) ∧
    utf8_valid long_reason = true ∧
    ∀ code w, ws_close t code long_reason w = w ++ [(convert, true); (convert, true)].
Proof.
  eexists. split; [reflexivity|].
  match goal with |- (∀ code reason w, ws_close ?t _ _ _ = _) ∧ _ => set (tr := t) end.
  assert (∀ code reason w, ws_close tr code reason w = w ++ [(convert, true); (convert, true)] ++
    match decode (safe_reason reason) with Some s => [(py_call_close code s, true)] | None => [] end) as Hc.
  { intros code reason w. unfold ws_close, tr. cbn [close_fn].
    unfold py_lambda, gil_scoped_acquire, to_str, call, andThen, use, pure, throw.
    destruct (decode (safe_reason reason)); [|done]. by destruct close. }
  split_and!; [exact Hc|by vm_compute|]. intros code w. rewrite Hc.
  destruct (decode (safe_reason long_reason)) as [s|] eqn:Hd; [|done].
  pose proof (proj1 (decode_valid (safe_reason long_reason)) ltac:(eauto)) as Hv.
  by vm_compute in Hv.
Qed.

Section methods.
Context {ST : SizeT} {JL : JsonLib}.

Definition py_process_control_frame (data : bytes) : proc py_result :=
  match parse_headers default_limits control data with
  | Err e => Ret (Err (ValueError (Message.error_message e)))
  | Ok parsed => proc_map session_result (process_control_frame parsed)
  end.

Definition py_process_media_frame (data : bytes) : proc py_result :=
  match parse_headers default_limits media data with
  | Err e => Ret (Err (ValueError (Message.error_message e)))
  | Ok parsed => proc_map session_result (process_media_frame parsed)
  end.

Definition py_send_media (stream_id payload : bytes) (timestamp_us : Z) : proc py_result :=
  proc_map session_result (send_media stream_id payload timestamp_us).

Definition py_send_ping : proc py_result := proc_map session_result send_ping.

Definition py_close (code reason : bytes) : proc py_result :=
  proc_map (λ _, Ok tt) (close code reason).

(** Everything Python threads can call. *)
Inductive py_method :=
| py_control (data : bytes)
| py_media (data : bytes)
| py_send (stream_id payload : bytes) (timestamp_us : Z)
| py_ping
| py_closing (code reason : bytes).

Definition py_proc (m : py_method) : proc py_result :=
  match m with
  | py_control data => py_process_control_frame data
  | py_media data => py_process_media_frame data
  | py_send stream_id payload ts => py_send_media stream_id payload ts
  | py_ping => py_send_ping
  | py_closing code reason => py_close code reason
  end.

(** ** Executions with Python threads *)
Record py_world := mkPyWorld {
  py_impl : Impl;
  py_threads : list (proc py_result);
  py_history : list (op * answer);
  py_called : list py_method;            (* the calls made *)
}.

Inductive py_step : py_world → py_world → Prop :=
| py_step_call m w :
    py_step w (mkPyWorld (py_impl w) (py_threads w ++ [py_proc m]) (py_history w) (py_called w ++ [m]))
| py_step_locked i e section s' p' w :
    py_threads w !! i = Some (Locked section) → section e (py_impl w) = (s', p') →
    py_step w (mkPyWorld s' (<[i := p']> (py_threads w)) (py_history w) (py_called w))
| py_step_do i o k a w :
    py_threads w !! i = Some (Do o k) →
    py_step w (mkPyWorld (py_impl w) (<[i := k a]> (py_threads w)) ((o, a) :: py_history w) (py_called w)).

Definition py_reachable (s0 : Impl) (w : py_world) : Prop := rtc py_step (mkPyWorld s0 [] [] []) w.

(** ** Python threads are threads of the session

    A Python thread has raised or returned, or it is the session's thread with its
    result translated. *)
Inductive sim : list (proc py_result) → list (proc result) → Prop :=
| sim_nil : sim [] []
| sim_done r pts ts : sim pts ts → sim (Ret r :: pts) ts
| sim_thread f t pts ts : sim pts ts → sim (proc_map f t :: pts) (t :: ts).

Lemma sim_app pts ts pts' ts' : sim pts ts → sim pts' ts' → sim (pts ++ pts') (ts ++ ts').
Proof. induction 1; intros H'; cbn [app]; try constructor; auto. Qed.

(** A thread that is not finished has its counterpart. *)
Lemma sim_lookup pts ts : sim pts ts → ∀ i p,
  pts !! i = Some p → (∀ r, p ≠ Ret r) →
  ∃ j f t, ts !! j = Some t ∧ p = proc_map f t ∧
    ∀ t', sim (<[i := proc_map f t']> pts) (<[j := t']> ts).
Proof.
  induction 1 as [|r pts ts Hs IH|f t pts ts Hs IH]; intros [|i] p Hi Hp; try done.
  - injection Hi as <-. by destruct (Hp r).
  - destruct (IH i p Hi Hp) as (j&f&t&Hj&->&Hsim). exists j, f, t. split_and!; [done..|].
    intros t'. constructor. apply Hsim.
  - injection Hi as <-. exists 0, f, t. split_and!; [done..|]. intros t'. by constructor.
  - destruct (IH i p Hi Hp) as (j&g&t0&Hj&->&Hsim). exists (S j), g, t0. split_and!; [done..|].
    intros t'. constructor. apply Hsim.
Qed.

Lemma py_proc_sim m : sim [py_proc m] [] ∨ ∃ c, sim [py_proc m] [api c].
Proof.
  destruct m as [data|data|id payload ts| |c r]; cbn [py_proc].
  - unfold py_process_control_frame. destruct (parse_headers _ _ _) as [p|e];
      [right; exists (call_control p)|left]; repeat constructor.
  - unfold py_process_media_frame. destruct (parse_headers _ _ _) as [p|e];
      [right; exists (call_media p)|left]; repeat constructor.
  - right. exists (call_send_media id payload ts). repeat constructor.
  - right. exists call_send_ping. repeat constructor.
  - right. exists (call_close c r). repeat constructor.
Qed.

Lemma py_step_sim w w' ts :
  py_step w w' → sim (py_threads w) ts →
  ∃ ts', sim (py_threads w') ts' ∧
    rtc SessionSafety.step (mkWorld (py_impl w) ts (py_history w)) (mkWorld (py_impl w') ts' (py_history w')).
Proof.
  destruct 1 as [m w|i e section s' p' w Hi Hs|i o k a w Hi]; cbn [py_threads py_impl py_history]; intros Hsim.
  - destruct (py_proc_sim m) as [Hm|[c Hm]].
    + exists (ts ++ []). split; [by apply sim_app|]. by rewrite app_nil_r.
    + exists (ts ++ [api c]). split; [by apply sim_app|]. eapply rtc_once, (step_call c (mkWorld _ ts _)).
  - destruct (sim_lookup _ _ Hsim i _ Hi) as (j&f&t&Hj&Ht&Hup); [done|].
    destruct t as [| | |section']; try done. injection Ht as ->.
    destruct (section' e (py_impl w)) as [s1 t1] eqn:Hs1. injection Hs as <- <-.
    exists (<[j := t1]> ts). split; [apply Hup|].
    eapply rtc_once, (step_locked j e section' s1 t1 (mkWorld _ ts _)); done.
  - destruct (sim_lookup _ _ Hsim i _ Hi) as (j&f&t&Hj&Ht&Hup); [done|].
    destruct t as [| |o' k'|]; try done. injection Ht as <- ->.
    exists (<[j := k' a]> ts). split; [apply Hup|].
    eapply rtc_once, (step_do j o k' a (mkWorld _ ts _)); done.
Qed.

(** The session under Python is a session: same states, same history. *)
Lemma py_reachable_session s0 w :
  py_reachable s0 w → ∃ ts, SessionSafety.reachable s0 (mkWorld (py_impl w) ts (py_history w)).
Proof.
  intros Hr. enough (∃ ts, sim (py_threads w) ts ∧
    SessionSafety.reachable s0 (mkWorld (py_impl w) ts (py_history w))) as (ts&_&?) by eauto.
  revert w Hr. apply rtc_ind_r.
  - exists []. split; [constructor|apply rtc_refl].
  - intros w1 w2 _ Hs (ts&Hsim&Hr). destruct (py_step_sim _ _ _ Hs Hsim) as (ts'&Hsim'&Hr').
    exists ts'. split; [done|]. unfold SessionSafety.reachable in *. by etrans.
Qed.

(** The calls of a Python thread are those of the method it runs. *)
Definition py_made_by (m : py_method) (o : op) : Prop :=
  match m with
  | py_control data => ∃ f, parse_headers default_limits control data = Ok f ∧ made_by (call_control f) o
  | py_media data => ∃ f, parse_headers default_limits media data = Ok f ∧ made_by (call_media f) o
  | py_send id payload ts => made_by (call_send_media id payload ts) o
  | py_ping => made_by call_send_ping o
  | py_closing code reason => made_by (call_close code reason) o
  end.

Lemma py_makes m : stays (λ _, True) (py_made_by m) (py_proc m).
Proof.
  destruct m as [data|data|id payload ts| |c r]; cbn [py_proc].
  - unfold py_process_control_frame. destruct (parse_headers _ _ _) as [f|] eqn:Hf; [|done]. apply stays_map.
    eapply stays_mono; [|apply (makes_api (call_control f))]. intros o Ho. by exists f.
  - unfold py_process_media_frame. destruct (parse_headers _ _ _) as [f|] eqn:Hf; [|done]. apply stays_map.
    eapply stays_mono; [|apply (makes_api (call_media f))]. intros o Ho. by exists f.
  - apply stays_map, (makes_api (call_send_media id payload ts)).
  - apply stays_map, (makes_api call_send_ping).
  - apply stays_map, (makes_api (call_close c r)).
Qed.

Lemma py_called_inv s0 w :
  py_reachable s0 w →
  Forall2 (λ m p, stays (λ _, True) (py_made_by m) p) (py_called w) (py_threads w) ∧
  ∀ o a, (o, a) ∈ py_history w → ∃ m, m ∈ py_called w ∧ py_made_by m o.
Proof.
  revert w. apply rtc_ind_r; [split; [constructor|by intros o a ?%not_elem_of_nil]|].
  intros w1 w2 _ Hs [Ht Hh]. destruct Hs as [m w|i e section s' p' w Hi Hsec|i o k a w Hi]; cbn in *.
  - split; [apply Forall2_app; [done|]; constructor; [apply py_makes|constructor]|].
    intros o a Hin. destruct (Hh o a Hin) as (m'&?&?). exists m'. set_solver.
  - destruct (Forall2_lookup_r _ _ _ _ _ Ht Hi) as (m&Hm&Hst). specialize (Hst e (py_impl w) I).
    rewrite Hsec in Hst. destruct Hst as [_ Hst]. split; [|done].
    rewrite <-(list_insert_id (py_called w) i m) by done. by apply Forall2_insert.
  - destruct (Forall2_lookup_r _ _ _ _ _ Ht Hi) as (m&Hm&Ho&Hk).
    split; [rewrite <-(list_insert_id (py_called w) i m) by done; by apply Forall2_insert|].
    intros o' a' [[= -> ->]|Hin]%elem_of_cons; [|by eapply Hh]. exists m. split; [|done].
    by eapply list_elem_of_lookup_2.
Qed.

(** C21. A session made in Python has an authorization callable, and no
    interleaving of calls from Python threads establishes it before that callable
    returned [True] for credentials of the client: among the frames that Python gave
    to [process_control_frame] is an init frame, the session asked the callable for
    the Bearer token of its Authorization header, that token is UTF-8, the callable
    was called with it as a [str] and returned [True]. *)
Theorem py_session_authenticated (behaves : pystr → called → Prop) c cfg s0 w :
  make_py_session c cfg = Ok s0 → config_ok cfg → py_reachable s0 w →
  (∀ b r, (on_auth_validate b, returned r) ∈ py_history w →
     ∃ f, (∀ s, behaves s (f s)) ∧ (auth_callback f b false).1 = normal r) →
  state (py_impl w) = established →
  ∃ data f s, py_control data ∈ py_called w ∧ parse_headers default_limits control data = Ok f ∧
    chars (event f) = Some (str "culpeo.init") ∧
    let token := bearer_token (chars (authorization f)) in
    (on_auth_validate token, returned true) ∈ py_history w ∧
    decode token = Some s ∧ behaves s (result_bool (Some true)).
Proof.
  intros Hmake Hcfg Hr Hans He. unfold make_py_session in Hmake.
  destruct (given_auth_validate c); [|done]. injection Hmake as <-.
  destruct (py_reachable_session _ _ Hr) as [ts Hr'].
  set (cbs := mkCallbacks _ _ _ _ _) in *.
  assert (prior_ok (new_session cbs cfg None)) as Hp by done.
  destruct (world_inv_steps _ _ _ (world_inv_init cbs cfg None Hcfg Hp) Hr') as (toks&Hw&(Hcbs&_)&_).
  destruct (wi_history _ _ Hw) as [b Hb]; [right; split; [done|by rewrite Hcbs]|]. cbn in Hb.
  destruct (Hans b true Hb) as (g&Hg&Hcb). apply auth_callback_true in Hcb as (s&Hs&Hgs).
  destruct (proj2 (py_called_inv _ _ Hr) _ _ Hb) as (m&Hm&Hmade).
  assert (∃ data f, m = py_control data ∧ parse_headers default_limits control data = Ok f ∧
    made_by (call_control f) (on_auth_validate b)) as (data&f&->&Hf&f'&[= <-]&Hev&->).
  { destruct m as [data|data|id pl ts'| |? ?]; cbn in Hmade; [destruct Hmade as (f&Hf&Hmade); by exists data, f|..].
    - by destruct Hmade as (?&_&?&?&_).
    - by destruct Hmade as (?&?&_).
    - by destruct Hmade as (?&?&_).
    - by destruct Hmade as (?&?&_). }
  exists data, f, s. cbv zeta. split_and!; [done..|]. by rewrite <-Hgs.
Qed.
End methods.
End python.
Arguments normal {A} a.
Arguments thrown {A} e.

(** ** A session of Python threads *)
Section schedule.
Context {PS : PyStr} {ST : SizeT} {JL : JsonLib}.

Inductive py_action :=
| py_begin (m : py_method)
| py_enter (i : nat) (e : Env)
| py_reply (i : nat) (a : answer).

Definition py_act (w : py_world) (a : py_action) : option py_world :=
  match a with
  | py_begin m => Some (mkPyWorld (py_impl w) (py_threads w ++ [py_proc m]) (py_history w) (py_called w ++ [m]))
  | py_enter i e =>
      match py_threads w !! i with
      | Some (Locked section) =>
          match section e (py_impl w) with
          | (s', p') => Some (mkPyWorld s' (<[i := p']> (py_threads w)) (py_history w) (py_called w))
          end
      | _ => None
      end
  | py_reply i a =>
      match py_threads w !! i with
      | Some (Do o k) => Some (mkPyWorld (py_impl w) (<[i := k a]> (py_threads w)) ((o, a) :: py_history w) (py_called w))
      | _ => None
      end
  end.

Definition py_schedule (s0 : Impl) (acts : list py_action) : option py_world :=
  foldl (λ w a, w ≫= λ w, py_act w a) (Some (mkPyWorld s0 [] [] [])) acts.

Lemma py_act_step w a w' : py_act w a = Some w' → py_step w w'.
Proof.
  destruct a as [m|i e|i a]; simpl.
  - intros [= <-]. constructor.
  - destruct (py_threads w !! i) as [[| | |section]|] eqn:Hi; try done.
    destruct (section e (py_impl w)) as [s' p'] eqn:Hs. intros [= <-]. by econstructor.
  - destruct (py_threads w !! i) as [[| |o k|]|] eqn:Hi; try done. intros [= <-]. by apply py_step_do.
Qed.

Lemma py_schedule_reachable s0 acts w : py_schedule s0 acts = Some w → py_reachable s0 w.
Proof.
  unfold py_schedule. revert w. induction acts as [|a acts IH] using rev_ind; intros w; simpl.
  - intros [= <-]. apply rtc_refl.
  - rewrite foldl_app. simpl. intros (w1&H1%IH&H2%py_act_step)%bind_Some. by eapply rtc_r.
Qed.

(** The world after a schedule that runs to its end. *)
Lemma py_schedule_reaches s0 acts (P : py_world → bool) :
  from_option P false (py_schedule s0 acts) = true → ∃ w, py_reachable s0 w ∧ P w = true.
Proof.
  destruct (py_schedule s0 acts) as [w|] eqn:Hw; simpl; [|done]. intros HP. exists w.
  split; [by eapply py_schedule_reachable|done].
Qed.
End schedule.

(** An init frame as Python receives it. *)
Definition init_bytes : bytes :=
  encode_frame [header (str "Event") (str "culpeo.init"); header (str "Authorization") (str "Bearer abc")]
    (str "init").

Definition all_given : py_callables := mkCallables true true true true true.

Lemma py_session_authenticated_witness :
  ∃ w, state (py_impl w) = established ∧
    ∃ data f s, py_control data ∈ py_called w ∧ parse_headers (ST := lp64) default_limits control data = Ok f ∧
      decode (PyStr := utf8_strings) (bearer_token (chars (authorization f))) = Some s ∧ s = str "abc".
Proof.
  destruct (py_schedule_reaches (ST := lp64) (JL := demo_json) start
    [py_begin (py_control init_bytes); py_enter 0 demo_env; py_reply 0 (returned true);
     py_enter 0 demo_env]
    (λ w, bool_decide (state (py_impl w) = established) &&
      match py_history w with
      | [(on_auth_validate b, returned r)] => bool_decide (b = str "abc") && r
      | _ => false
      end)) as (w&Hr&HP); [by vm_compute|].
  apply andb_true_iff in HP as [He%bool_decide_eq_true HP].
  exists w. split; [exact He|].
  destruct (py_session_authenticated (PS := utf8_strings) (ST := lp64) (JL := demo_json)
    (λ s c, c = result_bool (Some (bool_decide (s = str "abc")))) all_given default_config start w)
    as (data&f&s&Hcalled&Hf&_&_&Hs&Hb).
  - reflexivity.
  - unfold config_ok. by_decide.
  - exact Hr.
  - destruct (py_history w) as [|[[] [r0|]] [|]]; try done. intros b r Hin.
    apply list_elem_of_singleton in Hin as [= -> ->].
    apply andb_true_iff in HP as [->%bool_decide_eq_true ->].
    exists (λ s, result_bool (Some (bool_decide (s = str "abc")))). by split.
  - exact He.
  - exists data, f, s. split; [exact Hcalled|]. split; [exact Hf|]. split; [exact Hs|].
    injection Hb as Hb. symmetry in Hb. by apply bool_decide_eq_true in Hb.
Defined.
