(* ===== verification/PyLocks.v ===== *)
(** * culpeostream-py: the locks of a Python session

    Threads of Python that share a session and its transport take three locks: the
    interpreter lock, the mutex of [WsTransport], held while the Python callable of
    the transport runs ([libculpeo-transport-ws/src/transport_ws.cpp]), and the
    mutex of the session, also taken by the properties that are read with the
    interpreter lock held.  When the threads can wait for each other, and when a
    thread waits for itself. *)

From S2P Require Import Prelude Bytes Message SessionTypes SessionCodec Session SessionSpec SessionSafety SessionDemo.
From S2P Require Import PyMessage PySession.

Inductive lock := gil | ws_mutex | session_mutex.

#[export] Instance lock_eq_dec : EqDecision lock.
Proof. solve_decision. Defined.

Section locks.
Context {ST : SizeT} {JL : JsonLib}.

Abbreviation py_result := (expected py_error unit).

(** Where a call of a session method is; the interpreter lock has been released. *)
Inductive method_state :=
| m_run (p : proc py_result)                            (* between critical sections *)
| m_section (p : proc py_result)                        (* at the end of one *)
| m_transport (o : op) (k : answer → proc py_result)    (* in [WsTransport], before the lambda *)
| m_in_transport (o : op) (k : answer → proc py_result) (* in the transport's callable *)
| m_raised (ws : bool) (p : proc py_result)             (* a callable raised, of the transport or not *)
| m_dropping (ws : bool) (p : proc py_result)           (* in the destructor of what it raised *)
| m_unlock (p : proc py_result)                         (* at the end of the call of [WsTransport] *)
| m_in_callback (o : op) (k : answer → proc py_result). (* in a callable of the session *)

(** A thread is a stack of calls: Python code, with the interpreter lock or waiting
    for it, a property of the session, before and in its critical section, and
    methods. *)
Inductive frame :=
| fr_python (holds_gil : bool)
| fr_property
| fr_property_locked
| fr_method (m : method_state).

Definition thread : Type := list frame.

(** The operations of the transport. *)
Definition to_transport (o : op) : bool :=
  match o with send_text _ | send_binary _ | transport_close _ _ => true | _ => false end.

(** The lock the running call needs next. *)
Definition wants (th : thread) : option lock :=
  match th with
  | fr_python false :: _ => Some gil
  | fr_property :: _ => Some session_mutex
  | fr_method (m_run (Locked _)) :: _ => Some session_mutex
  | fr_method (m_run (Do o _)) :: _ => Some (if to_transport o then ws_mutex else gil)
  | fr_method (m_transport _ _ | m_raised _ _) :: _ => Some gil
  | _ => None
  end.

Definition frame_holds (l : lock) (f : frame) : bool :=
  match l, f with
  | gil, (fr_python true | fr_property | fr_property_locked) => true
  | session_mutex, (fr_property_locked | fr_method (m_section _)) => true
  | ws_mutex, fr_method (m_transport _ _ | m_in_transport _ _ | m_raised true _ | m_dropping true _ | m_unlock _) => true
  | _, _ => false
  end.

Definition holds (l : lock) (th : thread) : bool := existsb (frame_holds l) th.

(** The thread runs a callable of the transport. *)
Definition in_transport (th : thread) : bool := holds ws_mutex th.

(** A frame that does not parse raises before the interpreter lock is released. *)
Definition raises_first (m : py_method) : bool := match py_proc m with Ret _ => true | _ => false end.

(** What a thread does next: [calls_from th] says whether its Python code may call a
    method. *)
Inductive thread_step (calls_from : thread → Prop) : Impl → thread → option lock → Impl → thread → Prop :=
| t_switch s th : thread_step calls_from s (fr_python true :: th) None s (fr_python false :: th)
| t_gil s th : thread_step calls_from s (fr_python false :: th) (Some gil) s (fr_python true :: th)
| t_call s m th :
    calls_from th → raises_first m = false →
    thread_step calls_from s (fr_python true :: th) None s (fr_method (m_run (py_proc m)) :: fr_python false :: th)
| t_property s th : thread_step calls_from s (fr_python true :: th) None s (fr_property :: th)
| t_property_lock s th :
    thread_step calls_from s (fr_property :: th) (Some session_mutex) s (fr_property_locked :: th)
| t_property_done s th : thread_step calls_from s (fr_property_locked :: th) None s (fr_python true :: th)
| t_lock s e section s' p th :
    section e s = (s', p) →
    thread_step calls_from s (fr_method (m_run (Locked section)) :: th) (Some session_mutex)
      s' (fr_method (m_section p) :: th)
| t_unlock s p th :
    thread_step calls_from s (fr_method (m_section p) :: th) None s (fr_method (m_run p) :: th)
| t_ws_lock s o k th :
    to_transport o = true →
    thread_step calls_from s (fr_method (m_run (Do o k)) :: th) (Some ws_mutex) s (fr_method (m_transport o k) :: th)
| t_ws_call s o k th :
    thread_step calls_from s (fr_method (m_transport o k) :: th) (Some gil)
      s (fr_python true :: fr_method (m_in_transport o k) :: th)
| t_ws_return s o k b th :
    thread_step calls_from s (fr_python true :: fr_method (m_in_transport o k) :: th) None
      s (fr_method (m_unlock (k (returned b))) :: th)
| t_ws_raise s o k b th :
    thread_step calls_from s (fr_python true :: fr_method (m_in_transport o k) :: th) None
      s (fr_method (m_raised true (k (returned b))) :: th)
| t_drop s ws p th :
    thread_step calls_from s (fr_method (m_raised ws p) :: th) (Some gil)
      s (fr_python true :: fr_method (m_dropping ws p) :: th)
| t_dropped s ws p th :
    thread_step calls_from s (fr_python true :: fr_method (m_dropping ws p) :: th) None
      s (fr_method (if ws then m_unlock p else m_run p) :: th)
| t_ws_unlock s p th :
    thread_step calls_from s (fr_method (m_unlock p) :: th) None s (fr_method (m_run p) :: th)
| t_callback s o k th :
    to_transport o = false →
    thread_step calls_from s (fr_method (m_run (Do o k)) :: th) (Some gil)
      s (fr_python true :: fr_method (m_in_callback o k) :: th)
| t_callback_return s o k b th :
    thread_step calls_from s (fr_python true :: fr_method (m_in_callback o k) :: th) None
      s (fr_method (m_run (k (returned b))) :: th)
| t_callback_raise s o k th :
    thread_step calls_from s (fr_python true :: fr_method (m_in_callback o k) :: th) None
      s (fr_method (m_raised false (k (returned false))) :: th)
| t_return s r th : thread_step calls_from s (fr_method (m_run (Ret r)) :: th) None s th
| t_end s : thread_step calls_from s [fr_python true] None s [].

(** The session and the threads that use it. *)
Definition lock_world : Type := Impl * list thread.

Definition free (l : lock) (ths : list thread) : Prop := Forall (λ th, holds l th = false) ths.

Inductive lock_step (calls_from : thread → Prop) : lock_world → lock_world → Prop :=
| lock_step_thread s s' ths i th l th' :
    ths !! i = Some th → thread_step calls_from s th l s' th' → from_option (λ l, free l ths) True l →
    lock_step calls_from (s, ths) (s', <[i := th']> ths)
| lock_step_new s ths : lock_step calls_from (s, ths) (s, ths ++ [[fr_python false]]).

(** Python code calls methods anywhere, or never in a callable of the transport. *)
Definition anywhere (th : thread) : Prop := True.
Definition outside_transport (th : thread) : Prop := in_transport th = false.

(** ** The order of the locks *)
Definition rank (l : lock) : nat := match l with session_mutex => 0 | gil => 1 | ws_mutex => 2 end.

(** No method was called in a callable of the transport. *)
Fixpoint calm (th : thread) : Prop :=
  match th with
  | [] => True
  | fr_method _ :: th => in_transport th = false ∧ calm th
  | _ :: th => calm th
  end.

(** A method that called Python code. *)
Definition entered (m : method_state) : bool :=
  match m with m_in_transport _ _ | m_in_callback _ _ | m_dropping _ _ => true | _ => false end.

(** What is under Python code, and a stack of calls. *)
Fixpoint outer (th : thread) : Prop :=
  match th with
  | [] => True
  | fr_method m :: fr_python false :: th => entered m = true ∧ outer th
  | _ => False
  end.

Definition shaped (th : thread) : Prop :=
  match th with
  | [] => True
  | fr_method m :: fr_python false :: th => entered m = false ∧ outer th
  | fr_method _ :: _ => False
  | _ :: th => outer th
  end.

(** Only the running call holds the interpreter lock or the session's mutex. *)
Definition thread_ok (th : thread) : Prop :=
  holds gil (tail th) = false ∧ holds session_mutex (tail th) = false ∧ calm th ∧ shaped th.

(** A method that called [std::terminate]. *)
Definition crashed (th : thread) : bool :=
  match th with fr_method (m_run Crash) :: _ => true | _ => false end.

Lemma thread_ok_rank th l l' : thread_ok th → wants th = Some l → holds l' th = true → rank l < rank l'.
Proof.
  intros (Hg&Hs&Hc&_) Hw Hh. destruct th as [|f th]; [done|]. unfold holds in *. cbn [tail existsb] in *.
  destruct f as [[]| | |[[r| |o k|sec]|p|o k|o k|[] p|[] p|p|o k]]; try done; cbn [wants] in Hw; injection Hw as <-;
    destruct l'; cbn [frame_holds orb] in Hh; try congruence; cbn [rank]; try lia;
    try (destruct Hc as [Hc _]; unfold in_transport, holds in Hc; cbn in Hh; congruence);
    try (destruct (to_transport o); cbn; lia).
Qed.

Lemma thread_ok_lock_runs th l : thread_ok th → holds l th = true → crashed th = false ∧ th ≠ [].
Proof.
  intros (Hg&Hs&Hc&_) Hh. destruct th as [|f th]; [done|]. split; [|done].
  destruct f as [[]| | |[[r| |o k|sec]|p|o k|o k|[] p|[] p|p|o k]]; try done. exfalso.
  destruct Hc as [Hc _]. unfold in_transport, holds in *. cbn [tail existsb frame_holds orb] in *.
  destruct l; cbn in Hh; congruence.
Qed.

Lemma thread_step_ok s th l s' th' :
  thread_step outside_transport s th l s' th' → thread_ok th → thread_ok th'.
Proof.
  unfold thread_ok, in_transport, holds. destruct 1; repeat match goal with b : bool |- _ => destruct b end; cbn [tail calm existsb frame_holds orb shaped outer entered]; try tauto.
  all: destruct th as [|[[]| | |] th]; cbn [outer existsb tail frame_holds orb]; tauto.
Qed.

(** A thread that is not done has a step, once it has the lock it wants. *)
Lemma thread_ok_steps s th :
  shaped th → th ≠ [] → crashed th = false →
  ∃ s' th', thread_step outside_transport s th (wants th) s' th'.
Proof.
  intros Hs Hne Hc. destruct th as [|f th]; [done|].
  destruct f as [[]| | |[[r| |o k|sec]|p|o k|o k|[] p|[] p|p|o k]]; cbn [wants]; try done;
    try (by do 2 eexists; econstructor); try (by destruct th as [|[[]| | |] th]; cbn in Hs; destruct Hs).
  - destruct (to_transport o) eqn:Ho; do 2 eexists; by econstructor.
  - destruct (sec demo_env s) as [s' p] eqn:Hsec. do 2 eexists. by econstructor.
Qed.

(** The lock of a step is the one the thread wants. *)
Lemma thread_step_wants calls_from s th l s' th' : thread_step calls_from s th l s' th' → l = wants th.
Proof. by destruct 1 as [| | | | | | | |s o k th Ho| | | | | | |s o k th Ho| | | |]; cbn [wants]; rewrite ?Ho. Qed.

(** A step takes the lock it asks for, and no other. *)
Lemma thread_step_holds calls_from s th l s' th' l' :
  thread_step calls_from s th l s' th' → holds l' th' = true → holds l' th = true ∨ l = Some l'.
Proof.
  unfold holds. destruct 1; repeat match goal with b : bool |- _ => destruct b end; cbn [existsb]; destruct l'; cbn [frame_holds orb]; auto.
Qed.

(** ** Worlds *)
Definition exclusive (ths : list thread) : Prop :=
  ∀ l i j th th', ths !! i = Some th → ths !! j = Some th' → holds l th = true → holds l th' = true → i = j.

Lemma lock_step_exclusive calls_from w w' : lock_step calls_from w w' → exclusive w.2 → exclusive w'.2.
Proof.
  destruct 1 as [s s' ths i th l th' Hi Hs Hl|s ths]; cbn [snd]; intros Hex l' a b ta tb Ha Hb Hha Hhb.
  - assert (∀ j t, j ≠ i → ths !! j = Some t → holds l' t = true → holds l' th' = true → False) as Hother.
    { intros j t Hj Ht Hht Hh. destruct (thread_step_holds _ _ _ _ _ _ _ Hs Hh) as [Hold| ->].
      - apply Hj. by eapply Hex.
      - cbn in Hl. unfold free in Hl. rewrite Forall_lookup in Hl. specialize (Hl _ _ Ht). congruence. }
    apply list_lookup_insert_Some in Ha, Hb.
    destruct Ha as [(<-&<-&_)|[Hna Ha]], Hb as [(<-&<-&_)|[Hnb Hb]]; [done|exfalso..|by eapply Hex].
    + by eapply (Hother b tb).
    + by eapply (Hother a ta).
  - assert (∀ j t, (ths ++ [[fr_python false]]) !! j = Some t → holds l' t = true → ths !! j = Some t) as Hold.
    { intros j t Hj Ht. apply lookup_app_Some in Hj as [Hj|[_ [_ <-]%list_lookup_singleton_Some]]; [done|].
      by destruct l'. }
    by eapply Hex; [apply Hold|apply Hold|..].
Qed.

Lemma lock_step_ok w w' :
  lock_step outside_transport w w' → Forall thread_ok w.2 → Forall thread_ok w'.2.
Proof.
  destruct 1 as [s s' ths i th l th' Hi Hs _|s ths]; cbn [snd]; intros Hok.
  - apply Forall_insert; [done|]. eapply thread_step_ok; [exact Hs|]. by eapply Forall_lookup_1.
  - apply Forall_app_2; [done|]. by repeat constructor.
Qed.

(** Thread [i] waits for a lock that thread [j] holds. *)
Definition waits_for (ths : list thread) (i j : nat) : Prop :=
  ∃ thi thj l, ths !! i = Some thi ∧ ths !! j = Some thj ∧ wants thi = Some l ∧ holds l thj = true.

(** A thread that waits for a lock somebody holds. *)
Definition blocked (ths : list thread) (i : nat) : Prop := ∃ j, waits_for ths i j.

#[export] Instance blocked_dec ths i : Decision (blocked ths i).
Proof.
  destruct (ths !! i) as [th|] eqn:Hi; [|right; intros (j&?&?&?&?&_); congruence].
  destruct (wants th) as [l|] eqn:Hw; [|right; intros (j&?&?&?&?&_&?&_); congruence].
  destruct (decide (Exists (λ th', holds l th' = true) ths)) as [Hex|Hno].
  - left. apply Exists_exists in Hex as (tj&[j Hj]%list_elem_of_lookup_1&Hh). by exists j, th, tj, l.
  - right. intros (j&ti&tj&l'&Hi'&Hj&Hw'&Hh). simplify_eq. apply Hno, Exists_exists.
    exists tj. split; [by eapply list_elem_of_lookup_2|done].
Defined.

(** The rank of the lock a thread wants. *)
Definition wait_rank (ths : list thread) (i : nat) : nat :=
  from_option rank 3 (from_option wants None (ths !! i)).

Lemma waits_for_rank ths i j :
  Forall thread_ok ths → waits_for ths i j → blocked ths j → wait_rank ths j < wait_rank ths i.
Proof.
  intros Hok (ti&tj&l&Hi&Hj&Hw&Hh) (k&tj'&tk&l'&Hj'&_&Hw'&_). simplify_eq. unfold wait_rank.
  rewrite Hi, Hj. cbn. rewrite Hw, Hw'. cbn. eapply thread_ok_rank; [|done..]. by eapply Forall_lookup_1.
Qed.

(** Thread [i] takes its next step. *)
Definition moves (s : Impl) (ths : list thread) (i : nat) : Prop :=
  ∃ s' th l th', ths !! i = Some th ∧ thread_step outside_transport s th l s' th' ∧ from_option (λ l, free l ths) True l.

Lemma unblocked_moves s ths i th :
  ths !! i = Some th → thread_ok th → th ≠ [] → crashed th = false → ¬ blocked ths i → moves s ths i.
Proof.
  intros Hi Hok Hne Hc Hnb. destruct (thread_ok_steps s th) as (s'&th'&Hs); [apply Hok|done..|].
  exists s', th, (wants th), th'. split_and!; [done..|]. destruct (wants th) as [l|] eqn:Hw; [|done]. cbn.
  apply Forall_lookup_2. intros j tj Hj. apply not_true_is_false. intros Hh. apply Hnb. by exists j, th, tj, l.
Qed.

Lemma tc_blocked ths i j : tc (waits_for ths) i j → blocked ths i.
Proof. destruct 1; eexists; eassumption. Qed.

Lemma wait_chain_rank ths i j :
  Forall thread_ok ths → tc (waits_for ths) i j → blocked ths j → wait_rank ths j < wait_rank ths i.
Proof.
  intros Hok Hc. induction Hc as [i j Hw|i j k Hw Hc IH]; intros Hb; [by apply waits_for_rank|].
  apply IH in Hb. assert (blocked ths j) as Hbj by (by eapply tc_blocked).
  pose proof (waits_for_rank _ _ _ Hok Hw Hbj). lia.
Qed.

Lemma wait_chain_ends ths i : Forall thread_ok ths → ∃ j, rtc (waits_for ths) i j ∧ ¬ blocked ths j.
Proof.
  intros Hok. remember (wait_rank ths i) as n eqn:Hn. revert i Hn.
  induction n as [n IH] using lt_wf_ind. intros i ->.
  destruct (decide (blocked ths i)) as [[j Hw]|Hnb]; [|by exists i].
  destruct (decide (blocked ths j)) as [Hb|Hnb]; [|exists j; by split; [apply rtc_once|]].
  destruct (IH (wait_rank ths j)) with (i := j) as (k&Hk&Hnb); [by apply waits_for_rank|done|].
  exists k. by split; [eapply rtc_l|].
Qed.

Lemma waited_for_runs ths i j :
  Forall thread_ok ths → waits_for ths i j → ∃ th, ths !! j = Some th ∧ thread_ok th ∧ th ≠ [] ∧ crashed th = false.
Proof.
  intros Hok (ti&tj&l&Hi&Hj&Hw&Hh). exists tj. assert (thread_ok tj) as Htj by (by eapply Forall_lookup_1).
  by destruct (thread_ok_lock_runs _ _ Htj Hh).
Qed.

(** C22. Threads of Python that share a session do not deadlock, as long as the
    callables of the transport do not call the session: in every interleaving no lock
    is held twice, threads never wait for each other in a circle, and whenever a
    thread is not done, it, or a thread it waits for through others, can take its
    next step. *)
Theorem py_threads_progress s0 w :
  rtc (lock_step outside_transport) (s0, []) w →
  exclusive w.2 ∧ (∀ i, ¬ tc (waits_for w.2) i i) ∧
  ∀ i th, w.2 !! i = Some th → th ≠ [] → crashed th = false →
    ∃ j, rtc (waits_for w.2) i j ∧ moves w.1 w.2 j.
Proof.
  intros Hr. assert (exclusive w.2 ∧ Forall thread_ok w.2) as [Hex Hok].
  { revert w Hr. apply rtc_ind_r; [by split; [intros ? [] | constructor]|]. intros w1 w2 _ Hs [He Ho].
    split; [by eapply lock_step_exclusive|by eapply lock_step_ok]. }
  split_and!; [done| |].
  - intros i Hc. pose proof (wait_chain_rank _ _ _ Hok Hc (tc_blocked _ _ _ Hc)). lia.
  - intros i th Hi Hne Hc. destruct (wait_chain_ends w.2 i Hok) as (j&Hij&Hnb). exists j. split; [done|].
    destruct (rtc_inv_r _ _ Hij) as [<-|(k&_&Hk)].
    + eapply unblocked_moves; [done|by eapply Forall_lookup_1|done..].
    + destruct (waited_for_runs _ _ _ Hok Hk) as (tj&?&?&?&?).
      by eapply unblocked_moves.
Qed.
(** ** A transport that calls the session *)
Lemma stuck_thread s ths i j th thj w :
  ths !! i = Some th → holds ws_mutex th = true → ths !! j = Some thj → wants thj = Some ws_mutex →
  lock_step anywhere (s, ths) w → w.2 !! j = Some thj.
Proof.
  intros Hi Hh Hj Hw Hs. inversion Hs as [s1 s' ths1 k tk l tk' Hk Ht Hl|s1 ths1]; subst; cbn [snd].
  - destruct (decide (k = j)) as [->|Hne]; [|by rewrite list_lookup_insert_ne].
    apply thread_step_wants in Ht as ->. simplify_eq. rewrite Hw in Hl. cbn in Hl. unfold free in Hl.
    rewrite Forall_lookup in Hl. specialize (Hl _ _ Hi). congruence.
  - by apply lookup_app_l_Some.
Qed.

(** A thread about to send or close through the transport. *)
Definition about_to_send (th : thread) : Prop :=
  ∃ o k under, th = fr_method (m_run (Do o k)) :: under ∧ to_transport o = true.

Lemma about_to_send_wants th : about_to_send th → wants th = Some ws_mutex.
Proof. intros (o&k&under&->&Ho). cbn. by rewrite Ho. Qed.


(** ** Schedules *)
Inductive act := a_new | a_go (i : nat) | a_call (i : nat) (m : py_method) | a_return (i : nat) (b : bool).

(** The step of a thread that is not in Python code. *)
Definition go (e : Env) (s : Impl) (th : thread) : option (Impl * thread) :=
  match th with
  | fr_python false :: th => Some (s, fr_python true :: th)
  | fr_property :: th => Some (s, fr_property_locked :: th)
  | fr_property_locked :: th => Some (s, fr_python true :: th)
  | fr_method (m_run (Locked section)) :: th =>
      let '(s', p) := section e s in Some (s', fr_method (m_section p) :: th)
  | fr_method (m_section p | m_unlock p) :: th => Some (s, fr_method (m_run p) :: th)
  | fr_method (m_run (Do o k)) :: th =>
      if to_transport o then Some (s, fr_method (m_transport o k) :: th)
      else Some (s, fr_python true :: fr_method (m_in_callback o k) :: th)
  | fr_method (m_transport o k) :: th => Some (s, fr_python true :: fr_method (m_in_transport o k) :: th)
  | fr_method (m_run (Ret _)) :: th => Some (s, th)
  | _ => None
  end.

Definition call (calls : thread → bool) (m : py_method) (th : thread) : option thread :=
  match th with
  | fr_python true :: th =>
      if calls th && negb (raises_first m)
      then Some (fr_method (m_run (py_proc m)) :: fr_python false :: th) else None
  | _ => None
  end.

Definition return_from (b : bool) (th : thread) : option thread :=
  match th with
  | [fr_python true] => Some []
  | fr_python true :: fr_method (m_in_transport o k) :: th => Some (fr_method (m_unlock (k (returned b))) :: th)
  | fr_python true :: fr_method (m_in_callback o k) :: th => Some (fr_method (m_run (k (returned b))) :: th)
  | _ => None
  end.

Definition free_for (th : thread) (ths : list thread) : bool :=
  match wants th with Some l => forallb (λ th', negb (holds l th')) ths | None => true end.

Definition act_step (e : Env) (calls : thread → bool) (w : lock_world) (a : act) : option lock_world :=
  match a with
  | a_new => Some (w.1, w.2 ++ [[fr_python false]])
  | a_go i =>
      th ← w.2 !! i; '(s', th') ← go e w.1 th;
      if free_for th w.2 then Some (s', <[i := th']> w.2) else None
  | a_call i m => th ← w.2 !! i; th' ← call calls m th; Some (w.1, <[i := th']> w.2)
  | a_return i b => th ← w.2 !! i; th' ← return_from b th; Some (w.1, <[i := th']> w.2)
  end.

Fixpoint act_run (e : Env) (calls : thread → bool) (w : lock_world) (acts : list act) : option lock_world :=
  match acts with
  | [] => Some w
  | a :: acts => w' ← act_step e calls w a; act_run e calls w' acts
  end.

Lemma go_step calls_from e s th s' th' :
  go e s th = Some (s', th') → ∃ l, thread_step calls_from s th l s' th'.
Proof.
  destruct th as [|[[]| | |[[r| |o k|sec]|p|o k|o k|[] p|[] p|p|o k]] th]; cbn [go]; try done;
    try (intros [= <- <-]; eexists; by constructor).
  - destruct (to_transport o) eqn:Ho; intros [= <- <-]; eexists; by constructor.
  - destruct (sec e s) as [s1 p] eqn:Hs. intros [= <- <-]. eexists. by econstructor.
Qed.

Lemma call_step (calls_from : thread → Prop) calls m s th th' :
  (∀ th, calls th = true → calls_from th) → call calls m th = Some th' →
  ∃ l, thread_step calls_from s th l s th'.
Proof.
  intros Hc. destruct th as [|[[]| | |] th]; cbn [call]; try done.
  destruct (calls th) eqn:Ht, (raises_first m) eqn:Hm; cbn; try done. intros [= <-]. eexists. constructor; auto.
Qed.

Lemma return_from_step calls_from b s th th' :
  return_from b th = Some th' → ∃ l, thread_step calls_from s th l s th'.
Proof.
  destruct th as [|[[]| | |] [|[| | |[| | | | | | |]] th]]; cbn [return_from]; try done;
    intros [= <-]; eexists; by constructor.
Qed.

Lemma free_for_free th ths : free_for th ths = true → from_option (λ l, free l ths) True (wants th).
Proof.
  unfold free_for, free. destruct (wants th); [|done]. cbn. rewrite forallb_forall, Forall_forall.
  intros Hf th' Hin. apply negb_true_iff, Hf. by apply list_elem_of_In.
Qed.

Lemma act_step_sound e calls (calls_from : thread → Prop) w a w' :
  (∀ th, calls th = true → calls_from th) → act_step e calls w a = Some w' → lock_step calls_from w w'.
Proof.
  intros Hc. destruct w as [s ths], a as [|i|i m|i b]; cbn [act_step fst snd].
  - intros [= <-]. constructor.
  - intros (th&Hi&([s' th']&Hg&Ha)%bind_Some)%bind_Some. destruct (free_for th ths) eqn:Hf; [|done].
    injection Ha as <-. apply (go_step calls_from) in Hg as [l Hs]. econstructor; [done..|].
    rewrite (thread_step_wants _ _ _ _ _ _ Hs). by apply free_for_free.
  - intros (th&Hi&(th'&Hg&[= <-])%bind_Some)%bind_Some.
    destruct (call_step calls_from calls m s th th' Hc Hg) as [l Hs]. econstructor; [done..|].
    rewrite (thread_step_wants _ _ _ _ _ _ Hs). destruct th as [|[[]| | |] th]; done.
  - intros (th&Hi&(th'&Hg&[= <-])%bind_Some)%bind_Some.
    destruct (return_from_step calls_from b s th th' Hg) as [l Hs]. econstructor; [done..|].
    rewrite (thread_step_wants _ _ _ _ _ _ Hs). destruct th as [|[[]| | |] th]; done.
Qed.

Lemma act_run_sound e calls (calls_from : thread → Prop) acts w w' :
  (∀ th, calls th = true → calls_from th) → act_run e calls w acts = Some w' → rtc (lock_step calls_from) w w'.
Proof.
  intros Hc. revert w. induction acts as [|a acts IH]; intros w; cbn [act_run]; [by intros [= <-]|].
  intros (w1&H1&H2)%bind_Some. eapply rtc_l; [by eapply act_step_sound|by apply IH].
Qed.
End locks.

(** ** Threads that ping *)
Definition ping_acts (i : nat) : list act := [a_new; a_go i; a_call i py_ping; a_go i; a_go i].

Definition lock_run (calls : thread → bool) (acts : list act) : option lock_world :=
  act_run (ST := lp64) (JL := demo_json) demo_env calls (established_session, []) acts.

Definition not_in_transport (th : thread) : bool := negb (in_transport th).

(** What the threads want, and which are in the transport. *)
Definition lock_view (w : lock_world) : list (option lock * bool) := map (λ th, (wants th, in_transport th)) w.2.

(** The first thread is in the transport, the second waits for it. *)
Definition two_pings : list act := ping_acts 0 ++ [a_go 0] ++ ping_acts 1.

(** A thread in the callable of the transport. *)
Definition in_callable : list act := ping_acts 0 ++ [a_go 0; a_go 0].

(** It runs Python code there, and a ping would send. *)
Definition reenters (w : lock_world) : bool :=
  match w.2 with
  | [fr_python true :: fr_method (m_in_transport _ _) :: under] =>
      negb (holds session_mutex under) &&
      match py_proc (ST := lp64) (JL := demo_json) py_ping with
      | Locked section =>
          match section demo_env w.1 with (_, Do o _) => to_transport o | _ => false end
      | _ => false
      end
  | _ => false
  end.

Lemma two_pings_view :
  option_map lock_view (lock_run not_in_transport two_pings) = Some [(Some gil, true); (Some ws_mutex, false)].
Proof. vm_compute. reflexivity. Qed.

Lemma in_callable_reenters : from_option reenters false (lock_run (λ _, true) in_callable) = true.
Proof. vm_compute. reflexivity. Qed.

Lemma lock_view_lookup w i wl b :
  lock_view w !! i = Some (wl, b) → ∃ th, w.2 !! i = Some th ∧ wants th = wl ∧ in_transport th = b.
Proof.
  unfold lock_view. rewrite list_lookup_fmap. destruct (w.2 !! i) as [th|]; [|done]. intros [= <- <-]. by exists th.
Qed.

Lemma py_threads_progress_witness :
  ∃ w, rtc (lock_step (ST := lp64) (JL := demo_json) outside_transport) (established_session, []) w ∧
    waits_for w.2 1 0 ∧ ∃ j, rtc (waits_for w.2) 1 j ∧ moves (ST := lp64) (JL := demo_json) w.1 w.2 j.
Proof.
  pose proof two_pings_view as Hv. destruct (lock_run not_in_transport two_pings) as [w|] eqn:Hw; [|discriminate].
  injection Hv as Hv. apply (act_run_sound demo_env _ outside_transport) in Hw;
    [|intros th Hth; by apply negb_true_iff in Hth].
  destruct (lock_view_lookup w 0 (Some gil) true) as (t0&H0&W0&T0); [by rewrite Hv|].
  destruct (lock_view_lookup w 1 (Some ws_mutex) false) as (t1&H1&W1&T1); [by rewrite Hv|].
  exists w. split; [exact Hw|]. split; [by exists t1, t0, ws_mutex|].
  refine (proj2 (proj2 (py_threads_progress (ST := lp64) (JL := demo_json) _ w Hw)) 1 t1 H1 _ _); [by intros ->|].
  destruct t1 as [|[| | |[[]| | | | | | |]]]; done.
Defined.

