(* ===== verification/PyModule.v ===== *)
(** * culpeostream-py: the module

    What [PYBIND11_MODULE] of [culpeostream-py/src/bindings.cpp] makes of the C++
    classes: the names of the enumerations, the attributes Python can set, the
    default arguments, and the inspection methods of [PySession].  Consequences of
    what it leaves out: no session made in Python is resumed or refreshes its
    credentials. *)

From S2P Require Import Prelude Bytes Message ParseFacts SessionTypes OffsetTracker AuthRefresh.
From S2P Require Import StreamRegistry SessionCodec Session SessionSpec SessionRefines SessionSafety SessionCalls.
From S2P Require Import Serialize SessionDemo PyMessage PySession.

(** ** Enumerations *)
Definition FrameType_values : list (bytes * FrameType) :=
  [(str "control", control); (str "media", media)].

Definition OffsetType_values : list (bytes * OffsetType) :=
  [(str "time", offset_time); (str "byte", offset_byte); (str "message", offset_message)].

Definition SessionState_values : list (bytes * SessionState) :=
  [(str "uninitialized", uninitialized); (str "initializing", initializing);
   (str "established", established); (str "closed", closed)].

(** No name stands for two values, and no value has two names. *)
Definition names_values {A} (values : list (bytes * A)) : Prop := NoDup values.*1 ∧ NoDup values.*2.

(** Every state and every offset type can be named in Python; of the frame types,
    which C++ code can make from any number, the two of the protocol. *)
Lemma enumerations_named :
  names_values FrameType_values ∧ names_values OffsetType_values ∧ names_values SessionState_values ∧
  (∀ a, a ∈ OffsetType_values.*2) ∧ (∀ a, a ∈ SessionState_values.*2).
Proof.
  unfold names_values. split_and!; first [by_decide|intros a; destruct a; by_decide].
Qed.

(** ** Attributes

    An assignment of an integer that the attribute's type cannot hold raises
    [TypeError]. *)
Inductive config_attribute :=
| set_max_buffer_window_ms (n : Z)
| set_default_buffer_window_ms (n : Z)
| set_max_streams (n : Z)
| set_max_ping_rate_per_second (n : Z)
| set_auth_refresh_timeout_s (n : Z)
| set_supported_versions (versions : list bytes).

Definition cast_uint32 (n : Z) : option Z := if decide (0 ≤ n ≤ uint32_max)%Z then Some n else None.

Definition set_config (a : config_attribute) (c : SessionConfig) : option SessionConfig :=
  let '(mkConfig mbw dbw ms pr rt mi sv) := c in
  match a with
  | set_max_buffer_window_ms n => n ← cast_uint32 n; Some (mkConfig n dbw ms pr rt mi sv)
  | set_default_buffer_window_ms n => n ← cast_uint32 n; Some (mkConfig mbw n ms pr rt mi sv)
  | set_max_streams n => n ← cast_uint32 n; Some (mkConfig mbw dbw n pr rt mi sv)
  | set_max_ping_rate_per_second n => n ← cast_uint32 n; Some (mkConfig mbw dbw ms n rt mi sv)
  | set_auth_refresh_timeout_s n => n ← cast_uint32 n; Some (mkConfig mbw dbw ms pr n mi sv)
  | set_supported_versions vs => Some (mkConfig mbw dbw ms pr rt mi vs)
  end.

(** [SessionConfig()] and assignments; one that raises changes nothing. *)
Definition py_config (l : list config_attribute) : SessionConfig :=
  foldl (λ c a, default c (set_config a c)) default_config l.

Lemma cast_uint32_Some n m : cast_uint32 n = Some m → m = n ∧ (0 ≤ n ≤ uint32_max)%Z.
Proof. unfold cast_uint32. case_decide; [by intros [= <-]|done]. Qed.

(** What no assignment in Python can break. *)
Lemma py_config_ok l : config_ok (py_config l) ∧ min_auth_refresh_interval_s (py_config l) = 30%Z.
Proof.
  unfold py_config.
  assert (config_ok default_config ∧ min_auth_refresh_interval_s default_config = 30%Z) as Hd.
  { split; [unfold config_ok; by_decide|done]. }
  revert Hd. generalize default_config. induction l as [|a l IH]; intros c Hc; [done|]. cbn [foldl]. apply IH.
  destruct (set_config a c) as [c'|] eqn:Hs; [|done]. destruct c as [mbw dbw ms pr rt mi sv], Hc as [[Hm Hd] Hi].
  destruct a; cbn in Hs; try (apply bind_Some in Hs as (m&[-> ?]%cast_uint32_Some&[= <-])); simplify_eq/=;
    unfold config_ok; by split.
Qed.

Section module.
Context {PS : PyStr} {ST : SizeT} {JL : JsonLib}.

Inductive limits_attribute :=
| set_max_header_block_bytes (n : Z)
| set_max_header_value_bytes (n : Z)
| set_max_header_count (n : Z).

Definition cast_size (n : Z) : option Z := if decide (0 ≤ n < 2 ^ size_bits)%Z then Some n else None.

Definition set_limits (a : limits_attribute) (l : ParseLimits) : option ParseLimits :=
  let '(Build_ParseLimits mb mv mc) := l in
  match a with
  | set_max_header_block_bytes n => n ← cast_size n; Some (Build_ParseLimits n mv mc)
  | set_max_header_value_bytes n => n ← cast_size n; Some (Build_ParseLimits mb n mc)
  | set_max_header_count n => n ← cast_size n; Some (Build_ParseLimits mb mv n)
  end.

(** ** Default arguments *)
Definition CulpeoMessage (data : bytes) (frame_type : option FrameType) (limits : option ParseLimits)
    : expected bytes PyCulpeoMessage :=
  make_message data (default control frame_type) (default default_limits limits).

(** [Session(...)]: the callables that are given and not [None], and the
    configuration. *)
Definition PySession_init (c : py_callables) (config : option (list config_attribute)) : expected py_error Impl :=
  make_py_session c (from_option py_config default_config config).

Definition send_media_default (stream_id payload : bytes) (timestamp_us : option Z) : proc (expected py_error unit) :=
  py_send_media stream_id payload (default 0%Z timestamp_us).

Definition close_default (code reason : option bytes) : proc (expected py_error unit) :=
  py_close (default (str "normal") code) (default (str "Closing") reason).

(** [PySession::state] and [session_id], [None] when decoding raises. *)
Definition py_state (s : Impl) : SessionState := get_state s.
Definition py_session_id (s : Impl) : option (option pystr) :=
  match get_session_id s with
  | None => Some None
  | Some id => Some <$> decode id
  end.

(** ** Sessions without refreshes *)

(** A session that was not resumed, cannot be, and has no challenge open. *)
Definition unrefreshed (s : Impl) : Prop :=
  prior_state s = None ∧ is_resumed_session s = false ∧ pending (auth_mgr s) = false.

Definition not_auth_response (o : op) : Prop :=
  match o with on_auth_response _ => False | _ => True end.

Abbreviation plain := (stays unrefreshed not_auth_response).

(** A section's outcome from [s]. *)
Definition plain_from (r : Impl * proc result) : Prop := unrefreshed r.1 ∧ plain r.2.

Lemma plain_send_text hs b (k : proc result) : plain k → plain (send_text_frame_noexcept hs b k).
Proof.
  intros Hk. unfold send_text_frame_noexcept. destruct (serialize_frame control hs b) as [[fr|e]|]; [|done..].
  case_decide; [done|]. by split.
Qed.

Lemma plain_close_transport c r (k : proc result) : plain k → plain (close_transport c r k).
Proof. by split. Qed.

Lemma plain_notify b o (k : proc result) : not_auth_response o → plain k → plain (notify b o k).
Proof. intros Ho Hk. destruct b; [|done]. split; [done|]. by intros []. Qed.

Lemma plain_closed e :
  plain (Locked (λ _ s, (transition_to_closed_locked s, Ret (Err e : result)))).
Proof. intros _ s (?&?&?). by split. Qed.

Lemma plain_fail_init c r b e : plain (fail_init c r b e).
Proof. apply plain_send_text, plain_close_transport, plain_closed. Qed.

Lemma plain_fail_established c r e : plain (fail_established c r e).
Proof. by apply plain_send_text, plain_close_transport. Qed.

Lemma plain_fail_then_close c r e : plain (fail_then_close c r e).
Proof. apply plain_send_text, plain_close_transport, plain_closed. Qed.

Lemma plain_from_intro s p : unrefreshed s → plain p → plain_from (s, p).
Proof. done. Qed.

#[local] Hint Resolve plain_send_text plain_close_transport plain_fail_init plain_fail_established
  plain_fail_then_close plain_from_intro : session.
#[local] Hint Extern 1 (plain (Ret _)) => exact I : session.
#[local] Hint Extern 1 (plain Crash) => exact I : session.
#[local] Hint Extern 1 (unrefreshed _) => done : session.

Lemma plain_locked (section : Env → Impl → Impl * proc result) :
  (∀ e s, unrefreshed s → plain_from (section e s)) → plain (Locked section).
Proof. intros H e s Hs. specialize (H e s Hs). by destruct (section e s). Qed.

Lemma plain_finalize sid v bw s : unrefreshed s → plain_from (finalize_established_locked sid v bw false s).
Proof.
  intros (?&?&?). unfold finalize_established_locked. cbv zeta.
  destruct (build_init_ack_body _ _ _); apply plain_from_intro; auto with session.
Qed.

Lemma plain_after_auth f j v ok e s : unrefreshed s → plain_from (init_after_auth f j v ok e s).
Proof.
  intros Hs. pose proof Hs as (Hp&?&?). unfold init_after_auth. destruct ok; cbn [negb]; [|auto with session].
  destruct (parse_streams j) as [decls|[[c r] err]]; [|auto with session].
  destruct (chars (session_id f)) as [sid|].
  { unfold handle_resumption_locked. rewrite Hp. auto with session. }
  unfold init_fresh. destruct (validate_declarations _ _); [|auto with session].
  destruct (register_from_declarations _ _ _) as [[[[]|err] reg] rd]; cbv zeta; [|auto with session].
  destruct (generate_csprng_id rd 16).1; [by apply plain_finalize|auto with session].
Qed.

Lemma plain_handle_init f e s : unrefreshed s → plain_from (handle_init f e s).
Proof.
  intros Hs. assert (unrefreshed (with_state initializing s)) as Hs' by exact Hs.
  unfold handle_init. case_decide; [auto with session|]. cbv zeta.
  destruct (json_parse _) as [j|]; [|auto with session].
  destruct (json_at _ _ ≫= _) as [v|]; [|auto with session]. destruct (negb _).
  { destruct (build_init_error_body _); auto with session. }
  destruct (has_auth_validate _); [|by apply plain_after_auth].
  apply plain_from_intro; [done|]. split; [done|]. intros [ok|]; [|done]. apply plain_locked.
  intros e1 s1 H1. case_decide; [auto with session|]. by apply plain_after_auth.
Qed.

Lemma plain_handle_ping f e s : unrefreshed s → plain_from (handle_ping f e s).
Proof.
  intros Hs. unfold handle_ping. case_decide; [auto with session|].
  destruct (ping_window _ _ _ _) as [[start cnt] ok]. cbv zeta.
  destruct ok; apply plain_from_intro; auto with session; exact Hs.
Qed.

Lemma plain_handle_pong f e s : unrefreshed s → plain_from (handle_pong f e s).
Proof.
  intros Hs. assert (unrefreshed (with_pending_ping None None s)) as Hs' by exact Hs.
  unfold handle_pong. case_decide; [auto with session|].
  destruct (pending_ping_nonce s); [|auto with session]. cbv zeta.
  destruct (json_parse _ ≫= _); [case_decide|]; [|auto with session..].
  apply plain_from_intro; [done|]. by apply plain_notify.
Qed.

Lemma plain_handle_auth_response f e s : unrefreshed s → plain_from (handle_auth_response f e s).
Proof.
  intros Hs. pose proof Hs as (?&?&Hp). unfold handle_auth_response. case_decide; [auto with session|].
  rewrite Hp. cbn [negb]. auto with session.
Qed.

Lemma plain_close_locked c r s : unrefreshed s → plain_from (close_locked c r s).
Proof.
  intros Hs. pose proof Hs as (?&?&?). unfold close_locked. case_decide; [auto with session|]. cbv zeta.
  apply plain_from_intro; [done|]. apply plain_send_text, plain_close_transport. by apply plain_notify.
Qed.

Lemma unrefreshed_closed s : unrefreshed s → unrefreshed (transition_to_closed_locked s).
Proof. by intros (?&?&_). Qed.
#[local] Hint Resolve unrefreshed_closed : session.

Lemma plain_process_control f : plain (process_control_frame f).
Proof.
  unfold process_control_frame. case_decide; [done|]. destruct (chars (event f)) as [ev|].
  2:{ apply plain_locked. intros e s Hs. destruct (state s); auto with session. }
  destruct (is_valid_event_name ev); cbn [negb]; apply plain_locked; intros e s Hs.
  2:{ apply plain_from_intro; [auto with session|]. case_decide; [auto with session|].
      by apply plain_send_text, plain_close_transport. }
  case_decide; [by apply plain_from_intro; auto with session|].
  case_decide; [by apply plain_handle_init|].
  case_decide; [by apply plain_handle_ping|].
  case_decide; [by apply plain_handle_pong|].
  case_decide; [by apply plain_handle_auth_response|].
  case_decide; [by apply plain_close_locked|]. auto with session.
Qed.

Lemma plain_process_media f : plain (process_media_frame f).
Proof.
  unfold process_media_frame. case_decide; [done|]. apply plain_locked. intros _ s Hs.
  case_decide; [case_decide; auto with session|]. unfold handle_media. cbv zeta.
  destruct (chars (stream_id f)) as [id|]; [|auto with session].
  destruct (validate_client_send id _); [|auto with session].
  destruct (find_stream id _) as [st|]; [|auto with session].
  destruct (check_media f st) as [[st' ts]|[r err]]; [|auto with session].
  apply plain_from_intro; [exact Hs|]. by apply plain_notify.
Qed.

Lemma plain_send_media id payload ts : plain (send_media id payload ts).
Proof.
  apply plain_locked. intros _ s Hs. case_decide; [auto with session|].
  destruct (validate_server_send id _); [|auto with session].
  destruct (find_stream id _) as [st|]; [|auto with session].
  destruct (advance_offset st _) as [st'|]; [|auto with session].
  apply plain_from_intro; [exact Hs|]. destruct (serialize_frame _ _ _) as [[fr|]|]; [|done..].
  split; [done|]. by intros [].
Qed.

(** What Python threads can run. *)
Lemma plain_py_proc m : plain (py_proc m).
Proof.
  destruct m as [data|data|id payload ts| |c r]; cbn [py_proc].
  - unfold py_process_control_frame. destruct (parse_headers _ _ _); [|done].
    apply stays_map, plain_process_control.
  - unfold py_process_media_frame. destruct (parse_headers _ _ _); [|done].
    apply stays_map, plain_process_media.
  - apply stays_map, plain_send_media.
  - apply stays_map, plain_locked. intros e s Hs. case_decide; [auto with session|]. cbv zeta.
    apply plain_from_intro; [exact Hs|auto with session].
  - apply stays_map, plain_locked. intros e s Hs. by apply plain_close_locked.
Qed.

Lemma py_world_plain s0 w :
  unrefreshed s0 → py_reachable s0 w →
  unrefreshed (py_impl w) ∧ Forall plain (py_threads w) ∧
  Forall (λ u, not_auth_response u.1) (py_history w).
Proof.
  intros H0. revert w. apply rtc_ind_r; [by split_and!|].
  intros w1 w2 _ Hs (Hi&Ht&Hh). destruct Hs as [m w|i e section s' p' w Hl Hsec|i o k a w Hl]; cbn in *.
  - split_and!; [done| |done]. apply Forall_app. split; [done|]. apply Forall_singleton, plain_py_proc.
  - rewrite Forall_lookup in Ht. specialize (Ht _ _ Hl) as Hp. specialize (Hp e _ Hi). rewrite Hsec in Hp.
    destruct Hp as [? Hp]. split_and!; [done| |done]. apply Forall_insert; [by apply Forall_lookup|done].
  - rewrite Forall_lookup in Ht. pose proof (Ht _ _ Hl) as [Ho Hk]. split_and!; [done| |by constructor].
    apply Forall_insert; [by apply Forall_lookup|]. apply Hk.
Qed.

(** ** Theorem *)

(** C20. A session made in Python never refreshes its credentials and is never
    resumed: whatever its callables and its configuration, in every interleaving of
    calls from Python threads no challenge is open, [on_auth_response] is never
    called, and every init frame that names a session is refused. *)
Theorem py_never_refreshes c config s0 w :
  PySession_init c config = Ok s0 → py_reachable s0 w →
  pending (auth_mgr (py_impl w)) = false ∧
  (∀ token a, (on_auth_response token, a) ∉ py_history w) ∧
  is_resumed_session (py_impl w) = false ∧
  ∀ id bw decls v e,
    handle_resumption_locked id bw decls v e (py_impl w) =
      (py_impl w, fail_init (str "invalid-session") (str "Session not found") (str "{}") session_expired).
Proof.
  intros Hmake Hr. unfold PySession_init, make_py_session in Hmake.
  destruct (given_auth_validate c); [|done]. injection Hmake as <-.
  eapply py_world_plain in Hr; [|by split_and!]. destruct Hr as ((Hp&Hres&Hpend)&_&Hh). split_and!; [done| |done|].
  - intros token a Hin. rewrite Forall_forall in Hh. by specialize (Hh _ Hin).
  - intros. unfold handle_resumption_locked. by rewrite Hp.
Qed.
End module.

Lemma py_never_refreshes_witness :
  ∃ w, state (py_impl w) = established ∧ is_resumed_session (py_impl w) = false.
Proof.
  destruct (py_schedule_reaches (ST := lp64) (JL := demo_json) start
    [py_begin (py_control init_bytes); py_enter 0 demo_env; py_reply 0 (returned true);
     py_enter 0 demo_env]
    (λ w, bool_decide (state (py_impl w) = established))) as (w&Hr&He%bool_decide_eq_true); [by vm_compute|].
  exists w. split; [exact He|].
  destruct (py_never_refreshes (ST := lp64) (JL := demo_json) all_given None start w)
    as (_&_&H&_); [reflexivity|exact Hr|exact H].
Defined.
