(* ===== verification/PyServer.v ===== *)
(** * culpeostream-py: the server's transports

    [PyServerTransport], [PyH2SessionHandler] and the queue of [PyH2Server] of
    [culpeostream-py/src/bindings.cpp], with the coroutine of [src/h2_server.cpp]
    that owns the transport a handler is given.  Python threads and the event loop
    interleave: a step is one critical section, or one turn of the loop. *)

From S2P Require Import Prelude Bytes H2Frame SafeQueue.

(** ** One stream of the server *)

(** Where the coroutine of the stream is: in the loop of [handle], in its catch
    clause before and after the pointers are cleared, after [handle] has returned,
    and after the coroutine has ended and destroyed the transport. *)
Inductive handler_pc := receiving | caught | cleared | handle_returned | ended.

(** What a Python thread asks of the transport. *)
Inductive request := ask_text (frame : bytes) | ask_binary (frame : bytes)
| ask_close (code : Z) (reason : bytes).

(** Where a Python thread is in [send_text], [send_binary] or [close_transport]:
    before its critical section, with the coroutine it obtained there, after the
    coroutine has run on the transport, or after an exception.  [dangling] is the
    coroutine having run on a transport that no longer exists. *)
Inductive sender_pc := asking (r : request) | obtained (r : request) | performed (r : request)
| threw_closed | dangling (r : request).

Record PyServerTransport := mkTransport {
  pointers : bool;                  (* transport_ and ioc_ are not null *)
  exists_ : bool;                   (* the object transport_ pointed to *)
  rx_queue_ : SafeQueue h2_frame;
  handler : handler_pc;
  senders : list sender_pc;
  arrived : list h2_frame;          (* what receive_frame gave the handler *)
  returned_frames : list h2_frame;  (* what receive_frame gave Python *)
  stop_iterations : nat;            (* how often Python got StopIteration *)
}.

Definition new_transport : PyServerTransport :=
  {| pointers := true; exists_ := true; rx_queue_ := new_queue; handler := receiving;
     senders := []; arrived := []; returned_frames := []; stop_iterations := 0 |}.

Definition push_frame (f : h2_frame) (t : PyServerTransport) : PyServerTransport :=
  mkTransport (pointers t) (exists_ t) (queue_push f (rx_queue_ t)) (handler t) (senders t)
    (arrived t ++ [f]) (returned_frames t) (stop_iterations t).

(** The two sections of [set_eof]. *)
Definition set_eof_clear (t : PyServerTransport) : PyServerTransport :=
  mkTransport false (exists_ t) (rx_queue_ t) cleared (senders t) (arrived t) (returned_frames t)
    (stop_iterations t).
Definition set_eof_close (t : PyServerTransport) : PyServerTransport :=
  mkTransport (pointers t) (exists_ t) (queue_close (rx_queue_ t)) handle_returned (senders t)
    (arrived t) (returned_frames t) (stop_iterations t).

Definition with_handler (h : handler_pc) (t : PyServerTransport) : PyServerTransport :=
  mkTransport (pointers t) (exists_ t) (rx_queue_ t) h (senders t) (arrived t) (returned_frames t)
    (stop_iterations t).

Definition with_senders (ss : list sender_pc) (t : PyServerTransport) : PyServerTransport :=
  mkTransport (pointers t) (exists_ t) (rx_queue_ t) (handler t) ss (arrived t) (returned_frames t)
    (stop_iterations t).

(** The end of the coroutine that owns the transport. *)
Definition destroy (t : PyServerTransport) : PyServerTransport :=
  mkTransport (pointers t) false (rx_queue_ t) ended (senders t) (arrived t) (returned_frames t)
    (stop_iterations t).

(** The critical section of a request. *)
Definition ask (i : nat) (r : request) (t : PyServerTransport) : PyServerTransport :=
  with_senders (<[i := if pointers t then obtained r else threw_closed]> (senders t)) t.

(** The coroutine a request obtained runs on the event loop. *)
Definition perform (i : nat) (r : request) (t : PyServerTransport) : PyServerTransport :=
  with_senders (<[i := if exists_ t then performed r else dangling r]> (senders t)) t.

(** [receive_frame] in Python, when it does not have to wait. *)
Definition py_receive (t : PyServerTransport) : PyServerTransport :=
  let '(item, q) := queue_take (rx_queue_ t) in
  mkTransport (pointers t) (exists_ t) q (handler t) (senders t) (arrived t)
    (returned_frames t ++ option_list item)
    (match item with None => S (stop_iterations t) | Some _ => stop_iterations t end).

Definition is_valid (t : PyServerTransport) : bool := pointers t.

(** What happens next. *)
Inductive server_event :=
| se_frame (f : h2_frame)      (* receive_frame returns to the handler *)
| se_error                     (* receive_frame throws *)
| se_clear                     (* set_eof *)
| se_close
| se_end                       (* the stream is closed, the coroutine ends *)
| se_request (r : request)     (* a Python thread makes a call *)
| se_ask (i : nat)
| se_perform (i : nat)
| se_receive.

(** [None] when the event cannot happen in the state. *)
Definition server_step (t : PyServerTransport) (e : server_event) : option PyServerTransport :=
  match e, handler t with
  | se_frame f, receiving => Some (push_frame f t)
  | se_error, receiving => Some (with_handler caught t)
  | se_clear, caught => Some (set_eof_clear t)
  | se_close, cleared => Some (set_eof_close t)
  | se_end, handle_returned => Some (destroy t)
  | se_request r, _ => Some (with_senders (senders t ++ [asking r]) t)
  | se_ask i, _ =>
      match senders t !! i with Some (asking r) => Some (ask i r t) | _ => None end
  | se_perform i, _ =>
      match senders t !! i with Some (obtained r) => Some (perform i r t) | _ => None end
  | se_receive, _ => if pop_ready (rx_queue_ t) then Some (py_receive t) else None
  | _, _ => None
  end.

Definition server_run (es : list server_event) : option PyServerTransport :=
  foldl (λ t e, t ≫= λ t, server_step t e) (Some new_transport) es.

(** ** The server's queue of sessions *)
Record PyH2Server := mkPyServer { accepting : bool; session_queue_ : SafeQueue nat }.

(** [handle] begins: the session with this number is queued for Python. *)
Definition handle_begin (session : nat) (s : PyH2Server) : PyH2Server :=
  mkPyServer (accepting s) (queue_push session (session_queue_ s)).

(** [accept()]: [None] while it waits, [Some None] is Python's [None]. *)
Definition py_accept (s : PyH2Server) : option (option nat) * PyH2Server :=
  if pop_ready (session_queue_ s)
  then let '(item, q) := queue_take (session_queue_ s) in (Some item, mkPyServer (accepting s) q)
  else (None, s).

Definition py_stop (s : PyH2Server) : PyH2Server := mkPyServer false (queue_close (session_queue_ s)).

(** ** Invariant *)
Record transport_inv (t : PyServerTransport) : Prop := {
  ti_frames : arrived t = returned_frames t ++ q_ (rx_queue_ t);
  ti_pointers : pointers t = true ↔ handler t = receiving ∨ handler t = caught;
  ti_exists : exists_ t = true ↔ handler t ≠ ended;
  ti_closed : closed_ (rx_queue_ t) = true ↔ handler t = handle_returned ∨ handler t = ended;
  ti_stop : stop_iterations t ≠ 0 → closed_ (rx_queue_ t) = true ∧ q_ (rx_queue_ t) = [];
  ti_performed r : dangling r ∈ senders t → exists_ t = false;
}.

Lemma elem_of_insert_sender (ss : list sender_pc) i p x : x ∈ <[i := p]> ss → x = p ∨ x ∈ ss.
Proof.
  intros Hx. apply list_elem_of_lookup in Hx as [j Hj]. apply list_lookup_insert_Some in Hj.
  destruct Hj as [(?&?&?)|[_ Hj]]; [by left|right]. by eapply list_elem_of_lookup_2.
Qed.

Lemma transport_inv_senders ss t :
  (∀ r, dangling r ∈ ss → exists_ t = false) → transport_inv t → transport_inv (with_senders ss t).
Proof. intros Hss []. by split. Qed.

Lemma transport_inv_receive t :
  pop_ready (rx_queue_ t) = true → transport_inv t → transport_inv (py_receive t).
Proof.
  intros Hr [Hf Hp He Hc Hs Hd]. unfold py_receive, queue_take, pop_ready in *.
  destruct (q_ (rx_queue_ t)) as [|f q] eqn:Hq; split;
    cbn [pointers exists_ rx_queue_ handler senders arrived returned_frames stop_iterations
         q_ closed_ option_list]; try done.
  - by rewrite Hf, Hq, !app_nil_r.
  - by rewrite Hf, <-app_assoc.
  - intros Hn. by destruct (Hs Hn).
Qed.

Lemma server_step_inv t e t' : server_step t e = Some t' → transport_inv t → transport_inv t'.
Proof.
  intros Hs Hinv. pose proof Hinv as [Hf Hp He Hc Hst Hd].
  destruct e as [f| | | | |r|i|i|]; cbn [server_step] in Hs.
  - destruct (handler t) eqn:Hh; try done. injection Hs as <-. split; try done;
      cbn [push_frame pointers exists_ rx_queue_ handler senders arrived returned_frames stop_iterations];
      rewrite ?Hh; try done.
    + cbn [queue_push q_]. by rewrite Hf, app_assoc.
    + intros Hn. destruct (Hst Hn) as [Hcl _]. apply Hc in Hcl as []; done.
  - destruct (handler t) eqn:Hh; try done. injection Hs as <-. split; try done; cbn; intuition congruence.
  - destruct (handler t) eqn:Hh; try done. injection Hs as <-. split; try done; cbn; intuition congruence.
  - destruct (handler t) eqn:Hh; try done. injection Hs as <-. split; try done; cbn; intuition congruence.
  - destruct (handler t) eqn:Hh; try done. injection Hs as <-. split; try done; cbn; intuition congruence.
  - assert (Some (with_senders (senders t ++ [asking r]) t) = Some t') as [= <-] by (by destruct (handler t)).
    apply transport_inv_senders; [|done]. intros r'. rewrite elem_of_app, list_elem_of_singleton.
    intros [|]; [by eapply Hd|done].
  - assert (∃ r, senders t !! i = Some (asking r) ∧ t' = ask i r t) as (r&Hi&->).
    { destruct (senders t !! i) as [[r| | | |]|]; try (by destruct (handler t)).
      exists r. split; [done|]. by destruct (handler t); injection Hs as <-. }
    apply transport_inv_senders; [|done]. intros r' [Heq|Hin]%elem_of_insert_sender; [|by eapply Hd].
    by destruct (pointers t).
  - assert (∃ r, senders t !! i = Some (obtained r) ∧ t' = perform i r t) as (r&Hi&->).
    { destruct (senders t !! i) as [[|r| | |]|]; try (by destruct (handler t)).
      exists r. split; [done|]. by destruct (handler t); injection Hs as <-. }
    apply transport_inv_senders; [|done]. intros r' [Heq|Hin]%elem_of_insert_sender; [|by eapply Hd].
    by destruct (exists_ t).
  - assert (pop_ready (rx_queue_ t) = true ∧ t' = py_receive t) as [Hr ->].
    { destruct (pop_ready (rx_queue_ t)); [|by destruct (handler t)].
      split; [done|]. by destruct (handler t); injection Hs as <-. }
    by apply transport_inv_receive.
Qed.

Lemma server_run_inv es t : server_run es = Some t → transport_inv t.
Proof.
  unfold server_run. revert t. induction es as [|e es IH] using rev_ind; intros t; simpl.
  - intros [= <-]. split; cbn; try done; [split; auto|split; [done|by intros []]|].
    by intros r ?%not_elem_of_nil.
  - rewrite foldl_app. simpl. intros (t1&H1&H2)%bind_Some. eapply server_step_inv; eauto.
Qed.

(** C26. The Python side of a server stream, for every interleaving of the handler
    and of any number of Python threads: the frames [receive_frame] returned are
    the frames that arrived, in order, and what is missing is still queued;
    StopIteration is raised only when the stream has ended and every frame has been
    returned; and a request whose critical section comes after the pointers were
    cleared raises instead of obtaining a coroutine. *)
Theorem server_transport_frames es t :
  server_run es = Some t →
  arrived t = returned_frames t ++ q_ (rx_queue_ t) ∧
  (stop_iterations t ≠ 0 → returned_frames t = arrived t ∧ handler t ≠ receiving) ∧
  (handler t ≠ receiving → handler t ≠ caught →
   ∀ i r, senders t !! i = Some (asking r) →
     server_step t (se_ask i) = Some (with_senders (<[i := threw_closed]> (senders t)) t)).
Proof.
  intros Hrun. destruct (server_run_inv es t Hrun) as [Hf Hp He Hc Hs Hd]. split_and!; [done| |].
  - intros Hn. destruct (Hs Hn) as [Hcl Hq]. rewrite Hf, Hq, app_nil_r. split; [done|].
    apply Hc in Hcl as []; congruence.
  - intros H1 H2 i r Hi. assert (pointers t = false) as Hpt.
    { apply not_true_iff_false. rewrite Hp. naive_solver. }
    cbn [server_step]. rewrite Hi. unfold ask. rewrite Hpt. by destruct (handler t).
Qed.

(** What the handler and the coroutine of the stream still do, up to its end. *)
Definition rest_of_stream (h : handler_pc) : list server_event :=
  match h with
  | receiving => [se_error; se_clear; se_close; se_end]
  | caught => [se_clear; se_close; se_end]
  | cleared => [se_close; se_end]
  | handle_returned => [se_end]
  | ended => []
  end.

Lemma rest_of_stream_ends t :
  transport_inv t →
  ∃ t', foldl (λ t e, t ≫= λ t, server_step t e) (Some t) (rest_of_stream (handler t)) = Some t' ∧
    senders t' = senders t ∧ exists_ t' = false ∧ pointers t' = false.
Proof.
  intros [_ Hp He _ _ _]. unfold rest_of_stream. destruct t as [p x q h ss ar rf st]. cbn in *.
  assert (h = ended → x = false) as Hx by (intros ->; apply not_true_is_false; rewrite He; by intros Hn; apply Hn).
  assert (h ≠ receiving → h ≠ caught → p = false) as Hpf by (intros ??; apply not_true_is_false; rewrite Hp; tauto).
  destruct h; (eexists; split; [reflexivity|]); cbn; auto.
Qed.

(** C40. Clearing the pointers under the mutex does not exclude a use of the
    transport after its destruction: in every execution, whatever a Python thread
    asked for, once its request obtained its coroutine the stream can come to its
    end first, whereupon the pointers are clear and the transport destroyed, and the
    coroutine then runs on it. *)
Theorem server_transport_use_after_free es t i r :
  server_run es = Some t → senders t !! i = Some (obtained r) →
  ∃ t', server_run (es ++ rest_of_stream (handler t) ++ [se_perform i]) = Some t' ∧
    is_valid t' = false ∧ exists_ t' = false ∧ senders t' !! i = Some (dangling r).
Proof.
  intros Hrun Hi. destruct (rest_of_stream_ends t (server_run_inv es t Hrun)) as (t'&Hend&Hss&Hx&Hp).
  exists (perform i r t'). assert (server_run (es ++ rest_of_stream (handler t)) = Some t') as Hr'.
  { unfold server_run in *. by rewrite foldl_app, Hrun. }
  split_and!; [|done..|].
  - rewrite app_assoc. unfold server_run in *. rewrite foldl_app, Hr'. cbn. rewrite Hss, Hi. by destruct (handler t').
  - unfold perform. rewrite Hx. cbn. apply list_lookup_insert_eq. rewrite Hss. by eapply lookup_lt_Some.
Qed.

Lemma server_transport_use_after_free_witness :
  ∃ t, server_run ([se_request (ask_text []); se_ask 0] ++ [se_error; se_clear; se_close; se_end] ++ [se_perform 0])
       = Some t ∧ senders t !! 0 = Some (dangling (ask_text [])).
Proof.
  destruct (server_transport_use_after_free [se_request (ask_text []); se_ask 0]
    (with_senders [obtained (ask_text [])] new_transport) 0 (ask_text [])) as (t'&H1&_&_&H2); [reflexivity..|]. exists t'. split; [exact H1|exact H2].
Defined.

Lemma server_transport_frames_witness :
  ∃ t, server_run [se_frame (kTypeMedia, []); se_receive; se_error; se_clear; se_close; se_receive] = Some t ∧
    stop_iterations t = 1 ∧ returned_frames t = arrived t.
Proof.
  eexists. split; [reflexivity|]. split; [reflexivity|].
  apply (server_transport_frames
    [se_frame (kTypeMedia, []); se_receive; se_error; se_clear; se_close; se_receive]); by vm_compute.
Defined.
