(* ===== verification/H2Run.v ===== *)
(** * libculpeo-transport-h2: the connection's loop

    [H2Session::init_nghttp2], [drain_to_wire] and [run] of [src/h2_client.cpp].
    The loop runs until the connection ends, so it is an interaction tree: what it
    does on the strand between two suspensions is one event, and the suspensions
    (reading and writing the socket) are events the environment answers.  nghttp2
    is the class [Nghttp2]: an activity that calls the session's callbacks. *)

From ITree Require Import ITree ITreeFacts Events.State Events.StateFacts.
From S2P Require Import Prelude Bytes H2Frame H2Session H2Facts H2Safety H2Theorems.

(** Sequencing of coroutines. *)
Declare Scope co_scope.
Delimit Scope co_scope with co.
Notation "'await' x ':=' t 'in' k" := (ITree.bind t (λ x, k))
  (at level 10, x name, t at level 200, k at level 200) : co_scope.
Notation "t ';;;' k" := (ITree.bind t (λ _, k)) (at level 199, right associativity) : co_scope.
Local Open Scope co_scope.

(** Runs the first coroutine of a sequence, against any environment. *)
Lemma interp_await {E : Type → Type} {S A B : Type} (env : E ~> Monads.stateT S (itree void1))
    (t : itree E A) (k : A → itree E B) s r :
  interp_state env t s ≈ Ret r →
  interp_state env (ITree.bind t k) s ≈ interp_state env (k r.2) r.1.
Proof. intros Ht. rewrite interp_state_bind, Ht, bind_ret_l. reflexivity. Qed.

Lemma interp_event {E : Type → Type} {S A : Type} (env : E ~> Monads.stateT S (itree void1)) (e : E A) s r :
  env A e s = Ret r → interp_state env (ITree.trigger e) s ≈ Ret r.
Proof. intros <-. by rewrite interp_state_trigger. Qed.

(** ** nghttp2 *)

(** The callbacks that [init_nghttp2] registers. *)
Inductive ng_callback :=
| on_frame_recv (f : ng_frame)
| on_data_chunk_recv (sid : Z) (data : bytes)
| on_stream_close (sid : Z)
| on_begin_headers (f : ng_frame)
| on_header (f : ng_frame) (k v : bytes).

Definition as_event (cb : ng_callback) : h2_event :=
  match cb with
  | on_frame_recv f => ev_frame_recv f
  | on_data_chunk_recv sid data => ev_data sid data
  | on_stream_close sid => ev_stream_close sid
  | on_begin_headers f => ev_begin_headers f
  | on_header f k v => ev_header f k v
  end.

(** What a call of nghttp2 does: it calls back, and returns a value and its new
    state.  A callback answers with the calls of nghttp2 it made itself, the data
    source with the bytes it has. *)
Inductive activity (N R : Type) :=
| returns (r : R) (n : N)
| calls_back (cb : ng_callback) (k : list effect → activity N R)
| reads_data (sid : Z) (len : nat) (k : read_result → activity N R).
Arguments returns {N R} r n.
Arguments calls_back {N R} cb k.
Arguments reads_data {N R} sid len k.

Section activity.
Context {CL : ChannelLib} {N R : Type}.

Fixpoint run_activity (a : activity N R) (h : H2Session) : R * N * H2Session * list effect :=
  match a with
  | returns r n => (r, n, h, [])
  | calls_back cb k =>
      let '(h, es) := h2_apply (as_event cb) h in
      let '(r, n, h, es') := run_activity (k es) h in (r, n, h, es ++ es')
  | reads_data sid len k =>
      let '(d, h) := data_read_callback sid len h in run_activity (k d) h
  end.
End activity.

Section run.
Context {CL : ChannelLib}.

Class Nghttp2 := {
  ng : Type;
  (* nghttp2_session_client_new or _server_new, then nghttp2_submit_settings with
     the maximum of concurrent streams and the initial window size *)
  ng_new : Mode → Z → Z → ng;
  mem_recv : bytes → ng → activity ng Z;
  mem_send : ng → activity ng bytes;      (* no byte: nothing more to send *)
  ng_call : effect → ng → ng;             (* a call of the session outside a callback *)
  resumes : Z → ng → bool;                (* nghttp2_session_resume_data returns 0 *)
  request_id : bytes → bytes → ng → Z;    (* what nghttp2_submit_request returns *)
  want_read : ng → bool;
  want_write : ng → bool;
  output_left : ng → H2Session → nat;
  mem_send_decreases n h d n' h' es :
    run_activity (mem_send n) h = (d, n', h', es) → d ≠ [] → output_left n' h' < output_left n h;
}.

Context {NG : Nghttp2}.

Definition conn : Type := H2Session * ng.

Definition init_nghttp2 (h : H2Session) : conn :=
  (h, ng_new (mode h) (max_concurrent_streams h) 65535).

(** The loop of [drain_to_wire]: the output so far and the effects of callbacks. *)
Definition drain_output_step (s : bytes * conn * list effect)
    : bytes * conn * list effect + (bytes * conn * list effect) :=
  let '(out, (h, n), es) := s in
  match run_activity (mem_send n) h with
  | ([], n', h', es') => inr (out, (h', n'), es ++ es')
  | (d, n', h', es') => inl (out ++ d, (h', n'), es ++ es')
  end.

Definition drain_output_measure (s : bytes * conn * list effect) : nat :=
  let '(_, (h, n), _) := s in output_left n h.

#[export] Instance drain_output_decreasing : Decreasing drain_output_measure drain_output_step.
Proof.
  intros [[out [h n]] es] s'. unfold drain_output_step, drain_output_measure.
  destruct (run_activity (mem_send n) h) as [[[d n'] h'] es'] eqn:Ha.
  destruct d as [|b d]; [done|]. intros [= <-]. by eapply mem_send_decreases.
Qed.

(** The bytes that [drain_to_wire] writes. *)
Definition drain_output (c : conn) : bytes * conn * list effect :=
  loop drain_output_measure drain_output_step ([], c, []).

(** [nghttp2_session_mem_recv]. *)
Definition receive_bytes (d : bytes) (c : conn) : Z * conn * list effect :=
  let '(h, n) := c in
  let '(rv, n', h', es) := run_activity (mem_recv d n) h in (rv, (h', n'), es).

(** ** [run] *)

(** A section on the strand, and the suspensions: [async_read_some], [None] when
    it throws, [async_write], [false] when it throws, and [async_receive] on the
    channel of a stream, [None] when it throws. *)
Variant h2E : Type → Type :=
| OnStrand {A : Type} (f : conn → A * conn * list effect) : h2E A
| ReadSome : h2E (option bytes)
| WriteAll (b : bytes) : h2E bool
| AwaitFrame (sid : Z) : h2E (option h2_frame).

(** How [run] ends: at its end, or by an exception of [drain_to_wire]. *)
Inductive run_end := completed | escaped.

Definition on_strand {A} (f : conn → A * conn * list effect) : itree h2E A := ITree.trigger (OnStrand f).

Definition drain_to_wire_co : itree h2E bool :=
  await out := on_strand drain_output in
  match out with [] => Ret true | _ => ITree.trigger (WriteAll out) end.

(** One iteration: [inl] to go on, [inr true] to leave the loop, [inr false] when
    an exception leaves the function. *)
Definition run_body (_ : unit) : itree h2E (unit + bool) :=
  await is_closed := on_strand (λ c, (h2_closed c.1, c, [])) in
  if is_closed then Ret (inr true)
  else
    await r := ITree.trigger ReadSome in
    match r with
    | None | Some [] => Ret (inr true)
    | Some d =>
        await rv := on_strand (receive_bytes d) in
        if decide (rv < 0)%Z then Ret (inr true)
        else
          await ok := drain_to_wire_co in
          if ok : bool then
            await fin := on_strand (λ c, (negb (want_read c.2) && negb (want_write c.2), c, [])) in
            Ret (if fin : bool then inr true else inl tt)
          else Ret (inr false)
    end.

(** After the loop. *)
Definition exit_section (c : conn) : unit * conn * list effect :=
  let '(h, es) := run_exit c.1 in (tt, (h, c.2), es).

(** [run] from its loop on, and after [init_nghttp2]. *)
Definition run_from_loop : itree h2E run_end :=
  await at_end := ITree.iter run_body tt in
  if at_end : bool then on_strand exit_section ;;; Ret completed else Ret escaped.

Definition run_rest : itree h2E run_end :=
  await ok := drain_to_wire_co in
  if ok : bool then run_from_loop else Ret escaped.

Definition run_co : itree h2E run_end :=
  on_strand (λ c, (tt, init_nghttp2 c.1, [])) ;;; run_rest.

(** ** The environment

    What the socket answers, in order, and what other coroutines do to the
    connection while [run] is suspended.  After the last read the connection ends;
    writes beyond the list succeed.  [run] waits for no frame; a coroutine that
    does and finds none gets end-of-file. *)
Record h2_env := mkH2Env {
  e_conn : conn;
  e_reads : list (bytes * (conn → conn));
  e_writes : list (bool * (conn → conn));
  e_wire : list bytes;
  e_effects : list effect;
}.

Definition do_section {A} (f : conn → A * conn * list effect) (s : h2_env) : h2_env * A :=
  let '(a, c, es) := f (e_conn s) in
  (mkH2Env c (e_reads s) (e_writes s) (e_wire s) (e_effects s ++ es), a).

Definition do_read (s : h2_env) : h2_env * option bytes :=
  match e_reads s with
  | [] => (s, None)
  | (d, others) :: rs =>
      (mkH2Env (others (e_conn s)) rs (e_writes s) (e_wire s) (e_effects s), Some d)
  end.

Definition do_write (b : bytes) (s : h2_env) : h2_env * bool :=
  match e_writes s with
  | [] => (mkH2Env (e_conn s) (e_reads s) [] (e_wire s ++ [b]) (e_effects s), true)
  | (ok, others) :: ws =>
      (mkH2Env (others (e_conn s)) (e_reads s) ws (if ok : bool then e_wire s ++ [b] else e_wire s)
         (e_effects s), ok)
  end.

Definition do_await (sid : Z) (s : h2_env) : h2_env * option h2_frame :=
  let '(r, h) := receive_frame_end sid (e_conn s).1 in
  (mkH2Env (h, (e_conn s).2) (e_reads s) (e_writes s) (e_wire s) (e_effects s),
   match r with Some (Ok f) => Some f | _ => None end).

Definition handle_h2 : h2E ~> Monads.stateT h2_env (itree void1) := λ _ e s,
  match e with
  | OnStrand f => Ret (do_section f s)
  | ReadSome => Ret (do_read s)
  | WriteAll b => Ret (do_write b s)
  | AwaitFrame sid => Ret (do_await sid s)
  end.

(** ** The loop as a function *)
Definition drain_turn (s : h2_env) : h2_env * bool :=
  let '(s, out) := do_section drain_output s in
  match out with [] => (s, true) | _ => do_write out s end.

Definition body_turn (s : h2_env) : h2_env * (unit + bool) :=
  let '(s, is_closed) := do_section (λ c, (h2_closed c.1, c, [])) s in
  if is_closed then (s, inr true)
  else
    let '(s, r) := do_read s in
    match r with
    | None | Some [] => (s, inr true)
    | Some d =>
        let '(s, rv) := do_section (receive_bytes d) s in
        if decide (rv < 0)%Z then (s, inr true)
        else
          let '(s, ok) := drain_turn s in
          if ok : bool then
            let '(s, fin) := do_section (λ c, (negb (want_read c.2) && negb (want_write c.2), c, [])) s in
            (s, if fin : bool then inr true else inl tt)
          else (s, inr false)
    end.

Lemma interp_section {A} (f : conn → A * conn * list effect) s :
  interp_state handle_h2 (on_strand f) s ≈ Ret (do_section f s).
Proof. by apply interp_event. Qed.

Lemma interp_drain s : interp_state handle_h2 drain_to_wire_co s ≈ Ret (drain_turn s).
Proof.
  unfold drain_to_wire_co, drain_turn. rewrite interp_await by apply interp_section.
  destruct (do_section drain_output s) as [s1 [|b out]]; cbn [fst snd].
  - by rewrite interp_state_ret.
  - by rewrite interp_state_trigger.
Qed.

Lemma interp_body s : interp_state handle_h2 (run_body tt) s ≈ Ret (body_turn s).
Proof.
  unfold run_body, body_turn. rewrite interp_await by apply interp_section.
  destruct (do_section (λ c, (h2_closed c.1, c, [])) s) as [s1 []]; cbn [fst snd];
    [by rewrite interp_state_ret|].
  rewrite (interp_await _ _ _ _ (do_read s1)) by (by apply interp_event).
  destruct (do_read s1) as [s2 [[|b d]|]]; cbn [fst snd]; [by rewrite interp_state_ret| |by rewrite interp_state_ret].
  rewrite interp_await by apply interp_section.
  destruct (do_section (receive_bytes (b :: d)) s2) as [s3 rv]; cbn [fst snd].
  case_decide; [by rewrite interp_state_ret|].
  rewrite interp_await by apply interp_drain.
  destruct (drain_turn s3) as [s4 []]; cbn [fst snd]; [|by rewrite interp_state_ret].
  rewrite interp_await by apply interp_section.
  destruct (do_section _ s4) as [s5 fin]; cbn [fst snd]. by rewrite interp_state_ret.
Qed.

(** [while] of [run]: the state and whether the loop was left by its end. *)
Definition run_loop_step (s : h2_env) : h2_env + h2_env * bool :=
  match body_turn s with (s, inl _) => inl s | (s, inr b) => inr (s, b) end.

Lemma drain_turn_reads s : e_reads (drain_turn s).1 = e_reads s.
Proof.
  unfold drain_turn, do_section. destruct (drain_output (e_conn s)) as [[[|b out] c] es]; [done|].
  unfold do_write. cbn. by destruct (e_writes s) as [|[]].
Qed.

#[export] Instance run_loop_decreasing : Decreasing (λ s, length (e_reads s)) run_loop_step.
Proof.
  intros s s'. unfold run_loop_step, body_turn, do_section at 1. cbn.
  destruct (h2_closed _); [done|]. unfold do_read. cbn.
  destruct (e_reads s) as [|[d others] rs] eqn:Hr; [done|]. destruct d as [|b d]; [done|].
  unfold do_section at 1. cbn.
  destruct (receive_bytes (b :: d) (others (e_conn s))) as [[rv c] es]. case_decide; [done|].
  pose proof (drain_turn_reads (mkH2Env c rs (e_writes s) (e_wire s) ((e_effects s ++ []) ++ es))) as Hd.
  destruct (drain_turn _) as [s4 []]; [|done]. cbn in Hd |- *.
  destruct (negb _ && negb _); intros [= <-]. cbn. rewrite Hd. lia.
Qed.

Definition run_loop (s : h2_env) : h2_env * bool := loop (λ s, length (e_reads s)) run_loop_step s.

Lemma interp_loop s : interp_state handle_h2 (ITree.iter run_body tt) s ≈ Ret (run_loop s).
Proof.
  apply (loop_ind _ _ (λ s r, interp_state handle_h2 (ITree.iter run_body tt) s ≈ Ret r)); clear s.
  - intros s r Hs. unfold run_loop_step in Hs. rewrite unfold_iter, interp_await by apply interp_body.
    destruct (body_turn s) as [s' [[]|b]]; [done|]. injection Hs as <-. cbn [fst snd].
    by rewrite interp_state_ret.
  - intros s s' Hs IH. unfold run_loop_step in Hs. rewrite unfold_iter, interp_await by apply interp_body.
    destruct (body_turn s) as [s1 [[]|b]]; [|done]. injection Hs as ->. cbn [fst snd].
    by rewrite interp_state_tau, tau_eutt.
Qed.

(** [run] as a function of the environment. *)
Definition run_env (s : h2_env) : h2_env * run_end :=
  let '(s, _) := do_section (λ c, (tt, init_nghttp2 c.1, [])) s in
  let '(s, ok) := drain_turn s in
  if ok : bool then
    let '(s, at_end) := run_loop s in
    if at_end : bool then let '(s, _) := do_section exit_section s in (s, completed) else (s, escaped)
  else (s, escaped).

Lemma interp_run s : interp_state handle_h2 run_co s ≈ Ret (run_env s).
Proof.
  unfold run_co, run_rest, run_from_loop, run_env. rewrite interp_await by apply interp_section.
  destruct (do_section _ s) as [s1 []]; cbn [fst snd]. rewrite interp_await by apply interp_drain.
  destruct (drain_turn s1) as [s2 []]; cbn [fst snd]; [|by rewrite interp_state_ret].
  rewrite interp_await by apply interp_loop.
  destruct (run_loop s2) as [s3 []]; cbn [fst snd]; [|by rewrite interp_state_ret].
  rewrite interp_await by apply interp_section.
  destruct (do_section exit_section s3) as [s4 []]; cbn [fst snd]. by rewrite interp_state_ret.
Qed.

(** ** Sessions nobody has been told are over *)
Definition listening (h : H2Session) : Prop :=
  h2_closed h = false ∧
  ∀ sid st, streams h !! sid = Some st → item_eof ∉ buffered (chan st).

Lemma listening_put sid st h :
  listening h → item_eof ∉ buffered (chan st) → listening (put_stream sid st h).
Proof.
  intros [Hc Hs] Hst. split; [done|]. intros sid' st'. cbn [put_stream set_streams streams].
  intros [[-> <-]|[_ Hl]]%lookup_insert_Some; eauto.
Qed.

Lemma listening_get sid h :
  listening h →
  listening (get_or_create_stream sid h).2 ∧
  item_eof ∉ buffered (chan (get_or_create_stream sid h).1).
Proof.
  intros Hl. unfold get_or_create_stream. destruct (streams h !! sid) as [st|] eqn:Hs.
  - split; [done|]. by apply (proj2 Hl sid).
  - assert (item_eof ∉ buffered (chan new_stream)) as Hn.
    { cbn. rewrite (proj1 (new_channel_spec kChannelCapacity)). apply not_elem_of_nil. }
    split; [|done]. by apply (listening_put sid new_stream).
Qed.

Lemma send_all_no_eof frames c : item_eof ∉ buffered c → item_eof ∉ buffered (send_all frames c).
Proof.
  revert c. induction frames as [|[t p] frames IH]; intros c Hc; [done|]. cbn [send_all]. apply IH.
  pose proof (try_send_spec (item_frame t p) c) as Ht.
  destruct (try_send _ c) as [ok c']. destruct Ht as (_&_&Hb). cbn [snd]. rewrite Hb.
  destruct ok; [|done]. rewrite elem_of_app, list_elem_of_singleton. by intros [?|?].
Qed.

(** What every turn of the strand by nghttp2 keeps. *)
Definition turn_keeps (h : H2Session) (r : H2Session * list effect) : Prop :=
  listening h → listening r.1 ∧ socket_close ∉ r.2.

Lemma listening_data sid data h : listening h → listening (on_data_chunk_recv_callback sid data h).
Proof.
  intros Hl. unfold on_data_chunk_recv_callback. case_decide; [done|].
  destruct (listening_get sid h Hl) as [Hl1 Hst]. destruct (get_or_create_stream sid h) as [st h1].
  unfold dispatch_recv_frames. cbn [fst snd put_stream set_streams streams] in *.
  rewrite lookup_insert_eq. cbn [recv_buf]. destruct (drain_frames _) as [frames buf].
  do 2 (apply listening_put; [|cbn [chan]; auto using send_all_no_eof]). done.
Qed.

Lemma listening_respond sid h : turn_keeps h (submit_server_response sid h).
Proof.
  intros Hl. unfold submit_server_response. destruct (listening_get sid h Hl) as [Hl1 Hst].
  destruct (get_or_create_stream sid h) as [st h1]. cbn [fst snd] in *.
  destruct (response_sent st); cbn [fst snd]; (split; [auto using listening_put|set_solver]).
Qed.

Lemma callback_keeps cb h : turn_keeps h (h2_apply (as_event cb) h).
Proof.
  intros Hl. destruct cb; cbn [as_event h2_apply fst snd].
  - unfold on_frame_recv_callback. destruct (negb _); [by split; [|set_solver]|].
    case_decide; [by split; [|set_solver]|].
    destruct (from_option _ _ _); [split; [exact Hl|set_solver]|].
    destruct (listening_respond (hd_stream_id f) h Hl) as [Hl1 He].
    destruct (submit_server_response _ h) as [h1 es]. cbn [fst snd] in *.
    split; [done|]. destruct (has_new_stream_cb h1); set_solver.
  - split; [by apply listening_data|set_solver].
  - split; [|set_solver]. unfold on_stream_close_callback. cbn [set_refused streams].
    destruct (streams h !! sid); [|exact Hl]. split; [apply Hl|]. cbn.
    intros sid' st' [_ Hs]%lookup_delete_Some. by apply (proj2 Hl sid').
  - unfold on_begin_headers_callback. destruct (is_request f h); [|by split; [|set_solver]].
    case_decide; (split; [|set_solver]); [exact Hl|by apply listening_get].
  - split; [|set_solver]. unfold on_header_callback. destruct (negb _); [done|].
    case_decide; [done|]. destruct (streams h !! _) as [st|] eqn:Hs; [|done].
    apply (proj2 Hl) in Hs. repeat (case_decide; auto using listening_put).
Qed.

Lemma read_keeps sid len h : listening h → listening (data_read_callback sid len h).2.
Proof.
  intros Hl. unfold data_read_callback. destruct (streams h !! sid) as [st|] eqn:Hs; [|done].
  apply (proj2 Hl) in Hs. destruct (send_pending st); [by destruct (send_closed st)|].
  by apply listening_put.
Qed.

Lemma activity_keeps {R} (a : activity ng R) h r n h' es :
  run_activity a h = (r, n, h', es) → listening h → listening h' ∧ socket_close ∉ es.
Proof.
  revert h r n h' es. induction a as [r0 n0|cb k IH|sid len k IH]; intros h r n h' es; cbn [run_activity].
  - intros [= _ _ <- <-] Hl. split; [done|set_solver].
  - intros Ha Hl. pose proof (callback_keeps cb h Hl) as [Hl1 He].
    destruct (h2_apply _ h) as [h1 es1]. cbn [fst snd] in *.
    destruct (run_activity (k es1) h1) as [[[r2 n2] h2] es2] eqn:Hk. injection Ha as _ _ <- <-.
    destruct (IH _ _ _ _ _ _ Hk Hl1). split; [done|set_solver].
  - intros Ha Hl. pose proof (read_keeps sid len h Hl) as Hl1.
    destruct (data_read_callback sid len h) as [d h1]. by eapply IH.
Qed.

(** Coroutines that leave the session open. *)
Definition keeps_open (others : conn → conn) : Prop := ∀ c, listening c.1 → listening (others c).1.

Definition env_open (s : h2_env) : Prop :=
  listening (e_conn s).1 ∧ (socket_close ∉ e_effects s) ∧
  Forall (λ r, keeps_open r.2) (e_reads s) ∧ Forall (λ w, keeps_open w.2) (e_writes s).

Definition section_keeps {A} (f : conn → A * conn * list effect) : Prop :=
  ∀ c, listening c.1 → listening (f c).1.2.1 ∧ socket_close ∉ (f c).2.

Lemma do_section_open {A} (f : conn → A * conn * list effect) s :
  section_keeps f → env_open s → env_open (do_section f s).1.
Proof.
  intros Hf (Hl&He&Hr&Hw). unfold do_section. destruct (Hf _ Hl) as [Hl1 He1].
  destruct (f (e_conn s)) as [[a c] es]. cbn in *. split_and!; [done|set_solver|done..].
Qed.

Lemma do_read_open s : env_open s → env_open (do_read s).1.
Proof.
  intros (Hl&He&Hr&Hw). unfold do_read. destruct (e_reads s) as [|[d others] rs] eqn:Hrs.
  - cbn [fst]. unfold env_open. by rewrite Hrs.
  - apply Forall_cons_1 in Hr as [Ho Hr]. split_and!; [by apply Ho|done..].
Qed.

Lemma do_write_open b s : env_open s → env_open (do_write b s).1.
Proof.
  intros (Hl&He&Hr&Hw). unfold do_write. destruct (e_writes s) as [|[ok others] ws].
  - by split_and!.
  - apply Forall_cons_1 in Hw as [Ho Hw]. split_and!; [by apply Ho|done..].
Qed.

Lemma drain_output_keeps : section_keeps drain_output.
Proof.
  intros c Hl. unfold drain_output.
  apply (loop_inv _ _ (λ s : bytes * conn * list effect, listening s.1.2.1 ∧ socket_close ∉ s.2)
                      (λ r : bytes * conn * list effect, listening r.1.2.1 ∧ socket_close ∉ r.2)).
  - split; [done|set_solver].
  - intros [[out [h n]] es] s' [Hs He]. unfold drain_output_step.
    destruct (run_activity (mem_send n) h) as [[[[|b d] n'] h'] es'] eqn:Ha; [done|]. intros [= <-].
    destruct (activity_keeps _ _ _ _ _ _ Ha Hs). cbn in *. split; [done|set_solver].
  - intros [[out [h n]] es] s' [Hs He]. unfold drain_output_step.
    destruct (run_activity (mem_send n) h) as [[[[|b d] n'] h'] es'] eqn:Ha; [|done]. intros [= <-].
    destruct (activity_keeps _ _ _ _ _ _ Ha Hs). cbn in *. split; [done|set_solver].
Qed.

Lemma receive_bytes_keeps d : section_keeps (receive_bytes d).
Proof.
  intros [h n] Hl. unfold receive_bytes. destruct (run_activity _ h) as [[[rv n'] h'] es] eqn:Ha.
  by apply activity_keeps in Ha.
Qed.

Lemma view_keeps {A} (f : conn → A) : section_keeps (λ c, (f c, c, [])).
Proof. intros c Hl. split; [done|set_solver]. Qed.

Lemma drain_turn_open s : env_open s → env_open (drain_turn s).1.
Proof.
  intros Hs. unfold drain_turn. pose proof (do_section_open _ _ drain_output_keeps Hs) as Hd.
  destruct (do_section drain_output s) as [s1 [|b out]]; [done|]. by apply do_write_open.
Qed.

Lemma body_turn_open s : env_open s → env_open (body_turn s).1.
Proof.
  intros Hs. unfold body_turn. pose proof (do_section_open _ _ (view_keeps (λ c, h2_closed c.1)) Hs) as H1.
  destruct (do_section _ s) as [s1 []]; [done|]. cbn [fst] in H1. apply do_read_open in H1.
  destruct (do_read s1) as [s2 [[|b d]|]]; [done| |done]. cbn [fst] in H1.
  pose proof (do_section_open _ _ (receive_bytes_keeps (b :: d)) H1) as H3.
  destruct (do_section _ s2) as [s3 rv]. case_decide; [done|]. cbn [fst] in H3.
  apply drain_turn_open in H3. destruct (drain_turn s3) as [s4 []]; [|done].
  pose proof (do_section_open _ _ (view_keeps (λ c, negb (want_read c.2) && negb (want_write c.2))) H3) as H5.
  cbn [fst] in H5. by destruct (do_section _ s4) as [s5 fin].
Qed.

Lemma run_loop_open s : env_open s → env_open (run_loop s).1.
Proof.
  intros Hs. unfold run_loop. apply (loop_inv _ _ env_open (λ r, env_open r.1)); [done|..].
  - intros s1 s2 H1. unfold run_loop_step. pose proof (body_turn_open s1 H1).
    destruct (body_turn s1) as [s3 [[]|]]; [|done]. by intros [= <-].
  - intros s1 r H1. unfold run_loop_step. pose proof (body_turn_open s1 H1).
    destruct (body_turn s1) as [s3 [[]|]]; [done|]. by intros [= <-].
Qed.

(** ** Writes that succeed *)
Definition writes_ok (s : h2_env) : Prop := Forall (λ w, w.1 = true) (e_writes s).

Lemma drain_turn_ok s : writes_ok s → writes_ok (drain_turn s).1 ∧ (drain_turn s).2 = true.
Proof.
  unfold writes_ok, drain_turn, do_section. destruct (drain_output (e_conn s)) as [[[|b out] c] es]; [done|].
  unfold do_write. cbn. destruct (e_writes s) as [|[ok o] ws]; [done|].
  by intros [? ?]%Forall_cons_1.
Qed.

Lemma run_loop_step_ok s :
  writes_ok s →
  match run_loop_step s with inl s' => writes_ok s' | inr r => r.2 = true end.
Proof.
  intros Hw. unfold run_loop_step, body_turn, do_section at 1. cbn.
  destruct (h2_closed _); [done|]. unfold do_read. cbn.
  destruct (e_reads s) as [|[d others] rs] eqn:Hr; [done|]. destruct d as [|b d]; [done|].
  unfold do_section at 1. cbn.
  destruct (receive_bytes (b :: d) (others (e_conn s))) as [[rv c] es]. case_decide; [done|].
  pose proof (drain_turn_ok (mkH2Env c rs (e_writes s) (e_wire s) ((e_effects s ++ []) ++ es)) Hw) as [Hd Ho].
  destruct (drain_turn _) as [s4 ok]. cbn in Hd, Ho. subst ok. cbn.
  by destruct (negb _ && negb _).
Qed.

Lemma run_loop_ok s : writes_ok s → (run_loop s).2 = true.
Proof.
  intros Hs. unfold run_loop. apply (loop_inv _ _ writes_ok (λ r, r.2 = true)); [done|..];
    intros s1 x H1; pose proof (run_loop_step_ok s1 H1) as Hk; intros Hx; by rewrite Hx in Hk.
Qed.

(** ** Theorems *)

(** C15. [run] always returns once the socket ends or fails: interpreted against
    any answers of the socket and any activity of other coroutines between them,
    the coroutine is equivalent to one that returns.  When it runs to its end
    (always, if no write fails) the session is closed, the socket is closed last, and
    the channel of a stream ends with end-of-file or is full: a full channel loses
    the end-of-file, and its receiver gets the frames that it holds and no end. *)
Theorem h2_run_returns (s : h2_env) :
  ∃ s' r, interp_state handle_h2 run_co s ≈ Ret (s', r) ∧
    (r = completed →
       h2_closed (e_conn s').1 = true ∧ last (e_effects s') = Some socket_close ∧
       ∀ sid st, streams (e_conn s').1 !! sid = Some st →
         last (buffered (chan st)) = Some item_eof ∨ capacity (chan st) ≤ length (buffered (chan st))) ∧
    (Forall (λ w, w.1 = true) (e_writes s) → r = completed).
Proof.
  pose proof (interp_run s) as Hi. destruct (run_env s) as [s' r] eqn:Hr. exists s', r.
  split; [exact Hi|]. unfold run_env in Hr.
  destruct (do_section (λ c, (tt, init_nghttp2 c.1, [])) s) as [s1 u] eqn:H1.
  assert (e_writes s1 = e_writes s) as Hw1 by (unfold do_section in H1; by simplify_eq).
  split.
  - intros ->. destruct (drain_turn s1) as [s2 []]; [|done]. destruct (run_loop s2) as [s3 []]; [|done].
    unfold do_section, exit_section, run_exit in Hr. injection Hr as <-. cbn.
    split_and!; [done|by rewrite last_snoc|]. intros sid st. rewrite lookup_fmap.
    destruct (streams _ !! sid) as [st0|]; [|done]. intros [= <-]. cbn [chan].
    pose proof (try_send_spec item_eof (chan st0)) as Ht. destruct (try_send item_eof (chan st0)) as [ok c].
    destruct Ht as (Hc&Ha&Hb). cbn [snd]. rewrite Hb. destruct ok.
    + left. by rewrite last_snoc.
    + right. rewrite Hc. symmetry in Ha. apply bool_decide_eq_false in Ha. lia.
  - intros Hw. rewrite <-Hw1 in Hw. destruct (drain_turn_ok s1 Hw) as [Hw2 Ho].
    destruct (drain_turn s1) as [s2 ok]. cbn in Hw2, Ho. subst ok.
    pose proof (run_loop_ok s2 Hw2) as Hl. destruct (run_loop s2) as [s3 b]. cbn in Hl. subst b.
    destruct (do_section exit_section s3). congruence.
Qed.

(** An exception of a write leaves [run] without its last part: the session
    stays open, the socket is not closed, and no channel holds end-of-file, so the
    receivers of the connection's streams wait for ever. *)
Theorem h2_run_write_error (s s' : h2_env) :
  env_open s → interp_state handle_h2 run_co s ≈ Ret (s', escaped) →
  h2_closed (e_conn s').1 = false ∧ (socket_close ∉ e_effects s') ∧
  ∀ sid st, streams (e_conn s').1 !! sid = Some st → item_eof ∉ buffered (chan st).
Proof.
  intros Hs Hr. rewrite interp_run in Hr. apply eutt_inv_Ret in Hr. unfold run_env in Hr.
  assert (env_open s') as (Hl&He&_); [|by destruct Hl].
  assert (section_keeps (λ c, (tt, init_nghttp2 c.1, []))) as Hi.
  { intros c Hc. split; [done|]. cbn. set_solver. }
  pose proof (do_section_open _ _ Hi Hs) as H1. destruct (do_section _ s) as [s1 u].
  cbn [fst] in H1. apply drain_turn_open in H1. destruct (drain_turn s1) as [s2 []]; [|by simplify_eq].
  cbn [fst] in H1. apply run_loop_open in H1. destruct (run_loop s2) as [s3 []]; [|by simplify_eq].
  by destruct (do_section _ s3).
Qed.

End run.

(** ** A small engine to run the model on

    A queue of output and of streams to pull data from. *)
#[local] Existing Instance list_channel_lib.

Definition queue_send (q : list (bytes + Z)) : activity (list (bytes + Z)) bytes :=
  match q with
  | [] => returns [] []
  | inl b :: q => returns b q
  | inr sid :: q =>
      reads_data sid 1024 (λ r, match r with read_bytes d _ => returns d q | read_deferred => returns [] q end)
  end.

Definition queue_call (e : effect) (q : list (bytes + Z)) : list (bytes + Z) :=
  match e with
  | resume_data sid => q ++ [inr sid]
  | submit_request_call _ _ => q ++ [inl (str "headers")]
  | _ => q
  end.

#[local] Instance queue_engine : Nghttp2.
Proof.
  refine {| ng := list (bytes + Z); ng_new := λ _ _ _, [inl (str "settings")];
    mem_recv := λ d q, calls_back (on_data_chunk_recv 1 d) (λ _, returns (Z.of_nat (length d)) q);
    mem_send := queue_send; ng_call := queue_call; resumes := λ _ _, true;
    request_id := λ _ _ _, 1%Z; want_read := λ _, true;
    want_write := λ q, negb (bool_decide (q = [])); output_left := λ q _, length q |}.
  intros [|[b|sid] q] h d q' h' es; cbn.
  - by intros [= <- <- _ _].
  - intros [= <- <- _ _] _. lia.
  - destruct (data_read_callback sid 1024 h) as [[d0 eof|] h1]; cbn; intros ? _; simplify_eq; lia.
Defined.

Definition demo_h2_env (writes : list bool) : h2_env :=
  mkH2Env ((submit_request (str "h") (str "/") 1 (new_h2_session Client 100)).1.2, [])
    [(str "data", id)] ((λ ok, (ok, id)) <$> writes) [] [].

Lemma h2_run_write_error_witness :
  ∃ s', interp_state handle_h2 run_co (demo_h2_env [false]) ≈ Ret (s', escaped) ∧
        h2_closed (e_conn s').1 = false.
Proof.
  eexists. assert (interp_state handle_h2 run_co (demo_h2_env [false]) ≈ Ret ((run_env (demo_h2_env [false])).1, escaped))
    as Hr by (rewrite interp_run; reflexivity).
  split; [exact Hr|]. eapply h2_run_write_error; [|exact Hr].
  split_and!; [|apply not_elem_of_nil|apply Forall_singleton; by intros c ?..].
  split; [done|]. change (streams (e_conn (demo_h2_env [false])).1) with (<[1%Z := new_stream]> (∅ : gmap Z StreamState)).
  intros sid st [[_ <-]|[_ ?]]%lookup_insert_Some; [apply not_elem_of_nil|done].
Defined.

Lemma h2_run_returns_witness :
  ∃ s', interp_state handle_h2 run_co (demo_h2_env [true]) ≈ Ret (s', completed) ∧
        h2_closed (e_conn s').1 = true.
Proof.
  destruct (h2_run_returns (demo_h2_env [true])) as (s'&r&Hr&Hc&Hw).
  assert (r = completed) as -> by (apply Hw; by apply Forall_singleton).
  exists s'. split; [exact Hr|]. by apply Hc.
Defined.
