(* ===== verification/H2Pool.v ===== *)
(** * libculpeo-transport-h2: the coroutines of a connection

    The operations of [H2Session] as coroutines ([src/h2_client.cpp]), the transport
    interface [IAsyncTransport] with [H2Transport] ([include/culpeo/async_transport.hpp],
    [src/h2_transport.cpp]), the coroutine of a stream ([src/h2_server.cpp]), and any
    number of them, with [run], on one strand.  A program logic for the sections of
    a coroutine carries invariants from sections to every execution. *)

From ITree Require Import ITree ITreeFacts.
From S2P Require Import Prelude Bytes H2Frame H2Session H2Facts H2Safety H2Run.

Local Open Scope co_scope.

Section pool.
Context {CL : ChannelLib} {NG : Nghttp2}.

Definition section (A : Type) : Type := conn → A * conn * list effect.

(** ** Operations *)

(** The calls of a section that are calls of nghttp2. *)
Definition call_nghttp2 (e : effect) (n : ng) : ng :=
  match e with
  | spawn_handler _ | drain_to_wire | socket_close | frame_queued _ _ _ => n
  | _ => ng_call e n
  end.

Definition calls (es : list effect) (n : ng) : ng := foldl (flip call_nghttp2) n es.

(** [send_frame]: [None] when the write throws. *)
Definition send_frame_section (sid : Z) (t : byte) (p : bytes) : section (expected h2_exception unit) := λ c,
  let '(r, h, es) := send_frame sid t p c.1 in
  (r, (h, calls es c.2), match r with Ok _ => frame_queued sid t p :: es | Err _ => es end).

Definition send_frame_co (sid : Z) (t : byte) (p : bytes) : itree h2E (option (expected h2_exception unit)) :=
  await r := on_strand (send_frame_section sid t p) in
  match r with
  | Err e => Ret (Some (Err e))
  | Ok _ => await ok := drain_to_wire_co in Ret (if ok : bool then Some (Ok tt) else None)
  end.

Definition receive_section (sid : Z) : section unit := λ c, (tt, ((receive_frame sid c.1).2, c.2), []).

Definition receive_frame_co (sid : Z) : itree h2E (option h2_frame) :=
  on_strand (receive_section sid) ;;; ITree.trigger (AwaitFrame sid).

(** [close_stream] and the start of [close_session]: whether the session was open. *)
Definition close_stream_section (sid code : Z) : section bool := λ c,
  if h2_closed c.1 then (false, c, [])
  else let '(h, es) := close_stream sid code (resumes sid c.2) c.1 in (true, (h, calls es c.2), es).

Definition close_stream_co (sid code : Z) : itree h2E bool :=
  await was_open := on_strand (close_stream_section sid code) in
  if was_open : bool then drain_to_wire_co else Ret true.

Definition close_begin_section : section bool := λ c,
  if h2_closed c.1 then (false, c, [])
  else let '(h, es) := close_session_begin c.1 in (true, (h, calls es c.2), es).

Definition close_end_section : section unit := λ c,
  let '(h, es) := close_session_end c.1 in (tt, (h, c.2), es).

(** [close_session], and its part after the write. *)
Definition close_session_rest : itree h2E bool := on_strand close_end_section ;;; Ret true.

Definition close_session_co : itree h2E bool :=
  await was_open := on_strand close_begin_section in
  if was_open : bool then
    await ok := drain_to_wire_co in
    if ok : bool then close_session_rest else Ret false
  else Ret true.

(** [submit_request]: [None] when the write throws. *)
Definition submit_section (host path : bytes) : section Z := λ c,
  let '(r, h, es) := submit_request host path (request_id host path c.2) c.1 in (r, (h, calls es c.2), es).

Definition submit_request_co (host path : bytes) : itree h2E (option Z) :=
  await sid := on_strand (submit_section host path) in
  if decide (sid < 0)%Z then Ret (Some (-1)%Z)
  else await ok := drain_to_wire_co in Ret (if ok : bool then Some sid else None).

(** ** Transports and handlers *)

(** [culpeo::IAsyncTransport]. *)
Record IAsyncTransport := mkTransport {
  at_send_text : bytes → itree h2E (option (expected h2_exception unit));
  at_send_binary : bytes → itree h2E (option (expected h2_exception unit));
  at_close : Z → bytes → itree h2E bool;
  at_receive_frame : itree h2E (option h2_frame);
  at_request_header : bytes → itree h2E bytes;
}.

Definition header_section (sid : Z) (name : bytes) : section bytes := λ c,
  (request_header sid name c.1, c, []).

Definition H2Transport (sid : Z) : IAsyncTransport := {|
  at_send_text frame := send_frame_co sid kTypeControl frame;
  at_send_binary frame := send_frame_co sid kTypeMedia frame;
  at_close code reason := close_stream_co sid 0;
  at_receive_frame := receive_frame_co sid;
  at_request_header name := on_strand (header_section sid name);
|}.

(** [ISessionHandler::handle]: [false] when it throws. *)
Definition ISessionHandler : Type := IAsyncTransport → itree h2E bool.

(** The coroutine spawned for a request, while the session lives: the handler, and
    then the stream is closed. *)
Definition new_stream_cb (handler : ISessionHandler) (sid : Z) : itree h2E bool :=
  handler (H2Transport sid) ;;; at_close (H2Transport sid) 0 [].

(** [PyH2SessionHandler::handle] as the strand sees it. *)
Definition drain_frames_handler : ISessionHandler := λ t,
  await at_end := ITree.iter (λ _ : unit,
    await f := at_receive_frame t in Ret (match f with Some _ => inl tt | None => inr false end)) tt in
  Ret at_end.

(** ** Sections of a coroutine

    [sections P t]: every section that [t] can come to satisfies [P]. *)
Definition sec_ok {A} (P : ∀ A, section A → Prop) (e : h2E A) : Prop :=
  match e with OnStrand f => P _ f | _ => True end.

Definition closed_under {R} (P : ∀ A, section A → Prop) (X : itree h2E R → Prop) : Prop :=
  ∀ t, X t →
    match observe t with
    | RetF _ => True
    | TauF t => X t
    | VisF e k => sec_ok P e ∧ ∀ a, X (k a)
    end.

Definition sections {R} (P : ∀ A, section A → Prop) (t : itree h2E R) : Prop :=
  ∃ X, closed_under P X ∧ X t.

Lemma sections_closed {R} P : closed_under P (sections (R := R) P).
Proof.
  intros t (X&HX&Ht). specialize (HX t Ht) as Hc. destruct (observe t) as [r|t'|A e k]; [done|by exists X|].
  destruct Hc as [He Hk]. split; [done|]. intros a. by exists X.
Qed.

Lemma sections_ret {R} P (r : R) : sections P (Ret r).
Proof. exists (λ t, ∃ r, t = Ret r). split; [|by exists r]. by intros t [r' ->]. Qed.

Lemma sections_bind {R S} P (t : itree h2E R) (k : R → itree h2E S) :
  sections P t → (∀ r, sections P (k r)) → sections P (ITree.bind t k).
Proof.
  intros Ht Hk.
  exists (λ u, (∃ t, sections P t ∧ u = ITree.bind t k) ∨ sections P u). split; [|by eauto].
  intros u [(t'&Ht'&->)|Hu].
  - cbn. pose proof (sections_closed P t' Ht') as Hc. unfold observe at 1. cbn.
    change (_observe t') with (observe t'). destruct (observe t') as [r|t1|A e k1].
    + specialize (sections_closed P _ (Hk r)) as Hr. change (_observe (k r)) with (observe (k r)).
      destruct (observe (k r)) as [|t1|A e k1]; [done|by right|]. destruct Hr as [He Hk1]. split; [done|].
      intros a. by right.
    + left. by exists t1.
    + destruct Hc as [He Hk1]. split; [done|]. intros a. left. by exists (k1 a).
  - pose proof (sections_closed P u Hu) as Hc. destruct (observe u) as [|t1|A e k1]; [done|by right|].
    destruct Hc as [He Hk1]. split; [done|]. intros a. by right.
Qed.

Lemma sections_trigger {A} P (e : h2E A) : sec_ok P e → sections P (ITree.trigger e).
Proof.
  intros He. exists (λ t, t = ITree.trigger e ∨ sections P t). split; [|by left].
  intros t [->|Ht].
  - cbn. split; [done|]. intros a. right. apply sections_ret.
  - pose proof (sections_closed P t Ht) as Hc. destruct (observe t) as [|t1|B e1 k1]; [done|by right|].
    destruct Hc as [H1 Hk1]. split; [done|]. intros a. by right.
Qed.

Lemma sections_iter {R I} P (body : I → itree h2E (I + R)) i :
  (∀ i, sections P (body i)) → sections P (ITree.iter body i).
Proof.
  intros Hb.
  set (K := λ lr : I + R, match lr with inl j => Tau (ITree.iter body j) | inr r => Ret r end).
  exists (λ u, (∃ t, sections P t ∧ u = ITree.bind t K) ∨ (∃ j, u = ITree.iter body j) ∨ ∃ r, u = Ret r).
  split; [|by eauto]. 
  assert (∀ t, sections P t → match observe (ITree.bind t K) with
    | RetF _ => True
    | TauF u => (∃ t, sections P t ∧ u = ITree.bind t K) ∨ (∃ j, u = ITree.iter body j) ∨ ∃ r, u = Ret r
    | VisF e k => sec_ok P e ∧ ∀ a, (∃ t, sections P t ∧ k a = ITree.bind t K) ∨
                                    (∃ j, k a = ITree.iter body j) ∨ ∃ r, k a = Ret r
    end) as Hbind.
  { intros t Ht. pose proof (sections_closed P t Ht) as Hc. unfold observe at 1. cbn.
    change (_observe t) with (observe t). destruct (observe t) as [[j|r]|t1|A e k1]; cbn.
    - right. left. by exists j.
    - done.
    - left. by exists t1.
    - destruct Hc as [He Hk1]. split; [done|]. intros a. left. by exists (k1 a). }
  intros u [(t&Ht&->)|[(j&->)|(r&->)]]; [by apply Hbind| |done].
  exact (Hbind (body j) (Hb j)).
Qed.

Lemma sections_on_strand {A} P (f : section A) : P _ f → sections P (on_strand f).
Proof. intros Hf. by apply sections_trigger. Qed.

Lemma sections_mono {R} (P Q : ∀ A, section A → Prop) (t : itree h2E R) :
  (∀ A f, P A f → Q A f) → sections P t → sections Q t.
Proof.
  intros HPQ (X&HX&Ht). exists X. split; [|done]. intros u Hu. specialize (HX u Hu).
  destruct (observe u) as [|t1|A e k1]; [done..|]. destruct HX as [He Hk1]. split; [|done].
  destruct e; [by apply HPQ|done..].
Qed.

(** The coroutines of a session, from what holds of their sections. *)
Lemma drain_sections (P : ∀ A, section A → Prop) : P _ drain_output → sections P drain_to_wire_co.
Proof.
  intros Hd. apply sections_bind; [by apply sections_on_strand|]. intros [|b out]; [apply sections_ret|].
  by apply sections_trigger.
Qed.

Lemma body_sections (P : ∀ A, section A → Prop) u :
  P _ drain_output → (∀ d, P _ (receive_bytes d)) → (∀ A (f : conn → A), P _ (λ c, (f c, c, []))) →
  sections P (run_body u).
Proof.
  intros Hd Hr Hf. apply sections_bind; [apply sections_on_strand, Hf|]. intros []; [apply sections_ret|].
  apply sections_bind; [by apply sections_trigger|]. intros [[|b d]|]; [apply sections_ret| |apply sections_ret].
  apply sections_bind; [apply sections_on_strand, Hr|]. intros rv. case_decide; [apply sections_ret|].
  apply sections_bind; [by apply drain_sections|]. intros []; [|apply sections_ret].
  apply sections_bind; [apply sections_on_strand, Hf|]. intros; apply sections_ret.
Qed.

Lemma send_sections (P : ∀ A, section A → Prop) sid t p :
  P _ (send_frame_section sid t p) → P _ drain_output → sections P (send_frame_co sid t p).
Proof.
  intros Hs Hd. apply sections_bind; [by apply sections_on_strand|]. intros [|]; [|apply sections_ret].
  apply sections_bind; [by apply drain_sections|]. intros; apply sections_ret.
Qed.

Lemma close_stream_sections (P : ∀ A, section A → Prop) sid code :
  P _ (close_stream_section sid code) → P _ drain_output → sections P (close_stream_co sid code).
Proof.
  intros Hs Hd. apply sections_bind; [by apply sections_on_strand|]. intros []; [|apply sections_ret].
  by apply drain_sections.
Qed.

Lemma submit_sections (P : ∀ A, section A → Prop) host path :
  P _ (submit_section host path) → P _ drain_output → sections P (submit_request_co host path).
Proof.
  intros Hs Hd. apply sections_bind; [by apply sections_on_strand|]. intros sid. case_decide; [apply sections_ret|].
  apply sections_bind; [by apply drain_sections|]. intros; apply sections_ret.
Qed.

(** ** Coroutines made of given operations

    A logic of coroutines: what holds of the parts of a sequence or loop holds of the
    whole. *)
Class CoLogic (Q : ∀ R, itree h2E R → Prop) := {
  logic_ret R (r : R) : Q R (Ret r);
  logic_bind R S (t : itree h2E R) (k : R → itree h2E S) : Q R t → (∀ r, Q S (k r)) → Q S (ITree.bind t k);
  logic_iter R I (body : I → itree h2E (I + R)) i : (∀ i, Q _ (body i)) → Q R (ITree.iter body i);
}.

#[export] Instance sections_logic P : CoLogic (λ R, @sections R P).
Proof. split; intros; [apply sections_ret|by apply sections_bind|by apply sections_iter]. Qed.

Definition transport_in (Q : ∀ R, itree h2E R → Prop) (t : IAsyncTransport) : Prop :=
  (∀ frame, Q _ (at_send_text t frame)) ∧ (∀ frame, Q _ (at_send_binary t frame)) ∧
  (∀ code reason, Q _ (at_close t code reason)) ∧ Q _ (at_receive_frame t) ∧
  (∀ name, Q _ (at_request_header t name)).

Lemma transport_sections (P : ∀ A, section A → Prop) sid :
  (∀ t p, P _ (send_frame_section sid t p)) → (∀ code, P _ (close_stream_section sid code)) →
  P _ (receive_section sid) → (∀ name, P _ (header_section sid name)) → P _ drain_output →
  transport_in (λ R, @sections R P) (H2Transport sid).
Proof.
  intros Hs Hc Hr Hh Hd. split_and!; cbn; intros;
    [by apply send_sections..|by apply close_stream_sections| |by apply sections_on_strand].
  apply sections_bind; [by apply sections_on_strand|]. intros _. by apply sections_trigger.
Qed.

(** A handler that touches the connection through its transport only. *)
Definition uses_transport (handler : ISessionHandler) : Prop :=
  ∀ Q t, CoLogic Q → transport_in Q t → Q _ (handler t).

Lemma drain_frames_uses_transport : uses_transport drain_frames_handler.
Proof.
  intros Q t HQ (_&_&_&Hr&_). apply logic_bind; [|intros; apply logic_ret]. apply logic_iter. intros _.
  apply logic_bind; [done|]. intros []; apply logic_ret.
Qed.

(** A coroutine made of the operations of the session. *)
Definition session_operations (t : itree h2E unit) : Prop :=
  ∀ Q, CoLogic Q → (∀ sid, transport_in Q (H2Transport sid)) → (∀ sid code, Q _ (close_stream_co sid code)) →
    Q _ close_session_co → (∀ host path, Q _ (submit_request_co host path)) → Q _ t.

Definition forget {R} (t : itree h2E R) : itree h2E unit := ITree.bind t (λ _, Ret tt).

Lemma logic_forget Q {R} (t : itree h2E R) : CoLogic Q → Q R t → Q _ (forget t).
Proof. intros HQ Ht. apply logic_bind; [done|]. intros r. apply logic_ret. Qed.

(** ** Coroutines on the strand *)

(** A coroutine of the connection: on the strand, or suspended. *)
Inductive co :=
| ready (t : itree h2E unit)
| reading (k : option bytes → itree h2E unit)
| writing (b : bytes) (k : bool → itree h2E unit)
| receiving (sid : Z) (k : option h2_frame → itree h2E unit)
| finished.

Definition detached {R} (t : itree h2E R) : co := ready (forget t).

Definition co_step (c : conn) (t : itree h2E unit) : conn * co * list effect :=
  match observe t with
  | RetF _ => (c, finished, [])
  | TauF t => (c, ready t, [])
  | VisF e k =>
      match e in h2E A return (A → itree h2E unit) → conn * co * list effect with
      | OnStrand f => λ k, let '(a, c', es) := f c in (c', ready (k a), es)
      | ReadSome => λ k, (c, reading k, [])
      | WriteAll b => λ k, (c, writing b k, [])
      | AwaitFrame sid => λ k, (c, receiving sid k, [])
      end k
  end.

(** A turn on the strand lasts until the coroutine suspends or ends. *)
Inductive turn : conn → itree h2E unit → conn → co → list effect → Prop :=
| turn_suspend c t c' s es : co_step c t = (c', s, es) → (∀ t', s ≠ ready t') → turn c t c' s es
| turn_more c t c1 t1 es1 c' s es :
    co_step c t = (c1, ready t1, es1) → turn c1 t1 c' s es → turn c t c' s (es1 ++ es).

Definition config : Type := conn * list co.

(** The coroutines that the callbacks of a turn spawn. *)
Definition spawned (handler : ISessionHandler) (es : list effect) : list co :=
  omap (λ e, match e with spawn_handler sid => Some (detached (new_stream_cb handler sid)) | _ => None end) es.

(** What happens: a turn of a coroutine with its calls, the end of a read, of a write
    or of a wait, for a message of the channel or without one, or a new coroutine. *)
Inductive pool_event :=
| pe_turn (i : nat) (es : list effect)
| pe_read (i : nat)
| pe_written (i : nat)
| pe_received (i : nat) (sid : Z) (r : expected unit h2_frame)
| pe_cancelled (i : nat)
| pe_spawn.

(** One step of the connection; [outside t] are coroutines that other parts of the
    program spawn.  A coroutine that waits for a frame gets the next message of its
    channel.  What it gets from a channel that has been destroyed is left open. *)
Inductive pool_step (handler : ISessionHandler) (outside : itree h2E unit → Prop)
    : config → pool_event → config → Prop :=
| step_turn c cos i t c' s es :
    cos !! i = Some (ready t) → turn c t c' s es →
    pool_step handler outside (c, cos) (pe_turn i es) (c', <[i := s]> cos ++ spawned handler es)
| step_read c cos i k r :
    cos !! i = Some (reading k) →
    pool_step handler outside (c, cos) (pe_read i) (c, <[i := ready (k r)]> cos)
| step_written c cos i b k ok :
    cos !! i = Some (writing b k) →
    pool_step handler outside (c, cos) (pe_written i) (c, <[i := ready (k ok)]> cos)
| step_received c cos i sid k r h :
    cos !! i = Some (receiving sid k) → receive_frame_end sid c.1 = (Some r, h) →
    pool_step handler outside (c, cos) (pe_received i sid r)
      ((h, c.2), <[i := ready (k (match r with Ok f => Some f | Err _ => None end))]> cos)
| step_cancelled c cos i sid k r :
    cos !! i = Some (receiving sid k) →
    pool_step handler outside (c, cos) (pe_cancelled i) (c, <[i := ready (k r)]> cos)
| step_spawn c cos t :
    outside t → pool_step handler outside (c, cos) pe_spawn (c, cos ++ [ready t]).

Definition pool_steps handler outside (w w' : config) : Prop :=
  rtc (λ w w', ∃ ev, pool_step handler outside w ev w') w w'.

(** A connection as it is accepted, when its loop has initialized nghttp2. *)
Definition accepted (max : Z) : config :=
  (init_nghttp2 (set_new_stream_handler (new_h2_session Server max)), [detached run_rest]).

(** ** Schedules *)
Fixpoint turn_for (fuel : nat) (c : conn) (t : itree h2E unit) : option (conn * co * list effect) :=
  match fuel with
  | 0 => None
  | S fuel =>
      match co_step c t with
      | (c1, ready t1, es1) => '(c', s, es) ← turn_for fuel c1 t1; Some (c', s, es1 ++ es)
      | r => Some r
      end
  end.

Inductive choice :=
| take_turn (i : nat)
| answer_read (i : nat) (r : option bytes)
| answer_write (i : nat) (ok : bool)
| answer_frame (i : nat)
| answer_closed (i : nat) (r : option h2_frame).

Definition pool_act (handler : ISessionHandler) (w : config) (a : choice) : option config :=
  let '(c, cos) := w in
  match a with
  | take_turn i =>
      match cos !! i with
      | Some (ready t) =>
          '(c', s, es) ← turn_for 100 c t; Some (c', <[i := s]> cos ++ spawned handler es)
      | _ => None
      end
  | answer_read i r =>
      match cos !! i with Some (reading k) => Some (c, <[i := ready (k r)]> cos) | _ => None end
  | answer_write i ok =>
      match cos !! i with Some (writing b k) => Some (c, <[i := ready (k ok)]> cos) | _ => None end
  | answer_frame i =>
      match cos !! i with
      | Some (receiving sid k) =>
          match receive_frame_end sid c.1 with
          | (Some r, h) =>
              Some ((h, c.2), <[i := ready (k (match r with Ok f => Some f | Err _ => None end))]> cos)
          | _ => None
          end
      | _ => None
      end
  | answer_closed i r =>
      match cos !! i with Some (receiving sid k) => Some (c, <[i := ready (k r)]> cos) | _ => None end
  end.

Definition pool_schedule (handler : ISessionHandler) (w : config) (acts : list choice) : option config :=
  foldl (λ w a, w ≫= λ w, pool_act handler w a) (Some w) acts.

Lemma turn_for_turn fuel c t c' s es : turn_for fuel c t = Some (c', s, es) → turn c t c' s es.
Proof.
  revert c t c' s es. induction fuel as [|fuel IH]; intros c t c' s es; [done|]. cbn.
  destruct (co_step c t) as [[c1 s1] es1] eqn:Hs.
  destruct s1 as [t1|k|b k|sid k|]; [|intros [= <- <- <-]; by constructor..].
  intros ([[c2 s2] es2]&Hr&[= <- <- <-])%bind_Some. eapply turn_more; eauto.
Qed.

Lemma pool_act_step handler outside w a w' :
  pool_act handler w a = Some w' → ∃ ev, pool_step handler outside w ev w'.
Proof.
  destruct w as [c cos]. destruct a as [i|i r|i ok|i|i r]; cbn [pool_act];
    destruct (cos !! i) as [[]|] eqn:Hi; try done.
  - intros ([[c2 s2] es2]&Hr%turn_for_turn&[= <-])%bind_Some. eexists. by eapply step_turn.
  - intros [= <-]. eexists. by eapply step_read.
  - intros [= <-]. eexists. by eapply step_written.
  - destruct (receive_frame_end sid c.1) as [[r|] h] eqn:Hr; [|done]. intros [= <-]. eexists. by eapply step_received.
  - intros [= <-]. eexists. by eapply step_cancelled.
Qed.

Lemma pool_schedule_steps handler outside w acts w' :
  pool_schedule handler w acts = Some w' → pool_steps handler outside w w'.
Proof.
  unfold pool_schedule. revert w'. induction acts as [|a acts IH] using rev_ind; intros w'; simpl.
  - intros [= <-]. apply rtc_refl.
  - rewrite foldl_app. simpl. intros (w1&H1%IH&H2%(pool_act_step handler outside))%bind_Some.
    by eapply rtc_r.
Qed.

(** The configuration at the end of a schedule. *)
Lemma pool_schedule_reaches handler outside w acts (P : config → bool) :
  from_option P false (pool_schedule handler w acts) = true →
  ∃ w', pool_steps handler outside w w' ∧ P w' = true.
Proof.
  destruct (pool_schedule handler w acts) as [w'|] eqn:Hw; simpl; [|done]. intros HP. exists w'.
  split; [by eapply pool_schedule_steps|done].
Qed.

(** ** Waiting for the socket *)

(** The loop of a connection, from one read to its end when the read fails. *)
Lemma run_reads :
  ∃ k, (∀ c, h2_closed c.1 = false → turn c (forget run_from_loop) c (reading k) []) ∧
       ∀ c, turn c (k None) (exit_section c).1.2 finished (exit_section c).2.
Proof.
  eexists. split.
  - intros c Hc. change (@nil effect) with (@nil effect ++ []).
    eapply turn_more; [unfold co_step; cbn; rewrite Hc; reflexivity|]. apply turn_suspend; [reflexivity|done].
  - intros c. rewrite <-(app_nil_r (exit_section c).2). eapply turn_more; [unfold co_step; cbn; reflexivity|].
    apply turn_suspend; [reflexivity|done].
Qed.

(** Only an answer of the socket ends a read. *)
Lemma pool_step_waits hdl outside w ev w' i k :
  pool_step hdl outside w ev w' → w.2 !! i = Some (reading k) → ev ≠ pe_read i → w'.2 !! i = Some (reading k).
Proof.
  assert (∀ (cos : list co) j s, cos !! i = Some (reading k) → j ≠ i → <[j := s]> cos !! i = Some (reading k)) as Hins.
  { intros cos j s Hi Hne. by rewrite list_lookup_insert_ne. }
  destruct 1 as [c cos j t c' s es Hj _|c cos j k' r Hj|c cos j b k' ok Hj|c cos j sid k' r h Hj _
    |c cos j sid k' r Hj|c cos t _]; cbn [snd]; intros Hi Hev.
  - apply lookup_app_l_Some, Hins; [done|]. intros ->. by rewrite Hi in Hj.
  - apply Hins; [done|]. by intros ->.
  - apply Hins; [done|]. intros ->. by rewrite Hi in Hj.
  - apply Hins; [done|]. intros ->. by rewrite Hi in Hj.
  - apply Hins; [done|]. intros ->. by rewrite Hi in Hj.
  - by apply lookup_app_l_Some.
Qed.

(** ** Carrying a property of sections to executions

    [Inv] is kept by the sections that satisfy [P]. *)
Definition co_sections (P : ∀ A, section A → Prop) (s : co) : Prop :=
  match s with
  | ready t => sections P t
  | reading k => ∀ r, sections P (k r)
  | writing _ k => ∀ r, sections P (k r)
  | receiving _ k => ∀ r, sections P (k r)
  | finished => True
  end.

Lemma sections_forget {R} P (t : itree h2E R) : sections P t → sections P (forget t).
Proof. intros Ht. apply sections_bind; [done|]. intros r. apply sections_ret. Qed.

Lemma co_step_sections P c t c' s es :
  sections P t → co_step c t = (c', s, es) →
  co_sections P s ∧ (c' = c ∨ ∃ A (f : section A) a, P A f ∧ f c = (a, c', es)).
Proof.
  intros Ht. pose proof (sections_closed P t Ht) as Hc. unfold co_step.
  destruct (observe t) as [r|t1|A e k]; [by intros [= <- <- <-]; eauto..|]. destruct Hc as [He Hk].
  destruct e as [A f| |b|sid]; [|intros [= <- <- <-]; split; eauto..].
  destruct (f c) as [[a c1] es1] eqn:Hf. intros [= <- <- <-]. split; [apply Hk|]. right.
  by exists A, f, a.
Qed.

(** A preorder on connections that every section follows. *)
Definition follows (P : ∀ A, section A → Prop) (Rel : relation conn) : Prop :=
  ∀ A (f : section A) c, P A f → Rel c (f c).1.2.

Lemma turn_follows P Rel c t c' s es :
  PreOrder Rel → follows P Rel → sections P t → turn c t c' s es → Rel c c' ∧ co_sections P s.
Proof.
  intros [Hrefl Htrans] HR Ht Hturn.
  assert (∀ c t c' s es, sections P t → co_step c t = (c', s, es) → Rel c c') as Hone.
  { clear c t c' s es Ht Hturn. intros c t c' s es Ht Hs.
    destruct (co_step_sections _ _ _ _ _ _ Ht Hs) as [_ [->|(A&f&a&Hf&Hc)]]; [apply Hrefl|].
    specialize (HR A f c Hf). by rewrite Hc in HR. }
  induction Hturn as [c t c' s es Hs _|c t c1 t1 es1 c' s es Hs Hturn IH].
  - split; [by eapply Hone|]. by eapply co_step_sections.
  - destruct IH as [H1 H2]; [by eapply (co_step_sections P _ _ _ (ready t1))|].
    split; [|done]. eapply Htrans; [by eapply Hone|done].
Qed.

(** What the handler and the coroutines from outside are made of. *)
Class Composed (P : ∀ A, section A → Prop) (handler : ISessionHandler)
    (outside : itree h2E unit → Prop) := {
  composed_handler sid : sections P (new_stream_cb handler sid);
  composed_outside t : outside t → sections P t;
}.

Lemma spawned_sections P handler outside `{!Composed P handler outside} es :
  Forall (co_sections P) (spawned handler es).
Proof.
  induction es as [|e es IH]; [constructor|]. unfold spawned. cbn [omap list_omap].
  destruct e; try exact IH. constructor; [|exact IH]. apply sections_forget, composed_handler.
Qed.

Lemma pool_step_follows P Rel handler outside `{!Composed P handler outside} w ev w' :
  PreOrder Rel → follows P Rel →
  (∀ c sid, Rel c ((receive_frame_end sid c.1).2, c.2)) →
  pool_step handler outside w ev w' → Forall (co_sections P) w.2 →
  Rel w.1 w'.1 ∧ Forall (co_sections P) w'.2.
Proof.
  intros HRel HR Hrecv Hstep Hcos.
  assert (∀ c, Rel c c) as Hrefl by (intros; reflexivity).
  assert (∀ cos i s, Forall (co_sections P) cos → cos !! i = Some s → co_sections P s) as Hget.
  { intros cos i s Hc Hi. rewrite Forall_lookup in Hc. eauto. }
  destruct Hstep as [c cos i t c' s es Hi Ht|c cos i k r Hi|c cos i b k ok Hi|c cos i sid k r h Hi Hr
    |c cos i sid k r Hi|c cos t Ht]; cbn [fst snd] in *.
  - destruct (turn_follows P Rel c t c' s es HRel HR) as [H1 H2]; [by eapply (Hget _ _ (ready t))|done|].
    split; [done|]. apply Forall_app. split; [by apply Forall_insert|by eapply spawned_sections].
  - split; [done|]. apply Forall_insert; [done|]. by apply (Hget cos i (reading k)).
  - split; [done|]. apply Forall_insert; [done|]. by apply (Hget cos i (writing b k)).
  - split; [|apply Forall_insert; [done|]; by apply (Hget cos i (receiving sid k))].
    specialize (Hrecv c sid). by rewrite Hr in Hrecv.
  - split; [done|]. apply Forall_insert; [done|]. by apply (Hget cos i (receiving sid k)).
  - split; [done|]. apply Forall_app. split; [done|]. apply Forall_singleton. by apply composed_outside.
Qed.

Lemma pool_steps_follow P Rel handler outside `{!Composed P handler outside} w w' :
  PreOrder Rel → follows P Rel →
  (∀ c sid, Rel c ((receive_frame_end sid c.1).2, c.2)) →
  pool_steps handler outside w w' → Forall (co_sections P) w.2 →
  Rel w.1 w'.1 ∧ Forall (co_sections P) w'.2.
Proof.
  intros HRel HR Hrecv Hsteps. induction Hsteps as [w|w1 w2 w3 [ev Hs] _ IH]; intros Hcos.
  - split; [reflexivity|done].
  - destruct (pool_step_follows P Rel handler outside _ _ _ HRel HR Hrecv Hs Hcos) as [H1 H2].
    destruct (IH H2) as [H3 H4]. split; [by etrans|done].
Qed.
End pool.

Create HintDb co.
#[export] Hint Resolve sections_ret sections_bind sections_iter sections_on_strand : co.
