(* ===== verification/H2Open.v ===== *)
(** * libculpeo-transport-h2: who ends a session

    Sections that leave a session open, a program logic for coroutines that say
    something of their results, and the protocol of [run]: its coroutine leaves the
    session open until a section after which it does nothing but return.  So, in any
    execution without [close_session], a session is open as long as its loop runs. *)

From ITree Require Import ITree ITreeFacts.
From S2P Require Import Prelude Bytes H2Frame H2Session H2Facts H2Safety H2Run H2Pool.

Local Open Scope co_scope.

Section open.
Context {CL : ChannelLib} {NG : Nghttp2}.

(** ** Results of a coroutine

    [results Q t]: every result that [t] can come to satisfies [Q]. *)
Definition results_closed {R} (Q : R → Prop) (X : itree h2E R → Prop) : Prop :=
  ∀ t, X t →
    match observe t with
    | RetF r => Q r
    | TauF t => X t
    | VisF _ k => ∀ a, X (k a)
    end.

Definition results {R} (Q : R → Prop) (t : itree h2E R) : Prop := ∃ X, results_closed Q X ∧ X t.

Lemma results_unfold {R} (Q : R → Prop) (t : itree h2E R) :
  results Q t →
  match observe t with RetF r => Q r | TauF t => results Q t | VisF _ k => ∀ a, results Q (k a) end.
Proof.
  intros (X&HX&Ht). specialize (HX t Ht) as Hc. destruct (observe t); [done|by exists X|]. intros a. by exists X.
Qed.

Lemma results_ret {R} (Q : R → Prop) r : Q r → results Q (Ret r).
Proof. intros Hr. exists (λ t, t = Ret r). split; [|done]. by intros t ->. Qed.

Lemma results_bind {R S} (Q : S → Prop) (P : R → Prop) (t : itree h2E R) (k : R → itree h2E S) :
  results P t → (∀ r, P r → results Q (k r)) → results Q (ITree.bind t k).
Proof.
  intros Ht Hk. exists (λ u, (∃ t, results P t ∧ u = ITree.bind t k) ∨ results Q u). split; [|by eauto].
  assert (∀ u, results Q u → match observe u with
    | RetF r => Q r
    | TauF u => (∃ t, results P t ∧ u = ITree.bind t k) ∨ results Q u
    | VisF _ k1 => ∀ a, (∃ t, results P t ∧ k1 a = ITree.bind t k) ∨ results Q (k1 a)
    end) as Hq.
  { intros u Hu%results_unfold. destruct (observe u); [done|by right|]. intros a. by right. }
  intros u [(t'&Ht'&->)|Hu]; [|by apply Hq].
  apply results_unfold in Ht'. cbn. unfold observe at 1. cbn. change (_observe t') with (observe t').
  destruct (observe t') as [r|t1|A e k1].
  - change (_observe (k r)) with (observe (k r)). by apply Hq, Hk.
  - left. by exists t1.
  - intros a. left. by exists (k1 a).
Qed.

Lemma results_trigger {A} (e : h2E A) : results (λ _, True) (ITree.trigger e).
Proof. by exists (λ _, True); split; [intros t _; by destruct (observe t)|]. Qed.

Lemma results_drain : results (λ _, True) drain_to_wire_co.
Proof. by exists (λ _, True); split; [intros t _; by destruct (observe t)|]. Qed.

(** ** Sections that leave the session open *)
Definition leaves_open (A : Type) (f : section A) : Prop := section_keeps f.

Lemma leaves_open_view {A} (f : conn → A) : leaves_open A (λ c, (f c, c, [])).
Proof. apply view_keeps. Qed.

Lemma leaves_open_send sid t p : leaves_open _ (send_frame_section sid t p).
Proof.
  intros [h n] Hl. unfold send_frame_section, send_frame. cbn [fst snd] in *.
  rewrite (proj1 Hl). case_decide; [split; [done|set_solver]|].
  destruct (encode_h2_envelope t p); [|split; [done|set_solver]]. unfold enqueue_send.
  destruct (listening_get sid h Hl) as [H1 Hst]. destruct (get_or_create_stream sid h) as [st h1].
  cbn [fst snd] in *. split; [by apply listening_put|]. destruct (send_pending st); set_solver.
Qed.

Lemma leaves_open_receive sid : leaves_open _ (receive_section sid).
Proof.
  intros [h n] Hl. unfold receive_section, receive_frame. cbn [fst snd] in *.
  destruct (listening_get sid h Hl) as [H1 _]. destruct (get_or_create_stream sid h).
  split; [exact H1|set_solver].
Qed.

Lemma leaves_open_close_stream sid code : leaves_open _ (close_stream_section sid code).
Proof.
  intros [h n] Hl. unfold close_stream_section, close_stream. cbn [fst snd] in *. rewrite (proj1 Hl).
  destruct (streams h !! sid) as [st|] eqn:Hs; [|split; [exact Hl|set_solver]].
  split; [|destruct (resumes sid n); set_solver].
  apply listening_put; [exact Hl|]. cbn. exact (proj2 Hl sid st Hs).
Qed.

Lemma leaves_open_submit host path : leaves_open _ (submit_section host path).
Proof.
  intros [h n] Hl. unfold submit_section, submit_request. cbn [fst snd] in *.
  case_decide; cbn [fst snd]; (split; [|set_solver]); [done|by apply listening_get].
Qed.

Lemma listening_received sid h : listening h → listening (receive_frame_end sid h).2.
Proof.
  intros Hl. unfold receive_frame_end. destruct (streams h !! sid) as [st|] eqn:Hs; [|done].
  pose proof (async_receive_spec (chan st)) as Hr. destruct (async_receive (chan st)) as [[i c]|]; [|done].
  destruct Hr as [Hb _]. apply (proj2 Hl) in Hs. rewrite Hb in Hs.
  apply listening_put; [done|]. cbn [chan]. set_solver.
Qed.

(** Coroutines made of the operations of the session other than [close_session]. *)
Definition stream_operations (t : itree h2E unit) : Prop :=
  ∀ Q, CoLogic Q → (∀ sid, transport_in Q (H2Transport sid)) → (∀ sid code, Q _ (close_stream_co sid code)) →
    (∀ host path, Q _ (submit_request_co host path)) → Q _ t.

Lemma transport_leaves_open sid : transport_in (λ R, @sections _ NG R leaves_open) (H2Transport sid).
Proof.
  apply transport_sections; intros; [apply leaves_open_send|apply leaves_open_close_stream|
    apply leaves_open_receive|apply leaves_open_view|apply drain_output_keeps].
Qed.

Lemma stream_operations_leave_open t : stream_operations t → sections leaves_open t.
Proof.
  intros Ht. apply (Ht (λ R, @sections _ NG R leaves_open)); [apply _|apply transport_leaves_open|intros..].
  - apply close_stream_sections; [apply leaves_open_close_stream|apply drain_output_keeps].
  - apply submit_sections; [apply leaves_open_submit|apply drain_output_keeps].
Qed.

(** ** The protocol of the loop

    [over t]: [t] only returns.  [protocol t]: a section of [t] leaves the session
    open, or [t] is over after it. *)
Definition over_closed {R} (X : itree h2E R → Prop) : Prop :=
  ∀ t, X t → match observe t with RetF _ => True | TauF t => X t | VisF _ _ => False end.

Definition over {R} (t : itree h2E R) : Prop := ∃ X, over_closed X ∧ X t.

Lemma over_unfold {R} (t : itree h2E R) :
  over t → match observe t with RetF _ => True | TauF t => over t | VisF _ _ => False end.
Proof. intros (X&HX&Ht). specialize (HX t Ht) as Hc. destruct (observe t); [done|by exists X|done]. Qed.

Definition protocol_closed {R} (X : itree h2E R → Prop) : Prop :=
  ∀ t, X t →
    match observe t with
    | RetF _ => True
    | TauF t => X t
    | VisF e k => (sec_ok leaves_open e ∧ ∀ a, X (k a)) ∨ ∀ a, over (k a)
    end.

Definition protocol {R} (t : itree h2E R) : Prop := ∃ X, protocol_closed X ∧ X t.

Lemma protocol_unfold {R} (t : itree h2E R) :
  protocol t →
  match observe t with
  | RetF _ => True
  | TauF t => protocol t
  | VisF e k => (sec_ok leaves_open e ∧ ∀ a, protocol (k a)) ∨ ∀ a, over (k a)
  end.
Proof.
  intros (X&HX&Ht). specialize (HX t Ht) as Hc. destruct (observe t); [done|by exists X|].
  destruct Hc as [[He Hk]|Hk]; [left|by right]. split; [done|]. intros a. by exists X.
Qed.

Lemma over_observe {R} (t : itree h2E R) r : observe t = RetF r → over t.
Proof. intros Ht. exists (λ t, observe t = RetF r). split; [|done]. by intros u ->. Qed.

Lemma protocol_ret {R} (r : R) : protocol (Ret r).
Proof. exists (λ t, t = Ret r). split; [|done]. by intros t ->. Qed.

(** The first part of a sequence leaves the session open. *)
Lemma protocol_bind {R S} (t : itree h2E R) (k : R → itree h2E S) :
  sections leaves_open t → (∀ r, protocol (k r)) → protocol (ITree.bind t k).
Proof.
  intros Ht Hk.
  exists (λ u, (∃ t, sections leaves_open t ∧ u = ITree.bind t k) ∨ protocol u). split; [|by eauto].
  assert (∀ u, protocol u → match observe u with
    | RetF _ => True
    | TauF u => (∃ t, sections leaves_open t ∧ u = ITree.bind t k) ∨ protocol u
    | VisF e k1 => (sec_ok leaves_open e ∧ ∀ a, (∃ t, sections leaves_open t ∧ k1 a = ITree.bind t k) ∨
                      protocol (k1 a)) ∨ ∀ a, over (k1 a)
    end) as Hp.
  { intros u Hu%protocol_unfold. destruct (observe u); [done|by right|].
    destruct Hu as [[He Hu]|Hu]; [left|by right]. split; [done|]. intros a. by right. }
  intros u [(t'&Ht'&->)|Hu]; [|by apply Hp].
  pose proof (sections_closed _ t' Ht') as Hc. cbn. unfold observe at 1. cbn.
  change (_observe t') with (observe t'). destruct (observe t') as [r|t1|A e k1].
  - change (_observe (k r)) with (observe (k r)). apply Hp, Hk.
  - left. by exists t1.
  - destruct Hc as [He Hk1]. left. split; [done|]. intros a. left. by exists (k1 a).
Qed.

(** A coroutine that ends with a section. *)
Lemma protocol_last {A R} (f : section A) (r : R) : protocol (on_strand f ;;; Ret r).
Proof.
  exists (λ t, t = (on_strand f ;;; Ret r)). split; [|done]. intros t ->. right. intros a.
  by apply (over_observe _ r).
Qed.

Lemma over_forget {R} (t : itree h2E R) : over t → over (forget t).
Proof.
  intros Ht. exists (λ u, observe u = RetF tt ∨ ∃ t : itree h2E R, over t ∧ u = forget t). split; [|by eauto].
  intros u [Hu|(t'&Ht'%over_unfold&->)]; [by rewrite Hu|].
  unfold forget, observe at 1. cbn. change (_observe t') with (observe t').
  destruct (observe t') as [r|t1|A e k]; [done| |done]. right. by exists t1.
Qed.

Lemma protocol_forget {R} (t : itree h2E R) : protocol t → protocol (forget t).
Proof.
  intros Ht. exists (λ u, observe u = RetF tt ∨ ∃ t : itree h2E R, protocol t ∧ u = forget t). split; [|by eauto].
  intros u [Hu|(t'&Ht'%protocol_unfold&->)]; [by rewrite Hu|].
  unfold forget, observe at 1. cbn. change (_observe t') with (observe t').
  destruct (observe t') as [r|t1|A e k]; [done|right; by exists t1|].
  destruct Ht' as [[He Hk]|Hk]; [left|right].
  - split; [done|]. intros a. right. by exists (k a).
  - intros a. by apply (over_forget (k a)).
Qed.

Lemma leaves_open_init : leaves_open _ (λ c, (tt, init_nghttp2 c.1, [])).
Proof. intros c Hc. split; [done|]. cbn. set_solver. Qed.

Lemma run_protocol : protocol (forget run_co).
Proof.
  apply protocol_forget, protocol_bind; [apply sections_on_strand, leaves_open_init|]. intros _.
  apply protocol_bind; [apply drain_sections, drain_output_keeps|]. intros []; [|apply protocol_ret].
  apply protocol_bind; [|intros []; [apply protocol_last|apply protocol_ret]].
  apply sections_iter. intros u. apply body_sections; [apply drain_output_keeps|apply receive_bytes_keeps|
    intros; apply leaves_open_view].
Qed.

(** ** Executions *)

(** The loop's coroutine while it leaves the session open. *)
Definition co_protocol (s : co) : Prop :=
  match s with
  | ready t => protocol t
  | reading k => ∀ r, protocol (k r)
  | writing _ k => ∀ r, protocol (k r)
  | receiving _ k => ∀ r, protocol (k r)
  | finished => False
  end.

(** The session is open, or its loop, the first coroutine, has returned. *)
Definition open_while_running (w : config) : Prop :=
  ∃ s cos, w.2 = s :: cos ∧ Forall (co_sections leaves_open) cos ∧
    (listening w.1.1 ∧ co_protocol s ∨ s = finished).

Lemma over_protocol {R} (t : itree h2E R) : over t → protocol t.
Proof.
  intros Ht. exists over. split; [|done]. intros u Hu%over_unfold. by destruct (observe u).
Qed.

Lemma turn_over c t c' s es : turn c t c' s es → over t → s = finished.
Proof.
  induction 1 as [c t c' s es Hs Hend|c t c1 t1 es1 c' s es Hs Hturn IH]; intros Ht%over_unfold;
    unfold co_step in Hs; destruct (observe t) as [r|t2|A e k]; try done; simplify_eq; auto.
  by destruct (Hend t2).
Qed.

Lemma co_step_protocol c t c' s es :
  co_step c t = (c', s, es) → protocol t → listening c.1 →
  listening c'.1 ∧ co_protocol s ∨ s = finished ∨ ∃ t', s = ready t' ∧ over t'.
Proof.
  intros Hs Ht%protocol_unfold Hl. unfold co_step in Hs.
  destruct (observe t) as [r|t1|A e k]; [simplify_eq; auto..|].
  destruct e as [A f| |b|sid]; [|simplify_eq; left; split; [done|]; intros a;
    destruct Ht as [[_ Hk]|Hk]; [done|by apply over_protocol]..].
  destruct Ht as [[Hf Hk]|Hk]; destruct (f c) as [[a c1] es1] eqn:Hr; simplify_eq; [left|eauto].
  specialize (Hf c Hl). rewrite Hr in Hf. split; [by apply Hf|apply Hk].
Qed.

Lemma turn_protocol c t c' s es :
  turn c t c' s es → protocol t → listening c.1 → listening c'.1 ∧ co_protocol s ∨ s = finished.
Proof.
  induction 1 as [c t c' s es Hs Hend|c t c1 t1 es1 c' s es Hs Hturn IH]; intros Ht Hl;
    destruct (co_step_protocol _ _ _ _ _ Hs Ht Hl) as [[H1 H2]|[H1|(t2&H1&H2)]]; auto.
  - by destruct (Hend t2).
  - done.
  - simplify_eq. right. by eapply turn_over.
Qed.

Definition stays_listening (c c' : conn) : Prop := listening c.1 → listening c'.1.

#[export] Instance stays_listening_preorder : PreOrder stays_listening.
Proof. unfold stays_listening. split; [by intros c|]. intros c1 c2 c3; auto. Qed.

Lemma follows_listening : follows leaves_open stays_listening.
Proof. intros A f c Hf Hl. by apply Hf. Qed.

(** A step of one coroutine, which may spawn others. *)
Lemma open_replace (c c' : conn) cos i s s' new :
  open_while_running (c, cos) → cos !! i = Some s → s ≠ finished →
  (co_protocol s → listening c.1 → listening c'.1 ∧ co_protocol s' ∨ s' = finished) →
  (co_sections leaves_open s → stays_listening c c' ∧ co_sections leaves_open s') →
  Forall (co_sections leaves_open) new → open_while_running (c', <[i := s']> cos ++ new).
Proof.
  intros (s0&rest&[= ->]&Hrest&H0) Hi Hs Hloop Hco Hnew. destruct i as [|i]; cbn in Hi.
  - injection Hi as ->. destruct H0 as [[Hl Hp]|]; [|done]. exists s', (rest ++ new).
    split_and!; [done|by apply Forall_app|]. by apply Hloop.
  - rewrite Forall_lookup in Hrest. destruct (Hco (Hrest i s Hi)) as [Hc Hs'].
    exists s0, (<[i := s']> rest ++ new). split_and!; [done| |].
    + apply Forall_app. split; [|done]. apply Forall_insert; [|done]. by apply Forall_lookup.
    + destruct H0 as [[Hl Hp]| ->]; [left|by right]. split; [by apply Hc|done].
Qed.

(** What a coroutine of the session, not one of these, does on the strand. *)
Lemma open_grow (c c' : conn) cos new :
  open_while_running (c, cos) → stays_listening c c' → Forall (co_sections leaves_open) new →
  open_while_running (c', cos ++ new).
Proof.
  intros (s0&rest&[= ->]&Hrest&H0) Hc Hnew. exists s0, (rest ++ new). split_and!; [done|by apply Forall_app|].
  destruct H0 as [[Hl Hp]|H0]; [left|by right]. split; [by apply Hc|done].
Qed.

(** The answer to a suspended coroutine, as [h] leaves the session. *)
Lemma open_answer (c c' : conn) cos i s t :
  open_while_running (c, cos) → cos !! i = Some s → s ≠ finished → stays_listening c c' →
  (co_protocol s → protocol t) → (co_sections leaves_open s → sections leaves_open t) →
  open_while_running (c', <[i := ready t]> cos).
Proof.
  intros Hw Hi Hs Hc Hp Ht. rewrite <-(app_nil_r (<[i := ready t]> cos)).
  apply (open_replace c c' cos i s (ready t) [] Hw Hi Hs); [|intros Hk; split; [exact Hc|exact (Ht Hk)]|by apply Forall_nil].
  intros H1 H2. left. split; [by apply Hc|by apply Hp].
Qed.

(** Sessions without a callback for new streams, as a client's. *)
Definition no_handler : ISessionHandler := λ _, Ret false.

Lemma composed_leaves_open outside (Ho : ∀ t, outside t → stream_operations t) :
  Composed leaves_open no_handler outside.
Proof.
  split; [|intros t Ht; by apply stream_operations_leave_open, Ho].
  intros sid. apply sections_bind; [apply sections_ret|]. intros _.
  apply (transport_leaves_open sid).
Qed.

Section executions.
Context (outside : itree h2E unit → Prop) (Hout : ∀ t, outside t → stream_operations t).

#[local] Instance composed_here : Composed leaves_open no_handler outside := composed_leaves_open outside Hout.

Lemma pool_step_open w ev w' :
  pool_step no_handler outside w ev w' → open_while_running w → open_while_running w'.
Proof.
  assert (∀ c, stays_listening c c) as Hrefl by (intros c Hl; exact Hl).
  destruct 1 as [c cos i t c' s es Hi Ht|c cos i k r Hi|c cos i b k ok Hi|c cos i sid k r h Hi Hr
    |c cos i sid k r Hi|c cos t Ht]; intros Hw.
  - eapply open_replace; [exact Hw|exact Hi|done| | |exact (spawned_sections leaves_open no_handler outside es)].
    + cbn. intros Hp Hl. by eapply turn_protocol.
    + intros Hs. apply (turn_follows leaves_open _ c t c' s es _ follows_listening Hs Ht).
  - apply (open_answer c c cos i _ _ Hw Hi); auto; intros Hk; apply Hk.
  - apply (open_answer c c cos i _ _ Hw Hi); auto; intros Hk; apply Hk.
  - apply (open_answer c (h, c.2) cos i _ _ Hw Hi); auto; [|intros Hk; apply Hk..].
    intros Hl. pose proof (listening_received sid c.1 Hl) as Hl'. by rewrite Hr in Hl'.
  - apply (open_answer c c cos i _ _ Hw Hi); auto; intros Hk; apply Hk.
  - destruct Hw as (s0&rest&[= ->]&Hrest&H0). exists s0, (rest ++ [ready t]). split_and!; [done| |exact H0].
    apply Forall_app. split; [done|]. apply Forall_singleton. by apply composed_outside.
Qed.

Lemma pool_steps_open w w' :
  pool_steps no_handler outside w w' → open_while_running w → open_while_running w'.
Proof. induction 1 as [|w1 w2 w3 [ev Hs] _ IH]; [done|]. intros Hw. by eapply IH, pool_step_open. Qed.

(** The loop does not run again. *)
Lemma pool_step_over w ev w' :
  pool_step no_handler outside w ev w' → w.2 !! 0 = Some finished → w'.2 !! 0 = Some finished.
Proof.
  destruct 1 as [c [|s0 cos] [|i] t c' s es Hi Ht|c [|s0 cos] [|i] k r Hi|c [|s0 cos] [|i] b k ok Hi
    |c [|s0 cos] [|i] sid k r h Hi Hr|c [|s0 cos] [|i] sid k r Hi|c [|s0 cos] t Ht]; cbn; intros; by simplify_eq/=.
Qed.
End executions.
End open.
