(* ===== verification/H2View.v ===== *)
(** * libculpeo-transport-h2: the stream table of a server

    What every operation and callback of [H2Session] does to the stream table of a
    server, without assumptions on the application: the invariant, and the entries
    whose stream is over. *)

From S2P Require Import Prelude Bytes H2Frame H2Session H2Facts H2Safety H2Theorems H2Run.

(** What the invariant speaks of: the session, the streams that nghttp2 has open,
    and the greatest identifier of a request so far. *)
Section view.
Context {CL : ChannelLib}.

Definition view : Type := H2Session * gset Z * Z.

Definition track_last (ev : h2_event) (h : H2Session) (l : Z) : Z :=
  match ev with
  | ev_begin_headers f => if is_request f h then hd_stream_id f else l
  | _ => l
  end.

(** Identifiers of requests increase: none is used twice. *)
Definition fresh_request (ev : h2_event) (h : H2Session) (l : Z) : Prop :=
  match ev with
  | ev_begin_headers f => is_request f h = true → (l < hd_stream_id f)%Z
  | _ => True
  end.

(** What nghttp2 guarantees for its callbacks. *)
Definition callback_allowed (cb : ng_callback) (v : view) : Prop :=
  let '(h, open, l) := v in allowed (as_event cb) h open ∧ fresh_request (as_event cb) h l.

Definition after (cb : ng_callback) (v : view) : view :=
  let '(h, open, l) := v in
  ((h2_apply (as_event cb) h).1, track (as_event cb) h open, track_last (as_event cb) h l).

(** ** The invariant *)
Definition view_inv (v : view) : Prop :=
  let '(h, open, l) := v in
  mode h = Server ∧ refused_streams h ⊆ open ∧ open ⊆ dom (streams h) ∪ refused_streams h ∧
  (Z.of_nat (size (open ∖ refused_streams h)) ≤ max_concurrent_streams h)%Z ∧
  ∀ sid, sid ∈ open → (sid ≤ l)%Z.

(** An entry of the table whose stream is over. *)
Definition stale (sid : Z) (v : view) : Prop :=
  let '(h, open, l) := v in sid ∈ dom (streams h) ∧ (sid ∉ open) ∧ (sid ≤ l)%Z.

Definition evolves (v v' : view) : Prop :=
  max_concurrent_streams v'.1.1 = max_concurrent_streams v.1.1 ∧
  (h2_closed v.1.1 = true → h2_closed v'.1.1 = true) ∧
  ∀ sid, stale sid v → stale sid v'.

Definition keeps (v v' : view) : Prop := view_inv v → view_inv v' ∧ evolves v v'.

#[export] Instance keeps_preorder : PreOrder keeps.
Proof.
  split.
  - intros v Hv. by split.
  - intros v1 v2 v3 H12 H23 Hv1. destruct (H12 Hv1) as [Hv2 (?&?&?)]. destruct (H23 Hv2) as [Hv3 (?&?&?)].
    split; [done|]. split_and!; [congruence|auto..].
Qed.

(** Operations that only add entries. *)
Definition grows (h h' : H2Session) : Prop :=
  mode h' = mode h ∧ max_concurrent_streams h' = max_concurrent_streams h ∧
  refused_streams h' = refused_streams h ∧ dom (streams h) ⊆ dom (streams h') ∧
  (h2_closed h = true → h2_closed h' = true).

Lemma grows_keeps h h' open l : grows h h' → keeps (h, open, l) (h', open, l).
Proof.
  intros (Hm&Hx&Hr&Hd&Hc) (?&?&?&?&?). unfold view_inv, evolves, stale. cbn. rewrite Hm, Hx, Hr.
  split_and!; [done|done|set_solver|done|done|done|done|]. intros sid (?&?&?). split_and!; [set_solver|done..].
Qed.

Lemma grows_refl h : grows h h.
Proof. done. Qed.

Lemma grows_trans h1 h2 h3 : grows h1 h2 → grows h2 h3 → grows h1 h3.
Proof. intros (?&?&?&?&?) (?&?&?&?&?). split_and!; [congruence..|set_solver|auto]. Qed.

Lemma grows_same h h' :
  same_table h h' → (h2_closed h = true → h2_closed h' = true) → grows h h'.
Proof. intros (?&?&?&Hd) Hc. split_and!; [done..|by rewrite Hd|done]. Qed.

Lemma grows_put sid st h : grows h (put_stream sid st h).
Proof. split_and!; [done..| |done]. cbn. rewrite dom_insert_L. set_solver. Qed.

Lemma grows_get sid h : grows h (get_or_create_stream sid h).2.
Proof.
  unfold get_or_create_stream. destruct (streams h !! sid); [done|]. split_and!; [done..| |done].
  cbn. rewrite dom_insert_L. set_solver.
Qed.

Lemma grows_send sid t p h : grows h (send_frame sid t p h).1.2.
Proof.
  unfold send_frame, enqueue_send. destruct (h2_closed h); [done|]. case_decide; [done|].
  destruct (encode_h2_envelope t p); [|done]. pose proof (grows_get sid h) as Hg.
  destruct (get_or_create_stream sid h) as [st h1]. cbn [fst snd] in *.
  eapply grows_trans; [exact Hg|apply grows_put].
Qed.

Lemma grows_apply ev h :
  match ev with ev_begin_headers _ | ev_frame_recv _ | ev_data _ _ | ev_stream_close _ => False | _ => True end →
  grows h (h2_apply ev h).1.
Proof.
  intros Hev. pose proof (h2_closed_apply ev h) as Hc.
  destruct ev; try done; cbn [h2_apply fst] in Hc |- *.
  - apply grows_same; [apply same_table_header|done].
  - apply grows_same; [apply same_table_read|done].
  - pose proof (grows_send sid t p h) as Hg. by destruct (send_frame sid t p h) as [[r h'] es].
  - unfold receive_frame. pose proof (grows_get sid h) as Hg. by destruct (get_or_create_stream sid h).
  - apply grows_same; [apply same_table_receive_end|done].
  - apply grows_same; [apply same_table_close_stream|done].
  - unfold close_session_begin. by destruct (h2_closed h).
  - apply grows_same; [apply same_table_run_exit|done].
Qed.

(** ** Callbacks *)
Lemma keeps_begin f h open l :
  callback_allowed (on_begin_headers f) (h, open, l) → keeps (h, open, l) (after (on_begin_headers f) (h, open, l)).
Proof.
  intros [_ Hfresh] (Hm&Hr&Hcov&Hsz&Hle). unfold after. cbn [as_event h2_apply track track_last fresh_request] in *.
  pose proof (h2_closed_apply (ev_begin_headers f) h) as Hc. cbn [h2_apply fst] in Hc.
  unfold on_begin_headers_callback in *. destruct (is_request f h); [|by split; [|split_and!]].
  specialize (Hfresh eq_refl). set (sid := hd_stream_id f) in *.
  assert (sid ∉ open) as Hn by (intros Hin%Hle; lia).
  assert (∀ sid', sid' ∈ {[ sid ]} ∪ open → (sid' ≤ sid)%Z) as Hle'.
  { intros sid' [->%elem_of_singleton|Hin%Hle]%elem_of_union; lia. }
  case_decide as Hfull; cbn [fst] in *.
  - split.
    + unfold view_inv. cbn [set_refused mode refused_streams streams max_concurrent_streams].
      split_and!; [done|set_solver|set_solver| |done].
      replace (({[sid]} ∪ open) ∖ ({[sid]} ∪ refused_streams h)) with (open ∖ refused_streams h) by set_solver.
      done.
    + split_and!; [done|done|]. cbn. intros sid' (?&?&?). split_and!; [done|set_unfold; naive_solver lia|lia].
  - assert (size (open ∖ refused_streams h) ≤ size (streams h)) as Hopen.
    { rewrite <-size_dom. apply subseteq_size. set_solver. }
    pose proof (grows_get sid h) as (Hgm&Hgx&Hgr&Hgd&_). split.
    + unfold view_inv. rewrite Hgm, Hgx, Hgr. split_and!; [done|set_solver| | |done].
      * assert (sid ∈ dom (streams (get_or_create_stream sid h).2)); [|set_solver].
        unfold get_or_create_stream. destruct (streams h !! sid) eqn:Hs; cbn; [by eapply elem_of_dom_2|].
        rewrite dom_insert_L. set_solver.
      * assert (size (({[sid]} ∪ open) ∖ refused_streams h) ≤ S (size (open ∖ refused_streams h))); [|lia].
        etrans; [apply (subseteq_size _ ({[sid]} ∪ open ∖ refused_streams h)); set_solver|].
        rewrite size_union_alt, size_singleton.
        assert (size ((open ∖ refused_streams h) ∖ {[sid]}) ≤ size (open ∖ refused_streams h));
          [apply subseteq_size; set_solver|lia].
    + split_and!; [done|done|]. cbn. intros sid' (?&?&?). split_and!; [set_solver|set_unfold; naive_solver lia|lia].
Qed.

Lemma keeps_frame_recv f h open l :
  callback_allowed (on_frame_recv f) (h, open, l) → keeps (h, open, l) (after (on_frame_recv f) (h, open, l)).
Proof.
  intros [Hal _]. unfold after. cbn [as_event h2_apply track track_last allowed] in *.
  unfold on_frame_recv_callback. destruct (is_request f h); [|reflexivity]. specialize (Hal eq_refl).
  cbn [negb]. case_decide; [reflexivity|]. destruct (from_option _ _ _).
  - intros (Hm&Hr&Hcov&Hsz&Hle). cbn [fst]. split; [|by split_and!].
    unfold view_inv. cbn [set_refused mode refused_streams streams max_concurrent_streams].
    split_and!; [done|set_solver|set_solver| |done].
    etrans; [|exact Hsz]. apply inj_le, subseteq_size. set_solver.
  - assert (grows h (submit_server_response (hd_stream_id f) h).1) as Hg.
    { unfold submit_server_response. pose proof (grows_get (hd_stream_id f) h) as Hg.
      destruct (get_or_create_stream _ h) as [st h1]. cbn [fst snd] in *.
      destruct (response_sent st); [done|]. eapply grows_trans; [exact Hg|apply grows_put]. }
    destruct (submit_server_response _ h) as [h1 es]. by apply grows_keeps.
Qed.

Lemma keeps_data sid data h open l :
  callback_allowed (on_data_chunk_recv sid data) (h, open, l) →
  keeps (h, open, l) (after (on_data_chunk_recv sid data) (h, open, l)).
Proof.
  intros [Hal _] Hinv. pose proof Hinv as (_&_&Hcov&_). cbn [as_event allowed] in Hal.
  apply grows_keeps; [|done]. apply grows_same; [|apply (h2_closed_apply (ev_data sid data))].
  apply same_table_data. set_solver.
Qed.

Lemma keeps_close sid h open l :
  callback_allowed (on_stream_close sid) (h, open, l) →
  keeps (h, open, l) (after (on_stream_close sid) (h, open, l)).
Proof.
  intros [Hal _] (Hm&Hr&Hcov&Hsz&Hle). unfold after. cbn [as_event h2_apply track track_last fst allowed] in *.
  pose proof (h2_closed_apply (ev_stream_close sid) h) as Hc. cbn [h2_apply fst] in Hc.
  assert (Z.of_nat (size ((open ∖ {[sid]}) ∖ (refused_streams h ∖ {[sid]}))) ≤ max_concurrent_streams h)%Z as Hsz'.
  { etrans; [|exact Hsz]. apply inj_le, subseteq_size. set_solver. }
  unfold on_stream_close_callback in *. cbn [set_refused streams] in *.
  assert (dom (delete sid (streams h)) = dom (streams h) ∖ {[sid]}) as Hdel by apply dom_delete_L.
  destruct (streams h !! sid) as [st|] eqn:Hs; cbn [fst] in *; (split; [|split_and!; [done|done|]]);
    unfold view_inv, stale; cbn [set_streams set_refused mode refused_streams streams max_concurrent_streams fst];
    rewrite ?Hdel.
  - split_and!; [done|set_solver|set_solver|done|]. intros sid' ?. apply Hle. set_solver.
  - intros sid' (?&?&?). split_and!; [|set_solver|done].
    assert (sid' ≠ sid) by (intros ->; done). set_solver.
  - apply not_elem_of_dom in Hs. split_and!; [done|set_solver| |done|].
    + intros x Hx. assert (x ∈ open) as Ho by set_solver. apply Hcov in Ho. set_solver.
    + intros sid' ?. apply Hle. set_solver.
  - intros sid' (?&?&?). split_and!; [done|set_solver|done].
Qed.

Lemma keeps_callback cb v : callback_allowed cb v → keeps v (after cb v).
Proof.
  destruct v as [[h open] l]. intros Hal. destruct cb.
  - by apply keeps_frame_recv.
  - by apply keeps_data.
  - by apply keeps_close.
  - by apply keeps_begin.
  - apply grows_keeps. by apply (grows_apply (ev_header f k v)).
Qed.
End view.
