(* ===== verification/H2Wire.v ===== *)
(** * libculpeo-transport-h2: what one end of a connection sends and delivers

    The frames a session puts into the queue of a stream against the bytes nghttp2
    takes from it, and the bytes nghttp2 delivers for a stream against the frames
    that reach its channel.  [Http2Wire] states what nghttp2 does with the bytes of
    the socket: the data of a stream is carried in order. *)

From ITree Require Import ITree ITreeFacts.
From S2P Require Import Prelude Bytes H2Frame H2Session H2Facts H2Safety H2Run H2Pool.

(** ** Traffic

    What has passed nghttp2: all output and input, the data taken from and
    delivered for each stream, and the streams that are over. *)
Record traffic := mkTraffic {
  t_out : bytes;
  t_in : bytes;
  t_pulled : gmap Z bytes;
  t_delivered : gmap Z bytes;
  t_over : gset Z;
}.

Definition no_traffic : traffic := mkTraffic [] [] ∅ ∅ ∅.

Definition extend (sid : Z) (d : bytes) (m : gmap Z bytes) : gmap Z bytes := <[sid := (m !!! sid) ++ d]> m.

Definition add_out (d : bytes) (t : traffic) : traffic :=
  mkTraffic (t_out t ++ d) (t_in t) (t_pulled t) (t_delivered t) (t_over t).
Definition add_in (d : bytes) (t : traffic) : traffic :=
  mkTraffic (t_out t) (t_in t ++ d) (t_pulled t) (t_delivered t) (t_over t).

Definition note_read (sid : Z) (r : read_result) (t : traffic) : traffic :=
  match r with
  | read_bytes d _ => mkTraffic (t_out t) (t_in t) (extend sid d (t_pulled t)) (t_delivered t) (t_over t)
  | read_deferred => t
  end.

Definition note_callback (cb : ng_callback) (t : traffic) : traffic :=
  match cb with
  | on_data_chunk_recv sid d =>
      mkTraffic (t_out t) (t_in t) (t_pulled t) (extend sid d (t_delivered t)) (t_over t)
  | on_stream_close sid => mkTraffic (t_out t) (t_in t) (t_pulled t) (t_delivered t) ({[ sid ]} ∪ t_over t)
  | _ => t
  end.

(** Data comes from [nghttp2_session_mem_recv], for streams that are not over. *)
Definition callback_in_order (receiving : bool) (cb : ng_callback) (t : traffic) : Prop :=
  match cb with
  | on_data_chunk_recv sid _ => receiving = true ∧ (sid ∉ t_over t)
  | _ => True
  end.

Lemma extend_same sid d m : extend sid d m !!! sid = (m !!! sid) ++ d.
Proof. unfold extend. by rewrite lookup_total_insert_eq. Qed.

Lemma extend_other sid sid' d m : sid ≠ sid' → extend sid d m !!! sid' = m !!! sid'.
Proof. intros Hne. unfold extend. by rewrite lookup_total_insert_ne. Qed.

Section wire.
Context {CL : ChannelLib} {NG : Nghttp2}.

(** An activity that starts when [t] has passed, with [fin r t] when it returns [r]. *)
Fixpoint carries {R} (traffic_of : ng → traffic) (receiving : bool) (a : activity ng R) (t : traffic)
    (fin : R → traffic → traffic) : Prop :=
  match a with
  | returns r n => traffic_of n = fin r t
  | calls_back cb k =>
      callback_in_order receiving cb t ∧
      ∀ es, carries traffic_of receiving (k es) (note_callback cb t) fin
  | reads_data sid len k =>
      (sid ∉ t_over t) ∧ ∀ r, carries traffic_of receiving (k r) (note_read sid r t) fin
  end.

(** [stream_data sid w]: the data of a stream in the first bytes [w] of a
    connection, as RFC 9113 defines it.  What nghttp2 puts on the connection for a
    stream is the data it took from it, in order, and what it delivers is the data
    it was given; a call from outside a callback carries nothing by itself. *)
Class Http2Wire := {
  traffic_of : ng → traffic;
  stream_data : Z → bytes → bytes;
  stream_data_mono sid w w' : stream_data sid w `prefix_of` stream_data sid (w ++ w');
  new_traffic m max w : traffic_of (ng_new m max w) = no_traffic;
  call_traffic e n : traffic_of (ng_call e n) = traffic_of n;
  send_carries n : carries traffic_of false (mem_send n) (traffic_of n) add_out;
  recv_carries d n : carries traffic_of true (mem_recv d n) (add_in d (traffic_of n)) (λ _ t, t);
  sends_pulled n sid : stream_data sid (t_out (traffic_of n)) `prefix_of` t_pulled (traffic_of n) !!! sid;
  delivers_data n sid : t_delivered (traffic_of n) !!! sid `prefix_of` stream_data sid (t_in (traffic_of n));
}.

Context {HW : Http2Wire}.

Lemma calls_traffic es n : traffic_of (calls es n) = traffic_of n.
Proof.
  revert n. induction es as [|e es IH]; intros n; [done|].
  change (calls (e :: es) n) with (calls es (call_nghttp2 e n)). rewrite IH.
  by destruct e; cbn [call_nghttp2]; rewrite ?call_traffic.
Qed.

(** ** The frames queued in a turn *)
Definition queued_frames (sid : Z) (es : list effect) : list h2_frame :=
  omap (λ e, match e with
             | frame_queued s t p => if decide (s = sid) then Some (t, p) else None
             | _ => None
             end) es.

Lemma queued_frames_app sid es es' : queued_frames sid (es ++ es') = queued_frames sid es ++ queued_frames sid es'.
Proof. apply omap_app. Qed.

Definition no_frames (es : list effect) : Prop := ∀ sid, queued_frames sid es = [].

Lemma no_frames_nil : no_frames [].
Proof. done. Qed.

Lemma no_frames_app es es' : no_frames es → no_frames es' → no_frames (es ++ es').
Proof. intros H1 H2 sid. by rewrite queued_frames_app, H1, H2. Qed.

Lemma callback_no_frames cb h : no_frames (h2_apply (as_event cb) h).2.
Proof.
  intros sid. destruct cb; cbn [as_event h2_apply snd]; try done.
  - unfold on_frame_recv_callback. destruct (negb _); [done|]. case_decide; [done|].
    destruct (from_option _ _ _); [done|]. unfold submit_server_response.
    destruct (get_or_create_stream _ h) as [st h1]. by destruct (response_sent st), (has_new_stream_cb _).
  - unfold on_begin_headers_callback. destruct (is_request f h); [|done]. by case_decide.
Qed.

(** ** The sending side of a stream

    The frames queued so far are encoded in what nghttp2 has taken and what is still
    in the queue; when the stream is over, the queue is lost. *)
Definition sender (sid : Z) (sent : list h2_frame) (h : H2Session) (t : traffic) : Prop :=
  ∃ envs, Forall2 encodes sent envs ∧
    (sid ∈ t_over t ∧ t_pulled t !!! sid `prefix_of` concat envs ∨
     (sid ∉ t_over t) ∧ t_pulled t !!! sid ++ queued sid h = concat envs).

Lemma sender_queue sid sent sent' h h' t envs :
  sender sid sent h t → Forall2 encodes sent' envs → queued sid h' = queued sid h ++ concat envs →
  sender sid (sent ++ sent') h' t.
Proof.
  intros (envs0&He&Hp) He' Hq. exists (envs0 ++ envs). split; [by apply Forall2_app|]. rewrite concat_app.
  destruct Hp as [[Ho Hp]|[Ho Hp]]; [left|right]; (split; [done|]).
  - by apply prefix_app_r.
  - by rewrite Hq, app_assoc, Hp.
Qed.

Lemma sender_same sid sent h h' t t' :
  sender sid sent h t → queued sid h' = queued sid h → t_pulled t' = t_pulled t → t_over t' = t_over t →
  sender sid sent h' t'.
Proof. intros (envs&He&Hp) Hq Hpl Ho. exists envs. by rewrite Hq, Hpl, Ho. Qed.

(** ** The receiving side of a stream *)
Definition item_to_frame (i : channel_item) : option h2_frame :=
  match i with item_frame t p => Some (t, p) | item_eof => None end.

Definition frames_in (c : channel) : list h2_frame := omap item_to_frame (buffered c).

(** The frames taken from the channel and those in it are among the frames found in
    the data delivered; as long as these fit into the channel none is lost while [run] reads. *)
Definition receiver (live : bool) (sid : Z) (got : list h2_frame) (h : H2Session) (t : traffic) : Prop :=
  let st := stream_of sid h in
  ∃ chunks, concat chunks `prefix_of` t_delivered t !!! sid ∧
    capacity (chan st) = kChannelCapacity ∧
    (got ++ frames_in (chan st)) `sublist_of` (feed [] chunks).1 ∧
    (length (feed [] chunks).1 ≤ kChannelCapacity →
       (got ++ frames_in (chan st)) `prefix_of` (feed [] chunks).1) ∧
    (sid ∉ t_over t → sid ∉ refused_streams h →
       concat chunks = t_delivered t !!! sid ∧ (feed [] chunks).2 = recv_buf st ∧
       (live = true → length (feed [] chunks).1 ≤ kChannelCapacity →
          got ++ frames_in (chan st) = (feed [] chunks).1)).

(** No channel of the session holds end-of-file. *)
Definition no_eof (h : H2Session) : Prop := ∀ sid, item_eof ∉ buffered (chan (stream_of sid h)).

Lemma receiver_same live sid got h h' t t' :
  receiver live sid got h t →
  chan (stream_of sid h') = chan (stream_of sid h) → recv_buf (stream_of sid h') = recv_buf (stream_of sid h) →
  (sid ∉ t_over t' → sid ∉ refused_streams h' → (sid ∉ t_over t) ∧ (sid ∉ refused_streams h)) →
  t_delivered t' !!! sid = t_delivered t !!! sid →
  receiver live sid got h' t'.
Proof.
  intros (chunks&Hp&Hc&Hs&Hpre&Hl) Hch Hb Hlive Hd. exists chunks. cbv zeta. rewrite Hch, Hb, Hd.
  split_and!; [done..|]. intros Ho Hr. destruct (Hlive Ho Hr). by apply Hl.
Qed.

(** ** What operations and callbacks leave alone *)
Definition queues (st : StreamState) : list SendBuf * bytes * channel := (send_pending st, recv_buf st, chan st).

Definition keeps_field {A} (p : StreamState → A) (h h' : H2Session) : Prop :=
  ∀ sid, p (stream_of sid h') = p (stream_of sid h).

#[export] Instance keeps_field_preorder {A} (p : StreamState → A) : PreOrder (keeps_field p).
Proof. split; [by intros h sid|]. intros h1 h2 h3 H12 H23 sid. by rewrite H23. Qed.

Lemma stream_of_put_ne sid sid' st h : sid ≠ sid' → stream_of sid' (put_stream sid st h) = stream_of sid' h.
Proof. intros Hne. unfold stream_of, put_stream, set_streams. cbn [streams]. by rewrite lookup_insert_ne. Qed.

Lemma keeps_put {A} (p : StreamState → A) sid st h :
  p st = p (stream_of sid h) → keeps_field p h (put_stream sid st h).
Proof.
  intros Hp sid'. destruct (decide (sid = sid')) as [<-|]; [by rewrite stream_of_put|by rewrite stream_of_put_ne].
Qed.

Lemma keeps_get {A} (p : StreamState → A) sid h : keeps_field p h (get_or_create_stream sid h).2.
Proof.
  unfold get_or_create_stream. destruct (streams h !! sid) eqn:Hs; [done|].
  apply (keeps_put p sid new_stream). unfold stream_of. by rewrite Hs.
Qed.

Lemma keeps_streams {A} (p : StreamState → A) h h' : streams h' = streams h → keeps_field p h h'.
Proof. intros Hs sid. unfold stream_of. by rewrite Hs. Qed.

Lemma keeps_header {A} (p : StreamState → A) f k v h :
  (∀ b q cl c r a a' ct ct' v v', p (mkStreamState b q cl c r a ct v) = p (mkStreamState b q cl c r a' ct' v')) →
  keeps_field p h (on_header_callback f k v h).
Proof.
  intros Hp. unfold on_header_callback. destruct (negb _); [done|]. case_decide; [done|].
  destruct (streams h !! hd_stream_id f) as [[]|] eqn:Hs; [|done].
  repeat case_decide; try done; apply keeps_put; unfold stream_of; rewrite Hs; apply Hp.
Qed.

(** Every callback but data and close keeps the queues. *)
Lemma callback_queues cb h :
  match cb with on_data_chunk_recv _ _ | on_stream_close _ => False | _ => True end →
  keeps_field queues h (h2_apply (as_event cb) h).1.
Proof.
  intros Hcb. destruct cb; cbn [as_event h2_apply fst]; try done.
  - unfold on_frame_recv_callback. destruct (negb _); [done|]. case_decide; [done|].
    destruct (from_option _ _ _); [by apply keeps_streams|].
    pose proof (keeps_get queues (hd_stream_id f) h) as Hk. unfold submit_server_response.
    destruct (get_or_create_stream _ h) as [st h1] eqn:Hg. cbn [snd] in Hk.
    apply get_or_create_stream_spec in Hg as (->&_). destruct (response_sent _); cbn [fst]; [done|].
    etrans; [exact Hk|]. apply keeps_put. rewrite (Hk (hd_stream_id f)). by destruct (stream_of _ h).
  - unfold on_begin_headers_callback. destruct (is_request f h); [|done].
    case_decide; [by apply keeps_streams|apply keeps_get].
  - by apply keeps_header.
Qed.

Lemma data_pending sid d h : keeps_field send_pending h (on_data_chunk_recv_callback sid d h).
Proof.
  unfold on_data_chunk_recv_callback. case_decide; [done|].
  pose proof (keeps_get send_pending sid h) as Hk. destruct (get_or_create_stream sid h) as [st h1] eqn:Hg.
  apply get_or_create_stream_spec in Hg as (->&_). etrans; [exact Hk|].
  unfold dispatch_recv_frames. cbn [put_stream set_streams streams]. rewrite lookup_insert_eq.
  destruct (drain_frames _) as [frames buf]. cbn [snd] in Hk.
  etrans; [apply (keeps_put send_pending sid)|apply (keeps_put send_pending sid)].
  - symmetry. apply Hk.
  - by rewrite stream_of_put.
Qed.

Lemma close_other sid sid' h :
  sid ≠ sid' → stream_of sid' (on_stream_close_callback sid h).1 = stream_of sid' h.
Proof.
  intros Hne. unfold on_stream_close_callback. cbn [set_refused streams].
  destruct (streams h !! sid); [|done]. unfold stream_of. cbn. by rewrite lookup_delete_ne.
Qed.

Lemma close_same sid h : stream_of sid (on_stream_close_callback sid h).1 = new_stream.
Proof.
  unfold on_stream_close_callback, stream_of. cbn [set_refused streams].
  destruct (streams h !! sid) eqn:Hs; cbn; [by rewrite lookup_delete_eq|by rewrite Hs].
Qed.

(** ** Callbacks *)
Lemma sender_callback receiving sid sent cb h t :
  callback_in_order receiving cb t → sender sid sent h t →
  sender sid sent (h2_apply (as_event cb) h).1 (note_callback cb t).
Proof.
  intros Hcb Hs.
  assert (∀ h' t', queued sid h' = queued sid h → t_pulled t' = t_pulled t → t_over t' = t_over t →
    sender sid sent h' t') as Hsame by (intros; by eapply sender_same).
  assert (keeps_field queues h (h2_apply (as_event cb) h).1 → queued sid (h2_apply (as_event cb) h).1 = queued sid h)
    as Hq by (intros Hk; specialize (Hk sid); unfold queued; by injection Hk as -> _ _).
  destruct cb as [f|sid' d|sid'|f|f k v]; cbn [note_callback]; try (apply Hsame; [apply Hq, callback_queues|..]; done).
  - apply Hsame; [|done..]. unfold queued. f_equal. exact (data_pending sid' d h sid).
  - destruct Hs as (envs&He&Hp). exists envs. split; [done|]. cbn [t_over t_pulled as_event h2_apply fst].
    destruct (decide (sid = sid')) as [<-|Hne].
    + left. split; [set_solver|]. destruct Hp as [[_ Hp]|[_ <-]]; [done|by apply prefix_app_r].
    + unfold queued. rewrite close_other by done. destruct Hp as [[Ho Hp]|[Ho Hp]]; [left|right]; set_solver.
Qed.

Lemma sender_read sid sent sid' len h t :
  (sid' ∉ t_over t) → sender sid sent h t →
  let '(r, h') := data_read_callback sid' len h in sender sid sent h' (note_read sid' r t).
Proof.
  intros Ho Hs. pose proof (data_read_spec sid' len h) as Hd.
  destruct (data_read_callback sid' len h) as [r h'] eqn:Hr. destruct Hd as [Hd _].
  destruct (decide (sid' = sid)) as [->|Hne].
  - destruct r as [d eof|]; [|by destruct Hd as (->&_)]. destruct Hd as (Hq&_).
    destruct Hs as (envs&He&[[Hin _]|[_ Hp]]); [done|]. exists envs. split; [done|]. right. split; [done|].
    cbn [note_read t_pulled]. by rewrite extend_same, <-app_assoc, <-Hq.
  - assert (queued sid h' = queued sid h) as Hq.
    { unfold queued. unfold data_read_callback in Hr. destruct (streams h !! sid') as [st|]; [|by simplify_eq].
      destruct (send_pending st); [by destruct (send_closed st); simplify_eq|]. simplify_eq.
      by rewrite stream_of_put_ne. }
    destruct r as [d eof|]; [|by destruct Hd as (->&_)].
    destruct Hs as (envs&He&Hp). exists envs. split; [done|]. cbn [note_read t_pulled t_over].
    rewrite extend_other by done. by rewrite Hq.
Qed.

Lemma feed_snoc chunks c : ∀ buf,
  feed buf (chunks ++ [c]) =
    ((feed buf chunks).1 ++ (drain_frames ((feed buf chunks).2 ++ c)).1,
     (drain_frames ((feed buf chunks).2 ++ c)).2).
Proof.
  induction chunks as [|c0 chunks IH]; intros buf; cbn [app feed fst snd].
  - destruct (drain_frames (buf ++ c)) as [f1 b1]. cbn. by rewrite app_nil_r.
  - destruct (drain_frames (buf ++ c0)) as [f0 b0]. rewrite IH. destruct (feed b0 chunks) as [f1 b1].
    cbn [fst snd]. by rewrite app_assoc.
Qed.

Lemma frames_in_send frames c :
  frames_in (send_all frames c) = frames_in c ++ take (capacity c - length (buffered c)) frames.
Proof.
  unfold frames_in. destruct (send_all_spec frames c) as [_ ->]. rewrite omap_app. f_equal.
  induction (take _ frames) as [|[t p] fs IH]; [done|]. cbn. by rewrite IH.
Qed.

Lemma frames_in_length c : (item_eof ∉ buffered c) → length (frames_in c) = length (buffered c).
Proof.
  unfold frames_in. induction (buffered c) as [|[t p|] q IH]; [done|..]; rewrite not_elem_of_cons; intros [Hn Hq].
  - cbn. by rewrite IH.
  - done.
Qed.

Lemma data_other sid sid' d h :
  sid' ≠ sid → stream_of sid (on_data_chunk_recv_callback sid' d h) = stream_of sid h.
Proof.
  intros Hne. unfold on_data_chunk_recv_callback. case_decide; [done|].
  pose proof (keeps_get id sid' h sid) as Hk. destruct (get_or_create_stream sid' h) as [st h1]. cbn in Hk.
  unfold dispatch_recv_frames. cbn [put_stream set_streams streams]. rewrite lookup_insert_eq.
  destruct (drain_frames _) as [frames buf]. by rewrite !stream_of_put_ne, <-Hk.
Qed.

(** More data of a live stream. *)
Lemma receiver_data live sid got d h t :
  (sid ∉ t_over t) → live = true → no_eof h → receiver live sid got h t →
  receiver live sid got (on_data_chunk_recv_callback sid d h) (note_callback (on_data_chunk_recv sid d) t).
Proof.
  intros Ho Hlive He (chunks&Hp&Hc&Hs&Hpre&Hl). unfold receiver. cbn [note_callback t_delivered t_over].
  rewrite extend_same. destruct (decide (sid ∈ refused_streams h)) as [Hr|Hr].
  { exists chunks. unfold on_data_chunk_recv_callback. rewrite decide_True by done.
    split_and!; [by apply prefix_app_r|done..]. }
  destruct (Hl Ho Hr) as (Hcat&Hbuf&Heq). pose proof (on_data_chunk_spec sid d h Hr) as Hd.
  rewrite <-Hbuf in Hd. exists (chunks ++ [d]). rewrite feed_snoc. cbn [fst snd].
  destruct (drain_frames _) as [frames buf]. cbn [fst snd]. destruct Hd as (Href&->&->).
  destruct (send_all_spec frames (chan (stream_of sid h))) as [-> _]. rewrite Hc, frames_in_send, Hc, app_assoc.
  assert (length ((feed [] chunks).1 ++ frames) ≤ kChannelCapacity →
    (got ++ frames_in (chan (stream_of sid h))) ++
      take (kChannelCapacity - length (buffered (chan (stream_of sid h)))) frames = (feed [] chunks).1 ++ frames) as Hall.
  { intros Hlen. rewrite length_app in Hlen. specialize (Heq Hlive). rewrite Heq by lia. f_equal.
    apply take_ge. rewrite <-frames_in_length by apply He.
    specialize (Heq ltac:(lia)). apply (f_equal length) in Heq. rewrite length_app in Heq. lia. }
  rewrite concat_app, Hcat. cbn [concat]. rewrite app_nil_r. split_and!; [done|done| | |].
  - apply sublist_app; [done|]. apply sublist_take.
  - intros Hlen. by rewrite Hall.
  - intros _ _. split_and!; [done|done|]. intros _. apply Hall.
Qed.

Lemma receiver_close live sid got h t :
  receiver live sid got h t → receiver live sid got (on_stream_close_callback sid h).1 (note_callback (on_stream_close sid) t).
Proof.
  intros (chunks&Hp&Hc&Hs&Hpre&Hl). exists chunks. cbv zeta. rewrite close_same. cbn [new_stream chan].
  destruct (new_channel_spec kChannelCapacity) as [Hb Hk]. unfold frames_in. rewrite Hb, Hk. cbn [omap list_omap].
  rewrite app_nil_r. split_and!; [done|done| | |].
  - etrans; [|exact Hs]. apply sublist_inserts_r. done.
  - intros Hlen. specialize (Hpre Hlen). etrans; [|exact Hpre]. by apply prefix_app_r.
  - cbn. set_solver.
Qed.

Lemma receiver_callback live receiving sid got cb h t :
  callback_in_order receiving cb t → (receiving = true → live = true ∧ no_eof h) → receiver live sid got h t →
  receiver live sid got (h2_apply (as_event cb) h).1 (note_callback cb t).
Proof.
  intros Hcb He Hr.
  assert (match cb with on_data_chunk_recv _ _ | on_stream_close _ => False | _ => True end →
    (sid ∉ refused_streams (h2_apply (as_event cb) h).1 → sid ∉ refused_streams h) →
    receiver live sid got (h2_apply (as_event cb) h).1 t) as Hsame.
  { intros Hk Href. pose proof (callback_queues cb h Hk sid) as Hq. injection Hq as _ Hb Hc.
    eapply receiver_same; [exact Hr|done..| |done]. auto. }
  destruct cb as [f|sid' d|sid'|f|f k v]; cbn [note_callback].
  - apply Hsame; [done|]. cbn [as_event h2_apply]. unfold on_frame_recv_callback.
    destruct (negb _); [done|]. case_decide; [done|]. destruct (from_option _ _ _); [set_solver|].
    unfold submit_server_response. destruct (get_or_create_stream _ h) as [st h1] eqn:Hg.
    apply get_or_create_stream_spec in Hg as (_&_&_&Href&_). destruct (response_sent st); cbn; by rewrite Href.
  - destruct Hcb as [-> Ho]. cbn [as_event h2_apply fst]. destruct (decide (sid' = sid)) as [->|Hne].
    + by apply receiver_data; [|apply He|apply He|].
    + eapply receiver_same; [exact Hr|by rewrite data_other..| |by cbn; rewrite extend_other].
      cbn [t_over]. intros Ho' Hn. split; [done|]. intros Hin. apply Hn.
      unfold on_data_chunk_recv_callback. case_decide; [done|]. destruct (get_or_create_stream _ h) as [st h1] eqn:Hg.
      apply get_or_create_stream_spec in Hg as (_&_&_&Href&_). unfold dispatch_recv_frames.
      cbn [put_stream set_streams streams]. rewrite lookup_insert_eq. destruct (drain_frames _). cbn. by rewrite Href.
  - cbn [as_event h2_apply fst]. destruct (decide (sid' = sid)) as [->|Hne]; [by apply receiver_close|].
    eapply receiver_same; [exact Hr|by rewrite close_other..| |done].
    cbn [note_callback t_over]. intros Ho Hn. split; [set_solver|]. intros Hin. apply Hn.
    unfold on_stream_close_callback. cbn [set_refused streams]. destruct (streams h !! sid'); cbn; set_solver.
  - apply Hsame; [done|]. cbn [as_event h2_apply]. unfold on_begin_headers_callback.
    destruct (is_request f h); [|done]. case_decide; [set_solver|].
    destruct (get_or_create_stream _ h) as [st h1] eqn:Hg.
    apply get_or_create_stream_spec in Hg as (_&_&_&Href&_). cbn. by rewrite Href.
  - apply Hsame; [done|]. cbn [as_event h2_apply fst]. unfold on_header_callback.
    destruct (negb _); [done|]. case_decide; [done|]. destruct (streams h !! _); [|done]. by repeat case_decide.
Qed.

Lemma read_queues sid' len h :
  keeps_field (λ st, (recv_buf st, chan st)) h (data_read_callback sid' len h).2 ∧
  refused_streams (data_read_callback sid' len h).2 = refused_streams h.
Proof.
  unfold data_read_callback. destruct (streams h !! sid') as [st|] eqn:Hs; [|done].
  destruct (send_pending st); [by destruct (send_closed st)|]. cbn [snd]. split; [|done].
  apply keeps_put. unfold stream_of. by rewrite Hs.
Qed.

Lemma receiver_read live sid got sid' len h t :
  receiver live sid got h t →
  let '(r, h') := data_read_callback sid' len h in receiver live sid got h' (note_read sid' r t).
Proof.
  intros Hr. destruct (read_queues sid' len h) as [Hq Href]. destruct (data_read_callback sid' len h) as [r h'].
  specialize (Hq sid). injection Hq as Hb Hc. cbn [fst snd] in *.
  assert (t_over (note_read sid' r t) = t_over t ∧ t_delivered (note_read sid' r t) = t_delivered t)
    as [Ho Hd] by (by destruct r).
  eapply receiver_same; [exact Hr|done|done| |by rewrite Hd]. rewrite Ho, Href. done.
Qed.

Lemma no_eof_put sid st h : no_eof h → (item_eof ∉ buffered (chan st)) → no_eof (put_stream sid st h).
Proof.
  intros He Hst sid'. destruct (decide (sid = sid')) as [<-|]; [by rewrite stream_of_put|].
  rewrite stream_of_put_ne by done. apply He.
Qed.

Lemma no_eof_keeps h h' : keeps_field chan h h' → no_eof h → no_eof h'.
Proof. intros Hk He sid. rewrite (Hk sid). apply He. Qed.

Lemma no_eof_callback cb h : no_eof h → no_eof (h2_apply (as_event cb) h).1.
Proof.
  intros He. assert (match cb with on_data_chunk_recv _ _ | on_stream_close _ => False | _ => True end →
    no_eof (h2_apply (as_event cb) h).1) as Hsame.
  { intros Hk. eapply no_eof_keeps; [|exact He]. intros sid.
    pose proof (callback_queues cb h Hk sid) as Hq. by injection Hq. }
  destruct cb as [f|sid d|sid|f|f k v]; try (by apply Hsame); cbn [as_event h2_apply fst]; intros sid'.
  - destruct (decide (sid = sid')) as [<-|Hne]; [|by rewrite data_other].
    destruct (decide (sid ∈ refused_streams h)) as [Hr|Hr].
    + unfold on_data_chunk_recv_callback. by rewrite decide_True.
    + pose proof (on_data_chunk_spec sid d h Hr) as Hd. destruct (drain_frames _) as [frames buf].
      destruct Hd as (_&_&->). by apply send_all_no_eof.
  - destruct (decide (sid = sid')) as [<-|Hne]; [|by rewrite close_other]. rewrite close_same.
    cbn [new_stream chan]. rewrite (proj1 (new_channel_spec kChannelCapacity)). apply not_elem_of_nil.
Qed.

(** ** A call of nghttp2 *)

(** The invariant of one end for a stream; [live] while [run] reads. *)
Definition end_inv (live : bool) (sid : Z) (sent got : list h2_frame) (h : H2Session) (t : traffic) : Prop :=
  sender sid sent h t ∧ receiver live sid got h t ∧ (live = true → no_eof h).

Lemma activity_inv {R} receiving (a : activity ng R) fin live sid sent got : ∀ h t r n h' es,
  carries traffic_of receiving a t fin → run_activity a h = (r, n, h', es) →
  (receiving = true → live = true) → end_inv live sid sent got h t →
  ∃ t', traffic_of n = fin r t' ∧ t_out t' = t_out t ∧ t_in t' = t_in t ∧
    end_inv live sid sent got h' t' ∧ no_frames es.
Proof.
  induction a as [r0 n0|cb k IH|sid' len k IH]; intros h t r n h' es; cbn [carries run_activity].
  - intros Hf [= <- <- <- <-] _ Hi. by exists t.
  - intros [Hcb Hk] Hrun Hlive (Hs&Hr&He). pose proof (callback_no_frames cb h) as Hn.
    pose proof (sender_callback receiving sid sent cb h t Hcb Hs) as Hs1.
    pose proof (receiver_callback live receiving sid got cb h t Hcb ltac:(auto) Hr) as Hr1.
    pose proof (λ Hl, no_eof_callback cb h (He Hl)) as He1.
    destruct (h2_apply (as_event cb) h) as [h1 es1]. cbn [fst snd] in *.
    destruct (run_activity (k es1) h1) as [[[r2 n2] h2] es2] eqn:Hr2. injection Hrun as <- <- <- <-.
    destruct (IH es1 h1 (note_callback cb t) r2 n2 h2 es2) as (t'&?&Ho&Hi&?&?); [done..|].
    exists t'. split_and!; [done|by rewrite Ho; destruct cb|by rewrite Hi; destruct cb|done|by apply no_frames_app].
  - intros [Ho Hk] Hrun Hlive (Hs&Hr&He).
    pose proof (sender_read sid sent sid' len h t Ho Hs) as Hs1. pose proof (receiver_read live sid got sid' len h t Hr) as Hr1.
    destruct (read_queues sid' len h) as [Hq _].
    assert (keeps_field chan h (data_read_callback sid' len h).2) as Hc by (intros s0; specialize (Hq s0); by injection Hq).
    destruct (data_read_callback sid' len h) as [r1 h1]. cbn [snd] in Hc.
    destruct (IH r1 h1 (note_read sid' r1 t) r n h' es) as (t'&?&Hout&Hin&?&?); [done..| |].
    { split_and!; [done|done|]. intros Hl. eapply no_eof_keeps; eauto. }
    exists t'. split_and!; [done|by rewrite Hout; destruct r1|by rewrite Hin; destruct r1|done|done].
Qed.

Definition conn_inv (live : bool) (sid : Z) (sent got : list h2_frame) (c : conn) : Prop :=
  end_inv live sid sent got c.1 (traffic_of c.2).

Lemma end_inv_traffic live sid sent got h t t' :
  t_pulled t' = t_pulled t → t_delivered t' = t_delivered t → t_over t' = t_over t →
  end_inv live sid sent got h t → end_inv live sid sent got h t'.
Proof.
  intros Hp Hd Ho (Hs&Hr&He). split_and!; [|eapply receiver_same; [exact Hr|done..| |by rewrite Hd]|done].
  - by eapply sender_same.
  - by rewrite Ho.
Qed.

(** The output of [drain_to_wire], and what [nghttp2_session_mem_recv] does. *)
Lemma mem_send_inv live sid sent got h n d n' h' es :
  run_activity (mem_send n) h = (d, n', h', es) → conn_inv live sid sent got (h, n) →
  t_out (traffic_of n') = t_out (traffic_of n) ++ d ∧ t_in (traffic_of n') = t_in (traffic_of n) ∧
  conn_inv live sid sent got (h', n') ∧ no_frames es.
Proof.
  intros Ha Hinv.
  destruct (activity_inv false _ _ live sid sent got h _ _ _ _ _ (send_carries n) Ha)
    as (t'&Ht&Ho&Hi&Hinv'&Hn); [done..|].
  unfold conn_inv. cbn [fst snd]. rewrite Ht. cbn [add_out t_out t_in]. rewrite Ho, Hi. split_and!; [done..| |done].
  by eapply end_inv_traffic; [..|exact Hinv'].
Qed.

Lemma drain_output_inv live sid sent got c :
  conn_inv live sid sent got c →
  let '(out, c', es) := drain_output c in
  t_out (traffic_of c'.2) = t_out (traffic_of c.2) ++ out ∧ t_in (traffic_of c'.2) = t_in (traffic_of c.2) ∧
  conn_inv live sid sent got c' ∧ no_frames es.
Proof.
  intros Hc. unfold drain_output.
  set (P := λ s : bytes * conn * list effect, let '(out, c', es) := s in
    t_out (traffic_of c'.2) = t_out (traffic_of c.2) ++ out ∧ t_in (traffic_of c'.2) = t_in (traffic_of c.2) ∧
    conn_inv live sid sent got c' ∧ no_frames es).
  apply (loop_inv _ _ P P); [unfold P; by rewrite app_nil_r|..];
    intros [[out [h n]] es] s' (Ho&Hi&Hinv&Hn); unfold drain_output_step;
    destruct (run_activity (mem_send n) h) as [[[d n'] h'] es'] eqn:Ha;
    destruct (mem_send_inv _ _ _ _ _ _ _ _ _ _ Ha Hinv) as (Ho'&Hi'&Hinv'&Hn');
    destruct d as [|b d]; try done; intros [= <-]; unfold P; cbn [fst snd] in *;
    rewrite Ho', Hi', Ho, <-app_assoc; split_and!; auto using no_frames_app.
  by rewrite app_nil_r.
Qed.

Lemma receive_bytes_inv sid sent got d c :
  conn_inv true sid sent got c →
  let '(_, c', es) := receive_bytes d c in
  t_out (traffic_of c'.2) = t_out (traffic_of c.2) ∧ t_in (traffic_of c'.2) = t_in (traffic_of c.2) ++ d ∧
  conn_inv true sid sent got c' ∧ no_frames es.
Proof.
  destruct c as [h n]. intros Hc. unfold receive_bytes.
  destruct (run_activity (mem_recv d n) h) as [[[rv n'] h'] es'] eqn:Ha.
  destruct (activity_inv true _ _ true sid sent got h _ _ _ _ _ (recv_carries d n) Ha) as (t'&Ht&Ho&Hi&Hinv&Hn);
    [done|by eapply end_inv_traffic; [..|exact Hc]|].
  cbn [fst snd]. subst t'. rewrite Ho, Hi. done.
Qed.

(** ** Operations *)

(** An operation that only adds frames to queues. *)
Definition quiet {A} (f : section A) : Prop := ∀ c,
  let '(_, c', es) := f c in
  traffic_of c'.2 = traffic_of c.2 ∧ refused_streams c'.1 = refused_streams c.1 ∧
  keeps_field (λ st, (recv_buf st, chan st)) c.1 c'.1 ∧
  ∀ sid, ∃ envs, Forall2 encodes (queued_frames sid es) envs ∧ queued sid c'.1 = queued sid c.1 ++ concat envs.

Lemma quiet_inv {A} (f : section A) live sid sent got c :
  quiet f → conn_inv live sid sent got c →
  let '(_, c', es) := f c in
  traffic_of c'.2 = traffic_of c.2 ∧ conn_inv live sid (sent ++ queued_frames sid es) got c'.
Proof.
  intros Hf (Hs&Hr&He). specialize (Hf c). destruct (f c) as [[a c'] es]. destruct Hf as (Ht&Href&Hk&Hq).
  split; [done|]. unfold conn_inv, end_inv. rewrite Ht. destruct (Hq sid) as (envs&Henv&Hqueue). split_and!.
  - by eapply sender_queue.
  - pose proof (Hk sid) as Hks. injection Hks as Hb Hc. eapply receiver_same; [exact Hr|done..| |done]. by rewrite Href.
  - intros Hl. eapply no_eof_keeps; [|by apply He]. intros s0. pose proof (Hk s0) as Hks. by injection Hks.
Qed.

(** Operations that add none. *)
Lemma quiet_queues h h' n es es' :
  keeps_field queues h h' → refused_streams h' = refused_streams h → no_frames es' →
  traffic_of (calls es n) = traffic_of n ∧ refused_streams h' = refused_streams h ∧
  keeps_field (λ st, (recv_buf st, chan st)) h h' ∧
  ∀ sid, ∃ envs, Forall2 encodes (queued_frames sid es') envs ∧ queued sid h' = queued sid h ++ concat envs.
Proof.
  intros Hk Href Hn. rewrite calls_traffic. split_and!; [done|done|..].
  - intros sid. pose proof (Hk sid) as Hq. by injection Hq as _ -> ->.
  - intros sid. exists []. rewrite Hn. split; [done|]. cbn [concat]. rewrite app_nil_r.
    pose proof (Hk sid) as Hq. unfold queued. by injection Hq as -> _ _.
Qed.

Lemma quiet_same {A} (f : conn → A) : quiet (λ c, (f c, c, [])).
Proof. intros [h n]. by apply (quiet_queues h h n []). Qed.

Lemma quiet_send sid t p : quiet (send_frame_section sid t p).
Proof.
  intros [h n]. unfold send_frame_section, send_frame, enqueue_send. cbn [fst snd].
  destruct (h2_closed h); [by apply (quiet_queues h h n [])|].
  case_decide; [by apply (quiet_queues h h n [])|].
  destruct (encode_h2_envelope t p) as [env|] eqn:He; [|by apply (quiet_queues h h n [])].
  destruct (get_or_create_stream sid h) as [st h1] eqn:Hg. pose proof (keeps_get queues sid h) as Hk.
  rewrite Hg in Hk. apply get_or_create_stream_spec in Hg as (->&_&_&Href&_). cbn [snd fst] in *.
  rewrite calls_traffic. split_and!; [done|done|..].
  - assert (keeps_field (λ st, (recv_buf st, chan st)) h h1) as Hk1.
    { intros s0. pose proof (Hk s0) as Hq. by injection Hq as _ -> ->. }
    etrans; [exact Hk1|]. apply keeps_put. cbn. pose proof (Hk1 sid) as Hq. by injection Hq as -> ->.
  - intros s0. cbn [queued_frames omap list_omap]. 
    assert (queued_frames s0 ((match send_pending (stream_of sid h) with [] => [resume_data sid] | _ => [] end) ++ [drain_to_wire]) = [])
      as Hn by (by destruct (send_pending _)).
    unfold queued_frames in Hn. rewrite Hn. destruct (decide (sid = s0)) as [->|Hne].
    + exists [env]. split; [by constructor|]. unfold queued. rewrite stream_of_put. cbn [send_pending concat].
      unfold pending_bytes. rewrite fmap_app, concat_app. cbn. by rewrite !app_nil_r.
    + exists []. split; [done|]. unfold queued. rewrite stream_of_put_ne by done. cbn [concat]. rewrite app_nil_r.
      pose proof (Hk s0) as Hq. by injection Hq as -> _ _.
Qed.

Lemma quiet_await sid : quiet (receive_section sid).
Proof.
  intros [h n]. unfold receive_section, receive_frame. pose proof (keeps_get queues sid h) as Hk. cbn [fst snd].
  destruct (get_or_create_stream sid h) as [st h1] eqn:Hg. apply get_or_create_stream_spec in Hg as (_&_&_&Href&_).
  by apply (quiet_queues h h1 n []).
Qed.

Lemma quiet_close_stream sid code : quiet (close_stream_section sid code).
Proof.
  intros [h n]. unfold close_stream_section, close_stream. cbn [fst snd].
  destruct (h2_closed h); [by apply (quiet_queues h h n [])|].
  destruct (streams h !! sid) as [st|] eqn:Hs.
  - apply quiet_queues; [|done|by destruct (resumes sid n)]. apply keeps_put. unfold stream_of. by rewrite Hs.
  - by apply quiet_queues.
Qed.

Lemma quiet_close_begin : quiet close_begin_section.
Proof.
  intros [h n]. unfold close_begin_section, close_session_begin. cbn [fst snd].
  destruct (h2_closed h); [by apply (quiet_queues h h n [])|]. by apply quiet_queues.
Qed.

Lemma quiet_close_end : quiet close_end_section.
Proof. intros [h n]. by apply (quiet_queues h (set_closed h) n []). Qed.

Lemma quiet_submit host path : quiet (submit_section host path).
Proof.
  intros [h n]. unfold submit_section, submit_request. cbn [fst snd]. case_decide; [by apply quiet_queues|].
  pose proof (keeps_get queues (request_id host path n) h) as Hk.
  destruct (get_or_create_stream _ h) as [st h1] eqn:Hg. apply get_or_create_stream_spec in Hg as (_&_&_&Href&_).
  by apply quiet_queues.
Qed.

(** The end of [run] pushes end-of-file into every channel. *)
Lemma exit_inv live sid sent got c :
  conn_inv live sid sent got c →
  traffic_of (exit_section c).1.2.2 = traffic_of c.2 ∧ no_frames (exit_section c).2 ∧
  conn_inv false sid sent got (exit_section c).1.2.
Proof.
  destruct c as [h n]. intros (Hs&Hr&_). split_and!; [done|done|]. unfold conn_inv. cbn [fst snd exit_section run_exit].
  assert (∀ s0, ∃ st', stream_of s0 (set_closed (set_streams ((λ st, mkStreamState (recv_buf st) (send_pending st)
    (send_closed st) (try_send item_eof (chan st)).2 (response_sent st) (st_authorization st) (st_content_type st)
    (st_proto_version st)) <$> streams h) h)) = st' ∧ send_pending st' = send_pending (stream_of s0 h) ∧
    recv_buf st' = recv_buf (stream_of s0 h) ∧
    (chan st' = chan (stream_of s0 h) ∨ chan st' = (try_send item_eof (chan (stream_of s0 h))).2)) as Hst.
  { intros s0. eexists. split; [reflexivity|]. unfold stream_of. cbn. rewrite lookup_fmap.
    destruct (streams h !! s0); cbn; auto. }
  destruct (Hst sid) as (st'&Heq&Hp&Hb&Hch). split_and!; [|..|done].
  - eapply sender_same; [exact Hs|unfold queued; cbn [snd fst] in *; by rewrite Heq, Hp|done..].
  - destruct Hr as (chunks&Hpre&Hc&Hsub&Hpf&Hl). exists chunks. cbv zeta. rewrite Heq.
    assert (capacity (chan st') = kChannelCapacity ∧ frames_in (chan st') = frames_in (chan (stream_of sid h)))
      as [-> ->].
    { destruct Hch as [->| ->]; [done|]. pose proof (try_send_spec item_eof (chan (stream_of sid h))) as Ht.
      destruct (try_send _ _) as [ok c']. destruct Ht as (Hcap&_&Hbuf). cbn [snd]. unfold frames_in.
      rewrite Hbuf, Hcap. split; [done|]. destruct ok; [by rewrite omap_app, app_nil_r|done]. }
    split_and!; [done..|]. intros Ho Hre. destruct (Hl Ho Hre) as (?&?&_). split_and!; [done|by rewrite Hb|done].
Qed.

(** The end of a wait. *)
Definition got_frames (sid sid' : Z) (r : expected unit h2_frame) : list h2_frame :=
  match r with Ok f => if decide (sid' = sid) then [f] else [] | Err _ => [] end.

Lemma receive_end_inv live sid sid' sent got h n r h' :
  receive_frame_end sid' h = (Some r, h') → conn_inv live sid sent got (h, n) →
  conn_inv live sid sent (got ++ got_frames sid sid' r) (h', n).
Proof.
  unfold receive_frame_end. destruct (streams h !! sid') as [st|] eqn:Hst; [|done].
  pose proof (async_receive_spec (chan st)) as Ha. destruct (async_receive (chan st)) as [[i c']|]; [|done].
  destruct Ha as [Hb Hcap]. intros [= <- <-] (Hs&Hr&He).
  assert (stream_of sid' h = st) as Hsh by (unfold stream_of; by rewrite Hst).
  unfold conn_inv. cbn [fst snd]. split_and!.
  - eapply sender_same; [exact Hs| |done..]. unfold queued. f_equal.
    refine (keeps_put send_pending sid' _ h _ sid). by rewrite Hsh.
  - destruct (decide (sid' = sid)) as [->|Hne].
    + unfold receiver in Hr. cbv zeta in Hr. cbn [fst snd] in Hr. rewrite Hsh in Hr. destruct Hr as (chunks&Hpre&Hc&Hsub&Hpf&Hl).
      exists chunks. cbv zeta. rewrite stream_of_put. cbn [chan recv_buf]. rewrite Hcap.
      assert (frames_in (chan st) = got_frames sid sid
        (match i return expected unit h2_frame with item_frame t p => Ok (t, p) | item_eof => Err tt end) ++
        frames_in c') as Hf.
      { unfold frames_in. rewrite Hb. destruct i; cbn [got_frames omap list_omap item_to_frame]; [|done].
        by rewrite decide_True. }
      rewrite Hf in Hsub, Hpf, Hl. rewrite <-app_assoc. by split_and!.
    + replace (got_frames sid sid' _) with (@nil h2_frame) by (by destruct i; cbn; rewrite ?decide_False by done).
      rewrite app_nil_r. eapply receiver_same; [exact Hr|by rewrite stream_of_put_ne..|done|done].
  - intros Hl. apply no_eof_put; [by apply He|]. cbn [chan]. specialize (He Hl sid'). cbn [fst] in He. rewrite Hsh, Hb in He.
    by apply not_elem_of_cons in He as [_ ?].
Qed.

(** ** From one end to the other *)
Lemma fresh_inv m max sid c :
  c = init_nghttp2 (new_h2_session m max) ∨ c = init_nghttp2 (set_new_stream_handler (new_h2_session m max)) →
  conn_inv true sid [] [] c.
Proof.
  intros Hc. assert (traffic_of c.2 = no_traffic ∧ streams c.1 = ∅) as [Ht Hs]
    by (destruct Hc as [->| ->]; cbn; by rewrite new_traffic).
  assert (∀ s0, stream_of s0 c.1 = new_stream) as Hst by (intros s0; unfold stream_of; by rewrite Hs, lookup_empty).
  destruct (new_channel_spec kChannelCapacity) as [Hb Hk]. unfold conn_inv. rewrite Ht. split_and!.
  - exists []. split; [done|]. right. split; [set_solver|]. unfold queued. by rewrite Hst.
  - exists []. cbv zeta. rewrite Hst. unfold frames_in. cbn [new_stream chan recv_buf feed fst snd concat].
    rewrite Hb, Hk. cbn [omap list_omap app]. split_and!; [apply prefix_nil|done..].
  - intros _ s0. rewrite Hst. cbn [new_stream chan]. rewrite Hb. apply not_elem_of_nil.
Qed.

(** What is found in the first bytes of a sequence of envelopes. *)
Lemma feed_prefix chunks : ∀ frames envs buf,
  Forall2 encodes frames envs → (buf ++ concat chunks) `prefix_of` concat envs →
  (feed buf chunks).1 `prefix_of` frames.
Proof.
  induction chunks as [|c chunks IH]; intros frames envs buf Hf Hp; cbn [feed concat] in *; [apply prefix_nil|].
  destruct Hp as [tail Ht]. rewrite app_assoc, <-app_assoc in Ht.
  destruct (drain_prefix frames envs Hf (buf ++ c) (concat chunks ++ tail)) as (fs1&fs2&envs2&b&->&Hf2&->&Hb); [done|].
  specialize (IH fs2 envs2 b Hf2). destruct (feed b chunks) as [fs' b']. cbn [fst] in *.
  apply prefix_app, IH. exists tail. by rewrite <-app_assoc, Hb.
Qed.

Lemma ends_agree live live' sid sent got sent' got' c c' :
  conn_inv live sid sent got c → conn_inv live' sid sent' got' c' →
  t_in (traffic_of c'.2) `prefix_of` t_out (traffic_of c.2) →
  got' `sublist_of` sent ∧ (length sent ≤ kChannelCapacity → got' `prefix_of` sent).
Proof.
  intros ((envs&He&Hs)&_) (_&(chunks&Hc&_&Hsub&Hpre&_)&_) Hw.
  assert (t_pulled (traffic_of c.2) !!! sid `prefix_of` concat envs) as Hpull
    by (destruct Hs as [[_ ?]|[_ <-]]; [done|by apply prefix_app_r]).
  assert (concat chunks `prefix_of` concat envs) as Hch.
  { etrans; [exact Hc|]. etrans; [apply delivers_data|]. etrans; [|exact Hpull]. etrans; [|apply sends_pulled].
    destruct Hw as [w ->]. apply stream_data_mono. }
  pose proof (feed_prefix chunks sent envs [] He Hch) as Hf. split.
  - trans (feed [] chunks).1; [|destruct Hf as [w ->]; by apply sublist_inserts_r].
    etrans; [|exact Hsub]. by apply sublist_inserts_r.
  - intros Hlen. etrans; [|exact Hf]. etrans; [|apply Hpre]; [by apply prefix_app_r|].
    apply prefix_length in Hf. lia.
Qed.
End wire.
