(* ===== verification/H2Turns.v ===== *)
(** * libculpeo-transport-h2: coroutines and the socket

    How a coroutine of the session uses the socket: what [drain_to_wire] gets from
    nghttp2 is what it writes next, only [run] reads, what it has read is what it
    gives to nghttp2 next, and it ends with its last section.  A turn of such a
    coroutine is a sequence of moves of its connection. *)

From ITree Require Import ITree ITreeFacts.
From S2P Require Import Prelude Bytes H2Frame H2Session H2Facts H2Safety H2Run H2Pool H2Wire.

Local Open Scope co_scope.

Lemma observe_bind {E : Type → Type} {R S : Type} (t : itree E R) (K : R → itree E S) :
  observe (ITree.bind t K) =
    match observe t with
    | RetF r => observe (K r)
    | TauF t => TauF (ITree.bind t K)
    | VisF e k => VisF e (λ a, ITree.bind (k a) K)
    end.
Proof. unfold observe at 1. cbn. change (_observe t) with (observe t). by destruct (observe t). Qed.

Section turns.
Context {CL : ChannelLib} {NG : Nghttp2} {HW : Http2Wire}.

(** [run] may read and leave its loop; the body of the loop may read. *)
Inductive role := plain | looping | running.

#[export] Instance role_eq_dec : EqDecision role.
Proof. solve_decision. Defined.

(** Sections that do what [drain_to_wire], [nghttp2_session_mem_recv] and the end of
    [run] do. *)
Definition drains {A} (f : section A) (out : A → bytes) : Prop :=
  ∀ c, drain_output c = (out (f c).1.1, (f c).1.2, (f c).2).
Definition receives (d : bytes) {A} (f : section A) : Prop :=
  ∀ c, (receive_bytes d c).1.2 = (f c).1.2 ∧ (receive_bytes d c).2 = (f c).2.
Definition exits {A} (f : section A) : Prop :=
  ∀ c, (exit_section c).1.2 = (f c).1.2 ∧ (exit_section c).2 = (f c).2.

Section protocol.
Context {R : Type} (X : role → itree h2E R → Prop).

(** The coroutine writes [out] next, when there is something to write. *)
Definition writes_then (r : role) (out : bytes) (t : itree h2E R) : Prop :=
  match out with
  | [] => X r t
  | _ => ∃ k, observe t = VisF (WriteAll out) k ∧ ∀ ok, X r (k ok)
  end.

(** The coroutine gives the bytes it has read to nghttp2 next. *)
Definition reads_then (r : role) (d : option bytes) (t : itree h2E R) : Prop :=
  match d with
  | Some (b :: d) =>
      ∃ (A : Type) (f : section A) k, observe t = VisF (OnStrand f) k ∧ receives (b :: d) f ∧ ∀ a, X r (k a)
  | _ => X r t
  end.

Definition wired_event (r : role) {A} (e : h2E A) : (A → itree h2E R) → Prop :=
  match e in h2E A return (A → itree h2E R) → Prop with
  | OnStrand f => λ k,
      (quiet f ∧ ∀ a, X r (k a)) ∨
      (∃ out, drains f out ∧ ∀ a, writes_then r (out a) (k a)) ∨
      (r = running ∧ exits f ∧ ∀ a, X plain (k a))
  | ReadSome => λ k, r ≠ plain ∧ ∀ d, reads_then r d (k d)
  | WriteAll _ => λ _, False
  | AwaitFrame _ => λ k, ∀ a, X r (k a)
  end.

Definition wired_step (r : role) (t : itree h2E R) : Prop :=
  match observe t with
  | RetF _ => True
  | TauF t => X r t
  | VisF e k => wired_event r e k
  end.
End protocol.

(** A coroutine in a role: the greatest property that its steps keep. *)
Definition wired (r : role) (R : Type) (t : itree h2E R) : Prop :=
  ∃ X : role → itree h2E R → Prop, (∀ r t, X r t → wired_step X r t) ∧ X r t.

(** The steps of a sequence are those of its first part. *)
Lemma wired_event_bind {R S} (X : role → itree h2E R → Prop) (Y : role → itree h2E S → Prop) (K : R → itree h2E S)
    r r' {A} (e : h2E A) k :
  (r' = plain → r = plain) → (∀ t, X r t → Y r' (ITree.bind t K)) →
  (r = running → r' = running ∧ ∀ t, X plain t → Y plain (ITree.bind t K)) →
  wired_event X r e k → wired_event Y r' e (λ a, ITree.bind (k a) K).
Proof.
  intros Hr' HXY Hrun. destruct e as [A f| |b|sid]; cbn.
  - intros [[Hq Hk]|[(out&Hd&Hk)|(Hr&He&Hk)]]; [left|right; left|right; right; destruct (Hrun Hr); auto].
    + split; [done|]. auto.
    + exists out. split; [done|]. intros a. specialize (Hk a). unfold writes_then in *.
      destruct (out a) as [|b o]; [auto|]. destruct Hk as (k'&Hk&Hok). exists (λ ok, ITree.bind (k' ok) K).
      rewrite observe_bind, Hk. auto.
  - intros [Hp Hk]. split; [tauto|]. intros d. specialize (Hk d). unfold reads_then in *.
    destruct d as [[|b d]|]; [auto| |auto]. destruct Hk as (B&f&k'&Hk&Hf&Hok).
    exists B, f, (λ a, ITree.bind (k' a) K). rewrite observe_bind, Hk. auto.
  - done.
  - auto.
Qed.

Lemma wired_event_mono {R} (X Y : role → itree h2E R → Prop) r {A} (e : h2E A) k :
  (∀ r t, X r t → Y r t) → wired_event X r e k → wired_event Y r e k.
Proof.
  intros HXY. destruct e as [A f| |b|sid]; cbn.
  - intros [[Hq Hk]|[(out&Hd&Hk)|(?&?&Hk)]]; [left|right; left|right; right]; [by auto| |by auto].
    exists out. split; [done|]. intros a. specialize (Hk a). unfold writes_then in *.
    destruct (out a); [auto|]. destruct Hk as (k'&?&?). eauto.
  - intros [Hp Hk]. split; [done|]. intros d. specialize (Hk d). unfold reads_then in *.
    destruct d as [[|b d]|]; [auto| |auto]. destruct Hk as (B&f&k'&?&?&?). eauto 7.
  - done.
  - auto.
Qed.

Lemma wired_unfold r R (t : itree h2E R) : wired r R t → wired_step (λ r, wired r R) r t.
Proof.
  intros (X&HX&Ht). specialize (HX r t Ht) as Hs. unfold wired_step in *.
  destruct (observe t) as [|t1|A e k]; [done|by exists X|].
  eapply wired_event_mono; [|exact Hs]. intros r' t' Ht'. by exists X.
Qed.

Lemma wired_ret r R (x : R) : wired r R (Ret x).
Proof. exists (λ _ t, t = Ret x). split; [|done]. by intros r' t ->. Qed.

(** From steps that lead to coroutines known to be wired. *)
Lemma wired_fold r R (t : itree h2E R) : wired_step (λ r, wired r R) r t → wired r R t.
Proof.
  intros Hs. exists (λ r' t', wired_step (λ r, wired r R) r' t'). split; [|done].
  intros r' t' Hs'. unfold wired_step in Hs' |- *. destruct (observe t') as [|t1|A e k]; [done|by apply wired_unfold|].
  eapply wired_event_mono; [|exact Hs']. intros r2 t2 Ht2. by apply wired_unfold.
Qed.

(** The first part of a sequence may be in a smaller role, if it does not end [run]. *)
Lemma wired_bind_role r r' R S (t : itree h2E R) (k : R → itree h2E S) :
  r ≠ running → (r' = plain → r = plain) → wired r R t → (∀ x, wired r' S (k x)) → wired r' S (ITree.bind t k).
Proof.
  intros Hr Hr' Ht Hk.
  exists (λ r2 u, (r2 = r' ∧ ∃ t, wired r R t ∧ u = ITree.bind t k) ∨ wired r2 S u). split; [|by eauto].
  intros r2 u [[-> (t1&Ht1&->)]|Hu]; unfold wired_step.
  - rewrite observe_bind. apply wired_unfold in Ht1. unfold wired_step in Ht1.
    destruct (observe t1) as [x|t2|A e h].
    + specialize (wired_unfold _ _ _ (Hk x)) as Hx. unfold wired_step in Hx.
      destruct (observe (k x)) as [|t2|A e h]; [done|by right|].
      eapply wired_event_mono; [|exact Hx]. intros; by right.
    + left. split; [done|]. by exists t2.
    + eapply wired_event_bind; [exact Hr'| |done|exact Ht1]. intros t3 Ht3. left. split; [done|]. by exists t3.
  - apply wired_unfold in Hu. unfold wired_step in Hu. destruct (observe u) as [|t2|A e h]; [done|by right|].
    eapply wired_event_mono; [|exact Hu]. intros; by right.
Qed.

Lemma wired_bind r R S (t : itree h2E R) (k : R → itree h2E S) :
  r ≠ running → wired r R t → (∀ x, wired r S (k x)) → wired r S (ITree.bind t k).
Proof. intros Hr. by apply wired_bind_role. Qed.

Lemma wired_iter r R I (body : I → itree h2E (I + R)) i :
  r ≠ running → (∀ i, wired r _ (body i)) → wired r R (ITree.iter body i).
Proof.
  intros Hr Hb.
  set (K := λ lr : I + R, match lr with inl j => Tau (ITree.iter body j) | inr x => Ret x end).
  set (Y := λ (r2 : role) (u : itree h2E R), r2 = r ∧
    ((∃ t, wired r _ t ∧ u = ITree.bind t K) ∨ (∃ j, u = ITree.iter body j) ∨ ∃ x, u = Ret x)).
  assert (∀ t, wired r _ t → wired_step Y r (ITree.bind t K)) as Hbind.
  { intros t Ht. unfold wired_step. rewrite observe_bind. apply wired_unfold in Ht. unfold wired_step in Ht.
    destruct (observe t) as [[j|x]|t1|A e h]; cbn.
    - split; [done|]. right. left. by exists j.
    - done.
    - split; [done|]. left. by exists t1.
    - eapply (wired_event_bind _ _ _ r r); [done| |done|exact Ht]. intros t1 Ht1. split; [done|]. left. by exists t1. }
  exists Y. split; [|split; [done|]; right; left; by exists i].
  intros r2 u [-> [(t&Ht&->)|[(j&->)|(x&->)]]]; [by apply Hbind| |done].
  exact (Hbind (body j) (Hb j)).
Qed.

Lemma wired_forget r R (t : itree h2E R) : wired r R t → wired r unit (forget t).
Proof.
  intros Ht. exists (λ r u, (∃ t, wired r R t ∧ u = forget t) ∨ u = Ret tt). split; [|eauto].
  intros r' u [(t'&Ht'&->)| ->]; [|done]. unfold wired_step, forget. rewrite observe_bind.
  apply wired_unfold in Ht'. unfold wired_step in Ht'. destruct (observe t') as [x|t1|A e k]; [done|eauto|].
  eapply (wired_event_bind (λ r, wired r R) _ _ r' r'); [done|..|exact Ht'].
  - intros t1 Ht1. left. by exists t1.
  - intros ->. split; [done|]. intros t1 Ht1. left. by exists t1.
Qed.

Lemma wired_quiet r {A} (f : section A) : quiet f → wired r A (on_strand f).
Proof. intros Hf. apply wired_fold. left. split; [done|]. intros a. apply wired_ret. Qed.

Lemma wired_await r sid : wired r _ (ITree.trigger (AwaitFrame sid)).
Proof. apply wired_fold. intros a. apply wired_ret. Qed.

(** ** The operations *)
Lemma wired_drain r : wired r bool drain_to_wire_co.
Proof.
  apply wired_fold. right. left. exists id. split; [by intros c; destruct (drain_output c) as [[out c'] es]|].
  intros [|b out]; cbn; [apply wired_fold; exact I|]. eexists. split; [reflexivity|]. intros ok. apply wired_ret.
Qed.

#[export] Instance wired_logic : CoLogic (wired plain).
Proof. split; intros; [apply wired_ret|by apply wired_bind|by apply wired_iter]. Qed.

Lemma wired_send sid t p : wired plain _ (send_frame_co sid t p).
Proof.
  apply wired_bind; [done|apply wired_quiet, quiet_send|]. intros [|]; [|apply wired_ret].
  apply wired_bind; [done|apply wired_drain|]. intros []; apply wired_ret.
Qed.

Lemma wired_close_stream sid code : wired plain _ (close_stream_co sid code).
Proof.
  apply wired_bind; [done|apply wired_quiet, quiet_close_stream|]. intros []; [apply wired_drain|apply wired_ret].
Qed.

Lemma wired_close_session : wired plain _ close_session_co.
Proof.
  apply wired_bind; [done|apply wired_quiet, quiet_close_begin|]. intros []; [|apply wired_ret].
  apply wired_bind; [done|apply wired_drain|]. intros []; [|apply wired_ret].
  apply wired_bind; [done|apply wired_quiet, quiet_close_end|]. intros _. apply wired_ret.
Qed.

Lemma wired_submit host path : wired plain _ (submit_request_co host path).
Proof.
  apply wired_bind; [done|apply wired_quiet, quiet_submit|]. intros sid. case_decide; [apply wired_ret|].
  apply wired_bind; [done|apply wired_drain|]. intros []; apply wired_ret.
Qed.

Lemma wired_transport sid : transport_in (wired plain) (H2Transport sid).
Proof.
  split_and!; cbn; intros; [apply wired_send..|apply wired_close_stream| |].
  - apply wired_bind; [done|apply wired_quiet, quiet_await|]. intros _. apply wired_await.
  - apply wired_quiet, quiet_same.
Qed.

(** ** [run] *)
Lemma wired_body u : wired looping _ (run_body u).
Proof.
  unfold run_body. apply wired_bind; [done|apply wired_quiet, quiet_same|]. intros []; [apply wired_ret|].
  apply wired_fold. split; [done|]. intros [[|b d]|]; cbn [reads_then].
  - apply wired_fold. exact I.
  - eexists _, (receive_bytes (b :: d)), _. split; [cbn; reflexivity|]. split; [done|]. intros rv.
    apply wired_bind; [done|apply wired_ret|]. intros rv'. case_decide; [apply wired_ret|].
    apply wired_bind; [done|apply wired_drain|]. intros []; [|apply wired_ret].
    apply wired_bind; [done|apply wired_quiet, quiet_same|]. intros []; apply wired_ret.
  - apply wired_fold. exact I.
Qed.

Lemma wired_exit : wired running _ (on_strand exit_section ;;; Ret completed).
Proof.
  apply wired_fold. right. right. split; [done|]. split; [by intros c|]. intros a.
  apply wired_bind; [done|apply wired_ret|]. intros _. apply wired_ret.
Qed.

(** [run] once it has initialized nghttp2, with nobody waiting for its end. *)
Lemma wired_run : wired running _ (forget run_rest).
Proof.
  apply wired_forget, (wired_bind_role looping); [done..|apply wired_drain|]. intros []; [|apply wired_ret].
  apply (wired_bind_role looping); [done..|apply wired_iter; [done|apply wired_body]|].
  intros []; [apply wired_exit|apply wired_ret].
Qed.

(** ** A turn as moves of the connection

    The role of the coroutine, the bytes it has read but not given to nghttp2, the
    bytes it has to write, and the connection. *)
Definition moment : Type := role * bytes * bytes * conn.

Inductive move : moment → list effect → moment → Prop :=
| move_quiet r p c A (f : section A) :
    quiet f → move (r, p, [], c) (f c).2 (r, p, [], (f c).1.2)
| move_drain r p c out c' es :
    drain_output c = (out, c', es) → move (r, p, [], c) es (r, p, out, c')
| move_receive r d c rv c' es :
    d ≠ [] → r ≠ plain → receive_bytes d c = (rv, c', es) → move (r, d, [], c) es (r, [], [], c')
| move_exit c u c' es :
    exit_section c = (u, c', es) → move (running, [], [], c) es (plain, [], [], c').

Inductive moves : moment → list effect → moment → Prop :=
| moves_nil m : moves m [] m
| moves_cons m es m1 es' m' : move m es m1 → moves m1 es' m' → moves m (es ++ es') m'.

Lemma moves_one m es m' : move m es m' → moves m es m'.
Proof. intros Hm. rewrite <-(app_nil_r es). eapply moves_cons; [exact Hm|apply moves_nil]. Qed.

Lemma moves_app m es m1 es' m' : moves m es m1 → moves m1 es' m' → moves m (es ++ es') m'.
Proof.
  induction 1 as [m|m es m2 es2 m1 Hm _ IH]; [done|]. intros H. rewrite <-app_assoc. eapply moves_cons; eauto.
Qed.

Let W := λ r, wired r unit.

(** A coroutine on the strand, and one of the connection. *)
Definition ready_in (r : role) (p out : bytes) (t : itree h2E unit) : Prop :=
  match out with
  | [] => reads_then W r (Some p) t ∧ (p ≠ [] → r ≠ plain)
  | _ => p = [] ∧ writes_then W r out t
  end.

Definition co_in (r : role) (p : bytes) (s : co) : Prop :=
  match s with
  | ready t => ready_in r p [] t
  | reading k => p = [] ∧ r ≠ plain ∧ ∀ d, reads_then W r d (k d)
  | writing b k => p = [] ∧ b ≠ [] ∧ ∀ ok, W r (k ok)
  | receiving _ k => p = [] ∧ ∀ a, W r (k a)
  | finished => p = []
  end.

Definition to_write (s : co) : bytes := match s with writing b _ => b | _ => [] end.

Lemma ready_wired r t : wired r unit t → ready_in r [] [] t.
Proof. by split. Qed.

Lemma co_step_moves c t c1 s es r p out :
  co_step c t = (c1, s, es) → ready_in r p out t →
  match s with
  | ready t1 => ∃ r1 p1 out1, moves (r, p, out, c) es (r1, p1, out1, c1) ∧ ready_in r1 p1 out1 t1
  | _ => p = [] ∧ es = [] ∧ c1 = c ∧ to_write s = out ∧ co_in r [] s
  end.
Proof.
  unfold co_step, ready_in. destruct out as [|b out].
  - intros Hs [Ht Hp]. destruct p as [|b p].
    + cbn [reads_then] in Ht. apply wired_unfold in Ht. unfold wired_step in Ht.
      destruct (observe t) as [x|t1|A e k]; [by simplify_eq| |].
      { simplify_eq. exists r, [], []. split; [apply moves_nil|by apply ready_wired]. }
      destruct e as [A f| |b|sid]; cbn in Ht; [|destruct Ht; simplify_eq; by split_and!|done|simplify_eq; by split_and!].
      destruct (f c) as [[a c2] es2] eqn:Hf. simplify_eq. destruct Ht as [[Hq Hk]|[(out&Hd&Hk)|(->&He&Hk)]].
      * exists r, [], []. split; [|by apply ready_wired].
        apply moves_one. pose proof (move_quiet r [] c A f Hq) as Hm. by rewrite Hf in Hm.
      * exists r, [], (out a). specialize (Hd c). rewrite Hf in Hd. split; [by apply moves_one, move_drain|].
        specialize (Hk a). unfold ready_in. destruct (out a); [by apply ready_wired|done].
      * exists plain, [], []. split; [|by apply ready_wired]. destruct (He c) as [H1 H2]. rewrite Hf in H1, H2.
        destruct (exit_section c) as [[u c3] es3] eqn:Hx. cbn [fst snd] in H1, H2. subst.
        apply moves_one. by eapply move_exit.
    + destruct Ht as (B&f&k&Hobs&Hf&Hk). rewrite Hobs in Hs. destruct (f c) as [[a c2] es2] eqn:Hfc. simplify_eq.
      exists r, [], []. split; [|apply ready_wired, Hk]. destruct (Hf c) as [H1 H2]. rewrite Hfc in H1, H2.
      destruct (receive_bytes (b :: p) c) as [[rv c3] es3] eqn:Hr. cbn in H1, H2. subst.
      apply moves_one. eapply move_receive; [done|by apply Hp|done].
  - intros Hs [-> (k&Hobs&Hk)]. rewrite Hobs in Hs. simplify_eq. by split_and!.
Qed.

Lemma turn_moves c t c' s es :
  turn c t c' s es → ∀ r p out, ready_in r p out t →
  ∃ r', moves (r, p, out, c) es (r', [], to_write s, c') ∧ co_in r' [] s.
Proof.
  induction 1 as [c t c' s es Hs Hn|c t c1 t1 es1 c' s es Hs _ IH]; intros r p out Ht.
  - pose proof (co_step_moves _ _ _ _ _ _ _ _ Hs Ht) as Hm. exists r.
    destruct s as [t'| | | |]; [by destruct (Hn t')|..];
      destruct Hm as (->&->&->&<-&Hco); (split; [apply moves_nil|exact Hco]).
  - destruct (co_step_moves _ _ _ _ _ _ _ _ Hs Ht) as (r1&p1&out1&Hm&Ht1).
    destruct (IH r1 p1 out1 Ht1) as (r'&Hms&Hco). exists r'. split; [by eapply moves_app|done].
Qed.

(** ** What moves keep *)
Lemma move_role m es m' : move m es m' → m'.1.1.1 = m.1.1.1 ∨ m.1.1.1 = running ∧ m'.1.1.1 = plain.
Proof. destruct 1; cbn; auto. Qed.

Lemma moves_plain m es m' : moves m es m' → m.1.1.1 = plain → m'.1.1.1 = plain.
Proof.
  induction 1 as [m|m es m1 es' m' Hm _ IH]; [done|]. intros Hp. apply IH.
  destruct (move_role _ _ _ Hm) as [->|[_ ?]]; done.
Qed.

(** The invariant of an end with [run] in role [rr], when a coroutine moves that is
    [run] or has no role. *)
Definition end_role (rr : role) (sid : Z) (sent got : list h2_frame) (c : conn) : Prop :=
  conn_inv (bool_decide (rr ≠ plain)) sid sent got c.

Lemma move_inv sid sent got rr r p out c es r' p' out' c' :
  move (r, p, out, c) es (r', p', out', c') → r = rr ∨ r = plain →
  end_role rr sid sent got c →
  end_role (if decide (r = plain) then rr else r') sid (sent ++ queued_frames sid es) got c' ∧
  ∃ x y, t_out (traffic_of c'.2) = t_out (traffic_of c.2) ++ x ∧ out' = out ++ x ∧
         t_in (traffic_of c'.2) = t_in (traffic_of c.2) ++ y ∧ p = y ++ p'.
Proof.
  intros Hm Hr Hinv.
  assert (∀ r0, (if decide (r0 = plain) then rr else r0) = rr ∨ r0 ≠ rr ∧ r0 ≠ plain) as Hrole
    by (intros r0; case_decide; [by left|destruct (decide (r0 = rr)) as [->|]; auto]).
  inversion Hm as [r0 p0 c0 A f Hq|r0 p0 c0 o c1 es0 Hd|r0 d c0 rv c1 es0 Hne Hp Hrb|c0 u c1 es0 Hx]; subst.
  - destruct (Hrole r') as [->|[? ?]]; [|by destruct Hr].
    pose proof (quiet_inv f _ sid sent got c Hq Hinv) as Hi. destruct (f c) as [[a c1] es1]. cbn [fst snd].
    destruct Hi as [-> Hi]. split; [exact Hi|]. exists [], []. by rewrite !app_nil_r.
  - destruct (Hrole r') as [->|[? ?]]; [|by destruct Hr].
    pose proof (drain_output_inv _ sid sent got c Hinv) as Hi. rewrite Hd in Hi. destruct Hi as (Ho&Hin&Hi&Hn).
    rewrite (Hn sid), app_nil_r. split; [exact Hi|]. exists out', []. rewrite app_nil_r. by rewrite Ho, Hin.
  - destruct Hr as [->|]; [|done]. rewrite decide_False by done.
    unfold end_role in *. rewrite bool_decide_eq_true_2 in * by done.
    pose proof (receive_bytes_inv sid sent got p c Hinv) as Hi. rewrite Hrb in Hi. destruct Hi as (Ho&Hin&Hi&Hn).
    rewrite (Hn sid), app_nil_r. split; [exact Hi|]. exists [], p. rewrite !app_nil_r. by rewrite Ho, Hin.
  - destruct Hr as [<-|]; [|done]. destruct (exit_inv _ sid sent got c Hinv) as (Ht&Hn&Hi).
    rewrite Hx in Ht, Hn, Hi. cbn [fst snd] in Ht, Hn, Hi.
    rewrite (Hn sid), app_nil_r, decide_False by done. split; [exact Hi|]. exists [], []. by rewrite Ht, !app_nil_r.
Qed.

Lemma moves_inv sid m es m' :
  moves m es m' → ∀ sent got rr, m.1.1.1 = rr ∨ m.1.1.1 = plain →
  end_role rr sid sent got m.2 →
  end_role (if decide (m.1.1.1 = plain) then rr else m'.1.1.1) sid (sent ++ queued_frames sid es) got m'.2 ∧
  ∃ x y, t_out (traffic_of m'.2.2) = t_out (traffic_of m.2.2) ++ x ∧ m'.1.2 = m.1.2 ++ x ∧
         t_in (traffic_of m'.2.2) = t_in (traffic_of m.2.2) ++ y ∧ m.1.1.2 = y ++ m'.1.1.2.
Proof.
  induction 1 as [[[[r p] o] c]|m es m1 es' m' Hm Hms IH]; intros sent got rr Hr Hinv; cbn [fst snd] in *.
  - rewrite app_nil_r. split; [|exists [], []; by rewrite !app_nil_r].
    by destruct Hr as [->| ->]; case_decide.
  - destruct m as [[[r p] o] c], m1 as [[[r1 p1] o1] c1]. cbn [fst snd] in *.
    destruct (move_inv sid sent got rr _ _ _ _ _ _ _ _ _ Hm Hr Hinv) as [Hi1 (x&y&Ho&Hout&Hin&Hp)].
    assert (r1 = (if decide (r = plain) then rr else r1) ∨ r1 = plain) as Hr1.
    { case_decide as Hpl; [|by left]. right. destruct (move_role _ _ _ Hm) as [Heq|[Heq _]]; cbn in Heq; congruence. }
    destruct (IH _ _ _ Hr1 Hi1) as [Hi2 (x'&y'&Ho'&Hout'&Hin'&Hp')].
    rewrite queued_frames_app, app_assoc. split.
    + pose proof (moves_plain _ _ _ Hms) as Hpl. pose proof (move_role _ _ _ Hm) as Hro. cbn [fst] in Hpl, Hro.
      destruct (decide (r = plain)) as [->|Hn].
      * assert (r1 = plain) as -> by (destruct Hro as [->|[? _]]; done). by rewrite decide_True in Hi2 by done.
      * case_decide as Hp1; [|done]. subst r1. by rewrite Hpl.
    + exists (x ++ x'), (y ++ y'). rewrite Ho', Ho, Hin', Hin, Hout', Hout, Hp, Hp', <-!app_assoc. done.
Qed.
End turns.
