(* ===== verification/H2System.v ===== *)
(** * libculpeo-transport-h2: a server connection under load

    The coroutines of [H2Pool] on a server's connection, interleaved in any way,
    with nghttp2 calling back in the order of the HTTP/2 life cycle of streams: the
    invariant of [H2View] in every execution, the requests that exhaust a
    connection, and the first turns of a loop and of a frame that is sent. *)

From ITree Require Import ITree ITreeFacts.
From S2P Require Import Prelude Bytes H2Frame H2Session H2Facts H2Safety H2Theorems H2Run H2Pool H2View.

Local Open Scope co_scope.

(** ** The engine's side of the contract *)
Section system.
Context {CL : ChannelLib} {NG : Nghttp2}.

(** The activity [a] calls back as nghttp2 does, starting from the view [v], and
    its result has the streams open that it has reported. *)
Fixpoint orderly (open_of : ng → gset Z) (last_of : ng → Z) {R} (a : activity ng R) (v : view) : Prop :=
  match a with
  | returns _ n => open_of n = v.1.2 ∧ last_of n = v.2
  | calls_back cb k =>
      callback_allowed cb v ∧ orderly open_of last_of (k (h2_apply (as_event cb) v.1.1).2) (after cb v)
  | reads_data sid len k =>
      let '(d, h) := data_read_callback sid len v.1.1 in orderly open_of last_of (k d) (h, v.1.2, v.2)
  end.

(** At a server, nghttp2 reports each request once, with increasing identifiers,
    and data and the close of a stream only while the stream is open.  A call from
    outside a callback reports nothing by itself. *)
Class Http2Order := {
  ng_open : ng → gset Z;
  ng_last : ng → Z;
  new_open m max w : ng_open (ng_new m max w) = ∅;
  call_open e n : ng_open (ng_call e n) = ng_open n;
  call_last e n : ng_last (ng_call e n) = ng_last n;
  recv_orderly d n h :
    mode h = Server → orderly ng_open ng_last (mem_recv d n) (h, ng_open n, ng_last n);
  send_orderly n h :
    mode h = Server → orderly ng_open ng_last (mem_send n) (h, ng_open n, ng_last n);
}.

Context {NO : Http2Order}.

Definition view_of (c : conn) : view := (c.1, ng_open c.2, ng_last c.2).

Lemma orderly_keeps {R} (a : activity ng R) : ∀ v r n h es,
  orderly ng_open ng_last a v → run_activity a v.1.1 = (r, n, h, es) → keeps v (view_of (h, n)).
Proof.
  induction a as [r0 n0|cb k IH|sid len k IH]; intros [[h0 open] l] r n h es; cbn [orderly run_activity fst snd].
  - intros [Ho Hl] [= <- <- <- <-]. unfold view_of. cbn. by rewrite Ho, Hl.
  - intros [Hal Hk] Hrun. etrans; [by apply keeps_callback|].
    destruct (h2_apply (as_event cb) h0) as [h1 es1] eqn:He. cbn [snd] in Hk.
    destruct (run_activity (k es1) h1) as [[[r2 n2] h2] es2] eqn:Hr. injection Hrun as <- <- <- <-.
    eapply IH; [exact Hk|]. unfold after. rewrite He. exact Hr.
  - destruct (data_read_callback sid len h0) as [d h1] eqn:Hd. intros Hk Hrun.
    trans (h1, open, l); [|by eapply IH]. apply grows_keeps.
    pose proof (grows_apply (ev_read sid len) h0 I) as Hg. cbn [h2_apply] in Hg. by rewrite Hd in Hg.
Qed.

Definition conn_keeps (c c' : conn) : Prop := keeps (view_of c) (view_of c').

#[export] Instance conn_keeps_preorder : PreOrder conn_keeps.
Proof. unfold conn_keeps. split; [intros c; reflexivity|]. intros c1 c2 c3 H12 H23. by etrans. Qed.

Lemma conn_keeps_activity {R} (a : activity ng R) h n r n' h' es :
  (mode h = Server → orderly ng_open ng_last a (view_of (h, n))) →
  run_activity a h = (r, n', h', es) → conn_keeps (h, n) (h', n').
Proof.
  intros Ha Hrun Hinv. assert (mode h = Server) as Hm by apply Hinv.
  by apply (orderly_keeps a (view_of (h, n)) r n' h' es (Ha Hm) Hrun).
Qed.

Lemma calls_view es n : ng_open (calls es n) = ng_open n ∧ ng_last (calls es n) = ng_last n.
Proof.
  revert n. induction es as [|e es IH]; intros n; [done|].
  change (calls (e :: es) n) with (calls es (call_nghttp2 e n)). destruct (IH (call_nghttp2 e n)) as [-> ->].
  by destruct e; cbn [call_nghttp2]; rewrite ?call_open, ?call_last.
Qed.

Lemma conn_keeps_calls h h' n es : grows h h' → conn_keeps (h, n) (h', calls es n).
Proof.
  intros Hg. unfold conn_keeps, view_of. cbn. destruct (calls_view es n) as [-> ->]. by apply grows_keeps.
Qed.

(** ** Sections that keep the invariant *)
Definition kept (A : Type) (f : section A) : Prop := ∀ c, conn_keeps c (f c).1.2.

Lemma kept_same {A} (f : conn → A) : kept A (λ c, (f c, c, [])).
Proof. intros c. reflexivity. Qed.

Lemma kept_drain : kept _ drain_output.
Proof.
  intros c. unfold drain_output.
  apply (loop_inv _ _ (λ s : bytes * conn * list effect, conn_keeps c s.1.2)
                      (λ r : bytes * conn * list effect, conn_keeps c r.1.2)); [reflexivity|..];
    intros [[out [h n]] es] s' Hs; unfold drain_output_step; cbn [fst snd] in Hs;
    destruct (run_activity (mem_send n) h) as [[[[|b d] n'] h'] es'] eqn:Ha; try done;
    intros [= <-]; (etrans; [exact Hs|]; eapply conn_keeps_activity; [by apply send_orderly|exact Ha]).
Qed.

Lemma kept_receive d : kept _ (receive_bytes d).
Proof.
  intros [h n]. unfold receive_bytes. destruct (run_activity _ h) as [[[rv n'] h'] es] eqn:Ha.
  eapply conn_keeps_activity; [by apply recv_orderly|exact Ha].
Qed.

Lemma kept_exit : kept _ exit_section.
Proof. intros [h n]. apply (conn_keeps_calls h _ n []). exact (grows_apply ev_run_exit h I). Qed.

Lemma kept_send sid t p : kept _ (send_frame_section sid t p).
Proof.
  intros [h n]. unfold send_frame_section. cbn [fst snd]. pose proof (grows_send sid t p h) as Hg.
  destruct (send_frame sid t p h) as [[r h'] es]. by apply conn_keeps_calls.
Qed.

Lemma kept_await sid : kept _ (receive_section sid).
Proof. intros [h n]. apply (conn_keeps_calls h _ n []). exact (grows_apply (ev_receive sid) h I). Qed.

Lemma kept_close_stream sid code : kept _ (close_stream_section sid code).
Proof.
  intros [h n]. unfold close_stream_section. cbn [fst snd]. destruct (h2_closed h); [reflexivity|].
  pose proof (grows_apply (ev_close_stream sid code (resumes sid n)) h I) as Hg. cbn [h2_apply] in Hg.
  destruct (close_stream _ _ _ h) as [h' es]. by apply conn_keeps_calls.
Qed.

Lemma kept_close_begin : kept _ close_begin_section.
Proof.
  intros [h n]. unfold close_begin_section. cbn [fst snd]. destruct (h2_closed h) eqn:Hc; [reflexivity|].
  unfold close_session_begin. rewrite Hc. by apply conn_keeps_calls.
Qed.

Lemma kept_close_end : kept _ close_end_section.
Proof. intros [h n]. apply (conn_keeps_calls h _ n []). exact (grows_apply ev_close_end h I). Qed.

Lemma kept_submit host path : kept _ (submit_section host path).
Proof.
  intros [h n]. unfold submit_section, submit_request. cbn [fst snd].
  case_decide; apply conn_keeps_calls; [done|apply grows_get].
Qed.

Lemma conn_keeps_received c sid : conn_keeps c ((receive_frame_end sid c.1).2, c.2).
Proof. destruct c as [h n]. apply (conn_keeps_calls h _ n []). exact (grows_apply (ev_receive_end sid) h I). Qed.

(** ** Coroutines made of the session's operations *)
#[local] Hint Resolve kept_same kept_drain kept_receive kept_exit kept_send kept_await kept_close_stream
  kept_close_begin kept_close_end kept_submit : co.

Lemma kept_drain_co : sections kept drain_to_wire_co.
Proof. apply drain_sections, kept_drain. Qed.
#[local] Hint Resolve kept_drain_co : co.

Lemma kept_body u : sections kept (run_body u).
Proof. apply body_sections; auto with co. Qed.

Lemma kept_run : sections kept run_rest.
Proof.
  apply sections_bind; [auto with co|]. intros []; [|auto with co].
  apply sections_bind; [apply sections_iter, kept_body|]. intros []; [|auto with co].
  apply sections_bind; auto with co.
Qed.

Lemma kept_close_stream_co sid code : sections kept (close_stream_co sid code).
Proof. apply close_stream_sections; auto with co. Qed.

Lemma kept_transport sid : transport_in (λ R, @sections _ NG R kept) (H2Transport sid).
Proof. apply transport_sections; intros; try apply kept_same; auto with co. Qed.

Lemma kept_close_session_co : sections kept close_session_co.
Proof.
  apply sections_bind; [auto with co|]. intros []; [|auto with co].
  apply sections_bind; [auto with co|]. intros []; [|auto with co]. apply sections_bind; auto with co.
Qed.

Lemma kept_submit_co host path : sections kept (submit_request_co host path).
Proof. apply submit_sections; auto with co. Qed.

Lemma composed_kept handler outside :
  uses_transport handler → (∀ t, outside t → session_operations t) → Composed kept handler outside.
Proof.
  intros Hh Ho. split.
  - intros sid. apply sections_bind; [apply (Hh (λ R, @sections _ NG R kept)); [apply _|apply kept_transport]|]. intros _. apply kept_close_stream_co.
  - intros t Ht. apply (Ho t Ht (λ R, @sections _ NG R kept)); [apply _|apply kept_transport|apply kept_close_stream_co|
      apply kept_close_session_co|apply kept_submit_co].
Qed.

Lemma accepted_inv max : (0 ≤ max)%Z → view_inv (view_of (accepted max).1).
Proof.
  intros Hmax. unfold accepted, view_of, view_inv, init_nghttp2. cbn. rewrite new_open.
  split_and!; [done|done|set_solver| |set_solver].
  replace (∅ ∖ (∅ : gset Z)) with (∅ : gset Z) by set_solver. by rewrite size_empty.
Qed.

(** Executions from an accepted connection. *)
Lemma connection_keeps handler outside max w w' :
  uses_transport handler → (∀ t, outside t → session_operations t) → (0 ≤ max)%Z →
  pool_steps handler outside (accepted max) w → pool_steps handler outside w w' →
  view_inv (view_of w'.1) ∧ max_concurrent_streams w'.1.1 = max ∧ evolves (view_of w.1) (view_of w'.1).
Proof.
  intros Hh Ho Hmax Hw Hw'. pose proof (composed_kept handler outside Hh Ho) as HC.
  assert (follows kept conn_keeps) as HF by (intros A f c Hf; apply Hf).
  destruct (pool_steps_follow kept conn_keeps handler outside _ _ _ HF conn_keeps_received Hw) as [H1 Hcos].
  { apply Forall_singleton, sections_forget, kept_run. }
  destruct (pool_steps_follow kept conn_keeps handler outside _ _ _ HF conn_keeps_received Hw' Hcos) as [H2 _].
  destruct (H1 (accepted_inv max Hmax)) as [Hi1 (He1&_)]. destruct (H2 Hi1) as [Hi2 He2].
  split_and!; [done| |done]. destruct He2 as [He2 _]. cbn in He1, He2. by rewrite He2, He1.
Qed.

(** ** The first turns of [run] and of a coroutine that sends *)
Lemma run_first_turn h n x b c es :
  drain_output (init_nghttp2 h) = (x :: b, c, es) →
  ∃ k, turn (h, n) (forget run_co) c (writing (x :: b) k) es.
Proof.
  intros Hd. eexists.
  eapply (turn_more _ _ _ _ [] _ _ es); [reflexivity|].
  rewrite <-(app_nil_r es). eapply turn_more; [unfold co_step; cbn; rewrite Hd; reflexivity|].
  apply turn_suspend; [reflexivity|done].
Qed.

Lemma send_first_turn sid t p c0 c1 es0 x b c es :
  send_frame_section sid t p c0 = (Ok tt, c1, es0) → drain_output c1 = (x :: b, c, es) →
  ∃ k, turn c0 (forget (send_frame_co sid t p)) c (writing (x :: b) k) (es0 ++ es).
Proof.
  intros Hs Hd. eexists.
  eapply turn_more; [unfold co_step; cbn; rewrite Hs; reflexivity|].
  rewrite <-(app_nil_r es). eapply turn_more; [unfold co_step; cbn; rewrite Hd; reflexivity|].
  apply turn_suspend; [reflexivity|done].
Qed.

(** ** Theorems *)

(** C16. In every execution of a server's connection, whatever the coroutines of its
    streams do and in whatever order they, [run] and coroutines from outside take
    their turns: at most [max] of the streams that nghttp2 has open are admitted,
    every open stream is in the table or refused, only open streams are refused,
    and the session stays closed once it is closed. *)
Theorem connection_invariant handler outside max w w' :
  uses_transport handler → (∀ t, outside t → session_operations t) → (0 ≤ max)%Z →
  pool_steps handler outside (accepted max) w → pool_steps handler outside w w' →
  let '(h, n) := w'.1 in
  (Z.of_nat (size (ng_open n ∖ refused_streams h)) ≤ max)%Z ∧
  ng_open n ⊆ dom (streams h) ∪ refused_streams h ∧ refused_streams h ⊆ ng_open n ∧
  (h2_closed w.1.1 = true → h2_closed h = true).
Proof.
  intros Hh Ho Hmax Hw Hw'.
  destruct (connection_keeps handler outside max w w' Hh Ho Hmax Hw Hw') as ((_&Hr&Hcov&Hsz&_)&Hx&(_&Hc&_)).
  destruct w' as [[h n] cos]. cbn in *. rewrite Hx in Hsz. done.
Qed.

(** C17. An entry of the stream table whose stream is over is never removed.  As many
    such entries as the connection may have streams, and the server refuses every
    further request of the connection, although no stream may be open. *)
Theorem exhausted_connection handler outside max w w' (lost : gset Z) :
  uses_transport handler → (∀ t, outside t → session_operations t) → (0 ≤ max)%Z →
  pool_steps handler outside (accepted max) w → pool_steps handler outside w w' →
  (∀ sid, sid ∈ lost → stale sid (view_of w.1)) → (max ≤ Z.of_nat (size lost))%Z →
  lost ⊆ dom (streams w'.1.1) ∧
  ∀ f, is_request f w'.1.1 = true →
    on_begin_headers_callback f w'.1.1 =
      (set_refused ({[ hd_stream_id f ]} ∪ refused_streams w'.1.1) w'.1.1,
       [submit_rst_stream (hd_stream_id f) NGHTTP2_REFUSED_STREAM]).
Proof.
  intros Hh Ho Hmax Hw Hw' Hlost Hfull.
  destruct (connection_keeps handler outside max w w' Hh Ho Hmax Hw Hw') as (_&Hx&(_&_&Hs)).
  assert (lost ⊆ dom (streams w'.1.1)) as Hsub by (intros sid Hin; apply (Hs sid); auto).
  split; [done|]. intros f Hf. unfold on_begin_headers_callback. rewrite Hf, Hx, decide_True; [done|].
  apply subseteq_size in Hsub. rewrite size_dom in Hsub. lia.
Qed.

End system.

(** ** An engine that reports requests

    A read of at most one byte is a request, on the next stream; a longer one is data
    of that stream, which the client resets in the same packet.  There is nothing to
    send but the settings. *)
Section requests.
#[local] Existing Instance list_channel_lib.

Record request_ng := mkRequestNg { rn_open : gset Z; rn_last : Z; rn_settings : bool }.

Definition request_recv (d : bytes) (n : request_ng) : activity request_ng Z :=
  match d with
  | [] | [_] =>
      let sid := (rn_last n + 2)%Z in
      let f := mkNgFrame true true sid in
      if decide (sid ∈ rn_open n) then returns (-1)%Z n
      else calls_back (on_begin_headers f) (λ _, calls_back (on_frame_recv f)
             (λ _, returns 1%Z (mkRequestNg ({[ sid ]} ∪ rn_open n) sid (rn_settings n))))
  | _ =>
      let sid := rn_last n in
      if decide (sid ∈ rn_open n) then
        calls_back (on_data_chunk_recv sid d) (λ _, calls_back (on_stream_close sid)
          (λ _, returns 1%Z (mkRequestNg (rn_open n ∖ {[ sid ]}) sid (rn_settings n))))
      else returns (-1)%Z n
  end.

Definition request_send (n : request_ng) : activity request_ng bytes :=
  if rn_settings n then returns (str "settings") (mkRequestNg (rn_open n) (rn_last n) false)
  else returns [] n.

#[local] Instance request_engine : Nghttp2.
Proof.
  refine {| ng := request_ng; ng_new := λ _ _ _, mkRequestNg ∅ (-1) true; mem_recv := request_recv;
    mem_send := request_send; ng_call := λ _ n, n; resumes := λ _ _, false; request_id := λ _ _ _, (-1)%Z;
    want_read := λ _, true; want_write := λ _, false; output_left := λ n _, Nat.b2n (rn_settings n) |}.
  intros [o l []] h d n' h' es; cbn; [|by intros [= <- <- _ _]]. intros [= <- <- _ _] _. cbn. lia.
Defined.

#[local] Instance request_order : Http2Order.
Proof.
  refine {| ng_open := rn_open; ng_last := rn_last |}; [done..| |].
  - intros d [o l b] h Hm.
    assert (orderly rn_open rn_last (request_recv [] (mkRequestNg o l b)) (h, o, l)) as Hreq; [|
      destruct d as [|x [|y d]]; [exact Hreq|exact Hreq|]].
    + cbn [request_recv rn_open rn_last rn_settings]. case_decide as Hin; [done|].
      set (f := mkNgFrame true true (l + 2)).
      assert (∀ h, mode h = Server → is_request f h = true) as Hf by (intros h' Hm'; unfold is_request; by rewrite Hm').
      cbn [orderly callback_allowed as_event allowed fresh_request]. split; [split; [done|cbn; lia]|].
      unfold after. cbn [as_event track track_last]. rewrite Hf by done. cbn [callback_allowed as_event allowed].
      split_and!; [set_solver|done..].
    + cbn [mem_recv request_engine request_recv rn_open rn_last rn_settings]. case_decide as Hin; [|done].
      cbn. split_and!; [done..|set_solver|done|done].
  - intros [o l []] h Hm; by cbn.
Defined.

(** Two requests, and for each the packet that carries a frame and resets its
    stream: the handler that waits for a frame is given it, and waits for the next
    one when its stream is over. *)
Definition last_frame : bytes := from_option id [] (encode_h2_envelope kTypeControl (str "x")).

Definition rapid_reset : list choice :=
  [take_turn 0; answer_write 0 true;
   take_turn 0; answer_read 0 (Some (str "R")); take_turn 0; take_turn 1;
   answer_read 0 (Some last_frame); take_turn 0; answer_closed 1 (Some (kTypeControl, str "x")); take_turn 1;
   answer_read 0 (Some (str "R")); take_turn 0; take_turn 2;
   answer_read 0 (Some last_frame); take_turn 0; answer_closed 2 (Some (kTypeControl, str "x")); take_turn 2].

Lemma connection_invariant_witness :
  ∃ w, pool_steps drain_frames_handler (λ _, False) (accepted 2) w ∧ size (streams w.1.1) = 2 ∧
    (Z.of_nat (size (ng_open w.1.2 ∖ refused_streams w.1.1)) ≤ 2)%Z.
Proof.
  destruct (pool_schedule_reaches drain_frames_handler (λ _, False) (accepted 2) rapid_reset
    (λ w, bool_decide (size (streams w.1.1) = 2))) as (w&Hw&Hs%bool_decide_eq_true);
    [vm_compute; reflexivity|].
  exists w. split_and!; [exact Hw|exact Hs|].
  pose proof (connection_invariant drain_frames_handler (λ _, False) 2 w w drain_frames_uses_transport) as Hi.
  destruct w as [[h n] cos]. apply Hi; [done|lia|exact Hw|apply rtc_refl].
Defined.

Lemma exhausted_connection_witness :
  ∃ w, pool_steps drain_frames_handler (λ _, False) (accepted 2) w ∧ ng_open w.1.2 = ∅ ∧
    on_begin_headers_callback (mkNgFrame true true 5) w.1.1 =
      (set_refused ({[ 5%Z ]} ∪ refused_streams w.1.1) w.1.1, [submit_rst_stream 5 NGHTTP2_REFUSED_STREAM]).
Proof.
  destruct (pool_schedule_reaches drain_frames_handler (λ _, False) (accepted 2) rapid_reset
    (λ w, bool_decide (ng_open w.1.2 = ∅ ∧ mode w.1.1 = Server ∧ dom (streams w.1.1) = {[ 1%Z; 3%Z ]} ∧
            ng_last w.1.2 = 3%Z))) as (w&Hw&(Ho&Hm&Hd&Hl)%bool_decide_eq_true); [vm_compute; reflexivity|].
  exists w. split_and!; [exact Hw|exact Ho|].
  apply (exhausted_connection drain_frames_handler (λ _, False) 2 w w {[ 1%Z; 3%Z ]} drain_frames_uses_transport).
  - done.
  - lia.
  - exact Hw.
  - apply rtc_refl.
  - intros sid Hin. destruct w as [[h n] cos]. unfold view_of, stale. cbn [fst snd] in *. rewrite Ho, Hd, Hl.
    split_and!; [exact Hin|set_solver|set_unfold; lia].
  - by_decide.
  - unfold is_request. by rewrite Hm.
Defined.
End requests.
