(* ===== verification/H2Client.v ===== *)
(** * libculpeo-transport-h2: the client

    [CulpeoH2Client] of [src/h2_client.cpp]: [connect] with the loop it spawns, and
    the operations of a connected client, each a coroutine that runs while the loop
    and other coroutines of the session go on.  What the resolver and the socket
    answer while connecting is an argument. *)

From ITree Require Import ITree ITreeFacts.
From S2P Require Import Prelude Bytes H2Frame H2Session H2Facts H2Safety H2Theorems H2Run H2Pool H2Open H2View H2System.

Local Open Scope co_scope.

Section client.
Context {CL : ChannelLib} {NG : Nghttp2}.

(** ** Operations with a caller

    An operation runs on the strand until it is suspended or returns. *)
Definition strand_step {R} (c : conn) (t : itree h2E R) : option (conn * itree h2E R * list effect) :=
  match observe t with
  | RetF _ => None
  | TauF t => Some (c, t, [])
  | VisF e k =>
      match e in h2E A return (A → itree h2E R) → option (conn * itree h2E R * list effect) with
      | OnStrand f => λ k, let '(a, c', es) := f c in Some (c', k a, es)
      | _ => λ _, None
      end k
  end.

Inductive op_turn {R} : conn → itree h2E R → conn → itree h2E R → list effect → Prop :=
| op_turn_stops c t : strand_step c t = None → op_turn c t c t []
| op_turn_goes c t c1 t1 es1 c' t' es :
    strand_step c t = Some (c1, t1, es1) → op_turn c1 t1 c' t' es → op_turn c t c' t' (es1 ++ es).

(** Runs of a coroutine that comes to its end whatever it is answered. *)
Inductive ends {R} (t : itree h2E R) : Prop :=
| ends_ret r : observe t = RetF r → ends t
| ends_tau t' : observe t = TauF t' → ends t' → ends t
| ends_vis A (e : h2E A) k : observe t = VisF e k → (∀ a, ends (k a)) → ends t.

Lemma ends_observe {R} (t t' : itree h2E R) : observe t = observe t' → ends t → ends t'.
Proof.
  intros Ho [r Hr|u Hu Hend|A e k Hk Hend]; [eapply ends_ret|eapply ends_tau|eapply ends_vis]; eauto; by rewrite <-Ho.
Qed.

Lemma ends_bind {R S} (t : itree h2E R) (k : R → itree h2E S) :
  ends t → (∀ r, ends (k r)) → ends (ITree.bind t k).
Proof.
  intros Ht Hk. induction Ht as [t r Hr|t t' Ht' _ IH|t A e k1 Hk1 _ IH].
  - eapply (ends_observe (k r)); [|apply Hk]. unfold observe at 2. cbn. change (_observe t) with (observe t).
    by rewrite Hr.
  - eapply ends_tau; [|exact IH]. unfold observe. cbn. change (_observe t) with (observe t). by rewrite Ht'.
  - eapply ends_vis; [|exact IH]. unfold observe. cbn. change (_observe t) with (observe t). by rewrite Hk1.
Qed.

Lemma ends_trigger {A} (e : h2E A) : ends (ITree.trigger e).
Proof. eapply ends_vis; [reflexivity|]. intros a. by eapply ends_ret. Qed.

Lemma submit_ends host path : ends (submit_request_co host path).
Proof.
  apply ends_bind; [apply ends_trigger|]. intros sid. case_decide; [by eapply ends_ret|].
  apply ends_bind; [|intros; by eapply ends_ret]. apply ends_bind; [apply ends_trigger|].
  intros [|b out]; [by eapply ends_ret|apply ends_trigger].
Qed.

Section session.
Context (outside : itree h2E unit → Prop).

Inductive op_step {R} : config * itree h2E R → config * itree h2E R → Prop :=
| op_others w ev w' t : pool_step no_handler outside w ev w' → op_step (w, t) (w', t)
| op_on_strand c cos t c' t' es :
    op_turn c t c' t' es → op_step ((c, cos), t) ((c', cos ++ spawned no_handler es), t')
| op_written w t b k ok : observe t = VisF (WriteAll b) k → op_step (w, t) (w, k ok)
| op_read w t k r : observe t = VisF ReadSome k → op_step (w, t) (w, k r)
| op_received c cos t sid k r h :
    observe t = VisF (AwaitFrame sid) k → receive_frame_end sid c.1 = (Some r, h) →
    op_step ((c, cos), t) (((h, c.2), cos), k (match r with Ok f => Some f | Err _ => None end))
| op_cancelled w t sid k r : observe t = VisF (AwaitFrame sid) k → op_step (w, t) (w, k r).

(** [co_await op]: from [w] to [w'] with the result [r]. *)
Definition operation {R} (op : itree h2E R) (w : config) (r : R) (w' : config) : Prop :=
  ∃ t, rtc op_step (w, op) (w', t) ∧ observe t = RetF r.

Lemma ends_returns {R} (op : itree h2E R) w : ends op → ∃ r w', operation op w r w'.
Proof.
  intros Hop. cut (∀ c, ∃ c' t es, op_turn c op c' t es ∧ ∀ cos, ∃ r w', operation t (c', cos) r w').
  { destruct w as [c cos]. intros H. destruct (H c) as (c'&t&es&Ht&Hr).
    destruct (Hr (cos ++ spawned no_handler es)) as (r&w'&t'&Hs&Hret). exists r, w', t'. split; [|done].
    eapply rtc_l; [by apply op_on_strand|exact Hs]. }
  induction Hop as [t r Hr|t t' Ht _ IH|t A e k Hk _ IH]; intros c.
  - exists c, t, []. split; [apply op_turn_stops; unfold strand_step; by rewrite Hr|].
    intros cos. exists r, (c, cos), t. by split; [apply rtc_refl|].
  - destruct (IH c) as (c'&u&es&Hu&Hr). exists c', u, ([] ++ es). split; [|done].
    eapply op_turn_goes; [unfold strand_step; by rewrite Ht|done].
  - assert (∀ a, strand_step c t = None → (∀ cos, op_step (c, cos, t) (c, cos, k a)) →
      ∃ c' t' es, op_turn c t c' t' es ∧ ∀ cos, ∃ r w', operation t' (c', cos) r w') as Hans.
    { intros a Hn Hstep. exists c, t, []. split; [by apply op_turn_stops|]. intros cos.
      destruct (IH a c) as (c'&u&es&Hu&Hr). destruct (Hr (cos ++ spawned no_handler es)) as (r&w'&t'&Hs&Hret).
      exists r, w', t'. split; [|done]. eapply rtc_l; [apply Hstep|]. eapply rtc_l; [by apply op_on_strand|exact Hs]. }
    destruct e as [A f| |b|sid].
    + destruct (f c) as [[a c1] es1] eqn:Hf. destruct (IH a c1) as (c'&u&es&Hu&Hr). exists c', u, (es1 ++ es).
      split; [|done]. eapply op_turn_goes; [unfold strand_step; by rewrite Hk, Hf|done].
    + apply (Hans None); [unfold strand_step; by rewrite Hk|intros; by apply op_read].
    + apply (Hans true); [unfold strand_step; by rewrite Hk|intros; by eapply op_written].
    + apply (Hans None); [unfold strand_step; by rewrite Hk|intros; by eapply op_cancelled].
Qed.

(** Operations that leave the session open, in sessions whose loop alone closes them. *)
Section invariant.
Context (Hout : ∀ t, outside t → stream_operations t).

Lemma op_turn_open {R} c (t : itree h2E R) c' t' es :
  op_turn c t c' t' es → sections leaves_open t → stays_listening c c' ∧ sections leaves_open t'.
Proof.
  induction 1 as [c t Hn|c t c1 t1 es1 c' t' es Hs Hturn IH]; intros Ht; [split; [intros Hl; exact Hl|exact Ht]|].
  apply sections_closed in Ht. unfold strand_step in Hs.
  destruct (observe t) as [r|t2|A e k]; [done|simplify_eq; auto|]. destruct e as [A f| | |]; [|done..].
  destruct Ht as [Hf Hk]. destruct (f c) as [[a c2] es2] eqn:Hr. simplify_eq.
  destruct (IH (Hk a)) as [H1 H2]. split; [|done]. intros Hl. apply H1.
  specialize (Hf c Hl). rewrite Hr in Hf. apply Hf.
Qed.

Lemma spawned_open es : Forall (co_sections leaves_open) (spawned no_handler es).
Proof. exact (spawned_sections leaves_open no_handler outside es (Composed0 := composed_leaves_open outside Hout)). Qed.

Lemma op_step_open {R} w (t : itree h2E R) w' t' :
  op_step (w, t) (w', t') → sections leaves_open t → open_while_running w →
  open_while_running w' ∧ sections leaves_open t'.
Proof.
  intros Hstep Ht Hw. pose proof (sections_closed _ t Ht) as Hc.
  inversion Hstep as [? ev ? ? Hp|c cos ? c' ? es Hturn|? ? b k ok Ho|? ? k r Ho|c cos ? sid k r h Ho Hr|? ? sid k r Ho];
    subst; try (rewrite Ho in Hc).
  - split; [|done]. by eapply pool_step_open.
  - destruct (op_turn_open _ _ _ _ _ Hturn Ht) as [H1 H2]. split; [|done]. eapply open_grow; [done..|apply spawned_open].
  - split; [done|apply Hc].
  - split; [done|apply Hc].
  - split; [|apply Hc]. rewrite <-(app_nil_r cos). eapply open_grow; [exact Hw| |by apply Forall_nil].
    intros Hl. pose proof (listening_received sid c.1 Hl) as Hl'. by rewrite Hr in Hl'.
  - split; [done|apply Hc].
Qed.

Lemma operation_open {R} (op : itree h2E R) w r w' :
  operation op w r w' → sections leaves_open op → open_while_running w → open_while_running w'.
Proof.
  intros (t&Hs&_) Hop Hw. cut (∀ x y, rtc (@op_step R) x y → open_while_running x.1 → sections leaves_open x.2 →
    open_while_running y.1); [intros Hx; by apply (Hx _ _ Hs)|].
  clear Hs Hop Hw. induction 1 as [|[w1 t1] [w2 t2] y Hstep _ IH]; [done|]. intros Hw Ht.
  destruct (op_step_open _ _ _ _ Hstep Ht Hw). by apply IH.
Qed.
End invariant.

Lemma op_step_over {R} w (t : itree h2E R) w' t' :
  op_step (w, t) (w', t') → w.2 !! 0 = Some finished → w'.2 !! 0 = Some finished.
Proof.
  intros Hstep Hf.
  inversion Hstep as [? ev ? ? Hp|c cos ? c' ? es Hturn|? ? b k ok Ho|? ? k r Ho|c cos ? sid k r h Ho Hr|? ? sid k r Ho];
    subst; try done.
  - by eapply pool_step_over.
  - by apply lookup_app_l_Some.
Qed.

Lemma op_turn_results {R} (Q : R → Prop) c t c' t' es : op_turn c t c' t' es → results Q t → results Q t'.
Proof.
  induction 1 as [c t Hn|c t c1 t1 es1 c' t' es Hs Hturn IH]; intros Ht; [done|].
  apply results_unfold in Ht. apply IH. unfold strand_step in Hs. destruct (observe t) as [r|t2|A e k]; [done|by simplify_eq|].
  destruct e as [A f| | |]; [|done..]. destruct (f c) as [[a c2] es2]. simplify_eq. apply Ht.
Qed.

Lemma op_step_results {R} (Q : R → Prop) w t w' t' : op_step (w, t) (w', t') → results Q t → results Q t'.
Proof.
  intros Hstep Ht. pose proof (results_unfold Q t Ht) as Hc.
  inversion Hstep; subst; [done|by eapply op_turn_results|..];
    match goal with Ho : observe _ = _ |- _ => rewrite Ho in Hc end; apply Hc.
Qed.

(** ** [CulpeoH2Client] *)

(** [asio::system_error], [std::runtime_error] and [std::logic_error]. *)
Inductive client_error := system_error | runtime_error | logic_error.

(** A client with the sessions its coroutines still hold: [session] and
    [transport_obj] of [Impl] refer to one of them. *)
Record CulpeoH2Client := mkClient {
  cl_cleartext : bool;
  cl_sessions : list config;
  cl_session : option nat;
  cl_transport : option (nat * Z);
}.

Definition new_client (cleartext : bool) : CulpeoH2Client :=
  {| cl_cleartext := cleartext; cl_sessions := []; cl_session := None; cl_transport := None |}.

(** Between its own operations a client's sessions go on. *)
Definition client_steps (cl cl' : CulpeoH2Client) : Prop :=
  ∃ ss, Forall2 (pool_steps no_handler outside) (cl_sessions cl) ss ∧
    cl' = mkClient (cl_cleartext cl) ss (cl_session cl) (cl_transport cl).

(** Which of the awaited operations before the session succeed. *)
Record net_answers := mkAnswers {
  resolves : bool; connects : bool; no_delay : bool; handshakes : bool;
}.

(** The session is created and its loop spawned; the [post] that follows lets the
    loop take its first turn, which initializes nghttp2 and ends in its first write. *)
Inductive session_created : config → Prop :=
| created n c s es :
    turn (new_h2_session Client kDefaultMaxConcurrentStreams, n) (forget run_co) c s es →
    session_created (c, s :: spawned no_handler es).

(** How [connect] ends when [submit_request] does, with the session in [w]. *)
Definition submitted (res : option Z) (w : config) (cl : CulpeoH2Client)
    : expected client_error unit * CulpeoH2Client :=
  let s := length (cl_sessions cl) in
  let cl := mkClient (cl_cleartext cl) (cl_sessions cl ++ [w]) (Some s) (cl_transport cl) in
  match res with
  | None => (Err system_error, cl)
  | Some sid =>
      if decide (sid < 0)%Z then (Err runtime_error, cl)
      else (Ok tt, mkClient (cl_cleartext cl) (cl_sessions cl) (cl_session cl) (Some (s, sid)))
  end.

(** The end of [connect], which both modes share: the request is submitted while the
    loop runs. *)
Inductive start_session (host path : bytes) (cl : CulpeoH2Client)
    : expected client_error unit → CulpeoH2Client → Prop :=
| session_started w0 w res r cl' :
    session_created w0 → operation (submit_request_co host path) w0 res w →
    submitted res w cl = (r, cl') → start_session host path cl r cl'.

Definition connect (host port path : bytes) (a : net_answers) (cl : CulpeoH2Client)
    (r : expected client_error unit) (cl' : CulpeoH2Client) : Prop :=
  let fails := (r, cl') = (Err system_error, cl) in
  if negb (resolves a) then fails
  else if cl_cleartext cl then
    if negb (connects a) then fails
    else if negb (no_delay a) then fails
    else start_session host path cl r cl'
  else
    if negb (connects a) then fails
    else if negb (no_delay a) then fails
    else if negb (handshakes a) then fails
    else start_session host path cl r cl'.

Definition transport (cl : CulpeoH2Client) : expected client_error (nat * Z) :=
  match cl_transport cl with None => Err logic_error | Some t => Ok t end.

Definition with_session (s : nat) (w : config) (cl : CulpeoH2Client) : CulpeoH2Client :=
  mkClient (cl_cleartext cl) (<[s := w]> (cl_sessions cl)) (cl_session cl) (cl_transport cl).

(** An operation of [transport()]. *)
Inductive on_transport {R} (op : IAsyncTransport → itree h2E R) (cl : CulpeoH2Client)
    : expected client_error R → CulpeoH2Client → Prop :=
| transport_missing e : transport cl = Err e → on_transport op cl (Err e) cl
| transport_used s sid w r w' :
    transport cl = Ok (s, sid) → cl_sessions cl !! s = Some w → operation (op (H2Transport sid)) w r w' →
    on_transport op cl (Ok r) (with_session s w' cl).

Definition client_send (t : byte) (frame : bytes) :=
  on_transport (λ tr, if decide (t = kTypeControl) then at_send_text tr frame else at_send_binary tr frame).
Definition client_receive := on_transport at_receive_frame.

(** [close_session]: [Ok false] when the write of the GOAWAY frame throws. *)
Inductive client_close_session (cl : CulpeoH2Client) : bool → CulpeoH2Client → Prop :=
| close_no_session : cl_session cl = None → client_close_session cl true cl
| close_connected s w ok w' :
    cl_session cl = Some s → cl_sessions cl !! s = Some w → operation close_session_co w ok w' →
    client_close_session cl ok (with_session s w' cl).

(** [open_additional_stream]: [Ok None] is the null pointer. *)
Inductive open_additional_stream (path : bytes) (cl : CulpeoH2Client)
    : expected client_error (option (nat * Z)) → CulpeoH2Client → Prop :=
| open_no_session : cl_session cl = None → open_additional_stream path cl (Err logic_error) cl
| open_connected s w res w' :
    cl_session cl = Some s → cl_sessions cl !! s = Some w →
    operation (submit_request_co (str "localhost") path) w res w' →
    open_additional_stream path cl
      (match res with
       | None => Err system_error
       | Some sid => Ok (if decide (sid < 0)%Z then None else Some (s, sid))
       end) (with_session s w' cl).

(** [PyH2Client]: a call of a Python thread runs the coroutine and waits for it. *)
Definition py_client_connect := connect.
Definition py_client_send_text (data : bytes) := client_send kTypeControl data.
Definition py_client_send_binary (data : bytes) := client_send kTypeMedia data.
Definition py_client_receive_frame := client_receive.
Definition py_client_close_session := client_close_session.

(** ** Sends *)
Definition is_refusal (r : option (expected h2_exception unit)) : Prop := ∃ e, r = Some (Err e).

(** The section of a send on a session that its loop alone closes. *)
Lemma send_section_spec sid t p c cos :
  open_while_running (c, cos) → (Z.of_nat (length p) < kH2MaxFrameSize)%Z →
  let '(r, c', es) := send_frame_section sid t p c in
  r = Ok tt ∨ r = Err broken_pipe ∧ cos !! 0 = Some finished.
Proof.
  intros (s0&rest&[= ->]&_&H0) Hp. unfold send_frame_section, send_frame.
  destruct (h2_closed c.1) eqn:Hc.
  - right. split; [done|]. destruct H0 as [[[Hl _] _]| ->]; [|done]. cbn in Hl. congruence.
  - rewrite decide_False by lia. destruct (encode_h2_envelope t p) as [env|] eqn:He.
    + destruct (enqueue_send sid env c.1). by left.
    + unfold encode_h2_envelope in He. by rewrite decide_False in He by lia.
Qed.

(** A send in progress: not begun, refused by an ended session, or accepted. *)
Definition send_state (sid : Z) (ty : byte) (p : bytes) (x : config * itree h2E (option (expected h2_exception unit)))
    : Prop :=
  open_while_running x.1 ∧ sections leaves_open x.2 ∧
  (x.2 = send_frame_co sid ty p ∨
   results (λ r, r = Some (Err broken_pipe)) x.2 ∧ x.1.2 !! 0 = Some finished ∨
   results (λ r, ¬ is_refusal r) x.2).

Lemma send_begins sid ty p c cos c' t' es :
  open_while_running (c, cos) → (Z.of_nat (length p) < kH2MaxFrameSize)%Z →
  op_turn c (send_frame_co sid ty p) c' t' es →
  results (λ r, r = Some (Err broken_pipe)) t' ∧ cos !! 0 = Some finished ∨ results (λ r, ¬ is_refusal r) t'.
Proof.
  intros Hw Hp Hturn. pose proof (send_section_spec sid ty p c cos Hw Hp) as Hs.
  destruct (send_frame_section sid ty p c) as [[r c1] es1] eqn:Hsec.
  inversion Hturn as [? ? Hn|? ? c2 t2 es2 ? ? es3 Hgo Hrest]; subst;
    [by unfold strand_step in Hn; cbn in Hn; rewrite Hsec in Hn|].
  unfold strand_step in Hgo. cbn in Hgo. rewrite Hsec in Hgo. injection Hgo as <- <- <-.
  destruct Hs as [->|[-> Hf]]; [right|left; split; [|done]]; eapply (op_turn_results _ _ _ _ _ _ Hrest).
  - eapply (results_bind _ (eq (Ok tt)) (Ret (Ok tt))); [by apply results_ret|]. intros r <-.
    eapply results_bind; [apply results_drain|]. intros [] _; apply results_ret; by intros [].
  - eapply (results_bind _ (eq (Err broken_pipe)) (Ret (Err broken_pipe))); [by apply results_ret|].
    intros r <-. by apply results_ret.
Qed.
Section theorems.
Context (Hout : ∀ t, outside t → stream_operations t).

Lemma send_state_step sid ty p x y :
  (Z.of_nat (length p) < kH2MaxFrameSize)%Z → op_step x y → send_state sid ty p x → send_state sid ty p y.
Proof.
  intros Hp Hstep (Hw&Ht&Hcase). destruct x as [w t], y as [w' t']. cbn [fst snd] in *.
  destruct (op_step_open Hout _ _ _ _ Hstep Ht Hw) as [Hw' Ht']. split_and!; [done..|]. cbn [fst snd].
  destruct Hcase as [->|[[Hr Hf]|Hr]].
  - inversion Hstep as [? ev ? ? Hpool|c cos ? c' ? es Hturn|? ? b k ok Ho|? ? k r Ho|c cos ? sid' k r h Ho Hr
      |? ? sid' k r Ho]; subst; [by left| |discriminate Ho..].
    destruct (send_begins _ _ _ _ _ _ _ _ Hw Hp Hturn) as [[H1 H2]|H1]; [|by auto].
    right. left. split; [done|]. by apply lookup_app_l_Some.
  - right. left. split; [by eapply op_step_results|by eapply op_step_over].
  - right. right. by eapply op_step_results.
Qed.

Lemma send_outcome sid ty p w r w' :
  open_while_running w → (Z.of_nat (length p) < kH2MaxFrameSize)%Z →
  operation (send_frame_co sid ty p) w r w' →
  r = Some (Ok tt) ∨ r = None ∨ r = Some (Err broken_pipe) ∧ w'.2 !! 0 = Some finished.
Proof.
  intros Hw Hp (t&Hs&Hr).
  assert (send_state sid ty p (w', t)) as (_&_&Hcase).
  { eapply (rtc_ind_r (send_state sid ty p) (w, send_frame_co sid ty p)); [| |exact Hs].
    - split_and!; [done| |by left]. apply send_sections; [apply leaves_open_send|apply drain_output_keeps].
    - intros x y _ Hstep Hx. by eapply send_state_step. }
  destruct Hcase as [Ht|[[Hq Hf]|Hq]].
  - cbn in Ht. by rewrite Ht in Hr.
  - apply results_unfold in Hq. cbn in Hq. rewrite Hr in Hq. auto.
  - apply results_unfold in Hq. cbn in Hq. rewrite Hr in Hq.
    destruct r as [[[]|e]|]; [by left|destruct Hq; by exists e|by right; left].
Qed.

(** What [connect] leaves: the session, whose loop alone closes it, and the transport. *)
Lemma start_session_outcome host path cl r cl' :
  start_session host path cl r cl' →
  ∃ w, open_while_running w ∧ cl_sessions cl' = cl_sessions cl ++ [w] ∧ cl_cleartext cl' = cl_cleartext cl ∧
    cl_session cl' = Some (length (cl_sessions cl)) ∧
    ((r ≠ Ok tt ∧ cl_transport cl' = cl_transport cl) ∨
     r = Ok tt ∧ ∃ sid, (0 ≤ sid)%Z ∧ cl_transport cl' = Some (length (cl_sessions cl), sid)).
Proof.
  intros [w0 w res r1 cl1 Hcr Hop Hsub]. exists w. split.
  { eapply (operation_open Hout); [exact Hop| |].
    - apply submit_sections; [apply leaves_open_submit|apply drain_output_keeps].
    - destruct Hcr as [n c s es Ht]. exists s, (spawned no_handler es). split_and!; [done|by apply spawned_open|].
      apply (turn_protocol _ _ _ _ _ Ht run_protocol). by split. }
  unfold submitted in Hsub. destruct res as [sid|]; [case_decide|]; simplify_eq; (split_and!; [done..|]);
    [by left| |by left]. right. split; [done|]. exists sid. split; [lia|done].
Qed.

Lemma sessions_open cl cl1 s w :
  client_steps cl cl1 → cl_sessions cl !! s = Some w → open_while_running w →
  transport cl1 = transport cl ∧ ∃ w1, cl_sessions cl1 !! s = Some w1 ∧ open_while_running w1.
Proof.
  intros (ss&Hss&->) Hs Hw. split; [done|]. destruct (Forall2_lookup_l _ _ _ _ _ Hss Hs) as (w1&Hw1&Hsteps).
  exists w1. split; [done|]. by eapply (pool_steps_open outside Hout).
Qed.

(** A send on a session that its loop alone closes. *)
Lemma client_send_outcome t frame cl s sid w res cl' :
  transport cl = Ok (s, sid) → cl_sessions cl !! s = Some w → open_while_running w →
  (Z.of_nat (length frame) < kH2MaxFrameSize)%Z → client_send t frame cl res cl' →
  res = Ok (Some (Ok tt)) ∨ res = Ok None ∨
  res = Ok (Some (Err broken_pipe)) ∧ ∃ w', cl_sessions cl' !! s = Some w' ∧ w'.2 !! 0 = Some finished.
Proof.
  intros Ht Hs Hw Hp [e He|s1 sid1 w1 r w' Ht1 Hs1 Hop]; [congruence|].
  rewrite Ht in Ht1. injection Ht1 as <- <-. rewrite Hs in Hs1. injection Hs1 as <-.
  assert (r = Some (Ok tt) ∨ r = None ∨ r = Some (Err broken_pipe) ∧ w'.2 !! 0 = Some finished) as Hr.
  { case_decide; exact (send_outcome _ _ _ _ _ _ Hw Hp Hop). }
  destruct Hr as [->|[->|[-> Hf]]]; [by left|by right; left|]. do 2 right. split; [done|]. exists w'. split; [|done].
  cbn. apply list_lookup_insert_eq. by eapply lookup_lt_Some.
Qed.

(** The answers [connect] needs before it starts a session. *)
Definition reachable_peer (a : net_answers) (cl : CulpeoH2Client) : bool :=
  resolves a && connects a && no_delay a && (cl_cleartext cl || handshakes a).

Lemma connect_unfold host port path a cl r cl' :
  connect host port path a cl r cl' ↔
  if reachable_peer a cl then start_session host path cl r cl' else (r, cl') = (Err system_error, cl).
Proof.
  unfold connect, reachable_peer.
  destruct (resolves a), (connects a), (no_delay a), (cl_cleartext cl), (handshakes a); reflexivity.
Qed.

(** The first turn of a loop comes to its end. *)
Lemma session_exists : ∃ w, session_created w.
Proof.
  set (h := new_h2_session Client kDefaultMaxConcurrentStreams).
  set (n := ng_new Client 0 0).
  destruct (drain_output (init_nghttp2 h)) as [[[|x out] c] es] eqn:Hd.
  - assert (listening c.1) as [Hc _].
    { pose proof (drain_output_keeps (init_nghttp2 h)) as Hk. rewrite Hd in Hk. apply Hk. by split. }
    eexists. eapply (created n c _ (es ++ [] ++ [])).
    eapply (turn_more _ _ _ _ [] _ _ (es ++ [] ++ [])); [reflexivity|].
    eapply turn_more; [unfold co_step; cbn; fold h; rewrite Hd; reflexivity|].
    eapply turn_more; [unfold co_step; cbn; rewrite Hc; reflexivity|].
    apply turn_suspend; [reflexivity|done].
  - destruct (run_first_turn h n x out c es Hd) as [k Hk]. eexists. by eapply (created n c _ es).
Qed.

End theorems.

(** ** A peer that closes while the request is written *)

(** The loop of a new session: its first write, its first read, and its end when the
    read fails. *)
Lemma run_turns h (n : ng) x b c es :
  drain_output (init_nghttp2 h) = (x :: b, c, es) →
  ∃ k k', turn (h, n) (forget run_co) c (writing (x :: b) k) es ∧
    (∀ c', h2_closed c'.1 = false → turn c' (k true) c' (reading k') []) ∧
    ∀ c', turn c' (k' None) (exit_section c').1.2 finished (exit_section c').2.
Proof.
  intros Hd. eexists _, _. split_and!.
  - eapply (turn_more _ _ _ _ [] _ _ es); [reflexivity|].
    rewrite <-(app_nil_r es). eapply turn_more; [unfold co_step; cbn; rewrite Hd; reflexivity|].
    apply turn_suspend; [reflexivity|done].
  - intros c' Hc. change (@nil effect) with (@nil effect ++ []).
    eapply turn_more; [unfold co_step; cbn; rewrite Hc; reflexivity|]. apply turn_suspend; [reflexivity|done].
  - intros c'. rewrite <-(app_nil_r (exit_section c').2). eapply turn_more; [unfold co_step; cbn; reflexivity|].
    apply turn_suspend; [reflexivity|done].
Qed.

(** [submit_request] up to its write. *)
Lemma submit_first_turn host path c sid c2 es2 y b c3 es3 :
  submit_section host path c = (sid, c2, es2) → (0 ≤ sid)%Z → drain_output c2 = (y :: b, c3, es3) →
  ∃ t k, op_turn c (submit_request_co host path) c3 t (es2 ++ es3 ++ []) ∧
    observe t = VisF (WriteAll (y :: b)) k ∧ observe (k true) = RetF (Some sid).
Proof.
  intros Hsub Hsid Hd.
  assert (∃ t, strand_step c (submit_request_co host path) = Some (c2, t, es2) ∧
    ∃ u k, strand_step c2 t = Some (c3, u, es3) ∧ observe u = VisF (WriteAll (y :: b)) k ∧
      observe (k true) = RetF (Some sid)) as (t&Ht&u&k&Hu&Hk&Hr).
  { eexists. split; [unfold strand_step; cbn; rewrite Hsub; reflexivity|].
    eexists _, _. split; [unfold strand_step, observe; cbn -[decide]; rewrite decide_False by lia; cbn; rewrite Hd; reflexivity|].
    split; [cbn; reflexivity|reflexivity]. }
  exists u, k. split; [|done]. eapply op_turn_goes; [exact Ht|]. eapply op_turn_goes; [exact Hu|].
  apply op_turn_stops. unfold strand_step. by rewrite Hk.
Qed.

Section race.
Context (host path : bytes) (n : ng) (x : byte) (b : bytes) (c1 : conn) (es1 : list effect)
  (sid : Z) (c2 : conn) (es2 : list effect) (y : byte) (b' : bytes) (c3 : conn) (es3 : list effect).
Context (Hd : drain_output (init_nghttp2 (new_h2_session Client kDefaultMaxConcurrentStreams)) = (x :: b, c1, es1))
  (Hsub : submit_section host path c1 = (sid, c2, es2)) (Hsid : (0 ≤ sid)%Z)
  (Hd2 : drain_output c2 = (y :: b', c3, es3)).

(** The read of the loop fails while [submit_request] waits for its write. *)
Lemma submit_while_loop_ends :
  ∃ w0 w, session_created w0 ∧ operation (submit_request_co host path) w0 (Some sid) w ∧ h2_closed w.1.1 = true.
Proof.
  assert (listening c1.1) as [Hc1 _].
  { pose proof (drain_output_keeps (init_nghttp2 (new_h2_session Client kDefaultMaxConcurrentStreams))) as Hk.
    rewrite Hd in Hk. apply Hk. by split. }
  destruct (run_turns _ n x b c1 es1 Hd) as (k&k'&T1&T2&T3).
  destruct (submit_first_turn host path c1 sid c2 es2 y b' c3 es3 Hsub Hsid Hd2) as (t&ks&T4&Hs&Hr).
  eexists (c1, writing (x :: b) k :: spawned no_handler es1), _. split; [by eapply created|]. split.
  - exists (ks true). split; [|exact Hr].
    eapply rtc_l; [eapply op_others, (step_written _ _ _ _ 0 _ _ true); reflexivity|].
    eapply rtc_l; [eapply op_others, (step_turn _ _ _ _ 0); [reflexivity|by apply T2]|].
    eapply rtc_l; [by apply op_on_strand|].
    eapply rtc_l; [eapply op_others, (step_read _ _ _ _ 0 _ None); reflexivity|].
    eapply rtc_l; [eapply op_others, (step_turn _ _ _ _ 0); [reflexivity|by apply T3]|].
    eapply rtc_l; [by eapply (op_written _ _ _ _ true)|]. apply rtc_refl.
  - reflexivity.
Qed.

(** A send on a closed session throws. *)
Lemma send_closed_session sid' ty frame w :
  h2_closed w.1.1 = true → operation (send_frame_co sid' ty frame) w (Some (Err broken_pipe)) w.
Proof.
  intros Hc. destruct w as [[h m] cos]. cbn in Hc.
  assert (∃ t, strand_step (h, m) (send_frame_co sid' ty frame) = Some ((h, m), t, []) ∧
    observe t = RetF (Some (Err broken_pipe))) as (t&Ht&Hr).
  { eexists. split; [unfold strand_step; cbn; unfold send_frame_section, send_frame; cbn; rewrite Hc; reflexivity|].
    reflexivity. }
  exists t. split; [|exact Hr]. apply rtc_once. rewrite <-(app_nil_r cos) at 2.
  change (@nil co) with (spawned no_handler ([] ++ [])). apply op_on_strand.
  eapply op_turn_goes; [exact Ht|]. apply op_turn_stops. unfold strand_step. by rewrite Hr.
Qed.

(** [connect] returns although its session has ended: the peer closes the connection
    while [submit_request] waits for its write, and [submit_request] does not look at
    [closed_] again.  The client has a transport, on which every send throws. *)
Theorem connect_to_ended_session port a cl :
  reachable_peer a cl = true →
  ∃ cl', connect host port path a cl (Ok tt) cl' ∧
    ∀ t frame, client_send t frame cl' (Ok (Some (Err broken_pipe))) cl'.
Proof.
  intros Ha. destruct submit_while_loop_ends as (w0&w&Hw0&Hop&Hc).
  destruct (submitted (Some sid) w cl) as [r cl'] eqn:Hsub'. pose proof Hsub' as Hcl'.
  unfold submitted in Hcl'. rewrite decide_False in Hcl' by lia. injection Hcl' as <- Hcl'. exists cl'. split.
  - apply connect_unfold. rewrite Ha. by eapply session_started.
  - intros t frame.
    assert (with_session (length (cl_sessions cl)) w cl' = cl') as Heq.
    { rewrite <-Hcl'. unfold with_session. cbn. by rewrite list_insert_id by by apply list_lookup_middle. }
    rewrite <-Heq at 2. eapply transport_used; [by rewrite <-Hcl'|rewrite <-Hcl'; by apply list_lookup_middle|].
    case_decide; by apply send_closed_session.
Qed.
End race.

(** A stream that the server refuses is not a null pointer:
    [open_additional_stream] succeeds once nghttp2 has queued the request and its
    write is over, whatever the table of the server holds; the server answers with a
    reset of the stream when it reads the request. *)
Theorem refused_stream_opened path cl s w w' hs f :
  cl_session cl = Some s → cl_sessions cl !! s = Some w → (0 ≤ hd_stream_id f)%Z →
  operation (submit_request_co (str "localhost") path) w (Some (hd_stream_id f)) w' →
  is_request f hs = true → (max_concurrent_streams hs ≤ Z.of_nat (size (streams hs)))%Z →
  open_additional_stream path cl (Ok (Some (s, hd_stream_id f))) (with_session s w' cl) ∧
  on_begin_headers_callback f hs =
    (set_refused ({[ hd_stream_id f ]} ∪ refused_streams hs) hs,
     [submit_rst_stream (hd_stream_id f) NGHTTP2_REFUSED_STREAM]).
Proof.
  intros Hc Hl Hsid Hop Hf Hfull. split.
  - pose proof (open_connected path cl s w _ w' Hc Hl Hop) as Ho. cbn in Ho. by rewrite decide_False in Ho by lia.
  - unfold on_begin_headers_callback. by rewrite Hf, decide_True by done.
Qed.
End session.
End client.

(** ** A client of the small engine of [H2Run] *)
#[local] Existing Instance list_channel_lib.
#[local] Existing Instance queue_engine.

Definition all_well : net_answers := mkAnswers true true true true.

