(* ===== verification/H2Tagged.v ===== *)
(** * libculpeo-transport-h2: an engine for both ends of a connection

    A small instance of [Nghttp2] and [Http2Wire] on which the two-ended model can be
    run.  On its wire every byte has a tag before it: 0 for the request of a stream,
    whose identifier is the byte, and the identifier of a stream for its data. *)

From S2P Require Import Prelude Bytes H2Frame H2Session H2Facts H2Safety H2Run H2Wire.

Local Open Scope Z_scope.

Fixpoint pairs_of (w : bytes) : list (byte * byte) :=
  match w with t :: x :: w => (t, x) :: pairs_of w | _ => [] end.

Definition flat (ps : list (byte * byte)) : bytes := concat ((λ p, [p.1; p.2]) <$> ps).

Lemma pairs_of_flat ps w : pairs_of (flat ps ++ w) = ps ++ pairs_of w.
Proof. induction ps as [|[t x] ps IH]; [done|]. cbn. by rewrite <-IH. Qed.

Lemma pairs_of_mono w w' : pairs_of w `prefix_of` pairs_of (w ++ w').
Proof.
  assert (∀ n w, (length w ≤ n)%nat → pairs_of w `prefix_of` pairs_of (w ++ w')) as H.
  { induction n as [|n IH]; intros [|t [|x v]] Hn; simpl in Hn; try lia; try apply prefix_nil.
    cbn. apply prefix_cons, IH. lia. }
  by apply (H (length w)).
Qed.

(** Streams that have a tag. *)
Definition tagged (sid : Z) : bool := bool_decide (1 ≤ sid ≤ 255).

Definition data_in (sid : Z) (ps : list (byte * byte)) : bytes :=
  omap (λ p, if decide (code p.1 = sid) then Some p.2 else None) ps.

Lemma data_in_app sid ps ps' : data_in sid (ps ++ ps') = data_in sid ps ++ data_in sid ps'.
Proof. apply omap_app. Qed.

(** What the engine has sent: requests and data; each with its bytes. *)
Definition item_pairs (i : byte + Z * bytes) : list (byte * byte) :=
  match i with
  | inl b => [(x00, b)]
  | inr (sid, d) => if tagged sid then (of_code sid,.) <$> d else []
  end.

Record tag_ng := mkTag {
  tg_requests : list byte;
  tg_pulls : list Z;
  tg_next : Z;
  tg_out : list (byte + Z * bytes);
  tg_in : list (byte * byte);
  tg_half : option byte;
}.

Definition tag_traffic (n : tag_ng) : traffic := {|
  t_out := flat (concat (item_pairs <$> tg_out n));
  t_in := flat (tg_in n) ++ option_list (tg_half n);
  t_pulled := foldl (λ m i, match i with inl _ => m | inr (sid, d) => extend sid d m end) ∅ (tg_out n);
  t_delivered := foldl (λ m p, if decide (p.1 = x00) then m else extend (code p.1) [p.2] m) ∅ (tg_in n);
  t_over := ∅;
|}.

Definition tag_send (n : tag_ng) : activity tag_ng bytes :=
  match tg_requests n with
  | b :: rs => returns [x00; b] (mkTag rs (tg_pulls n) (tg_next n) (tg_out n ++ [inl b]) (tg_in n) (tg_half n))
  | [] =>
      match tg_pulls n with
      | [] => returns [] n
      | sid :: ps =>
          reads_data sid 1024 (λ r,
            match r with
            | read_bytes d _ =>
                returns (flat (item_pairs (inr (sid, d))))
                  (mkTag [] ps (tg_next n) (tg_out n ++ [inr (sid, d)]) (tg_in n) (tg_half n))
            | read_deferred => returns [] (mkTag [] ps (tg_next n) (tg_out n) (tg_in n) (tg_half n))
            end)
      end
  end.

Fixpoint tag_recv (d : bytes) (n : tag_ng) : activity tag_ng Z :=
  match d with
  | [] => returns 0 n
  | x :: d =>
      match tg_half n with
      | None => tag_recv d (mkTag (tg_requests n) (tg_pulls n) (tg_next n) (tg_out n) (tg_in n) (Some x))
      | Some t =>
          let n' := mkTag (tg_requests n) (tg_pulls n) (tg_next n) (tg_out n) (tg_in n ++ [(t, x)]) None in
          if decide (t = x00) then
            let f := mkNgFrame true true (code x) in
            calls_back (on_begin_headers f) (λ _, calls_back (on_frame_recv f) (λ _, tag_recv d n'))
          else calls_back (on_data_chunk_recv (code t) [x]) (λ _, tag_recv d n')
      end
  end.

Definition tag_call (e : effect) (n : tag_ng) : tag_ng :=
  match e with
  | submit_request_call _ _ =>
      mkTag (tg_requests n ++ [of_code (tg_next n)]) (tg_pulls n) (tg_next n + 2) (tg_out n) (tg_in n) (tg_half n)
  | resume_data sid =>
      mkTag (tg_requests n) (tg_pulls n ++ [sid]) (tg_next n) (tg_out n) (tg_in n) (tg_half n)
  | _ => n
  end.

Section engine.
Context {CL : ChannelLib}.

#[local] Instance tag_engine : Nghttp2.
Proof.
  refine {| ng := tag_ng; ng_new := λ _ _ _, mkTag [] [] 1 [] [] None; mem_recv := tag_recv; mem_send := tag_send;
    ng_call := tag_call; resumes := λ _ _, true; request_id := λ _ _ n, tg_next n;
    want_read := λ _, true; want_write := λ n, negb (bool_decide (tg_requests n = [] ∧ tg_pulls n = []));
    output_left := λ n _, (length (tg_requests n) + length (tg_pulls n))%nat |}.
  intros [rs ps nx o i hf] h d n' h' es. unfold tag_send. cbn [tg_requests tg_pulls tg_next tg_out tg_in tg_half].
  destruct rs as [|b rs].
  - destruct ps as [|sid ps]; [by intros [= <- <- _ _]|]. cbn [run_activity].
    destruct (data_read_callback sid 1024 h) as [[d0 eof|] h1]; cbn; intros ? _; simplify_eq; cbn; lia.
  - cbn. intros [= <- <- _ _] _. cbn. lia.
Defined.

Lemma data_in_tagged sid s d : tagged s = true → data_in sid ((of_code s,.) <$> d) = if decide (s = sid) then d else [].
Proof.
  intros Hs%bool_decide_eq_true. unfold data_in. induction d as [|x d IH]; [by case_decide|]. cbn.
  rewrite code_of_code, Z.mod_small, IH by lia. by case_decide.
Qed.

Lemma tag_pulled sid o :
  tagged sid = true →
  data_in sid (concat (item_pairs <$> o)) = t_pulled (tag_traffic (mkTag [] [] 1 o [] None)) !!! sid.
Proof.
  intros Hs. cbn [t_pulled tag_traffic tg_out]. induction o as [|i o IH] using rev_ind; [done|].
  rewrite fmap_app, concat_app, data_in_app, foldl_app, IH. cbn [foldl fmap list_fmap concat]. rewrite app_nil_r.
  destruct i as [b|[s d]]; cbn [item_pairs].
  - cbn. apply bool_decide_eq_true in Hs. rewrite decide_False by (change (code x00) with 0; lia). apply app_nil_r.
  - destruct (tagged s) eqn:Hts.
    + rewrite data_in_tagged by done. case_decide as Heq; [by rewrite Heq, extend_same|].
      by rewrite extend_other, app_nil_r.
    + rewrite extend_other by (intros ->; congruence). apply app_nil_r.
Qed.

Lemma tag_delivered sid i :
  tagged sid = true →
  t_delivered (tag_traffic (mkTag [] [] 1 [] i None)) !!! sid = data_in sid i.
Proof.
  intros Hs. cbn [t_delivered tag_traffic tg_in]. induction i as [|[t x] i IH] using rev_ind; [done|].
  rewrite data_in_app, foldl_app, <-IH. cbn. apply bool_decide_eq_true in Hs.
  destruct (decide (t = x00)) as [->|Ht].
  - rewrite decide_False by (change (code x00) with 0; lia). by rewrite app_nil_r.
  - destruct (decide (code t = sid)) as [<-|Hne]; [by rewrite extend_same|]. by rewrite extend_other, app_nil_r.
Qed.

Lemma tag_undelivered sid i :
  tagged sid = false → t_delivered (tag_traffic (mkTag [] [] 1 [] i None)) !!! sid = [].
Proof.
  intros Hs. cbn [t_delivered tag_traffic tg_in]. induction i as [|[t x] i IH] using rev_ind; [done|].
  rewrite foldl_app. cbn. case_decide as Ht; [done|]. rewrite extend_other; [done|]. intros <-.
  apply bool_decide_eq_false in Hs. apply Hs. pose proof (code_range t).
  assert (code t ≠ 0) by (intros H0; apply Ht; rewrite <-(of_code_code t), H0; done). lia.
Qed.

Lemma flat_app ps ps' : flat (ps ++ ps') = flat ps ++ flat ps'.
Proof. unfold flat. by rewrite fmap_app, concat_app. Qed.

Ltac traffic_simpl :=
  unfold add_in, add_out, tag_traffic;
  cbn [t_out t_in t_pulled t_delivered t_over tg_out tg_in tg_half note_callback note_read option_list from_option].

(** What a byte of input does to the traffic. *)
Lemma tag_in_half rs ps nx o i x d :
  add_in (x :: d) (tag_traffic (mkTag rs ps nx o i None)) = add_in d (tag_traffic (mkTag rs ps nx o i (Some x))).
Proof. traffic_simpl. by rewrite app_nil_r, <-app_assoc. Qed.

Lemma tag_in_request rs ps nx o i x d :
  add_in (x :: d) (tag_traffic (mkTag rs ps nx o i (Some x00))) =
  add_in d (tag_traffic (mkTag rs ps nx o (i ++ [(x00, x)]) None)).
Proof. traffic_simpl. by rewrite flat_app, foldl_app, app_nil_r, <-!app_assoc. Qed.

Lemma tag_in_data rs ps nx o i t x d :
  t ≠ x00 →
  note_callback (on_data_chunk_recv (code t) [x]) (add_in (x :: d) (tag_traffic (mkTag rs ps nx o i (Some t)))) =
  add_in d (tag_traffic (mkTag rs ps nx o (i ++ [(t, x)]) None)).
Proof.
  intros Ht. traffic_simpl. rewrite flat_app, foldl_app, app_nil_r, <-!app_assoc. cbn [foldl fst snd].
  by rewrite decide_False.
Qed.

Lemma tag_recv_carries d : ∀ n, carries tag_traffic true (tag_recv d n) (add_in d (tag_traffic n)) (λ _ t, t).
Proof.
  induction d as [|x d IH]; intros [rs ps nx o i [t|]]; cbn [tag_recv carries tg_half tg_requests tg_pulls tg_next tg_out tg_in].
  - traffic_simpl. by rewrite !app_nil_r.
  - traffic_simpl. by rewrite !app_nil_r.
  - case_decide as Ht; cbn [carries callback_in_order].
    + subst t. split; [done|]. intros _. split; [done|]. intros _. cbn [note_callback]. rewrite tag_in_request. apply IH.
    + split; [split; [done|apply not_elem_of_empty]|]. intros _. rewrite tag_in_data by done. apply IH.
  - rewrite tag_in_half. apply IH.
Qed.

Lemma tag_send_carries n : carries tag_traffic false (tag_send n) (tag_traffic n) add_out.
Proof.
  destruct n as [[|b rs] ps nx o i hf]; unfold tag_send; cbn [tg_requests tg_pulls tg_next tg_out tg_in tg_half].
  - destruct ps as [|sid ps]; cbn [carries].
    + traffic_simpl. by rewrite app_nil_r.
    + split; [apply not_elem_of_empty|]. intros [d eof|]; cbn [carries note_read].
      * traffic_simpl. rewrite fmap_app, concat_app, flat_app, foldl_app. cbn [fmap list_fmap concat foldl]. by rewrite app_nil_r.
      * traffic_simpl. by rewrite app_nil_r.
  - cbn [carries]. traffic_simpl. rewrite fmap_app, concat_app, flat_app, foldl_app. done.
Qed.

#[local] Instance tag_wire : Http2Wire.
Proof.
  refine {| traffic_of := tag_traffic : ng → traffic;
    stream_data := λ sid w, if tagged sid then data_in sid (pairs_of w) else [] |}.
  - intros sid w w'. destruct (tagged sid); [|done]. destruct (pairs_of_mono w w') as [k ->].
    rewrite data_in_app. by apply prefix_app_r.
  - done.
  - intros e n. by destruct e.
  - apply tag_send_carries.
  - intros d n. apply tag_recv_carries.
  - intros [rs ps nx o i hf] sid. destruct (tagged sid) eqn:Hs; [|apply prefix_nil].
    cbn [tag_traffic t_out tg_out]. rewrite <-(app_nil_r (flat _)), pairs_of_flat. cbn [pairs_of]. rewrite app_nil_r.
    by rewrite tag_pulled.
  - intros [rs ps nx o i hf] sid. change (t_delivered (tag_traffic (mkTag rs ps nx o i hf)))
      with (t_delivered (tag_traffic (mkTag [] [] 1 [] i None))). cbn [tag_traffic t_in tg_in tg_half].
    destruct (tagged sid) eqn:Hs; [|by rewrite tag_undelivered].
    rewrite tag_delivered by done. rewrite pairs_of_flat, data_in_app. by apply prefix_app_r.
Defined.
End engine.
