(* ===== verification/H2Duplex.v ===== *)
(** * libculpeo-transport-h2: the two ends of a connection

    Two sessions with all their coroutines, joined by a socket each
    ([TcpSocketStream] and [TlsSocketStream] of [src/h2_session.hpp]): a read gives
    some of the bytes on the wire, a write hands its bytes over in pieces.  The
    frames queued for a stream at one end against the frames received at the other,
    and what writes that overlap do to the wire. *)

From ITree Require Import ITree ITreeFacts.
From S2P Require Import Prelude Bytes H2Frame H2Session H2Facts H2Safety H2Theorems H2Run H2Pool H2View H2Wire H2Turns H2System H2Tagged.

Local Open Scope co_scope.

Section duplex.
Context {CL : ChannelLib} {NG : Nghttp2}.

(** An end: its connection and coroutines, the coroutines with a write in progress
    in the order they started it, the bytes on their way to the peer, and whether
    no write has failed. *)
Record endpoint := mkEnd {
  ep_config : config;
  ep_writers : list nat;
  ep_wire : bytes;
  ep_up : bool;
}.

Inductive dx_event := dx_pool (ev : pool_event) | dx_read (i : nat) | dx_write (i : nat).

Definition enlist (i : nat) (w : config) (q : list nat) : list nat :=
  match w.2 !! i with Some (writing _ _) => q ++ [i] | _ => q end.

(** Events of the coroutines that are not turns and leave the socket alone. *)
Definition off_socket (ev : pool_event) : bool :=
  match ev with pe_received _ _ _ | pe_cancelled _ | pe_spawn => true | _ => false end.

(** [read_buf] of [run]. *)
Definition read_buffer_size : Z := 16384.

(** Which of the writes in progress the socket takes bytes from: any, or the one that
    started first. *)
Definition any_order (q : list nat) (i : nat) : Prop := i ∈ q.
Definition in_order (q : list nat) (i : nat) : Prop := head q = Some i.

Section steps.
Context (handler : ISessionHandler) (outside : itree h2E unit → Prop) (serves : list nat → nat → Prop).

(** A step of one end, with the end at the other side.  [async_read_some] gives at
    least one byte, or fails; [async_write] hands over some bytes at a time until
    all are gone, or fails, after which the socket takes nothing more. *)
Inductive end_step : endpoint → endpoint → dx_event → endpoint → endpoint → Prop :=
| de_turn w w' i es q o up b :
    pool_step handler outside w (pe_turn i es) w' →
    end_step (mkEnd w q o up) b (dx_pool (pe_turn i es)) (mkEnd w' (enlist i w' q) o up) b
| de_other w w' ev q o up b :
    pool_step handler outside w ev w' → off_socket ev = true →
    end_step (mkEnd w q o up) b (dx_pool ev) (mkEnd w' q o up) b
| de_read c cos i k d q o up w2 q2 rest up2 :
    cos !! i = Some (reading k) → d ≠ [] → (Z.of_nat (length d) ≤ read_buffer_size)%Z →
    end_step (mkEnd (c, cos) q o up) (mkEnd w2 q2 (d ++ rest) up2) (dx_read i)
             (mkEnd (c, <[i := ready (k (Some d))]> cos) q o up) (mkEnd w2 q2 rest up2)
| de_read_fails c cos i k r q o up b :
    cos !! i = Some (reading k) → r = None ∨ r = Some [] →
    end_step (mkEnd (c, cos) q o up) b (dx_read i) (mkEnd (c, <[i := ready (k r)]> cos) q o up) b
| de_write c cos i k x y q o b :
    cos !! i = Some (writing (x ++ y) k) → serves q i → x ≠ [] → y ≠ [] →
    end_step (mkEnd (c, cos) q o true) b (dx_write i)
             (mkEnd (c, <[i := writing y k]> cos) q (o ++ x) true) b
| de_written c cos i k x q o b :
    cos !! i = Some (writing x k) → serves q i →
    end_step (mkEnd (c, cos) q o true) b (dx_write i)
             (mkEnd (c, <[i := ready (k true)]> cos) (filter (.≠ i) q) (o ++ x) true) b
| de_write_fails c cos i k x q o up b :
    cos !! i = Some (writing x k) →
    end_step (mkEnd (c, cos) q o up) b (dx_write i)
             (mkEnd (c, <[i := ready (k false)]> cos) (filter (.≠ i) q) o false) b.

Inductive side := near | far.

Inductive dx_step : endpoint * endpoint → side * dx_event → endpoint * endpoint → Prop :=
| step_near a b ev a' b' : end_step a b ev a' b' → dx_step (a, b) (near, ev) (a', b')
| step_far a b ev a' b' : end_step b a ev b' a' → dx_step (a, b) (far, ev) (a', b').

Inductive dx_run (d : endpoint * endpoint) : list (side * dx_event) → endpoint * endpoint → Prop :=
| dx_run_nil : dx_run d [] d
| dx_run_snoc tr d1 l d2 : dx_run d tr d1 → dx_step d1 l d2 → dx_run d (tr ++ [l]) d2.
End steps.

#[export] Instance side_eq_dec : EqDecision side.
Proof. solve_decision. Defined.

Definition other (s : side) : side := match s with near => far | far => near end.

(** An end with its loop, when nghttp2 has been initialized. *)
Definition new_end (w : config) : endpoint := mkEnd w [] [] true.

Definition client_connection (max : Z) : config := (init_nghttp2 (new_h2_session Client max), [detached run_rest]).

Definition new_connection (client_max server_max : Z) : endpoint * endpoint :=
  (new_end (client_connection client_max), new_end (accepted server_max)).

(** The frames an event queues on a stream, and those it receives from one. *)
Definition sent_in (sid : Z) (ev : dx_event) : list h2_frame :=
  match ev with dx_pool (pe_turn _ es) => queued_frames sid es | _ => [] end.
Definition got_in (sid : Z) (ev : dx_event) : list h2_frame :=
  match ev with dx_pool (pe_received _ sid' r) => got_frames sid sid' r | _ => [] end.

Definition frames_at (f : dx_event → list h2_frame) (s : side) (tr : list (side * dx_event)) : list h2_frame :=
  concat ((λ l, if decide (l.1 = s) then f l.2 else []) <$> tr).

Definition sent_on (s : side) (sid : Z) := frames_at (sent_in sid) s.
Definition got_on (s : side) (sid : Z) := frames_at (got_in sid) s.

Lemma frames_at_snoc f s tr l :
  frames_at f s (tr ++ [l]) = frames_at f s tr ++ (if decide (l.1 = s) then f l.2 else []).
Proof. unfold frames_at. rewrite fmap_app, concat_app. cbn. by rewrite app_nil_r. Qed.

(** ** The coroutines of an end *)
Context {HW : Http2Wire}.

(** Coroutine 0 is [run], in role [r] and with [p] read but not yet processed. *)
Definition role_at (r : role) (i : nat) : role := if decide (i = 0) then r else plain.
Definition pending_at (p : bytes) (i : nat) : bytes := if decide (i = 0) then p else [].

Definition cos_in (r : role) (p : bytes) (cos : list co) : Prop :=
  0 < length cos ∧ ∀ i s, cos !! i = Some s → co_in (role_at r i) (pending_at p i) s.

(** The writers are the coroutines that write. *)
Definition writes (s : option co) : Prop := match s with Some (writing _ _) => True | _ => False end.

Definition writers_ok (q : list nat) (cos : list co) : Prop := NoDup q ∧ ∀ i, i ∈ q ↔ writes (cos !! i).

(** The bytes of the writes in progress. *)
Definition outstanding (q : list nat) (cos : list co) : bytes :=
  concat ((λ i, from_option to_write [] (cos !! i)) <$> q).

Lemma outstanding_same q cos cos' :
  (∀ i, i ∈ q → cos' !! i = cos !! i) → outstanding q cos' = outstanding q cos.
Proof.
  intros Hq. unfold outstanding. f_equal. apply list_fmap_ext. intros j i Hj.
  by rewrite Hq by (by apply list_elem_of_lookup_2 in Hj).
Qed.

Lemma outstanding_insert q cos l i s :
  writers_ok q cos → i ∉ q → outstanding q (<[i:=s]> cos ++ l) = outstanding q cos.
Proof.
  intros [_ Hq] Hi. apply outstanding_same. intros j Hj.
  assert (j < length cos) as Hl.
  { apply lookup_lt_is_Some. specialize (proj1 (Hq j) Hj). unfold writes. destruct (cos !! j); [eauto|done]. }
  rewrite lookup_app_l by (by rewrite length_insert). apply list_lookup_insert_ne. by intros ->.
Qed.

Lemma cos_in_insert r p r' p' cos l i s :
  cos_in r p cos → Forall (co_in plain []) l → i < length cos → co_in (role_at r' i) (pending_at p' i) s →
  (i ≠ 0 → r' = r ∧ p' = p) → cos_in r' p' (<[i:=s]> cos ++ l).
Proof.
  intros [Hpos Hcos] Hl Hi Hs Hsame. split; [rewrite length_app, length_insert; lia|]. intros j sj Hj.
  destruct (decide (j < length cos)) as [Hlt|Hge].
  - rewrite lookup_app_l in Hj by (by rewrite length_insert). destruct (decide (i = j)) as [<-|Hne].
    + rewrite list_lookup_insert_eq in Hj by done. by injection Hj as <-.
    + rewrite list_lookup_insert_ne in Hj by done. specialize (Hcos j sj Hj).
      unfold role_at, pending_at in *. destruct (decide (j = 0)) as [->|]; [|done].
      destruct (Hsame ltac:(done)) as [-> ->]. done.
  - rewrite lookup_app_r, length_insert in Hj by (rewrite length_insert; lia).
    rewrite Forall_lookup in Hl. specialize (Hl _ _ Hj). unfold role_at, pending_at.
    rewrite !decide_False by lia. done.
Qed.

(** A turn, a completed operation of the socket and a new coroutine leave the list of
    writers right. *)
Lemma writers_insert q cos l i s :
  writers_ok q cos → ¬ writes (cos !! i) → i < length cos → (∀ s', s' ∈ l → ¬ writes (Some s')) →
  writers_ok (match s with writing _ _ => q ++ [i] | _ => q end) (<[i:=s]> cos ++ l).
Proof.
  intros [Hnd Hq] Hi Hlt Hl. assert (i ∉ q) as Hin by (by rewrite Hq).
  assert (∀ j, j ≠ i → writes ((<[i:=s]> cos ++ l) !! j) ↔ writes (cos !! j)) as Hne.
  { intros j Hj. destruct (decide (j < length cos)).
    - by rewrite lookup_app_l, list_lookup_insert_ne by (rewrite ?length_insert; done).
    - rewrite lookup_app_r by (rewrite length_insert; lia). rewrite (lookup_ge_None_2 cos) by lia.
      split; [|done]. destruct (l !! _) as [s'|] eqn:Hs'; [|done]. apply list_elem_of_lookup_2 in Hs'. by intros ?%Hl. }
  assert ((<[i:=s]> cos ++ l) !! i = Some s) as Heq
    by (by rewrite lookup_app_l, list_lookup_insert_eq by (rewrite ?length_insert; done)).
  assert (∀ j, j ∈ (match s with writing _ _ => q ++ [i] | _ => q end) ↔ writes ((<[i:=s]> cos ++ l) !! j)) as Hiff.
  { intros j. destruct (decide (j = i)) as [->|Hj].
    - rewrite Heq. destruct s; cbn; try tauto. split; [done|]. intros _. apply elem_of_app. right. by constructor.
    - rewrite Hne, <-Hq by done. destruct s; try done. rewrite elem_of_app, list_elem_of_singleton. tauto. }
  split; [|exact Hiff]. destruct s; try done. apply NoDup_app. split_and!; [done| |apply NoDup_singleton].
  intros j Hj ->%list_elem_of_singleton. done.
Qed.

Lemma writers_done q cos i s k x :
  writers_ok q cos → cos !! i = Some (writing x k) → ¬ writes (Some s) →
  writers_ok (filter (.≠ i) q) (<[i:=s]> cos).
Proof.
  intros [Hnd Hq] Hi Hs. split; [by apply NoDup_filter|]. intros j. rewrite list_elem_of_filter, Hq.
  assert (i < length cos) by (apply lookup_lt_is_Some; eauto).
  destruct (decide (i = j)) as [<-|Hne].
  - rewrite list_lookup_insert_eq by done. tauto.
  - rewrite list_lookup_insert_ne by done. split; [by intros []|]. split; [congruence|done].
Qed.

(** ** The invariant of an end *)
Definition end_ok (r : role) (p : bytes) (sid : Z) (sent got : list h2_frame) (w : config) (q : list nat) : Prop :=
  cos_in r p w.2 ∧ writers_ok q w.2 ∧ end_role r sid sent got w.1.

Section programs.
Context (handler : ISessionHandler) (outside : itree h2E unit → Prop).
Context (handler_uses : uses_transport handler) (outside_ops : ∀ t, outside t → session_operations t).

Lemma wired_outside t : outside t → co_in plain [] (ready t).
Proof.
  intros Ht. apply ready_wired. apply (outside_ops t Ht (wired plain)); [apply _|apply wired_transport|
    apply wired_close_stream|apply wired_close_session|apply wired_submit].
Qed.

Lemma wired_spawned es : Forall (co_in plain []) (spawned handler es).
Proof.
  induction es as [|e es IH]; [constructor|]. unfold spawned. cbn [omap list_omap].
  destruct e; try exact IH. constructor; [|exact IH]. apply ready_wired, logic_forget; [apply _|].
  apply wired_bind; [done|apply handler_uses; [apply _|apply wired_transport]|]. intros _. apply wired_close_stream.
Qed.

Lemma spawned_ready es s : s ∈ spawned handler es → ¬ writes (Some s).
Proof.
  induction es as [|e es IH]; [by intros ?%elem_of_nil|]. unfold spawned. cbn [omap list_omap].
  destruct e; try exact IH. intros [->|H]%elem_of_cons; [by intros ?|by apply IH].
Qed.

(** A turn: the bytes [x] it has to write join the output, the bytes [y] it gives to
    nghttp2 leave the ones read. *)
Lemma turn_ok r p sid sent got w i es w' q :
  pool_step handler outside w (pe_turn i es) w' → end_ok r p sid sent got w q →
  ∃ r' p' x y, end_ok r' p' sid (sent ++ queued_frames sid es) got w' (enlist i w' q) ∧
    t_out (traffic_of w'.1.2) = t_out (traffic_of w.1.2) ++ x ∧
    t_in (traffic_of w'.1.2) = t_in (traffic_of w.1.2) ++ y ∧ p = y ++ p' ∧
    outstanding (enlist i w' q) w'.2 = outstanding q w.2 ++ x.
Proof.
  intros Hstep (Hcos&Hq&Hinv). inversion Hstep as [c cos i0 t c' s es0 Hi Hturn| | | | |]; subst. cbn [fst snd] in *.
  assert (i < length cos) as Hlt by (apply lookup_lt_is_Some; eauto).
  destruct (turn_moves _ _ _ _ _ Hturn _ _ _ (proj2 Hcos _ _ Hi)) as (r1&Hm&Hco).
  destruct (moves_inv sid _ _ _ Hm sent got r) as [Hinv' (x&y&Ho&Hx&Hin&Hp)];
    [cbn; unfold role_at; case_decide; auto|done|]. cbn [fst snd app] in *.
  assert (enlist i (c', <[i:=s]> cos ++ spawned handler es) q = match s with writing _ _ => q ++ [i] | _ => q end) as Hen.
  { unfold enlist. cbn [snd]. by rewrite lookup_app_l, list_lookup_insert_eq by (rewrite ?length_insert; done). }
  set (r' := if decide (role_at r i = plain) then r else r1) in *.
  assert (∃ p', p = y ++ p' ∧ pending_at p' i = [] ∧ (i ≠ 0 → p' = p)) as (p'&Hpp&Hp0&Hpn).
  { rewrite app_nil_r in Hp. unfold pending_at in *. destruct (decide (i = 0)) as [->|Hn].
    - exists []. rewrite app_nil_r. by split_and!.
    - exists p. by rewrite <-Hp. }
  assert (role_at r' i = r1) as Hr1.
  { unfold r', role_at in *. destruct (decide (i = 0)) as [->|Hn].
    - case_decide as Hpl; [|done]. rewrite Hpl in *. symmetry. by apply (moves_plain _ _ _ Hm).
    - symmetry. by apply (moves_plain _ _ _ Hm). }
  exists r', p', x, y. rewrite Hen. split; [split_and!|split_and!; [done..|]].
  - eapply cos_in_insert; [exact Hcos|apply wired_spawned|done|by rewrite Hr1, Hp0|].
    intros Hn. split; [|by apply Hpn]. unfold r'. apply decide_True. unfold role_at. by apply decide_False.
  - apply writers_insert; [done|rewrite Hi; by intros ?|done|apply spawned_ready].
  - exact Hinv'.
  - assert (i ∉ q) as Hiq by (destruct Hq as [_ ->]; rewrite Hi; by intros ?).
    destruct s as [t'|k|b k|sd k|]; cbn [to_write] in Hx; subst x; rewrite ?app_nil_r;
      try (by apply outstanding_insert).
    unfold outstanding at 1. rewrite fmap_app, concat_app. f_equal; [by apply outstanding_insert|].
    cbn. rewrite lookup_app_l, list_lookup_insert_eq by (rewrite ?length_insert; done). cbn. by rewrite app_nil_r.
Qed.

(** A suspended coroutine that goes on. *)
Lemma resumed_ok r p p' sid sent got got' c c' cos i s t q :
  end_ok r p sid sent got (c, cos) q → cos !! i = Some s → ¬ writes (Some s) →
  ready_in (role_at r i) (pending_at p' i) [] t → (i ≠ 0 → p' = p) → end_role r sid sent got' c' →
  end_ok r p' sid sent got' (c', <[i:=ready t]> cos) q ∧ outstanding q (<[i:=ready t]> cos) = outstanding q cos.
Proof.
  intros (Hcos&Hq&_) Hi Hs Ht Hp Hinv. cbn [fst snd] in *.
  assert (i < length cos) by (apply lookup_lt_is_Some; eauto).
  assert (¬ writes (cos !! i)) as Hw by (by rewrite Hi).
  rewrite <-(app_nil_r (<[i:=ready t]> cos)). split; [split_and!|].
  - eapply cos_in_insert; [exact Hcos|constructor|done|exact Ht|]. intros Hn. split; [done|by apply Hp].
  - apply (writers_insert q cos [] i (ready t)); [done..|]. by intros s' ?%elem_of_nil.
  - exact Hinv.
  - apply outstanding_insert; [done|]. by destruct Hq as [_ ->].
Qed.

Lemma other_ok r p sid sent got w ev w' q :
  pool_step handler outside w ev w' → off_socket ev = true → end_ok r p sid sent got w q →
  end_ok r p sid sent (got ++ got_in sid (dx_pool ev)) w' q ∧ traffic_of w'.1.2 = traffic_of w.1.2 ∧
  outstanding q w'.2 = outstanding q w.2.
Proof.
  intros Hstep Hev Hok. destruct Hstep as [| | |c cos i sd k x h' Hi Hr|c cos i sd k x Hi|c cos t Ht];
    try done; cbn [got_in fst snd].
  - pose proof Hok as (Hcos&_&Hinv). destruct (proj2 Hcos _ _ Hi) as [Hp Hk]. cbn [fst snd] in *.
    destruct c as [h n]. cbn [fst snd] in *.
    pose proof (receive_end_inv _ sid sd sent got h n x h' Hr Hinv) as Hinv'.
    destruct (resumed_ok r p p sid sent got (got ++ got_frames sid sd x) (h, n) (h', n) cos i (receiving sd k)
      (k match x with Ok f => Some f | Err _ => None end) q) as [H1 H2]; [done|done|by intros ?|..|done|done|done].
    rewrite Hp. by apply ready_wired.
  - rewrite app_nil_r. pose proof Hok as (Hcos&_&Hinv). destruct (proj2 Hcos _ _ Hi) as [Hp Hk].
    destruct (resumed_ok r p p sid sent got got c c cos i (receiving sd k) (k x) q) as [H1 H2];
      [done|done|by intros ?|..|done|done|done]. rewrite Hp. by apply ready_wired.
  - rewrite app_nil_r. destruct Hok as (Hcos&[Hnd Hq]&Hinv). cbn [fst snd] in *.
    assert (∀ j, writes ((cos ++ [ready t]) !! j) ↔ writes (cos !! j)) as Hw.
    { intros j. rewrite lookup_app. destruct (cos !! j) as [s|]; [done|]. by destruct (_ - _) as [|[|?]]. }
    destruct Hcos as [Hpos Hcos]. split_and!; [split_and!| |]; cbn [fst snd].
    + split; [rewrite length_app; lia|]. intros i s Hi.
      rewrite lookup_app in Hi. destruct (cos !! i) as [s0|] eqn:H0; [injection Hi as <-; by apply Hcos|].
      apply lookup_ge_None_1 in H0. apply list_lookup_singleton_Some in Hi as [_ <-].
      unfold role_at, pending_at. rewrite !decide_False by lia. by apply wired_outside.
    + split; [done|]. intros i. by rewrite Hw.
    + done.
    + done.
    + apply outstanding_same. intros i Hiq%Hq. destruct (cos !! i) eqn:H0; [|done]. by apply lookup_app_l_Some.
Qed.

(** A write in progress that goes on with the rest, or ends. *)
Lemma write_ok r p sid sent got c cos i x y k q :
  end_ok r p sid sent got (c, cos) q → cos !! i = Some (writing (x ++ y) k) → in_order q i → y ≠ [] →
  end_ok r p sid sent got (c, <[i:=writing y k]> cos) q ∧
  outstanding q cos = x ++ outstanding q (<[i:=writing y k]> cos).
Proof.
  intros (Hcos&[Hnd Hq]&Hinv) Hi Hhd Hy. cbn [fst snd] in *.
  assert (i < length cos) as Hlt by (apply lookup_lt_is_Some; eauto).
  destruct (proj2 Hcos _ _ Hi) as (Hp&_&Hk). split; [split_and!|].
  - rewrite <-(app_nil_r (<[i:=_]> cos)). by eapply cos_in_insert; [exact Hcos|constructor|..].
  - split; [done|]. intros j. rewrite Hq. cbn [snd]. destruct (decide (i = j)) as [<-|Hne].
    + by rewrite list_lookup_insert_eq, Hi.
    + by rewrite list_lookup_insert_ne.
  - done.
  - destruct q as [|i' q]; [done|]. injection Hhd as ->. apply NoDup_cons in Hnd as [Hni _].
    unfold outstanding. cbn [fmap list_fmap concat]. rewrite list_lookup_insert_eq, Hi by done.
    cbn [from_option to_write]. rewrite <-app_assoc. do 2 f_equal. symmetry.
    apply outstanding_same. intros j Hj. apply list_lookup_insert_ne. by intros ->.
Qed.

Lemma written_ok r p sid sent got c cos i x k b q :
  end_ok r p sid sent got (c, cos) q → cos !! i = Some (writing x k) →
  end_ok r p sid sent got (c, <[i:=ready (k b)]> cos) (filter (.≠ i) q) ∧
  (in_order q i → outstanding q cos = x ++ outstanding (filter (.≠ i) q) (<[i:=ready (k b)]> cos)).
Proof.
  intros (Hcos&Hwr&Hinv) Hi. cbn [fst snd] in *.
  assert (i < length cos) as Hlt by (apply lookup_lt_is_Some; eauto).
  destruct (proj2 Hcos _ _ Hi) as (Hp&_&Hk). split; [split_and!|].
  - rewrite <-(app_nil_r (<[i:=_]> cos)). eapply cos_in_insert; [exact Hcos|constructor|done| |done].
    rewrite Hp. apply ready_wired, Hk.
  - eapply writers_done; [done..|]. by intros ?.
  - done.
  - intros Hhd. destruct Hwr as [Hnd Hq]. destruct q as [|i' q]; [done|]. injection Hhd as ->.
    apply NoDup_cons in Hnd as [Hni _]. rewrite filter_cons_False by (intros Hn; by apply Hn).
    assert (filter (.≠ i) q = q) as ->.
    { clear -Hni. induction q as [|j q IH]; [done|]. apply not_elem_of_cons in Hni as [Hj Hni].
      rewrite filter_cons_True by done. by rewrite IH. }
    unfold outstanding. cbn [fmap list_fmap concat]. rewrite Hi. cbn [from_option to_write]. f_equal. symmetry.
    apply outstanding_same. intros j Hj. apply list_lookup_insert_ne. by intros ->.
Qed.

(** ** The invariant of a connection

    What one end's nghttp2 has put out is what the other's was given, what that end
    has read, the wire, and the writes in progress; when a write failed, the last is
    lost. *)
Definition carried (a b : endpoint) (p : bytes) : Prop :=
  let inp := t_in (traffic_of (ep_config b).1.2) ++ p ++ ep_wire a in
  let out := t_out (traffic_of (ep_config a).1.2) in
  if ep_up a then out = inp ++ outstanding (ep_writers a) (ep_config a).2 else inp `prefix_of` out.

Definition dx_inv (sid : Z) (a b : endpoint) (sa ga sb gb : list h2_frame) : Prop :=
  ∃ ra pa rb pb,
    end_ok ra pa sid sa ga (ep_config a) (ep_writers a) ∧ end_ok rb pb sid sb gb (ep_config b) (ep_writers b) ∧
    carried a b pb ∧ carried b a pa.

Lemma dx_inv_swap sid a b sa ga sb gb : dx_inv sid a b sa ga sb gb → dx_inv sid b a sb gb sa ga.
Proof. intros (ra&pa&rb&pb&?&?&?&?). by exists rb, pb, ra, pa. Qed.

Lemma carried_prefix a b p : carried a b p → t_in (traffic_of (ep_config b).1.2) `prefix_of` t_out (traffic_of (ep_config a).1.2).
Proof.
  unfold carried. destruct (ep_up a).
  - intros ->. rewrite <-app_assoc. by apply prefix_app_r.
  - intros [w ->]. rewrite <-app_assoc. by apply prefix_app_r.
Qed.

Lemma end_step_inv sid a b ev a' b' sa ga sb gb :
  end_step handler outside in_order a b ev a' b' → dx_inv sid a b sa ga sb gb →
  dx_inv sid a' b' (sa ++ sent_in sid ev) (ga ++ got_in sid ev) sb gb.
Proof.
  intros Hstep (ra&pa&rb&pb&Ha&Hb&Hab&Hba). unfold carried in *.
  destruct Hstep as [w w' i es q o up b Hp|w w' ev q o up b Hp Hev|c cos i k d q o up w2 q2 rest up2 Hi Hd Hl
    |c cos i k r q o up b Hi Hr|c cos i k x y q o b Hi Hs Hx Hy|c cos i k x q o b Hi Hs|c cos i k x q o up b Hi];
    cbn [ep_config ep_writers ep_wire ep_up sent_in got_in] in *; rewrite ?app_nil_r.
  - destruct (turn_ok ra pa sid sa ga w i es w' q Hp Ha) as (r'&p'&x&y&Ha'&Ho&Hin&->&Hout).
    exists r', p', rb, pb. unfold carried. cbn [ep_config ep_writers ep_wire ep_up]. rewrite Hout, Ho, Hin.
    split_and!; [done|done| |].
    + destruct up; [by rewrite Hab, <-!app_assoc|by apply prefix_app_r].
    + rewrite <-!app_assoc in *. done.
  - destruct (other_ok ra pa sid sa ga w ev w' q Hp Hev Ha) as (Ha'&Ht&Hout).
    assert (sent_in sid (dx_pool ev) = []) as Hn by (by destruct ev). cbn [sent_in] in Hn. rewrite Hn, app_nil_r.
    exists ra, pa, rb, pb. unfold carried. cbn [ep_config ep_writers ep_wire ep_up]. by rewrite Hout, Ht.
  - assert (co_in (role_at ra i) (pending_at pa i) (reading k)) as (Hpa&Hr&Hk) by (apply Ha; exact Hi).
    assert (i = 0) as -> by (unfold role_at in Hr; case_decide; done). cbn in Hpa, Hr, Hk.
    unfold pending_at in Hpa. rewrite decide_True in Hpa by done. subst pa.
    destruct (resumed_ok ra [] d sid sa ga ga c c cos 0 (reading k) (k (Some d)) q) as [Ha' Hout];
      [done|done|by intros ?| |done|apply Ha|].
    { unfold pending_at. rewrite decide_True by done. by split. }
    exists ra, d, rb, pb. unfold carried. cbn [ep_config ep_writers ep_wire ep_up fst snd] in *.
    rewrite Hout. split_and!; [done|done|done|exact Hba].
  - assert (co_in (role_at ra i) (pending_at pa i) (reading k)) as (Hpa&_&Hk) by (apply Ha; exact Hi).
    destruct (resumed_ok ra pa pa sid sa ga ga c c cos i (reading k) (k r) q) as [Ha' Hout];
      [done|done|by intros ?| |done|apply Ha|].
    { rewrite Hpa. apply ready_wired. specialize (Hk r). by destruct Hr as [->| ->]. }
    exists ra, pa, rb, pb. unfold carried. cbn [ep_config ep_writers ep_wire ep_up fst snd] in *. by rewrite Hout.
  - destruct (write_ok ra pa sid sa ga c cos i x y k q Ha Hi Hs Hy) as [Ha' Hout].
    exists ra, pa, rb, pb. unfold carried. cbn [ep_config ep_writers ep_wire ep_up fst snd] in *.
    split_and!; [done|done| |done]. by rewrite Hab, Hout, <-!app_assoc.
  - destruct (written_ok ra pa sid sa ga c cos i x k true q Ha Hi) as [Ha' Hout].
    exists ra, pa, rb, pb. unfold carried. cbn [ep_config ep_writers ep_wire ep_up fst snd] in *.
    split_and!; [done|done| |done]. by rewrite Hab, Hout, <-!app_assoc.
  - destruct (written_ok ra pa sid sa ga c cos i x k false q Ha Hi) as [Ha' _].
    exists ra, pa, rb, pb. unfold carried. cbn [ep_config ep_writers ep_wire ep_up fst snd] in *.
    split_and!; [done|done| |done]. destruct up; [|done]. rewrite Hab. by apply prefix_app_r.
Qed.

Lemma new_end_ok sid w c :
  w = (c, [detached run_rest]) →
  (∃ m max, c = init_nghttp2 (new_h2_session m max) ∨ c = init_nghttp2 (set_new_stream_handler (new_h2_session m max))) →
  end_ok running [] sid [] [] w [] ∧ traffic_of w.1.2 = no_traffic.
Proof.
  intros -> (m&max&Hc). split; [|destruct Hc as [->| ->]; apply new_traffic]. split_and!.
  - split; [cbn; lia|]. intros i s Hi. apply list_lookup_singleton_Some in Hi as [-> <-].
    apply ready_wired, wired_run.
  - split; [apply NoDup_nil_2|]. intros [|i]; cbn; (split; [by intros ?%elem_of_nil|done]).
  - eapply fresh_inv. exact Hc.
Qed.

Lemma run_inv sid cmax smax tr d :
  dx_run handler outside in_order (new_connection cmax smax) tr d →
  dx_inv sid d.1 d.2 (sent_on near sid tr) (got_on near sid tr) (sent_on far sid tr) (got_on far sid tr).
Proof.
  induction 1 as [|tr [a b] l d2 _ IH Hstep].
  - destruct (new_end_ok sid (client_connection cmax) _ eq_refl) as [Ha Hta]; [eauto|].
    destruct (new_end_ok sid (accepted smax) _ eq_refl) as [Hb Htb]; [eauto|].
    exists running, [], running, []. unfold carried. cbn [new_connection new_end fst snd ep_config ep_writers ep_wire ep_up].
    by rewrite Hta, Htb.
  - unfold sent_on, got_on in *. rewrite !frames_at_snoc.
    inversion Hstep as [a0 b0 ev a' b' Hs|a0 b0 ev a' b' Hs]; subst; cbn [fst snd] in *;
      repeat ((case_decide; [|done]) || (case_decide; [done|])); rewrite ?app_nil_r.
    + by eapply end_step_inv.
    + apply dx_inv_swap. eapply end_step_inv; [exact Hs|]. by apply dx_inv_swap.
Qed.
End programs.

(** ** Theorems *)

(** C13. Frames cross a connection: for a client and a server with any coroutines, the
    handlers of streams and whatever else uses the session, in every interleaving of
    both ends, with reads of any size and writes cut in any way, if the socket takes
    the writes in the order they were started: the frames received from a stream at
    one end are among those queued on it at the other, unchanged and in order; and
    when at most 256 frames were queued, they are the first of them, with no gap.
    This holds in both directions, also while streams are closed, refused or reset
    and when the connection fails. *)
Theorem frames_cross_connection handler outside client_max server_max tr d s sid :
  uses_transport handler → (∀ t, outside t → session_operations t) →
  dx_run handler outside in_order (new_connection client_max server_max) tr d →
  got_on (other s) sid tr `sublist_of` sent_on s sid tr ∧
  (length (sent_on s sid tr) ≤ kChannelCapacity → got_on (other s) sid tr `prefix_of` sent_on s sid tr).
Proof.
  intros Hh Ho Hrun. pose proof (run_inv handler outside Hh Ho sid client_max server_max tr d Hrun) as Hinv.
  assert (∀ a b sa ga sb gb, dx_inv sid a b sa ga sb gb →
    gb `sublist_of` sa ∧ (length sa ≤ kChannelCapacity → gb `prefix_of` sa)) as Hend.
  { intros a b sa ga sb gb (ra&pa&rb&pb&(_&_&Ha)&(_&_&Hb)&Hab&_). eapply ends_agree; [exact Ha|exact Hb|].
    by eapply carried_prefix. }
  destruct s; [by eapply Hend|]. by eapply Hend, dx_inv_swap.
Qed.

(** ** Writes that overlap *)

(** The ways to merge two sequences of bytes. *)
Inductive interleaves : bytes → bytes → bytes → Prop :=
| interleaves_nil : interleaves [] [] []
| interleaves_left x l1 l2 l : interleaves l1 l2 l → interleaves (x :: l1) l2 (x :: l)
| interleaves_right x l1 l2 l : interleaves l1 l2 l → interleaves l1 (x :: l2) (x :: l).

(** A coroutine that still has [b] to write. *)
Definition has_to_write (q : list nat) (cos : list co) (i : nat) (b : bytes) : Prop :=
  b = [] ∨ i ∈ q ∧ ∃ k, cos !! i = Some (writing b k).

Section merge.
Context (handler : ISessionHandler) (outside : itree h2E unit → Prop).

Lemma write_byte c cos q o peer i x b :
  has_to_write q cos i (x :: b) →
  ∃ cos' q', end_step handler outside any_order (mkEnd (c, cos) q o true) peer (dx_write i)
               (mkEnd (c, cos') q' (o ++ [x]) true) peer ∧
    has_to_write q' cos' i b ∧ ∀ j b', j ≠ i → has_to_write q cos j b' → has_to_write q' cos' j b'.
Proof.
  intros [?|[Hq [k Hk]]]; [done|]. assert (i < length cos) by (apply lookup_lt_is_Some; eauto).
  destruct b as [|y b].
  - eexists _, _. split; [by eapply de_written|]. split; [by left|].
    intros j b' Hj [->|[Hjq [k' Hk']]]; [by left|]. right. rewrite list_elem_of_filter.
    split; [done|]. exists k'. by rewrite list_lookup_insert_ne.
  - eexists _, _. split; [by eapply (de_write _ _ _ c cos i k [x] (y :: b))|]. split.
    + right. split; [done|]. exists k. by apply list_lookup_insert_eq.
    + intros j b' Hj [->|[Hjq [k' Hk']]]; [by left|]. right. split; [done|]. exists k'. by rewrite list_lookup_insert_ne.
Qed.

Lemma writes_merge b1 b2 l : interleaves b1 b2 l → ∀ c cos q o peer i j d tr,
  i ≠ j → has_to_write q cos i b1 → has_to_write q cos j b2 →
  dx_run handler outside any_order d tr (mkEnd (c, cos) q o true, peer) →
  ∃ tr' e, dx_run handler outside any_order d tr' (e, peer) ∧ ep_wire e = o ++ l ∧ (ep_config e).1 = c.
Proof.
  induction 1 as [|x l1 l2 l _ IH|x l1 l2 l _ IH]; intros c cos q o peer i j d tr Hij Hi Hj Hrun.
  - eexists _, _. split; [exact Hrun|]. by rewrite app_nil_r.
  - destruct (write_byte c cos q o peer i x l1 Hi) as (cos'&q'&Hs&Hi'&Hne).
    rewrite cons_middle, app_assoc. eapply (IH c cos' q' _ peer i j); [done|done|by apply Hne|].
    eapply dx_run_snoc; [exact Hrun|by apply step_near].
  - destruct (write_byte c cos q o peer j x l2 Hj) as (cos'&q'&Hs&Hj'&Hne).
    rewrite cons_middle, app_assoc. eapply (IH c cos' q' _ peer i j); [done|by apply Hne|done|].
    eapply dx_run_snoc; [exact Hrun|by apply step_near].
Qed.
End merge.

(** C38. Writes overlap: when a coroutine sends a frame while [run] is in its first
    write, both have an [async_write] in progress on the one socket, which the
    strand does not prevent; and unless the socket happens to take them one after
    the other, their bytes can reach the peer merged in any way, as bytes that no
    HTTP/2 endpoint sent. *)
Theorem interleaved_writes handler outside h n sid t p x1 b1 c1 es1 c2 es2 x2 b2 c3 es3 peer l :
  drain_output (init_nghttp2 h) = (x1 :: b1, c1, es1) →
  send_frame_section sid t p c1 = (Ok tt, c2, es2) →
  drain_output c2 = (x2 :: b2, c3, es3) →
  interleaves (x1 :: b1) (x2 :: b2) l →
  ∃ tr e, dx_run handler outside any_order
      (new_end ((h, n), [detached run_co; detached (send_frame_co sid t p)]), peer) tr (e, peer) ∧
    ep_wire e = l.
Proof.
  intros Hd1 Hs Hd2 Hl. destruct (run_first_turn h n _ _ _ _ Hd1) as [k1 H1].
  destruct (send_first_turn _ _ _ _ _ _ _ _ _ _ Hs Hd2) as [k2 H2]. set (d := (_, peer)).
  assert (∃ cos q tr, dx_run handler outside any_order d tr (mkEnd (c3, cos) q [] true, peer) ∧
    has_to_write q cos 0 (x1 :: b1) ∧ has_to_write q cos 1 (x2 :: b2)) as (cos&q&tr&Hrun&Hw0&Hw1).
  { eexists _, _, _. split.
    - eapply dx_run_snoc; [eapply dx_run_snoc; [apply dx_run_nil|]|]; apply step_near, de_turn.
      + by apply (step_turn _ _ _ _ 0 (forget run_co)).
      + by eapply (step_turn _ _ _ _ 1 (forget (send_frame_co sid t p))).
    - split; right; (split; [|by eexists]).
      + unfold enlist. cbn. set_solver.
      + unfold enlist. cbn. set_solver. }
  destruct (writes_merge handler outside _ _ _ Hl c3 cos q [] peer 0 1 d tr) as (tr'&e&Hr&Hw&_); [done..|].
  by exists tr', e.
Qed.
End duplex.

(** ** Schedules *)
Section schedule.
Context {CL : ChannelLib} {NG : Nghttp2}.
Context (handler : ISessionHandler) (program : itree h2E unit).

(** A turn, a frame for a coroutine that waits, the start of [program], a read of at
    most [n] bytes, the oldest write. *)
Inductive dx_choice := dc_turn (i : nat) | dc_frame (i : nat) | dc_spawn | dc_read (i n : nat) | dc_write (i : nat).

Definition end_act (a b : endpoint) (ch : dx_choice) : option (dx_event * endpoint * endpoint) :=
  let '(mkEnd (c, cos) q o up) := a in
  match ch with
  | dc_turn i =>
      match cos !! i with
      | Some (ready t) =>
          '(c', s, es) ← turn_for 100 c t;
          let w' := (c', <[i := s]> cos ++ spawned handler es) in
          Some (dx_pool (pe_turn i es), mkEnd w' (enlist i w' q) o up, b)
      | _ => None
      end
  | dc_frame i =>
      match cos !! i with
      | Some (receiving sid k) =>
          match receive_frame_end sid c.1 with
          | (Some r, h) =>
              Some (dx_pool (pe_received i sid r),
                    mkEnd ((h, c.2), <[i := ready (k (match r with Ok f => Some f | Err _ => None end))]> cos) q o up, b)
          | _ => None
          end
      | _ => None
      end
  | dc_spawn => Some (dx_pool pe_spawn, mkEnd (c, cos ++ [ready program]) q o up, b)
  | dc_read i n =>
      match cos !! i with
      | Some (reading k) =>
          let d := take n (ep_wire b) in
          if bool_decide (d = []) || negb (bool_decide (Z.of_nat (length d) ≤ read_buffer_size)%Z) then None
          else Some (dx_read i, mkEnd (c, <[i := ready (k (Some d))]> cos) q o up,
                     mkEnd (ep_config b) (ep_writers b) (drop n (ep_wire b)) (ep_up b))
      | _ => None
      end
  | dc_write i =>
      match cos !! i with
      | Some (writing x k) =>
          if up && bool_decide (head q = Some i)
          then Some (dx_write i, mkEnd (c, <[i := ready (k true)]> cos) (filter (.≠ i) q) (o ++ x) true, b)
          else None
      | _ => None
      end
  end.

Definition dx_act (d : endpoint * endpoint) (ch : side * dx_choice) : option (dx_event * (endpoint * endpoint)) :=
  match ch.1 with
  | near => '(ev, a, b) ← end_act d.1 d.2 ch.2; Some (ev, (a, b))
  | far => '(ev, b, a) ← end_act d.2 d.1 ch.2; Some (ev, (a, b))
  end.

Fixpoint dx_schedule (tr : list (side * dx_event)) (d : endpoint * endpoint) (chs : list (side * dx_choice))
    : option (list (side * dx_event) * (endpoint * endpoint)) :=
  match chs with
  | [] => Some (tr, d)
  | ch :: chs => '(ev, d) ← dx_act d ch; dx_schedule (tr ++ [(ch.1, ev)]) d chs
  end.

Lemma end_act_step a b ch ev a' b' :
  end_act a b ch = Some (ev, a', b') → end_step handler (eq program) in_order a b ev a' b'.
Proof.
  destruct a as [[c cos] q o up]. destruct ch as [i|i| |i n|i]; cbn [end_act].
  - destruct (cos !! i) as [[]|] eqn:Hi; try done. intros ([[c' s] es]&Ht%turn_for_turn&[= <- <- <-])%bind_Some.
    by eapply de_turn, step_turn.
  - destruct (cos !! i) as [[]|] eqn:Hi; try done. destruct (receive_frame_end sid c.1) as [[r|] h] eqn:Hr; [|done].
    intros [= <- <- <-]. apply de_other; [by eapply step_received|done].
  - intros [= <- <- <-]. apply de_other; [by apply step_spawn|done].
  - destruct (cos !! i) as [[]|] eqn:Hi; try done. destruct (_ || _) eqn:Hd; [done|].
    apply orb_false_elim in Hd as [Hd%bool_decide_eq_false Hl%negb_false_iff%bool_decide_eq_true].
    intros [= <- <- <-]. destruct b as [w2 q2 o2 up2]. cbn [ep_config ep_writers ep_wire ep_up] in *.
    rewrite <-(take_drop n o2) at 1. by apply de_read.
  - destruct (cos !! i) as [[]|] eqn:Hi; try done. destruct (up && _) eqn:Hd; [|done].
    apply andb_true_iff in Hd as [-> Hh%bool_decide_eq_true]. intros [= <- <- <-]. by apply de_written.
Qed.

Lemma dx_schedule_run d0 tr d chs tr' d' :
  dx_schedule tr d chs = Some (tr', d') → dx_run handler (eq program) in_order d0 tr d →
  dx_run handler (eq program) in_order d0 tr' d'.
Proof.
  revert tr d. induction chs as [|[s ch] chs IH]; intros tr [a b]; cbn [dx_schedule]; [by intros [= <- <-]|].
  intros ([ev d1]&Ha&Hs)%bind_Some Hrun. eapply IH; [exact Hs|]. eapply dx_run_snoc; [exact Hrun|].
  unfold dx_act in Ha. destruct s; cbn [fst snd] in Ha;
    apply bind_Some in Ha as ([[ev1 x] y]&Ha&[= <- <-]); [apply step_near|apply step_far]; by eapply end_act_step.
Qed.

Lemma dx_schedule_reaches d chs (P : list (side * dx_event) → endpoint * endpoint → bool) :
  match dx_schedule [] d chs with Some (tr, d') => P tr d' | None => false end = true →
  ∃ tr d', dx_run handler (eq program) in_order d tr d' ∧ P tr d' = true.
Proof.
  destruct (dx_schedule [] d chs) as [[tr d']|] eqn:Hs; [|done]. intros HP. exists tr, d'. split; [|done].
  eapply dx_schedule_run; [exact Hs|apply dx_run_nil].
Qed.
End schedule.

(** ** A client that sends two frames *)
#[local] Existing Instance list_channel_lib.

Section examples.
#[local] Existing Instance tag_engine.
#[local] Existing Instance tag_wire.

Definition two_frames : itree h2E unit :=
  await r := submit_request_co (str "h") (str "/") in
  match r with
  | Some sid => send_frame_co sid kTypeControl (str "a") ;;; send_frame_co sid kTypeMedia (str "bc") ;;; Ret tt
  | None => Ret tt
  end.

Lemma two_frames_operations : session_operations two_frames.
Proof.
  intros Q HQ Ht _ _ Hr. apply logic_bind; [apply Hr|]. intros [sid|]; [|apply logic_ret].
  destruct (Ht sid) as (Hsend&Hbin&_). apply logic_bind; [apply Hsend|]. intros _.
  apply logic_bind; [apply Hbin|]. intros _. apply logic_ret.
Qed.

(** The client sends its request and the frames, the second cut by a read; the
    server's handler receives both. *)
Definition two_frames_schedule : list (side * dx_choice) :=
  [(near, dc_turn 0); (near, dc_spawn); (near, dc_turn 1); (near, dc_write 1);
   (near, dc_turn 1); (near, dc_write 1); (far, dc_turn 0);
   (far, dc_read 0 9); (far, dc_turn 0); (far, dc_turn 1);
   (near, dc_turn 1); (near, dc_write 1); (near, dc_turn 1);
   (far, dc_read 0 7); (far, dc_turn 0); (far, dc_frame 1); (far, dc_turn 1);
   (far, dc_read 0 100); (far, dc_turn 0); (far, dc_frame 1); (far, dc_turn 1)].

Lemma frames_cross_connection_witness :
  ∃ tr d,
    dx_run drain_frames_handler (eq two_frames) in_order (new_connection 100 100) tr d ∧
    got_on far 1 tr = [(kTypeControl, str "a"); (kTypeMedia, str "bc")] ∧
    got_on far 1 tr `prefix_of` sent_on near 1 tr.
Proof.
  destruct (dx_schedule_reaches drain_frames_handler two_frames (new_connection 100 100)
    two_frames_schedule (λ tr _, bool_decide (got_on far 1 tr = [(kTypeControl, str "a"); (kTypeMedia, str "bc")] ∧
                                              length (sent_on near 1 tr) = 2)))
    as (tr&d&Hrun&[Hgot Hlen]%bool_decide_eq_true); [vm_compute; reflexivity|].
  exists tr, d. split_and!; [exact Hrun|exact Hgot|].
  apply (frames_cross_connection drain_frames_handler (eq two_frames) 100 100 tr d near 1).
  - apply drain_frames_uses_transport.
  - intros t <-. apply two_frames_operations.
  - exact Hrun.
  - rewrite Hlen. by_decide.
Defined.

End examples.

(** The first byte of the settings, then a frame, then the rest of the settings. *)
Lemma interleaves_cut l1 l1' l2 : interleaves (l1 ++ l1') l2 (l1 ++ l2 ++ l1').
Proof.
  induction l1 as [|x l1 IH]; [|by apply (interleaves_left x)]. cbn.
  induction l2 as [|x l2 IH]; [|by apply (interleaves_right x)]. cbn.
  induction l1' as [|x l IH]; [apply interleaves_nil|by apply (interleaves_left x)].
Qed.

Section overlapping.
#[local] Existing Instance queue_engine.

Definition overlapping : endpoint :=
  new_end (((demo_h2_env []).(e_conn).1, []), [detached run_co; detached (send_frame_co 1 kTypeMedia (str "x"))]).

Definition idle_end : endpoint := new_end (((demo_h2_env []).(e_conn).1, []), []).

Lemma interleaved_writes_witness :
  ∃ tr e, dx_run drain_frames_handler (λ _, False) any_order (overlapping, idle_end) tr (e, idle_end) ∧
    ep_wire e = str "s" ++ from_option id [] (encode_h2_envelope kTypeMedia (str "x")) ++ str "ettings".
Proof.
  edestruct (interleaved_writes (NG := queue_engine)
    drain_frames_handler (λ _, False) (e_conn (demo_h2_env [])).1 [] 1 kTypeMedia (str "x")) as (tr&e&Hrun&Hw);
    [vm_compute; reflexivity..|apply (interleaves_cut (str "s") (str "ettings"))|].
  exists tr, e. split; [exact Hrun|]. rewrite Hw. vm_compute. reflexivity.
Defined.
End overlapping.
