(* ===== verification/H2Socket.v ===== *)
(** * libculpeo-transport-h2: the socket wrappers

    [ISocketStream] with [TcpSocketStream] and [TlsSocketStream] of
    [src/h2_session.hpp], and the connection with the socket below it: what closing
    the socket does to a read that is in progress, and what the destructor of a
    session gives back. *)

From ITree Require Import ITree ITreeFacts.
From S2P Require Import Prelude Bytes H2Frame H2Session H2Facts H2Safety H2Theorems H2Run H2Pool.

Local Open Scope co_scope.

Section sockets.

(** asio's sockets.  [cancelled] is whether the reads in progress on the descriptor
    have been cancelled.  Closing the descriptor cancels them; shutting down its
    directions leaves the descriptor open, and shutting down TLS exchanges the
    close_notify alerts and leaves the descriptor below alone. *)
Class AsioSockets := {
  tcp_socket : Type;
  ssl_socket : Type;
  lowest_layer : ssl_socket → tcp_socket;
  tcp_shutdown_both : tcp_socket → tcp_socket;
  tcp_close : tcp_socket → tcp_socket;
  ssl_shutdown : ssl_socket → ssl_socket;
  cancelled : tcp_socket → bool;
  tcp_close_cancels s : cancelled (tcp_close s) = true;
  ssl_shutdown_leaves s : cancelled (lowest_layer (ssl_shutdown s)) = cancelled (lowest_layer s);
}.

Context {AS : AsioSockets}.

Inductive ISocketStream := TcpSocketStream (sock_ : tcp_socket) | TlsSocketStream (sock_ : ssl_socket).

(** [close]; the error codes are ignored. *)
Definition close_socket (s : ISocketStream) : ISocketStream :=
  match s with
  | TcpSocketStream sock_ => TcpSocketStream (tcp_close (tcp_shutdown_both sock_))
  | TlsSocketStream sock_ => TlsSocketStream (ssl_shutdown sock_)
  end.

Definition descriptor (s : ISocketStream) : tcp_socket :=
  match s with TcpSocketStream sock_ => sock_ | TlsSocketStream sock_ => lowest_layer sock_ end.

(** ** The connection on its socket *)
Context {CL : ChannelLib} {NG : Nghttp2}.

Context (hdl : ISessionHandler) (outside : itree h2E unit → Prop).

(** A call of [sock_->close()] in the turn. *)
Definition closes (ev : pool_event) : bool :=
  match ev with
  | pe_turn _ es => existsb (λ e, match e with socket_close => true | _ => false end) es
  | _ => false
  end.

(** Steps while the peer is silent: a read ends only when it is cancelled. *)
Inductive silent_step : ISocketStream * config → ISocketStream * config → Prop :=
| silent_pool s w ev w' :
    pool_step hdl outside w ev w' → (∀ i, ev ≠ pe_read i) →
    silent_step (s, w) (if closes ev then close_socket s else s, w')
| silent_cancelled s c cos i k :
    cos !! i = Some (reading k) → cancelled (descriptor s) = true →
    silent_step (s, (c, cos)) (s, (c, <[i := ready (k None)]> cos)).

(** Over TLS a read goes on whatever is closed. *)
Lemma tls_reads_on s w s' w' i k :
  rtc silent_step (s, w) (s', w') →
  (∃ t, s = TlsSocketStream t) → cancelled (descriptor s) = false → w.2 !! i = Some (reading k) →
  cancelled (descriptor s') = false ∧ w'.2 !! i = Some (reading k).
Proof.
  intros Hr. remember (s, w) as a eqn:Ha. remember (s', w') as b eqn:Hb. revert s w s' w' Ha Hb.
  induction Hr as [a|a m b Hstep _ IH]; intros s w s' w' -> Hb Htls Hc Hi; [by simplify_eq|].
  inversion Hstep as [s1 w1 ev w1' Hp Hev|s1 c cos j k' Hj Hcan]; subst; [|congruence].
  eapply IH; [reflexivity|done|..].
  - destruct Htls as [t ->]. destruct (closes ev); by eexists.
  - destruct Htls as [t ->]. destruct (closes ev); [|done]. cbn. by rewrite ssl_shutdown_leaves.
  - eapply pool_step_waits; eauto.
Qed.

Lemma close_rest_turn c :
  turn c (forget close_session_rest) (set_closed c.1, c.2) finished [socket_close].
Proof.
  change [socket_close] with ([socket_close] ++ []). eapply turn_more; [unfold co_step; cbn; reflexivity|].
  apply turn_suspend; [reflexivity|done].
Qed.

(** ** Theorem *)

(** C19. [close_session] ends a connection over TCP but not over TLS.  When it has
    written its last frame while [run] waits for the peer, closing a TCP socket
    cancels the read: [run] can return although the peer says nothing, with the
    session closed.  Closing a TLS socket leaves the descriptor and the read as
    they are: whatever happens, [run] waits until the peer answers. *)
Theorem close_session_ends_run :
  ∃ k, (∀ c, h2_closed c.1 = false → turn c (forget run_from_loop) c (reading k) []) ∧
    (∀ t c, ∃ s' c', rtc silent_step
        (TcpSocketStream t, (c, [reading k; ready (forget close_session_rest)])) (s', (c', [finished; finished])) ∧
        h2_closed c'.1 = true) ∧
    (∀ t c s' w', cancelled (lowest_layer t) = false →
       rtc silent_step (TlsSocketStream t, (c, [reading k; ready (forget close_session_rest)])) (s', w') →
       w'.2 !! 0 = Some (reading k)).
Proof.
  destruct run_reads as (k&H1&H2). exists k. split_and!; [exact H1| |].
  - intros t c. do 2 eexists. split.
    + eapply rtc_l; [eapply silent_pool; [eapply (step_turn _ _ _ _ 1); [reflexivity|apply close_rest_turn]|done]|].
      eapply rtc_l; [eapply (silent_cancelled _ _ _ 0); [reflexivity|apply tcp_close_cancels]|].
      eapply rtc_l; [eapply silent_pool; [eapply (step_turn _ _ _ _ 0); [reflexivity|apply H2]|done]|]. apply rtc_refl.
    + done.
  - intros t c s' w' Ht Hr. apply (tls_reads_on _ _ _ _ 0 k Hr); [by exists t|exact Ht|reflexivity].
Qed.
End sockets.

(** ** Sockets that remember whether they were closed *)
Section examples.
#[local] Existing Instance list_channel_lib.
#[local] Existing Instance queue_engine.

#[local] Instance flag_sockets : AsioSockets.
Proof.
  by refine {| tcp_socket := bool; ssl_socket := bool; lowest_layer := id; tcp_shutdown_both := id;
    tcp_close := λ _, true; ssl_shutdown := id; cancelled := id |}.
Defined.

Lemma close_session_ends_run_witness :
  ∃ k s' c', rtc (silent_step drain_frames_handler (λ _, False))
      (TcpSocketStream false, (e_conn (demo_h2_env []), [reading k; ready (forget close_session_rest)]))
      (s', (c', [finished; finished])) ∧ h2_closed c'.1 = true.
Proof.
  destruct (close_session_ends_run drain_frames_handler (λ _, False)) as (k&_&Htcp&_).
  destruct (Htcp false (e_conn (demo_h2_env []))) as (s'&c'&Hr&Hc). exists k, s', c'.
  split; [exact Hr|exact Hc].
Defined.
End examples.
