(* ===== verification/H2Endpoints.v ===== *)
(** * libculpeo-transport-h2: the server

    [CulpeoH2Server] of [src/h2_server.cpp], and the handler of
    [culpeostream-py/src/bindings.cpp] that a Python server installs.  What the
    network answers is an argument; the accept loop and the coroutine of a stream are
    interaction trees. *)

From ITree Require Import ITree ITreeFacts Events.State Events.StateFacts.
From S2P Require Import Prelude Bytes H2Frame H2Session H2Facts H2Safety SafeQueue PyServer H2Run H2Theorems H2Client.

Local Open Scope co_scope.

(** ** [CulpeoH2Server] *)
Section server.
Context {CL : ChannelLib}.

Record CulpeoH2ServerOptions := mkOptions {
  opt_max_concurrent_streams : Z;
  opt_handshake_timeout_seconds : nat;
}.
Definition default_options : CulpeoH2ServerOptions := mkOptions 100 10.

Record CulpeoH2Server := mkServer {
  srv_cleartext : bool;
  srv_opts : CulpeoH2ServerOptions;
  acceptor_open : bool;
  actual_port : Z;
}.

(** The constructors with [start_listen]: [bound] is the port that the system
    gave, [None] when one of the calls throws. *)
Definition new_server (cleartext : bool) (opts : CulpeoH2ServerOptions) (bound : option Z)
    : option CulpeoH2Server :=
  mkServer cleartext opts true <$> bound.

Definition server_port (srv : CulpeoH2Server) : Z := actual_port srv.
Definition server_stop (srv : CulpeoH2Server) : CulpeoH2Server :=
  mkServer (srv_cleartext srv) (srv_opts srv) false (actual_port srv).

(** The constructor of [PyH2Server], which has no TLS, and its [stop]. *)
Definition make_py_server (cleartext : bool) (bound : option Z)
    : expected client_error (CulpeoH2Server * PyH2Server) :=
  if cleartext then
    match new_server true default_options bound with
    | None => Err system_error
    | Some srv => Ok (srv, mkPyServer true new_queue)
    end
  else Err runtime_error.

Definition py_server_stop (s : CulpeoH2Server * PyH2Server) : CulpeoH2Server * PyH2Server :=
  (server_stop s.1, py_stop s.2).

(** The session of an accepted connection. *)
Definition server_session (max : Z) : H2Session := set_new_stream_handler (new_h2_session Server max).

(** What [run] spawns for a connection. *)
Inductive srv_task :=
| serve_cleartext (sock : nat) (h : H2Session)
| serve_tls (sock : nat) (hs_timeout : nat) (max_streams : Z).

Variant srvE : Type → Type :=
| Accept : srvE (option nat)            (* None: throws *)
| NoDelay (sock : nat) : srvE bool      (* false: throws *)
| CoSpawn (t : srv_task) : srvE unit.

Definition task_of (srv : CulpeoH2Server) (sock : nat) : srv_task :=
  if srv_cleartext srv
  then serve_cleartext sock (server_session (opt_max_concurrent_streams (srv_opts srv)))
  else serve_tls sock (opt_handshake_timeout_seconds (srv_opts srv))
         (opt_max_concurrent_streams (srv_opts srv)).

(** One iteration of the accept loop: [inr true] at the break, [inr false] when an
    exception leaves the loop. *)
Definition accept_body (srv : CulpeoH2Server) (_ : unit) : itree srvE (unit + bool) :=
  await r := ITree.trigger Accept in
  match r with
  | None => Ret (inr true)
  | Some sock =>
      await ok := ITree.trigger (NoDelay sock) in
      if ok : bool then ITree.trigger (CoSpawn (task_of srv sock)) ;;; Ret (inl tt)
      else Ret (inr false)
  end.

Definition accept_loop (srv : CulpeoH2Server) : itree srvE bool := ITree.iter (accept_body srv) tt.

(** How a wait in [async_accept] ends: with a connection, on which
    [set_option] succeeds or not, or with an error.  After the last one the
    acceptor is closed by [stop]. *)
Inductive arrival := arrives (sock : nat) (no_delay_ok : bool) | accept_error.

Record accept_env := mkAcceptEnv {
  ae_arrivals : list arrival;
  ae_no_delay : bool;
  ae_spawned : list srv_task;
}.

Definition do_accept (s : accept_env) : accept_env * option nat :=
  match ae_arrivals s with
  | [] => (s, None)
  | accept_error :: l => (mkAcceptEnv l (ae_no_delay s) (ae_spawned s), None)
  | arrives sock ok :: l => (mkAcceptEnv l ok (ae_spawned s), Some sock)
  end.

Definition handle_srv : srvE ~> Monads.stateT accept_env (itree void1) := λ _ e s,
  match e with
  | Accept => Ret (do_accept s)
  | NoDelay _ => Ret (s, ae_no_delay s)
  | CoSpawn t => Ret (mkAcceptEnv (ae_arrivals s) (ae_no_delay s) (ae_spawned s ++ [t]), tt)
  end.

(** The connections that are served, and whether the loop ends with its break. *)
Fixpoint served (l : list arrival) : list nat * bool :=
  match l with
  | [] | accept_error :: _ => ([], true)
  | arrives _ false :: _ => ([], false)
  | arrives sock true :: l => let '(socks, b) := served l in (sock :: socks, b)
  end.

Definition accept_turn (srv : CulpeoH2Server) (s : accept_env) : accept_env * (unit + bool) :=
  let '(s, r) := do_accept s in
  match r with
  | None => (s, inr true)
  | Some sock =>
      if ae_no_delay s
      then (mkAcceptEnv (ae_arrivals s) true (ae_spawned s ++ [task_of srv sock]), inl tt)
      else (s, inr false)
  end.

Lemma interp_accept_body srv s :
  interp_state handle_srv (accept_body srv tt) s ≈ Ret (accept_turn srv s).
Proof.
  unfold accept_body, accept_turn. rewrite (interp_await _ _ _ _ (do_accept s)) by (by apply interp_event).
  destruct (do_accept s) as [s1 [sock|]]; cbn [fst snd]; [|by rewrite interp_state_ret].
  rewrite (interp_await _ _ _ _ (s1, ae_no_delay s1)) by (by apply interp_event). cbn [fst snd].
  destruct (ae_no_delay s1) eqn:Hn; [|by rewrite interp_state_ret].
  erewrite interp_await by (by apply interp_event). cbn [fst snd]. rewrite interp_state_ret, Hn. reflexivity.
Qed.

(** The loop as a function of the arrivals. *)
Fixpoint accept_all (srv : CulpeoH2Server) (l : list arrival) (nd : bool) (sp : list srv_task)
    : accept_env * bool :=
  match l with
  | [] => (mkAcceptEnv [] nd sp, true)
  | accept_error :: l => (mkAcceptEnv l nd sp, true)
  | arrives _ false :: l => (mkAcceptEnv l false sp, false)
  | arrives sock true :: l => accept_all srv l true (sp ++ [task_of srv sock])
  end.

Lemma interp_accept srv l : ∀ nd sp,
  interp_state handle_srv (accept_loop srv) (mkAcceptEnv l nd sp) ≈ Ret (accept_all srv l nd sp).
Proof.
  unfold accept_loop. induction l as [|a l IH]; intros nd sp; rewrite unfold_iter;
    rewrite interp_await by apply interp_accept_body; [|destruct a as [sock [|]|]];
    cbn [accept_turn do_accept ae_arrivals ae_no_delay ae_spawned fst snd accept_all].
  2: by rewrite interp_state_tau, tau_eutt.
  all: by rewrite interp_state_ret.
Qed.

Lemma accept_all_served srv l : ∀ nd sp,
  (accept_all srv l nd sp).2 = (served l).2 ∧
  ae_spawned (accept_all srv l nd sp).1 = sp ++ (task_of srv <$> (served l).1).
Proof.
  induction l as [|[sock [|]|] l IH]; intros nd sp; cbn; rewrite ?app_nil_r; try done.
  destruct (IH true (sp ++ [task_of srv sock])) as [-> ->]. destruct (served l). cbn.
  by rewrite <-app_assoc.
Qed.

(** C27. The accept loop: it returns for every sequence of arrivals that ends, and
    it serves the connections before the first failure, in order and each with a
    task that has the server's limits.  A failure of [async_accept], or of
    [set_option] on one connection, is the end of the loop for all later ones. *)
Theorem server_accepts srv l sock' :
  ∃ s, interp_state handle_srv (accept_loop srv) (mkAcceptEnv l true []) ≈ Ret (s, (served l).2) ∧
    ae_spawned s = task_of srv <$> (served l).1 ∧
    (Forall (λ a, ∃ sock, a = arrives sock true) l →
       (served l).1 = omap (λ a, match a with arrives sock _ => Some sock | _ => None end) l) ∧
    (∀ l1 l2, l = l1 ++ accept_error :: l2 ∨ l = l1 ++ arrives sock' false :: l2 →
       length (ae_spawned s) ≤ length l1).
Proof.
  pose proof (interp_accept srv l true []) as Hs. destruct (accept_all_served srv l true []) as [Hb Hsp].
  destruct (accept_all srv l true []) as [s b]. cbn [fst snd] in *. subst b.
  exists s. split_and!; [done|done| |].
  - clear. induction 1 as [|a l [sock ->] _ IH]; [done|]. cbn. rewrite <-IH. by destruct (served l).
  - intros l1 l2 Hl. rewrite Hsp. cbn. rewrite length_fmap. clear Hs Hsp s. revert l Hl.
    induction l1 as [|a l1 IH]; intros l Hl.
    + by destruct Hl as [->| ->].
    + destruct Hl as [->| ->]; (destruct a as [sock [|]|]; [|cbn; lia..]).
      1: specialize (IH _ (or_introl eq_refl)). 2: specialize (IH _ (or_intror eq_refl)).
      all: cbn; destruct (served _); cbn in *; lia.
Qed.

(** ** The task of a TLS connection *)

(** How [a || b] of asio's awaitable operators ends, and when. *)
Inductive race := first_won (at_ : nat) | second_won (at_ : nat) | both_failed (at_ : nat).

(** Operations that complete at a time, with success or not, or never.  [a || b]
    waits for one of them to succeed. *)
Class AwaitableOr := {
  either : option (nat * bool) → option (nat * bool) → option race;
  either_first t b :
    (∀ t', b = Some (t', true) → t < t') → either (Some (t, true)) b = Some (first_won t);
  either_second a t :
    (∀ t', a = Some (t', true) → t < t') → either a (Some (t, true)) = Some (second_won t);
}.

Context {OR : AwaitableOr}.

(** What the task does once the handshake is over. *)
Inductive tls_action := run_session (h : H2Session) | close_lowest_layer | drop_connection.

Definition tls_serve (hs : option (nat * bool)) (hs_timeout : nat) (max_streams : Z)
    : option (nat * tls_action) :=
  match either hs (Some (hs_timeout, true)) with
  | None => None
  | Some (second_won t) => Some (t, close_lowest_layer)
  | Some (first_won t) => Some (t, run_session (server_session max_streams))
  | Some (both_failed t) => Some (t, drop_connection)
  end.

(** C28. No client holds a connection in the TLS handshake longer than the
    timeout: by then the session runs, when the handshake succeeded in time, or the
    connection is closed.  A handshake that fails is not dropped earlier: the
    operator goes on waiting for the timer. *)
Theorem tls_handshake_deadline hs hs_timeout max_streams :
  hs ≠ Some (hs_timeout, true) →
  ∃ t act, tls_serve hs hs_timeout max_streams = Some (t, act) ∧ t ≤ hs_timeout ∧
    (act = run_session (server_session max_streams) ↔ ∃ t0, hs = Some (t0, true) ∧ t0 < hs_timeout) ∧
    (∀ t0, hs = Some (t0, false) → t = hs_timeout ∧ act = close_lowest_layer).
Proof.
  intros Hne. unfold tls_serve.
  destruct hs as [[t0 [|]]|].
  - destruct (decide (t0 < hs_timeout)) as [Ht|Ht].
    + rewrite either_first by (by intros ? [= <-]). eexists _, _. split_and!; [done|lia| |done].
      split; [by intros _; eexists|done].
    + assert (hs_timeout < t0) by (destruct (decide (t0 = hs_timeout)); [by subst|lia]).
      rewrite either_second by (by intros ? [= <-]). eexists _, _. split_and!; [done|lia| |done].
      split; [done|]. intros (?&[= <-]&?). lia.
  - rewrite either_second by done. eexists _, _. split_and!; [done|lia| |done].
    split; [done|]. by intros (?&?&_).
  - rewrite either_second by done. eexists _, _. split_and!; [done|lia| |done].
    split; [done|]. by intros (?&?&_).
Qed.
End server.

(** ** The coroutine of a stream *)
Section stream.
Context {CL : ChannelLib}.

(** What the coroutine of a new stream does: the server's part, and the calls of
    the Python handler.  [Receive] gives [None] when [receive_frame] throws. *)
Variant streamE : Type → Type :=
| LockSession : streamE bool
| QueueWrapper : streamE unit
| Receive : streamE (option h2_frame)
| PushFrame (f : h2_frame) : streamE unit
| SetEofClear : streamE unit
| SetEofClose : streamE unit
| CloseStream : streamE unit
| ReleaseTransport : streamE unit.

(** The handler given to [set_new_stream_handler]: the handler's coroutine ends
    with [false] when it threw. *)
Definition stream_handler (handle : itree streamE bool) : itree streamE unit :=
  await alive := ITree.trigger LockSession in
  if alive : bool then
    await _returned := handle in
    ITree.trigger CloseStream ;;;
    ITree.trigger ReleaseTransport
  else Ret tt.

(** [PyH2SessionHandler::handle]. *)
Definition receive_body (_ : unit) : itree streamE (unit + unit) :=
  await r := ITree.trigger Receive in
  match r with
  | Some f => ITree.trigger (PushFrame f) ;;; Ret (inl tt)
  | None => Ret (inr tt)
  end.

Definition py_handle : itree streamE bool :=
  ITree.trigger QueueWrapper ;;;
  ITree.iter receive_body tt ;;;
  ITree.trigger SetEofClear ;;;
  ITree.trigger SetEofClose ;;;
  Ret true.

(** The stream [se_sid] of a session, the results of [receive_frame] still to
    come, and the Python side.  [se_resumed] is the answer of
    [nghttp2_session_resume_data]. *)
Record stream_env := mkStreamEnv {
  se_alive : bool;
  se_sid : Z;
  se_resumed : bool;
  se_h2 : H2Session;
  se_frames : list h2_frame;
  se_wrapper : PyServerTransport;
  se_server : PyH2Server;
  se_effects : list effect;
}.

Definition with_wrapper (t : PyServerTransport) (s : stream_env) : stream_env :=
  mkStreamEnv (se_alive s) (se_sid s) (se_resumed s) (se_h2 s) (se_frames s) t (se_server s) (se_effects s).

Definition do_queue (s : stream_env) : stream_env :=
  mkStreamEnv (se_alive s) (se_sid s) (se_resumed s) (se_h2 s) (se_frames s) new_transport
    (handle_begin (Z.to_nat (se_sid s)) (se_server s)) (se_effects s).

Definition do_receive (s : stream_env) : stream_env * option h2_frame :=
  match se_frames s with
  | [] => (with_wrapper (with_handler caught (se_wrapper s)) s, None)
  | f :: fs => (mkStreamEnv (se_alive s) (se_sid s) (se_resumed s) (se_h2 s) fs (se_wrapper s)
                  (se_server s) (se_effects s), Some f)
  end.

Definition do_close (s : stream_env) : stream_env :=
  let '(h, es) := h2_close (se_sid s) 0 [] (se_resumed s) (se_h2 s) in
  mkStreamEnv (se_alive s) (se_sid s) (se_resumed s) h (se_frames s) (se_wrapper s) (se_server s)
    (se_effects s ++ es).

Definition handle_stream : streamE ~> Monads.stateT stream_env (itree void1) := λ _ e s,
  match e with
  | LockSession => Ret (s, se_alive s)
  | QueueWrapper => Ret (do_queue s, tt)
  | Receive => Ret (do_receive s)
  | PushFrame f => Ret (with_wrapper (push_frame f (se_wrapper s)) s, tt)
  | SetEofClear => Ret (with_wrapper (set_eof_clear (se_wrapper s)) s, tt)
  | SetEofClose => Ret (with_wrapper (set_eof_close (se_wrapper s)) s, tt)
  | CloseStream => Ret (do_close s, tt)
  | ReleaseTransport => Ret (with_wrapper (destroy (se_wrapper s)) s, tt)
  end.

Ltac await_event := erewrite interp_await by (by apply interp_event); cbn [fst snd].

(** The frames, one after the other, and then the exception. *)
Definition received (fs : list h2_frame) (s : stream_env) : stream_env :=
  mkStreamEnv (se_alive s) (se_sid s) (se_resumed s) (se_h2 s) []
    (with_handler caught (foldl (flip push_frame) (se_wrapper s) fs)) (se_server s) (se_effects s).

Lemma interp_receive fs : ∀ s,
  se_frames s = fs → interp_state handle_stream (ITree.iter receive_body tt) s ≈ Ret (received fs s, tt).
Proof.
  induction fs as [|f fs IH]; intros s Hs; rewrite unfold_iter; unfold receive_body at 1;
    rewrite bind_bind; await_event; unfold do_receive; rewrite Hs; cbn [fst snd].
  - rewrite bind_ret_l, interp_state_ret. unfold received, with_wrapper. cbn. by rewrite Hs.
  - rewrite bind_bind. await_event. rewrite bind_ret_l, interp_state_tau, tau_eutt, IH by done.
    reflexivity.
Qed.

(** When the handler's coroutine ends, in whatever way, the stream is closed and
    the transport released. *)
Lemma interp_stream_handler handle s s1 b :
  se_alive s = true → interp_state handle_stream handle s ≈ Ret (s1, b) →
  interp_state handle_stream (stream_handler handle) s ≈
    Ret (with_wrapper (destroy (se_wrapper (do_close s1))) (do_close s1), tt).
Proof.
  intros Ha Hh. unfold stream_handler. await_event. rewrite Ha.
  rewrite interp_await by exact Hh. cbn [fst snd]. await_event. by apply interp_event.
Qed.

Lemma interp_py_handle s :
  interp_state handle_stream py_handle s ≈
    Ret (with_wrapper (set_eof_close (set_eof_clear
           (se_wrapper (received (se_frames s) (do_queue s))))) (received (se_frames s) (do_queue s)), true).
Proof.
  unfold py_handle. await_event. rewrite interp_await by (by apply interp_receive). cbn [fst snd].
  do 2 await_event. rewrite interp_state_ret. reflexivity.
Qed.

(** What a stream does to the Python side, as events of its transport. *)
Definition stream_events (fs : list h2_frame) : list server_event :=
  (se_frame <$> fs) ++ [se_error; se_clear; se_close; se_end].

Lemma frames_run fs : ∀ t,
  handler t = receiving →
  foldl (λ t e, t ≫= λ t, server_step t e) (Some t) (se_frame <$> fs) = Some (foldl (flip push_frame) t fs) ∧
  handler (foldl (flip push_frame) t fs) = receiving.
Proof.
  induction fs as [|f fs IH]; intros t Ht; [done|]. cbn. rewrite Ht. by apply IH.
Qed.

Lemma frames_queued fs : ∀ t,
  q_ (rx_queue_ (foldl (flip push_frame) t fs)) = q_ (rx_queue_ t) ++ fs.
Proof.
  induction fs as [|f fs IH]; intros t; cbn; [by rewrite app_nil_r|].
  rewrite IH. cbn. by rewrite <-app_assoc.
Qed.

(** C25. A stream of the Python server, from its HEADERS to the release of its
    transport: its session is queued for [accept], every frame that arrives is
    queued for Python in order, the exception at the end of the stream closes the
    queue, and the HTTP/2 stream is closed.  The Python side has gone through
    exactly the events of [stream_events]. *)
Theorem py_stream_served s :
  se_alive s = true →
  ∃ s', interp_state handle_stream (stream_handler py_handle) s ≈ Ret (s', tt) ∧
    server_run (stream_events (se_frames s)) = Some (se_wrapper s') ∧
    q_ (rx_queue_ (se_wrapper s')) = se_frames s ∧ closed_ (rx_queue_ (se_wrapper s')) = true ∧
    se_server s' = handle_begin (Z.to_nat (se_sid s)) (se_server s) ∧
    (se_h2 s', se_effects s') =
      ((close_stream (se_sid s) 0 (se_resumed s) (se_h2 s)).1,
       se_effects s ++ (close_stream (se_sid s) 0 (se_resumed s) (se_h2 s)).2).
Proof.
  intros Ha. eexists. split; [eapply interp_stream_handler; [done|apply interp_py_handle]|].
  unfold do_close, h2_close. cbn [se_sid se_resumed se_h2 received do_queue with_wrapper].
  destruct (close_stream _ 0 _ _) as [h es]. cbn [se_wrapper se_server se_h2 se_effects fst snd].
  assert (server_run (stream_events (se_frames s)) = Some
    (destroy (set_eof_close (set_eof_clear (with_handler caught (foldl (flip push_frame) new_transport (se_frames s)))))))
    as Hrun.
  { unfold server_run, stream_events. rewrite foldl_app.
    destruct (frames_run (se_frames s) new_transport eq_refl) as [-> Hh]. cbn. by rewrite Hh. }
  split_and!; [done|by apply (frames_queued (se_frames s) new_transport)|done..].
Qed.
End stream.

(** ** Examples *)
#[local] Existing Instance list_channel_lib.

(** [||] computed: the earlier success, or the later of two failures. *)
Definition either_of (a b : option (nat * bool)) : option race :=
  match a, b with
  | Some (t, true), Some (t', true) => Some (if decide (t < t') then first_won t else second_won t')
  | Some (t, true), _ => Some (first_won t)
  | _, Some (t', true) => Some (second_won t')
  | Some (t, false), Some (t', false) => Some (both_failed (t `max` t'))
  | _, _ => None
  end.

#[local] Instance either_of_lib : AwaitableOr.
Proof.
  refine {| either := either_of |}.
  - intros t [[t' [|]]|] H; cbn; [|done..]. by rewrite decide_True by auto.
  - intros [[t' [|]]|] t H; cbn; [|done..]. rewrite decide_False; [done|]. specialize (H t' eq_refl). lia.
Defined.

Lemma tls_handshake_deadline_witness :
  ∃ t act, tls_serve (Some (3, false)) 10 100 = Some (t, act) ∧ t = 10 ∧ act = close_lowest_layer.
Proof.
  destruct (tls_handshake_deadline (Some (3, false)) 10 100) as (t&act&H&_&_&Hf); [done|].
  exists t, act. split; [exact H|]. by apply (Hf 3).
Defined.

Definition demo_h2_stream : stream_env :=
  mkStreamEnv true 1 true (get_or_create_stream 1 (server_session 100)).2
    [(kTypeControl, str "a"); (kTypeMedia, str "b")] new_transport
    (mkPyServer true new_queue) [].

Lemma py_stream_served_witness :
  ∃ s', interp_state handle_stream (stream_handler py_handle) demo_h2_stream ≈ Ret (s', tt) ∧
        q_ (rx_queue_ (se_wrapper s')) = [(kTypeControl, str "a"); (kTypeMedia, str "b")].
Proof.
  destruct (py_stream_served demo_h2_stream eq_refl) as (s'&H&_&Hq&_). exists s'. by split.
Defined.
