(* ===== verification/PyLoop.v ===== *)
(** * culpeostream-py: the event loops of client and server

    [PyH2Client] and [PyH2Server] of [culpeostream-py/src/bindings.cpp] own an
    [io_context], a work guard and the thread that runs it.  Their constructors
    start the thread, the methods hand coroutines to it and wait, the destructors
    let it run dry and join it.  The connections on the loop are those of
    [H2Pool]. *)

From ITree Require Import ITree ITreeFacts.
From S2P Require Import Prelude Bytes H2Frame H2Session H2Facts H2Safety H2Theorems H2Run H2Pool H2Client H2Endpoints PyServer.

Local Open Scope co_scope.

Section loop.
Context {CL : ChannelLib} {NG : Nghttp2}.

(** ** The objects *)

(** What a client and a server differ in: the state besides the loop, the first part
    of the destructor, and the connections that can come up, given whether an
    accept loop runs. *)
Class LoopOwner := {
  owner : Type;
  release : owner → owner;
  new_connection : owner → bool → config → Prop;
}.

(** [PyH2Client]: [client_] is reset; the coroutines of a connection keep its
    session alive. *)
Definition client_owner : LoopOwner := {|
  owner := option CulpeoH2Client;
  release _ := None;
  new_connection o _ w := o ≠ None ∧
    w = (init_nghttp2 (new_h2_session Client kDefaultMaxConcurrentStreams), [detached run_rest]);
|}.

(** [PyH2Server]: [server_->stop()] and [session_queue_.close()]. *)
Definition server_owner : LoopOwner := {|
  owner := CulpeoH2Server * PyH2Server;
  release := py_server_stop;
  new_connection o accepting w :=
    accepting = true ∧ acceptor_open o.1 = true ∧
    w = accepted (opt_max_concurrent_streams (srv_opts o.1));
|}.

(** The [io_context] with its work: the connections, the accept loop of a server and
    the guard, and whether its thread is in [run]. *)
Record io_context := mkIoc {
  ioc_connections : list config;
  ioc_accepting : bool;
  ioc_guard : bool;
  ioc_running : bool;
}.

(** No work is outstanding: [io_context::run] returns. *)
Definition idle (c : io_context) : Prop :=
  ioc_guard c = false ∧ ioc_accepting c = false ∧
  Forall (λ w : config, Forall (eq finished) w.2) (ioc_connections c).

(** How far the destructor is. *)
Inductive lifetime := alive | released | unguarded | destroyed.

Context {LO : LoopOwner}.

Record py_object := mkPyObject {
  ob_lifetime : lifetime;
  ob_owner : owner;
  ob_ioc : io_context;
}.

(** The constructors, when the client or server object has been made. *)
Definition make_object (o : owner) (accepting : bool) : py_object :=
  mkPyObject alive o (mkIoc [] accepting true true).

Inductive py_event :=
| io_connection_event (p : nat) (ev : pool_event)
| io_new_connection
| io_accept_ends
| io_returns
| dtor_release
| dtor_reset_work
| dtor_join.

(** The handler of the streams, and the coroutines that Python calls spawn. *)
Context (hdl : ISessionHandler) (outside : itree h2E unit → Prop).

(** A step of the loop's thread, or of the destructor. *)
Inductive loop_step : py_object → py_event → py_object → Prop :=
| loop_connection l o ws acc g p w ev w' :
    ws !! p = Some w → pool_step hdl outside w ev w' →
    loop_step (mkPyObject l o (mkIoc ws acc g true)) (io_connection_event p ev)
              (mkPyObject l o (mkIoc (<[p := w']> ws) acc g true))
| loop_new_connection l o ws acc g w :
    new_connection o acc w →
    loop_step (mkPyObject l o (mkIoc ws acc g true)) io_new_connection
              (mkPyObject l o (mkIoc (ws ++ [w]) acc g true))
| loop_accept_ends l o ws g :
    loop_step (mkPyObject l o (mkIoc ws true g true)) io_accept_ends
              (mkPyObject l o (mkIoc ws false g true))
| loop_returns l o ws acc g :
    idle (mkIoc ws acc g true) →
    loop_step (mkPyObject l o (mkIoc ws acc g true)) io_returns
              (mkPyObject l o (mkIoc ws acc g false))
| loop_release o c :
    loop_step (mkPyObject alive o c) dtor_release (mkPyObject released (release o) c)
| loop_reset_work o ws acc g r :
    loop_step (mkPyObject released o (mkIoc ws acc g r)) dtor_reset_work
              (mkPyObject unguarded o (mkIoc ws acc false r))
| loop_join o ws acc g :
    loop_step (mkPyObject unguarded o (mkIoc ws acc g false)) dtor_join
              (mkPyObject destroyed o (mkIoc ws acc g false)).

Inductive loop_run : py_object → list py_event → py_object → Prop :=
| loop_run_nil s : loop_run s [] s
| loop_run_cons s ev s1 evs s' : loop_step s ev s1 → loop_run s1 evs s' → loop_run s (ev :: evs) s'.

(** [spawn_void] and [spawn_result]: the call with coroutine [i] of connection [p]
    returns. *)
Definition call_returns (p i : nat) (s : py_object) : Prop :=
  ∃ w, ioc_connections (ob_ioc s) !! p = Some w ∧ w.2 !! i = Some finished.

(** ** Facts *)

(** Once its thread has left it, the loop is idle; before, the object still exists. *)
Definition loop_inv (s : py_object) : Prop :=
  (ioc_running (ob_ioc s) = false → idle (ob_ioc s)) ∧
  (ob_lifetime s = destroyed → ioc_running (ob_ioc s) = false).

Lemma loop_inv_step s ev s' : loop_step s ev s' → loop_inv s → loop_inv s'.
Proof.
  destruct 1; intros [Hi Hd]; unfold loop_inv in *; cbn in *; split; try done; try (intros; by specialize (Hd ltac:(done))).
  intros Hr. destruct (Hi Hr) as (_&Ha&Hw). by split.
Qed.

Lemma loop_inv_run s evs s' : loop_run s evs s' → loop_inv s → loop_inv s'.
Proof. induction 1; eauto using loop_inv_step. Qed.

(** A coroutine that waits for the socket. *)
Definition waits (p i : nat) (s : py_object) : Prop :=
  ∃ w k, ioc_connections (ob_ioc s) !! p = Some w ∧ w.2 !! i = Some (reading k).

Lemma loop_step_waits s ev s' p i :
  loop_step s ev s' → waits p i s → ev ≠ io_connection_event p (pe_read i) → waits p i s'.
Proof.
  intros Hs (w&k&Hp&Hi) Hev. destruct Hs as [l o ws acc g q w1 ev w1' Hq Hstep|l o ws acc g w1 _| | | | |];
    cbn in Hp |- *; try (by exists w, k).
  - destruct (decide (q = p)) as [->|Hne].
    + pose proof (eq_trans (eq_sym Hp) Hq) as [= <-]. exists w1', k.
      split; [apply list_lookup_insert_eq, (lookup_lt_Some _ _ _ Hp)|].
      eapply pool_step_waits; [done..|]. by intros ->.
    + exists w, k. split; [|done]. etrans; [by apply list_lookup_insert_ne|done].
  - exists w, k. split; [by apply lookup_app_l_Some|done].
Qed.

Lemma idle_no_wait s p i : idle (ob_ioc s) → ¬ waits p i s.
Proof.
  intros (_&_&Hw) (w&k&Hp&Hi). rewrite Forall_lookup in Hw. specialize (Hw _ _ Hp).
  rewrite Forall_lookup in Hw. by specialize (Hw _ _ Hi).
Qed.

(** The destructor's run when the only coroutine waits for the socket, which fails. *)
Definition closing_events (es : list effect) : list py_event :=
  [dtor_release; dtor_reset_work; io_connection_event 0 (pe_read 0); io_connection_event 0 (pe_turn 0 es);
   io_returns; dtor_join].

Lemma closing_run o c k c' es :
  turn c (k None) c' finished es → spawned hdl es = [] →
  loop_run (mkPyObject alive o (mkIoc [(c, [reading k])] false true true)) (closing_events es)
    (mkPyObject destroyed (release o) (mkIoc [(c', [finished])] false false false)).
Proof.
  intros Ht Hes. unfold closing_events.
  eapply loop_run_cons; [apply loop_release|]. eapply loop_run_cons; [apply loop_reset_work|].
  eapply loop_run_cons; [eapply loop_connection with (p := 0); [reflexivity|]; by eapply step_read with (r := None)|].
  eapply loop_run_cons; [eapply loop_connection with (p := 0); [reflexivity|]; by eapply step_turn with (i := 0)|].
  cbn. rewrite Hes. eapply loop_run_cons; [apply loop_returns|].
  { split_and!; [done..|]. cbn. repeat constructor. }
  eapply loop_run_cons; [apply loop_join|]. apply loop_run_nil.
Qed.

(** ** Theorems *)

(** C18. The destructor of a Python client or server returns only when everything on
    its loop is over: the accept loop and every coroutine of every connection have
    ended, and every call that waits for one has its result.  In particular a loop
    of a connection that waits for the socket has been answered: while the peer
    stays connected and silent, the destructor blocks. *)
Theorem py_destructor_waits s evs s' :
  ioc_running (ob_ioc s) = true → ob_lifetime s ≠ destroyed → loop_run s evs s' → ob_lifetime s' = destroyed →
  ioc_accepting (ob_ioc s') = false ∧
  (∀ p w i, ioc_connections (ob_ioc s') !! p = Some w → i < length w.2 → call_returns p i s') ∧
  ∀ p i, waits p i s → io_connection_event p (pe_read i) ∈ evs.
Proof.
  intros Hr Hl Hrun Hd.
  assert (loop_inv s') as [Hidle Hdead] by (eapply loop_inv_run; [done|]; split; congruence).
  specialize (Hdead Hd). specialize (Hidle Hdead). pose proof Hidle as (_&Hacc&Hw). split_and!; [done| |].
  - intros p w i Hp Hi. rewrite Forall_lookup in Hw. specialize (Hw _ _ Hp).
    destruct (lookup_lt_is_Some_2 _ _ Hi) as [st Hst]. rewrite Forall_lookup in Hw.
    specialize (Hw _ _ Hst) as <-. by exists w.
  - intros p i. clear -Hrun Hidle. induction Hrun as [s|s ev s1 evs s' Hs Hrun IH]; intros Hwait.
    + by destruct (idle_no_wait s p i Hidle).
    + assert (ev = io_connection_event p (pe_read i) ∨ ev ≠ io_connection_event p (pe_read i)) as [->|Hne]
        by (destruct ev as [q [j es|j|j|j sd r|j|]| | | | | |]; try (right; done);
            destruct (decide (q = p ∧ j = i)) as [[-> ->]|]; [by left|right; naive_solver]).
      * by left.
      * right. apply IH; [done|]. by eapply loop_step_waits.
Qed.

(** The destructor does return once the peer has closed: with one connection
    whose loop runs on, the accept loop over and no call in progress, a single
    answer of the socket lets the loop of the connection close its session, the
    thread return and the destructor join it. *)
Theorem py_destructor_returns o c :
  h2_closed c.1 = false →
  ∃ s', loop_run (mkPyObject alive o (mkIoc [(c, [detached run_from_loop])] false true true))
      (io_connection_event 0 (pe_turn 0 []) :: closing_events [socket_close]) s' ∧
    ob_lifetime s' = destroyed ∧
    ∀ w, w ∈ ioc_connections (ob_ioc s') → h2_closed w.1.1 = true.
Proof.
  intros Hc. destruct run_reads as (k&H1&H2). specialize (H1 c Hc). specialize (H2 c). eexists. split.
  { eapply loop_run_cons; [eapply loop_connection with (p := 0); [reflexivity|]; by eapply step_turn with (i := 0)|].
    by eapply closing_run. }
  split; [done|]. intros w Hw. cbn in Hw. apply list_elem_of_singleton in Hw as ->. done.
Qed.
End loop.

(** ** Constructors and default arguments *)
Section module.
Context {CL : ChannelLib} {NG : Nghttp2}.

(** How the client verifies a server over TLS. *)
Record tls_context := mkTls { verify_peer : bool; default_verify_paths : bool }.

(** [H2Client(cleartext=True)]: the object with its loop, and its TLS context. *)
Definition PyH2Client_init (cleartext : option bool) : py_object (LO := client_owner) * option tls_context :=
  let cleartext := default true cleartext in
  (make_object (LO := client_owner) (Some (new_client cleartext)) false,
   if cleartext then None else Some (mkTls true true)).

(** [H2Server(port=0, cleartext=True)]: [None] when the port does not fit; [bind] is
    the port the system gives. *)
Definition PyH2Server_init (port : option Z) (cleartext : option bool) (bind : Z → option Z)
    : option (expected client_error (py_object (LO := server_owner))) :=
  let port := default 0%Z port in
  if decide (0 ≤ port < 2 ^ 16)%Z then
    Some match make_py_server (default true cleartext) (bind port) with
         | Ok s => Ok (make_object (LO := server_owner) s true)
         | Err e => Err e
         end
  else None.

Definition py_server_port (s : py_object (LO := server_owner)) : Z := server_port (ob_owner s).1.

Definition client_connect_default (outside : itree h2E unit → Prop) (host port : bytes) (path : option bytes) :=
  py_client_connect outside host port (default (str "/") path).

Definition close_transport_default (code : option Z) (reason : option bytes) : request :=
  ask_close (default 1000%Z code) (default (str "normal") reason).

(** A server made with the defaults accepts connections at the port the system
    chose, and none once it has been released. *)
Lemma default_server_accepts bind p hdl outside s :
  bind 0%Z = Some p → PyH2Server_init None None bind = Some (Ok s) →
  py_server_port s = p ∧
  (∃ s', loop_step (LO := server_owner) hdl outside s io_new_connection s') ∧
  ∀ c w, ¬ new_connection (LoopOwner := server_owner) (release (LoopOwner := server_owner) (ob_owner s)) c w.
Proof.
  intros Hb. unfold PyH2Server_init. cbn. rewrite Hb. cbn. intros [= <-]. split_and!; [done| |].
  - eexists. by eapply loop_new_connection.
  - intros c w (_&?&_). done.
Qed.
End module.

(** ** A client whose peer closes *)
Section examples.
#[local] Existing Instance list_channel_lib.
#[local] Existing Instance queue_engine.
#[local] Existing Instance client_owner.

Definition connected : conn := (e_conn (demo_h2_env [])).

Definition connected_client : py_object :=
  mkPyObject alive (Some (new_client true)) (mkIoc [(connected, [detached run_from_loop])] false true true).

Lemma py_destructor_returns_witness :
  ∃ evs s', loop_run drain_frames_handler (λ _, True) connected_client evs s' ∧ ob_lifetime s' = destroyed.
Proof.
  eexists.
  destruct (py_destructor_returns (LO := client_owner) drain_frames_handler (λ _, True) (Some (new_client true)) connected)
    as (s'&Hrun&Hd&_); [reflexivity|].
  exists s'. split; [exact Hrun|exact Hd].
Defined.

Lemma py_destructor_waits_witness :
  ∃ s s' evs, loop_run drain_frames_handler (λ _, True) s evs s' ∧ ob_lifetime s' = destroyed ∧ waits 0 0 s ∧
    io_connection_event 0 (pe_read 0) ∈ evs.
Proof.
  destruct run_reads as (k&_&H2). specialize (H2 connected).
  set (s := mkPyObject (LO := client_owner) alive (Some (new_client true)) (mkIoc [(connected, [reading k])] false true true)).
  assert (waits 0 0 s) as Hwait by (by exists (connected, [reading k]), k).
  pose proof (closing_run drain_frames_handler (λ _, True) (Some (new_client true)) connected k _ _ H2 eq_refl) as Hrun.
  exists s. do 2 eexists. split_and!; [exact Hrun|reflexivity|exact Hwait|].
  eapply (py_destructor_waits (LO := client_owner) drain_frames_handler (λ _, True) s);
    [done|done|exact Hrun|reflexivity|exact Hwait].
Defined.
End examples.
