(* ===== verification/H2Media.v ===== *)
(** * Media over HTTP/2

    A session sends media through [H2Transport]: [Session::send_media] of
    libculpeo-session, [H2Session::send_frame] and [receive_frame] of
    libculpeo-transport-h2 and the parser of libculpeo-message at the peer. *)

From S2P Require Import Prelude Bytes Message ParseFacts Serialize Codec SessionTypes OffsetTracker StreamRegistry.
From S2P Require Import Session SessionFacts SessionSpec SessionSafety SessionDemo SessionTheorems.
From S2P Require Import H2Frame H2Session H2Facts H2Theorems.

Section media.
Context {ST : SizeT} {CL : ChannelLib}.

(** [send_media] for each message, with the frames given to [send_binary]; [None]
    when a call fails. *)
Fixpoint send_all_media (env : Env) (reply : op → answer) (id : bytes) (msgs : list (bytes * Z))
    (s : Impl) : option (Impl * list bytes) :=
  match msgs with
  | [] => Some (s, [])
  | (payload, ts) :: msgs =>
      match run env reply (send_media id payload ts) s with
      | (Some (Ok _), s, [send_binary fr]) =>
          '(s, frs) ← send_all_media env reply id msgs s; Some (s, fr :: frs)
      | _ => None
      end
  end.

(** The stream after the messages, when no offset overflows. *)
Fixpoint advance_all (st : StreamInfo) (msgs : list (bytes * Z)) : option StreamInfo :=
  match msgs with
  | [] => Some st
  | (payload, _) :: msgs =>
      match advance_offset st (Z.of_nat (length payload)) with
      | Ok st => advance_all st msgs
      | Err _ => None
      end
  end.

(** Frames that a receiver parses and accepts one after the other: the bodies and
    timestamps it gets, and its registry afterwards. *)
Inductive accepted_run (id : bytes) :
  list h2_frame → StreamRegistry → list (bytes * Z) → StreamRegistry → Prop :=
| accepted_none r : accepted_run id [] r [] r
| accepted_next fr frs r p st st' ts msgs r' :
    parse_headers default_limits media fr = Ok p → accepts p r id st st' ts →
    accepted_run id frs (set_stream id st' r) msgs r' →
    accepted_run id ((kTypeMedia, fr) :: frs) r ((sv_chars (body p), ts) :: msgs) r'.

(** A stream of the receiver that mirrors one of the sender. *)
Record mirrors (st0 st : StreamInfo) : Prop := {
  mir_direction : si_direction st0 ≠ output;
  mir_type : si_content_type st0 = si_content_type st;
  mir_offset : si_offset st0 = si_offset st;
  mir_kind : si_offset_type st0 = si_offset_type st;
  mir_pcm : si_pcm_params st0 = si_pcm_params st;
}.

Definition message_ok (m : bytes * Z) : Prop :=
  (Z.of_nat (length m.1) < 2 ^ 31)%Z ∧ (0 ≤ m.2 ≤ uint64_max)%Z.

Lemma set_offset_id st o : si_offset (set_offset st o) = o.
Proof. done. Qed.

Lemma send_all_media_accepted env reply id msgs : ∀ s st st',
  (∀ o, reply o = returned true) →
  state s = established → find_stream id (registry s) = Some st → stream_in_range st →
  si_direction st ≠ input → sendable_stream id st →
  Forall message_ok msgs → advance_all st msgs = Some st' →
  ∃ s' frs, send_all_media env reply id msgs s = Some (s', frs) ∧ length frs = length msgs ∧
    find_stream id (registry s') = Some st' ∧
    ∀ r st0, streams_ r !! id = Some st0 → mirrors st0 st →
      ∃ r' st0', accepted_run id ((kTypeMedia,.) <$> frs) r msgs r' ∧
        streams_ r' !! id = Some st0' ∧ mirrors st0' st'.
Proof.
  induction msgs as [|[payload ts] msgs IH]; intros s st st' Hreply He Hfind Hrange Hdir Hsend Hm Hadv.
  { injection Hadv as <-. exists s, []. split_and!; [done..|]. intros r st0 Hr Hmir.
    exists r, st0. split_and!; [constructor|done|done]. }
  apply Forall_cons_1 in Hm as [[Hlen Hts] Hm]. cbn [fst snd] in Hlen, Hts. cbn [advance_all] in Hadv.
  destruct (advance_offset st (Z.of_nat (length payload))) as [st1|] eqn:Ha; [|done].
  pose proof (advance_offset_in_range _ _ _ (Zle_0_nat _) Hrange Ha) as Hrange1.
  destruct (advance_offset_Ok _ _ _ (Zle_0_nat _) Hrange Ha) as (k&_&_&Hst1&_).
  destruct (send_media_accepted s env reply id st st1 payload ts) as (fr&p&Hrun&Hp&Hft&Hb&Hacc); [done..|].
  destruct (IH (with_registry (set_stream id st1 (registry s)) s) st1 st')
    as (s'&frs&Hs&Hl&Hf&Hmore); [done|done| |done|by subst st1|by subst st1|done|done|].
  { cbn. unfold find_stream. cbn. by rewrite lookup_insert_eq. }
  exists s', (fr :: frs). split_and!; [cbn [send_all_media]; by rewrite Hrun, Hs|cbn; by rewrite Hl|done|].
  intros r st0 Hr [Hd Hct Ho Hot Hpcm]. specialize (Hacc r st0 Hr Hd Hct Ho Hot Hpcm).
  destruct (Hmore (set_stream id (set_offset st0 (si_offset st1)) r) (set_offset st0 (si_offset st1)))
    as (r'&st0'&Hrest&?&?).
  { cbn. by rewrite lookup_insert_eq. }
  { subst st1. by split. }
  exists r', st0'. split_and!; [|done..]. rewrite <-Hb. by econstructor.
Qed.

(** C12. Media from a session to its peer over one HTTP/2 stream: for every sequence
    of messages whose offsets do not overflow, [send_media] succeeds each time; the
    frames, sent with [send_binary] on a fresh stream, read by nghttp2 in reads of
    at least one byte and cut into any DATA chunks, are the ones [receive_frame]
    returns at the peer; and a peer with the same stream at the same offset parses
    and accepts each of them, gets the payloads and timestamps that were sent, and
    ends at the sender's offset. *)
Theorem media_over_http2 env reply id msgs s st st' sid h g r st0 :
  (∀ o, reply o = returned true) →
  state s = established → find_stream id (registry s) = Some st → stream_in_range st →
  si_direction st ≠ input → sendable_stream id st →
  Forall message_ok msgs → advance_all st msgs = Some st' →
  h2_closed h = false → streams h !! sid = None →
  sid ∉ refused_streams g → streams g !! sid = Some new_stream → length msgs ≤ kChannelCapacity →
  streams_ r !! id = Some st0 → mirrors st0 st →
  ∃ s' frs, send_all_media env reply id msgs s = Some (s', frs) ∧
    find_stream id (registry s') = Some st' ∧
    (Forall (λ fr, Z.of_nat (length fr) < kH2MaxFrameSize)%Z frs →
     ∃ h', send_frames sid ((kTypeMedia,.) <$> frs) h = Some h' ∧
       ∀ lens chunks,
         Forall (λ l, 1 ≤ l) lens → length (queued sid h') ≤ length lens →
         concat chunks = concat (pull sid lens h').1 →
         ∃ received r' st0',
           (receive_n sid (length msgs) (deliver sid chunks (receive_frame sid g).2)).1 = Ok <$> received ∧
           accepted_run id received r msgs r' ∧
           streams_ r' !! id = Some st0' ∧ si_offset st0' = si_offset st').
Proof.
  intros Hreply He Hfind Hrange Hdir Hsend Hm Hadv Hc Hs Hr Hg Hcap Hst0 Hmir.
  destruct (send_all_media_accepted env reply id msgs s st st')
    as (s'&frs&Hall&Hlen&Hfind'&Hacc); [done..|].
  exists s', frs. split_and!; [done..|]. intros Hsize.
  destruct (frames_delivered sid ((kTypeMedia,.) <$> frs) [] h g) as (h'&Hsent&_);
    [done|done|by apply Forall_fmap|done|done|by rewrite length_fmap, Hlen|].
  exists h'. split; [done|]. intros lens chunks Hl Hq Hch.
  destruct (frames_delivered sid ((kTypeMedia,.) <$> frs) lens h g) as (h''&Hsent'&Hdel);
    [done|done|by apply Forall_fmap|done|done|by rewrite length_fmap, Hlen|].
  rewrite Hsent in Hsent'. injection Hsent' as <-.
  destruct (Hdel Hl Hq chunks Hch) as [Hrecv _]. rewrite length_fmap, Hlen in Hrecv.
  destruct (Hacc r st0 Hst0 Hmir) as (r'&st0'&Hrun&Hst'&Hmir').
  exists ((kTypeMedia,.) <$> frs), r', st0'. split_and!; [done..|by destruct Hmir'].
Qed.
End media.

(** ** Examples *)
#[local] Existing Instance list_channel_lib.

Definition demo_msgs : list (bytes * Z) := [(str "abc", 7%Z); (str "d", 8%Z)].

(** The frames of the demonstration session. *)
Definition demo_media : option (Impl * list bytes) :=
  send_all_media (ST := lp64) demo_env yes demo_id demo_msgs sample_session.

Lemma media_over_http2_witness :
  ∃ s' frs, demo_media = Some (s', frs) ∧ length frs = 2 ∧
    ∃ h', send_frames 1 ((kTypeMedia,.) <$> frs) (new_h2_session Client 100) = Some h' ∧
    ∃ received r', accepted_run (ST := lp64) demo_id received (registry sample_session) demo_msgs r'.
Proof.
  destruct (media_over_http2 (ST := lp64) demo_env yes demo_id demo_msgs sample_session sample_stream
    (set_offset sample_stream 2) 1 (new_h2_session Client 100) server1 (registry sample_session) sample_stream)
    as (s'&frs&Hall&_&Hrest).
  - done.
  - done.
  - by vm_compute.
  - eapply (sample_registry_ok demo_id). by vm_compute.
  - done.
  - apply sample_sendable.
  - repeat constructor; by_decide.
  - by vm_compute.
  - reflexivity.
  - reflexivity.
  - by_decide.
  - reflexivity.
  - by_decide.
  - by vm_compute.
  - by constructor.
  - exists s', frs. split; [exact Hall|].
    assert (option_map snd demo_media = Some frs) as Hd by (unfold demo_media; by rewrite Hall).
    clear Hall. set (x := demo_media) in Hd. vm_compute in x. subst x. cbn [option_map snd] in Hd.
    injection Hd as <-. split; [reflexivity|].
    destruct Hrest as (h'&Hs&Hdel); [repeat apply Forall_cons_2; [by_decide..|apply Forall_nil_2]|].
    exists h'. split; [exact Hs|].
    destruct (Hdel (repeat 1 (length (queued 1 h'))) [concat (pull 1 (repeat 1 (length (queued 1 h'))) h').1])
      as (received&r'&_&_&Hrun&_).
    + apply Forall_forall. intros l ->%list_elem_of_In%repeat_spec. lia.
    + by rewrite repeat_length.
    + apply app_nil_r.
    + exists received, r'. exact Hrun.
Defined.
